(* ===== verification/_CoqProject ===== *)
-Q . S2P
Prelude.v
Effects.v
Threads.v
RustStd.v
Time.v
Crlf.v
Command.v
Frame.v
CommandFrame.v
Cache.v
CacheSpec.v
Mpsc.v
Channels.v
Ports.v
Executor.v
Files.v
Persister.v
Recovery.v
Hazards.v
Races.v
Concurrent.v
ConcurrentSpec.v
Points.v
Linear.v
Reply.v
Inbound.v
Session.v
SessionSpec.v
Answers.v
Stream.v
WriteHalf.v
ReplSpec.v
Crowd.v
CrowdSpec.v
EndToEnd.v
Server.v
ServerSpec.v
TestKit.v
CodecTests.v
CommandTests.v
CacheTests.v
ServiceTests.v
SessionTests.v
PersisterTests.v
ServerTests.v
