(* ===== verification/Prelude.v ===== *)
(** * A verification development for steller

    steller is a key-value server that speaks a subset of RESP: strings with
    deadlines, an append-only log and snapshots for durability, and pub/sub.  This
    library translates its Rust sources (under [src/src/lib/]) and proves what makes
    them correct, and, where the code falls short of what its comments say, what
    happens instead.

    ** How the program fits together

    Bytes from a socket go through [SessionReader] (session.rs) to
    [Frame::parse_one] (frame.rs), the frame through [Command::try_from]
    (command.rs) to a [Command].  A cache command goes to the [Executor]
    (executor.rs): first to the [Cache] (cache.rs), then, if it is a write and the
    cache took it, re-encoded as a frame to the append-only log (aof.rs).  A channel
    command goes to the [Channels] registry (channels.rs).  The outcome becomes a
    [Reply] (inbound/mod.rs, reply.rs), queued on the session's mpsc queue, which a
    second thread of the session drains to the socket.  At startup the server loads
    the snapshot, replays the log through the same parser and the same cache
    operations, and sweeps expired keys; then it accepts connections, one session
    each, while a persistence thread takes snapshots and a sweeper drops expired
    keys, until a signal or the terminal shuts it down (server.rs).

    ** Files

    - [Prelude]: bytes, results, the state-and-error monad [M], generic lemmas.
    - [Effects]: lenses, mutexes (held, poisoned, contents) and [prog], a thread as a
      sequence of atomic steps.  [run] executes one alone, [sched] interleaves
      several, [states] and [always] speak of every state in between.
    - [Threads]: pools of such threads.  A thread has a ghost, an invariant ties the
      ghosts to the state, and [thread_ok] says that each step keeps the invariant
      and moves that thread's ghost only; [oblivious] threads do not notice a change
      of the state.
    - [RustStd]: [u64]/[u32]/[i64] arithmetic at its width, number parsing and
      printing, UTF-8 validation, [Write].  [Files]: files and [BufWriter], every
      operation of which may fail, a write part-way.  [Mpsc]: queues.
    - [Time] (domain/time.rs), [Command] (domain/command/), [Crlf] (resp/crlf.rs),
      [Frame] (resp/frame.rs), [CommandFrame] (resp/command.rs), [Reply]
      (resp/reply.rs), [Inbound] (inbound/mod.rs): data, codec and conversions.
    - [Cache] (domain/cache.rs): module [KvStore], each method the sequence of clock
      reads and critical sections of the source.  [CacheSpec]: the abstract store
      and the refinement.
    - [Channels] (domain/channels.rs): the registry.
    - [Ports] (domain/ports.rs): the traits [CacheRepository] and [Execute] as
      classes, and [RepositoryLaws], what the executor relies on.  [Executor]
      (domain/executor.rs) is proved against [RepositoryLaws]; the recording
      repository of test_support.rs and the persister are its instances.
    - [Persister] (outbound/persister/): module [Aof], the snapshot, both behind the
      port.  [Recovery]: startup (the first lines of [Server::run]) and the invariant
      [durable] between files and cache.  [Hazards] and [Races]: restarts that lose
      acknowledged writes, and interleavings that do.
    - [Concurrent]: the persistence and the sweeper loop of server.rs and clients'
      commands through the executor, interleaved step by step on one cache and one
      persister, with the invariant they all keep.  [ConcurrentSpec]: what a crash
      at any of those steps leaves, and that the threads never deadlock.
    - [Session] (inbound/session.rs): [SessionReader], [ReadHalf] and the reader half
      of [Session::repl].  [SessionSpec]: its promises.  [Answers]: what a turn of its
      loop answers each command, in bytes.  [Stream]: what a reader makes of the bytes
      that come, in whatever pieces.
    - [WriteHalf] (inbound/session.rs): [Session::new], [split], the write half and
      [Session::repl] as two threads on the registry, the queue and the socket.
      [ReplSpec]: what the two do under any schedule.  [EndToEnd]: a reference that
      answers a client's frames one by one, and that a session implements it.
    - [Points]: the effects a command has on the map, step by step, and that a thread
      under an invariant that records effects ([chronicles]) makes no others.
      [Linear]: histories of the cache (who did what to the map, in which order), and
      that any interleaving of [Concurrent]'s threads has one.
    - [Crowd]: any number of sessions' threads on one registry and one executor, next
      to a thread that raises the flag, the persistence thread and the sweeper, and the
      reference, a sequence of events with its [Crowd] of members and inboxes, in
      which a session makes a [turn] of every frame its client sent.
      [CrowdSpec]: that the threads implement it.
    - [Server] (inbound/server.rs): [Server::run] from the listener on, as a state
      machine.  A thread is where it stands in its code, [step] makes one move of one
      thread with what the environment answers its call.  [ServerSpec]: the server's
      lifecycle.
    - [TestKit]: what a unit test is.  [CodecTests] (crlf.rs, time.rs, frame.rs,
      reply.rs), [CommandTests], [CacheTests], [ServiceTests] (executor.rs,
      channels.rs), [SessionTests] (session.rs, inbound/mod.rs), [PersisterTests] (and
      the temporary paths of test_support.rs), [ServerTests]: every [#[test]] of the
      sources, run on the definitions above.

    Methods keep their names; where Rocq has one name space for what Rust keeps
    apart, a conversion [From<A> for B] is [B_from_A].

    ** What the theorems show

    - Durability: [ConcurrentSpec.crash_of_a_running_server] (every answered write is
      found again after a crash at any step of any interleaving of clients, snapshots
      and sweeps, or inside an append), [ConcurrentSpec.running_server_progress],
      [Recovery.acknowledged_writes_survive] (a crash and a restart give back the
      very map), [Recovery.snapshot_crash_safe] (whatever file operation fails and
      wherever it stops), [Recovery.commands_keep_durable],
      [Recovery.replay_applies_log], [Recovery.replay_terminates],
      [Executor.log_follows_cache], [CommandFrame.logged_command_roundtrip].
    - Their limits: [Hazards.failed_append_loses_later_writes],
      [Hazards.append_after_torn_tail], [Hazards.replay_drops_persisted_key],
      [ConcurrentSpec.mixed_state_recovered], [Races.log_order_can_differ].
    - Concurrency: [Linear.commands_take_effect_at_a_point] (any interleaving of
      clients on the same keys, with deadlines and faults, is explained by one order of
      the commands; only [TTL] on a key that has expired acts at two points),
      [CrowdSpec.sessions_implement_crowd] (any number of sessions, snapshots and
      sweeps: at every point of a schedule the events so far account for the map, the
      registry, the receivers that are gone, what every [PUBLISH] counted and every
      socket, whose replies answer what its client sent, frame by frame).
    - Sessions: [EndToEnd.session_serves] (bytes in, replies out, against the
      reference), [ReplSpec.repl_output], [ReplSpec.repl_ends],
      [Answers.commands_answered] (the very bytes each command is answered with),
      [SessionSpec.chunking_irrelevant], [SessionSpec.one_reply_per_command],
      [SessionSpec.bad_input_answered].
    - The server: [ServerSpec.shutdown_ends], [ServerSpec.returns_after_threads],
      [ServerSpec.snapshot_on_the_way_out], [ServerSpec.knock_gets_no_session],
      [ServerSpec.session_ids]; and what keeps it from ending,
      [ServerSpec.outlives_shutdown].
    - The cache: [CacheSpec.cache_refines_spec], [CacheSpec.execute_frame],
      [CacheSpec.execute_returns]; and where it departs from its specification,
      [CacheSpec.expire_revives_expired_key], [Races.ttl_deletes_fresh_value].
    - The wire: [Frame.frame_roundtrip], [Frame.torn_frame_incomplete],
      [Frame.verdict_stable], [Frame.parse_one_terminates],
      [Frame.parse_one_equations], [Frame.nested_arrays_recurse],
      [Crlf.split_crlf_spec], [Reply.replies_decode_uniquely],
      [Reply.simple_inner_safe], [Inbound.replies_well_formed],
      [Inbound.ttl_reply_exact].
    - Commands: [CommandFrame.deadlines_are_absolute], [CommandFrame.set_arguments],
      [CommandFrame.overflowing_deadline_refused],
      [CommandFrame.spelling_case_insensitive], [Time.rounded_up_least].
    - Channels: [Channels.publish_delivers], [Channels.subscribe_unsubscribe],
      [SessionSpec.session_channels_agree], [SessionSpec.leaving_cleans_up].

    ** Bounds and fuel

    - [parse_one_d] takes the number of nested activations it may use; one per four
      bytes of input is enough ([Frame.parse_one_terminates]) and [parse_one] gives
      more than that, so it is total and obeys the source's unbounded equations
      ([Frame.parse_one_equations]).  [array_loop] is given one turn per input byte
      and one more; every element takes at least four.
    - [Aof.replay_loop] is given one turn more than the log has bytes
      ([Recovery.replay_terminates]).
    - The loops of a session wait on a socket and need not end; their fuel bounds the
      turns an execution takes, and running out is no result ([None]), never a
      verdict.  Where a session's end is proved ([EndToEnd.session_serves],
      [ReplSpec.repl_ends]) the reader's and the writer's turns are enough whenever
      they are at least the bound the statement names.
    - [persist_loop] and [sweep_loop] run for ever in the source; here they take any
      number of turns, and the theorems hold for each.  The state machine of [Server]
      needs no fuel: its theorems are about every sequence of moves, however long.
      The hundred naps between two snapshots are the source's.
    - [usize] has 64 bits.

    ** Parameters

    The package [wincode] is the class [Wincode]; what recovery needs of it is that
    the snapshot in question reads back ([reads_back]), or, where any map may be
    stored, every one; [frames_wincode] and [countable_wincode] are concrete
    instances.  The system clock is any sequence of readings.  Which file operations
    fail, and how much of a write came through, is any function.  The iteration order
    of a [HashMap] or [HashSet] is any permutation.  The socket a session reads from is
    the class [Read], and [Source] when it loses nothing; scripts of chunks and errors
    are an instance.  The one it writes to is the class [Sink]: a write sends some part of
    what it is given, or all of it, and succeeds or fails, or it does not come back.  The
    class [Socket] gives it the other end, where what was sent has arrived, and
    remembers whether a write has failed; what a client gets is exact until then
    (session.rs logs the failure and goes on).  Where a theorem needs every write to
    come back it says so ([peer_reads]).  The shared writer of the unit tests is an
    instance.  What sockets, signals and the
    terminal answer the server's calls is any sequence of [Answer]s.

    ** Not modelled

    - [Server] (threads, handles, the listener) and [Crowd] (what the threads do to the
      data, the registry and the sockets) are two views of the running program, each
      whole on its level; they are not composed into one state machine.
    - What a crash leaves of concurrent writes
      ([ConcurrentSpec.crash_of_a_running_server]) is proved while no deadline comes
      due, no file operation and no clock reading fails and each client has its own
      keys ([Hazards] has what can happen otherwise); [Linear] has none of these limits
      and speaks of the map and the answers, not of the files.
      Deadlines and faults are covered for commands one after the other ([CacheSpec],
      [Recovery]).
    - Sleeping takes no time of the clock; a thread asleep may always wake.
    - Left out for good: [main.rs], module roots, [Debug] output and log lines to the
      terminal, the messages of assertions, the scripts under tests/, demo/ and
      deploy/.  Files are assumed to keep what was written: a power loss that drops
      synced data, and [fsync] itself, are not distinguished from a process crash. *)

From Stdlib Require Export Init.Byte Strings.Byte.
From stdpp Require Export prelude gmap strings list.

(** ** Bytes *)

#[export] Instance byte_eq_decision : EqDecision byte := Byte.byte_eq_dec.
#[export] Program Instance byte_countable : Countable byte :=
  inj_countable Byte.to_N Byte.of_N _.
Next Obligation. intros b. apply Byte.of_to_N. Qed.

(** A Rust [Vec<u8>] or [&[u8]]. *)
Abbreviation bytes := (list byte).

(** A Rust byte-string literal [b"..."]. *)
Definition bstr (s : string) : bytes := String.list_byte_of_string s.

Definition CR : byte := x0d.
Definition LF : byte := x0a.
Definition crlf : bytes := [CR; LF].

(** ** Results

    A Rust [Result<A, E>], error type first so that [result E] is a monad. *)

Inductive result (E A : Type) : Type :=
| Ok (a : A)
| Err (e : E).
Arguments Ok {E A} a.
Arguments Err {E A} e.

#[export] Instance result_eq_dec {E A} `{EqDecision E, EqDecision A} :
  EqDecision (result E A).
Proof. solve_decision. Defined.

#[export] Instance result_ret E : MRet (result E) := fun A a => Ok a.
#[export] Instance result_bind E : MBind (result E) := fun A B f r =>
  match r with Ok a => f a | Err e => Err e end.
#[export] Instance result_fmap E : FMap (result E) := fun A B f r =>
  match r with Ok a => Ok (f a) | Err e => Err e end.

Definition map_err {E F A} (f : E -> F) (r : result E A) : result F A :=
  match r with Ok a => Ok a | Err e => Err (f e) end.

Definition ok_or {E A} (e : E) (o : option A) : result E A :=
  match o with Some a => Ok a | None => Err e end.

Definition is_ok {E A} (r : result E A) : bool :=
  match r with Ok _ => true | Err _ => false end.

(** ** State and errors: code that runs under one lock

    [M S E A] is a function that may read and change a state [S] and then
    returns or fails.  The state survives a failure, as it does in Rust. *)

Definition M (S E A : Type) : Type := S -> result E A * S.

Definition m_ret {S E A} (a : A) : M S E A := fun s => (Ok a, s).
Definition m_bind {S E A B} (m : M S E A) (k : A -> M S E B) : M S E B :=
  fun s => match m s with
           | (Ok a, s') => k a s'
           | (Err e, s') => (Err e, s')
           end.
#[export] Instance M_ret S E : MRet (M S E) := fun A => m_ret.
#[export] Instance M_bind S E : MBind (M S E) := fun A B k m => m_bind m k.

Definition m_lift {S E A} (r : result E A) : M S E A := fun s => (r, s).
Definition m_map_err {S E F A} (f : E -> F) (m : M S E A) : M S F A :=
  fun s => let '(r, s') := m s in (map_err f r, s').

(** ** Inversion of successful runs *)

Lemma result_bind_Ok {E A B} (r : result E A) (k : A -> result E B) b :
  r ≫= k = Ok b <-> exists a, r = Ok a /\ k a = Ok b.
Proof.
  destruct r; cbn; split; [eauto|by intros (? & [= <-] & ?)|done|by intros (? & ? & _)].
Qed.

Lemma m_bind_Ok {S E A B} (m : M S E A) (k : A -> M S E B) s b s' :
  (m ≫= k) s = (Ok b, s') <-> exists a s1, m s = (Ok a, s1) /\ k a s1 = (Ok b, s').
Proof.
  unfold mbind, M_bind, m_bind. destruct (m s) as [[a|e] s1]; split;
    [eauto|by intros (? & ? & [= <- <-] & ?)|done|by intros (? & ? & ? & _)].
Qed.

Lemma m_lift_Ok {S E A} (r : result E A) (s : S) a s' :
  m_lift r s = (Ok a, s') <-> r = Ok a /\ s' = s.
Proof. unfold m_lift. split; [by intros [= -> ->]|by intros [-> ->]]. Qed.

Lemma m_ret_Ok {S E A} (a : A) (s : S) b s' :
  (mret a : M S E A) s = (Ok b, s') <-> b = a /\ s' = s.
Proof. unfold mret, M_ret, m_ret. split; [by intros [= -> ->]|by intros [-> ->]]. Qed.

Lemma map_err_Ok {E F A} (f : E -> F) (r : result E A) a :
  map_err f r = Ok a <-> r = Ok a.
Proof. destruct r; cbn; split; congruence. Qed.

Lemma m_map_err_Ok {S E F A} (f : E -> F) (m : M S E A) s a s' :
  m_map_err f m s = (Ok a, s') <-> m s = (Ok a, s').
Proof. unfold m_map_err. destruct (m s) as [[]]; cbn; split; congruence. Qed.

Lemma m_bind_ext {S E A B} (m m' : M S E A) (k : A -> M S E B) s s' :
  m s = m' s' -> (m ≫= k) s = (m' ≫= k) s'.
Proof. intros H. unfold mbind, M_bind, m_bind. by rewrite H. Qed.

(** Breaks a hypothesis that a monadic computation succeeded into the successes
    of its parts. *)
Ltac ok_inv :=
  repeat match goal with
    | H : _ ≫= _ = Ok _ |- _ => apply result_bind_Ok in H as (? & ? & ?)
    | H : (_ ≫= _) _ = (Ok _, _) |- _ => apply m_bind_Ok in H as (? & ? & ? & ?)
    | H : m_lift _ _ = (Ok _, _) |- _ => apply m_lift_Ok in H as [? ?]
    | H : mret _ _ = (Ok _, _) |- _ => apply m_ret_Ok in H as [? ?]
    | H : map_err _ _ = Ok _ |- _ => apply map_err_Ok in H
    | H : m_map_err _ _ _ = (Ok _, _) |- _ => apply m_map_err_Ok in H
    | H : (let '(_, _) := ?p in _) = Ok _ |- _ => is_var p; destruct p
    | H : (let '(_, _) := ?p in _) _ = (Ok _, _) |- _ => is_var p; destruct p
    end; simplify_eq/=.

(** Computes a monadic computation on a known state. *)
Ltac m_cbn :=
  unfold m_lift, m_map_err, mbind, M_bind, m_bind, mret, M_ret, m_ret; cbn.

(** ** [alter] on maps *)

Section alter.
Context {A : Type} (f : A -> A) (i : bytes) (m : gmap bytes A).

Lemma alter_insert_Some c : m !! i = Some c -> alter f i m = <[i := f c]> m.
Proof.
  intros Hi. apply map_eq. intros j. destruct (decide (j = i)) as [->|Hne].
  - by rewrite lookup_alter_eq, Hi, lookup_insert_eq.
  - by rewrite lookup_alter_ne, lookup_insert_ne by done.
Qed.

Lemma alter_same : f <$> m !! i = m !! i -> alter f i m = m.
Proof.
  intros Hi. apply map_eq. intros j. destruct (decide (j = i)) as [->|Hne].
  - by rewrite lookup_alter_eq.
  - by rewrite lookup_alter_ne.
Qed.
End alter.
