(* ===== verification/Effects.v ===== *)
(** * Effects: shared state, mutexes and the steps of a thread

    A thread of the program is a [prog]: a sequence of atomic steps on the
    state it shares with the other threads.  A step is a clock read, one
    critical section under a mutex, or one call on a file or a queue.  [run]
    executes a program alone, from start to end; [sched] interleaves the steps
    of several programs as a scheduler chooses.  Both semantics read the same
    definition of an operation. *)

From S2P Require Import Prelude.

(** ** Lenses: a component's state inside a larger one *)

Record Lens (S T : Type) : Type := mkLens {
  view : S -> T;
  put : T -> S -> S;
  view_put : forall t s, view (put t s) = t;
  put_view : forall s, put (view s) s = s;
  put_put : forall t t' s, put t (put t' s) = put t s
}.
Arguments mkLens {S T} view put view_put put_view put_put.
Arguments view {S T} l s.
Arguments put {S T} l t s.
Arguments view_put {S T} l t s.
Arguments put_view {S T} l s.
Arguments put_put {S T} l t t' s.

Definition lens_id {S} : Lens S S :=
  mkLens (fun s => s) (fun t _ => t)
         (fun _ _ => eq_refl) (fun _ => eq_refl) (fun _ _ _ => eq_refl).

Section lens_comp.
Context {S T U : Type} (a : Lens S T) (b : Lens T U).

Lemma comp_view_put u s : view b (view a (put a (put b u (view a s)) s)) = u.
Proof. by rewrite !view_put. Qed.
Lemma comp_put_view s : put a (put b (view b (view a s)) (view a s)) s = s.
Proof. by rewrite !put_view. Qed.
Lemma comp_put_put u u' s :
  put a (put b u (view a (put a (put b u' (view a s)) s)))
    (put a (put b u' (view a s)) s) = put a (put b u (view a s)) s.
Proof. by rewrite view_put, !put_put. Qed.

Definition lens_comp : Lens S U :=
  mkLens (fun s => view b (view a s)) (fun u s => put a (put b u (view a s)) s)
         comp_view_put comp_put_view comp_put_put.
End lens_comp.

Definition lens_fst {A B} : Lens (A * B) A :=
  mkLens fst (fun a s => (a, snd s))
         (fun _ _ => eq_refl) (fun s => match s with (_, _) => eq_refl end)
         (fun _ _ _ => eq_refl).

Definition lens_snd {A B} : Lens (A * B) B :=
  mkLens snd (fun b s => (fst s, b))
         (fun _ _ => eq_refl) (fun s => match s with (_, _) => eq_refl end)
         (fun _ _ _ => eq_refl).

(** ** Mutexes

    A [std::sync::Mutex<A>]: whether some thread holds it, whether a thread
    panicked while holding it, and the value it guards. *)

Record Mutex (A : Type) : Type := mkMutex {
  held : bool;
  poisoned : bool;
  guarded : A
}.
Arguments mkMutex {A} held poisoned guarded.
Arguments held {A} m.
Arguments poisoned {A} m.
Arguments guarded {A} m.

Definition mutex_new {A} (a : A) : Mutex A := mkMutex false false a.
Definition set_guarded {A} (a : A) (m : Mutex A) : Mutex A :=
  mkMutex (held m) (poisoned m) a.
Definition set_held {A} (b : bool) (m : Mutex A) : Mutex A :=
  mkMutex b (poisoned m) (guarded m).

(** A mutex nobody holds and no panic has poisoned. *)
Definition available {A} (m : Mutex A) : Prop :=
  held m = false /\ poisoned m = false.

Lemma available_eq {A} (m : Mutex A) :
  available m -> m = mutex_new (guarded m).
Proof. destruct m; unfold available; simpl. by intros [-> ->]. Qed.

Lemma available_new {A} (a : A) : available (mutex_new a).
Proof. done. Qed.

(** ** Programs *)

#[warnings="-register-all"]
Inductive prog (S E A : Type) : Type :=
| Done (r : result E A)
| Step (f : S -> option (prog S E A * S)).
Arguments Done {S E A} r.
Arguments Step {S E A} f.

(** A thread alone: [None] when a step never becomes possible, that is, when
    the thread waits for a lock it holds itself. *)
Fixpoint run {S E A} (p : prog S E A) (s : S) : option (result E A * S) :=
  match p with
  | Done r => Some (r, s)
  | Step f => match f s with
              | Some (p', s') => run p' s'
              | None => None
              end
  end.

(** Continue with the result, whichever it is. *)
Fixpoint p_then {S E F A B} (p : prog S E A) (k : result E A -> prog S F B)
  : prog S F B :=
  match p with
  | Done r => k r
  | Step f => Step (fun s => match f s with
                             | Some (p', s') => Some (p_then p' k, s')
                             | None => None
                             end)
  end.

(** The [?] operator: continue with the value, stop with the error. *)
Definition p_bind {S E A B} (p : prog S E A) (k : A -> prog S E B) : prog S E B :=
  p_then p (fun r => match r with Ok a => k a | Err e => Done (Err e) end).

#[export] Instance prog_ret S E : MRet (prog S E) := fun A a => Done (Ok a).
#[export] Instance prog_bind S E : MBind (prog S E) := fun A B k p => p_bind p k.

Definition p_map_err {S E F A} (f : E -> F) (p : prog S E A) : prog S F A :=
  p_then p (fun r => Done (map_err f r)).

(** Run [q] whatever the outcome of [p], keep [p]'s outcome: how a guard that
    goes out of scope is released. *)
Definition p_finally {S E A} (p : prog S E A) (q : prog S E unit) : prog S E A :=
  p_then p (fun r => p_then q (fun _ => Done r)).

(** One step that is always possible. *)
Definition atomic {S E A} (m : M S E A) : prog S E A :=
  Step (fun s => let '(r, s') := m s in Some (Done r, s')).

(** A critical section: waits until the mutex is free, fails when it is
    poisoned, else runs [body] and releases the guard. *)
Definition locked {S T E A} (l : Lens S (Mutex T)) (poison : E) (body : M S E A)
  : prog S E A :=
  Step (fun s =>
          if held (view l s) then None
          else if poisoned (view l s) then Some (Done (Err poison), s)
          else let '(r, s') := body s in Some (Done r, s')).

(** Taking and releasing a guard around steps other threads can get between. *)
Definition lock {S T E} (l : Lens S (Mutex T)) (poison : E) : prog S E unit :=
  Step (fun s =>
          if held (view l s) then None
          else if poisoned (view l s) then Some (Done (Err poison), s)
          else Some (Done (Ok ()), put l (set_held true (view l s)) s)).
Definition unlock {S T E} (l : Lens S (Mutex T)) : prog S E unit :=
  atomic (fun s => (Ok (), put l (set_held false (view l s)) s)).

(** What the guard gives access to, inside a section. *)
Definition guard_get {S T E} (l : Lens S (Mutex T)) : M S E T :=
  fun s => (Ok (guarded (view l s)), s).
Definition guard_put {S T E} (l : Lens S (Mutex T)) (t : T) : M S E unit :=
  fun s => (Ok (), put l (set_guarded t (view l s)) s).

(** A program on a component's state, run on the whole. *)
Fixpoint zoom {S T E A} (l : Lens S T) (p : prog T E A) : prog S E A :=
  match p with
  | Done r => Done r
  | Step f => Step (fun s => match f (view l s) with
                             | Some (p', t') => Some (zoom l p', put l t' s)
                             | None => None
                             end)
  end.
Definition m_zoom {S T E A} (l : Lens S T) (m : M T E A) : M S E A :=
  fun s => let '(r, t) := m (view l s) in (r, put l t s).

(** ** Interleaving

    [sched] runs the threads of a pool, one step at a time, in the order the
    list of thread numbers gives; [None] when a chosen thread cannot step. *)

Definition step_thread {S E A} (i : nat) (c : list (prog S E A) * S)
  : option (list (prog S E A) * S) :=
  match c.1 !! i with
  | Some (Step f) =>
      match f c.2 with
      | Some (p', s') => Some (<[i := p']> c.1, s')
      | None => None
      end
  | _ => None
  end.

Fixpoint sched {S E A} (order : list nat) (c : list (prog S E A) * S)
  : option (list (prog S E A) * S) :=
  match order with
  | [] => Some c
  | i :: order' => match step_thread i c with
                | Some c' => sched order' c'
                | None => None
                end
  end.

(** ** Laws *)

Section laws.
Context {S E : Type}.

(** The induction principle of [prog]: a step's continuations satisfy [P]. *)
Fixpoint prog_elim {A} (P : prog S E A -> Prop)
    (HD : forall r, P (Done r))
    (HS : forall f, (forall s p' s', f s = Some (p', s') -> P p') -> P (Step f))
    (p : prog S E A) : P p :=
  match p with
  | Done r => HD r
  | Step f =>
      HS f (fun s p' s' =>
        match f s as o return o = Some (p', s') -> P p' with
        | Some (q, t) => fun H =>
            eq_ind q P (prog_elim P HD HS q) p'
              (f_equal (fun o => match o with Some (x, _) => x | None => q end) H)
        | None => fun H => False_ind _ (eq_ind None
            (fun o => match o with None => True | Some _ => False end) I _ H)
        end)
  end.

Lemma run_then {F A B} (p : prog S E A) (k : result E A -> prog S F B) s :
  run (p_then p k) s =
  match run p s with Some (r, s') => run (k r) s' | None => None end.
Proof.
  revert s. induction p as [r|f IH] using prog_elim; intros s; simpl; [done|].
  destruct (f s) as [[p' s']|] eqn:Hf; simpl; [|done].
  exact (IH s p' s' Hf s').
Qed.

Lemma run_bind {A B} (p : prog S E A) (k : A -> prog S E B) s :
  run (p ≫= k) s =
  match run p s with
  | Some (Ok a, s') => run (k a) s'
  | Some (Err e, s') => Some (Err e, s')
  | None => None
  end.
Proof.
  unfold mbind, prog_bind, p_bind. rewrite run_then.
  destruct (run p s) as [[[a|e] s']|]; done.
Qed.

Lemma run_map_err {F A} (f : E -> F) (p : prog S E A) s :
  run (p_map_err f p) s =
  match run p s with Some (r, s') => Some (map_err f r, s') | None => None end.
Proof. unfold p_map_err. by rewrite run_then. Qed.

Lemma run_atomic {A} (m : M S E A) s :
  run (atomic m) s = Some (m s).
Proof. simpl. by destruct (m s). Qed.

Lemma run_locked {T A} (l : Lens S (Mutex T)) e (body : M S E A) s :
  available (view l s) -> run (locked l e body) s = Some (body s).
Proof. intros [Hh Hp]. simpl. rewrite Hh, Hp. by destruct (body s). Qed.

Lemma run_locked_poisoned {T A} (l : Lens S (Mutex T)) e (body : M S E A) s :
  held (view l s) = false -> poisoned (view l s) = true ->
  run (locked l e body) s = Some (Err e, s).
Proof. intros Hh Hp. simpl. by rewrite Hh, Hp. Qed.
End laws.

Lemma run_zoom {S T E A} (l : Lens S T) (p : prog T E A) (s : S) :
  run (zoom l p) s =
  match run p (view l s) with
  | Some (r, t) => Some (r, put l t s)
  | None => None
  end.
Proof.
  revert s. induction p as [r|f IH] using prog_elim; intros s; simpl.
  - by rewrite put_view.
  - destruct (f (view l s)) as [[p' t']|] eqn:Hf; simpl; [|done].
    rewrite (IH _ _ _ Hf), view_put.
    destruct (run p' t') as [[r t]|]; [|done]. by rewrite put_put.
Qed.

(** Two steps on a component are one step on it. *)
Lemma m_zoom_bind {S T E F A B} (f : E -> F) (l : Lens S T) (m1 : M T E A) (m2 : M T E B) s :
  (m_map_err f (m_zoom l m1);; m_map_err f (m_zoom l m2)) s =
  m_map_err f (m_zoom l (m1;; m2)) s.
Proof.
  unfold m_map_err, m_zoom, mbind, M_bind, m_bind.
  destruct (m1 (view l s)) as [[a|e] t]; [|done]. cbn. rewrite view_put.
  destruct (m2 t) as [r t']. by rewrite put_put.
Qed.

(** ** What holds at every step

    [always I Q p s]: started in [s], [p] is in a state that satisfies [I] before
    every step it makes and when it ends, and ends with a result and a state that
    satisfy [Q]; it never waits forever.  A thread that is stopped at any point
    leaves a state in [I]. *)

Fixpoint always {S E A} (I : S -> Prop) (Q : result E A -> S -> Prop) (p : prog S E A) (s : S)
  : Prop :=
  I s /\
  match p with
  | Done r => Q r s
  | Step f => match f s with
              | Some (p', s') => always I Q p' s'
              | None => False
              end
  end.

(** The states [p] goes through. *)
Fixpoint states {S E A} (p : prog S E A) (s : S) : list S :=
  s :: match p with
       | Done _ => []
       | Step f => match f s with
                   | Some (p', s') => states p' s'
                   | None => []
                   end
       end.

Section always.
Context {S E : Type} (I : S -> Prop).

Lemma always_states {A} (Q : result E A -> S -> Prop) p s :
  always I Q p s -> Forall I (states p s).
Proof.
  revert s. induction p as [r|f IH] using prog_elim; intros s [Hi Hq]; cbn.
  - by repeat constructor.
  - constructor; [done|]. destruct (f s) as [[p' s']|] eqn:Hf; [|done]. by eapply IH.
Qed.

Lemma always_run {A} (Q : result E A -> S -> Prop) p s :
  always I Q p s -> exists r s', run p s = Some (r, s') /\ Q r s' /\ I s'.
Proof.
  revert s. induction p as [r0|f IH] using prog_elim; intros s [Hi Hq]; cbn.
  - by do 2 eexists.
  - destruct (f s) as [[p' t]|] eqn:Hf; [|done]. by eapply IH.
Qed.

Lemma always_mono {A} (Q Q' : result E A -> S -> Prop) p s :
  (forall r s, I s -> Q r s -> Q' r s) -> always I Q p s -> always I Q' p s.
Proof.
  intros HQ. revert s. induction p as [r|f IH] using prog_elim; intros s [Hi Hq]; cbn.
  - split; [done|by apply HQ].
  - split; [done|]. destruct (f s) as [[p' t]|] eqn:Hf; [|done]. by eapply IH.
Qed.

Lemma always_then {F A B} (p : prog S E A) (k : result E A -> prog S F B) Q s :
  always I (fun r s => always I Q (k r) s) p s -> always I Q (p_then p k) s.
Proof.
  revert s. induction p as [r|f IH] using prog_elim; intros s [Hi Hq]; [done|].
  cbn. split; [done|]. destruct (f s) as [[p' t]|] eqn:Hf; [|done]. by eapply IH.
Qed.

Lemma always_bind {A B} (p : prog S E A) (k : A -> prog S E B) Q s :
  always I (fun r s => match r with
                       | Ok a => always I Q (k a) s
                       | Err e => Q (Err e) s
                       end) p s ->
  always I Q (p ≫= k) s.
Proof.
  intros H. apply always_then. eapply always_mono; [|done].
  intros [a|e] t Ht; cbn; [done|by split].
Qed.

Lemma always_map_err {F A} (f : E -> F) (p : prog S E A) Q s :
  always I (fun r s => Q (map_err f r) s) p s -> always I Q (p_map_err f p) s.
Proof. intros H. apply always_then. eapply always_mono; [|done]. by cbn. Qed.

Lemma always_atomic {A} (m : M S E A) Q s :
  I s -> I (m s).2 -> Q (m s).1 (m s).2 -> always I Q (atomic m) s.
Proof. intros Hs Hi Hq. cbn. by destruct (m s). Qed.

Lemma always_locked {T A} (l : Lens S (Mutex T)) e (body : M S E A) Q s :
  available (view l s) -> I s -> I (body s).2 -> Q (body s).1 (body s).2 ->
  always I Q (locked l e body) s.
Proof. intros [Hh Hp] Hs Hi Hq. cbn. rewrite Hh, Hp. by destruct (body s). Qed.

(** A critical section is one step, so what it does alone is what that step does. *)
Lemma always_locked_run {T A} (l : Lens S (Mutex T)) e (body : M S E A) Q s r s' :
  run (locked l e body) s = Some (r, s') -> I s -> I s' -> Q r s' ->
  always I Q (locked l e body) s.
Proof.
  cbn. destruct (held (view l s)); [done|]. destruct (poisoned (view l s)).
  - by intros [= <- <-].
  - destruct (body s). by intros [= <- <-].
Qed.

Lemma always_lock {T} (l : Lens S (Mutex T)) e (Q : result E unit -> S -> Prop) s :
  available (view l s) -> I s -> I (put l (set_held true (view l s)) s) ->
  Q (Ok ()) (put l (set_held true (view l s)) s) -> always I Q (lock l e) s.
Proof. intros [Hh Hp] Hs Hi Hq. cbn. by rewrite Hh, Hp. Qed.
End always.

Lemma always_impl {S E A} (I I' : S -> Prop) (Q Q' : result E A -> S -> Prop) p s :
  (forall s, I s -> I' s) -> (forall r s, Q r s -> Q' r s) ->
  always I Q p s -> always I' Q' p s.
Proof.
  intros HI HQ. revert s. induction p as [r|f IH] using prog_elim; intros s [Hi Hq]; cbn.
  - auto.
  - split; [auto|]. destruct (f s) as [[p' t]|] eqn:Hf; [|done]. by eapply IH.
Qed.

Lemma always_zoom {S T E A} (l : Lens S T) (I : S -> Prop) (Q : result E A -> S -> Prop)
    (p : prog T E A) (s : S) :
  always (fun t => I (put l t s)) (fun r t => Q r (put l t s)) p (view l s) ->
  always I Q (zoom l p) s.
Proof.
  revert s. induction p as [r|f IH] using prog_elim; intros s [Hi Hq]; rewrite put_view in *.
  - done.
  - cbn. split; [done|]. destruct (f (view l s)) as [[p' t]|] eqn:Hf; [|done].
    eapply IH; [done|]. rewrite view_put. eapply always_impl; [..|exact Hq];
      intros; by rewrite put_put.
Qed.

(** Where a step may also be one that never becomes possible: [p] is in a state that
    satisfies [I] as long as it makes steps, and [Q] holds if it ends. *)
Fixpoint safely {S E A} (I : S -> Prop) (Q : result E A -> S -> Prop) (p : prog S E A) (s : S)
  : Prop :=
  I s /\
  match p with
  | Done r => Q r s
  | Step f => match f s with
              | Some (p', s') => safely I Q p' s'
              | None => True
              end
  end.

Section safely.
Context {S E : Type} (I : S -> Prop).

Lemma safely_mono {A} (Q Q' : result E A -> S -> Prop) p s :
  (forall r s, I s -> Q r s -> Q' r s) -> safely I Q p s -> safely I Q' p s.
Proof.
  intros HQ. revert s. induction p as [r|f IH] using prog_elim; intros s [Hi Hq]; cbn.
  - split; [done|by apply HQ].
  - split; [done|]. destruct (f s) as [[p' t]|] eqn:Hf; [|done]. by eapply IH.
Qed.

Lemma safely_then {F A B} (p : prog S E A) (k : result E A -> prog S F B) Q s :
  safely I (fun r s => safely I Q (k r) s) p s -> safely I Q (p_then p k) s.
Proof.
  revert s. induction p as [r|f IH] using prog_elim; intros s [Hi Hq]; [done|].
  cbn. split; [done|]. destruct (f s) as [[p' t]|] eqn:Hf; [|done]. by eapply IH.
Qed.

Lemma safely_bind {A B} (p : prog S E A) (k : A -> prog S E B) Q s :
  safely I (fun r s => match r with
                       | Ok a => safely I Q (k a) s
                       | Err e => Q (Err e) s
                       end) p s ->
  safely I Q (p ≫= k) s.
Proof.
  intros H. apply safely_then. eapply safely_mono; [|done].
  intros [a|e] t Ht; cbn; [done|by split].
Qed.

Lemma safely_atomic {A} (m : M S E A) Q s :
  I s -> I (m s).2 -> Q (m s).1 (m s).2 -> safely I Q (atomic m) s.
Proof. intros Hs Hi Hq. cbn. by destruct (m s). Qed.
End safely.

Create Rewrite HintDb prog.
#[export] Hint Rewrite @run_then @run_map_err @run_atomic @run_zoom : prog.
#[export] Hint Rewrite @view_put @put_view @put_put : prog.

(** [run_simpl] computes a program made of binds, zooms and atomic steps. *)
Ltac run_simpl :=
  repeat (rewrite ?run_bind, ?run_then, ?run_map_err, ?run_atomic, ?run_zoom;
          autorewrite with prog; simpl).
