(* ===== verification/Threads.v ===== *)
(** * Threads: pools of programs

    What the proofs about several threads share.  A pool is a list of programs on
    one state, and [sched] runs it in an order; here are the steps of a pool of two,
    programs that do not notice a change of the state ([oblivious]), and an
    assertion method for any pool: every thread has a ghost of its own, an
    invariant ties the ghosts to the state, and each step of a thread keeps the
    invariant while it moves that thread's ghost only ([thread_ok]). *)

From S2P Require Import Prelude Effects.

(** ** One step of a program *)

Definition step_of {S E A} (p : prog S E A) (s : S) : option (prog S E A * S) :=
  match p with Done _ => None | Step f => f s end.

Lemma step_thread_lookup {S E A} i (ps : list (prog S E A)) p s :
  ps !! i = Some p ->
  step_thread i (ps, s) =
  match step_of p s with Some (p', s') => Some (<[i := p']> ps, s') | None => None end.
Proof. intros Hi. unfold step_thread. cbn. rewrite Hi. by destruct p. Qed.

Lemma step_thread_inv {S E A} i (ps ps' : list (prog S E A)) s s' :
  step_thread i (ps, s) = Some (ps', s') ->
  exists p p', ps !! i = Some p /\ step_of p s = Some (p', s') /\ ps' = <[i := p']> ps.
Proof.
  unfold step_thread. cbn. destruct (ps !! i) as [[r|f]|] eqn:Hi; [done| |done].
  destruct (f s) as [[p' t]|] eqn:Hf; [|done]. intros [= <- <-]. by do 2 eexists.
Qed.

Lemma sched_app {S E A} o1 o2 (c : list (prog S E A) * S) :
  sched (o1 ++ o2) c = match sched o1 c with Some c' => sched o2 c' | None => None end.
Proof.
  revert c. induction o1 as [|i o1 IH]; intros c; cbn; [done|].
  by destruct (step_thread i c).
Qed.

(** An invariant of a pool's configurations holds wherever a schedule leads. *)
Lemma sched_invariant {S E A} (Inv : list (prog S E A) * S -> Prop) order c c' :
  (forall i c c', Inv c -> step_thread i c = Some c' -> Inv c') ->
  Inv c -> sched order c = Some c' -> Inv c'.
Proof.
  intros Hstep. revert c. induction order as [|i order IH]; intros c Hc; cbn; [by intros [= <-]|].
  destruct (step_thread i c) as [c1|] eqn:H1; [|done]. eauto.
Qed.

(** A measure that every step makes smaller bounds the schedules. *)
Lemma sched_bounded {S E A} (Inv : list (prog S E A) * S -> nat -> Prop) order c c' n :
  (forall i c c' n, Inv c n -> step_thread i c = Some c' -> exists n', n' < n /\ Inv c' n') ->
  Inv c n -> sched order c = Some c' -> exists n', length order + n' <= n /\ Inv c' n'.
Proof.
  intros Hstep. revert c n. induction order as [|i order IH]; intros c n Hc; cbn.
  - intros [= <-]. by exists n.
  - destruct (step_thread i c) as [c1|] eqn:H1; [|done]. intros Ho.
    destruct (Hstep _ _ _ _ Hc H1) as (n1 & Hn1 & Hc1).
    destruct (IH _ _ Hc1 Ho) as (n2 & Hn2 & Hc2). exists n2. split; [lia|done].
Qed.

(** ** Stepping through a sequence *)

Lemma step_of_then {S E F A B} (p : prog S E A) (k : result E A -> prog S F B) s :
  step_of (p_then p k) s =
  match p with
  | Done r => step_of (k r) s
  | Step f => match f s with Some (p', s') => Some (p_then p' k, s') | None => None end
  end.
Proof. by destruct p. Qed.

(** How many steps [p] makes from [s], run alone. *)
Fixpoint steps {S E A} (p : prog S E A) (s : S) : nat :=
  match p with
  | Done _ => 0
  | Step f => match f s with Some (p', s') => Datatypes.S (steps p' s') | None => 0 end
  end.

Lemma steps_then {S E F A B} (p : prog S E A) (k : result E A -> prog S F B) s n m :
  steps p s <= n -> (forall r s', steps (k r) s' <= m) -> steps (p_then p k) s <= n + m.
Proof.
  intros Hp Hk. revert s n Hp. induction p as [r|f IH] using prog_elim; intros s n Hp; cbn in *.
  - specialize (Hk r s). lia.
  - destruct (f s) as [[p' s']|] eqn:Hf; [|lia]. destruct n as [|n]; [lia|].
    cbn. apply le_n_S, (IH _ _ _ Hf). lia.
Qed.

Lemma steps_bind {S E A B} (p : prog S E A) (k : A -> prog S E B) s n m :
  steps p s <= n -> (forall a s', steps (k a) s' <= m) -> steps (p ≫= k) s <= n + m.
Proof. intros Hp Hk. apply steps_then; [done|]. intros [a|e] s'; [apply Hk|cbn; lia]. Qed.

(** ** Programs that do not notice

    [sh] changes the state in a way [p] cannot see: shifted or not, it makes the
    same steps, and the states stay a shift apart.  Along the way every step keeps
    to [R], a relation between the state before and after. *)

Section oblivious.
Context {S E : Type} (sh : S -> S) (R : S -> S -> Prop).

Fixpoint oblivious {A} (p : prog S E A) : Prop :=
  match p with
  | Done _ => True
  | Step f => forall s, match f s with
                        | Some (p', s') => f (sh s) = Some (p', sh s') /\ R s s' /\ oblivious p'
                        | None => f (sh s) = None
                        end
  end.

Lemma oblivious_step {A} (p : prog S E A) s :
  oblivious p ->
  step_of p (sh s) =
    match step_of p s with Some (p', s') => Some (p', sh s') | None => None end /\
  forall p' s', step_of p s = Some (p', s') -> R s s' /\ oblivious p'.
Proof.
  destruct p as [r|f]; cbn; [done|]. intros H. specialize (H s).
  destruct (f s) as [[p' s']|]; [|done]. destruct H as (H1 & H2 & H3). split; [done|].
  by intros ? ? [= <- <-].
Qed.

Lemma oblivious_run {A} (p : prog S E A) s :
  oblivious p ->
  run p (sh s) = match run p s with Some (r, s') => Some (r, sh s') | None => None end.
Proof.
  revert s. induction p as [r|f IH] using prog_elim; intros s H; cbn; [done|].
  specialize (H s). destruct (f s) as [[p' s']|] eqn:Hf; [|by rewrite H].
  destruct H as (-> & _ & H). by eapply IH.
Qed.

Lemma oblivious_run_R `{!PreOrder R} {A} (p : prog S E A) s r s' :
  oblivious p -> run p s = Some (r, s') -> R s s'.
Proof.
  revert s. induction p as [r0|f IH] using prog_elim; intros s H; cbn; [by intros [= _ <-]|].
  specialize (H s). destruct (f s) as [[p1 s1]|] eqn:Hf; [|done].
  destruct H as (_ & HR & H). intros Hrun. etransitivity; [exact HR|]. by eapply IH.
Qed.

Lemma oblivious_atomic {A} (m : M S E A) :
  (forall s, m (sh s) = ((m s).1, sh (m s).2)) -> (forall s, R s (m s).2) -> oblivious (atomic m).
Proof. intros H HR s. specialize (HR s). rewrite H. by destruct (m s). Qed.

Lemma oblivious_locked {T A} (l : Lens S (Mutex T)) e (body : M S E A) :
  (forall s, view l (sh s) = view l s) -> (forall s, R s s) ->
  (forall s, body (sh s) = ((body s).1, sh (body s).2)) -> (forall s, R s (body s).2) ->
  oblivious (locked l e body).
Proof.
  intros Hl Hr H HR s. specialize (HR s). rewrite Hl. destruct (held (view l s)); [done|].
  destruct (poisoned (view l s)); [by split_and!|]. rewrite H. by destruct (body s).
Qed.
End oblivious.

Lemma oblivious_then {S E F A B} sh R (p : prog S E A) (k : result E A -> prog S F B) :
  oblivious sh R p -> (forall r, oblivious sh R (k r)) -> oblivious sh R (p_then p k).
Proof.
  intros Hp Hk. induction p as [r|f IH] using prog_elim; cbn; [done|].
  intros s. specialize (Hp s). destruct (f s) as [[p' s']|] eqn:Hf; [|by rewrite Hp].
  destruct Hp as (-> & ? & Hp). split_and!; [done..|]. by eapply IH.
Qed.

Lemma oblivious_bind {S E A B} sh R (p : prog S E A) (k : A -> prog S E B) :
  oblivious sh R p -> (forall a, oblivious sh R (k a)) -> oblivious sh R (p ≫= k).
Proof. intros Hp Hk. by apply oblivious_then; [|intros [a|e]]. Qed.

Lemma oblivious_map_err {S E F A} sh R (f : E -> F) (p : prog S E A) :
  oblivious sh R p -> oblivious sh R (p_map_err f p).
Proof. intros Hp. by apply oblivious_then. Qed.

Lemma oblivious_zoom {S T E A} (sh : S -> S) R (sh' : T -> T) R' (l : Lens S T) (p : prog T E A) :
  (forall s, view l (sh s) = sh' (view l s)) ->
  (forall t s, put l (sh' t) (sh s) = sh (put l t s)) ->
  (forall t s, R' (view l s) t -> R s (put l t s)) ->
  oblivious sh' R' p -> oblivious sh R (zoom l p).
Proof.
  intros Hv Hp HR. induction p as [r|f IH] using prog_elim; cbn; [done|].
  intros H s. rewrite Hv. specialize (H (view l s)).
  destruct (f (view l s)) as [[p' t']|] eqn:Hf; [|by rewrite H].
  destruct H as (-> & ? & H). split_and!; [by rewrite Hp|by apply HR|]. by eapply IH.
Qed.

Lemma oblivious_id {S E A} (p : prog S E A) : oblivious (fun s => s) (fun _ _ => True) p.
Proof.
  induction p as [r|f IH] using prog_elim; cbn; [done|]. intros s.
  destruct (f s) as [[p' s']|] eqn:Hf; [|done]. split_and!; [done..|]. by eapply IH.
Qed.

(** ** What a program keeps, run alone *)

Section keeps.
Context {S : Type} (I : S -> Prop).

Definition keeps {E A} (p : prog S E A) : Prop :=
  forall s r s', I s -> run p s = Some (r, s') -> I s'.

Lemma keeps_then {E F A B} (p : prog S E A) (k : result E A -> prog S F B) :
  keeps p -> (forall r, keeps (k r)) -> keeps (p_then p k).
Proof.
  intros Hp Hk s r s' Hs. rewrite run_then. destruct (run p s) as [[r1 s1]|] eqn:H1; [|done].
  intros H2. eapply Hk; [|exact H2]. by eapply Hp.
Qed.

Lemma keeps_done {E A} (r : result E A) : keeps (Done r).
Proof. by intros s r' s' Hs [= _ <-]. Qed.

Lemma keeps_bind {E A B} (p : prog S E A) (k : A -> prog S E B) :
  keeps p -> (forall a, keeps (k a)) -> keeps (p ≫= k).
Proof. intros Hp Hk. apply keeps_then; [done|]. intros [a|e]; [apply Hk|apply keeps_done]. Qed.

Lemma keeps_map_err {E F A} (f : E -> F) (p : prog S E A) : keeps p -> keeps (p_map_err f p).
Proof. intros Hp. apply keeps_then; [done|]. intros r. apply keeps_done. Qed.

Lemma keeps_atomic {E A} (m : M S E A) : (forall s, I s -> I (m s).2) -> keeps (atomic m).
Proof.
  intros Hm s r s' Hs. rewrite run_atomic. intros [= He]. specialize (Hm s Hs). by rewrite He in Hm.
Qed.

Lemma keeps_zoom {T E A} (l : Lens S T) (p : prog T E A) :
  (forall t s, I s -> I (put l t s)) -> keeps (zoom l p).
Proof.
  intros Hp s r s' Hs. rewrite run_zoom. destruct (run p (view l s)) as [[r1 t]|]; [|done].
  intros [= _ <-]. by apply Hp.
Qed.

Lemma keeps_stuck {E A} (f : S -> option (prog S E A * S)) :
  (forall s, f s = None) -> keeps (Step f).
Proof. intros Hf s r s' _. cbn. by rewrite Hf. Qed.
End keeps.

(** ** Ghosts

    [inv g s]: the threads' ghosts [g] and the state [s] belong together.
    [thread_ok i p gi]: thread [i], at [p] and with ghost [gi], keeps the invariant
    with every step it can make, whatever the other threads have done in between,
    and can make one unless it [waits]; when it is done, [Q] holds of its result and
    its ghost. *)

Section ghosts.
Context {S E A G : Type} (inv : (nat -> G) -> S -> Prop) (waits : nat -> (nat -> G) -> Prop).

Definition upd (i : nat) (gi : G) (g : nat -> G) : nat -> G :=
  fun j => if decide (j = i) then gi else g j.

Fixpoint thread_ok {E A} (i : nat) (Q : result E A -> G -> Prop) (p : prog S E A) (gi : G) : Prop :=
  match p with
  | Done r => Q r gi
  | Step f => forall g s, inv g s -> g i = gi ->
      match f s with
      | Some (p', s') => exists gi', inv (upd i gi' g) s' /\ thread_ok i Q p' gi'
      | None => waits i g
      end
  end.

Lemma thread_ok_then {F B C} i (p : prog S F B) (k : result F B -> prog S E C)
    (Q : result E C -> G -> Prop) gi :
  thread_ok i (fun r gi => thread_ok i Q (k r) gi) p gi -> thread_ok i Q (p_then p k) gi.
Proof.
  revert gi. induction p as [r|f IH] using prog_elim; intros gi H; cbn; [done|].
  intros g s Hi Hg. specialize (H g s Hi Hg).
  destruct (f s) as [[p' s']|] eqn:Hf; [|done]. destruct H as (gi' & H1 & H2).
  exists gi'. split; [done|]. by eapply IH.
Qed.

Lemma thread_ok_bind {B C} i (p : prog S E B) (k : B -> prog S E C)
    (Q : result E C -> G -> Prop) gi :
  thread_ok i (fun r gi => match r with
                           | Ok a => thread_ok i Q (k a) gi
                           | Err e => Q (Err e) gi
                           end) p gi ->
  thread_ok i Q (p ≫= k) gi.
Proof.
  intros H. apply thread_ok_then. revert gi H.
  induction p as [r|f IH] using prog_elim; intros gi H; cbn; [by destruct r|].
  intros g s Hi Hg. specialize (H g s Hi Hg).
  destruct (f s) as [[p' s']|] eqn:Hf; [|done]. destruct H as (gi' & H1 & H2).
  exists gi'. split; [done|]. by eapply IH.
Qed.

Lemma thread_ok_mono {F B} i (p : prog S F B) (Q Q' : result F B -> G -> Prop) gi :
  (forall r gi, Q r gi -> Q' r gi) -> thread_ok i Q p gi -> thread_ok i Q' p gi.
Proof.
  intros HQ. revert gi. induction p as [r|f IH] using prog_elim; intros gi H; cbn; [by apply HQ|].
  intros g s Hi Hg. specialize (H g s Hi Hg).
  destruct (f s) as [[p' s']|] eqn:Hf; [|done]. destruct H as (gi' & H1 & H2).
  exists gi'. split; [done|]. by eapply IH.
Qed.

Lemma thread_ok_map_err {F B} i (f : F -> E) (p : prog S F B) (Q : result E B -> G -> Prop) gi :
  thread_ok i (fun r gi => Q (map_err f r) gi) p gi -> thread_ok i Q (p_map_err f p) gi.
Proof. intros H. by apply thread_ok_then. Qed.

(** Every thread of a pool ok: wherever a schedule leads, the invariant holds for
    some ghosts and every thread is ok again. *)
Lemma sched_ok (Q : nat -> result E A -> G -> Prop) order ps s ps' s' g :
  inv g s -> (forall i p, ps !! i = Some p -> thread_ok i (Q i) p (g i)) ->
  sched order (ps, s) = Some (ps', s') ->
  exists g', inv g' s' /\ length ps' = length ps /\
    (forall i, length ps <= i -> g' i = g i) /\
    forall i p, ps' !! i = Some p -> thread_ok i (Q i) p (g' i).
Proof.
  revert ps s g. induction order as [|i order IH]; intros ps s g Hi Hok; cbn [sched].
  - intros [= <- <-]. by exists g.
  - destruct (step_thread i (ps, s)) as [[ps1 s1]|] eqn:Hs; [|done]. intros Ho.
    apply step_thread_inv in Hs as (p & p' & Hp & Hstep & ->).
    pose proof (Hok i p Hp) as Hokp. destruct p as [r|f]; [done|]. cbn in Hstep.
    specialize (Hokp g s Hi eq_refl). rewrite Hstep in Hokp. destruct Hokp as (gi' & Hi' & Hok').
    destruct (IH (<[i:=p']> ps) s1 (upd i gi' g)) as (g' & ? & Hlen & Hout & ?); [done| |done|].
    + intros j q. unfold upd. destruct (decide (j = i)) as [->|Hne].
      * rewrite list_lookup_insert_eq by (by eapply lookup_lt_Some). by intros [= <-].
      * rewrite list_lookup_insert_ne by done. apply Hok.
    + rewrite length_insert in Hlen, Hout. exists g'. split_and!; [done..| |done].
      intros j Hj. rewrite Hout by done. unfold upd. rewrite decide_False; [done|].
      apply lookup_lt_Some in Hp. lia.
Qed.

(** A thread that is a program on a component, run on the whole. *)
Definition zoom_ok {T F B} (l : Lens S T) (i : nat) (Q : result F B -> G -> Prop)
    (p : prog T F B) (gi : G) : Prop := thread_ok i Q (zoom l p) gi.

Lemma zoom_ok_ret {T F B} (l : Lens S T) i (Q : result F B -> G -> Prop) (b : B) gi :
  Q (Ok b) gi -> zoom_ok l i Q (mret b) gi.
Proof. done. Qed.

Lemma zoom_ok_atomic {T F B} (l : Lens S T) i (Q : result F B -> G -> Prop) (m : M T F B) gi :
  (forall g s, inv g s -> g i = gi ->
     exists gi', inv (upd i gi' g) (put l (m (view l s)).2 s) /\ Q (m (view l s)).1 gi') ->
  zoom_ok l i Q (atomic m) gi.
Proof. intros H g s Hi Hg. specialize (H g s Hi Hg). by destruct (m (view l s)). Qed.

Lemma zoom_ok_locked {T U F B} (l : Lens S T) (lm : Lens T (Mutex U)) i
    (Q : result F B -> G -> Prop) e (body : M T F B) gi :
  (forall g s, inv g s -> g i = gi -> held (view lm (view l s)) = false ->
     poisoned (view lm (view l s)) = false /\
     exists gi', inv (upd i gi' g) (put l (body (view l s)).2 s) /\ Q (body (view l s)).1 gi') ->
  (forall g s, inv g s -> g i = gi -> held (view lm (view l s)) = true -> waits i g) ->
  zoom_ok l i Q (locked lm e body) gi.
Proof.
  intros H Hw g s Hi Hg. cbn. destruct (held (view lm (view l s))) eqn:Hh; [by eapply Hw|].
  destruct (H g s Hi Hg Hh) as [-> Hb]. by destruct (body (view l s)).
Qed.

(** A critical section that is free whenever the invariant holds. *)
Lemma zoom_ok_locked_run {T U F B} (l : Lens S T) (lm : Lens T (Mutex U)) i
    (Q : result F B -> G -> Prop) e (body : M T F B) gi :
  (forall g s, inv g s -> g i = gi ->
     exists r t gi', run (locked lm e body) (view l s) = Some (r, t) /\
       inv (upd i gi' g) (put l t s) /\ Q r gi') ->
  zoom_ok l i Q (locked lm e body) gi.
Proof.
  intros H g s Hi Hg. destruct (H g s Hi Hg) as (r & t & gi' & Hr & H2). revert Hr. cbn.
  destruct (held (view lm (view l s))); [done|].
  destruct (poisoned (view lm (view l s))); cbn; [intros [= <- <-]; eauto|].
  destruct (body (view l s)). cbn. intros [= <- <-]. eauto.
Qed.

(** Taking and releasing a guard. *)
Lemma zoom_ok_lock {T U F} (l : Lens S T) (lm : Lens T (Mutex U)) i
    (Q : result F unit -> G -> Prop) (e : F) gi :
  (forall g s, inv g s -> g i = gi -> held (view lm (view l s)) = false ->
     poisoned (view lm (view l s)) = false /\
     exists gi', inv (upd i gi' g) (put l (put lm (set_held true (view lm (view l s))) (view l s)) s) /\
       Q (Ok ()) gi') ->
  (forall g s, inv g s -> g i = gi -> held (view lm (view l s)) = true -> waits i g) ->
  zoom_ok l i Q (lock lm e) gi.
Proof.
  intros H Hw g s Hi Hg. cbn. destruct (held (view lm (view l s))) eqn:Hh; [by eapply Hw|].
  destruct (H g s Hi Hg Hh) as [-> Hb]. exact Hb.
Qed.

Lemma zoom_ok_then {T E1 F B C} (l : Lens S T) i (p : prog T E1 B) (k : result E1 B -> prog T F C)
    (Q : result F C -> G -> Prop) gi :
  zoom_ok l i (fun r gi => zoom_ok l i Q (k r) gi) p gi -> zoom_ok l i Q (p_then p k) gi.
Proof.
  unfold zoom_ok. revert gi. induction p as [r|f IH] using prog_elim; intros gi H; cbn; [done|].
  intros g s Hi Hg. specialize (H g s Hi Hg). cbn in H.
  destruct (f (view l s)) as [[p' t']|] eqn:Hf; [|done]. destruct H as (gi' & H1 & H2).
  exists gi'. split; [done|]. by eapply IH.
Qed.

Lemma zoom_ok_bind {T F B C} (l : Lens S T) i (p : prog T F B) (k : B -> prog T F C)
    (Q : result F C -> G -> Prop) gi :
  zoom_ok l i (fun r gi => match r with
                           | Ok a => zoom_ok l i Q (k a) gi
                           | Err e => Q (Err e) gi
                           end) p gi ->
  zoom_ok l i Q (p ≫= k) gi.
Proof.
  intros H. apply zoom_ok_then. unfold zoom_ok in *.
  eapply thread_ok_mono; [|exact H]. intros r gi'. by destruct r.
Qed.

Lemma zoom_ok_map_err {T E1 F B} (l : Lens S T) i (f : E1 -> F) (p : prog T E1 B)
    (Q : result F B -> G -> Prop) gi :
  zoom_ok l i (fun r gi => Q (map_err f r) gi) p gi -> zoom_ok l i Q (p_map_err f p) gi.
Proof. intros H. by apply zoom_ok_then. Qed.

Lemma zoom_ok_zoom {T U F B} (l : Lens S T) (l' : Lens T U) i (Q : result F B -> G -> Prop)
    (p : prog U F B) gi :
  zoom_ok (lens_comp l l') i Q p gi -> zoom_ok l i Q (zoom l' p) gi.
Proof.
  unfold zoom_ok. revert gi. induction p as [r|f IH] using prog_elim; intros gi H; cbn in *; [done|].
  intros g s Hi Hg. specialize (H g s Hi Hg).
  destruct (f (view l' (view l s))) as [[p' t']|] eqn:Hf; [|done]. destruct H as (gi' & H1 & H2).
  exists gi'. split; [done|]. by eapply IH.
Qed.

(** The same through the composition of two components. *)
Lemma zoom_ok_assoc {T U V F B} (l : Lens S T) (l1 : Lens T U) (l2 : Lens U V) i
    (Q : result F B -> G -> Prop) (p : prog V F B) gi :
  zoom_ok (lens_comp (lens_comp l l1) l2) i Q p gi ->
  zoom_ok l i Q (zoom (lens_comp l1 l2) p) gi.
Proof.
  unfold zoom_ok. revert gi. induction p as [r|f IH] using prog_elim; intros gi H; cbn in *; [done|].
  intros g s Hi Hg. specialize (H g s Hi Hg).
  destruct (f _) as [[p' t']|] eqn:Hf; [|done]. destruct H as (gi' & H1 & H2).
  exists gi'. split; [done|]. by eapply IH.
Qed.
End ghosts.

(** ** Histories

    An invariant may speak of all that has happened so far, as a list that a step of a
    thread makes longer.  The threads are then ok on a state that has a beginning of
    the history beside it ([so_far]), which they do not see; and a schedule has one
    history for all of its prefixes. *)

Section history.
Context {S E A G X : Type} (inv : list X -> (nat -> G) -> S -> Prop) (waits : nat -> (nat -> G) -> Prop).

Definition so_far (g : nat -> G) (x : list X * S) : Prop :=
  exists h h' s, x = (h, s) /\ h `prefix_of` h' /\ inv h' g s.

Definition told_ok (i : nat) (Q : result E A -> G -> Prop) (p : prog S E A) (gi : G) : Prop :=
  zoom_ok so_far waits lens_snd i Q p gi.

Lemma told_ok_step i Q f s p' s' h g :
  told_ok i Q (Step f) (g i) -> f s = Some (p', s') -> inv h g s ->
  exists news gi', inv (h ++ news) (upd i gi' g) s' /\ told_ok i Q p' gi'.
Proof.
  intros Hok Hf Hi. specialize (Hok g (h, s)). cbn in Hok. rewrite Hf in Hok.
  destruct Hok as (gi' & (h1 & h2 & s1 & [= <- <-] & [news ->] & Hi') & Hok'); [|done|].
  - by exists h, h, s.
  - by exists news, gi'.
Qed.

(** Every thread of a pool ok: each step of a schedule has its news, and at every point
    the invariant holds of the news so far. *)
Lemma sched_history (Q : nat -> result E A -> G -> Prop) order ps s g h :
  inv h g s -> (forall i p, ps !! i = Some p -> told_ok i (Q i) p (g i)) ->
  exists news : list (list X), length news = length order /\
    forall k ps' s', k <= length order -> sched (take k order) (ps, s) = Some (ps', s') ->
    exists g', inv (h ++ concat (take k news)) g' s' /\
      forall i p, ps' !! i = Some p -> told_ok i (Q i) p (g' i).
Proof.
  revert ps s g h. induction order as [|i order IH]; intros ps s g h Hi Hok.
  { exists []. split; [done|]. intros k ps' s' _. rewrite take_nil. intros [= <- <-].
    exists g. by rewrite take_nil, app_nil_r. }
  destruct (step_thread i (ps, s)) as [[ps1 s1]|] eqn:Hs.
  - apply step_thread_inv in Hs as Hs'. destruct Hs' as (p & p' & Hp & Hstep & ->).
    pose proof (Hok i p Hp) as Hokp. destruct p as [r|f]; [done|]. cbn in Hstep.
    destruct (told_ok_step _ _ _ _ _ _ _ _ Hokp Hstep Hi) as (new & gi' & Hi' & Hok').
    destruct (IH (<[i:=p']> ps) s1 (upd i gi' g) (h ++ new) Hi') as (news & Hlen & Hnews).
    { intros j q. unfold upd. destruct (decide (j = i)) as [->|Hne].
      - rewrite list_lookup_insert_eq by (by eapply lookup_lt_Some). by intros [= <-].
      - rewrite list_lookup_insert_ne by done. apply Hok. }
    exists (new :: news). split; [by cbn; rewrite Hlen|]. intros [|k] ps' s' Hk.
    + cbn. intros [= <- <-]. exists g. by rewrite app_nil_r.
    + cbn [take sched concat]. rewrite Hs, app_assoc. apply Hnews. cbn in Hk. lia.
  - exists (replicate (Datatypes.S (length order)) []). split; [by rewrite length_replicate|].
    intros [|k] ps' s' _.
    + cbn. intros [= <- <-]. exists g. by rewrite app_nil_r.
    + cbn [take sched]. by rewrite Hs.
Qed.
End history.

Create HintDb oblivious.
#[export] Hint Extern 1 (oblivious _ _ (Done _)) => exact I : oblivious.
Create HintDb keeps.
#[export] Hint Resolve keeps_done keeps_bind keeps_map_err : keeps.
#[export] Hint Resolve oblivious_bind oblivious_map_err oblivious_then : oblivious.
