(* ===== verification/RustStd.v ===== *)
(** * RustStd: the standard-library functions the program calls

    [str::from_utf8], [str::parse::<u64>], [Display] for integers and for the
    library's error types, [to_ascii_lowercase], and saturating arithmetic on
    [u64].  Integers keep their width: a [u64] (and a [usize], 64 bits on the
    targets the server runs on) is an [N] bounded by [u64_max], an [i64] a [Z]
    between [i64_min] and [i64_max]. *)

From S2P Require Import Prelude Effects.

Local Open Scope N_scope.

(** ** Machine integers *)

Definition u64_max : N := 18446744073709551615.
Definition u32_max : N := 4294967295.
Definition i64_max : Z := 9223372036854775807%Z.
Definition i64_min : Z := (-9223372036854775808)%Z.

Definition is_u64 (n : N) : Prop := n <= u64_max.
#[export] Instance is_u64_dec n : Decision (is_u64 n) := decide (n <= u64_max).

Definition u64_saturating_add (a b : N) : N := N.min (a + b) u64_max.
Definition u64_saturating_sub (a b : N) : N := a - b.
Definition u64_saturating_mul (a b : N) : N := N.min (a * b) u64_max.

(** [u64::div_ceil]: the quotient, plus one when there is a remainder. *)
Definition u64_div_ceil (a b : N) : N :=
  if decide (0 < a `mod` b) then a `div` b + 1 else a `div` b.

Definition u32_saturating_add (a b : N) : N := N.min (a + b) u32_max.
Definition u32_wrapping_add (a b : N) : N := (a + b) `mod` 4294967296.

(** [i64::try_from(n).unwrap_or(i64::MAX)] for an unsigned [n]. *)
Definition i64_try_from_or_max (n : N) : Z :=
  if decide (Z.of_N n <= i64_max)%Z then Z.of_N n else i64_max.

(** ** [Display] for integers *)

Definition digit (n : N) : byte := default x00 (Byte.of_N (48 + n)).

Fixpoint dec_digits (fuel : nat) (n : N) (acc : bytes) : bytes :=
  match fuel with
  | O => acc
  | S fuel' =>
      let acc' := digit (n `mod` 10) :: acc in
      if n `div` 10 =? 0 then acc' else dec_digits fuel' (n `div` 10) acc'
  end.

(** The decimal digits of [n]; a number has no more of them than it has bits. *)
Definition display_N (n : N) : bytes := dec_digits (S (N.size_nat n)) n [].

Definition display_Z (z : Z) : bytes :=
  match z with
  | Zneg p => bstr "-" ++ display_N (Npos p)
  | _ => display_N (Z.to_N z)
  end.

(** ** [u64::from_str] *)

Inductive ParseIntError : Type := Empty | InvalidDigit | PosOverflow.

#[export] Instance ParseIntError_eq_dec : EqDecision ParseIntError.
Proof. solve_decision. Defined.

Definition to_digit (b : byte) : option N :=
  let n := Byte.to_N b in
  if decide (48 <= n <= 57) then Some (n - 48) else None.

(** The digits left to right; a bad digit is noticed before an overflow at the
    same place. *)
Fixpoint parse_digits (ds : bytes) (acc : N) : result ParseIntError N :=
  match ds with
  | [] => Ok acc
  | d :: ds' =>
      match to_digit d with
      | None => Err InvalidDigit
      | Some x =>
          if decide (acc * 10 + x <= u64_max) then parse_digits ds' (acc * 10 + x)
          else Err PosOverflow
      end
  end.

(** [str::parse::<u64>] (and [::<usize>]): a leading [+] is accepted, a lone
    sign is not a digit. *)
Definition parse_u64_str (s : bytes) : result ParseIntError N :=
  match s with
  | [] => Err Empty
  | [b] => if decide (b = x2b \/ b = x2d) then Err InvalidDigit else parse_digits s 0
  | b :: rest => if decide (b = x2b) then parse_digits rest 0 else parse_digits s 0
  end.

Definition display_ParseIntError (e : ParseIntError) : bytes :=
  match e with
  | Empty => bstr "cannot parse integer from empty string"
  | InvalidDigit => bstr "invalid digit found in string"
  | PosOverflow => bstr "number too large to fit in target type"
  end.

(** ** [str::from_utf8] *)

Record Utf8Error : Type := mkUtf8Error {
  valid_up_to : N;
  error_len : option N
}.

#[export] Instance Utf8Error_eq_dec : EqDecision Utf8Error.
Proof. solve_decision. Defined.

Definition in_range (lo hi : N) (b : byte) : bool :=
  let n := Byte.to_N b in (lo <=? n) && (n <=? hi).

(** A continuation byte. *)
Definition is_cont (b : byte) : bool := in_range 128 191 b.

Definition utf8_char_width (b : byte) : N :=
  if in_range 194 223 b then 2
  else if in_range 224 239 b then 3
  else if in_range 240 244 b then 4
  else 0.

(** Which second bytes may follow the first byte of a 3-byte sequence: no
    overlong form, no surrogate. *)
Definition second_of_3 (b b1 : byte) : bool :=
  let n := Byte.to_N b in
  if n =? 224 then in_range 160 191 b1
  else if n =? 237 then in_range 128 159 b1
  else is_cont b1.

(** The same for 4 bytes: no overlong form, nothing past U+10FFFF. *)
Definition second_of_4 (b b1 : byte) : bool :=
  let n := Byte.to_N b in
  if n =? 240 then in_range 144 191 b1
  else if n =? 244 then in_range 128 143 b1
  else is_cont b1.

(** [run_utf8_validation], from byte number [i] on. *)
Fixpoint utf8_from (i : N) (v : bytes) : result Utf8Error unit :=
  match v with
  | [] => Ok ()
  | b :: v1 =>
      if Byte.to_N b <? 128 then utf8_from (i + 1) v1
      else
        match utf8_char_width b with
        | 2 =>
            match v1 with
            | [] => Err (mkUtf8Error i None)
            | b1 :: v2 =>
                if is_cont b1 then utf8_from (i + 2) v2
                else Err (mkUtf8Error i (Some 1))
            end
        | 3 =>
            match v1 with
            | [] => Err (mkUtf8Error i None)
            | b1 :: v2 =>
                if second_of_3 b b1 then
                  match v2 with
                  | [] => Err (mkUtf8Error i None)
                  | b2 :: v3 =>
                      if is_cont b2 then utf8_from (i + 3) v3
                      else Err (mkUtf8Error i (Some 2))
                  end
                else Err (mkUtf8Error i (Some 1))
            end
        | 4 =>
            match v1 with
            | [] => Err (mkUtf8Error i None)
            | b1 :: v2 =>
                if second_of_4 b b1 then
                  match v2 with
                  | [] => Err (mkUtf8Error i None)
                  | b2 :: v3 =>
                      if is_cont b2 then
                        match v3 with
                        | [] => Err (mkUtf8Error i None)
                        | b3 :: v4 =>
                            if is_cont b3 then utf8_from (i + 4) v4
                            else Err (mkUtf8Error i (Some 3))
                        end
                      else Err (mkUtf8Error i (Some 2))
                  end
                else Err (mkUtf8Error i (Some 1))
            end
        | _ => Err (mkUtf8Error i (Some 1))
        end
  end.

Definition from_utf8 (v : bytes) : result Utf8Error bytes :=
  match utf8_from 0 v with Ok _ => Ok v | Err e => Err e end.

Definition display_Utf8Error (e : Utf8Error) : bytes :=
  match error_len e with
  | Some n =>
      bstr "invalid utf-8 sequence of " ++ display_N n ++ bstr " bytes from index "
        ++ display_N (valid_up_to e)
  | None =>
      bstr "incomplete utf-8 byte sequence from index " ++ display_N (valid_up_to e)
  end.

(** ** Slices *)

(** [s.split_at_checked(n)]. *)
Definition split_at_checked (s : bytes) (n : N) : option (bytes * bytes) :=
  if decide (n <= N.of_nat (length s)) then
    Some (take (N.to_nat n) s, drop (N.to_nat n) s)
  else None.

(** [s.get(n..)]. *)
Definition get_from (s : bytes) (n : nat) : option bytes :=
  if decide (n <= length s)%nat then Some (drop n s) else None.

(** [s.strip_prefix(p)]. *)
Definition strip_prefix (p s : bytes) : option bytes :=
  if decide (take (length p) s = p) then Some (drop (length p) s) else None.

(** ** [to_ascii_lowercase] *)

Definition byte_to_lower (b : byte) : byte :=
  if in_range 65 90 b then default b (Byte.of_N (Byte.to_N b + 32)) else b.
Definition to_ascii_lowercase (s : bytes) : bytes := map byte_to_lower s.

(** ** I/O errors, by kind *)

Inductive IoErrorKind : Type := TimedOut | WouldBlock | OtherIo.
Record IoError : Type := mkIoError { io_kind : IoErrorKind }.

#[export] Instance IoErrorKind_eq_dec : EqDecision IoErrorKind.
Proof. solve_decision. Defined.
#[export] Instance IoError_eq_dec : EqDecision IoError.
Proof. solve_decision. Defined.

(** ** [std::io::Write] *)

Class Write (W : Type) : Type := {
  write_all : bytes -> M W IoError unit;
  flush : M W IoError unit
}.

(** [impl Write for Vec<u8>]: appends, never fails. *)
#[export] Instance Vec_Write : Write bytes := {
  write_all b := fun w => (Ok (), w ++ b);
  flush := fun w => (Ok (), w)
}.

(** ** Facts: decimal round trip *)

Definition is_digit (b : byte) : bool := in_range 48 57 b.

Ltac small_N x :=
  destruct x as [|x];
  [|repeat (first [lia | destruct x as [x|x|]])].

Lemma to_digit_digit x : x < 10 -> to_digit (digit x) = Some x.
Proof. intros Hx. small_N x; reflexivity. Qed.

Lemma is_digit_digit x : x < 10 -> is_digit (digit x).
Proof. intros Hx. small_N x; exact I. Qed.

Lemma is_digit_ascii b : is_digit b -> (Byte.to_N b <? 128) = true.
Proof. by destruct b. Qed.

(** What the digits of [n] are to the parser: they read as [n], or overflow. *)
Lemma dec_digits_spec f n acc :
  (0 < f)%nat -> n < 2 ^ N.of_nat f ->
  exists ds, dec_digits f n acc = ds ++ acc /\ ds <> [] /\ Forall is_digit ds /\
    forall tl, parse_digits (ds ++ tl) 0 =
      if decide (n <= u64_max) then parse_digits tl n else Err PosOverflow.
Proof.
  revert n acc. induction f as [|f IH]; intros n acc Hf Hn; [lia|]. simpl.
  pose proof (N.mod_upper_bound n 10 ltac:(done)) as Hm.
  pose proof (N.div_mod n 10 ltac:(done)) as Hdm.
  set (q := n `div` 10) in *. set (r := n `mod` 10) in *.
  destruct (N.eqb_spec q 0) as [Hq|Hq].
  - exists [digit r]. split_and!; [done..| |].
    + repeat constructor. by apply is_digit_digit.
    + intros tl. simpl. rewrite (to_digit_digit r) by lia.
      rewrite decide_True by (unfold u64_max; lia).
      rewrite decide_True by (unfold u64_max; lia). f_equal. lia.
  - destruct (IH q (digit r :: acc)) as (ds & Heq & Hne & Hall & Hp).
    { destruct f; [simpl in Hn; lia|lia]. }
    { rewrite Nat2N.inj_succ, N.pow_succ_r' in Hn. lia. }
    exists (ds ++ [digit r]). split_and!.
    + by rewrite Heq, <- app_assoc.
    + by destruct ds.
    + apply Forall_app; split; [done|]. repeat constructor. by apply is_digit_digit.
    + intros tl. rewrite <- app_assoc, Hp. simpl. rewrite (to_digit_digit r) by lia.
      replace (q * 10 + r) with n by lia.
      destruct (decide (n <= u64_max)).
      * by rewrite decide_True by lia.
      * by destruct (decide (q <= u64_max)).
Qed.

Lemma Pos_size_nat_bound p : Npos p < 2 ^ N.of_nat (Pos.size_nat p).
Proof.
  induction p as [p IH|p IH|]; simpl Pos.size_nat;
    rewrite Nat2N.inj_succ, N.pow_succ_r'; lia.
Qed.

Lemma N_size_nat_bound n : n < 2 ^ N.of_nat (S (N.size_nat n)).
Proof.
  rewrite Nat2N.inj_succ, N.pow_succ_r'.
  destruct n as [|p]; [done|]. pose proof (Pos_size_nat_bound p). simpl N.size_nat. lia.
Qed.

Lemma display_N_spec n :
  exists ds, display_N n = ds /\ ds <> [] /\ Forall is_digit ds /\
    forall tl, parse_digits (ds ++ tl) 0 =
      if decide (n <= u64_max) then parse_digits tl n else Err PosOverflow.
Proof.
  destruct (dec_digits_spec (S (N.size_nat n)) n []) as (ds & Heq & H);
    [lia|apply N_size_nat_bound|].
  exists ds. split; [|done]. unfold display_N. by rewrite Heq, app_nil_r.
Qed.

Lemma display_N_nonempty n : display_N n <> [].
Proof. by destruct (display_N_spec n) as (ds & -> & ? & _). Qed.

Lemma display_N_digits n : Forall is_digit (display_N n).
Proof. by destruct (display_N_spec n) as (ds & -> & _ & ? & _). Qed.

Lemma parse_u64_str_digits ds :
  ds <> [] -> Forall is_digit ds -> parse_u64_str ds = parse_digits ds 0.
Proof.
  intros Hne Hall. destruct ds as [|b [|b' ds]]; [done| |]; simpl.
  - inversion_clear Hall as [|? ? Hb]. rewrite decide_False; [done|].
    intros [-> | ->]; done.
  - inversion_clear Hall as [|? ? Hb]. rewrite decide_False; [done|].
    intros ->; done.
Qed.

(** [n.to_string().parse::<u64>()]: the number back when it fits, else
    [PosOverflow]. *)
Lemma parse_display_N n :
  parse_u64_str (display_N n) =
  if decide (n <= u64_max) then Ok n else Err PosOverflow.
Proof.
  destruct (display_N_spec n) as (ds & -> & Hne & Hall & Hp).
  rewrite parse_u64_str_digits by done. specialize (Hp []).
  by rewrite app_nil_r in Hp.
Qed.

Lemma utf8_from_ascii i v :
  Forall (fun b => (Byte.to_N b <? 128) = true) v -> utf8_from i v = Ok ().
Proof.
  intros H. revert i. induction H as [|b v Hb _ IH]; intros i; simpl; [done|].
  by rewrite Hb.
Qed.

Lemma from_utf8_digits v : Forall is_digit v -> from_utf8 v = Ok v.
Proof.
  intros H. unfold from_utf8. rewrite utf8_from_ascii; [done|].
  eapply Forall_impl; [exact H|]. intros b. apply is_digit_ascii.
Qed.

Lemma parse_digits_bound ds acc n :
  is_u64 acc -> parse_digits ds acc = Ok n -> is_u64 n.
Proof.
  revert acc. induction ds as [|d ds IH]; simpl; intros acc Hacc.
  - by intros [= <-].
  - destruct (to_digit d); [|done]. destruct (decide _); [|done]. by apply IH.
Qed.

Lemma parse_u64_str_bound s n : parse_u64_str s = Ok n -> is_u64 n.
Proof.
  unfold parse_u64_str. intros H.
  assert (Hz : is_u64 0) by (unfold is_u64, u64_max; lia).
  destruct s as [|b [|b' s]]; [done| |];
    destruct (decide _); try done; by eapply parse_digits_bound in H.
Qed.

(** ** Facts: saturating arithmetic, case folding *)

Lemma u64_saturating_add_u64 a b : is_u64 (u64_saturating_add a b).
Proof. unfold is_u64, u64_saturating_add. lia. Qed.
Lemma u64_saturating_mul_u64 a b : is_u64 (u64_saturating_mul a b).
Proof. unfold is_u64, u64_saturating_mul. lia. Qed.

Lemma byte_to_lower_idem b : byte_to_lower (byte_to_lower b) = byte_to_lower b.
Proof. by destruct b. Qed.

Lemma to_ascii_lowercase_idem s :
  to_ascii_lowercase (to_ascii_lowercase s) = to_ascii_lowercase s.
Proof.
  unfold to_ascii_lowercase. rewrite map_map. apply map_ext.
  intros. apply byte_to_lower_idem.
Qed.

(** ** Facts: slices *)

Lemma split_at_checked_Some s n a b :
  split_at_checked s n = Some (a, b) <-> s = a ++ b /\ N.of_nat (length a) = n.
Proof.
  unfold split_at_checked. case_decide as Hn; split.
  - intros [= <- <-]. rewrite take_drop, length_take. split; [done|lia].
  - intros [-> <-]. rewrite Nat2N.id. by rewrite take_app_length, drop_app_length.
  - done.
  - intros [-> <-]. destruct Hn. rewrite length_app. lia.
Qed.

Lemma split_at_checked_None s n :
  split_at_checked s n = None <-> N.of_nat (length s) < n.
Proof. unfold split_at_checked. case_decide; split; [done|lia|lia|done]. Qed.

Lemma strip_prefix_Some p s r : strip_prefix p s = Some r <-> s = p ++ r.
Proof.
  unfold strip_prefix. case_decide as Hp; split.
  - intros [= <-]. rewrite <- Hp at 1. by rewrite take_drop.
  - intros ->. by rewrite drop_app_length.
  - done.
  - intros ->. destruct Hp. by rewrite take_app_length.
Qed.
