(* ===== verification/Time.v ===== *)
(** * Time: [domain/time.rs]

    The two units deadlines come in, the conversion between them, and the
    system clock.  A clock is the sequence of readings the process will get:
    nanoseconds relative to the UNIX epoch, in any order, negative when the
    system clock is set before it. *)

From S2P Require Import Prelude Effects RustStd.

Local Open Scope N_scope.

(** ** Units *)

Record Seconds : Type := mkSeconds { secs : N }.
Record Milliseconds : Type := mkMilliseconds { millis : N }.

#[export] Instance Seconds_eq_dec : EqDecision Seconds.
Proof. solve_decision. Defined.
#[export] Instance Milliseconds_eq_dec : EqDecision Milliseconds.
Proof. solve_decision. Defined.

Definition Seconds_wf (s : Seconds) : Prop := is_u64 (secs s).
Definition Milliseconds_wf (m : Milliseconds) : Prop := is_u64 (millis m).
#[export] Instance Milliseconds_wf_dec m : Decision (Milliseconds_wf m) :=
  decide (is_u64 (millis m)).

(** The derived [PartialOrd], as the test [a >= b]. *)
Definition ms_ge (a b : Milliseconds) : bool := millis b <=? millis a.

Definition saturating_sub (a b : Milliseconds) : Milliseconds :=
  mkMilliseconds (u64_saturating_sub (millis a) (millis b)).

Definition saturating_add (a b : Milliseconds) : Milliseconds :=
  mkMilliseconds (u64_saturating_add (millis a) (millis b)).

Definition to_seconds_rounded_up (m : Milliseconds) : Seconds :=
  mkSeconds (u64_div_ceil (millis m) 1000).

(** [impl From<Seconds> for Milliseconds]. *)
Definition Milliseconds_from_Seconds (s : Seconds) : Milliseconds :=
  mkMilliseconds (u64_saturating_mul (secs s) 1000).

(** ** The clock *)

(** How far before the epoch the clock read. *)
Record SystemTimeError : Type := mkSystemTimeError { ste_nanos : N }.

#[export] Instance SystemTimeError_eq_dec : EqDecision SystemTimeError.
Proof. solve_decision. Defined.

Definition display_SystemTimeError (e : SystemTimeError) : bytes :=
  bstr "second time provided was later than self".

Record Clock : Type := mkClock {
  readings : nat -> Z;
  tick : nat
}.

(** One reading of [SystemTime::now().duration_since(UNIX_EPOCH)] as
    milliseconds. *)
Definition millis_of_reading (ns : Z) : result SystemTimeError Milliseconds :=
  if decide (ns < 0)%Z then Err (mkSystemTimeError (Z.to_N (- ns)))
  else
    let ms := Z.to_N (ns / 1000000) in
    Ok (mkMilliseconds (if decide (ms <= u64_max) then ms else u64_max)).

(** [Milliseconds::now]: takes the clock's next reading. *)
Definition now : M Clock SystemTimeError Milliseconds := fun c =>
  (millis_of_reading (readings c (tick c)), mkClock (readings c) (S (tick c))).

(** A clock all of whose readings are [ms] milliseconds. *)
Definition clock_at (ms : N) : Clock := mkClock (fun _ => Z.of_N ms * 1000000)%Z 0.

(** ** Facts *)

Lemma millis_of_reading_wf ns m : millis_of_reading ns = Ok m -> Milliseconds_wf m.
Proof.
  unfold millis_of_reading, Milliseconds_wf, is_u64.
  repeat case_decide; intros [= <-]; cbn [millis]; first [done | lia].
Qed.

Lemma now_wf c m c' : now c = (Ok m, c') -> Milliseconds_wf m.
Proof. unfold now. intros [= H _]. by eapply millis_of_reading_wf. Qed.

Lemma saturating_add_wf a b : Milliseconds_wf (saturating_add a b).
Proof. apply u64_saturating_add_u64. Qed.

Lemma Milliseconds_from_Seconds_wf s : Milliseconds_wf (Milliseconds_from_Seconds s).
Proof. apply u64_saturating_mul_u64. Qed.

Lemma saturating_sub_wf a b : Milliseconds_wf a -> Milliseconds_wf (saturating_sub a b).
Proof.
  unfold Milliseconds_wf, is_u64, saturating_sub, u64_saturating_sub.
  cbn [millis]. intros. lia.
Qed.

Lemma ms_ge_spec a b : ms_ge a b <-> millis b <= millis a.
Proof. unfold ms_ge. rewrite Is_true_true. apply N.leb_le. Qed.

Lemma millis_of_reading_at ms :
  is_u64 ms -> millis_of_reading (Z.of_N ms * 1000000) = Ok (mkMilliseconds ms).
Proof.
  intros Hms. unfold millis_of_reading, is_u64, u64_max in *.
  rewrite decide_False by lia.
  rewrite Z.div_mul, N2Z.id by done. by rewrite decide_True.
Qed.

Lemma div_ceil_spec a b :
  0 < b -> a <= u64_div_ceil a b * b /\ u64_div_ceil a b * b < a + b.
Proof.
  intros Hb. unfold u64_div_ceil.
  pose proof (N.div_mod a b ltac:(lia)). pose proof (N.mod_lt a b ltac:(lia)).
  generalize dependent (a `mod` b). generalize (a `div` b). intros q r -> Hr.
  rewrite N.mul_comm. case_decide; rewrite ?N.mul_add_distr_r; lia.
Qed.

(** ** Properties *)

(** [Milliseconds::to_seconds_rounded_up] returns the least number of
    seconds that covers the duration: it covers it, any other number of seconds
    that covers it is at least as large, and so a whole number of seconds comes
    back exactly (a fresh 60 s TTL reads as 60, never 59). *)
Theorem rounded_up_least (m : Milliseconds) (s : N) :
  let r := secs (to_seconds_rounded_up m) in
  millis m <= r * 1000 /\ (millis m <= s * 1000 -> r <= s) /\
  secs (to_seconds_rounded_up (mkMilliseconds (s * 1000))) = s.
Proof.
  simpl. split_and!.
  - by apply div_ceil_spec.
  - intros Hs. pose proof (div_ceil_spec (millis m) 1000 ltac:(lia)). lia.
  - pose proof (div_ceil_spec (s * 1000) 1000 ltac:(lia)). lia.
Qed.
