(* ===== verification/Crlf.v ===== *)
(** * Crlf: [resp/crlf.rs]

    The [\r\n] terminator: testing for it and splitting on the first one. *)

From S2P Require Import Prelude RustStd.

Definition is_crlf (s : bytes) : bool :=
  match s !! 0, s !! 1 with
  | Some first_byte, Some second_byte =>
      bool_decide (first_byte = CR) && bool_decide (second_byte = LF)
  | _, _ => false
  end.

(** [s.windows(2).position(|w| w == b"\r\n")]. *)
Fixpoint windows_position (s : bytes) : option nat :=
  match s with
  | a :: ((b :: _) as s') =>
      if decide ([a; b] = crlf) then Some 0 else S <$> windows_position s'
  | _ => None
  end.

Definition split_crlf (s : bytes) : option (bytes * bytes) :=
  p ← windows_position s;
  '(before, rest) ← split_at_checked s (N.of_nat p);
  after ← get_from rest 2;
  Some (before, after).

(** ** Facts *)

Lemma windows_position_cons a b s :
  windows_position (a :: b :: s) =
  if decide ([a; b] = crlf) then Some 0 else S <$> windows_position (b :: s).
Proof. done. Qed.

Lemma windows_position_split s p :
  windows_position s = Some p -> s = take p s ++ crlf ++ drop (p + 2) s.
Proof.
  revert p. induction s as [|a s IH]; intros p; [done|].
  destruct s as [|b s]; [done|]. rewrite windows_position_cons.
  destruct (decide _) as [Heq|Hne].
  - intros [= <-]. by injection Heq as -> ->.
  - intros (q & Hq & ->)%fmap_Some. apply IH in Hq. cbn [take drop plus app].
    by f_equal.
Qed.

Lemma windows_position_bound s p : windows_position s = Some p -> p + 2 <= length s.
Proof.
  revert p. induction s as [|a s IH]; intros p; [done|].
  destruct s as [|b s]; [done|]. rewrite windows_position_cons.
  destruct (decide _); [intros [= <-]; simpl; lia|].
  intros (q & Hq & ->)%fmap_Some. apply IH in Hq. simpl in *. lia.
Qed.

Lemma split_crlf_position s :
  split_crlf s = (fun p => (take p s, drop (p + 2) s)) <$> windows_position s.
Proof.
  unfold split_crlf. destruct (windows_position s) as [p|] eqn:Hp; [|done].
  apply windows_position_bound in Hp. cbn.
  unfold split_at_checked. rewrite decide_True by lia. rewrite Nat2N.id. cbn.
  unfold get_from. rewrite length_drop, decide_True by lia. cbn.
  by rewrite drop_drop.
Qed.

(** The two halves and the terminator are the slice. *)
Lemma split_crlf_app s before after :
  split_crlf s = Some (before, after) -> s = before ++ crlf ++ after.
Proof.
  rewrite split_crlf_position. intros (p & Hp & [= -> ->])%fmap_Some.
  by apply windows_position_split.
Qed.

Lemma split_crlf_extend s before after more :
  split_crlf s = Some (before, after) ->
  split_crlf (s ++ more) = Some (before, after ++ more).
Proof.
  rewrite !split_crlf_position. intros (p & Hp & [= -> ->])%fmap_Some.
  pose proof (windows_position_bound _ _ Hp) as Hl.
  assert (Hp' : windows_position (s ++ more) = Some p).
  { clear Hl. revert p Hp. induction s as [|a s IH]; intros p; [done|].
    destruct s as [|b s]; [done|]. cbn [app]; rewrite !windows_position_cons.
    destruct (decide _); [done|]. intros (q & Hq & ->)%fmap_Some.
    apply IH in Hq. cbn [app] in Hq. by rewrite Hq. }
  rewrite Hp'. cbn. by rewrite take_app_le, drop_app_le by lia.
Qed.

(** The split is on the first terminator. *)
Lemma split_crlf_first before after :
  CR ∉ before -> split_crlf (before ++ crlf ++ after) = Some (before, after).
Proof.
  intros Hb. rewrite split_crlf_position.
  assert (windows_position (before ++ crlf ++ after) = Some (length before)) as ->.
  { induction before as [|a b IH]; [done|].
    apply not_elem_of_cons in Hb as [Ha Hb]. specialize (IH Hb).
    cbn [app length].
    destruct (b ++ crlf ++ after) as [|c t] eqn:Ht; [by destruct b|].
    rewrite windows_position_cons.
    rewrite decide_False by (intros [= -> _]; done). by rewrite IH. }
  cbn. by rewrite take_app_length, drop_app_add.
Qed.


(** [split_crlf] answers [None] exactly when the slice contains no [\r\n]
    at all, and otherwise splits it at one with nothing lost and no earlier
    [\r\n] before the split point. *)
Theorem split_crlf_spec (s : bytes) :
  match split_crlf s with
  | None => forall a b, s <> a ++ crlf ++ b
  | Some (before, after) =>
      s = before ++ crlf ++ after /\
      forall a b, s = a ++ crlf ++ b -> length before <= length a
  end.
Proof.
  assert (Hmin : forall s a b, s = a ++ crlf ++ b ->
            exists p, windows_position s = Some p /\ p <= length a).
  { clear s. intros s a. revert s. induction a as [|c a IH]; intros s b ->.
    - exists 0. split; [done|simpl; lia].
    - destruct (IH _ b eq_refl) as (p & Hp & Hle).
      cbn [app length].
      destruct (a ++ crlf ++ b) as [|d t] eqn:Ht; [by destruct a|].
      rewrite windows_position_cons.
      destruct (decide _); [eexists; split; [done|lia]|].
      exists (S p). rewrite Hp. split; [done|lia]. }
  destruct (split_crlf s) as [[before after]|] eqn:Hs.
  - split; [by apply split_crlf_app|]. intros a b Hab.
    destruct (Hmin _ _ _ Hab) as (p & Hp & Hle).
    rewrite split_crlf_position, Hp in Hs. injection Hs as <- <-.
    rewrite length_take. lia.
  - intros a b Hab. destruct (Hmin _ _ _ Hab) as (p & Hp & _).
    by rewrite split_crlf_position, Hp in Hs.
Qed.
