(* ===== verification/Command.v ===== *)
(** * Command: [domain/command/]

    The parsed commands, sorted by who handles them, and what they produce. *)

From S2P Require Import Prelude RustStd Time.

(** ** Cache commands: [command/cache/] *)

Inductive ReadCommand : Type :=
| RGet (key : bytes)
| RExists (key : bytes)
| RTtl (key : bytes).

Inductive WriteCommand : Type :=
| WSet (key value : bytes) (expires_at : option Milliseconds)
| WDelete (key : bytes)
| WExpireAt (key : bytes) (expires_at : Milliseconds)
| WPersist (key : bytes).

Inductive CacheCommand : Type :=
| CacheRead (c : ReadCommand)
| CacheWrite (c : WriteCommand).

(** ** Pub/sub commands: [command/channel.rs] *)

Inductive ChannelCommand : Type :=
| Subscribe (channel_ids : list bytes)
| Unsubscribe (channel_ids : list bytes)
| Publish (channel_id message : bytes).

Record SubUnsubInnerEntry : Type := mkSubUnsub {
  su_channel_id : option bytes;
  subscription_count : N
}.

Definition SubUnsubInnerEntry_new (channel_id : bytes) (count : N) : SubUnsubInnerEntry :=
  mkSubUnsub (Some channel_id) count.
Definition SubUnsubInnerEntry_new_null (count : N) : SubUnsubInnerEntry :=
  mkSubUnsub None count.

Inductive ChannelCommandOutcome : Type :=
| CcoSubscribe (inner : list SubUnsubInnerEntry)
| CcoUnsubscribe (inner : list SubUnsubInnerEntry)
| CcoPublish (sent_count : N).

(** ** Commands: [command/mod.rs] *)

Inductive CommandError : Type :=
| UnrecognizedCommand
| NotEnoughParts
| TooManyParts
| Syntax
| CE_Utf8 (e : Utf8Error)
| CE_ParseInt (e : ParseIntError).

Definition display_CommandError (e : CommandError) : bytes :=
  match e with
  | UnrecognizedCommand => bstr "unrecognized command"
  | NotEnoughParts => bstr "not enough parts"
  | TooManyParts => bstr "too many parts"
  | Syntax => bstr "syntax error"
  | CE_Utf8 e => display_Utf8Error e
  | CE_ParseInt e => display_ParseIntError e
  end.

Inductive Command : Type :=
| Cache (c : CacheCommand)
| Channel (c : ChannelCommand)
| Ping (message : option bytes).

Definition cmd_get (key : bytes) : Command := Cache (CacheRead (RGet key)).
Definition cmd_set (key value : bytes) (expires_at : option Milliseconds) : Command :=
  Cache (CacheWrite (WSet key value expires_at)).
Definition cmd_delete (key : bytes) : Command := Cache (CacheWrite (WDelete key)).
Definition cmd_exists (key : bytes) : Command := Cache (CacheRead (RExists key)).
Definition cmd_expire_at (key : bytes) (expires_at : Milliseconds) : Command :=
  Cache (CacheWrite (WExpireAt key expires_at)).
Definition cmd_ttl (key : bytes) : Command := Cache (CacheRead (RTtl key)).
Definition cmd_persist (key : bytes) : Command := Cache (CacheWrite (WPersist key)).
Definition cmd_ping (message : option bytes) : Command := Ping message.
Definition cmd_subscribe (channel_ids : list bytes) : Command :=
  Channel (Subscribe channel_ids).
Definition cmd_unsubscribe (channel_ids : list bytes) : Command :=
  Channel (Unsubscribe channel_ids).
Definition cmd_publish (channel_id message : bytes) : Command :=
  Channel (Publish channel_id message).

(** ** Outcomes: [command/outcome.rs] *)

Inductive TtlOutcome : Type :=
| KeyNotFound
| TtlNotFound
| TtlSome (s : Seconds).

Inductive CommandOutcome : Type :=
| CoValue (v : option bytes)
| CoOk
| CoBool (b : bool)
| CoTtl (t : TtlOutcome)
| CoPong (message : option bytes)
| CoInteger (i : Z).

(** ** Decidable equality *)

#[export] Instance ReadCommand_eq_dec : EqDecision ReadCommand.
Proof. solve_decision. Defined.
#[export] Instance WriteCommand_eq_dec : EqDecision WriteCommand.
Proof. solve_decision. Defined.
#[export] Instance CacheCommand_eq_dec : EqDecision CacheCommand.
Proof. solve_decision. Defined.
#[export] Instance ChannelCommand_eq_dec : EqDecision ChannelCommand.
Proof. solve_decision. Defined.
#[export] Instance CommandError_eq_dec : EqDecision CommandError.
Proof. solve_decision. Defined.
#[export] Instance Command_eq_dec : EqDecision Command.
Proof. solve_decision. Defined.
#[export] Instance CommandOutcome_eq_dec : EqDecision CommandOutcome.
Proof. assert (EqDecision TtlOutcome) by solve_decision. solve_decision. Defined.

(** A write command as Rust can build it: its deadline is a [u64]. *)
Definition WriteCommand_wf (wc : WriteCommand) : Prop :=
  match wc with
  | WSet _ _ (Some t) | WExpireAt _ t => Milliseconds_wf t
  | _ => True
  end.

(** The key a write command is about. *)
Definition write_key (wc : WriteCommand) : bytes :=
  match wc with
  | WSet key _ _ | WDelete key | WExpireAt key _ | WPersist key => key
  end.

(** A write command as a process can hold it: its byte strings have a [usize]
    length, too. *)
Definition loggable (wc : WriteCommand) : Prop :=
  WriteCommand_wf wc /\
  match wc with
  | WSet key value _ => is_u64 (N.of_nat (length key)) /\ is_u64 (N.of_nat (length value))
  | WDelete key | WExpireAt key _ | WPersist key => is_u64 (N.of_nat (length key))
  end.
