(* ===== verification/Frame.v ===== *)
(** * Frame: [resp/frame.rs]

    The RESP frame codec: [parse_one] reads one frame off the front of a byte
    slice, [write_to] encodes one.  The parser's recursion is modelled as it is
    in the source: [parse_array] iterates over the elements and calls
    [parse_one] for each, so [parse_one_d] takes the number of nested
    activations of [parse_one] it may use; [parse_one] gives it as many as the
    input has bytes, which is always enough ([parse_one_total]). *)

From S2P Require Import Prelude Effects RustStd Time Crlf Command.

Local Open Scope N_scope.

(** ** Data *)

Inductive ParseLengthError : Type :=
| PLE_Utf8 (e : Utf8Error)
| PLE_ParseInt (e : ParseIntError).

Inductive FrameError : Type :=
| MissingTerminator
| UnknownSigil
| InvalidLength (e : ParseLengthError)
| Incomplete
| Malformed.

#[export] Instance ParseLengthError_eq_dec : EqDecision ParseLengthError.
Proof. solve_decision. Defined.
#[export] Instance FrameError_eq_dec : EqDecision FrameError.
Proof. solve_decision. Defined.

Definition display_ParseLengthError (e : ParseLengthError) : bytes :=
  match e with
  | PLE_Utf8 e => display_Utf8Error e
  | PLE_ParseInt e => display_ParseIntError e
  end.

Definition display_FrameError (e : FrameError) : bytes :=
  match e with
  | MissingTerminator => bstr "missing crlf terminator"
  | UnknownSigil => bstr "unknown sigil"
  | InvalidLength e => bstr "failed to parse length: " ++ display_ParseLengthError e
  | Incomplete => bstr "incomplete frame"
  | Malformed => bstr "malformed value"
  end.

Unset Elimination Schemes.
Inductive Frame : Type :=
| Array (frames : list Frame)
| BulkString (payload : bytes).
Set Elimination Schemes.

Section Frame_ind.
Variable P : Frame -> Prop.
Hypothesis HA : forall fs, Forall P fs -> P (Array fs).
Hypothesis HB : forall s, P (BulkString s).

Fixpoint Frame_ind (f : Frame) : P f :=
  match f with
  | Array fs =>
      HA fs ((fix go (fs : list Frame) : Forall P fs :=
                match fs with
                | [] => Forall_nil_2 P
                | f :: fs => Forall_cons_2 P f fs (Frame_ind f) (go fs)
                end) fs)
  | BulkString s => HB s
  end.
End Frame_ind.

(** What the parser answers: a frame and the bytes after it, or an error. *)
Abbreviation parsed A := (result FrameError (A * bytes)).

(** ** Decoding *)

(** The length field of a header: UTF-8, then a [usize]. *)
Definition parse_len (len_bytes : bytes) : result FrameError N :=
  s ← map_err (fun e => InvalidLength (PLE_Utf8 e)) (from_utf8 len_bytes);
  map_err (fun e => InvalidLength (PLE_ParseInt e)) (parse_u64_str s).

Definition parse_bulk_string (bs : bytes) (len : N) : parsed Frame :=
  match split_at_checked bs len with
  | None => Err Incomplete
  | Some (payload, rest) =>
      if decide (length rest < 2)%nat then Err Incomplete
      else
        match strip_prefix crlf rest with
        | None => Err MissingTerminator
        | Some remaining => Ok (BulkString payload, remaining)
        end
  end.

(** The loop of [parse_array]: [len] more elements off [buf], pushed onto
    [vec].  [p] is [parse_one]; every element takes bytes, so [fuel] turns are
    enough when [buf] is shorter than [fuel]. *)
Fixpoint array_loop (p : bytes -> option (parsed Frame)) (fuel : nat) (len : N)
    (buf : bytes) (vec : list Frame) : option (parsed (list Frame)) :=
  match len with
  | 0 => Some (Ok (vec, buf))
  | _ =>
      match fuel with
      | O => None
      | S fuel' =>
          match p buf with
          | None => None
          | Some (Err e) => Some (Err e)
          | Some (Ok (value, buf')) =>
              array_loop p fuel' (len - 1) buf' (vec ++ [value])
          end
      end
  end.

Definition parse_array_with (p : bytes -> option (parsed Frame)) (bs : bytes) (len : N)
  : option (parsed Frame) :=
  match array_loop p (S (length bs)) len bs [] with
  | Some (Ok (vec, buf)) => Some (Ok (Array vec, buf))
  | Some (Err e) => Some (Err e)
  | None => None
  end.

(** [parse_one] with at most [depth] nested activations. *)
Fixpoint parse_one_d (depth : nat) (bs : bytes) : option (parsed Frame) :=
  match depth with
  | O => None
  | S depth' =>
      match split_crlf bs with
      | None => Some (Err Incomplete)
      | Some (header, rest) =>
          match header with
          | [] => Some (Err Malformed)
          | sigil :: len_bytes =>
              if decide (len_bytes = []) then Some (Err Malformed)
              else
                match parse_len len_bytes with
                | Err e => Some (Err e)
                | Ok len =>
                    if decide (sigil = x2a) then
                      parse_array_with (parse_one_d depth') rest len
                    else if decide (sigil = x24) then
                      Some (parse_bulk_string rest len)
                    else Some (Err UnknownSigil)
                end
          end
      end
  end.

Definition parse_one (bs : bytes) : parsed Frame :=
  default (Err Incomplete) (parse_one_d (S (length bs)) bs).

Definition parse_array (bs : bytes) (len : N) : parsed Frame :=
  default (Err Incomplete) (parse_array_with (parse_one_d (S (length bs))) bs len).

(** ** Encoding *)

Section write_to.
Context {W : Type} `{Write W}.

Fixpoint write_to (f : Frame) : M W IoError unit :=
  match f with
  | Array frames =>
      write_all (bstr "*");;
      write_all (display_N (N.of_nat (length frames)));;
      write_all crlf;;
      (fix go (fs : list Frame) : M W IoError unit :=
         match fs with
         | [] => mret ()
         | f :: fs => write_to f;; go fs
         end) frames
  | BulkString str =>
      write_all (bstr "$");;
      write_all (display_N (N.of_nat (length str)));;
      write_all crlf;;
      write_all str;;
      write_all crlf
  end.
End write_to.

(** [impl From<WriteCommand> for Frame]. *)
Definition Frame_from_WriteCommand (wc : WriteCommand) : Frame :=
  match wc with
  | WSet key value expires_at =>
      Array ([BulkString (bstr "SET"); BulkString key; BulkString value] ++
             match expires_at with
             | Some t => [BulkString (bstr "PXAT"); BulkString (display_N (millis t))]
             | None => []
             end)
  | WDelete key => Array [BulkString (bstr "DEL"); BulkString key]
  | WExpireAt key expires_at =>
      Array [BulkString (bstr "PEXPIREAT"); BulkString key;
             BulkString (display_N (millis expires_at))]
  | WPersist key => Array [BulkString (bstr "PERSIST"); BulkString key]
  end.

(** ** The parser without bounds

    The result of more bytes, and lemmas that the bounds of [parse_one_d] and
    [array_loop] do not matter once they are large enough. *)

Definition extend {A} (more : bytes) (r : parsed A) : parsed A :=
  match r with Ok (a, rest) => Ok (a, rest ++ more) | Err e => Err e end.

Lemma array_loop_step p fuel len buf vec :
  0 < len ->
  array_loop p (S fuel) len buf vec =
  match p buf with
  | None => None
  | Some (Err e) => Some (Err e)
  | Some (Ok (value, buf')) => array_loop p fuel (len - 1) buf' (vec ++ [value])
  end.
Proof. intros Hl. destruct len; [lia|done]. Qed.

Lemma array_loop_zero p fuel buf vec : array_loop p fuel 0 buf vec = Some (Ok (vec, buf)).
Proof. by destruct fuel. Qed.

Lemma array_loop_stuck p len buf vec : 0 < len -> array_loop p 0 len buf vec = None.
Proof. intros Hl. destruct len; [lia|done]. Qed.

(** A verdict survives more fuel, a parser that answers more, and more bytes. *)
Lemma array_loop_mono (p q : bytes -> option (parsed Frame)) more fuel fuel' len buf vec r :
  (forall b r, p b = Some r -> (more <> [] -> r <> Err Incomplete) ->
     q (b ++ more) = Some (extend more r)) ->
  (fuel <= fuel')%nat ->
  array_loop p fuel len buf vec = Some r -> (more <> [] -> r <> Err Incomplete) ->
  array_loop q fuel' len (buf ++ more) vec = Some (extend more r).
Proof.
  intros Hpq. revert fuel' len buf vec r. induction fuel as [|fuel IH];
    intros fuel' len buf vec r Hle Hr Hne; destruct (decide (len = 0)) as [->|Hl].
  1,3: rewrite array_loop_zero in Hr |- *; intros; by simplify_eq/=.
  - by rewrite array_loop_stuck in Hr by lia.
  - destruct fuel' as [|fuel']; [lia|]. rewrite array_loop_step in Hr |- * by lia.
    destruct (p buf) as [[[v buf']|e]|] eqn:Hp; [| |done].
    + rewrite (Hpq _ _ Hp) by done. simpl. apply IH; [lia|done|done].
    + injection Hr as <-. rewrite (Hpq _ _ Hp); [done|].
      intros Hm [= ->]. by apply Hne.
Qed.

Lemma parse_bulk_string_extend bs len more :
  parse_bulk_string bs len <> Err Incomplete ->
  parse_bulk_string (bs ++ more) len = extend more (parse_bulk_string bs len).
Proof.
  unfold parse_bulk_string.
  destruct (split_at_checked bs len) as [[payload rest]|] eqn:Hs; [|done].
  apply split_at_checked_Some in Hs as [-> Hl].
  rewrite (proj2 (split_at_checked_Some _ _ payload (rest ++ more)))
    by (by rewrite <- app_assoc).
  destruct rest as [|a [|b rest]]; [done..|]. intros _.
  rewrite !decide_False by (simpl; lia).
  destruct (strip_prefix crlf (a :: b :: rest)) as [r|] eqn:Hr.
  - apply strip_prefix_Some in Hr. injection Hr as -> -> ->.
    by rewrite (proj2 (strip_prefix_Some crlf _ (r ++ more))).
  - destruct (strip_prefix crlf ((a :: b :: rest) ++ more)) as [r|] eqn:Hr'; [|done].
    apply strip_prefix_Some in Hr'. injection Hr' as -> -> _.
    by rewrite (proj2 (strip_prefix_Some crlf _ rest)) in Hr.
Qed.

(** Depth and bytes: a verdict other than [Incomplete] stands whatever follows. *)
Lemma parse_one_d_extend d d' bs more r :
  (d <= d')%nat -> parse_one_d d bs = Some r -> (more <> [] -> r <> Err Incomplete) ->
  parse_one_d d' (bs ++ more) = Some (extend more r).
Proof.
  revert d' bs r. induction d as [|d IH]; intros d' bs r Hd; [done|].
  destruct d' as [|d']; [lia|]. simpl.
  destruct (split_crlf bs) as [[header rest]|] eqn:Hs.
  2:{ intros [= <-] Hne. destruct more; [by rewrite app_nil_r, Hs|]. by destruct Hne. }
  rewrite (split_crlf_extend _ _ _ more Hs).
  destruct header as [|sigil len_bytes]; [by intros [= <-]|].
  case_decide; [by intros [= <-]|].
  destruct (parse_len len_bytes) as [len|e]; [|by intros [= <-]].
  case_decide; [|case_decide].
  - unfold parse_array_with. intros Hr Hne.
    destruct (array_loop _ _ len rest []) as [r'|] eqn:Hl; [|done].
    assert (more <> [] -> r' <> Err Incomplete) as Hne'.
    { intros Hm ->. injection Hr as <-. by apply Hne. }
    eapply (array_loop_mono _ (parse_one_d d') more) in Hl as ->; [|..|done].
    + destruct r' as [[v b]|e]; by injection Hr as <-.
    + intros. by apply IH; [lia|..].
    + rewrite length_app. lia.
  - intros [= <-] Hne. f_equal. destruct more as [|b more].
    + rewrite app_nil_r. destruct (parse_bulk_string rest len) as [[f b]|]; [|done].
      simpl. by rewrite app_nil_r.
    + apply parse_bulk_string_extend. by apply Hne.
  - by intros [= <-].
Qed.

Lemma extend_nil {A} (r : parsed A) : extend [] r = r.
Proof. destruct r as [[a b]|]; simpl; by rewrite ?app_nil_r. Qed.

Lemma parse_one_d_mono d d' bs r :
  (d <= d')%nat -> parse_one_d d bs = Some r -> parse_one_d d' bs = Some r.
Proof.
  intros Hd Hr. rewrite <- (app_nil_r bs).
  rewrite (parse_one_d_extend _ _ _ [] _ Hd Hr) by done. by rewrite extend_nil.
Qed.

(** ** Progress and totality *)

(** [p] answers frames that take at least four bytes off its input. *)
Definition consumes (p : bytes -> option (parsed Frame)) : Prop :=
  forall bs f rest, p bs = Some (Ok (f, rest)) ->
    exists pre, bs = pre ++ rest /\ (4 <= length pre)%nat.

Lemma array_loop_consumes p fuel len buf vec v rest :
  consumes p -> array_loop p fuel len buf vec = Some (Ok (v, rest)) ->
  exists pre fs, buf = pre ++ rest /\ v = vec ++ fs /\ N.of_nat (length fs) = len.
Proof.
  intros Hp. revert len buf vec. induction fuel as [|fuel IH]; intros len buf vec Hr;
    destruct (decide (len = 0)) as [->|Hl].
  1,3: rewrite array_loop_zero in Hr; injection Hr as -> ->;
       exists [], []; by rewrite app_nil_r.
  - by rewrite array_loop_stuck in Hr by lia.
  - rewrite array_loop_step in Hr by lia.
    destruct (p buf) as [[[f buf']|e]|] eqn:Hf; [|done..].
    apply Hp in Hf as (pre & -> & _).
    apply IH in Hr as (pre' & fs & -> & -> & Hn).
    exists (pre ++ pre'), (f :: fs). rewrite <- !app_assoc. split_and!; [done..|].
    simpl. lia.
Qed.

Lemma split_crlf_header bs sigil len_bytes rest :
  split_crlf bs = Some (sigil :: len_bytes, rest) -> len_bytes <> [] ->
  exists pre, bs = pre ++ rest /\ (4 <= length pre)%nat.
Proof.
  intros ->%split_crlf_app Hne. exists ((sigil :: len_bytes) ++ crlf).
  rewrite <- app_assoc. split; [done|]. rewrite length_app. simpl.
  destruct len_bytes; [done|simpl; lia].
Qed.

Lemma parse_bulk_string_app bs len f rest :
  parse_bulk_string bs len = Ok (f, rest) ->
  exists payload, f = BulkString payload /\ bs = payload ++ crlf ++ rest /\
                  N.of_nat (length payload) = len.
Proof.
  unfold parse_bulk_string.
  destruct (split_at_checked bs len) as [[payload r]|] eqn:Hs; [|done].
  apply split_at_checked_Some in Hs as [-> Hl]. case_decide; [done|].
  destruct (strip_prefix crlf r) as [r'|] eqn:Hr; [|done]. intros [= <- <-].
  apply strip_prefix_Some in Hr as ->. eauto.
Qed.

Lemma parse_one_d_consumes d : consumes (parse_one_d d).
Proof.
  induction d as [|d IH]; intros bs f rest; [done|]. simpl.
  destruct (split_crlf bs) as [[[|sigil len_bytes] rest0]|] eqn:Hs; [done| |done].
  case_decide as Hne; [done|].
  destruct (split_crlf_header _ _ _ _ Hs Hne) as (pre & -> & Hpre).
  destruct (parse_len len_bytes) as [len|e]; [|done].
  case_decide; [|case_decide; [|done]].
  - unfold parse_array_with.
    destruct (array_loop _ _ len rest0 []) as [[[v b]|e]|] eqn:Hl; [|done..].
    intros [= <- <-]. apply array_loop_consumes in Hl as (pre' & fs & -> & _); [|done].
    exists (pre ++ pre'). rewrite <- app_assoc, length_app. split; [done|lia].
  - intros [= Hb]. apply parse_bulk_string_app in Hb as (payload & _ & -> & _).
    exists (pre ++ payload ++ crlf). rewrite <- !app_assoc, length_app. split; [done|lia].
Qed.

Lemma array_loop_total p fuel len buf vec :
  consumes p -> (length buf < fuel)%nat ->
  (forall b, (length b <= length buf)%nat -> p b <> None) ->
  array_loop p fuel len buf vec <> None.
Proof.
  intros Hp. revert len buf vec. induction fuel as [|fuel IH]; intros len buf vec Hf Ht;
    [lia|].
  destruct (decide (len = 0)) as [->|Hl]; [by rewrite array_loop_zero|].
  rewrite array_loop_step by lia. specialize (Ht buf) as Hb.
  destruct (p buf) as [[[f buf']|e]|] eqn:Hpb; [|done|by destruct Hb].
  apply Hp in Hpb as (pre & -> & Hpre). rewrite length_app in *.
  apply IH; [lia|]. intros b Hlb. apply Ht. lia.
Qed.

(** One activation per four bytes is enough. *)
Lemma parse_one_d_total d bs : (length bs < 4 * d)%nat -> parse_one_d d bs <> None.
Proof.
  revert bs. induction d as [|d IH]; intros bs Hd; [lia|]. simpl.
  destruct (split_crlf bs) as [[[|sigil len_bytes] rest0]|] eqn:Hs; [done| |done].
  case_decide as Hne; [done|].
  destruct (split_crlf_header _ _ _ _ Hs Hne) as (pre & -> & Hpre).
  rewrite length_app in Hd.
  destruct (parse_len len_bytes) as [len|e]; [|done].
  case_decide; [|by case_decide]. unfold parse_array_with.
  pose proof (array_loop_total (parse_one_d d) (S (length rest0)) len rest0 []
                (parse_one_d_consumes d)) as Ht.
  destruct (array_loop _ _ _ _ _) as [[[]|]|]; [done..|].
  destruct Ht; [lia| |done]. intros b Hb. apply IH. lia.
Qed.

Lemma parse_one_some d bs :
  (length bs < 4 * d)%nat -> parse_one_d d bs = Some (parse_one bs).
Proof.
  intros Hd. unfold parse_one.
  destruct (parse_one_d d bs) as [r|] eqn:Hr; [|by apply parse_one_d_total in Hr].
  destruct (parse_one_d (S (length bs)) bs) as [r'|] eqn:Hr'.
  - apply (parse_one_d_mono _ (max d (S (length bs)))) in Hr; [|lia].
    apply (parse_one_d_mono _ (max d (S (length bs)))) in Hr'; [|lia].
    simpl. congruence.
  - apply parse_one_d_total in Hr'; [done|lia].
Qed.

Lemma parse_one_of_d d bs r : parse_one_d d bs = Some r -> parse_one bs = r.
Proof.
  intros Hr. apply (parse_one_d_mono _ (d + S (length bs))) in Hr; [|lia].
  rewrite parse_one_some in Hr by lia. congruence.
Qed.

Lemma parse_one_nil : parse_one [] = Err Incomplete.
Proof. done. Qed.

(** A verdict other than [Incomplete] stands whatever bytes follow. *)
Lemma parse_one_extend bs more :
  parse_one bs <> Err Incomplete ->
  parse_one (bs ++ more) = extend more (parse_one bs).
Proof.
  intros Hne. set (d := S (length (bs ++ more))).
  apply (parse_one_of_d d). apply (parse_one_d_extend d); [done| |done].
  apply parse_one_some. unfold d. rewrite length_app. lia.
Qed.

(** ** The encoding as a function *)

Fixpoint encode (f : Frame) : bytes :=
  match f with
  | Array frames =>
      bstr "*" ++ display_N (N.of_nat (length frames)) ++ crlf ++
      concat (map encode frames)
  | BulkString str =>
      bstr "$" ++ display_N (N.of_nat (length str)) ++ crlf ++ str ++ crlf
  end.

(** A frame whose lengths are [usize]s, as those of every [Vec] are. *)
#[warnings="-register-all"]
Inductive Frame_wf : Frame -> Prop :=
| Array_wf fs : is_u64 (N.of_nat (length fs)) -> Forall Frame_wf fs -> Frame_wf (Array fs)
| BulkString_wf s : is_u64 (N.of_nat (length s)) -> Frame_wf (BulkString s).

Lemma Array_wf_inv fs :
  Frame_wf (Array fs) -> is_u64 (N.of_nat (length fs)) /\ Forall Frame_wf fs.
Proof. by inversion 1. Qed.

Lemma Vec_write_all_bind {A} (b w : bytes) (k : M bytes IoError A) :
  (write_all b;; k) w = k (w ++ b).
Proof. done. Qed.

(** On a writer that accepts everything, [write_to] appends [encode f]. *)
Lemma write_to_Vec (f : Frame) (w : bytes) : write_to f w = (Ok (), w ++ encode f).
Proof.
  revert w. induction f as [fs IH|s] using Frame_ind; intros w;
    cbn [write_to encode]; rewrite !Vec_write_all_bind, !app_assoc; [|done].
  generalize (((w ++ bstr "*") ++ display_N (N.of_nat (length fs))) ++ crlf). clear w.
  induction IH as [|f fs Hf _ IH]; intros w; simpl.
  - by rewrite app_nil_r.
  - unfold mbind, M_bind, m_bind. rewrite Hf, app_assoc. apply IH.
Qed.

(** ** Decoding what was encoded *)

Lemma not_elem_of_digits b ds : Forall is_digit ds -> is_digit b = false -> b ∉ ds.
Proof.
  intros Hds Hb Hin. rewrite Forall_forall in Hds. specialize (Hds b Hin).
  by rewrite Hb in Hds.
Qed.

Lemma split_crlf_header_encoded sigil n rest :
  sigil <> CR ->
  split_crlf ([sigil] ++ display_N n ++ crlf ++ rest) = Some (sigil :: display_N n, rest).
Proof.
  intros Hs. rewrite app_assoc. apply split_crlf_first. simpl.
  apply not_elem_of_cons. split; [done|].
  by eapply not_elem_of_digits; [apply display_N_digits|].
Qed.

Lemma parse_len_display n : is_u64 n -> parse_len (display_N n) = Ok n.
Proof.
  intros Hn. unfold parse_len. rewrite from_utf8_digits by apply display_N_digits.
  cbn [map_err mbind result_bind]. rewrite parse_display_N. by rewrite decide_True.
Qed.

Lemma parse_bulk_string_encoded payload rest :
  parse_bulk_string (payload ++ crlf ++ rest) (N.of_nat (length payload)) =
  Ok (BulkString payload, rest).
Proof.
  unfold parse_bulk_string.
  rewrite (proj2 (split_at_checked_Some _ _ payload (crlf ++ rest))) by done.
  rewrite decide_False by (rewrite length_app; simpl; lia).
  by rewrite (proj2 (strip_prefix_Some crlf _ rest)).
Qed.

(** [d] activations decode [f], whatever follows it. *)
Definition decodes (d : nat) (f : Frame) : Prop :=
  forall rest, parse_one_d d (encode f ++ rest) = Some (Ok (f, rest)).

Lemma array_loop_encoded d fs rest fuel vec :
  Forall (decodes d) fs -> (length fs <= fuel)%nat ->
  array_loop (parse_one_d d) fuel (N.of_nat (length fs))
    (concat (map encode fs) ++ rest) vec = Some (Ok (vec ++ fs, rest)).
Proof.
  intros Hfs. revert fuel vec. induction Hfs as [|f fs Hf Hfs IH];
    intros fuel vec Hle; cbn [length] in *.
  - by rewrite array_loop_zero, app_nil_r.
  - destruct fuel as [|fuel]; [lia|]. rewrite array_loop_step by lia.
    cbn [map concat]. rewrite <- app_assoc, Hf.
    replace (N.of_nat (S (length fs)) - 1) with (N.of_nat (length fs)) by lia.
    rewrite IH by lia. by rewrite <- app_assoc.
Qed.

Lemma length_encode_concat fs : (length fs <= length (concat (map encode fs)))%nat.
Proof.
  induction fs as [|f fs IH]; [done|]. cbn [map concat length].
  rewrite length_app. destruct f; simpl; lia.
Qed.

Lemma decodes_mono d d' f : (d <= d')%nat -> decodes d f -> decodes d' f.
Proof. intros Hd Hf rest. by eapply parse_one_d_mono, Hf. Qed.

Lemma encode_decodes f : Frame_wf f -> exists d, decodes d f.
Proof.
  induction f as [fs IH|s] using Frame_ind; intros Hwf.
  - apply Array_wf_inv in Hwf as [Hlen Hwf].
    assert (exists d, Forall (decodes d) fs) as [d Hd].
    { clear Hlen. induction IH as [|f fs Hf _ IH]; [by exists O|].
      inversion_clear Hwf as [|? ? Hwf1 Hwf2].
      destruct (Hf Hwf1) as [d1 H1], (IH Hwf2) as [d2 H2].
      exists (max d1 d2). constructor.
      - by eapply decodes_mono, H1; lia.
      - eapply Forall_impl; [exact H2|]. intros g. apply decodes_mono. lia. }
    exists (S d). intros rest. cbn [encode parse_one_d]. rewrite <- !app_assoc.
    change (bstr "*") with [x2a].
    rewrite split_crlf_header_encoded by done.
    rewrite decide_False by apply display_N_nonempty.
    rewrite parse_len_display, decide_True by done.
    unfold parse_array_with. rewrite array_loop_encoded; [done|done|].
    rewrite length_app. pose proof (length_encode_concat fs). lia.
  - inversion_clear Hwf as [|? Hlen]. exists 1%nat. intros rest.
    cbn [encode parse_one_d]. rewrite <- !app_assoc. change (bstr "$") with [x24].
    rewrite split_crlf_header_encoded by done.
    rewrite decide_False by apply display_N_nonempty.
    rewrite parse_len_display by done.
    rewrite decide_False, decide_True by done. by rewrite parse_bulk_string_encoded.
Qed.

Lemma parse_one_encode f rest : Frame_wf f -> parse_one (encode f ++ rest) = Ok (f, rest).
Proof. intros [d Hd]%encode_decodes. by eapply parse_one_of_d. Qed.

Lemma parse_one_encode_prefix f p q :
  Frame_wf f -> encode f = p ++ q -> q <> [] -> parse_one p = Err Incomplete.
Proof.
  intros Hwf Heq Hq.
  assert (Hc : parse_one p <> Err Incomplete -> False).
  { intros Hne. apply (parse_one_extend p q) in Hne. rewrite <- Heq in Hne.
    pose proof (parse_one_encode f [] Hwf) as Hp. rewrite app_nil_r, Hne in Hp.
    destruct (parse_one p) as [[g r]|e]; [|done].
    injection Hp as _ Hr. by destruct r, q. }
  destruct (parse_one p) as [r|e]; [by destruct Hc|].
  destruct (decide (e = Incomplete)) as [->|Hne]; [done|].
  destruct Hc. congruence.
Qed.

(** ** The equations of the source *)

Definition some_parse_one (bs : bytes) : option (parsed Frame) := Some (parse_one bs).

Lemma some_parse_one_consumes : consumes some_parse_one.
Proof.
  intros bs f rest Hr. apply (parse_one_d_consumes (S (length bs)) bs f rest).
  rewrite parse_one_some; [done|lia].
Qed.

Lemma array_loop_depth d fuel len buf vec :
  (length buf < 4 * d)%nat ->
  array_loop (parse_one_d d) fuel len buf vec = array_loop some_parse_one fuel len buf vec.
Proof.
  revert len buf vec. induction fuel as [|fuel IH]; intros len buf vec Hd; [done|].
  destruct (decide (len = 0)) as [->|Hl]; [done|].
  rewrite !array_loop_step by lia. rewrite parse_one_some by done. unfold some_parse_one at 1.
  destruct (parse_one buf) as [[v buf']|e] eqn:Hp; [|done].
  destruct (some_parse_one_consumes buf v buf') as (pre & -> & _);
    [by unfold some_parse_one; rewrite Hp|].
  apply IH. rewrite length_app in Hd. lia.
Qed.

Lemma array_loop_fuel fuel fuel' len buf vec :
  (length buf < fuel)%nat -> (length buf < fuel')%nat ->
  array_loop some_parse_one fuel len buf vec = array_loop some_parse_one fuel' len buf vec.
Proof.
  revert fuel' len buf vec. induction fuel as [|fuel IH]; intros fuel' len buf vec Hf Hf';
    [lia|]. destruct fuel' as [|fuel']; [lia|].
  destruct (decide (len = 0)) as [->|Hl]; [done|]. rewrite !array_loop_step by lia.
  destruct (some_parse_one buf) as [[[v buf']|e]|] eqn:Hp; [|done..].
  apply some_parse_one_consumes in Hp as (pre & -> & Hpre).
  rewrite length_app in *. apply IH; lia.
Qed.

Definition push_all (vec : list Frame) (r : parsed (list Frame)) : parsed (list Frame) :=
  match r with Ok (vs, rest) => Ok (vec ++ vs, rest) | Err e => Err e end.

Lemma array_loop_acc p fuel len buf vec :
  array_loop p fuel len buf vec = push_all vec <$> array_loop p fuel len buf [].
Proof.
  revert len buf vec. induction fuel as [|fuel IH]; intros len buf vec;
    (destruct (decide (len = 0)) as [->|Hl];
     [by rewrite !array_loop_zero; cbn; rewrite app_nil_r|]).
  - by rewrite !array_loop_stuck by lia.
  - rewrite !array_loop_step by lia. destruct (p buf) as [[[v buf']|e]|]; [|done..].
    rewrite IH, (IH _ _ ([] ++ [v])).
    destruct (array_loop p fuel (len - 1) buf' []) as [[[vs b]|e]|]; [|done..].
    cbn. by rewrite <- app_assoc.
Qed.

(** [parse_array] through [parse_one] alone, with any fuel that exceeds the
    input. *)
Lemma parse_array_loop bs len fuel :
  (length bs < fuel)%nat ->
  array_loop some_parse_one fuel len bs [] =
  Some (match parse_array bs len with
        | Ok (Array vs, b) => Ok (vs, b)
        | Ok (BulkString _, _) => Err Malformed
        | Err e => Err e
        end).
Proof.
  intros Hf. unfold parse_array, parse_array_with.
  rewrite array_loop_depth by lia. rewrite (array_loop_fuel (S (length bs)) fuel) by lia.
  destruct (array_loop some_parse_one fuel len bs []) as [[[vs b]|e]|] eqn:Hl; [done..|].
  apply array_loop_total in Hl; [done|apply some_parse_one_consumes|done|done].
Qed.

Lemma parse_array_zero bs : parse_array bs 0 = Ok (Array [], bs).
Proof. done. Qed.

Lemma parse_array_is_array bs len f b : parse_array bs len = Ok (f, b) -> exists vs, f = Array vs.
Proof.
  unfold parse_array, parse_array_with.
  destruct (array_loop _ _ _ _ _) as [[[vs b']|e]|]; [|done..]. intros [= <- <-]. eauto.
Qed.

Definition push_front (v : Frame) (r : parsed Frame) : parsed Frame :=
  match r with
  | Ok (Array vs, rest) => Ok (Array (v :: vs), rest)
  | r => r
  end.

Lemma parse_array_cons bs len :
  0 < len ->
  parse_array bs len =
  match parse_one bs with
  | Ok (v, rest) => push_front v (parse_array rest (len - 1))
  | Err e => Err e
  end.
Proof.
  intros Hl. pose proof (parse_array_loop bs len (S (length bs)) ltac:(lia)) as Ha.
  rewrite array_loop_step in Ha by done. unfold some_parse_one at 1 in Ha.
  destruct (parse_one bs) as [[v rest]|e] eqn:Hp.
  - destruct (some_parse_one_consumes bs v rest) as (pre & -> & Hpre);
      [by unfold some_parse_one; rewrite Hp|].
    rewrite array_loop_acc, (parse_array_loop rest (len - 1)) in Ha
      by (rewrite length_app; lia).
    destruct (parse_array (pre ++ rest) len) as [[f b]|e] eqn:Hr;
      [destruct (parse_array_is_array _ _ _ _ Hr) as [vs ->]|];
      (destruct (parse_array rest (len - 1)) as [[f' b']|e'] eqn:Hr';
       [destruct (parse_array_is_array _ _ _ _ Hr') as [vs' ->]|]); cbn in *; congruence.
  - destruct (parse_array bs len) as [[f b]|e'] eqn:Hr; [|cbn in Ha; congruence].
    destruct (parse_array_is_array _ _ _ _ Hr) as [vs ->]. done.
Qed.

(** ** Properties *)

(** Header lines [*1\r\n], [n] of them: arrays nested [n] deep. *)
Definition nest (n : nat) : bytes := concat (replicate n (bstr "*1" ++ crlf)).

Lemma parse_one_d_nest d n :
  parse_one_d (S d) (nest (S n)) =
  match parse_one_d d (nest n) with
  | Some (Ok (f, rest)) => Some (Ok (Array [f], rest))
  | r => r
  end.
Proof.
  change (nest (S n)) with ([x2a] ++ display_N 1 ++ crlf ++ nest n).
  cbn [parse_one_d]. rewrite split_crlf_header_encoded by done.
  rewrite decide_False by apply display_N_nonempty.
  rewrite parse_len_display, decide_True by done. unfold parse_array_with.
  rewrite array_loop_step by done.
  destruct (parse_one_d d (nest n)) as [[[f rest]|e]|]; [|done..].
  change (1 - 1) with 0. by rewrite array_loop_zero.
Qed.

(** C8: encoding then decoding.  [write_to] on a [Vec<u8>] always succeeds, and
    [parse_one] on the bytes it appended, whatever bytes follow them, returns
    the same frame and leaves exactly the bytes that follow.  Payloads are
    arbitrary: they may hold [\r\n] and need not be UTF-8. *)
Theorem frame_roundtrip (f : Frame) (w : bytes) :
  Frame_wf f ->
  exists enc, write_to f w = (Ok (), w ++ enc) /\
              forall rest, parse_one (enc ++ rest) = Ok (f, rest).
Proof.
  intros Hwf. exists (encode f). split; [apply write_to_Vec|].
  intros rest. by apply parse_one_encode.
Qed.

Lemma frame_roundtrip_witness :
  let f := Array [BulkString (bstr "GET"); BulkString (CR :: LF :: [xff])] in
  exists enc, write_to f (bstr "log") = (Ok (), bstr "log" ++ enc) /\
              forall rest, parse_one (enc ++ rest) = Ok (f, rest).
Proof.
  apply frame_roundtrip.
  repeat first [apply Array_wf | apply BulkString_wf | apply List.Forall_cons
               | apply List.Forall_nil | vm_compute; congruence].
Defined.

(** C21: a torn frame is never mistaken for anything else.  Every strict prefix
    of an encoded frame parses as [Incomplete], the verdict on which the session
    reads more bytes and replay stops. *)
Theorem torn_frame_incomplete (f : Frame) (p q : bytes) :
  Frame_wf f -> snd (write_to f []) = p ++ q -> q <> [] -> parse_one p = Err Incomplete.
Proof.
  rewrite write_to_Vec. intros Hwf Heq. by apply (parse_one_encode_prefix f).
Qed.

Lemma torn_frame_incomplete_witness :
  parse_one (bstr "*1" ++ crlf ++ bstr "$4" ++ crlf ++ bstr "PI") = Err Incomplete.
Proof.
  apply (torn_frame_incomplete (Array [BulkString (bstr "PING")]) _ (bstr "NG" ++ crlf)).
  - repeat first [apply Array_wf | apply BulkString_wf | apply List.Forall_cons
                 | apply List.Forall_nil | vm_compute; congruence].
  - vm_compute. reflexivity.
  - discriminate.
Defined.

(** C22: more bytes never change a verdict.  Unless it is [Incomplete], what
    [parse_one] answers on some bytes is what it answers when more bytes arrive
    behind them: the same error, or the same frame with the new bytes added to
    the leftover. *)
Theorem verdict_stable (bs more : bytes) :
  parse_one bs <> Err Incomplete ->
  parse_one (bs ++ more) =
  match parse_one bs with
  | Ok (f, rest) => Ok (f, rest ++ more)
  | Err e => Err e
  end.
Proof. apply parse_one_extend. Qed.

Lemma verdict_stable_witness :
  parse_one (bstr "?2" ++ crlf) = Err UnknownSigil /\
  parse_one ((bstr "?2" ++ crlf) ++ bstr "PING") = Err UnknownSigil.
Proof.
  split; [vm_compute; reflexivity|].
  rewrite (verdict_stable (bstr "?2" ++ crlf) (bstr "PING"));
    [vm_compute; reflexivity|vm_compute; discriminate].
Defined.

(** C23: the parser terminates and makes progress.  One nested activation of
    [parse_one] per four input bytes is enough for an answer, the answer does not
    depend on how many more are allowed, and a frame is always at least four
    bytes, all taken off the front of the input. *)
Theorem parse_one_terminates (bs : bytes) (d : nat) :
  (length bs < 4 * d)%nat ->
  parse_one_d d bs = Some (parse_one bs) /\
  forall f rest, parse_one bs = Ok (f, rest) ->
    exists pre, bs = pre ++ rest /\ (4 <= length pre)%nat.
Proof.
  intros Hd. split; [by apply parse_one_some|]. intros f rest Hp.
  apply (some_parse_one_consumes bs f rest). unfold some_parse_one. by rewrite Hp.
Qed.

Lemma parse_one_terminates_witness :
  (length (bstr "$0" ++ crlf ++ crlf) < 4 * 2)%nat /\
  parse_one_d 2 (bstr "$0" ++ crlf ++ crlf) = Some (parse_one (bstr "$0" ++ crlf ++ crlf)).
Proof.
  split; [vm_compute; lia|].
  apply (parse_one_terminates (bstr "$0" ++ crlf ++ crlf) 2). vm_compute. lia.
Defined.

(** [parse_one] and [parse_array] satisfy the equations of the source, with
    no bound on recursion: the header line is split off and checked in the order
    the code checks it (emptiness, UTF-8, [usize], then the sigil), and an array
    is the elements [parse_one] returns one after the other, or the first error. *)
Theorem parse_one_equations (bs : bytes) :
  parse_one bs =
  match split_crlf bs with
  | None => Err Incomplete
  | Some ([], _) | Some ([_], _) => Err Malformed
  | Some (sigil :: len_bytes, rest) =>
      match parse_len len_bytes with
      | Err e => Err e
      | Ok len =>
          if decide (sigil = x2a) then parse_array rest len
          else if decide (sigil = x24) then parse_bulk_string rest len
          else Err UnknownSigil
      end
  end /\
  parse_array bs 0 = Ok (Array [], bs) /\
  forall n, parse_array bs (N.succ n) =
    match parse_one bs with
    | Ok (v, rest) => push_front v (parse_array rest n)
    | Err e => Err e
    end.
Proof.
  split_and!; [|done|].
  2:{ intros n. rewrite parse_array_cons by lia. by replace (N.succ n - 1) with n by lia. }
  unfold parse_one. cbn [parse_one_d].
  destruct (split_crlf bs) as [[[|sigil [|b len_bytes]] rest]|] eqn:Hs; [done..| |done].
  rewrite decide_False by done.
  destruct (split_crlf_header _ _ _ _ Hs ltac:(done)) as (pre & -> & Hpre).
  destruct (parse_len (b :: len_bytes)) as [len|e]; [|done].
  case_decide; [|by case_decide]. unfold parse_array, parse_array_with.
  rewrite !array_loop_depth by (rewrite ?length_app; lia). done.
Qed.

(** C38: the stack the parser needs is the input's nesting.  [parse_array] loops
    over an array's elements, but an element that is itself an array is parsed by
    a nested activation of [parse_one]: a [4n]-byte input of nested array headers
    needs [n + 1] activations, however the input ends. *)
Theorem nested_arrays_recurse (n : nat) :
  length (nest n) = (4 * n)%nat /\
  (forall d, (d <= n)%nat -> parse_one_d d (nest n) = None) /\
  parse_one_d (S n) (nest n) = Some (Err Incomplete).
Proof.
  induction n as [|n (Hlen & Hnone & Hsome)].
  - split_and!; [done| |done]. intros d Hd. by replace d with O by lia.
  - split_and!.
    + change (nest (S n)) with ((bstr "*1" ++ crlf) ++ nest n).
      rewrite length_app, Hlen. simpl. lia.
    + intros [|d] Hd; [done|]. rewrite parse_one_d_nest, Hnone; [done|lia].
    + by rewrite parse_one_d_nest, Hsome.
Qed.
