(* ===== verification/CommandFrame.v ===== *)
(** * CommandFrame: [resp/command.rs]

    Lifting a parsed frame into a command: [impl TryFrom<Frame> for Command].
    The relative TTL forms read the clock here, so [try_from] runs on the clock;
    an iterator over the frame's elements is the list of those not yet taken. *)

From S2P Require Import Prelude Effects RustStd Time Command Frame.

Local Open Scope N_scope.

(** ** Errors *)

Inductive CommandFromFrameError : Type :=
| CFF_Command (e : CommandError)
| UnexpectedFrame
| CFF_SystemTime (e : SystemTimeError).

#[export] Instance CommandFromFrameError_eq_dec : EqDecision CommandFromFrameError.
Proof. solve_decision. Defined.

Definition display_CommandFromFrameError (e : CommandFromFrameError) : bytes :=
  match e with
  | CFF_Command e => display_CommandError e
  | UnexpectedFrame =>
      bstr "unexpected value; command is made of an array of bulk strings"
  | CFF_SystemTime e => display_SystemTimeError e
  end.

(** ** Taking arguments *)

Abbreviation cff A := (result CommandFromFrameError A).

(** The macro [next_bulk!]: the next frame, which must be a bulk string. *)
Definition next_bulk (iter : list Frame) : cff (bytes * list Frame) :=
  match iter with
  | [] => Err (CFF_Command NotEnoughParts)
  | Array _ :: _ => Err UnexpectedFrame
  | BulkString b :: iter' => Ok (b, iter')
  end.

(** [if iter.next().is_some() { return Err(TooManyParts) }]. *)
Definition no_more (iter : list Frame) : cff unit :=
  match iter with [] => Ok () | _ :: _ => Err (CFF_Command TooManyParts) end.

Definition parse_u64 (b : bytes) : cff N :=
  s ← map_err (fun e => CFF_Command (CE_Utf8 e)) (from_utf8 b);
  map_err (fun e => CFF_Command (CE_ParseInt e)) (parse_u64_str s).

(** The loop of the [subscribe] and [unsubscribe] arms. *)
Fixpoint bulk_strings (iter : list Frame) : cff (list bytes) :=
  match iter with
  | [] => Ok []
  | Array _ :: _ => Err UnexpectedFrame
  | BulkString channel :: iter' => channels ← bulk_strings iter'; Ok (channel :: channels)
  end.

(** [Milliseconds::now()?]. *)
Definition now_cff : M Clock CommandFromFrameError Milliseconds :=
  m_map_err CFF_SystemTime now.

(** ** The arms of [try_from] *)

(** [get], [del], [exists], [ttl] and [persist] take one key. *)
Definition arm_key (mk : bytes -> Command) (iter : list Frame) : cff Command :=
  '(key, iter) ← next_bulk iter;
  no_more iter;;
  Ok (mk key).

(** The deadline a [SET] option and its amount stand for. *)
Definition set_deadline (option : bytes) (amount : N)
  : M Clock CommandFromFrameError Milliseconds :=
  if decide (option = bstr "ex") then
    t ← now_cff;
    mret (saturating_add t (Milliseconds_from_Seconds (mkSeconds amount)))
  else if decide (option = bstr "px") then
    t ← now_cff;
    mret (saturating_add t (mkMilliseconds amount))
  else if decide (option = bstr "exat") then
    mret (Milliseconds_from_Seconds (mkSeconds amount))
  else mret (mkMilliseconds amount).

(** The [set] arm from the option's keyword, lowered, on. *)
Definition arm_set_option (key value option : bytes) (iter : list Frame)
  : M Clock CommandFromFrameError Command :=
  if decide (option = bstr "ex" \/ option = bstr "px" \/
             option = bstr "exat" \/ option = bstr "pxat") then
    '(arg, iter) ← m_lift (next_bulk iter);
    amount ← m_lift (parse_u64 arg);
    expires_at ← set_deadline option amount;
    m_lift (no_more iter);;
    mret (cmd_set key value (Some expires_at))
  else m_lift (Err (CFF_Command Syntax)).

Definition arm_set (iter : list Frame) : M Clock CommandFromFrameError Command :=
  '(key, iter) ← m_lift (next_bulk iter);
  '(value, iter) ← m_lift (next_bulk iter);
  match iter with
  | [] => mret (cmd_set key value None)
  | Array _ :: _ => m_lift (Err UnexpectedFrame)
  | BulkString option :: iter =>
      arm_set_option key value (to_ascii_lowercase option) iter
  end.

Definition arm_ping (iter : list Frame) : cff Command :=
  match iter with
  | [] => Ok (cmd_ping None)
  | Array _ :: _ => Err UnexpectedFrame
  | BulkString message :: iter => no_more iter;; Ok (cmd_ping (Some message))
  end.

Definition arm_expire (iter : list Frame) : M Clock CommandFromFrameError Command :=
  '(key, iter) ← m_lift (next_bulk iter);
  '(arg, iter) ← m_lift (next_bulk iter);
  amount ← m_lift (parse_u64 arg);
  m_lift (no_more iter);;
  t ← now_cff;
  mret (cmd_expire_at key
          (saturating_add t (Milliseconds_from_Seconds (mkSeconds amount)))).

Definition arm_expireat (iter : list Frame) : cff Command :=
  '(key, iter) ← next_bulk iter;
  '(arg, iter) ← next_bulk iter;
  amount ← parse_u64 arg;
  no_more iter;;
  Ok (cmd_expire_at key (Milliseconds_from_Seconds (mkSeconds amount))).

Definition arm_pexpireat (iter : list Frame) : cff Command :=
  '(key, iter) ← next_bulk iter;
  '(arg, iter) ← next_bulk iter;
  amount ← parse_u64 arg;
  no_more iter;;
  Ok (cmd_expire_at key (mkMilliseconds amount)).

Definition arm_subscribe (iter : list Frame) : cff Command :=
  channel_ids ← bulk_strings iter;
  if decide (channel_ids = []) then Err (CFF_Command NotEnoughParts)
  else Ok (cmd_subscribe channel_ids).

Definition arm_unsubscribe (iter : list Frame) : cff Command :=
  channel_ids ← bulk_strings iter;
  Ok (cmd_unsubscribe channel_ids).

Definition arm_publish (iter : list Frame) : cff Command :=
  match iter with
  | channel :: message :: iter =>
      match channel, message with
      | BulkString channel, BulkString message =>
          no_more iter;; Ok (cmd_publish channel message)
      | _, _ => Err UnexpectedFrame
      end
  | _ => Err (CFF_Command NotEnoughParts)
  end.

Definition try_from (value : Frame) : M Clock CommandFromFrameError Command :=
  match value with
  | BulkString _ => m_lift (Err UnexpectedFrame)
  | Array [] => m_lift (Err (CFF_Command NotEnoughParts))
  | Array (Array _ :: _) => m_lift (Err UnexpectedFrame)
  | Array (BulkString command :: iter) =>
      let command := to_ascii_lowercase command in
      if decide (command = bstr "get") then m_lift (arm_key cmd_get iter)
      else if decide (command = bstr "set") then arm_set iter
      else if decide (command = bstr "del") then m_lift (arm_key cmd_delete iter)
      else if decide (command = bstr "ping") then m_lift (arm_ping iter)
      else if decide (command = bstr "exists") then m_lift (arm_key cmd_exists iter)
      else if decide (command = bstr "expire") then arm_expire iter
      else if decide (command = bstr "expireat") then m_lift (arm_expireat iter)
      else if decide (command = bstr "pexpireat") then m_lift (arm_pexpireat iter)
      else if decide (command = bstr "ttl") then m_lift (arm_key cmd_ttl iter)
      else if decide (command = bstr "persist") then m_lift (arm_key cmd_persist iter)
      else if decide (command = bstr "subscribe") then m_lift (arm_subscribe iter)
      else if decide (command = bstr "unsubscribe") then m_lift (arm_unsubscribe iter)
      else if decide (command = bstr "publish") then m_lift (arm_publish iter)
      else m_lift (Err (CFF_Command UnrecognizedCommand))
  end.

(** ** Facts *)

(** Parsing moves the clock on and does nothing else to it. *)
Definition keeps_readings {E A} (m : M Clock E A) : Prop :=
  forall c, readings (m c).2 = readings c.

Lemma keeps_readings_lift {E A} (r : result E A) : keeps_readings (m_lift r).
Proof. done. Qed.
Lemma keeps_readings_bind {E A B} (m : M Clock E A) (k : A -> M Clock E B) :
  keeps_readings m -> (forall a, keeps_readings (k a)) -> keeps_readings (m ≫= k).
Proof.
  intros Hm Hk c. specialize (Hm c). unfold mbind, M_bind, m_bind.
  destruct (m c) as [[a|e] c']; cbn in *; [|done]. by rewrite Hk.
Qed.

Lemma try_from_readings f : keeps_readings (try_from f).
Proof.
  assert (Hnow : keeps_readings now_cff) by done.
  unfold try_from, arm_set, arm_set_option, set_deadline, arm_expire.
  repeat first [apply Hnow | apply keeps_readings_lift | apply keeps_readings_bind; [|intros ?]
               | case_match | case_decide | done].
Qed.

(** What every parsed command satisfies: deadlines are [u64]s, and a [SUBSCRIBE]
    names at least one channel. *)
Definition Command_wf (c : Command) : Prop :=
  match c with
  | Cache (CacheWrite wc) => WriteCommand_wf wc
  | Channel (Subscribe channel_ids) => channel_ids <> []
  | _ => True
  end.

Lemma parse_u64_bound b n : parse_u64 b = Ok n -> is_u64 n.
Proof. unfold parse_u64. intros H. ok_inv. by eapply parse_u64_str_bound. Qed.

Lemma parse_u64_display n :
  parse_u64 (display_N n) =
  if decide (n <= u64_max) then Ok n else Err (CFF_Command (CE_ParseInt PosOverflow)).
Proof.
  unfold parse_u64. rewrite from_utf8_digits by apply display_N_digits.
  cbn [map_err mbind result_bind]. rewrite parse_display_N. by case_decide.
Qed.

Lemma arm_set_wf iter c cmd c' : arm_set iter c = (Ok cmd, c') -> Command_wf cmd.
Proof.
  unfold arm_set, arm_set_option, set_deadline. intros H. ok_inv.
  repeat case_match; ok_inv; try done.
  all: first [apply saturating_add_wf | apply Milliseconds_from_Seconds_wf
             | by eapply parse_u64_bound].
Qed.

Lemma arm_key_Ok mk iter cmd :
  arm_key mk iter = Ok cmd <-> exists key, iter = [BulkString key] /\ cmd = mk key.
Proof.
  unfold arm_key. destruct iter as [|[fs|key] [|f iter]]; cbn; split; try done.
  all: try (by intros (? & ? & ?)).
  - intros [= <-]. eauto.
  - by intros (? & [= <-] & ->).
Qed.

Lemma try_from_wf f c cmd c' : try_from f c = (Ok cmd, c') -> Command_wf cmd.
Proof.
  unfold try_from. destruct f as [[|[|command] iter]|]; intros H; ok_inv.
  cbv zeta in H.
  repeat (case_decide; [first [by eapply arm_set_wf | ok_inv]|]).
  all: try match goal with
    | H : arm_key _ _ = Ok _ |- _ => apply arm_key_Ok in H as (? & -> & ->); exact I
    end.
  all: unfold arm_ping, arm_expire, arm_expireat, arm_pexpireat, arm_subscribe,
    arm_unsubscribe, arm_publish in *; repeat (repeat case_match; ok_inv); try done.
  all: first [apply saturating_add_wf | apply Milliseconds_from_Seconds_wf
             | by eapply parse_u64_bound].
Qed.

(** Evaluates the tests on a verb or an option that is known. *)
Ltac eval_verb :=
  repeat first
    [ rewrite decide_True by (vm_compute; reflexivity)
    | rewrite decide_False by (vm_compute; congruence) ].

Lemma arm_set_eq key value option iter c :
  arm_set (BulkString key :: BulkString value :: BulkString option :: iter) c =
  arm_set_option key value (to_ascii_lowercase option) iter c.
Proof. done. Qed.

Lemma try_from_logged (wc : WriteCommand) (c : Clock) :
  WriteCommand_wf wc ->
  try_from (Frame_from_WriteCommand wc) c = (Ok (Cache (CacheWrite wc)), c).
Proof.
  intros Hwf. destruct wc as [key value [t|]|key|key t|key];
    unfold try_from; cbn [Frame_from_WriteCommand app]; cbv zeta; eval_verb;
    try reflexivity.
  - rewrite arm_set_eq. unfold arm_set_option, set_deadline, mbind, M_bind, m_bind, m_lift.
    rewrite decide_True by (vm_compute; tauto). cbn [next_bulk].
    rewrite parse_u64_display, decide_True by done. eval_verb. by destruct t.
  - unfold m_lift, arm_pexpireat. cbn [next_bulk mbind result_bind].
    rewrite parse_u64_display, decide_True by done. cbn. by destruct t.
Qed.

(** ** Properties *)

(** C15: what the log holds reads back as what was logged, at any time.  Whatever
    frame the parser accepted as a write command [wc], at whatever clock, the
    frame [wc] is logged as parses to exactly [wc] again, without reading the
    clock: no deadline is moved or converted a second time. *)
Theorem logged_command_roundtrip (f : Frame) (wc : WriteCommand) (c c' : Clock) :
  try_from f c = (Ok (Cache (CacheWrite wc)), c') ->
  forall later, try_from (Frame_from_WriteCommand wc) later = (Ok (Cache (CacheWrite wc)), later).
Proof. intros H%try_from_wf later. by apply try_from_logged. Qed.

Lemma logged_command_roundtrip_witness :
  let wc := WSet (bstr "k") (bstr "v") (Some (mkMilliseconds 1700000060000)) in
  let f := Array [BulkString (bstr "set"); BulkString (bstr "k"); BulkString (bstr "v");
                  BulkString (bstr "EX"); BulkString (bstr "60")] in
  let c := clock_at 1700000000000 in
  try_from f c = (Ok (Cache (CacheWrite wc)), mkClock (readings c) 1) /\
  try_from (Frame_from_WriteCommand wc) (clock_at 0) = (Ok (Cache (CacheWrite wc)), clock_at 0).
Proof.
  split; [reflexivity|].
  apply (logged_command_roundtrip
           (Array [BulkString (bstr "set"); BulkString (bstr "k"); BulkString (bstr "v");
                   BulkString (bstr "EX"); BulkString (bstr "60")])
           _ (clock_at 1700000000000) (mkClock (readings (clock_at 1700000000000)) 1)).
  reflexivity.
Defined.

(** C28: every form of deadline lands on one absolute millisecond deadline.  With
    [t] the clock's next reading: [EX] and [EXPIRE] give [t] plus the seconds in
    milliseconds, [PX] gives [t] plus the milliseconds, [EXAT], [EXPIREAT],
    [PXAT] and [PEXPIREAT] do not read the clock; sums and products are clamped
    to the largest [u64]. *)
Theorem deadlines_are_absolute (key value : bytes) (n : N) (c c' : Clock) (t : Milliseconds) :
  is_u64 n -> now c = (Ok t, c') ->
  let arg := BulkString (display_N n) in
  let set opt := try_from (Array [BulkString (bstr "SET"); BulkString key; BulkString value;
                                  BulkString (bstr opt); arg]) c in
  let exp verb := try_from (Array [BulkString (bstr verb); BulkString key; arg]) c in
  let at_ms m := mkMilliseconds (N.min m u64_max) in
  let ms_of_secs := N.min (n * 1000) u64_max in
  set "EX" = (Ok (cmd_set key value (Some (at_ms (millis t + ms_of_secs)))), c') /\
  set "PX" = (Ok (cmd_set key value (Some (at_ms (millis t + n)))), c') /\
  set "EXAT" = (Ok (cmd_set key value (Some (at_ms (n * 1000)))), c) /\
  set "PXAT" = (Ok (cmd_set key value (Some (mkMilliseconds n))), c) /\
  exp "EXPIRE" = (Ok (cmd_expire_at key (at_ms (millis t + ms_of_secs))), c') /\
  exp "EXPIREAT" = (Ok (cmd_expire_at key (at_ms (n * 1000))), c) /\
  exp "PEXPIREAT" = (Ok (cmd_expire_at key (mkMilliseconds n)), c).
Proof.
  intros Hn Hnow. cbv zeta. unfold try_from. cbv zeta.
  split_and!; eval_verb; rewrite ?arm_set_eq;
    unfold arm_set_option, set_deadline, arm_expire, arm_expireat, arm_pexpireat, now_cff, m_map_err, mbind,
      M_bind, result_bind, m_bind, m_lift;
    cbn [next_bulk no_more]; cbv zeta;
    try (rewrite decide_True by (vm_compute; tauto));
    rewrite parse_u64_display, decide_True by done; eval_verb;
    rewrite ?Hnow; reflexivity.
Qed.

Lemma deadlines_are_absolute_witness :
  try_from (Array [BulkString (bstr "EXPIRE"); BulkString (bstr "k"); BulkString (bstr "60")])
    (clock_at 5000) =
  (Ok (cmd_expire_at (bstr "k") (mkMilliseconds 65000)), mkClock (readings (clock_at 5000)) 1).
Proof.
  apply (deadlines_are_absolute (bstr "k") (bstr "v") 60 (clock_at 5000)
           (mkClock (readings (clock_at 5000)) 1) (mkMilliseconds 5000)).
  - vm_compute. congruence.
  - vm_compute. reflexivity.
Defined.

(** C39: a count past [u64::MAX] is refused, never clamped.  [EXPIREAT],
    [PEXPIREAT] and [EXPIRE] with such an argument all fail to parse with
    [PosOverflow], and no command reaches the cache. *)
Theorem overflowing_deadline_refused (verb key : bytes) (n : N) (c : Clock) :
  u64_max < n ->
  verb ∈ [bstr "EXPIREAT"; bstr "PEXPIREAT"; bstr "EXPIRE"] ->
  try_from (Array [BulkString verb; BulkString key; BulkString (display_N n)]) c =
  (Err (CFF_Command (CE_ParseInt PosOverflow)), c).
Proof.
  intros Hn Hv. unfold try_from. cbv zeta.
  rewrite !elem_of_cons, elem_of_nil in Hv. destruct Hv as [->|[->|[->|[]]]]; eval_verb;
    unfold arm_expire, arm_expireat, arm_pexpireat, mbind, M_bind, result_bind, m_bind, m_lift;
    cbn [next_bulk]; rewrite parse_u64_display, decide_False by lia; reflexivity.
Qed.

Lemma overflowing_deadline_refused_witness :
  try_from (Array [BulkString (bstr "EXPIREAT"); BulkString (bstr "k");
                   BulkString (bstr "99999999999999999999")]) (clock_at 0) =
  (Err (CFF_Command (CE_ParseInt PosOverflow)), clock_at 0).
Proof.
  apply (overflowing_deadline_refused (bstr "EXPIREAT") (bstr "k") 99999999999999999999).
  - vm_compute. reflexivity.
  - apply elem_of_cons. left. reflexivity.
Defined.

(** Verbs and [SET] options are ASCII case-insensitive: two spellings that
    lower to the same bytes give the same result, errors and clock reads
    included. *)
Theorem spelling_case_insensitive (v1 v2 o1 o2 key value : bytes) (args : list Frame) (c : Clock) :
  to_ascii_lowercase v1 = to_ascii_lowercase v2 ->
  to_ascii_lowercase o1 = to_ascii_lowercase o2 ->
  try_from (Array (BulkString v1 :: args)) c = try_from (Array (BulkString v2 :: args)) c /\
  arm_set (BulkString key :: BulkString value :: BulkString o1 :: args) c =
  arm_set (BulkString key :: BulkString value :: BulkString o2 :: args) c.
Proof.
  intros Hv Ho. rewrite !arm_set_eq, Ho. split; [|done].
  unfold try_from. cbv zeta. by rewrite Hv.
Qed.

Lemma spelling_case_insensitive_witness :
  try_from (Array [BulkString (bstr "GeT"); BulkString (bstr "Key")]) (clock_at 0) =
  try_from (Array [BulkString (bstr "gEt"); BulkString (bstr "Key")]) (clock_at 0).
Proof.
  apply (spelling_case_insensitive (bstr "GeT") (bstr "gEt") [] [] [] []);
    vm_compute; reflexivity.
Defined.

(** The arguments of the commands that take one key, on every shape: none is
    [NotEnoughParts], an array where the key belongs is [UnexpectedFrame], one
    bulk string is the command on that key, byte for byte, and anything after it
    is [TooManyParts].  The clock is not read. *)
Theorem key_command_arguments (verb : bytes) (mk : bytes -> Command) (args : list Frame) (c : Clock) :
  (to_ascii_lowercase verb, mk) ∈
    [(bstr "get", cmd_get); (bstr "del", cmd_delete); (bstr "exists", cmd_exists);
     (bstr "ttl", cmd_ttl); (bstr "persist", cmd_persist)] ->
  try_from (Array (BulkString verb :: args)) c =
  (match args with
   | [] => Err (CFF_Command NotEnoughParts)
   | Array _ :: _ => Err UnexpectedFrame
   | [BulkString key] => Ok (mk key)
   | BulkString _ :: _ :: _ => Err (CFF_Command TooManyParts)
   end, c).
Proof.
  intros Hv. rewrite !elem_of_cons, elem_of_nil in Hv. unfold try_from. cbv zeta.
  destruct Hv as [[= -> ->]|[[= -> ->]|[[= -> ->]|[[= -> ->]|[[= -> ->]|[]]]]]];
    eval_verb; by destruct args as [|[fs|key] [|f args]].
Qed.

Lemma key_command_arguments_witness :
  try_from (Array [BulkString (bstr "DEL")]) (clock_at 0) =
  (Err (CFF_Command NotEnoughParts), clock_at 0).
Proof.
  apply (key_command_arguments (bstr "DEL") cmd_delete []).
  apply elem_of_cons. right. apply elem_of_cons. left. reflexivity.
Defined.

(** The arguments of [SET].  Fewer than two is [NotEnoughParts]; exactly two
    set the key with no deadline; an unknown option is [Syntax] before any
    argument of it is looked at; a known option without its argument is
    [NotEnoughParts]; an argument that is no number fails with that error, and
    after an absolute option anything more is [TooManyParts]. *)
Theorem set_arguments (key value option : bytes) (rest : list Frame) (c : Clock) :
  let set args := try_from (Array (BulkString (bstr "SET") :: args)) c in
  let kv := [BulkString key; BulkString value] in
  let option' := to_ascii_lowercase option in
  let known := [bstr "ex"; bstr "px"; bstr "exat"; bstr "pxat"] in
  set [] = (Err (CFF_Command NotEnoughParts), c) /\
  set [BulkString key] = (Err (CFF_Command NotEnoughParts), c) /\
  set kv = (Ok (cmd_set key value None), c) /\
  (option' ∉ known -> set (kv ++ BulkString option :: rest) = (Err (CFF_Command Syntax), c)) /\
  (option' ∈ known -> set (kv ++ [BulkString option]) = (Err (CFF_Command NotEnoughParts), c)) /\
  (option' ∈ known -> forall arg e, parse_u64 arg = Err e ->
     set (kv ++ BulkString option :: BulkString arg :: rest) = (Err e, c)) /\
  (option' ∈ [bstr "exat"; bstr "pxat"] -> rest <> [] -> forall arg n, parse_u64 arg = Ok n ->
     set (kv ++ BulkString option :: BulkString arg :: rest) =
     (Err (CFF_Command TooManyParts), c)).
Proof.
  cbv zeta. unfold try_from. cbv zeta. cbn [app].
  split_and!; intros; eval_verb; try reflexivity; rewrite arm_set_eq;
    unfold arm_set_option, m_lift, mbind, M_bind, m_bind; cbn [next_bulk].
  - rewrite decide_False; [done|]. set_solver.
  - rewrite decide_True; [done|]. set_solver.
  - rewrite decide_True by set_solver. by rewrite H0.
  - assert (Ho : to_ascii_lowercase option = bstr "exat" \/ to_ascii_lowercase option = bstr "pxat")
      by set_solver.
    rewrite decide_True by tauto. rewrite H1.
    destruct rest as [|f rest]; [done|]. unfold set_deadline.
    destruct Ho as [-> | ->]; eval_verb; reflexivity.
Qed.

Lemma set_arguments_witness :
  try_from (Array [BulkString (bstr "SET"); BulkString (bstr "k"); BulkString (bstr "v");
                   BulkString (bstr "junk")]) (clock_at 0) =
  (Err (CFF_Command Syntax), clock_at 0).
Proof.
  apply (set_arguments (bstr "k") (bstr "v") (bstr "junk") [] (clock_at 0)).
  vm_compute. intros H.
  repeat (apply elem_of_cons in H; destruct H as [H|H]; [discriminate|]).
  apply elem_of_nil in H. exact H.
Defined.
