(* ===== verification/Cache.v ===== *)
(** * Cache: [domain/cache.rs]

    The key-value store with deadlines, expired lazily by the reads and swept by
    [remove_expired].  The store is a [HashMap] behind a mutex; an operation is
    the sequence of clock reads and critical sections the source makes, in its
    order, so that other threads can run between them. *)

From S2P Require Import Prelude Effects RustStd Time Command.

Local Open Scope N_scope.

(** ** Data *)

Inductive CacheError : Type :=
| CacheMutexPoisoned
| CacheSystemTime (e : SystemTimeError).

#[export] Instance CacheError_eq_dec : EqDecision CacheError.
Proof. solve_decision. Defined.

Record Entry : Type := mkEntry {
  entry_value : bytes;
  entry_expires_at : option Milliseconds
}.

#[export] Instance Entry_eq_dec : EqDecision Entry.
Proof. solve_decision. Defined.

(** The map behind the cache's mutex. *)
Abbreviation CacheMap := (gmap bytes Entry).

(** What the operations of the cache run on: the clock and the shared map. *)
Record CacheState : Type := mkCacheState {
  cs_clock : Clock;
  cs_inner : Mutex CacheMap
}.

Definition clockL : Lens CacheState Clock :=
  mkLens cs_clock (fun c s => mkCacheState c (cs_inner s))
    (fun _ _ => eq_refl) (fun s => match s with mkCacheState _ _ => eq_refl end)
    (fun _ _ _ => eq_refl).
Definition innerL : Lens CacheState (Mutex CacheMap) :=
  mkLens cs_inner (fun m s => mkCacheState (cs_clock s) m)
    (fun _ _ => eq_refl) (fun s => match s with mkCacheState _ _ => eq_refl end)
    (fun _ _ _ => eq_refl).

(** [Cache::new]: a cache over [data]. *)
Definition cache_new (c : Clock) (data : CacheMap) : CacheState :=
  mkCacheState c (mutex_new data).

(** [expires_at.is_some_and(|t| now >= t)]. *)
Definition deadline_passed (now : Milliseconds) (expires_at : option Milliseconds) : bool :=
  match expires_at with Some t => ms_ge now t | None => false end.

Definition is_expired (now : Milliseconds) (e : Entry) : bool :=
  deadline_passed now (entry_expires_at e).

(** ** Operations *)

Module KvStore.

Abbreviation CM A := (M CacheState CacheError A).
Abbreviation CP A := (prog CacheState CacheError A).

(** [Milliseconds::now()?], under the lock and outside it. *)
Definition now_m : CM Milliseconds := m_map_err CacheSystemTime (m_zoom clockL now).
Definition now_p : CP Milliseconds := atomic now_m.

(** [self.inner.lock().map_err(|_| CacheError::MutexPoisoned)?] and what the
    guard's scope holds. *)
Definition with_lock {A} (body : CM A) : CP A := locked innerL CacheMutexPoisoned body.

Definition get (key : bytes) : CP (option Entry) :=
  now ← now_p;
  with_lock (
    guard ← guard_get innerL;
    let entry := guard !! key in
    if match entry with Some e => is_expired now e | None => false end then
      guard_put innerL (delete key guard);;
      mret None
    else mret entry).

Definition insert (key : bytes) (entry : Entry) : CP (option Entry) :=
  with_lock (
    guard ← guard_get innerL;
    guard_put innerL (<[key := entry]> guard);;
    mret (guard !! key)).

Definition remove (key : bytes) : CP (option Entry) :=
  with_lock (
    guard ← guard_get innerL;
    guard_put innerL (delete key guard);;
    mret (guard !! key)).

Definition contains (key : bytes) : CP bool :=
  with_lock (
    guard ← guard_get innerL;
    match guard !! key with
    | Some (mkEntry _ (Some t)) =>
        now ← now_m;
        if ms_ge now t then
          guard_put innerL (delete key guard);;
          mret false
        else mret true
    | Some _ => mret true
    | None => mret false
    end).

Definition set_expires_at (key : bytes) (expires_at : Milliseconds) : CP bool :=
  now ← now_p;
  if ms_ge now expires_at then
    removed ← remove key;
    mret (bool_decide (is_Some removed))
  else
    with_lock (
      guard ← guard_get innerL;
      match guard !! key with
      | None => mret false
      | Some entry =>
          guard_put innerL (<[key := mkEntry (entry_value entry) (Some expires_at)]> guard);;
          mret true
      end).

(** The guard is dropped before the clock is read, and the removal takes the
    lock again. *)
Definition expires_at (key : bytes) : CP (option (option Milliseconds)) :=
  found ← with_lock (
    guard ← guard_get innerL;
    mret (entry_expires_at <$> guard !! key));
  match found with
  | None => mret None
  | Some expires_at =>
      now ← now_p;
      if deadline_passed now expires_at then
        remove key;;
        mret None
      else mret (Some expires_at)
  end.

Definition time_to_live (key : bytes) : CP (option (option Milliseconds)) :=
  found ← expires_at key;
  match found with
  | None => mret None
  | Some None => mret (Some None)
  | Some (Some t) =>
      now ← now_p;
      mret (Some (Some (saturating_sub t now)))
  end.

Definition remove_ttl (key : bytes) : CP bool :=
  with_lock (
    guard ← guard_get innerL;
    match guard !! key with
    | Some (mkEntry v (Some deadline)) =>
        now ← now_m;
        if ms_ge now deadline then
          guard_put innerL (delete key guard);;
          mret false
        else
          guard_put innerL (<[key := mkEntry v None]> guard);;
          mret true
    | _ => mret false
    end).

(** The scan collects the expired keys, then removes each of them.  The order
    of the scan is that of [map_to_list]; neither the result nor the map
    depends on it. *)
Definition expired_keys (now : Milliseconds) (m : CacheMap) : list bytes :=
  (filter (fun kv => is_expired now kv.2) (map_to_list m)).*1.

Definition remove_expired : CP N :=
  now ← now_p;
  with_lock (
    guard ← guard_get innerL;
    let expired := expired_keys now guard in
    guard_put innerL (fold_left (fun m key => delete key m) expired guard);;
    mret (N.of_nat (length expired))).

Definition execute (command : CacheCommand) : CP CommandOutcome :=
  match command with
  | CacheRead (RGet key) =>
      found ← get key;
      mret (CoValue (entry_value <$> found))
  | CacheRead (RExists key) =>
      b ← contains key;
      mret (CoInteger (if b : bool then 1 else 0)%Z)
  | CacheRead (RTtl key) =>
      found ← time_to_live key;
      mret (CoTtl (match found with
                   | None => KeyNotFound
                   | Some None => TtlNotFound
                   | Some (Some ttl) => TtlSome (to_seconds_rounded_up ttl)
                   end))
  | CacheWrite (WSet key value expires_at) =>
      insert key (mkEntry value expires_at);;
      mret CoOk
  | CacheWrite (WDelete key) =>
      removed ← remove key;
      mret (CoBool (bool_decide (is_Some removed)))
  | CacheWrite (WExpireAt key expires_at) =>
      b ← set_expires_at key expires_at;
      mret (CoBool b)
  | CacheWrite (WPersist key) =>
      b ← remove_ttl key;
      mret (CoBool b)
  end.
End KvStore.

(** ** What each operation does, run alone

    [now c] is the clock's next reading.  Every lemma is for a cache whose lock
    is available; [run_poisoned] is the other case. *)

Lemma run_now_p (c : Clock) (m : CacheMap) :
  run KvStore.now_p (cache_new c m) =
  let '(r, c') := now c in Some (map_err CacheSystemTime r, cache_new c' m).
Proof. done. Qed.

Lemma run_with_lock (c : Clock) (m : CacheMap) {A} (body : M CacheState CacheError A) :
  run (KvStore.with_lock body) (cache_new c m) = Some (body (cache_new c m)).
Proof. by apply run_locked. Qed.

Lemma run_get (c : Clock) (m : CacheMap) key :
  run (KvStore.get key) (cache_new c m) =
  match now c with
  | (Err e, c') => Some (Err (CacheSystemTime e), cache_new c' m)
  | (Ok t, c') =>
      Some (match m !! key with
            | Some e => if is_expired t e then (Ok None, cache_new c' (delete key m))
                        else (Ok (Some e), cache_new c' m)
            | None => (Ok None, cache_new c' m)
            end)
  end.
Proof.
  unfold KvStore.get. rewrite run_bind, run_now_p.
  destruct (now c) as [[t|e] c']; m_cbn; [|done].
  destruct (m !! key) as [e|]; [|done]. by destruct (is_expired t e).
Qed.

Lemma run_insert (c : Clock) (m : CacheMap) key e :
  run (KvStore.insert key e) (cache_new c m) =
  Some (Ok (m !! key), cache_new c (<[key := e]> m)).
Proof. done. Qed.

Lemma run_remove (c : Clock) (m : CacheMap) key :
  run (KvStore.remove key) (cache_new c m) =
  Some (Ok (m !! key), cache_new c (delete key m)).
Proof. done. Qed.

Lemma run_contains (c : Clock) (m : CacheMap) key :
  run (KvStore.contains key) (cache_new c m) =
  Some (match m !! key with
        | Some (mkEntry _ (Some d)) =>
            match now c with
            | (Err e, c') => (Err (CacheSystemTime e), cache_new c' m)
            | (Ok t, c') => if ms_ge t d then (Ok false, cache_new c' (delete key m))
                            else (Ok true, cache_new c' m)
            end
        | Some (mkEntry _ None) => (Ok true, cache_new c m)
        | None => (Ok false, cache_new c m)
        end).
Proof.
  unfold KvStore.contains. rewrite run_with_lock. m_cbn.
  destruct (m !! key) as [[v [d|]]|]; [|done..]. m_cbn.
  destruct (millis_of_reading _) as [t|e]; m_cbn; [|done]. by destruct (ms_ge t d).
Qed.

Lemma run_set_expires_at (c : Clock) (m : CacheMap) key d :
  run (KvStore.set_expires_at key d) (cache_new c m) =
  match now c with
  | (Err e, c') => Some (Err (CacheSystemTime e), cache_new c' m)
  | (Ok t, c') =>
      Some (if ms_ge t d then (Ok (bool_decide (is_Some (m !! key))), cache_new c' (delete key m))
            else match m !! key with
                 | None => (Ok false, cache_new c' m)
                 | Some e => (Ok true, cache_new c' (<[key := mkEntry (entry_value e) (Some d)]> m))
                 end)
  end.
Proof.
  unfold KvStore.set_expires_at. rewrite run_bind, run_now_p.
  destruct (now c) as [[t|e] c']; m_cbn; [|done].
  destruct (ms_ge t d); [done|]. m_cbn. by destruct (m !! key).
Qed.

Lemma run_expires_at (c : Clock) (m : CacheMap) key :
  run (KvStore.expires_at key) (cache_new c m) =
  match m !! key with
  | None => Some (Ok None, cache_new c m)
  | Some e =>
      match now c with
      | (Err err, c') => Some (Err (CacheSystemTime err), cache_new c' m)
      | (Ok t, c') =>
          Some (if is_expired t e then (Ok None, cache_new c' (delete key m))
                else (Ok (Some (entry_expires_at e)), cache_new c' m))
      end
  end.
Proof.
  unfold KvStore.expires_at. rewrite run_bind, run_with_lock.
  change (_ (cache_new c m)) with
    (@Ok CacheError _ (entry_expires_at <$> m !! key), cache_new c m) at 1.
  destruct (m !! key) as [e|]; cbn [fmap option_fmap option_map]; [|done].
  rewrite run_bind, run_now_p. destruct (now c) as [[t|err] c']; cbn [map_err]; [|done].
  unfold is_expired. destruct (deadline_passed t (entry_expires_at e)); [|done].
  by rewrite run_bind, run_remove.
Qed.

Lemma run_time_to_live (c : Clock) (m : CacheMap) key :
  run (KvStore.time_to_live key) (cache_new c m) =
  match m !! key with
  | None => Some (Ok None, cache_new c m)
  | Some e =>
      match now c with
      | (Err err, c') => Some (Err (CacheSystemTime err), cache_new c' m)
      | (Ok t, c') =>
          if is_expired t e then Some (Ok None, cache_new c' (delete key m))
          else match entry_expires_at e with
               | None => Some (Ok (Some None), cache_new c' m)
               | Some d =>
                   match now c' with
                   | (Err err, c'') => Some (Err (CacheSystemTime err), cache_new c'' m)
                   | (Ok t', c'') =>
                       Some (Ok (Some (Some (saturating_sub d t'))), cache_new c'' m)
                   end
               end
      end
  end.
Proof.
  unfold KvStore.time_to_live. rewrite run_bind, run_expires_at.
  destruct (m !! key) as [e|]; [|done]. destruct (now c) as [[t|err] c']; [|done].
  destruct (is_expired t e); [done|]. destruct (entry_expires_at e) as [d|]; [|done].
  rewrite run_bind, run_now_p. by destruct (now c') as [[t'|err] c''].
Qed.

Lemma run_remove_ttl (c : Clock) (m : CacheMap) key :
  run (KvStore.remove_ttl key) (cache_new c m) =
  Some (match m !! key with
        | Some (mkEntry v (Some d)) =>
            match now c with
            | (Err e, c') => (Err (CacheSystemTime e), cache_new c' m)
            | (Ok t, c') => if ms_ge t d then (Ok false, cache_new c' (delete key m))
                            else (Ok true, cache_new c' (<[key := mkEntry v None]> m))
            end
        | _ => (Ok false, cache_new c m)
        end).
Proof.
  unfold KvStore.remove_ttl. rewrite run_with_lock. m_cbn.
  destruct (m !! key) as [[v [d|]]|]; [|done..]. m_cbn.
  destruct (millis_of_reading _) as [t|e]; m_cbn; [|done]. by destruct (ms_ge t d).
Qed.
(** The live part of the map at time [t]: what a client can still see. *)
Definition live (t : Milliseconds) (m : CacheMap) : CacheMap :=
  filter (fun kv => ~ is_expired t kv.2) m.

Lemma fold_delete_lookup (ks : list bytes) (m : CacheMap) k :
  fold_left (fun m key => delete key m) ks m !! k =
  if decide (k ∈ ks) then None else m !! k.
Proof.
  revert m. induction ks as [|k' ks IH]; intros m; cbn [fold_left].
  - by rewrite decide_False by apply not_elem_of_nil.
  - rewrite IH. destruct (decide (k ∈ ks)) as [Hin|Hin].
    + rewrite decide_True; [done|]. by apply elem_of_cons; right.
    + destruct (decide (k = k')) as [->|Hne].
      * rewrite lookup_delete_eq, decide_True; [done|]. by apply elem_of_cons; left.
      * rewrite lookup_delete_ne by congruence. rewrite decide_False; [done|].
        by rewrite elem_of_cons; intros [?|?].
Qed.

Lemma elem_of_expired_keys t m k :
  k ∈ KvStore.expired_keys t m <-> exists e, m !! k = Some e /\ is_expired t e.
Proof.
  unfold KvStore.expired_keys. rewrite list_elem_of_fmap. split.
  - intros ([k' e] & -> & H). apply list_elem_of_filter in H as [He Hm].
    apply elem_of_map_to_list in Hm. eauto.
  - intros (e & Hm & He). exists (k, e). split; [done|].
    apply list_elem_of_filter. split; [done|]. by apply elem_of_map_to_list.
Qed.

Lemma live_lookup t m k :
  live t m !! k = match m !! k with
                  | Some e => if is_expired t e then None else Some e
                  | None => None
                  end.
Proof.
  unfold live. rewrite map_lookup_filter. destruct (m !! k) as [e|]; [|done]. cbn [mbind option_bind].
  destruct (is_expired t e) eqn:He.
  - rewrite option_guard_False; [done|]. cbn [snd]. rewrite He. by intros [].
  - rewrite option_guard_True; [done|]. cbn [snd]. rewrite He. by intros [].
Qed.

Lemma fold_delete_expired t m :
  fold_left (fun m key => delete key m) (KvStore.expired_keys t m) m = live t m.
Proof.
  apply map_eq. intros k. rewrite fold_delete_lookup, live_lookup.
  destruct (decide (k ∈ KvStore.expired_keys t m)) as [Hin|Hin];
    rewrite elem_of_expired_keys in Hin.
  - destruct Hin as (e & -> & He). by destruct (is_expired t e).
  - destruct (m !! k) as [e|] eqn:Hk; [|done].
    destruct (is_expired t e) eqn:He; [|done]. destruct Hin. exists e. by rewrite He.
Qed.

Lemma run_remove_expired c m :
  run KvStore.remove_expired (cache_new c m) =
  match now c with
  | (Err e, c') => Some (Err (CacheSystemTime e), cache_new c' m)
  | (Ok t, c') =>
      Some (Ok (N.of_nat (length (KvStore.expired_keys t m))), cache_new c' (live t m))
  end.
Proof.
  unfold KvStore.remove_expired. rewrite run_bind, run_now_p.
  destruct (now c) as [[t|e] c']; [|done]. cbn [map_err].
  rewrite run_with_lock. m_cbn. by rewrite fold_delete_expired.
Qed.
