(* ===== verification/CacheSpec.v ===== *)
(** * CacheSpec: what the cache promises, and that it keeps the promise

    The abstract store is a map from which a key is gone the moment its deadline
    passes: a command at time [t] first drops every entry expired at [t], then
    acts.  The cache refines it ([cache_refines_spec]), under a clock that moves on
    while commands run, as long as [DEL] and the expire commands do not meet a key
    that has expired and is still in the map; [expire_revives_expired_key] is what
    happens when they do. *)

From S2P Require Import Prelude Effects RustStd Time Command Cache.

Local Open Scope N_scope.

(** ** The abstract store *)

Module Spec.
(** A command on a store all of whose entries are live at [t]; a [TTL] counts what is
    left from a moment of its own, [t']. *)
Definition act (t' : Milliseconds) (command : CacheCommand) (a : CacheMap)
  : CommandOutcome * CacheMap :=
  match command with
  | CacheRead (RGet key) => (CoValue (entry_value <$> a !! key), a)
  | CacheRead (RExists key) =>
      (CoInteger (match a !! key with Some _ => 1 | None => 0 end)%Z, a)
  | CacheRead (RTtl key) =>
      (CoTtl (match a !! key with
              | None => KeyNotFound
              | Some (mkEntry _ None) => TtlNotFound
              | Some (mkEntry _ (Some d)) => TtlSome (to_seconds_rounded_up (saturating_sub d t'))
              end), a)
  | CacheWrite (WSet key value expires_at) => (CoOk, <[key := mkEntry value expires_at]> a)
  | CacheWrite (WDelete key) => (CoBool (bool_decide (is_Some (a !! key))), delete key a)
  | CacheWrite (WExpireAt key d) =>
      match a !! key with
      | Some e => (CoBool true, <[key := mkEntry (entry_value e) (Some d)]> a)
      | None => (CoBool false, a)
      end
  | CacheWrite (WPersist key) =>
      match a !! key with
      | Some (mkEntry v (Some _)) => (CoBool true, <[key := mkEntry v None]> a)
      | _ => (CoBool false, a)
      end
  end.

Definition step (t t' : Milliseconds) (command : CacheCommand) (a : CacheMap)
  : CommandOutcome * CacheMap := act t' command (live t a).
End Spec.

(** ** The clock

    A clock does not go back from its next reading on, and is not before the epoch. *)

Definition steady_clock (c : Clock) : Prop :=
  forall i j, (tick c <= i)%nat -> (i <= j)%nat -> (0 <= readings c i <= readings c j)%Z.

(** What the clock reads next, and the time after that. *)
Definition next_reading (c : Clock) : Milliseconds :=
  match fst (now c) with Ok t => t | Err _ => mkMilliseconds 0 end.
Definition second_reading (c : Clock) : Milliseconds := next_reading (snd (now c)).

(** A clock, some readings later. *)
Definition later (c c' : Clock) : Prop := readings c' = readings c /\ (tick c <= tick c')%nat.

#[export] Instance later_preorder : PreOrder later.
Proof.
  unfold later. split; [done|]. intros c1 c2 c3 [-> ?] [-> ?]. split; [done|lia].
Qed.

Lemma later_now c : later c (snd (now c)).
Proof. unfold later. cbn. split; [done|lia]. Qed.

Lemma steady_later c c' : steady_clock c -> later c c' -> steady_clock c'.
Proof. intros Hs [Hr Ht] i j Hi Hj. rewrite Hr. apply Hs; lia. Qed.

Lemma steady_now c : steady_clock c -> now c = (Ok (next_reading c), snd (now c)).
Proof.
  intros Hs. unfold next_reading, now, millis_of_reading. cbn [fst snd].
  specialize (Hs (tick c) (tick c)). by rewrite decide_False by lia.
Qed.

Lemma next_reading_later c c' :
  steady_clock c -> later c c' -> millis (next_reading c) <= millis (next_reading c').
Proof.
  intros Hs [Hr Ht]. unfold next_reading, now, millis_of_reading. cbn [fst]. rewrite Hr.
  pose proof (Hs (tick c) (tick c') (le_n _) Ht) as [H0 Hle].
  rewrite !decide_False by lia. cbn [millis].
  pose proof (Z.div_le_mono _ _ 1000000 ltac:(lia) Hle).
  pose proof (Z.div_pos _ 1000000 H0 ltac:(lia)).
  repeat case_decide; cbn [millis]; lia.
Qed.

(** The millisecond clock stands still while a command runs. *)
Definition frozen (t : Milliseconds) (c : Clock) : Prop :=
  forall n, (tick c <= n)%nat -> millis_of_reading (readings c n) = Ok t.

Lemma frozen_now t c : frozen t c -> exists c', now c = (Ok t, c') /\ frozen t c'.
Proof.
  intros Hf. eexists. unfold now. rewrite (Hf (tick c)) by lia. split; [done|].
  intros n Hn. apply Hf. simpl in Hn. lia.
Qed.

Lemma frozen_clock_at t : Milliseconds_wf t -> frozen t (clock_at (millis t)).
Proof. intros Ht n _. cbn. rewrite millis_of_reading_at by done. by destruct t. Qed.

(** ** Live entries *)

Lemma is_expired_mono t t' e : millis t <= millis t' -> is_expired t e -> is_expired t' e.
Proof.
  unfold is_expired, deadline_passed. destruct (entry_expires_at e) as [d|]; [|done].
  rewrite !ms_ge_spec. lia.
Qed.

Lemma live_live t t' m : millis t <= millis t' -> live t' (live t m) = live t' m.
Proof.
  intros Ht. apply map_eq. intros k. rewrite !live_lookup.
  destruct (m !! k) as [e|]; [|done].
  destruct (is_expired t e) eqn:He; [|done].
  pose proof (is_expired_mono t t' e Ht) as Hm. rewrite He in Hm.
  destruct (is_expired t' e); [done|by destruct (Hm I)].
Qed.

Lemma live_agree t t' m a :
  millis t <= millis t' -> live t m = live t a -> live t' m = live t' a.
Proof. intros Ht H. by rewrite <- (live_live t t' m), <- (live_live t t' a), H. Qed.

Lemma live_insert t k e m m' :
  live t m = live t m' -> live t (<[k := e]> m) = live t (<[k := e]> m').
Proof.
  intros H. apply map_eq. intros j. rewrite !live_lookup.
  destruct (decide (j = k)) as [->|Hne]; [by rewrite !lookup_insert_eq|].
  rewrite !lookup_insert_ne by congruence. by rewrite <- !live_lookup, H.
Qed.

Lemma live_delete t k m m' :
  live t m = live t m' -> live t (delete k m) = live t (delete k m').
Proof.
  intros H. apply map_eq. intros j. rewrite !live_lookup.
  destruct (decide (j = k)) as [->|Hne]; [by rewrite !lookup_delete_eq|].
  rewrite !lookup_delete_ne by congruence. by rewrite <- !live_lookup, H.
Qed.

(** Dropping a key that is expired at [t] does not show at [t]. *)
Lemma live_delete_expired t k e m :
  m !! k = Some e -> is_expired t e -> live t (delete k m) = live t m.
Proof.
  intros Hk He. apply map_eq. intros j. rewrite !live_lookup.
  destruct (decide (j = k)) as [->|Hne]; [|by rewrite lookup_delete_ne].
  rewrite lookup_delete_eq, Hk. by destruct (is_expired t e).
Qed.

Lemma live_insert_expired t k e m :
  is_expired t e -> live t (<[k := e]> m) = live t (delete k m).
Proof.
  intros He. apply map_eq. intros j. rewrite !live_lookup.
  destruct (decide (j = k)) as [->|Hne].
  - rewrite lookup_insert_eq, lookup_delete_eq. by destruct (is_expired t e).
  - by rewrite lookup_insert_ne, lookup_delete_ne.
Qed.

Lemma live_idem t m : live t (live t m) = live t m.
Proof. by apply live_live. Qed.

(** ** Refinement of one command *)

(** [DEL] and the expire commands are not run on a key that has expired and has
    not been dropped yet. *)
Definition not_stale (t : Milliseconds) (command : CacheCommand) (m : CacheMap) : Prop :=
  match command with
  | CacheWrite (WDelete key) | CacheWrite (WExpireAt key _) =>
      match m !! key with Some e => is_expired t e = false | None => True end
  | _ => True
  end.

(** The lookup of a key in a map and in the live part of another that agrees. *)
Lemma live_lookup_agree t m a k :
  live t m = live t a ->
  live t a !! k = match m !! k with
                  | Some e => if is_expired t e then None else Some e
                  | None => None
                  end.
Proof. intros <-. apply live_lookup. Qed.

(** Running [command] on [m], from the clock [c] on, does what the store [a] does. *)
Definition simulates (command : CacheCommand) (c : Clock) (m a : CacheMap) : Prop :=
  let t := next_reading c in
  let spec := Spec.step t (second_reading c) command a in
  exists c' m', run (KvStore.execute command) (cache_new c m) = Some (Ok spec.1, cache_new c' m') /\
    later c c' /\ live t m' = live t spec.2.

Section simulates.
Context (c : Clock) (m a : CacheMap).
Hypothesis Hc : steady_clock c.
Hypothesis Hl : live (next_reading c) m = live (next_reading c) a.

Local Definition t := next_reading c.
Local Definition c1 := snd (now c).

Lemma simulates_now : now c = (Ok t, c1).
Proof using Hc. by apply steady_now. Qed.

Lemma simulates_now2 : now c1 = (Ok (second_reading c), snd (now c1)).
Proof using Hc. apply steady_now. apply (steady_later _ _ Hc), later_now. Qed.

Lemma simulates_lookup k :
  live t a !! k = match m !! k with
                  | Some e => if is_expired t e then None else Some e
                  | None => None
                  end.
Proof using Hl. by apply live_lookup_agree. Qed.

Local Ltac look key :=
  unfold simulates, KvStore.execute, Spec.step, Spec.act; fold t; rewrite run_bind;
  rewrite ?(simulates_lookup key).
Local Ltac on_clock :=
  first [reflexivity | apply later_now | transitivity c1; apply later_now].
Local Ltac fin := do 2 eexists; split_and!; [reflexivity|on_clock|]; cbn [snd fst]; fold t.
(** Nothing changed, or only a key nobody can see at [t] went. *)
Local Ltac same :=
  fin; rewrite ?(live_idem t a);
  first [exact Hl
        | etransitivity; [eapply live_delete_expired;
                          [eassumption|apply Is_true_true_2; eassumption]|exact Hl]].

Lemma simulates_get key : simulates (CacheRead (RGet key)) c m a.
Proof using Hc Hl.
  look key. rewrite run_get, simulates_now. destruct (m !! key) as [e|] eqn:Hk; [|same].
  destruct (is_expired t e) eqn:He; same.
Qed.

Lemma simulates_exists key : simulates (CacheRead (RExists key)) c m a.
Proof using Hc Hl.
  look key. rewrite run_contains, simulates_now.
  destruct (m !! key) as [[v [d|]]|] eqn:Hk; [|same..].
  cbn [is_expired deadline_passed entry_expires_at].
  destruct (ms_ge t d) eqn:He; same.
Qed.

Lemma simulates_ttl key : simulates (CacheRead (RTtl key)) c m a.
Proof using Hc Hl.
  look key. rewrite run_time_to_live, simulates_now.
  destruct (m !! key) as [[v e]|] eqn:Hk; [|same].
  destruct (is_expired t (mkEntry v e)) eqn:He; [same|].
  destruct e as [d|]; cbn [entry_expires_at]; [rewrite simulates_now2|]; same.
Qed.

Lemma simulates_set key v d : simulates (CacheWrite (WSet key v d)) c m a.
Proof using Hl. look key. rewrite run_insert. fin. apply live_insert. by rewrite live_idem. Qed.

Lemma simulates_delete key :
  not_stale t (CacheWrite (WDelete key)) m -> simulates (CacheWrite (WDelete key)) c m a.
Proof using Hl.
  cbn. intros Hs. look key. rewrite run_remove.
  destruct (m !! key) as [e|]; [rewrite Hs|];
    (fin; apply live_delete; by rewrite live_idem).
Qed.

Lemma simulates_expire_at key d :
  not_stale t (CacheWrite (WExpireAt key d)) m -> simulates (CacheWrite (WExpireAt key d)) c m a.
Proof using Hc Hl.
  cbn. intros Hs. look key. rewrite run_set_expires_at, simulates_now.
  destruct (m !! key) as [e|] eqn:Hk; [rewrite Hs|]; destruct (ms_ge t d) eqn:Hd.
  - fin. rewrite live_insert_expired by (apply Is_true_true_2; exact Hd).
    apply live_delete. by rewrite live_idem.
  - fin. apply live_insert. by rewrite live_idem.
  - rewrite delete_id by done. same.
  - same.
Qed.

Lemma simulates_persist key : simulates (CacheWrite (WPersist key)) c m a.
Proof using Hc Hl.
  look key. rewrite run_remove_ttl, simulates_now.
  destruct (m !! key) as [[v [d|]]|] eqn:Hk; unfold is_expired;
    cbn [deadline_passed entry_expires_at]; [|same..].
  destruct (ms_ge t d) eqn:He; [same|].
  fin. apply live_insert. by rewrite live_idem.
Qed.

Lemma execute_simulates command : not_stale t command m -> simulates command c m a.
Proof using Hc Hl.
  destruct command as [[key|key|key]|[key v d|key|key d|key]];
    eauto using simulates_get, simulates_exists, simulates_ttl, simulates_set,
      simulates_delete, simulates_expire_at, simulates_persist.
Qed.
End simulates.

(** ** Refinement of a history

    A history is the commands the cache executes one after the other, with sweeps
    between them; the clock goes on with every reading one of them takes. *)

Inductive event : Type :=
| Exec (command : CacheCommand)
| Sweep.

(** One event on the cache: [None] when the operation blocks or fails. *)
Definition cache_event (ev : event) (s : CacheState) : option (list CommandOutcome * CacheState) :=
  match ev with
  | Exec command =>
      match run (KvStore.execute command) s with
      | Some (Ok out, s') => Some ([out], s')
      | _ => None
      end
  | Sweep =>
      match run KvStore.remove_expired s with
      | Some (Ok _, s') => Some ([], s')
      | _ => None
      end
  end.

Fixpoint cache_history (evs : list event) (s : CacheState)
  : option (list CommandOutcome * CacheState) :=
  match evs with
  | [] => Some ([], s)
  | ev :: evs' =>
      '(out, s') ← cache_event ev s;
      '(outs, s'') ← cache_history evs' s';
      Some (out ++ outs, s'')
  end.

(** The clock at the beginning of each event. *)
Fixpoint clocks (evs : list event) (s : CacheState) : list Clock :=
  match evs with
  | [] => []
  | ev :: evs' =>
      cs_clock s :: match cache_event ev s with Some (_, s') => clocks evs' s' | None => [] end
  end.

(** The same event on the abstract store, at the time the clock has then; a sweep
    does nothing to it. *)
Definition spec_event (ev : event) (c : Clock) (a : CacheMap) : list CommandOutcome * CacheMap :=
  match ev with
  | Exec command =>
      let '(out, a') := Spec.step (next_reading c) (second_reading c) command a in ([out], a')
  | Sweep => ([], a)
  end.

Fixpoint spec_history (evs : list event) (cs : list Clock) (a : CacheMap)
  : list CommandOutcome * CacheMap :=
  match evs, cs with
  | ev :: evs', c :: cs' =>
      let '(out, a') := spec_event ev c a in
      let '(outs, a'') := spec_history evs' cs' a' in
      (out ++ outs, a'')
  | _, _ => ([], a)
  end.

(** [DEL] and the expire commands never meet a stale key. *)
Fixpoint never_stale (evs : list event) (s : CacheState) : Prop :=
  match evs with
  | [] => True
  | ev :: evs' =>
      match ev with
      | Exec command => not_stale (next_reading (cs_clock s)) command (guarded (cs_inner s))
      | Sweep => True
      end /\
      match cache_event ev s with Some (_, s') => never_stale evs' s' | None => True end
  end.

Lemma event_refines ev c m a :
  steady_clock c -> live (next_reading c) m = live (next_reading c) a ->
  match ev with Exec command => not_stale (next_reading c) command m | Sweep => True end ->
  exists c' m', cache_event ev (cache_new c m) = Some ((spec_event ev c a).1, cache_new c' m') /\
    later c c' /\ live (next_reading c) m' = live (next_reading c) (spec_event ev c a).2.
Proof.
  destruct ev as [command|]; intros Hc Hl Hs.
  - destruct (execute_simulates c m a Hc Hl command Hs) as (c' & m' & Hr & Hlat & Hl').
    exists c', m'. unfold cache_event, spec_event. rewrite Hr.
    by destruct (Spec.step _ _ command a).
  - exists (snd (now c)), (live (next_reading c) m). unfold cache_event, spec_event.
    rewrite run_remove_expired, (steady_now c Hc). split; [done|]. split; [apply later_now|].
    by rewrite live_idem.
Qed.

(** ** Properties *)

(** C7: the cache refines the abstract store.  Over any history of commands and
    sweeps, on a free lock and with a clock that is past the epoch and does not go
    back, though it may move on between any two of its readings, and in which no [DEL]
    or expire command meets a stale key, every command succeeds with exactly the
    outcome the abstract store gives at the time the command first reads the clock
    (a key is gone at its deadline, and sweeps do not exist; a [TTL] counts what is
    left at the second time it reads it), and at the end, at the clock's next reading,
    the two hold the same live keys, values and deadlines. *)
Theorem cache_refines_spec (evs : list event) (c : Clock) (m a : CacheMap) :
  steady_clock c -> live (next_reading c) m = live (next_reading c) a ->
  never_stale evs (cache_new c m) ->
  let spec := spec_history evs (clocks evs (cache_new c m)) a in
  exists c' m', cache_history evs (cache_new c m) = Some (spec.1, cache_new c' m') /\
    later c c' /\ live (next_reading c') m' = live (next_reading c') spec.2.
Proof.
  revert c m a. induction evs as [|ev evs IH]; intros c m a Hc Hl Hr.
  - by exists c, m.
  - destruct Hr as [Hs Hr].
    destruct (event_refines ev c m a Hc Hl Hs) as (c1 & m1 & He & Hlat & Hl1).
    rewrite He in Hr. cbn [cache_history spec_history clocks]. rewrite He. cbn [mbind option_bind cs_clock cache_new].
    destruct (spec_event ev c a) as [out a1]. cbn [fst snd] in *.
    pose proof (live_agree _ _ _ _ (next_reading_later _ _ Hc Hlat) Hl1) as Hl2.
    destruct (IH c1 m1 a1 (steady_later _ _ Hc Hlat) Hl2 Hr) as (c2 & m2 & Hh & Hlat2 & Hl3).
    rewrite Hh. cbn [mbind option_bind].
    destruct (spec_history evs _ a1) as [outs a2]. cbn [fst snd] in *.
    exists c2, m2. split; [done|]. split; [by transitivity c1|done].
Qed.

(** A clock a second further at each reading: a [TTL] finds its key live and counts
    after the deadline. *)
Lemma cache_refines_spec_witness :
  let k := bstr "k" in
  let at_ n := mkMilliseconds n in
  let c := mkClock (fun n => Z.of_nat n * 1000000000)%Z 1 in
  let evs :=
    [ Exec (CacheWrite (WSet k (bstr "v") (Some (at_ 5500))));
      Exec (CacheRead (RTtl k));
      Sweep;
      Exec (CacheWrite (WExpireAt k (at_ 5500)));
      Exec (CacheRead (RTtl k));
      Exec (CacheRead (RGet k));
      Exec (CacheWrite (WDelete k)) ] in
  exists s', cache_history evs (cache_new c ∅) =
    Some ([CoOk; CoTtl (TtlSome (mkSeconds 4)); CoBool true; CoTtl (TtlSome (mkSeconds 0));
           CoValue None; CoBool false], s').
Proof.
  cbv zeta.
  match goal with |- context [cache_history ?evs (cache_new ?c _)] =>
    destruct (cache_refines_spec evs c ∅ ∅) as (c' & m' & H & _)
  end.
  - intros i j Hi Hj. cbn [readings tick] in *. lia.
  - reflexivity.
  - vm_compute. repeat split.
  - eexists. rewrite H. vm_compute. reflexivity.
Defined.

(** What [execute] gives on any command, with what it can do to the map. *)
Lemma run_execute_frame (command : CacheCommand) (c : Clock) (m : CacheMap) :
  exists r c' m', run (KvStore.execute command) (cache_new c m) = Some (r, cache_new c' m') /\
  match command with
  | CacheWrite wc => forall k, k <> write_key wc -> m' !! k = m !! k
  | CacheRead (RGet key) | CacheRead (RExists key) | CacheRead (RTtl key) =>
      m' = m \/
      m' = delete key m /\
      exists e t, m !! key = Some e /\ fst (now c) = Ok t /\ is_expired t e
  end.
Proof.
  destruct command as [[key|key|key]|[key v d|key|key d|key]];
    unfold KvStore.execute; rewrite run_bind.
  - rewrite run_get. destruct (now c) as [[t|err] c'] eqn:Hn; [|by eauto 10].
    destruct (m !! key) as [e|] eqn:Hk; [|by eauto 10].
    destruct (is_expired t e) eqn:He; [|by eauto 10].
    do 3 eexists. split; [done|]. right. split; [done|].
    exists e, t. by rewrite He.
  - rewrite run_contains. destruct (m !! key) as [[v [d|]]|] eqn:Hk; [|by eauto 10..].
    destruct (now c) as [[t|err] c'] eqn:Hn; [|by eauto 10].
    destruct (ms_ge t d) eqn:He; [|by eauto 10].
    do 3 eexists. split; [done|]. right. split; [done|].
    exists (mkEntry v (Some d)), t. split_and!; [done..|]. cbn. by rewrite He.
  - rewrite run_time_to_live. destruct (m !! key) as [[v d]|] eqn:Hk; [|by eauto 10].
    destruct (now c) as [[t|err] c'] eqn:Hn; [|by eauto 10].
    destruct (is_expired t (mkEntry v d)) eqn:He.
    + do 3 eexists. split; [done|]. right. split; [done|].
      exists (mkEntry v d), t. by rewrite He.
    + destruct d as [d|]; cbn [entry_expires_at]; [|by eauto 10].
      destruct (now c') as [[t'|err] c'']; by eauto 10.
  - rewrite run_insert. do 3 eexists. split; [done|]. intros k Hk.
    by apply lookup_insert_ne.
  - rewrite run_remove. do 3 eexists. split; [done|]. intros k Hk.
    by apply lookup_delete_ne.
  - rewrite run_set_expires_at. destruct (now c) as [[t|err] c']; [|by eauto 10].
    destruct (ms_ge t d); [|destruct (m !! key) as [e|]; [|by eauto 10]];
      (do 3 eexists; split; [done|]; intros k Hk).
    + by apply lookup_delete_ne.
    + by apply lookup_insert_ne.
  - rewrite run_remove_ttl. destruct (m !! key) as [[v [d|]]|]; [|by eauto 10..].
    destruct (now c) as [[t|err] c']; [|by eauto 10].
    destruct (ms_ge t d); (do 3 eexists; split; [done|]; intros k Hk).
    + by apply lookup_delete_ne.
    + by apply lookup_insert_ne.
Qed.

(** C26: what a command can do to the map.  A command only ever touches its own
    key; and a read leaves the map as it was or drops its key, and drops it only
    when the entry's deadline is at or before a reading of the clock the command
    made. *)
Theorem execute_frame (command : CacheCommand) (c : Clock) (m : CacheMap) :
  exists r c' m', run (KvStore.execute command) (cache_new c m) = Some (r, cache_new c' m') /\
  match command with
  | CacheWrite wc => forall k, k <> write_key wc -> m' !! k = m !! k
  | CacheRead (RGet key) | CacheRead (RExists key) | CacheRead (RTtl key) =>
      m' = m \/
      m' = delete key m /\
      exists e t, m !! key = Some e /\ fst (now c) = Ok t /\ is_expired t e
  end.
Proof. exact (run_execute_frame command c m). Qed.

(** No operation of the cache waits for a lock its own thread holds, and a
    poisoned lock is reported, not ignored.  With nobody else holding the lock a
    command always returns and gives the lock back; when the lock is poisoned it
    returns an error, [MutexPoisoned] unless the clock failed first, and the map
    is untouched. *)
Theorem execute_returns (command : CacheCommand) (c : Clock) (p : bool) (m : CacheMap) :
  exists r c' m',
    run (KvStore.execute command) (mkCacheState c (mkMutex false p m)) =
      Some (r, mkCacheState c' (mkMutex false p m')) /\
    (p = true -> m' = m /\
       (r = Err CacheMutexPoisoned \/
        exists e, r = Err (CacheSystemTime e) /\ fst (now c) = Err e)).
Proof.
  destruct p.
  - destruct command as [[key|key|key]|[key v d|key|key d|key]];
      unfold KvStore.execute, KvStore.get, KvStore.time_to_live, KvStore.set_expires_at;
      rewrite ?run_bind; try (do 3 eexists; split; [reflexivity|by eauto]).
    all: change (run KvStore.now_p (mkCacheState c ?x)) with
           (let '(r, c') := now c in
            Some (map_err CacheSystemTime r, mkCacheState c' x));
      destruct (now c) as [[t|e] c'] eqn:Hn; cbn [map_err fst];
      [|do 3 eexists; split; [reflexivity|by eauto]].
    + do 3 eexists. split; [reflexivity|by eauto].
    + destruct (ms_ge t d); do 3 eexists; (split; [reflexivity|by eauto]).
  - destruct (run_execute_frame command c m) as (r & c' & m' & Hr & _). by exists r, c', m'.
Qed.

(** C37: an expire command brings an expired key back.  While an entry whose
    deadline has passed is still in the map, [GET] at that moment answers that the
    key does not exist; yet [EXPIREAT] with a later deadline at the same moment
    answers that it was applied, and from then on [GET] returns the old value
    until the new deadline.  ([PERSIST] on such a key drops it instead.) *)
Theorem expire_revives_expired_key (key v : bytes) (d d' t : Milliseconds)
    (c : Clock) (m : CacheMap) :
  frozen t c -> m !! key = Some (mkEntry v (Some d)) ->
  millis d <= millis t -> millis t < millis d' ->
  let exec command m := run (KvStore.execute command) (cache_new c m) in
  exists c',
    exec (CacheRead (RGet key)) m = Some (Ok (CoValue None), cache_new c' (delete key m)) /\
    exec (CacheWrite (WPersist key)) m =
      Some (Ok (CoBool false), cache_new c' (delete key m)) /\
    let m' := <[key := mkEntry v (Some d')]> m in
    exec (CacheWrite (WExpireAt key d')) m = Some (Ok (CoBool true), cache_new c' m') /\
    exec (CacheRead (RGet key)) m' = Some (Ok (CoValue (Some v)), cache_new c' m').
Proof.
  intros Hf Hk Hd Hd'. cbv zeta. destruct (frozen_now t c Hf) as (c' & Hn & _). exists c'.
  assert (Hge : ms_ge t d = true) by (apply Is_true_true, ms_ge_spec; done).
  assert (Hlt : ms_ge t d' = false) by (unfold ms_ge; apply N.leb_gt; done).
  unfold KvStore.execute. rewrite !run_bind, !run_get, run_set_expires_at, run_remove_ttl, Hn, Hk.
  unfold is_expired, deadline_passed. cbn [entry_expires_at]. rewrite lookup_insert_eq, Hge, Hlt.
  cbn [entry_expires_at]. by rewrite Hlt.
Qed.

Lemma expire_revives_expired_key_witness :
  let k := bstr "session" in
  let m := {[ k := mkEntry (bstr "old") (Some (mkMilliseconds 1000)) ]} in
  exists c', run (KvStore.execute (CacheWrite (WExpireAt k (mkMilliseconds 9000))))
      (cache_new (clock_at 2000) m) =
    Some (Ok (CoBool true),
          cache_new c' (<[k := mkEntry (bstr "old") (Some (mkMilliseconds 9000))]> m)).
Proof.
  cbv zeta.
  destruct (expire_revives_expired_key (bstr "session") (bstr "old") (mkMilliseconds 1000)
      (mkMilliseconds 9000) (mkMilliseconds 2000) (clock_at 2000)
      {[ bstr "session" := mkEntry (bstr "old") (Some (mkMilliseconds 1000)) ]})
    as (c' & _ & _ & H & _).
  - apply (frozen_clock_at (mkMilliseconds 2000)). vm_compute. congruence.
  - vm_compute. reflexivity.
  - vm_compute. congruence.
  - vm_compute. reflexivity.
  - exists c'. exact H.
Defined.

(** [TTL] against a clock that may move either way between its two readings.
    On a key with deadline [d] that is live at the first reading it succeeds,
    leaves the map alone, and answers the rounded-up seconds from the second
    reading to [d], zero once that reading is past [d]; on a key without a
    deadline and on a missing key it answers so without a second reading. *)
Theorem ttl_reading (key : bytes) (c c1 c2 : Clock) (m : CacheMap) (t1 t2 : Milliseconds) :
  now c = (Ok t1, c1) -> now c1 = (Ok t2, c2) ->
  run (KvStore.execute (CacheRead (RTtl key))) (cache_new c m) =
  Some (match m !! key with
        | None => (Ok (CoTtl KeyNotFound), cache_new c m)
        | Some (mkEntry _ None) => (Ok (CoTtl TtlNotFound), cache_new c1 m)
        | Some (mkEntry _ (Some d)) =>
            if decide (millis d <= millis t1) then
              (Ok (CoTtl KeyNotFound), cache_new c1 (delete key m))
            else
              (Ok (CoTtl (TtlSome (mkSeconds
                 (u64_div_ceil (millis d - millis t2) 1000)))), cache_new c2 m)
        end).
Proof.
  intros H1 H2. unfold KvStore.execute. rewrite run_bind, run_time_to_live.
  destruct (m !! key) as [[v [d|]]|]; rewrite ?H1; [|done..].
  unfold is_expired, deadline_passed, ms_ge. cbn [entry_expires_at].
  destruct (N.leb_spec (millis d) (millis t1)).
  - by rewrite decide_True by done.
  - rewrite decide_False by lia. by rewrite H2.
Qed.

Lemma ttl_reading_witness :
  let k := bstr "k" in
  let r := fun n : nat => match n with O => 5000000000 | _ => 4000000000 end%Z in
  let m := {[ k := mkEntry [] (Some (mkMilliseconds 5001)) ]} in
  run (KvStore.execute (CacheRead (RTtl k))) (cache_new (mkClock r 0) m) =
    Some (Ok (CoTtl (TtlSome (mkSeconds 2))), cache_new (mkClock r 2) m).
Proof.
  cbv zeta.
  set (r := fun n : nat => match n with O => 5000000000 | _ => 4000000000 end%Z).
  rewrite (ttl_reading (bstr "k") (mkClock r 0) (mkClock r 1) (mkClock r 2) _
             (mkMilliseconds 5000) (mkMilliseconds 4000)) by (vm_compute; reflexivity).
  rewrite lookup_singleton_eq. vm_compute. reflexivity.
Defined.
