(* ===== verification/Mpsc.v ===== *)
(** * Mpsc: [std::sync::mpsc]

    The queues of the process, by number.  A [Sender] is the number of its
    queue; cloning it copies the number.  A queue is closed once its [Receiver]
    has been dropped: every later send fails and hands the bytes back. *)

From S2P Require Import Prelude Effects.

Record Queue : Type := mkQueue {
  q_items : list bytes;
  q_open : bool
}.

Abbreviation Queues := (gmap N Queue).
Abbreviation Sender := N.

Record SendError : Type := mkSendError { unsent : bytes }.

(** The queue of [tx] still has its receiver. *)
Definition is_open (qs : Queues) (tx : Sender) : bool :=
  match qs !! tx with Some q => q_open q | None => false end.

Definition push (msg : bytes) (q : Queue) : Queue := mkQueue (q_items q ++ [msg]) (q_open q).

(** [Sender::send]. *)
Definition send (tx : Sender) (msg : bytes) : M Queues SendError unit := fun qs =>
  if is_open qs tx then (Ok (), alter (push msg) tx qs) else (Err (mkSendError msg), qs).

(** [mpsc::channel]: a queue under a number not in use. *)
Definition channel : Queues -> Sender * Queues := fun qs =>
  let tx := fresh (dom qs) in (tx, <[tx := mkQueue [] true]> qs).

(** Dropping the [Receiver]: what is queued is lost. *)
Definition drop_receiver (tx : Sender) : Queues -> Queues :=
  alter (fun _ => mkQueue [] false) tx.

(** The next buffer in the queue, if there is one: [Receiver::recv] waits until
    then. *)
Definition pop (tx : Sender) (qs : Queues) : option (bytes * Queues) :=
  match qs !! tx with
  | Some (mkQueue (msg :: rest) true) => Some (msg, <[tx := mkQueue rest true]> qs)
  | _ => None
  end.

(** ** Facts *)

(** [n] copies of [msg] at the end of a queue. *)
Definition push_n (n : nat) (msg : bytes) (q : Queue) : Queue :=
  mkQueue (q_items q ++ replicate n msg) (q_open q).

Lemma push_n_0 msg q : push_n 0 msg q = q.
Proof. destruct q as [items o]. unfold push_n. cbn. by rewrite app_nil_r. Qed.

Lemma push_n_S n msg q : push_n n msg (push msg q) = push_n (S n) msg q.
Proof. unfold push_n, push. cbn. by rewrite <- app_assoc. Qed.

Lemma is_open_alter_push qs msg tx tx' : is_open (alter (push msg) tx qs) tx' = is_open qs tx'.
Proof.
  unfold is_open. rewrite lookup_alter. case_decide as H; [subst|done].
  by destruct (qs !! tx').
Qed.

Lemma channel_open qs : is_open (channel qs).2 (channel qs).1 = true.
Proof. unfold channel, is_open. cbn. by rewrite lookup_insert_eq. Qed.

Lemma channel_fresh qs : qs !! (channel qs).1 = None.
Proof. unfold channel. cbn. apply not_elem_of_dom, is_fresh. Qed.
