(* ===== verification/Channels.v ===== *)
(** * Channels: [domain/channels.rs]

    The pub/sub registry: which session ids are subscribed to which channel, and
    the mpsc sender of each, behind one mutex.  [HashMap::retain] visits the
    subscribers of a channel in an order of its own, a parameter of [publish]. *)

From S2P Require Import Prelude Effects RustStd Mpsc.

Local Open Scope N_scope.

(** ** Data *)

Record Subscriber : Type := mkSubscriber {
  sub_id : N;
  sub_sender : Sender
}.

(** Session id to sender. *)
Abbreviation Subscribers := (gmap N Sender).
(** Channel name to subscribers. *)
Abbreviation Registry := (gmap bytes Subscribers).

Inductive ChannelsError : Type := ChannelsMutexPoisoned.

(** What the registry runs on: the queues of the process and the shared map. *)
Record ChannelsState : Type := mkChannelsState {
  cn_queues : Queues;
  cn_channels : Mutex Registry
}.

Definition queuesL : Lens ChannelsState Queues :=
  mkLens cn_queues (fun q s => mkChannelsState q (cn_channels s))
    (fun _ _ => eq_refl) (fun s => match s with mkChannelsState _ _ => eq_refl end)
    (fun _ _ _ => eq_refl).
Definition registryL : Lens ChannelsState (Mutex Registry) :=
  mkLens cn_channels (fun m s => mkChannelsState (cn_queues s) m)
    (fun _ _ => eq_refl) (fun s => match s with mkChannelsState _ _ => eq_refl end)
    (fun _ _ _ => eq_refl).

(** [Channels::new], over the queues there are. *)
Definition channels_new (qs : Queues) : ChannelsState := mkChannelsState qs (mutex_new ∅).

(** ** Operations *)

Module Channels.

Abbreviation ChP A := (prog ChannelsState ChannelsError A).

Definition with_lock {A} (body : M ChannelsState ChannelsError A) : ChP A :=
  locked registryL ChannelsMutexPoisoned body.

Definition subscribe (channel_id : bytes) (subscriber : Subscriber) : ChP unit :=
  with_lock (
    guard ← guard_get registryL;
    let subs := default ∅ (guard !! channel_id) in
    guard_put registryL
      (<[channel_id := <[sub_id subscriber := sub_sender subscriber]> subs]> guard)).

Definition unsubscribe (channel_id : bytes) (subscriber_id : N) : ChP unit :=
  with_lock (
    guard ← guard_get registryL;
    match guard !! channel_id with
    | Some subs =>
        let subs := delete subscriber_id subs in
        if decide (subs = ∅) then guard_put registryL (delete channel_id guard)
        else guard_put registryL (<[channel_id := subs]> guard)
    | None => mret ()
    end).

(** The closure of [retain] on each subscriber in turn: those the send reached
    stay and are counted, the others are removed. *)
Fixpoint retain_sent (message : bytes) (order : list (N * Sender)) (subs : Subscribers)
    (sent_count : N) (qs : Queues) : Subscribers * N * Queues :=
  match order with
  | [] => (subs, sent_count, qs)
  | (id, sender) :: order' =>
      match send sender message qs with
      | (Ok _, qs') =>
          retain_sent message order' subs (u32_saturating_add sent_count 1) qs'
      | (Err _, qs') => retain_sent message order' (delete id subs) sent_count qs'
      end
  end.

Section publish.
Context (order : Subscribers -> list (N * Sender)).

Definition publish (message channel_id : bytes) : ChP N :=
  with_lock (
    guard ← guard_get registryL;
    match guard !! channel_id with
    | Some subs =>
        qs ← (fun s => (Ok (cn_queues s), s));
        let '(subs', sent_count, qs') := retain_sent message (order subs) subs 0 qs in
        m_zoom queuesL (fun _ => (Ok (), qs'));;
        guard_put registryL (<[channel_id := subs']> guard);;
        mret sent_count
    | None => mret 0
    end).
End publish.
End Channels.

(** ** What each operation does, run alone *)

(** The state with an available lock. *)
Definition channels_at (qs : Queues) (reg : Registry) : ChannelsState :=
  mkChannelsState qs (mutex_new reg).

Lemma run_channels_lock {A} (body : M ChannelsState ChannelsError A) qs reg :
  run (Channels.with_lock body) (channels_at qs reg) = Some (body (channels_at qs reg)).
Proof. by apply run_locked. Qed.

Lemma run_subscribe ch sub qs reg :
  run (Channels.subscribe ch sub) (channels_at qs reg) =
  Some (Ok (), channels_at qs
    (<[ch := <[sub_id sub := sub_sender sub]> (default ∅ (reg !! ch))]> reg)).
Proof. done. Qed.

(** The registry without subscriber [id] in channel [ch]. *)
Definition leave (ch : bytes) (id : N) (reg : Registry) : Registry :=
  match reg !! ch with
  | Some subs =>
      if decide (delete id subs = ∅) then delete ch reg else <[ch := delete id subs]> reg
  | None => reg
  end.

Lemma run_unsubscribe ch id qs reg :
  run (Channels.unsubscribe ch id) (channels_at qs reg) =
  Some (Ok (), channels_at qs (leave ch id reg)).
Proof.
  unfold Channels.unsubscribe, leave. rewrite run_channels_lock. m_cbn.
  destruct (reg !! ch) as [subs|]; [|done]. by case_decide.
Qed.

(** ** Fan-out *)

(** The subscribers whose queue still has its receiver. *)
Definition open_subs (qs : Queues) (subs : Subscribers) : Subscribers :=
  filter (fun p => is_open qs p.2) subs.

(** How many of the senders listed reach queue [q]. *)
Definition reaching (qs : Queues) (q : N) (order : list (N * Sender)) : nat :=
  length (filter (fun p => p.2 = q /\ is_open qs p.2) order).

Lemma open_subs_lookup qs subs id :
  open_subs qs subs !! id = match subs !! id with
                            | Some tx => if is_open qs tx then Some tx else None
                            | None => None
                            end.
Proof.
  unfold open_subs. rewrite map_lookup_filter. destruct (subs !! id) as [tx|]; [|done].
  cbn [mbind option_bind]. destruct (is_open qs tx) eqn:Ho.
  - rewrite option_guard_True; [done|]. cbn. by rewrite Ho.
  - rewrite option_guard_False; [done|]. cbn. rewrite Ho. tauto.
Qed.

Lemma open_push qs msg tx (l : list (N * Sender)) :
  filter (fun p => is_open (alter (push msg) tx qs) p.2) l = filter (fun p => is_open qs p.2) l.
Proof. apply list_filter_iff. intros [? ?]. cbn. by rewrite is_open_alter_push. Qed.

Lemma reaching_push qs msg tx q order :
  reaching (alter (push msg) tx qs) q order = reaching qs q order.
Proof.
  unfold reaching. f_equal. apply list_filter_iff. intros [? ?]. cbn.
  by rewrite is_open_alter_push.
Qed.

Lemma retain_sent_counts msg order subs n qs :
  n <= u32_max ->
  (Channels.retain_sent msg order subs n qs).1.2 =
  N.min (n + N.of_nat (length (filter (fun p => is_open qs p.2) order))) u32_max.
Proof.
  revert subs n qs. induction order as [|[id tx] order IH]; intros subs n qs Hn; cbn [Channels.retain_sent].
  - rewrite filter_nil. cbn. lia.
  - unfold send. rewrite filter_cons. cbn [snd]. destruct (is_open qs tx) eqn:Ho.
    + rewrite IH by (unfold u32_saturating_add; lia). rewrite open_push.
      rewrite decide_True by done. cbn [length]. unfold u32_saturating_add. lia.
    + rewrite decide_False by tauto. by apply IH.
Qed.

Lemma retain_sent_queues msg order subs n qs q :
  (Channels.retain_sent msg order subs n qs).2 !! q =
  push_n (reaching qs q order) msg <$> qs !! q.
Proof.
  revert subs n qs. induction order as [|[id tx] order IH]; intros subs n qs; cbn [Channels.retain_sent].
  - cbn. destruct (qs !! q); cbn; by rewrite ?push_n_0.
  - unfold send. destruct (is_open qs tx) eqn:Ho.
    + rewrite IH, reaching_push, lookup_alter. unfold reaching at 2. rewrite filter_cons.
      cbn [snd]. destruct (decide (tx = q)) as [->|Hne].
      * rewrite decide_True by (split; [done|by rewrite Ho]). cbn [length].
        unfold reaching. destruct (qs !! q); cbn [fmap option_fmap option_map]; [|done].
        by rewrite push_n_S.
      * by rewrite decide_False by tauto.
    + rewrite IH. unfold reaching. rewrite filter_cons. cbn [snd].
      rewrite decide_False; [done|]. rewrite Ho. tauto.
Qed.

(** Whether the subscribers listed before leave [id] in place. *)
Lemma retain_sent_subs msg order subs n qs id :
  (Channels.retain_sent msg order subs n qs).1.1 !! id =
  if decide (Exists (fun p => p.1 = id /\ is_open qs p.2 = false) order) then None
  else subs !! id.
Proof.
  revert subs n qs. induction order as [|[id' tx] order IH]; intros subs n qs;
    cbn [Channels.retain_sent].
  - rewrite decide_False; [done|by inversion 1].
  - unfold send. destruct (is_open qs tx) eqn:Ho; rewrite IH.
    + apply decide_ext. rewrite Exists_cons, !Exists_exists. cbn [fst snd].
      setoid_rewrite is_open_alter_push. rewrite Ho. naive_solver.
    + destruct (decide (Exists _ order)) as [He|He].
      * rewrite decide_True; [done|]. by apply Exists_cons; right.
      * destruct (decide (id = id')) as [->|Hne].
        { rewrite lookup_delete_eq, decide_True; [done|]. by apply Exists_cons; left. }
        rewrite lookup_delete_ne, decide_False; [done| |congruence].
        rewrite Exists_cons. cbn. intros [[? _]|?]; [congruence|done].
Qed.

Lemma retain_sent_open msg order subs n qs :
  order ≡ₚ map_to_list subs ->
  (Channels.retain_sent msg order subs n qs).1.1 = open_subs qs subs.
Proof.
  intros Hp. apply map_eq. intros id. rewrite retain_sent_subs, open_subs_lookup.
  assert (Hin : forall tx, (id, tx) ∈ order <-> subs !! id = Some tx).
  { intros tx. rewrite Hp. apply elem_of_map_to_list. }
  case_decide as He.
  - apply Exists_exists in He as ([i tx] & Hi & <- & Ho). cbn in *.
    apply Hin in Hi as ->. by rewrite Ho.
  - destruct (subs !! id) as [tx|] eqn:Hs; [|done].
    destruct (is_open qs tx) eqn:Ho; [done|]. destruct He.
    apply Exists_exists. exists (id, tx). split; [by apply Hin|done].
Qed.

Lemma open_subs_size qs subs order :
  order ≡ₚ map_to_list subs ->
  length (filter (fun p => is_open qs p.2) order) = size (open_subs qs subs).
Proof.
  intros ->. unfold open_subs. rewrite map_filter_alt.
  rewrite map_size_list_to_map; [done|]. apply NoDup_fmap_fst.
  - intros id tx tx'. rewrite !list_elem_of_filter, !elem_of_map_to_list. naive_solver.
  - apply NoDup_filter, NoDup_map_to_list.
Qed.

Lemma run_publish order msg ch qs reg :
  (forall subs, order subs ≡ₚ map_to_list subs) ->
  exists qs',
    run (Channels.publish order msg ch) (channels_at qs reg) =
    Some (match reg !! ch with
          | Some subs =>
              (Ok (N.min (N.of_nat (size (open_subs qs subs))) u32_max),
               channels_at qs' (<[ch := open_subs qs subs]> reg))
          | None => (Ok 0, channels_at qs' reg)
          end) /\
    forall q, qs' !! q =
      push_n (match reg !! ch with
              | Some subs => reaching qs q (map_to_list subs)
              | None => 0
              end) msg <$> qs !! q.
Proof.
  intros Hp. unfold Channels.publish. rewrite run_channels_lock.
  destruct (reg !! ch) as [subs|] eqn:Hs.
  - exists (Channels.retain_sent msg (order subs) subs 0 qs).2. m_cbn. rewrite Hs.
    pose proof (retain_sent_counts msg (order subs) subs 0 qs ltac:(done)) as Hc.
    pose proof (retain_sent_open msg (order subs) subs 0 qs (Hp subs)) as Ho.
    pose proof (retain_sent_queues msg (order subs) subs 0 qs) as Hq.
    rewrite open_subs_size with (subs := subs) in Hc by done.
    destruct (Channels.retain_sent _ _ _ _ _) as [[subs' n] qs'] eqn:Hr.
    cbn in Hc, Ho, Hq |- *. subst subs' n. split; [done|].
    intros q. rewrite Hq. unfold reaching. by rewrite (Hp subs).
  - exists qs. m_cbn. rewrite Hs. split; [done|]. intros q.
    destruct (qs !! q); cbn; by rewrite ?push_n_0.
Qed.

(** ** The registry holds live channels *)

(** No channel without subscribers. *)
Definition no_empty (reg : Registry) : Prop := forall ch subs, reg !! ch = Some subs -> subs <> ∅.

(** Session [id] is subscribed to [ch]. *)
Definition subscribed (reg : Registry) (ch : bytes) (id : N) : option Sender :=
  reg !! ch ≫= (fun subs => subs !! id).

Lemma subscribed_insert reg ch ch' id id' tx :
  subscribed (<[ch := <[id := tx]> (default ∅ (reg !! ch))]> reg) ch' id' =
  if decide (ch' = ch /\ id' = id) then Some tx else subscribed reg ch' id'.
Proof.
  unfold subscribed. destruct (decide (ch' = ch)) as [->|Hne].
  - rewrite lookup_insert_eq. cbn. destruct (decide (id' = id)) as [->|Hi].
    + by rewrite lookup_insert_eq, decide_True.
    + rewrite lookup_insert_ne, decide_False by naive_solver.
      by destruct (reg !! ch).
  - rewrite lookup_insert_ne, decide_False by naive_solver. done.
Qed.

Lemma subscribed_leave reg ch ch' id id' :
  subscribed (leave ch id reg) ch' id' =
  if decide (ch' = ch /\ id' = id) then None else subscribed reg ch' id'.
Proof.
  unfold subscribed, leave. destruct (reg !! ch) as [subs|] eqn:Hs.
  - destruct (decide (ch' = ch)) as [->|Hne].
    + rewrite Hs. cbn. case_decide as He; rewrite ?lookup_delete_eq, ?lookup_insert_eq; cbn.
      * case_decide as Hi; [done|]. apply (f_equal (lookup id')) in He.
        rewrite lookup_empty, lookup_delete_ne in He by naive_solver. done.
      * case_decide as Hi; [destruct Hi as [_ ->]; by rewrite lookup_delete_eq|].
        by rewrite lookup_delete_ne by naive_solver.
    + rewrite (decide_False (P := ch' = ch /\ id' = id)) by naive_solver.
      case_decide; by rewrite ?lookup_delete_ne, ?lookup_insert_ne by done.
  - case_decide as Hi; [destruct Hi as [-> _]; by rewrite Hs|done].
Qed.

Lemma leave_no_empty ch id reg : no_empty reg -> no_empty (leave ch id reg).
Proof.
  unfold leave, no_empty. intros Hn ch' subs'. destruct (reg !! ch) as [subs|] eqn:Hs; [|by eauto].
  case_decide as He.
  - intros [_ H]%lookup_delete_Some. by eapply Hn.
  - intros [[<- <-]|[_ H]]%lookup_insert_Some; [done|by eapply Hn].
Qed.

Lemma subscribe_no_empty ch id tx reg :
  no_empty reg -> no_empty (<[ch := <[id := tx]> (default ∅ (reg !! ch))]> reg).
Proof.
  intros Hn ch' subs' [[<- <-]|[_ H]]%lookup_insert_Some; [apply insert_non_empty|by eapply Hn].
Qed.

(** ** Properties *)

(** C18: [publish] delivers.  In whatever order the subscribers are visited, every
    queue gets the message once per subscriber of the channel it belongs to whose
    receiver is alive, at the end and verbatim, and no other queue changes; the
    count returned is the number of such subscribers (clamped to [u32::MAX]); the
    others are pruned from the channel, and no other channel is touched.  A channel
    all of whose receivers are gone stays in the map, with no subscriber. *)
Theorem publish_delivers (order : Subscribers -> list (N * Sender)) (msg ch : bytes)
    (qs : Queues) (reg : Registry) (subs : Subscribers) :
  (forall subs, order subs ≡ₚ map_to_list subs) -> reg !! ch = Some subs ->
  exists qs' reg',
    run (Channels.publish order msg ch) (channels_at qs reg) =
      Some (Ok (N.min (N.of_nat (size (open_subs qs subs))) u32_max), channels_at qs' reg') /\
    (forall q, qs' !! q =
       push_n (size (filter (fun p => p.2 = q) (open_subs qs subs))) msg <$> qs !! q) /\
    (forall id, subscribed reg' ch id = open_subs qs subs !! id) /\
    (forall ch', ch' <> ch -> reg' !! ch' = reg !! ch') /\
    (open_subs qs subs = ∅ -> reg' !! ch = Some ∅).
Proof.
  intros Hp Hs. destruct (run_publish order msg ch qs reg Hp) as (qs' & Hr & Hq).
  rewrite Hs in Hr, Hq. exists qs', (<[ch := open_subs qs subs]> reg). split_and!; [done|..].
  - intros q. rewrite Hq. f_equal. f_equal. unfold reaching, open_subs.
    rewrite map_filter_filter, map_filter_alt, map_size_list_to_map.
    { f_equal. apply list_filter_iff. by intros [? ?]. }
    apply NoDup_fmap_fst; [|by apply NoDup_filter, NoDup_map_to_list].
    intros id tx tx'. rewrite !list_elem_of_filter, !elem_of_map_to_list. naive_solver.
  - intros id. unfold subscribed. by rewrite lookup_insert_eq.
  - intros ch' Hne. by rewrite lookup_insert_ne.
  - intros He. by rewrite lookup_insert_eq, He.
Qed.

Lemma publish_delivers_witness :
  let qs : Queues := {[ 1 := mkQueue [] true; 2 := mkQueue [] false; 3 := mkQueue [] true ]} in
  let reg : Registry := {[ bstr "foo" := {[ 1 := 1; 2 := 2 ]}; bstr "bar" := {[ 3 := 3 ]} ]} in
  exists qs' reg', run (Channels.publish map_to_list (bstr "hi") (bstr "foo")) (channels_at qs reg) =
      Some (Ok 1, channels_at qs' reg') /\
    qs' !! 1 = Some (mkQueue [bstr "hi"] true) /\ subscribed reg' (bstr "foo") 2 = None.
Proof.
  cbv zeta.
  destruct (publish_delivers map_to_list (bstr "hi") (bstr "foo")
      {[ 1 := mkQueue [] true; 2 := mkQueue [] false; 3 := mkQueue [] true ]}
      {[ bstr "foo" := {[ 1 := 1; 2 := 2 ]}; bstr "bar" := {[ 3 := 3 ]} ]} {[ 1 := 1; 2 := 2 ]})
    as (qs' & reg' & H & Hq & Hs & _).
  - reflexivity.
  - vm_compute. reflexivity.
  - exists qs', reg'. split; [|split].
    + rewrite H. vm_compute. reflexivity.
    + rewrite Hq. vm_compute. reflexivity.
    + rewrite Hs. vm_compute. reflexivity.
Defined.

(** C27: subscribing and unsubscribing.  [subscribe] registers the session's sender
    on the channel, replacing the one it had there, and changes nothing else;
    [unsubscribe] removes exactly that session from exactly that channel, and is a
    no-op when it is not there.  Both keep every channel of the map non-empty, and
    on such a map a session that was not subscribed and leaves again leaves the map
    as it found it. *)
Theorem subscribe_unsubscribe (ch : bytes) (id : N) (tx : Sender) (qs : Queues) (reg : Registry) :
  no_empty reg ->
  exists reg1 reg2,
    run (Channels.subscribe ch (mkSubscriber id tx)) (channels_at qs reg) =
      Some (Ok (), channels_at qs reg1) /\
    run (Channels.unsubscribe ch id) (channels_at qs reg) = Some (Ok (), channels_at qs reg2) /\
    (forall ch' id', subscribed reg1 ch' id' =
       if decide (ch' = ch /\ id' = id) then Some tx else subscribed reg ch' id') /\
    (forall ch' id', subscribed reg2 ch' id' =
       if decide (ch' = ch /\ id' = id) then None else subscribed reg ch' id') /\
    no_empty reg1 /\ no_empty reg2 /\
    (subscribed reg ch id = None -> reg2 = reg /\
       run (Channels.unsubscribe ch id) (channels_at qs reg1) = Some (Ok (), channels_at qs reg)).
Proof.
  intros Hn. do 2 eexists. split; [apply run_subscribe|]. split; [apply run_unsubscribe|].
  cbn [sub_id sub_sender].
  split_and!; [intros; apply subscribed_insert|intros; apply subscribed_leave|by apply subscribe_no_empty
              |by apply leave_no_empty|].
  intros Hs. unfold subscribed in Hs. rewrite run_unsubscribe. unfold leave.
  rewrite lookup_insert_eq. destruct (reg !! ch) as [subs|] eqn:Hc; cbn in Hs |- *.
  - rewrite !(delete_id subs id) by done. rewrite (delete_insert_id subs) by done.
    rewrite !decide_False by (by eapply Hn). by rewrite insert_insert_eq, insert_id.
  - split; [done|]. rewrite decide_True by (by rewrite delete_insert_eq, delete_empty).
    by rewrite delete_insert_id.
Qed.

Lemma subscribe_unsubscribe_witness :
  let reg : Registry := {[ bstr "foo" := {[ 1 := 7 ]} ]} in
  exists reg1, run (Channels.subscribe (bstr "bar") (mkSubscriber 1 7)) (channels_at ∅ reg) =
      Some (Ok (), channels_at ∅ reg1) /\
    run (Channels.unsubscribe (bstr "bar") 1) (channels_at ∅ reg1) =
      Some (Ok (), channels_at ∅ reg).
Proof.
  cbv zeta.
  destruct (subscribe_unsubscribe (bstr "bar") 1 7 ∅ {[ bstr "foo" := {[ 1 := 7 ]} ]})
    as (reg1 & reg2 & H1 & _ & _ & _ & _ & _ & H).
  - intros ch subs Hl. apply lookup_singleton_Some in Hl as [_ <-].
    vm_compute. congruence.
  - exists reg1. split; [exact H1|]. apply H. vm_compute. reflexivity.
Defined.
