(* ===== verification/Ports.v ===== *)
(** * Ports: [domain/ports.rs]

    The two trait boundaries: [CacheRepository], which the executor calls and the
    persister implements, and [Execute], which the session calls and the executor
    implements.  Each is a class over the state behind the handle; what the
    executor's theorems use of a repository is the class [RepositoryLaws]. *)

From S2P Require Import Prelude Effects RustStd Command Cache Channels.

(** A [Box<dyn Error>]: some error, of a type the holder cannot name. *)
Inductive BoxError : Type :=
| Boxed {E : Type} (e : E).

Inductive RepositoryError : Type := RepoGeneric (e : BoxError).

Inductive ExecuteError : Type :=
| ExCache (e : CacheError)
| ExRepository (e : RepositoryError)
| ExChannels (e : ChannelsError)
| ExGeneric (e : BoxError).

(** [append] runs on the repository's own state, [snapshot] on the cache's too. *)
Class CacheRepository (R : Type) : Type := {
  append : WriteCommand -> prog R RepositoryError unit;
  snapshot : prog (CacheState * R) RepositoryError unit
}.

Class Execute (S : Type) : Type := {
  execute : CacheCommand -> prog S ExecuteError CommandOutcome;
  execute_logged : CacheCommand -> prog S ExecuteError CommandOutcome
}.

(** The contract of a repository: [logs r l] when a restart on [r] would replay
    exactly the commands [l].  [append] always comes back; when it succeeds the
    command is the last one a restart replays. *)
Class RepositoryLaws (R : Type) `{CacheRepository R} : Type := {
  logs : R -> list WriteCommand -> Prop;
  append_returns r l wc :
    logs r l -> loggable wc -> exists res, run (append wc) r = Some res;
  append_logs r l wc r' :
    logs r l -> loggable wc -> run (append wc) r = Some (Ok (), r') ->
    logs r' (l ++ [wc])
}.
