(* ===== verification/Executor.v ===== *)
(** * Executor: [domain/executor.rs]

    A command becomes an effect on the cache and, if it is a write, an entry of
    the log: the cache first, then [append], under two locks that are taken one
    after the other.  The executor is generic in the repository, and so are its
    theorems; [Recording] is the fake of [test_support.rs]. *)

From S2P Require Import Prelude Effects RustStd Time Command Cache CacheSpec Ports.

Local Open Scope N_scope.

(** ** The executor's state *)

Record Executor (R : Type) : Type := mkExecutor {
  ex_cache : CacheState;
  ex_repo : R
}.
Arguments mkExecutor {R} ex_cache ex_repo.
Arguments ex_cache {R} e.
Arguments ex_repo {R} e.

Definition cacheL {R} : Lens (Executor R) CacheState :=
  mkLens ex_cache (fun c s => mkExecutor c (ex_repo s))
    (fun _ _ => eq_refl) (fun s => match s with mkExecutor _ _ => eq_refl end)
    (fun _ _ _ => eq_refl).
Definition repoL {R} : Lens (Executor R) R :=
  mkLens ex_repo (fun r s => mkExecutor (ex_cache s) r)
    (fun _ _ => eq_refl) (fun s => match s with mkExecutor _ _ => eq_refl end)
    (fun _ _ _ => eq_refl).

(** ** [impl Execute for Executor] *)

Section executor.
Context {R : Type} `{CacheRepository R}.

Definition executor_execute (command : CacheCommand)
  : prog (Executor R) ExecuteError CommandOutcome :=
  outcome ← p_map_err ExCache (zoom cacheL (KvStore.execute command));
  mret outcome.

Definition executor_execute_logged (command : CacheCommand)
  : prog (Executor R) ExecuteError CommandOutcome :=
  outcome ← executor_execute command;
  (match command with
   | CacheWrite wc => p_map_err ExRepository (zoom repoL (append wc))
   | CacheRead _ => mret ()
   end);;
  mret outcome.

#[export] Instance Executor_Execute : Execute (Executor R) := {
  execute := executor_execute;
  execute_logged := executor_execute_logged
}.

(** *** Run alone *)

Lemma run_execute command s r :
  run (executor_execute command) (mkExecutor s r) =
  match run (KvStore.execute command) s with
  | Some (res, s') => Some (map_err ExCache res, mkExecutor s' r)
  | None => None
  end.
Proof.
  unfold executor_execute. rewrite run_bind, run_map_err, run_zoom. cbn [view put cacheL ex_cache].
  destruct (run (KvStore.execute command) s) as [[[out|e] s']|]; done.
Qed.

Lemma run_execute_logged command s r :
  run (executor_execute_logged command) (mkExecutor s r) =
  match run (KvStore.execute command) s with
  | Some (Ok out, s') =>
      match command with
      | CacheWrite wc =>
          match run (append wc) r with
          | Some (Ok _, r') => Some (Ok out, mkExecutor s' r')
          | Some (Err e, r') => Some (Err (ExRepository e), mkExecutor s' r')
          | None => None
          end
      | CacheRead _ => Some (Ok out, mkExecutor s' r)
      end
  | Some (Err e, s') => Some (Err (ExCache e), mkExecutor s' r)
  | None => None
  end.
Proof.
  unfold executor_execute_logged. rewrite run_bind, run_execute.
  destruct (run (KvStore.execute command) s) as [[[out|e] s']|]; [|done..].
  cbn [map_err]. rewrite run_bind. destruct command as [rc|wc]; [done|].
  rewrite run_map_err, run_zoom. cbn [view put repoL ex_repo].
  by destruct (run (append wc) r) as [[[[]|e] r']|].
Qed.
End executor.

(** ** A client's commands, one after the other

    The session ends at the first error, so the commands of one client are run up
    to it. *)

(** On the cache alone. *)
Fixpoint cache_all (cmds : list CacheCommand) (c : CacheState)
  : option (list CommandOutcome * option CacheError * CacheState) :=
  match cmds with
  | [] => Some ([], None, c)
  | cmd :: cmds' =>
      match run (KvStore.execute cmd) c with
      | Some (Ok out, c') =>
          '(outs, err, c'') ← cache_all cmds' c';
          Some (out :: outs, err, c'')
      | Some (Err e, c') => Some ([], Some e, c')
      | None => None
      end
  end.

(** Through [execute_logged]. *)
Fixpoint execute_all {S} `{Execute S} (cmds : list CacheCommand) (s : S)
  : option (list CommandOutcome * option ExecuteError * S) :=
  match cmds with
  | [] => Some ([], None, s)
  | cmd :: cmds' =>
      match run (execute_logged cmd) s with
      | Some (Ok out, s') =>
          '(outs, err, s'') ← execute_all cmds' s';
          Some (out :: outs, err, s'')
      | Some (Err e, s') => Some ([], Some e, s')
      | None => None
      end
  end.

(** The write commands of a list, in order. *)
Definition writes (cmds : list CacheCommand) : list WriteCommand :=
  omap (fun cmd => match cmd with CacheWrite wc => Some wc | CacheRead _ => None end) cmds.

Definition CacheCommand_loggable (cmd : CacheCommand) : Prop :=
  match cmd with CacheWrite wc => loggable wc | CacheRead _ => True end.

(** ** [RecordingRepo]: [test_support.rs] *)

Module Recording.
Record RecordingRepo : Type := mkRecordingRepo { appended : Mutex (list WriteCommand) }.

Definition appendedL : Lens RecordingRepo (Mutex (list WriteCommand)) :=
  mkLens appended (fun m _ => mkRecordingRepo m)
    (fun _ _ => eq_refl) (fun s => match s with mkRecordingRepo _ => eq_refl end)
    (fun _ _ _ => eq_refl).

(** A poisoned lock would panic ([unwrap]): the section is then not possible. *)
Definition append (command : WriteCommand) : prog RecordingRepo RepositoryError unit :=
  Step (fun s =>
    if held (appended s) || poisoned (appended s) then None
    else Some (Done (Ok ()),
               mkRecordingRepo (set_guarded (guarded (appended s) ++ [command]) (appended s)))).

Definition snapshot : prog (CacheState * RecordingRepo) RepositoryError unit := mret ().

#[global] Instance Recording_Repository : CacheRepository RecordingRepo := {
  Ports.append := append;
  Ports.snapshot := snapshot
}.

Definition recorded (r : RecordingRepo) (l : list WriteCommand) : Prop :=
  appended r = mutex_new l.

#[global] Program Instance Recording_Laws : RepositoryLaws RecordingRepo := {
  logs := recorded
}.
Next Obligation. intros r l wc Hr _. red in Hr. cbn. rewrite !Hr. by eexists. Qed.
Next Obligation.
  intros r l wc r' Hr _. red in Hr |- *. cbn. rewrite !Hr. cbn. by intros [= <-].
Qed.
End Recording.

(** ** Properties *)

(** What the state of cache and log is when the commands stopped. *)
Definition stopped {R} `{RepositoryLaws R} (cmds : list CacheCommand) (l : list WriteCommand)
    (c : CacheState) (outs : list CommandOutcome) (err : option ExecuteError) (s' : Executor R)
  : Prop :=
  match err with
  | None =>
      cache_all cmds c = Some (outs, None, ex_cache s') /\
      length outs = length cmds /\ logs (ex_repo s') (l ++ writes cmds)
  | Some (ExCache e) =>
      cache_all cmds c = Some (outs, Some e, ex_cache s') /\
      logs (ex_repo s') (l ++ writes (take (length outs) cmds))
  | Some (ExRepository e) =>
      exists out wc r0, cmds !! length outs = Some (CacheWrite wc) /\
        cache_all (take (S (length outs)) cmds) c = Some (outs ++ [out], None, ex_cache s') /\
        logs r0 (l ++ writes (take (length outs) cmds)) /\
        run (append wc) r0 = Some (Err e, ex_repo s')
  | _ => False
  end.

(** C13: the log follows the cache, whatever repository is plugged in.  Commands
    run through [execute_logged] up to the first error always come to an end; the
    cache and the outcomes are those of the cache alone; reads log nothing, and
    as long as no append fails the log grows by exactly the writes that were
    answered, in order.  A command the cache refuses is not logged.  When it is the
    log that fails, the cache has already applied that one write, and the repository
    the append failed on logged exactly the writes answered before; what a failed
    append leaves in the log is the repository's own business (the file may have a
    part of the command: Hazards.v). *)
Theorem log_follows_cache {R} `{RepositoryLaws R} (cmds : list CacheCommand)
    (c : Clock) (m : CacheMap) (r : R) (l : list WriteCommand) :
  logs r l -> Forall CacheCommand_loggable cmds ->
  exists outs err s', execute_all cmds (mkExecutor (cache_new c m) r) = Some (outs, err, s') /\
    stopped cmds l (cache_new c m) outs err s'.
Proof.
  intros Hl Hwf. revert c m r l Hl. induction Hwf as [|cmd cmds Hcmd Hwf IH]; intros c m r l Hl.
  - do 3 eexists. split; [done|]. cbn. by rewrite app_nil_r.
  - destruct (run_execute_frame cmd c m) as (res & c1 & m1 & Hrun & _).
    cbn [execute_all]. cbn [execute_logged Executor_Execute]. rewrite run_execute_logged, Hrun.
    destruct res as [out|e].
    2:{ do 3 eexists. split; [done|]. cbn. rewrite Hrun. by rewrite app_nil_r. }
    assert (Hstep : forall r1, logs r1 (l ++ writes [cmd]) ->
      exists outs err s', execute_all cmds (mkExecutor (cache_new c1 m1) r1) = Some (outs, err, s') /\
        stopped (cmd :: cmds) l (cache_new c m) (out :: outs) err s').
    { intros r1 Hl1. destruct (IH c1 m1 r1 _ Hl1) as (outs & err & s' & He & Hs).
      exists outs, err, s'. split; [done|]. unfold stopped in *.
      destruct err as [[e|e|e|e]|]; cbn [cache_all length take lookup list_lookup] in *;
        rewrite ?Hrun; try done.
      - destruct Hs as [-> Hs]. by rewrite <- app_assoc in Hs; destruct cmd.
      - destruct Hs as (o & wc & r0 & ? & -> & Hr0 & Ha). exists o, wc, r0.
        rewrite <- app_assoc in Hr0. by destruct cmd.
      - destruct Hs as (-> & -> & Hs). by rewrite <- app_assoc in Hs; destruct cmd. }
    destruct cmd as [rc|wc].
    + destruct (Hstep r) as (outs & err & s' & -> & ?).
      { cbn. by rewrite app_nil_r. }
      by do 3 eexists.
    + destruct (append_returns r l wc Hl Hcmd) as [[[[]|e] r1] Ha]; rewrite Ha.
      * destruct (Hstep r1) as (outs & err & s' & -> & ?); [by eapply append_logs|].
        by do 3 eexists.
      * do 3 eexists. split; [done|]. exists out, wc, r. split; [done|].
        cbn [length take cache_all app]. rewrite Hrun. split; [done|]. split; [|done].
        cbn. by rewrite app_nil_r.
Qed.

Lemma log_follows_cache_witness :
  let k := bstr "k" in
  let set := CacheWrite (WSet k (bstr "v") None) in
  let cmds := [set; CacheRead (RGet k); CacheWrite (WPersist k)] in
  exists s', execute_all cmds
      (mkExecutor (cache_new (clock_at 5) ∅) (Recording.mkRecordingRepo (mutex_new []))) =
      Some ([CoOk; CoValue (Some (bstr "v")); CoBool false], None, s') /\
    logs (ex_repo s') [WSet k (bstr "v") None; WPersist k].
Proof.
  cbv zeta.
  destruct (log_follows_cache (R := Recording.RecordingRepo)
      [CacheWrite (WSet (bstr "k") (bstr "v") None); CacheRead (RGet (bstr "k"));
       CacheWrite (WPersist (bstr "k"))]
      (clock_at 5) ∅ (Recording.mkRecordingRepo (mutex_new [])) []) as (outs & err & s' & H & Hs).
  - reflexivity.
  - repeat constructor; vm_compute; congruence.
  - assert (Hc := f_equal (fmap fst) H). vm_compute in Hc. injection Hc as <- <-.
    exists s'. split; [exact H|]. exact (proj2 (proj2 Hs)).
Defined.
