(* ===== verification/Files.v ===== *)
(** * Files: [std::fs] and [std::io::BufWriter]

    The files of the process, by path, and the faults it will meet: operation
    number [n] of the process on the file system fails when [fs_faults n] says
    so, and a write that fails has put some of its bytes in the file first.
    Directories are not recorded; operations on them succeed or fail. *)

From S2P Require Import Prelude Effects RustStd.

(** ** The file system *)

Record Fault : Type := mkFault { fault_error : IoError; fault_written : nat }.

Record Fs : Type := mkFs {
  fs_files : gmap bytes bytes;
  fs_faults : nat -> option Fault;
  fs_ops : nat
}.

Definition set_files (files : gmap bytes bytes) (fs : Fs) : Fs :=
  mkFs files (fs_faults fs) (fs_ops fs).

(** One operation: [f] on the files, or the fault, after [g] says what a fault
    that comes after so many bytes leaves behind. *)
Definition fs_op {A} (f : gmap bytes bytes -> result IoError A * gmap bytes bytes)
    (g : nat -> gmap bytes bytes -> gmap bytes bytes) : M Fs IoError A := fun fs =>
  match fs_faults fs (fs_ops fs) with
  | Some fault =>
      (Err (fault_error fault),
       mkFs (g (fault_written fault) (fs_files fs)) (fs_faults fs) (S (fs_ops fs)))
  | None =>
      let '(r, files) := f (fs_files fs) in (r, mkFs files (fs_faults fs) (S (fs_ops fs)))
  end.

(** An operation that leaves the files as they are, or fails without effect. *)
Definition fs_query {A} (f : gmap bytes bytes -> result IoError A) : M Fs IoError A :=
  fs_op (fun files => (f files, files)) (fun _ files => files).
Definition fs_update (f : gmap bytes bytes -> gmap bytes bytes) : M Fs IoError unit :=
  fs_op (fun files => (Ok (), f files)) (fun _ files => files).

Definition NotFound : IoError := mkIoError OtherIo.

(** [File::open] and [read_to_end]. *)
Definition file_open (path : bytes) : M Fs IoError unit :=
  fs_query (fun files => match files !! path with Some _ => Ok () | None => Err NotFound end).
Definition file_read_to_end (path : bytes) : M Fs IoError bytes :=
  fs_query (fun files => Ok (default [] (files !! path))).

(** [OpenOptions]: create and append; create, write and truncate. *)
Definition file_open_append (path : bytes) : M Fs IoError unit :=
  fs_update (fun files => <[path := default [] (files !! path)]> files).
Definition file_open_truncate (path : bytes) : M Fs IoError unit :=
  fs_update (fun files => <[path := []]> files).

(** [write_all] at the end of a file: nothing to write is nothing done; a fault
    leaves some, not all, of the bytes written. *)
Definition file_write_all (path b : bytes) : M Fs IoError unit :=
  if decide (b = []) then mret ()
  else fs_op (fun files => (Ok (), alter (fun c => c ++ b) path files))
             (fun n files => alter (fun c => c ++ take (Nat.min n (length b - 1)) b) path files).

(** [set_len(0)]. *)
Definition file_clear (path : bytes) : M Fs IoError unit :=
  fs_update (alter (fun _ => []) path).

Definition sync_all : M Fs IoError unit := fs_update (fun files => files).
Definition dir_open : M Fs IoError unit := fs_update (fun files => files).
Definition create_dir_all : M Fs IoError unit := fs_update (fun files => files).

(** [fs::rename]: atomic, replaces the target. *)
Definition rename (from to : bytes) : M Fs IoError unit :=
  fs_op (fun files => match files !! from with
                      | Some c => (Ok (), <[to := c]> (delete from files))
                      | None => (Err NotFound, files)
                      end)
        (fun _ files => files).

(** ** Paths *)

(** The last place [sep] occurs: what is before and what is after it. *)
Fixpoint split_last (sep : byte) (s : bytes) : option (bytes * bytes) :=
  match s with
  | [] => None
  | b :: s' =>
      match split_last sep s' with
      | Some (before, after) => Some (b :: before, after)
      | None => if decide (b = sep) then Some ([], s') else None
      end
  end.

(** [Path::with_extension] and [Path::parent], on a path that ends in a file
    name. *)
Definition with_extension (path ext : bytes) : bytes :=
  let '(dir, name) := match split_last x2f path with
                      | Some (dir, name) => (dir ++ [x2f], name)
                      | None => ([], path)
                      end in
  let stem := match split_last x2e name with
              | Some ([], _) | None => name
              | Some (stem, _) => stem
              end in
  dir ++ stem ++ [x2e] ++ ext.

Definition parent (path : bytes) : bytes :=
  match split_last x2f path with Some (dir, _) => dir | None => [] end.

(** ** [BufWriter<File>] *)

Definition buf_capacity : nat := N.to_nat 8192.

(** A [BufWriter] over a file opened for appending: what is buffered, the path,
    and the file system it writes to. *)
Record FileWriter : Type := mkFileWriter {
  fw_fs : Fs;
  fw_path : bytes;
  fw_buf : bytes
}.

(** [write_all] on the file itself. *)
Definition fw_direct (b : bytes) : M FileWriter IoError unit := fun w =>
  let '(r, fs) := file_write_all (fw_path w) b (fw_fs w) in
  (r, mkFileWriter fs (fw_path w) (fw_buf w)).

(** [flush_buf]: what was written leaves the buffer, even when the rest fails. *)
Definition flush_buf : M FileWriter IoError unit := fun w =>
  match file_write_all (fw_path w) (fw_buf w) (fw_fs w) with
  | (Ok _, fs) => (Ok (), mkFileWriter fs (fw_path w) [])
  | (Err e, fs) =>
      let written := match fs_faults (fw_fs w) (fs_ops (fw_fs w)) with
                     | Some fault => Nat.min (fault_written fault) (length (fw_buf w) - 1)
                     | None => 0
                     end in
      (Err e, mkFileWriter fs (fw_path w) (drop written (fw_buf w)))
  end.

Definition fw_buffer (b : bytes) : M FileWriter IoError unit := fun w =>
  (Ok (), mkFileWriter (fw_fs w) (fw_path w) (fw_buf w ++ b)).

(** [BufWriter::write_all] and, when it does not fit, [write_all_cold]. *)
Definition buf_write_all (b : bytes) : M FileWriter IoError unit := fun w =>
  let spare := buf_capacity - length (fw_buf w) in
  if decide (length b < spare) then fw_buffer b w
  else
    ((if decide (spare < length b) then flush_buf else mret ());;
     if decide (buf_capacity <= length b) then fw_direct b else fw_buffer b) w.

#[export] Instance FileWriter_Write : Write FileWriter := {
  write_all := buf_write_all;
  flush := flush_buf
}.

(** ** Facts: what a writer that answered [Ok] has done *)

(** [w'] is [w] with [b] written: to the file, and the end of it perhaps still in
    the buffer; no other file changed. *)
Definition wrote (b : bytes) (w w' : FileWriter) : Prop :=
  fw_path w' = fw_path w /\ fs_faults (fw_fs w') = fs_faults (fw_fs w) /\
  exists c c', fs_files (fw_fs w) !! fw_path w = Some c /\
    fs_files (fw_fs w') = <[fw_path w := c']> (fs_files (fw_fs w)) /\
    c' ++ fw_buf w' = c ++ fw_buf w ++ b.

(** The file behind the writer exists. *)
Definition fw_exists (w : FileWriter) : Prop := is_Some (fs_files (fw_fs w) !! fw_path w).

(** No operation from now on meets a fault. *)
Definition no_faults (fs : Fs) : Prop := forall n, fs_ops fs <= n -> fs_faults fs n = None.

Lemma wrote_refl w : fw_exists w -> wrote [] w w.
Proof.
  intros [c Hc]. split_and!; [done..|]. exists c, c. by rewrite insert_id, app_nil_r.
Qed.

Lemma wrote_trans b1 b2 w1 w2 w3 : wrote b1 w1 w2 -> wrote b2 w2 w3 -> wrote (b1 ++ b2) w1 w3.
Proof.
  intros (Hp & Hf & c & c' & Hc & Hfs & He) (Hp' & Hf' & d & d' & Hd & Hfs' & He').
  rewrite Hp in *. rewrite Hfs in *. rewrite lookup_insert_eq in Hd. simplify_eq.
  split_and!; [done|congruence|]. exists c, d'. split_and!; [done| |].
  - by rewrite Hfs', insert_insert_eq.
  - by rewrite He', !app_assoc, He, !app_assoc.
Qed.

Lemma wrote_exists b w w' : wrote b w w' -> fw_exists w'.
Proof.
  intros (Hp & _ & c & c' & _ & Hfs & _). exists c'. by rewrite Hp, Hfs, lookup_insert_eq.
Qed.

(** A step of a writer: what it has done when it answers [Ok], and that it does
    when there is no fault. *)
Definition writes_bytes (b : bytes) (m : M FileWriter IoError unit) : Prop :=
  forall w, fw_exists w ->
    (forall w', m w = (Ok (), w') -> wrote b w w') /\
    (no_faults (fw_fs w) -> exists w', m w = (Ok (), w') /\ no_faults (fw_fs w')).

Lemma writes_bytes_bind b1 b2 m1 m2 :
  writes_bytes b1 m1 -> writes_bytes b2 m2 -> writes_bytes (b1 ++ b2) (m1;; m2).
Proof.
  intros H1 H2 w Hw. destruct (H1 w Hw) as [Ho1 Hn1]. split.
  - intros w' H. ok_inv. match goal with u : unit |- _ => destruct u end.
    pose proof (Ho1 _ H) as Hw1. eapply wrote_trans; [done|].
    by apply H2; [eapply wrote_exists|].
  - intros Hn. destruct (Hn1 Hn) as (w1 & Hm1 & Hn1').
    pose proof (wrote_exists _ _ _ (Ho1 _ Hm1)) as He1.
    destruct (H2 w1 He1) as [_ Hn2]. destruct (Hn2 Hn1') as (w2 & Hm2 & ?).
    exists w2. unfold mbind, M_bind, m_bind. by rewrite Hm1.
Qed.

Lemma writes_bytes_ret : writes_bytes [] (mret ()).
Proof.
  intros w Hw. split; [|by eauto]. intros w' H. ok_inv. by apply wrote_refl.
Qed.

Lemma file_write_all_Ok path b fs fs' :
  file_write_all path b fs = (Ok (), fs') ->
  fs_faults fs' = fs_faults fs /\ fs_files fs' = alter (fun c => c ++ b) path (fs_files fs).
Proof.
  unfold file_write_all. case_decide as Hb.
  - intros H. ok_inv. split; [done|]. symmetry. apply map_eq. intros i. rewrite lookup_alter.
    case_decide; [subst|done]. destruct (_ !! _); cbn; by rewrite ?app_nil_r.
  - unfold fs_op. destruct (fs_faults fs (fs_ops fs)); [done|]. by intros [= <-].
Qed.

Lemma file_write_all_no_faults path b fs :
  no_faults fs -> exists fs', file_write_all path b fs = (Ok (), fs') /\ no_faults fs'.
Proof.
  intros Hn. unfold file_write_all. case_decide; [by eexists|]. unfold fs_op.
  rewrite Hn by lia. eexists. split; [done|]. intros n Hle. cbn in Hle |- *. apply Hn. lia.
Qed.

Lemma fw_buffer_writes b : writes_bytes b (fw_buffer b).
Proof.
  intros w [c Hc]. split; [|by eexists]. intros w' [= <-]. split_and!; [done..|].
  exists c, c. cbn. by rewrite insert_id.
Qed.

Lemma fw_direct_writes b w :
  fw_exists w -> fw_buf w = [] ->
  (forall w', fw_direct b w = (Ok (), w') -> wrote b w w') /\
  (no_faults (fw_fs w) -> exists w', fw_direct b w = (Ok (), w') /\ no_faults (fw_fs w')).
Proof.
  intros [c Hc] Hb. unfold fw_direct. split.
  - intros w'. destruct (file_write_all _ _ _) as [r fs'] eqn:Hw. intros [= -> <-].
    apply file_write_all_Ok in Hw as [Hf Hfs]. split_and!; [done..|].
    exists c, (c ++ b). cbn. rewrite Hb, app_nil_r. split_and!; [done| |done].
    by rewrite Hfs, (alter_insert_Some _ _ _ c).
  - intros Hn. destruct (file_write_all_no_faults (fw_path w) b _ Hn) as (fs' & -> & ?).
    by eexists.
Qed.

Lemma flush_buf_writes : writes_bytes [] flush_buf.
Proof.
  intros w [c Hc]. unfold flush_buf. split.
  - intros w'. destruct (file_write_all _ _ _) as [[[]|e] fs'] eqn:Hw; [|done]. intros [= <-].
    apply file_write_all_Ok in Hw as [Hf Hfs]. split_and!; [done..|].
    exists c, (c ++ fw_buf w). cbn. rewrite !app_nil_r. split_and!; [done| |done].
    by rewrite Hfs, (alter_insert_Some _ _ _ c).
  - intros Hn. destruct (file_write_all_no_faults (fw_path w) (fw_buf w) _ Hn) as (fs' & -> & ?).
    by eexists.
Qed.

Lemma flush_buf_empties w w' : flush_buf w = (Ok (), w') -> fw_buf w' = [].
Proof.
  unfold flush_buf. destruct (file_write_all _ _ _) as [[|] ?]; [|done]. by intros [= <-].
Qed.

Lemma flush_buf_nil w : fw_buf w = [] -> flush_buf w = (Ok (), w).
Proof. destruct w as [fs path buf]. cbn. by intros ->. Qed.

Lemma buf_write_all_writes b : writes_bytes b (buf_write_all b).
Proof.
  intros w Hw. unfold buf_write_all. case_decide as H1; [by apply fw_buffer_writes|].
  destruct (decide (buf_capacity - length (fw_buf w) < length b)) as [H2|H2].
  - destruct (flush_buf_writes w Hw) as [Hf Hn]. unfold mbind, M_bind, m_bind. cbv beta.
    destruct (flush_buf w) as [[[]|e] w1] eqn:Hfl.
    2:{ split; [done|]. intros Hnf. by destruct (Hn Hnf) as (? & ? & _). }
    pose proof (Hf _ eq_refl) as Hw1. pose proof (wrote_exists _ _ _ Hw1) as He1.
    assert (((forall w', (if decide (buf_capacity <= length b) then fw_direct b
                else fw_buffer b) w1 = (Ok (), w') -> wrote b w1 w') /\
             (no_faults (fw_fs w1) -> exists w', (if decide (buf_capacity <= length b)
                then fw_direct b else fw_buffer b) w1 = (Ok (), w') /\ no_faults (fw_fs w'))))
      as [Ho Hn'].
    { destruct (decide (buf_capacity <= length b)); [|by apply fw_buffer_writes].
      apply fw_direct_writes; [done|by eapply flush_buf_empties]. }
    split.
    + intros w' Hr. rewrite <- (app_nil_l b). by eapply wrote_trans; [|apply Ho].
    + intros Hnf. destruct (Hn Hnf) as (? & [= <-] & ?). by apply Hn'.
  - unfold mbind, M_bind, m_bind, mret, M_ret, m_ret. cbv beta iota.
    destruct (decide (buf_capacity <= length b)) as [H3|H3]; [|by apply fw_buffer_writes].
    apply fw_direct_writes; [done|]. destruct (fw_buf w) as [|x l]; [done|]. unfold buf_capacity in *. cbn [length] in *. lia.
Qed.

(** *** What a writer has done, whatever happens

    Of what was in the buffer and [b], the first part [x] is on the file and the rest
    [y] in the buffer; a call that has failed has not got all of it to the file. *)
Definition writes_part (b : bytes) (m : M FileWriter IoError unit) (w : FileWriter) : Prop :=
  forall c r w', fs_files (fw_fs w) !! fw_path w = Some c -> m w = (r, w') ->
    exists x y, fw_buf w ++ b = x ++ y /\ fw_path w' = fw_path w /\
      fs_files (fw_fs w') = <[fw_path w := c ++ x]> (fs_files (fw_fs w)) /\
      match r with Ok _ => fw_buf w' = y | Err _ => y <> [] end.

Lemma writes_part_bind b1 b2 (m1 m2 : M FileWriter IoError unit) w :
  writes_part b1 m1 w -> (forall w1, m1 w = (Ok (), w1) -> writes_part b2 m2 w1) ->
  writes_part (b1 ++ b2) (m1;; m2) w.
Proof.
  intros H1 H2 c r w' Hc. unfold mbind, M_bind, m_bind.
  destruct (m1 w) as [[[]|e] w1] eqn:Hm1; destruct (H1 c _ _ Hc Hm1) as (x & y & Hx & Hp & Hf & Hr).
  - intros Hm2. assert (Hc1 : fs_files (fw_fs w1) !! fw_path w1 = Some (c ++ x)).
    { by rewrite Hp, Hf, lookup_insert_eq. }
    destruct (H2 _ eq_refl _ _ _ Hc1 Hm2) as (x2 & y2 & Hx2 & Hp2 & Hf2 & Hr2).
    exists (x ++ x2), y2. split_and!.
    + by rewrite app_assoc, Hx, <- Hr, <- app_assoc, Hx2, app_assoc.
    + by rewrite Hp2.
    + by rewrite Hf2, Hp, Hf, insert_insert_eq, app_assoc.
    + exact Hr2.
  - intros [= <- <-]. exists x, (y ++ b2). split_and!; [by rewrite app_assoc, Hx, app_assoc|done..|].
    by destruct y.
Qed.

Lemma writes_part_eq b (m m' : M FileWriter IoError unit) w :
  m w = m' w -> writes_part b m' w -> writes_part b m w.
Proof. intros He Hp c r w' Hc. rewrite He. by apply Hp. Qed.

Lemma writes_part_ret w : writes_part [] (mret ()) w.
Proof.
  intros c r w' Hc [= <- <-]. exists [], (fw_buf w). rewrite !app_nil_r. by rewrite insert_id.
Qed.

(** [write_all] on the file itself. *)
Lemma file_write_all_part path b fs c :
  fs_files fs !! path = Some c ->
  match file_write_all path b fs with
  | (Ok _, fs') => fs_files fs' = <[path := c ++ b]> (fs_files fs)
  | (Err _, fs') =>
      let n := match fs_faults fs (fs_ops fs) with
               | Some fault => Nat.min (fault_written fault) (length b - 1)
               | None => 0
               end in
      fs_files fs' = <[path := c ++ take n b]> (fs_files fs) /\ drop n b <> []
  end.
Proof.
  intros Hc. unfold file_write_all. case_decide as Hb.
  - subst b. cbn. by rewrite app_nil_r, insert_id.
  - unfold fs_op. destruct (fs_faults fs (fs_ops fs)) as [fault|]; cbn.
    + split; [by rewrite (alter_insert_Some _ _ _ c)|]. intros Hd.
      apply (f_equal length) in Hd. rewrite length_drop in Hd.
      destruct b; [done|]. cbn [length] in Hd. lia.
    + by rewrite (alter_insert_Some _ _ _ c).
Qed.

Lemma flush_buf_part w : writes_part [] flush_buf w.
Proof.
  intros c r w' Hc. unfold flush_buf. pose proof (file_write_all_part _ (fw_buf w) _ _ Hc) as Hw.
  destruct (file_write_all _ _ _) as [[[]|e] fs']; intros [= <- <-]; cbn; rewrite app_nil_r.
  - exists (fw_buf w), []. by rewrite app_nil_r.
  - destruct Hw as [Hf Hd]. eexists _, _. split; [symmetry; apply take_drop|]. by split_and!.
Qed.

Lemma fw_buffer_part b w : writes_part b (fw_buffer b) w.
Proof.
  intros c r w' Hc [= <- <-]. exists [], (fw_buf w ++ b). cbn. by rewrite app_nil_r, insert_id.
Qed.

Lemma fw_direct_part b w : fw_buf w = [] -> writes_part b (fw_direct b) w.
Proof.
  intros Hb c r w' Hc. unfold fw_direct. pose proof (file_write_all_part _ b _ _ Hc) as Hw.
  rewrite Hb. destruct (file_write_all _ _ _) as [[[]|e] fs']; intros [= <- <-]; cbn.
  - exists b, []. by rewrite app_nil_r.
  - destruct Hw as [Hf Hd]. eexists _, _. split; [symmetry; apply take_drop|]. by split_and!.
Qed.

Lemma buf_write_all_part b w : writes_part b (buf_write_all b) w.
Proof.
  assert (Hrest : forall w, fw_buf w = [] \/ length b < buf_capacity ->
    writes_part b (if decide (buf_capacity <= length b) then fw_direct b else fw_buffer b) w).
  { intros w1 Hor. case_decide; [|apply fw_buffer_part]. apply fw_direct_part. destruct Hor; [done|lia]. }
  destruct (decide (length b < buf_capacity - length (fw_buf w))) as [H1|H1].
  { apply (writes_part_eq _ _ (fw_buffer b)); [|apply fw_buffer_part].
    unfold buf_write_all. by rewrite decide_True. }
  apply (writes_part_eq _ _ ((if decide (buf_capacity - length (fw_buf w) < length b) then flush_buf
    else mret ());; (if decide (buf_capacity <= length b) then fw_direct b else fw_buffer b))).
  { unfold buf_write_all. by rewrite decide_False. }
  destruct (decide (buf_capacity - length (fw_buf w) < length b)) as [H2|H2];
    apply (writes_part_bind [] b).
  - apply flush_buf_part.
  - intros w1 Hf%flush_buf_empties. apply Hrest. by left.
  - apply writes_part_ret.
  - intros w1 [= <-]. apply Hrest. destruct (fw_buf w) as [|x l] eqn:Hb; [by left|right].
    unfold buf_capacity in *. cbn [length] in *. lia.
Qed.
