(* ===== verification/Persister.v ===== *)
(** * Persister: [outbound/persister/]

    The persistence adapter: [Aof], the append-only log in the wire format of the
    frames, and [Snapshot], the dump of the whole map, each over a
    [PersisterInner] (a path and a guarded buffered writer).  The serializer of the
    dump, [wincode], is a third-party package, a parameter: the class [Wincode]. *)

From S2P Require Import Prelude Effects RustStd Time Command Frame CommandFrame Cache Ports Files.

(** ** [persister_inner.rs] *)

(** The guarded writer (what is in its buffer; the file is the one at [pi_path],
    opened for appending) and the path. *)
Record PersisterInner : Type := mkPersisterInner {
  pi_writer : Mutex bytes;
  pi_path : bytes
}.

(** [impl TryFrom<PathBuf> for PersisterInner]. *)
Definition PersisterInner_try_from (value : bytes) : M Fs IoError PersisterInner :=
  (if decide (parent value = []) then mret () else create_dir_all);;
  file_open_append value;;
  mret (mkPersisterInner (mutex_new []) value).

(** ** The persister's state: the two halves and the file system *)

Record Persister : Type := mkPersister {
  ps_fs : Fs;
  ps_aof : PersisterInner;
  ps_snapshot : PersisterInner
}.

Definition fsL : Lens Persister Fs :=
  mkLens ps_fs (fun fs s => mkPersister fs (ps_aof s) (ps_snapshot s))
    (fun _ _ => eq_refl) (fun s => match s with mkPersister _ _ _ => eq_refl end)
    (fun _ _ _ => eq_refl).
Definition aof_writerL : Lens Persister (Mutex bytes) :=
  mkLens (fun s => pi_writer (ps_aof s))
    (fun w s => mkPersister (ps_fs s) (mkPersisterInner w (pi_path (ps_aof s))) (ps_snapshot s))
    (fun _ _ => eq_refl)
    (fun s => match s with mkPersister _ (mkPersisterInner _ _) _ => eq_refl end)
    (fun _ _ _ => eq_refl).

(** The log's writer as the lock's guard sees it. *)
Definition aof_fileL : Lens Persister FileWriter :=
  mkLens (fun s => mkFileWriter (ps_fs s) (pi_path (ps_aof s)) (guarded (pi_writer (ps_aof s))))
    (fun w s => mkPersister (fw_fs w)
       (mkPersisterInner (set_guarded (fw_buf w) (pi_writer (ps_aof s))) (fw_path w))
       (ps_snapshot s))
    (fun t _ => match t with mkFileWriter _ _ _ => eq_refl end)
    (fun s => match s with
              | mkPersister _ (mkPersisterInner (mkMutex _ _ _) _) _ => eq_refl
              end)
    (fun _ _ _ => eq_refl).

(** ** [aof.rs] *)

Inductive AofError : Type :=
| AofIo (e : IoError)
| AofMutexPoisoned
| AofCache (e : CacheError)
| AofCommand (e : CommandFromFrameError)
| AofFrame (e : FrameError).

Definition RepositoryError_from_AofError (e : AofError) : RepositoryError :=
  RepoGeneric (Boxed e).

Module Aof.

(** One critical section under the log's mutex: no other thread gets to the writer in
    between.  The several writes of [write_to] and the flush go through the [BufWriter]
    one by one; what each of them can leave in the file, as an append breaks off inside,
    is [append_cut_short], below. *)
Definition append (command : WriteCommand) : prog Persister AofError unit :=
  locked aof_writerL AofMutexPoisoned (
    m_map_err AofIo (m_zoom aof_fileL (write_to (Frame_from_WriteCommand command)));;
    m_map_err AofIo (m_zoom aof_fileL flush)).

(** The loop of [replay] over the bytes not yet parsed.  Every turn that goes on
    takes at least four of them off, so [fuel] turns are enough for a log
    shorter than [fuel] ([run_replay_loop]); with none left the loop is stuck. *)
Fixpoint replay_loop (fuel : nat) (bs : bytes) : prog CacheState AofError unit :=
  match fuel with
  | O => Step (fun _ => None)
  | S fuel' =>
      match parse_one bs with
      | Ok (frame, remainder) =>
          command ← atomic (m_map_err AofCommand (m_zoom clockL (try_from frame)));
          match command with
          | Command.Cache cc =>
              p_map_err AofCache (KvStore.execute cc);;
              replay_loop fuel' remainder
          | Channel _ | Ping _ => replay_loop fuel' remainder
          end
      | Err Incomplete => mret ()
      | Err e => Done (Err (AofFrame e))
      end
  end.

(** [File::open(&*self.path)?.read_to_end(&mut aof)?]. *)
Definition read_log : prog Persister IoError bytes :=
  atomic (fun s => m_zoom fsL (file_open (pi_path (ps_aof s))) s);;
  atomic (fun s => m_zoom fsL (file_read_to_end (pi_path (ps_aof s))) s).

Definition replay : prog (CacheState * Persister) AofError unit :=
  aof ← p_map_err AofIo (zoom lens_snd read_log);
  zoom lens_fst (replay_loop (S (length aof)) aof).

Definition clear : prog Persister AofError unit :=
  locked aof_writerL AofMutexPoisoned (
    m_map_err AofIo (m_zoom aof_fileL flush);;
    m_map_err AofIo (fun s => m_zoom fsL (file_clear (pi_path (ps_aof s))) s)).
End Aof.

(** ** [mod.rs]: set-up *)

Inductive PersisterError : Type :=
| PersisterIo (e : IoError)
| PersisterMutexPoisoned.

Definition RepositoryError_from_PersisterError (e : PersisterError) : RepositoryError :=
  RepoGeneric (Boxed e).

Definition AOF_PATH : bytes := bstr "cache/aof".
Definition SNAPSHOT_PATH : bytes := bstr "cache/snapshot".

Arguments AOF_PATH : simpl never.
Arguments SNAPSHOT_PATH : simpl never.

(** The persister over the file system as it is. *)
Definition assemble (aof snapshot : PersisterInner) : M Fs PersisterError Persister :=
  fun fs => (Ok (mkPersister fs aof snapshot), fs).

(** [Persister::initialize]. *)
Definition initialize : M Fs PersisterError Persister :=
  aof ← m_map_err PersisterIo (PersisterInner_try_from AOF_PATH);
  snapshot ← m_map_err PersisterIo (PersisterInner_try_from SNAPSHOT_PATH);
  assemble aof snapshot.

(** ** [snapshot.rs] and the port *)

(** The package [wincode] on the map: [serialize] and [deserialize], and their
    errors. *)
Class Wincode : Type := {
  WriteError : Type;
  ReadError : Type;
  serialize : CacheMap -> result WriteError bytes;
  deserialize : bytes -> result ReadError CacheMap
}.

Section wincode.
Context `{Wincode}.

Inductive SnapshotError : Type :=
| SnIo (e : IoError)
| SnRead (e : ReadError)
| SnWrite (e : WriteError).

Definition RepositoryError_from_SnapshotError (e : SnapshotError) : RepositoryError :=
  RepoGeneric (Boxed e).

(** [Snapshot::load]. *)
Definition snapshot_load : prog Persister SnapshotError CacheMap :=
  p_map_err SnIo (atomic (fun s => m_zoom fsL (file_open (pi_path (ps_snapshot s))) s));;
  bs ← p_map_err SnIo
         (atomic (fun s => m_zoom fsL (file_read_to_end (pi_path (ps_snapshot s))) s));
  if decide (bs = []) then mret ∅
  else Done (map_err SnRead (deserialize bs)).

(** One call on the file system, on the snapshot's path. *)
Definition on_snapshot (f : bytes -> M Fs IoError unit) : prog Persister SnapshotError unit :=
  p_map_err SnIo (atomic (fun s => m_zoom fsL (f (pi_path (ps_snapshot s))) s)).

(** [Snapshot::store]. *)
Definition snapshot_store (map : CacheMap) : prog Persister SnapshotError unit :=
  on_snapshot (fun path => file_open_truncate (with_extension path (bstr "tmp")));;
  bs ← Done (map_err SnWrite (serialize map));
  on_snapshot (fun path => file_write_all (with_extension path (bstr "tmp")) bs);;
  on_snapshot (fun _ => sync_all);;
  on_snapshot (fun path => rename (with_extension path (bstr "tmp")) path);;
  on_snapshot (fun _ => dir_open);;
  on_snapshot (fun _ => sync_all).

(** [impl CacheRepository for Persister]. *)
Definition persister_append (command : WriteCommand) : prog Persister RepositoryError unit :=
  p_map_err RepositoryError_from_AofError (Aof.append command);;
  mret ().

(** The cache's guard is held from the first line to the last, however the
    function returns. *)
Definition persister_snapshot : prog (CacheState * Persister) RepositoryError unit :=
  lock (lens_comp lens_fst innerL) (RepositoryError_from_PersisterError PersisterMutexPoisoned);;
  p_finally (
    guard ← atomic (fun s => (Ok (guarded (cs_inner s.1)), s));
    p_map_err RepositoryError_from_SnapshotError (zoom lens_snd (snapshot_store guard));;
    p_map_err RepositoryError_from_AofError (zoom lens_snd Aof.clear);;
    mret ())
    (unlock (lens_comp lens_fst innerL)).

#[export] Instance Persister_Repository : CacheRepository Persister := {
  append := persister_append;
  snapshot := persister_snapshot
}.
End wincode.

(** ** The log *)

(** The bytes of a log of [l]. *)
Definition log_bytes (l : list WriteCommand) : bytes :=
  concat (map (fun wc => encode (Frame_from_WriteCommand wc)) l).

Lemma log_bytes_app l1 l2 : log_bytes (l1 ++ l2) = log_bytes l1 ++ log_bytes l2.
Proof. unfold log_bytes. by rewrite map_app, concat_app. Qed.

Lemma log_bytes_snoc l wc :
  log_bytes (l ++ [wc]) = log_bytes l ++ encode (Frame_from_WriteCommand wc).
Proof. rewrite log_bytes_app. unfold log_bytes at 2. cbn. by rewrite app_nil_r. Qed.

Lemma length_dec_digits f n acc : length (dec_digits f n acc) <= f + length acc.
Proof.
  revert n acc. induction f as [|f IH]; intros n acc; cbn [dec_digits]; [lia|].
  case_match; cbn [length]; [lia|]. etransitivity; [apply IH|]. cbn. lia.
Qed.

Lemma Pos_size_nat_lower p : (2 ^ N.of_nat (Pos.size_nat p) <= 2 * Npos p)%N.
Proof.
  induction p as [p IH|p IH|]; cbn [Pos.size_nat];
    rewrite ?Nat2N.inj_succ, ?N.pow_succ_r'; cbn; lia.
Qed.

Lemma length_display_N n : is_u64 n -> is_u64 (N.of_nat (length (display_N n))).
Proof.
  intros Hn. unfold display_N. pose proof (length_dec_digits (S (N.size_nat n)) n []) as Hl.
  assert (N.size_nat n <= 64)%nat.
  { destruct n as [|p]; [cbn; lia|]. cbn [N.size_nat].
    destruct (decide (Pos.size_nat p <= 64)%nat) as [|Hgt]; [done|].
    pose proof (Pos_size_nat_lower p) as Hp.
    assert (2 ^ 65 <= 2 ^ N.of_nat (Pos.size_nat p))%N as H65 by (apply N.pow_le_mono_r; lia).
    unfold is_u64, u64_max in Hn. change (2 ^ 65)%N with 36893488147419103232%N in H65. lia. }
  cbn [length] in Hl. unfold is_u64, u64_max. lia.
Qed.

Lemma is_u64_small n : (n <= 20)%nat -> is_u64 (N.of_nat n).
Proof. unfold is_u64, u64_max. lia. Qed.

Lemma loggable_Frame_wf wc : loggable wc -> Frame_wf (Frame_from_WriteCommand wc).
Proof.
  assert (Hlit : forall s, (length (bstr s) <= 20)%nat -> Frame_wf (BulkString (bstr s))).
  { intros s Hs. by apply BulkString_wf, is_u64_small. }
  intros [Hwf Hl]. destruct wc as [key value [t|]|key|key t|key];
    cbn [Frame_from_WriteCommand app];
    (apply Array_wf; [apply is_u64_small; cbn [length]; lia|]);
    repeat (apply Forall_cons; split); try apply Forall_nil_2;
    first [apply Hlit; cbn; lia | apply BulkString_wf; first [by apply length_display_N | tauto]].
Qed.

(** ** Appending *)

Lemma write_to_writes (f : Frame) : writes_bytes (encode f) (write_to f).
Proof.
  induction f as [fs IH|s] using Frame_ind; cbn [write_to encode].
  - repeat (apply writes_bytes_bind; [apply buf_write_all_writes|]).
    induction IH as [|f fs Hf _ IH]; cbn; [apply writes_bytes_ret|].
    by apply writes_bytes_bind.
  - repeat (apply writes_bytes_bind; [apply buf_write_all_writes|]).
    apply buf_write_all_writes.
Qed.

Lemma write_to_part (f : Frame) w : writes_part (encode f) (write_to f) w.
Proof.
  revert w. induction f as [fs IH|s] using Frame_ind; intros w; cbn [write_to encode].
  - repeat (apply writes_part_bind; [apply buf_write_all_part|intros ? _]).
    clear w. match goal with |- writes_part _ _ ?w => revert w end.
    induction IH as [|f fs Hf _ IH]; intros w; cbn; [apply writes_part_ret|].
    by apply writes_part_bind.
  - repeat (apply writes_part_bind; [apply buf_write_all_part|intros ? _]).
    apply buf_write_all_part.
Qed.

(** A persister whose log has nothing waiting in its buffer, over the two paths. *)
Definition healthy (s : Persister) : Prop :=
  ps_aof s = mkPersisterInner (mutex_new []) AOF_PATH /\
  pi_path (ps_snapshot s) = SNAPSHOT_PATH.

(** The same with the log file, which holds exactly [l]. *)
Definition holds (s : Persister) (l : list WriteCommand) : Prop :=
  healthy s /\ fs_files (ps_fs s) !! AOF_PATH = Some (log_bytes l) /\ Forall loggable l.

Definition set_fs (fs : Fs) (s : Persister) : Persister :=
  mkPersister fs (ps_aof s) (ps_snapshot s).

(** [append] comes back; when it answers [Ok] the frame is at the end of the file
    and nothing is left in the buffer; and without faults it does answer [Ok]. *)
Lemma run_append (s : Persister) (c : bytes) (wc : WriteCommand) :
  healthy s -> fs_files (ps_fs s) !! AOF_PATH = Some c ->
  exists r s', run (Aof.append wc) s = Some (r, s') /\
    (r = Ok () -> exists fs', s' = set_fs fs' s /\
       fs_faults fs' = fs_faults (ps_fs s) /\
       fs_files fs' = <[AOF_PATH := c ++ encode (Frame_from_WriteCommand wc)]>
                        (fs_files (ps_fs s))) /\
    (no_faults (ps_fs s) -> r = Ok () /\ no_faults (ps_fs s')).
Proof.
  intros [Ha Hs] Hc. unfold Aof.append. rewrite run_locked by (cbn; by rewrite Ha).
  rewrite m_zoom_bind. destruct s as [fs aof snap]. cbn in Ha, Hs, Hc |- *. subst aof.
  unfold m_map_err, m_zoom. cbn [view put aof_fileL ps_fs ps_aof pi_writer pi_path guarded mutex_new].
  set (w := mkFileWriter fs AOF_PATH []).
  assert (Hw : fw_exists w) by (by exists c).
  destruct (writes_bytes_bind _ _ _ _ (write_to_writes (Frame_from_WriteCommand wc))
              flush_buf_writes w Hw) as [Hok Hnf].
  destruct ((write_to (Frame_from_WriteCommand wc);; flush_buf) w) as [[[]|e] w'] eqn:Hr;
    (do 2 eexists; split; [reflexivity|]; split).
  - intros _. destruct (Hok _ eq_refl) as (Hp & Hf & c0 & c' & Hc0 & Hfs & He).
    exists (fw_fs w'). apply m_bind_Ok in Hr as (? & w1 & _ & Hb%flush_buf_empties).
    cbn in Hc0, Hp, Hf, Hfs, He. rewrite Hc in Hc0. injection Hc0 as <-.
    rewrite Hb, !app_nil_r in He. subst c'.
    split_and!; [|done|done]. unfold set_fs. cbn. by rewrite Hb, Hp.
  - intros Hn. split; [done|]. by destruct (Hnf Hn) as (? & [= <-] & ?).
  - done.
  - intros Hn. by destruct (Hnf Hn) as (? & ? & _).
Qed.

(** An append that is cut short, at whichever operation on the file and with whatever
    part of that one done, leaves a beginning of the frame, not all of it, at the end of
    the file, and no other file changed. *)
Lemma append_cut_short (s s' : Persister) (c : bytes) (wc : WriteCommand) e :
  healthy s -> fs_files (ps_fs s) !! AOF_PATH = Some c ->
  run (Aof.append wc) s = Some (Err e, s') ->
  exists x y, encode (Frame_from_WriteCommand wc) = x ++ y /\ y <> [] /\
    fs_files (ps_fs s') = <[AOF_PATH := c ++ x]> (fs_files (ps_fs s)).
Proof.
  intros [Ha Hs] Hc. unfold Aof.append. rewrite run_locked by (cbn; by rewrite Ha).
  rewrite m_zoom_bind. destruct s as [fs aof snap]. cbn in Ha, Hs, Hc |- *. subst aof.
  unfold m_map_err, m_zoom. cbn [view put aof_fileL ps_fs ps_aof pi_writer pi_path guarded mutex_new].
  set (w := mkFileWriter fs AOF_PATH []).
  pose proof (writes_part_bind _ _ _ _ w (write_to_part (Frame_from_WriteCommand wc) w)
                (fun w1 _ => flush_buf_part w1)) as Hpart.
  destruct ((write_to (Frame_from_WriteCommand wc);; flush_buf) w) as [r w'] eqn:Hr.
  destruct (Hpart c r w' Hc Hr) as (x & y & Hx & _ & Hf & Hend). rewrite app_nil_r in Hx.
  destruct r as [[]|io]; [done|]. intros [= _ <-]. exists x, y. by split_and!.
Qed.

(** [Aof::append] on a log of [l]. *)
Lemma run_append_holds (s : Persister) (l : list WriteCommand) (wc : WriteCommand) :
  holds s l -> loggable wc ->
  exists r s', run (Aof.append wc) s = Some (r, s') /\
    (r = Ok () -> holds s' (l ++ [wc]) /\
       fs_files (ps_fs s') !! SNAPSHOT_PATH = fs_files (ps_fs s) !! SNAPSHOT_PATH) /\
    (no_faults (ps_fs s) -> r = Ok () /\ no_faults (ps_fs s')).
Proof.
  intros (Hh & Hc & Hl) Hwc. destruct (run_append s _ wc Hh Hc) as (r & s' & Hr & Hok & Hnf).
  exists r, s'. split_and!; [done| |done]. intros ->.
  destruct (Hok eq_refl) as (fs' & -> & _ & Hfs). unfold holds. cbn [ps_fs set_fs]. rewrite Hfs.
  split_and!.
  - exact Hh.
  - by rewrite log_bytes_snoc, lookup_insert_eq.
  - by apply Forall_app; split; [|constructor].
  - by rewrite lookup_insert_ne.
Qed.

(** The persister keeps the contract of a repository. *)
Section laws.
Context `{Wincode}.

Lemma run_persister_append s wc :
  run (persister_append wc) s =
  match run (Aof.append wc) s with
  | Some (r, s') => Some (map_err RepositoryError_from_AofError r, s')
  | None => None
  end.
Proof.
  unfold persister_append. rewrite run_bind, run_map_err.
  by destruct (run (Aof.append wc) s) as [[[[]|e] s']|].
Qed.

#[export] Program Instance Persister_Laws : RepositoryLaws Persister := {
  logs := holds
}.
Next Obligation.
  intros s l wc Hs Hwc. destruct (run_append_holds s l wc Hs Hwc) as (r & s' & Hr & _).
  cbn [append Persister_Repository]. rewrite run_persister_append, Hr. by eexists.
Qed.
Next Obligation.
  intros s l wc s' Hs Hwc. destruct (run_append_holds s l wc Hs Hwc) as (r & s1 & Hr & Hok & _).
  cbn [append Persister_Repository]. rewrite run_persister_append, Hr. destruct r as [[]|e]; cbn; [|done].
  intros [= <-]. by apply Hok.
Qed.
End laws.
