(* ===== verification/Recovery.v ===== *)
(** * Recovery: what a restart brings back

    The cache, the log and the snapshot together: startup, the invariant that ties
    the files to the cache ([durable]), that commands and snapshots keep it
    whatever file operation fails and wherever a snapshot is interrupted, and what
    is lost when the log is damaged or deadlines pass while the server is down. *)

From S2P Require Import Prelude Effects RustStd Time Command Frame CommandFrame.
From S2P Require Import Cache CacheSpec Ports Executor Files Persister.

Local Open Scope N_scope.

(** ** Replay of an intact log *)

(** How replay takes the verdict on the bytes after the last whole frame. *)
Definition after_log (e : FrameError) : result AofError unit :=
  match e with Incomplete => Ok () | _ => Err (AofFrame e) end.

(** The log of [l] and then bytes that do not start with a frame: the commands, in
    order, on the cache, and then the verdict. *)
Lemma run_replay_loop fuel l tail e c m :
  (length l < fuel)%nat -> Forall loggable l -> parse_one tail = Err e ->
  run (Aof.replay_loop fuel (log_bytes l ++ tail)) (cache_new c m) =
  match cache_all (map CacheWrite l) (cache_new c m) with
  | Some (_, None, s') => Some (after_log e, s')
  | Some (_, Some e, s') => Some (Err (AofCache e), s')
  | None => None
  end.
Proof.
  intros Hf Hl Ht. revert l c m Hf Hl. induction fuel as [|fuel IH]; intros l c m Hf Hl; [lia|].
  destruct Hl as [|wc l Hwc Hl].
  - cbn [log_bytes map concat app Aof.replay_loop]. rewrite Ht. by destruct e.
  - cbn [Aof.replay_loop]. unfold log_bytes. cbn [map concat]. rewrite <- app_assoc.
    rewrite parse_one_encode by by apply loggable_Frame_wf.
    rewrite run_bind, run_atomic. unfold m_map_err, m_zoom.
    rewrite try_from_logged by apply Hwc. cbn [map_err]. rewrite run_bind, run_map_err.
    rewrite put_view.
    destruct (run_execute_frame (CacheWrite wc) c m) as (r & c1 & m1 & Hr & _).
    cbn [cache_all map]. rewrite Hr. destruct r as [out|e']; cbn [map_err]; [|done].
    change (concat (map _ l)) with (log_bytes l). cbn [length] in Hf.
    rewrite IH by (first [done | lia]).
    by destruct (cache_all (map CacheWrite l) (cache_new c1 m1)) as [[[outs [e'|]] s']|].
Qed.

Lemma length_log_bytes l : (length l <= length (log_bytes l))%nat.
Proof.
  induction l as [|wc l IH]; [done|]. unfold log_bytes in *. cbn [map concat length].
  rewrite length_app. destruct wc; cbn [Frame_from_WriteCommand encode app length]; cbn; lia.
Qed.

(** A frame takes at least four bytes, so the loop ends on any bytes. *)
Lemma parse_one_shorter bs f rest :
  parse_one bs = Ok (f, rest) -> (length rest < length bs)%nat.
Proof.
  intros H. destruct (some_parse_one_consumes bs f rest) as (pre & -> & Hp).
  - unfold some_parse_one. by rewrite H.
  - rewrite length_app. lia.
Qed.

Lemma replay_loop_ends fuel bs c m :
  (length bs < fuel)%nat ->
  exists r c' m', run (Aof.replay_loop fuel bs) (cache_new c m) = Some (r, cache_new c' m').
Proof.
  revert bs c m. induction fuel as [|fuel IH]; intros bs c m Hf; [lia|]. cbn [Aof.replay_loop].
  destruct (parse_one bs) as [[f rest]|e] eqn:Hp.
  2:{ destruct e; by do 3 eexists. }
  pose proof (parse_one_shorter _ _ _ Hp). rewrite run_bind, run_atomic.
  unfold m_map_err, m_zoom. cbn [view clockL cs_clock cache_new].
  destruct (try_from f c) as [[cmd|e] c1]; cbn [map_err]; [|by do 3 eexists].
  change (put clockL c1 (cache_new c m)) with (cache_new c1 m).
  destruct cmd as [cc|ch|msg]; [|apply IH; lia..].
  rewrite run_bind, run_map_err.
  destruct (run_execute_frame cc c1 m) as (r & c2 & m2 & -> & _).
  destruct r as [out|e]; cbn [map_err]; [apply IH; lia|by do 3 eexists].
Qed.

(** ** The effect of a write when no deadline passes *)

Definition apply (m : CacheMap) (wc : WriteCommand) : CacheMap :=
  match wc with
  | WSet key value d => <[key := mkEntry value d]> m
  | WDelete key => delete key m
  | WExpireAt key d => alter (fun e => mkEntry (entry_value e) (Some d)) key m
  | WPersist key => alter (fun e => mkEntry (entry_value e) None) key m
  end.

Definition replayed (l : list WriteCommand) (m : CacheMap) : CacheMap := fold_left apply l m.

(** All readings of the clock from now on are good and at most [T]. *)
Definition bounded (T : N) (c : Clock) : Prop :=
  forall n, (tick c <= n)%nat ->
    exists t, millis_of_reading (readings c n) = Ok t /\ millis t <= T.

Definition later (T : N) (d : option Milliseconds) : Prop :=
  match d with Some d => T < millis d | None => True end.

(** Every deadline in the map, and of the command, is after [T]. *)
Definition quiet_map (T : N) (m : CacheMap) : Prop :=
  map_Forall (fun _ e => later T (entry_expires_at e)) m.
Definition quiet_write (T : N) (wc : WriteCommand) : Prop :=
  match wc with
  | WSet _ _ d => later T d
  | WExpireAt _ d => later T (Some d)
  | _ => True
  end.

Lemma bounded_now T c :
  bounded T c -> exists t c', now c = (Ok t, c') /\ millis t <= T /\ bounded T c'.
Proof.
  intros Hb. destruct (Hb (tick c)) as (t & Ht & Hle); [lia|]. exists t. eexists.
  unfold now. rewrite Ht. split_and!; [done..|]. intros n Hn. apply Hb. cbn in Hn. lia.
Qed.

Lemma later_live T t d : later T d -> millis t <= T -> deadline_passed t d = false.
Proof.
  destruct d as [d|]; cbn; [|done]. intros Hd Ht. unfold ms_ge. apply N.leb_gt. lia.
Qed.

Lemma quiet_lookup T m k e : quiet_map T m -> m !! k = Some e -> later T (entry_expires_at e).
Proof. intros Hm Hk. by apply (Hm k e). Qed.

Lemma quiet_live T t m : quiet_map T m -> millis t <= T -> live t m = m.
Proof.
  intros Hm Ht. apply map_eq. intros k. rewrite live_lookup.
  destruct (m !! k) as [e|] eqn:Hk; [|done].
  unfold is_expired. by rewrite (later_live T) by eauto using quiet_lookup.
Qed.

Lemma quiet_apply T m wc : quiet_map T m -> quiet_write T wc -> quiet_map T (apply m wc).
Proof.
  intros Hm Hw k e. destruct wc as [key value d|key|key d|key]; cbn.
  - intros [[<- <-]|[_ ?]]%lookup_insert_Some; [done|by eapply Hm].
  - intros [_ ?]%lookup_delete_Some. by eapply Hm.
  - rewrite lookup_alter. case_decide; [|by apply Hm]. subst key.
    destruct (m !! k); [|done]. by intros [= <-].
  - rewrite lookup_alter. case_decide; [|by apply Hm]. subst key.
    destruct (m !! k); [|done]. by intros [= <-].
Qed.

Lemma quiet_replayed T l m :
  quiet_map T m -> Forall (quiet_write T) l -> quiet_map T (replayed l m).
Proof.
  intros Hm Hl. revert m Hm. induction Hl as [|wc l Hwc _ IH]; intros m Hm; [done|].
  by apply IH, quiet_apply.
Qed.

Definition quiet_command (T : N) (cmd : CacheCommand) : Prop :=
  match cmd with CacheWrite wc => quiet_write T wc | CacheRead _ => True end.

Definition apply_command (m : CacheMap) (cmd : CacheCommand) : CacheMap :=
  match cmd with CacheWrite wc => apply m wc | CacheRead _ => m end.

(** While no deadline passes, a command does its effect, and reads do nothing. *)
Lemma run_execute_quiet T cmd c m :
  bounded T c -> quiet_map T m -> quiet_command T cmd ->
  exists out c', run (KvStore.execute cmd) (cache_new c m) =
                 Some (Ok out, cache_new c' (apply_command m cmd)) /\ bounded T c'.
Proof.
  intros Hb Hm Hq. destruct (bounded_now T c Hb) as (t & c1 & Hn & Ht & Hb1).
  assert (Hlive : forall k v d, m !! k = Some (mkEntry v d) -> deadline_passed t d = false).
  { intros k v d Hk. eapply later_live; [|done]. apply (quiet_lookup _ _ _ _ Hm Hk). }
  destruct cmd as [[key|key|key]|[key v d|key|key d|key]];
    unfold KvStore.execute; rewrite run_bind; cbn [apply_command apply].
  - rewrite run_get, Hn. destruct (m !! key) as [[v d]|] eqn:Hk; [|by do 2 eexists].
    unfold is_expired. rewrite (Hlive _ _ _ Hk : deadline_passed t (entry_expires_at (mkEntry v d)) = _).
    by do 2 eexists.
  - rewrite run_contains, Hn. destruct (m !! key) as [[v [d|]]|] eqn:Hk; [|by do 2 eexists..].
    rewrite (Hlive _ _ _ Hk : ms_ge t d = _). by do 2 eexists.
  - destruct (bounded_now T c1 Hb1) as (t2 & c2 & Hn2 & _ & Hb2).
    rewrite run_time_to_live, Hn. destruct (m !! key) as [[v d]|] eqn:Hk; [|by do 2 eexists].
    unfold is_expired. rewrite (Hlive _ _ _ Hk : deadline_passed t (entry_expires_at (mkEntry v d)) = _).
    cbn [entry_expires_at]. destruct d; rewrite ?Hn2; by do 2 eexists.
  - rewrite run_insert. by do 2 eexists.
  - rewrite run_remove. by do 2 eexists.
  - rewrite run_set_expires_at, Hn, (later_live T t (Some d) Hq Ht : ms_ge t d = _).
    destruct (m !! key) as [e|] eqn:Hk.
    + rewrite (alter_insert_Some _ _ _ e) by done. by do 2 eexists.
    + rewrite alter_same by (by rewrite Hk). by do 2 eexists.
  - rewrite run_remove_ttl, Hn. destruct (m !! key) as [[v [d|]]|] eqn:Hk.
    + rewrite (Hlive _ _ _ Hk : ms_ge t d = _), (alter_insert_Some _ _ _ _ Hk).
      by do 2 eexists.
    + rewrite alter_same by (by rewrite Hk). by do 2 eexists.
    + rewrite alter_same by (by rewrite Hk). by do 2 eexists.
Qed.

Lemma cache_all_returns cmds c m :
  exists outs err c' m', cache_all cmds (cache_new c m) = Some (outs, err, cache_new c' m').
Proof.
  revert c m. induction cmds as [|cmd cmds IH]; intros c m; [by do 4 eexists|].
  cbn [cache_all]. destruct (run_execute_frame cmd c m) as (r & c1 & m1 & -> & _).
  destruct r as [out|e]; [|by do 4 eexists].
  destruct (IH c1 m1) as (outs & err & c' & m' & ->). by do 4 eexists.
Qed.

Lemma cache_all_quiet T cmds c m :
  bounded T c -> quiet_map T m -> Forall (quiet_command T) cmds ->
  exists outs c', cache_all cmds (cache_new c m) =
      Some (outs, None, cache_new c' (fold_left apply_command cmds m)) /\ bounded T c'.
Proof.
  intros Hb Hm Hq. revert c m Hb Hm. induction Hq as [|cmd cmds Hcmd _ IH]; intros c m Hb Hm.
  - by do 2 eexists.
  - destruct (run_execute_quiet T cmd c m Hb Hm Hcmd) as (out & c1 & Hr & Hb1).
    assert (Hm1 : quiet_map T (apply_command m cmd)).
    { destruct cmd; [done|]. by apply quiet_apply. }
    destruct (IH c1 _ Hb1 Hm1) as (outs & c2 & He & Hb2).
    exists (out :: outs), c2. cbn [cache_all fold_left]. rewrite Hr, He. by split.
Qed.

Lemma fold_apply_writes l m : fold_left apply_command (map CacheWrite l) m = replayed l m.
Proof. unfold replayed. revert m. by induction l as [|wc l IH]; intros m; cbn. Qed.

Lemma replayed_app l1 l2 m : replayed (l1 ++ l2) m = replayed l2 (replayed l1 m).
Proof. apply fold_left_app. Qed.

(** ** Replaying a log twice

    On one key a write is either a constant or sets the deadline of what is
    there; a log is then one of the two on that key, and both are idempotent. *)

Inductive key_effect : Type :=
| Const (x : option Entry)
| Deadline (d : option (option Milliseconds)).

Definition run_effect (f : key_effect) (x : option Entry) : option Entry :=
  match f with
  | Const y => y
  | Deadline None => x
  | Deadline (Some d) => (fun e => mkEntry (entry_value e) d) <$> x
  end.

Definition write_effect (k : bytes) (wc : WriteCommand) : key_effect :=
  if decide (write_key wc = k) then
    match wc with
    | WSet _ v d => Const (Some (mkEntry v d))
    | WDelete _ => Const None
    | WExpireAt _ d => Deadline (Some (Some d))
    | WPersist _ => Deadline (Some None)
    end
  else Deadline None.

(** [g] after [f]. *)
Definition compose_effect (g f : key_effect) : key_effect :=
  match g, f with
  | Const _, _ => g
  | _, Const x => Const (run_effect g x)
  | Deadline None, _ => f
  | Deadline (Some _), _ => g
  end.

Lemma compose_effect_run g f x :
  run_effect (compose_effect g f) x = run_effect g (run_effect f x).
Proof. destruct g as [y|[d|]], f as [z|[d'|]]; cbn; try done. by destruct x. Qed.

Lemma effect_idem f x : run_effect f (run_effect f x) = run_effect f x.
Proof. destruct f as [y|[d|]]; cbn; try done. by destruct x. Qed.

Lemma lookup_apply m wc k : apply m wc !! k = run_effect (write_effect k wc) (m !! k).
Proof.
  unfold write_effect. destruct wc as [key v d|key|key d|key]; cbn; case_decide as Hk; cbn.
  - by rewrite Hk, lookup_insert_eq.
  - by rewrite lookup_insert_ne.
  - by rewrite Hk, lookup_delete_eq.
  - by rewrite lookup_delete_ne.
  - by rewrite Hk, lookup_alter_eq.
  - by rewrite lookup_alter_ne.
  - by rewrite Hk, lookup_alter_eq.
  - by rewrite lookup_alter_ne.
Qed.

Lemma lookup_replayed l k :
  exists f, forall m, replayed l m !! k = run_effect f (m !! k).
Proof.
  induction l as [|wc l IH] using rev_ind; [by exists (Deadline None)|].
  destruct IH as [f Hf]. exists (compose_effect (write_effect k wc) f). intros m.
  rewrite replayed_app. cbn. by rewrite lookup_apply, Hf, compose_effect_run.
Qed.

Lemma replayed_idem l m : replayed l (replayed l m) = replayed l m.
Proof.
  apply map_eq. intros k. destruct (lookup_replayed l k) as [f Hf].
  by rewrite !Hf, effect_idem.
Qed.

(** ** Startup: the first lines of [Server::run] *)

Section startup.
Context `{Wincode}.

(** Load the snapshot, build the cache over it, replay, sweep. *)
Definition boot : prog (CacheState * Persister) BoxError unit :=
  data ← p_map_err Boxed (zoom lens_snd snapshot_load);
  atomic (fun s => (Ok (), (cache_new (cs_clock s.1) data, s.2)));;
  p_map_err Boxed Aof.replay;;
  p_map_err Boxed (zoom lens_fst KvStore.remove_expired);;
  mret ().

(** The process starts with a clock and the files, and nothing else. *)
Definition startup (c : Clock) (fs : Fs) : option (result BoxError (CacheState * Persister)) :=
  match initialize fs with
  | (Ok persister, _) =>
      match run boot (cache_new c ∅, persister) with
      | Some (Ok _, s) => Some (Ok s)
      | Some (Err e, _) => Some (Err e)
      | None => None
      end
  | (Err e, _) => Some (Err (Boxed e))
  end.
End startup.

(** ** The invariant *)

Section durable.
Context `{Wincode}.

(** The snapshot file holds [ms], an empty file the empty map. *)
Definition snapshot_holds (fs : Fs) (ms : CacheMap) : Prop :=
  exists b, fs_files fs !! SNAPSHOT_PATH = Some b /\
    (if decide (b = []) then ms = ∅ else deserialize b = Ok ms).

(** What the files say is what the cache's map [m] is: a snapshot of [ms], a
    log of [l], and [m] is [ms] after [l]; no deadline comes before [T] is past. *)
Definition durable_at (T : N) (m ms : CacheMap) (l : list WriteCommand) (p : Persister) : Prop :=
  snapshot_holds (ps_fs p) ms /\ holds p l /\ m = replayed l ms /\
  quiet_map T ms /\ Forall (quiet_write T) l.

Definition durable (T : N) (m : CacheMap) (p : Persister) : Prop :=
  exists ms l, durable_at T m ms l p.

Lemma durable_quiet T m p : durable T m p -> quiet_map T m.
Proof. intros (ms & l & _ & _ & -> & ? & ?). by apply quiet_replayed. Qed.
End durable.

(** ** Startup on good files *)

Lemma no_faults_next files fs :
  no_faults fs -> no_faults (mkFs files (fs_faults fs) (S (fs_ops fs))).
Proof. intros Hn n Hle. cbn in Hle |- *. apply Hn. lia. Qed.

Lemma fs_op_ok {A} (f : gmap bytes bytes -> result IoError A * gmap bytes bytes) g fs :
  no_faults fs ->
  exists fs', fs_op f g fs = ((f (fs_files fs)).1, fs') /\
    fs_files fs' = (f (fs_files fs)).2 /\ no_faults fs'.
Proof.
  intros Hn. exists (mkFs (f (fs_files fs)).2 (fs_faults fs) (S (fs_ops fs))).
  split_and!; [|done|by apply no_faults_next].
  unfold fs_op. rewrite Hn by lia. by destruct (f (fs_files fs)).
Qed.

Lemma PersisterInner_try_from_ok path fs c :
  no_faults fs -> fs_files fs !! path = Some c ->
  exists fs', PersisterInner_try_from path fs = (Ok (mkPersisterInner (mutex_new []) path), fs') /\
    fs_files fs' = fs_files fs /\ no_faults fs'.
Proof.
  intros Hn Hc. unfold PersisterInner_try_from, mbind, M_bind, m_bind.
  assert (exists fs1, (if decide (parent path = []) then mret () else create_dir_all) fs =
            (Ok (), fs1) /\ fs_files fs1 = fs_files fs /\ no_faults fs1) as (fs1 & -> & Hf1 & Hn1).
  { case_decide; [by exists fs|]. by apply (fs_op_ok (fun files => (Ok (), files))). }
  destruct (fs_op_ok (fun files => (Ok (), <[path := default [] (files !! path)]> files))
              (fun _ files => files) fs1 Hn1) as (fs2 & He & Hf2 & Hn2).
  unfold file_open_append, fs_update. rewrite He. cbn [fst].
  exists fs2. split_and!; [done| |done].
  rewrite Hf2, Hf1. cbn [snd]. rewrite Hc. cbn. by apply insert_id.
Qed.

Lemma initialize_ok fs c1 c2 :
  no_faults fs -> fs_files fs !! AOF_PATH = Some c1 -> fs_files fs !! SNAPSHOT_PATH = Some c2 ->
  exists p fs', initialize fs = (Ok p, fs') /\ healthy p /\
    fs_files (ps_fs p) = fs_files fs /\ no_faults (ps_fs p).
Proof.
  intros Hn H1 H2. unfold initialize, m_map_err, mbind, M_bind, m_bind.
  destruct (PersisterInner_try_from_ok AOF_PATH fs c1 Hn H1) as (fs1 & -> & Hf1 & Hn1).
  cbn [map_err]. rewrite <- Hf1 in H2.
  destruct (PersisterInner_try_from_ok SNAPSHOT_PATH fs1 c2 Hn1 H2) as (fs2 & -> & Hf2 & Hn2).
  cbn [map_err]. do 2 eexists. split; [reflexivity|]. cbn. split_and!; [done|congruence|done].
Qed.

(** Opening and reading a whole file that is there. *)
Lemma run_read_file (path : Persister -> bytes) (p : Persister) (c : bytes) :
  no_faults (ps_fs p) -> fs_files (ps_fs p) !! path p = Some c ->
  (forall fs, path (set_fs fs p) = path p) ->
  exists fs',
    run (atomic (fun s => m_zoom fsL (file_open (path s)) s)) p = Some (Ok (), set_fs fs' p) /\
    fs_files fs' = fs_files (ps_fs p) /\ no_faults fs' /\
    exists fs'', run (atomic (fun s => m_zoom fsL (file_read_to_end (path s)) s)) (set_fs fs' p) =
                 Some (Ok c, set_fs fs'' p) /\
      fs_files fs'' = fs_files (ps_fs p) /\ no_faults fs''.
Proof.
  intros Hn Hc Hp. unfold m_zoom, file_open, file_read_to_end, fs_query. cbn [view fsL put].
  destruct (fs_op_ok (fun files => (match files !! path p with
                                    | Some _ => Ok () | None => Err NotFound end, files))
              (fun _ files => files) _ Hn) as (fs1 & He1 & Hf1 & Hn1).
  exists fs1. rewrite run_atomic, He1. cbn [fst snd] in *. rewrite Hc. split_and!; [done..|].
  destruct (fs_op_ok (fun files => (Ok (default [] (files !! path p)) : result IoError bytes, files))
              (fun _ files => files) _ Hn1) as (fs2 & He2 & Hf2 & Hn2).
  exists fs2. rewrite run_atomic, Hp. cbn [ps_fs set_fs]. rewrite He2. cbn [fst snd] in *.
  rewrite Hf1, Hc. split_and!; [done|congruence|done].
Qed.

Lemma healthy_set_fs fs p : healthy (set_fs fs p) <-> healthy p.
Proof. done. Qed.

Lemma run_read_log p c :
  healthy p -> no_faults (ps_fs p) -> fs_files (ps_fs p) !! AOF_PATH = Some c ->
  exists fs', run Aof.read_log p = Some (Ok c, set_fs fs' p) /\
    fs_files fs' = fs_files (ps_fs p) /\ no_faults fs'.
Proof.
  intros [Ha _] Hn Hc.
  assert (Hp : pi_path (ps_aof p) = AOF_PATH) by (by rewrite Ha). rewrite <- Hp in Hc.
  destruct (run_read_file (fun s => pi_path (ps_aof s)) p c Hn Hc ltac:(done))
    as (fs1 & Hr1 & _ & _ & fs2 & Hr2 & Hf2 & Hn2).
  exists fs2. split_and!; [|done|done]. unfold Aof.read_log. by rewrite run_bind, Hr1, Hr2.
Qed.

(** Replay of the log of [l] and a tail, with the files readable. *)
Lemma run_replay p l tail e c m :
  healthy p -> no_faults (ps_fs p) ->
  fs_files (ps_fs p) !! AOF_PATH = Some (log_bytes l ++ tail) ->
  Forall loggable l -> parse_one tail = Err e ->
  exists fs', fs_files fs' = fs_files (ps_fs p) /\ no_faults fs' /\
    run Aof.replay (cache_new c m, p) =
    match cache_all (map CacheWrite l) (cache_new c m) with
    | Some (_, None, s') => Some (after_log e, (s', set_fs fs' p))
    | Some (_, Some e', s') => Some (Err (AofCache e'), (s', set_fs fs' p))
    | None => None
    end.
Proof.
  intros Hh Hn Hc Hl Ht. destruct (run_read_log p _ Hh Hn Hc) as (fs' & Hr & Hf & Hn').
  exists fs'. split_and!; [done..|]. unfold Aof.replay.
  rewrite run_bind, run_map_err, run_zoom. cbn [view put lens_snd snd fst]. rewrite Hr.
  cbn [map_err]. rewrite run_zoom. cbn [view put lens_fst snd fst].
  rewrite (run_replay_loop _ _ _ e) by (first [done | unfold log_bytes; rewrite length_app;
    pose proof (length_log_bytes l); unfold log_bytes in *; lia]).
  by destruct (cache_all (map CacheWrite l) (cache_new c m)) as [[[outs [e'|]] s']|].
Qed.

Lemma run_snapshot_load `{Wincode} p ms :
  healthy p -> no_faults (ps_fs p) -> snapshot_holds (ps_fs p) ms ->
  exists fs', run snapshot_load p = Some (Ok ms, set_fs fs' p) /\
    fs_files fs' = fs_files (ps_fs p) /\ no_faults fs'.
Proof.
  intros [_ Hs] Hn (b & Hb & Hms). rewrite <- Hs in Hb.
  destruct (run_read_file (fun s => pi_path (ps_snapshot s)) p b Hn Hb ltac:(done))
    as (fs1 & Hr1 & _ & _ & fs2 & Hr2 & Hf2 & Hn2).
  exists fs2. split_and!; [|done|done]. unfold snapshot_load.
  rewrite run_bind, run_map_err, Hr1. cbn [map_err]. rewrite run_bind, run_map_err, Hr2.
  cbn [map_err]. case_decide; [by rewrite Hms|]. cbn. by rewrite Hms.
Qed.

Section theorems.
Context `{Wincode}.

(** The files of a durable state, the log perhaps with the beginning of a frame after
    it. *)
Lemma run_boot_torn T p c ms l torn :
  healthy p -> no_faults (ps_fs p) -> snapshot_holds (ps_fs p) ms -> Forall loggable l ->
  fs_files (ps_fs p) !! AOF_PATH = Some (log_bytes l ++ torn) -> parse_one torn = Err Incomplete ->
  quiet_map T ms -> Forall (quiet_write T) l -> bounded T c ->
  exists c' fs', run boot (cache_new c ∅, p) =
      Some (Ok (), (cache_new c' (replayed l ms), set_fs fs' p)) /\
    fs_files fs' = fs_files (ps_fs p) /\ bounded T c'.
Proof.
  intros Hh Hn Hs Hl Hlog Htorn Hms Hql Hb.
  destruct (run_snapshot_load p ms Hh Hn Hs) as (fs1 & Hr1 & Hf1 & Hn1).
  unfold boot. rewrite run_bind, run_map_err, run_zoom. cbn [view put lens_snd snd fst].
  rewrite Hr1. cbn [map_err]. rewrite run_bind, run_atomic. cbn [fst snd cs_clock cache_new].
  rewrite <- Hf1 in Hlog.
  destruct (run_replay (set_fs fs1 p) l torn Incomplete c ms Hh Hn1 Hlog Hl Htorn)
    as (fs2 & Hf2 & Hn2 & Hr2).
  destruct (cache_all_quiet T (map CacheWrite l) c ms Hb Hms) as (outs & c2 & Hall & Hb2).
  { by apply Forall_map. }
  rewrite Hall, fold_apply_writes in Hr2.
  rewrite run_bind, run_map_err. cbn [fst snd cs_clock cache_new] in *. rewrite Hr2.
  cbn [map_err]. rewrite run_bind, run_map_err, run_zoom. cbn [view put lens_fst snd fst].
  destruct (bounded_now T c2 Hb2) as (t & c3 & Hnow & Ht & Hb3).
  rewrite run_remove_expired, Hnow. cbn [map_err].
  rewrite (quiet_live T) by first [done | by apply quiet_replayed].
  exists c3, fs2. split_and!; [done| |done]. rewrite Hf2. cbn. done.
Qed.

Lemma run_boot T p c m :
  durable T m p -> bounded T c -> no_faults (ps_fs p) ->
  exists c' fs', run boot (cache_new c ∅, p) = Some (Ok (), (cache_new c' m, set_fs fs' p)) /\
    fs_files fs' = fs_files (ps_fs p) /\ bounded T c'.
Proof.
  intros (ms & l & Hs & (Hh & Hlog & Hl) & -> & Hms & Hql) Hb Hn.
  rewrite <- (app_nil_r (log_bytes l)) in Hlog. by eapply run_boot_torn.
Qed.

(** *** A snapshot, step by step *)

(** The files the invariant is about are the same. *)
Definition agree (fs fs' : Fs) : Prop :=
  fs_files fs' !! AOF_PATH = fs_files fs !! AOF_PATH /\
  fs_files fs' !! SNAPSHOT_PATH = fs_files fs !! SNAPSHOT_PATH.

Lemma durable_at_agree T m ms l p fs' :
  agree (ps_fs p) fs' -> durable_at T m ms l p -> durable_at T m ms l (set_fs fs' p).
Proof.
  intros [Ha Hs] ((b & Hb & Hms) & (Hh & Hc & Hl) & H3). split_and!; [|split_and!|apply H3..].
  - exists b. by rewrite <- Hb.
  - exact Hh.
  - by rewrite <- Hc.
  - done.
Qed.

Lemma fs_op_cases {A} (f : gmap bytes bytes -> result IoError A * gmap bytes bytes) g fs r fs' :
  fs_op f g fs = (r, fs') ->
  (exists e n, r = Err e /\ fs_files fs' = g n (fs_files fs)) \/
  (r, fs_files fs') = f (fs_files fs).
Proof.
  unfold fs_op. destruct (fs_faults fs (fs_ops fs)) as [ft|].
  - intros [= <- <-]. left. by do 2 eexists.
  - destruct (f (fs_files fs)) as [r0 files]. intros [= <- <-]. by right.
Qed.

(** An operation that can only change the file at [path]. *)
Definition only (path : bytes) (m : M Fs IoError unit) : Prop :=
  forall fs r fs', m fs = (r, fs') ->
    forall path', path' <> path -> fs_files fs' !! path' = fs_files fs !! path'.

Lemma only_open_truncate path : only path (file_open_truncate path).
Proof.
  intros fs r fs' [(e & n & _ & ->)|[= _ ->]]%fs_op_cases path' Hne; [done|].
  by rewrite lookup_insert_ne.
Qed.
Lemma only_write_all path b : only path (file_write_all path b).
Proof.
  intros fs r fs'. unfold file_write_all. case_decide; [intros [= _ <-]; done|].
  intros [(e & n & _ & ->)|[= _ ->]]%fs_op_cases path' Hne; by rewrite lookup_alter_ne.
Qed.
Lemma only_nothing path : only path (fs_update (fun files => files)).
Proof. by intros fs r fs' [(e & n & _ & ->)|[= _ ->]]%fs_op_cases. Qed.

Lemma only_agree path m fs r fs' :
  only path m -> path <> AOF_PATH -> path <> SNAPSHOT_PATH -> m fs = (r, fs') -> agree fs fs'.
Proof. intros Ho Ha Hs Hm. split; by eapply Ho. Qed.

Lemma on_snapshot_always I Q (f : bytes -> M Fs IoError unit) p :
  I p ->
  (forall r fs', f (pi_path (ps_snapshot p)) (ps_fs p) = (r, fs') ->
     I (set_fs fs' p) /\ Q (map_err SnIo r) (set_fs fs' p)) ->
  always I Q (on_snapshot f) p.
Proof.
  intros Hi Hf. apply always_map_err. unfold m_zoom. cbn [view fsL].
  destruct (f (pi_path (ps_snapshot p)) (ps_fs p)) as [r fs'] eqn:He.
  destruct (Hf r fs' eq_refl). by apply always_atomic; rewrite ?He.
Qed.

Definition TMP_PATH : bytes := with_extension SNAPSHOT_PATH (bstr "tmp").
Arguments TMP_PATH : simpl never.
Lemma TMP_not_AOF : TMP_PATH <> AOF_PATH.
Proof. by vm_compute. Qed.
Lemma TMP_not_SNAPSHOT : TMP_PATH <> SNAPSHOT_PATH.
Proof. by vm_compute. Qed.

Lemma snapshot_path T m ms l p :
  durable_at T m ms l p -> pi_path (ps_snapshot p) = SNAPSHOT_PATH.
Proof. intros (_ & ([_ Hp] & _) & _). done. Qed.

(** A call that can only change the temporary file. *)
Lemma step_on_tmp T m ms l f p :
  durable_at T m ms l p -> only TMP_PATH (f SNAPSHOT_PATH) ->
  always (durable T m)
    (fun r p' => durable_at T m ms l p' /\
       exists r' fs', r = map_err SnIo r' /\ p' = set_fs fs' p /\
         f SNAPSHOT_PATH (ps_fs p) = (r', fs'))
    (on_snapshot f) p.
Proof.
  intros Hd Ho. apply on_snapshot_always; [by do 2 eexists|].
  rewrite (snapshot_path _ _ _ _ _ Hd). intros r fs' Hf.
  assert (Hd' : durable_at T m ms l (set_fs fs' p)).
  { apply durable_at_agree; [|done].
    by eapply only_agree; [exact Ho|apply TMP_not_AOF|apply TMP_not_SNAPSHOT|]. }
  split; [by do 2 eexists|]. split; [done|]. by do 2 eexists.
Qed.

(** The package gives back the map it was given, and never writes nothing. *)
Definition reads_back (m : CacheMap) : Prop :=
  forall b, serialize m = Ok b -> b <> [] /\ deserialize b = Ok m.

(** [store] of the cache's map: the files agree with the cache at every step, and
    when it answers [Ok] the snapshot alone does. *)
Lemma store_always T m p :
  durable T m p -> reads_back m ->
  always (durable T m)
    (fun r p' => durable T m p' /\ (r = Ok () -> exists l, durable_at T m m l p'))
    (snapshot_store m) p.
Proof.
  intros (ms & l & Hd) Hser. unfold snapshot_store.
  apply always_bind. eapply always_mono; [|apply step_on_tmp; [exact Hd|apply only_open_truncate]].
  intros [[]|e] p1 _ (Hd1 & r1 & fs1 & Hr1 & -> & Hf1); [|by split; [do 2 eexists|]].
  destruct r1 as [[]|]; [clear Hr1|done].
  assert (Ht1 : fs_files fs1 !! TMP_PATH = Some []).
  { apply fs_op_cases in Hf1 as [(? & ? & ? & _)|[= ->]]; [done|]. apply lookup_insert_eq. }
  apply always_bind. destruct (serialize m) as [b|e] eqn:Hs; cbn [map_err always].
  2:{ split; [by do 2 eexists|]. by split; [do 2 eexists|]. }
  split; [by do 2 eexists|]. destruct (Hser b Hs) as [Hb Hde].
  apply always_bind. eapply always_mono; [|apply step_on_tmp; [exact Hd1|apply only_write_all]].
  intros [[]|e] p2 _ (Hd2 & r2 & fs2 & Hr2 & -> & Hf2); [|by split; [do 2 eexists|]].
  destruct r2 as [[]|]; [clear Hr2|done].
  assert (Ht2 : fs_files fs2 !! TMP_PATH = Some b).
  { apply file_write_all_Ok in Hf2 as [_ ->]. fold TMP_PATH. cbn [ps_fs set_fs]. by rewrite lookup_alter_eq, Ht1. }
  apply always_bind. eapply always_mono; [|apply step_on_tmp; [exact Hd2|apply only_nothing]].
  intros [[]|e] p3 _ (Hd3 & r3 & fs3 & Hr3 & -> & Hf3); [|by split; [do 2 eexists|]].
  destruct r3 as [[]|]; [clear Hr3|done].
  assert (Ht3 : fs_files fs3 !! TMP_PATH = Some b).
  { apply fs_op_cases in Hf3 as [(? & ? & ? & _)|[= ->]]; done. }
  apply always_bind. apply on_snapshot_always; [by do 2 eexists|].
  rewrite (snapshot_path _ _ _ _ _ Hd3). fold TMP_PATH. cbn [ps_fs set_fs].
  intros r4 fs4 Hf4.
  apply fs_op_cases in Hf4 as [(e & n & -> & Hf4)|Hf4].
  { assert (durable_at T m ms l (set_fs fs4 (set_fs fs3 (set_fs fs2 (set_fs fs1 p))))) as Hd4.
    { apply durable_at_agree; [|done]. unfold agree. cbn. by rewrite Hf4. }
    split; [by do 2 eexists|]. cbn. by split; [do 2 eexists|]. }
  rewrite Ht3 in Hf4. injection Hf4 as -> Hf4. cbn [map_err].
  set (p4 := set_fs fs4 _).
  assert (Hd4 : durable_at T m m l p4).
  { destruct Hd3 as ((b0 & _ & _) & (Hh & Hc & Hl) & Hm & Hq & Hql).
    split_and!; [|split_and!; [exact Hh| |done]| | |done].
    - exists b. cbn. rewrite Hf4, lookup_insert_eq. split; [done|]. by rewrite decide_False.
    - cbn in Hc |- *. rewrite Hf4, lookup_insert_ne by done.
      by rewrite lookup_delete_ne by apply TMP_not_AOF.
    - rewrite Hm at 2. by rewrite replayed_idem.
    - rewrite Hm. by apply quiet_replayed. }
  split; [by do 2 eexists|].
  apply always_bind. eapply always_mono; [|apply step_on_tmp; [exact Hd4|apply only_nothing]].
  intros [[]|e] p5 _ (Hd5 & _); [|by split; [do 2 eexists|]].
  eapply always_mono; [|apply step_on_tmp; [exact Hd5|apply only_nothing]].
  intros r p6 _ (Hd6 & _). split; [by do 2 eexists|]. eauto.
Qed.

(** [clear] empties the log file or leaves it as it is. *)
Lemma run_clear p c :
  healthy p -> fs_files (ps_fs p) !! AOF_PATH = Some c ->
  exists r fs', run Aof.clear p = Some (r, set_fs fs' p) /\
    ((exists e, r = Err e) /\ fs_files fs' = fs_files (ps_fs p) \/
     r = Ok () /\ fs_files fs' = <[AOF_PATH := []]> (fs_files (ps_fs p))) /\
    (no_faults (ps_fs p) -> r = Ok () /\ no_faults fs').
Proof.
  intros [Ha Hp] Hc. unfold Aof.clear. rewrite run_locked by (cbn; by rewrite Ha).
  unfold m_map_err, m_zoom, mbind, M_bind, m_bind. cbn [flush FileWriter_Write].
  rewrite flush_buf_nil by (cbn; by rewrite Ha). cbn [map_err]. rewrite put_view, Ha.
  cbn [pi_path view fsL].
  destruct (file_clear AOF_PATH (ps_fs p)) as [r fs'] eqn:Hf. exists (map_err AofIo r), fs'.
  split; [done|]. split.
  - apply fs_op_cases in Hf as [(e & n & -> & ->)|[= -> ->]]; [left; by split; [eexists|]|right].
    by rewrite (alter_insert_Some _ _ _ _ Hc).
  - intros Hn. unfold file_clear, fs_update in Hf.
    destruct (fs_op_ok (fun files => (Ok (), alter (fun _ => []) AOF_PATH files))
                (fun _ files => files) _ Hn) as (fs2 & He & _ & Hn2).
    rewrite He in Hf. by injection Hf as <- <-.
Qed.

Lemma clear_always T m l p :
  durable_at T m m l p ->
  always (durable T m)
    (fun r p' => durable T m p' /\ (r = Ok () -> durable_at T m m [] p')) Aof.clear p.
Proof.
  intros Hd. assert (Hdur : durable T m p) by (by do 2 eexists).
  destruct Hd as (Hs & (Hh & Hc & Hl) & Hm & Hq & Hql).
  destruct (run_clear p _ Hh Hc) as (r & fs' & Hb & Hcase & _).
  assert (durable T m (set_fs fs' p) /\ (r = Ok () -> durable_at T m m [] (set_fs fs' p)))
    as [Hd1 Hd2].
  { destruct Hcase as [[[e ->] Hf]|[-> Hf]].
    - split; [|done]. exists m, l. apply durable_at_agree; [by unfold agree; rewrite Hf|].
      by split_and!.
    - assert (durable_at T m m [] (set_fs fs' p)); [|by split; [do 2 eexists|]].
      split_and!; [|split_and!; [exact Hh| |done]|done|done|done].
      + destruct Hs as (b & Hb1 & Hb2). exists b. cbn [ps_fs set_fs].
        by rewrite Hf, lookup_insert_ne.
      + cbn [ps_fs set_fs]. by rewrite Hf, lookup_insert_eq. }
  by eapply always_locked_run; [exact Hb|..].
Qed.

(** *** [Persister::snapshot] *)

Lemma snapshot_always T c m p :
  durable T m p -> reads_back m ->
  always (fun s => guarded (cs_inner s.1) = m /\ durable T m s.2)
    (fun r s => s.1 = cache_new c m /\ (r = Ok () -> exists p, s.2 = p /\ durable_at T m m [] p))
    persister_snapshot (cache_new c m, p).
Proof.
  intros Hd Hser. unfold persister_snapshot.
  set (held_cache := mkCacheState c (mkMutex true false m)).
  apply always_bind, always_lock; [done|by split|by split|].
  change (put (lens_comp lens_fst innerL) _ _) with (held_cache, p).
  apply always_then. eapply (always_mono _ (fun r s => s.1 = held_cache /\
    (r = Ok () -> durable_at T m m [] s.2))).
  { intros r [cs p'] [_ Hi] [Hs Hr]. cbn in Hs, Hr, Hi. subst cs.
    apply always_then, always_atomic; [by split..|]. cbn. split_and!; [done..|].
    intros ->. eauto. }
  apply always_bind, always_atomic; [by split..|]. cbn [fst snd guarded held_cache cs_inner].
  apply always_bind, always_map_err, always_zoom. cbn [view lens_snd snd put fst].
  eapply always_impl; [..|apply store_always; [exact Hd|exact Hser]]; [by intros|].
  intros r1 p1 [Hd1 Hok1]. destruct r1 as [[]|e]; cbn [map_err]; [|by split].
  destruct (Hok1 eq_refl) as [l Hl].
  apply always_bind, always_map_err, always_zoom. cbn [view lens_snd snd put fst].
  eapply always_impl; [..|apply (clear_always T m l); exact Hl]; [by intros|].
  intros r2 p2 [Hd2 Hok2]. destruct r2 as [[]|e]; cbn [map_err]; [|by split].
  split; [by split|]. split; [done|]. intros _. by apply Hok2.
Qed.

(** *** Commands through the executor *)

Lemma append_durable T m p wc :
  durable T m p -> loggable wc -> quiet_write T wc ->
  exists r p', run (append wc) p = Some (r, p') /\
    (r = Ok () -> durable T (apply m wc) p') /\
    (no_faults (ps_fs p) -> r = Ok () /\ no_faults (ps_fs p')).
Proof.
  intros (ms & l & (b & Hb & Hms) & Hl & Hm & Hq & Hql) Hwc Hw.
  destruct (run_append_holds p l wc Hl Hwc) as (r & p' & Hr & Hok & Hnf).
  exists (map_err RepositoryError_from_AofError r), p'. split_and!.
  - cbn [append Persister_Repository]. by rewrite run_persister_append, Hr.
  - intros He. destruct r as [[]|e]; [|done]. destruct (Hok eq_refl) as [Hl' Hs'].
    exists ms, (l ++ [wc]). split_and!; [|done| |done|].
    + exists b. by rewrite Hs'.
    + by rewrite replayed_app, Hm.
    + apply Forall_app; split; [done|by constructor].
  - intros Hn. destruct (Hnf Hn) as [-> ?]. done.
Qed.

Lemma execute_all_durable T cmds c m p :
  durable T m p -> bounded T c ->
  Forall (quiet_command T) cmds -> Forall CacheCommand_loggable cmds ->
  exists outs err s', execute_all cmds (mkExecutor (cache_new c m) p) = Some (outs, err, s') /\
    (err = None -> exists c', bounded T c' /\
       ex_cache s' = cache_new c' (fold_left apply_command cmds m) /\
       durable T (fold_left apply_command cmds m) (ex_repo s')) /\
    (no_faults (ps_fs p) -> err = None /\ no_faults (ps_fs (ex_repo s'))).
Proof.
  intros Hd Hb Hq Hl. revert c m p Hd Hb.
  induction Hq as [|cmd cmds Hcmd Hq IH]; intros c m p Hd Hb.
  { do 3 eexists. split; [done|]. split; [|done]. intros _. by exists c. }
  inversion_clear Hl as [|? ? Hlc Hl'].
  destruct (run_execute_quiet T cmd c m Hb (durable_quiet _ _ _ Hd) Hcmd)
    as (out & c1 & Hr & Hb1).
  cbn [execute_all]. cbn [execute_logged Executor_Execute]. rewrite run_execute_logged, Hr.
  assert (Hstep : forall p1, durable T (apply_command m cmd) p1 ->
    exists outs err s',
      ('(outs, err, s'') ← execute_all cmds (mkExecutor (cache_new c1 (apply_command m cmd)) p1);
       Some (out :: outs, err, s'')) = Some (outs, err, s') /\
    (err = None -> exists c', bounded T c' /\
       ex_cache s' = cache_new c' (fold_left apply_command (cmd :: cmds) m) /\
       durable T (fold_left apply_command (cmd :: cmds) m) (ex_repo s')) /\
    (no_faults (ps_fs p1) -> err = None /\ no_faults (ps_fs (ex_repo s')))).
  { intros p1 Hd1. destruct (IH Hl' c1 _ p1 Hd1 Hb1) as (outs & err & s' & -> & He).
    by exists (out :: outs), err, s'. }
  destruct cmd as [rc|wc]; [by apply Hstep|].
  destruct (append_durable T m p wc Hd Hlc Hcmd) as (r & p1 & -> & Hok & Hnf).
  destruct r as [[]|e].
  - destruct (Hstep p1 (Hok eq_refl)) as (outs & err & s' & He & Hs & Hn).
    exists outs, err, s'. split_and!; [done..|]. intros Hn0. apply Hn. by apply Hnf.
  - do 3 eexists. split; [done|]. split; [done|]. intros Hn0. by destruct (Hnf Hn0).
Qed.

(** Startup finds the map, on the files of a durable state. *)
Lemma startup_durable T m p c fs :
  durable T m p -> bounded T c -> no_faults fs -> fs_files fs = fs_files (ps_fs p) ->
  exists c' p', startup c fs = Some (Ok (cache_new c' m, p')) /\ bounded T c' /\ durable T m p'.
Proof.
  intros (ms & l & (b & Hb & Hms) & (Hh & Hc & Hl) & H3) Hbc Hn Hf.
  rewrite <- Hf in Hb, Hc.
  destruct (initialize_ok fs _ _ Hn Hc Hb) as (p1 & fs1 & Hi & Hh1 & Hf1 & Hn1).
  assert (Hd1 : durable T m p1).
  { exists ms, l. split_and!; [|split_and!; [exact Hh1| |done]|apply H3..].
    - exists b. by rewrite Hf1.
    - by rewrite Hf1. }
  destruct (run_boot T p1 c m Hd1 Hbc Hn1) as (c2 & fs2 & Hr & Hf2 & Hb2).
  exists c2, (set_fs fs2 p1). unfold startup. rewrite Hi, Hr. split_and!; [done..|].
  destruct Hd1 as (ms1 & l1 & Hd1). exists ms1, l1. apply durable_at_agree; [|done].
  unfold agree. by rewrite Hf2.
Qed.

(** And when an append was cut short at the end of the log. *)
Lemma startup_torn T m ms l p torn c fs :
  durable_at T m ms l p -> bounded T c -> no_faults fs -> parse_one torn = Err Incomplete ->
  fs_files fs = <[AOF_PATH := log_bytes l ++ torn]> (fs_files (ps_fs p)) ->
  exists c' p', startup c fs = Some (Ok (cache_new c' m, p')).
Proof.
  intros ((b & Hb & Hms) & (Hh & Hc & Hl) & -> & Hq & Hql) Hbc Hn Htorn Hf.
  assert (Hc' : fs_files fs !! AOF_PATH = Some (log_bytes l ++ torn)) by by rewrite Hf, lookup_insert_eq.
  assert (Hb' : fs_files fs !! SNAPSHOT_PATH = Some b) by by rewrite Hf, lookup_insert_ne.
  destruct (initialize_ok fs _ _ Hn Hc' Hb') as (p1 & fs1 & Hi & Hh1 & Hf1 & Hn1).
  destruct (run_boot_torn T p1 c ms l torn) as (c2 & fs2 & Hr & _); try done.
  - exists b. by rewrite Hf1.
  - by rewrite Hf1.
  - exists c2, (set_fs fs2 p1). unfold startup. by rewrite Hi, Hr.
Qed.
End theorems.

(** ** A concrete serializer, and the theorems on it *)

(** The map as the frame of an array of [SET] commands, read back with the parser
    of the commands: what the theorems need of [wincode] can hold. *)
Definition frames_serialize (m : CacheMap) : result unit bytes :=
  Ok (encode (Array (map (fun kv => Frame_from_WriteCommand
        (WSet kv.1 (entry_value kv.2) (entry_expires_at kv.2))) (map_to_list m)))).
Definition frames_deserialize (b : bytes) : result unit CacheMap :=
  match parse_one b with
  | Ok (Array fs, _) =>
      Ok (fold_left (fun m f => match fst (try_from f (clock_at 0)) with
                                | Ok (Command.Cache (CacheWrite wc)) => apply m wc
                                | _ => m
                                end) fs ∅)
  | _ => Err ()
  end.
Definition frames_wincode : Wincode :=
  {| serialize := frames_serialize; deserialize := frames_deserialize |}.

(** Two empty files and no faults. *)
Definition empty_fs : Fs := mkFs {[ AOF_PATH := []; SNAPSHOT_PATH := [] ]} (fun _ => None) 0.
Definition empty_persister : Persister :=
  mkPersister empty_fs (mkPersisterInner (mutex_new []) AOF_PATH)
    (mkPersisterInner (mutex_new []) SNAPSHOT_PATH).

Lemma empty_durable `{Wincode} T : durable T ∅ empty_persister.
Proof.
  exists ∅, []. split_and!; [by exists []|split_and!; [done|done|constructor]|done..|constructor].
Qed.

Lemma bounded_clock_at t : is_u64 t -> bounded t (clock_at t).
Proof.
  intros Ht n _. exists (mkMilliseconds t). split; [|done].
  unfold clock_at. cbn [readings]. by apply millis_of_reading_at.
Qed.

(** ** Properties *)

(** C24: replay always ends.  Whatever bytes the log file holds, the loop over them
    comes to an end, with the cache's lock free again: the fuel of the model, one
    more than the bytes there are, is never used up. *)
Theorem replay_terminates (bs : bytes) (c : Clock) (m : CacheMap) :
  exists r c' m', run (Aof.replay_loop (S (length bs)) bs) (cache_new c m) =
                  Some (r, cache_new c' m').
Proof. apply replay_loop_ends. lia. Qed.

(** C17: replay of an intact log with a torn tail.  On a log that holds the
    commands [l], one frame after the other, and then any bytes that do not make
    up a whole frame, replay applies exactly [l] to the cache, in order, up to the
    first command the cache refuses, and does not report the tail; nothing is
    written to any file. *)
Theorem replay_applies_log (p : Persister) (l : list WriteCommand) (torn : bytes)
    (c : Clock) (m : CacheMap) :
  healthy p -> no_faults (ps_fs p) -> Forall loggable l ->
  fs_files (ps_fs p) !! AOF_PATH = Some (log_bytes l ++ torn) ->
  parse_one torn = Err Incomplete ->
  exists r c' m' p', run Aof.replay (cache_new c m, p) = Some (r, (cache_new c' m', p')) /\
    fs_files (ps_fs p') = fs_files (ps_fs p) /\
    exists outs err, cache_all (map CacheWrite l) (cache_new c m) =
        Some (outs, err, cache_new c' m') /\
      r = match err with Some e => Err (AofCache e) | None => Ok () end.
Proof.
  intros Hh Hn Hl Hc Ht. destruct (run_replay p l torn Incomplete c m Hh Hn Hc Hl Ht) as (fs' & Hf & _ & Hr).
  destruct (cache_all_returns (map CacheWrite l) c m) as (outs & err & c' & m' & Hall).
  rewrite Hall in Hr. destruct err as [e|]; do 4 eexists; (split; [exact Hr|]);
    (split; [exact Hf|]); by do 2 eexists.
Qed.

Lemma replay_applies_log_witness :
  let l := [WSet (bstr "k") (bstr "v") None] in
  let torn := take 11 (encode (Frame_from_WriteCommand (WDelete (bstr "k")))) in
  let p := set_fs (mkFs {[ AOF_PATH := log_bytes l ++ torn; SNAPSHOT_PATH := [] ]}
                        (fun _ => None) 0) empty_persister in
  exists c' m' p', run Aof.replay (cache_new (clock_at 5) ∅, p) = Some (Ok (), (cache_new c' m', p')) /\
    m' !! bstr "k" = Some (mkEntry (bstr "v") None).
Proof.
  cbv zeta. set (torn := take 11 _).
  destruct (replay_applies_log (set_fs (mkFs
      {[ AOF_PATH := log_bytes [WSet (bstr "k") (bstr "v") None] ++ torn; SNAPSHOT_PATH := [] ]}
      (fun _ => None) 0) empty_persister) [WSet (bstr "k") (bstr "v") None] torn (clock_at 5) ∅)
    as (r & c' & m' & p' & Hr & _ & outs & err & Hc & ->).
  - split; reflexivity.
  - intros n _. reflexivity.
  - repeat constructor; vm_compute; congruence.
  - vm_compute. reflexivity.
  - vm_compute. reflexivity.
  - assert (Hx : match cache_all (map CacheWrite [WSet (bstr "k") (bstr "v") None])
                         (cache_new (clock_at 5) ∅) with
                 | Some (_, err, s) => (err, guarded (cs_inner s) !! bstr "k")
                 | None => (None, None)
                 end = (None, Some (mkEntry (bstr "v") None))) by (vm_compute; reflexivity).
    rewrite Hc in Hx. injection Hx as -> Hk. exists c', m', p'. split; [exact Hr|exact Hk].
Defined.

(** C3: acknowledged writes survive a crash.  Start from files that agree with the
    cache; run any commands, every one of which is answered; drop the process, its
    memory and its buffers; start again on the files it left.  As long as no
    deadline involved falls before the last clock reading, on either side of the
    crash, startup succeeds and the cache's map is exactly the one that was lost,
    deadlines included, and the files agree with it again. *)
Theorem acknowledged_writes_survive `{Wincode} (T : N) (cmds : list CacheCommand)
    (c c2 : Clock) (m : CacheMap) (p : Persister) (outs : list CommandOutcome)
    (s' : Executor Persister) (fs : Fs) :
  durable T m p -> bounded T c ->
  Forall (quiet_command T) cmds -> Forall CacheCommand_loggable cmds ->
  execute_all cmds (mkExecutor (cache_new c m) p) = Some (outs, None, s') ->
  fs_files fs = fs_files (ps_fs (ex_repo s')) -> no_faults fs -> bounded T c2 ->
  exists c3 p3,
    startup c2 fs = Some (Ok (cache_new c3 (guarded (cs_inner (ex_cache s'))), p3)) /\
    bounded T c3 /\ durable T (guarded (cs_inner (ex_cache s'))) p3.
Proof.
  intros Hd Hb Hq Hl He Hf Hn Hb2.
  destruct (execute_all_durable T cmds c m p Hd Hb Hq Hl) as (outs' & err & s1 & He' & Hok & _).
  rewrite He in He'. injection He' as <- <- <-.
  destruct (Hok eq_refl) as (c' & _ & Hc & Hd'). rewrite Hc. cbn.
  by eapply startup_durable.
Qed.

Lemma acknowledged_writes_survive_witness :
  let k := bstr "k" in
  let cmds := [CacheWrite (WSet k (bstr "v") (Some (mkMilliseconds 9000)));
               CacheRead (RGet k); CacheWrite (WPersist k)] in
  exists outs s' c3 p3,
    execute_all (H := @Executor_Execute _ (@Persister_Repository frames_wincode)) cmds
      (mkExecutor (cache_new (clock_at 1000) ∅) empty_persister) = Some (outs, None, s') /\
    startup (H := frames_wincode) (clock_at 2000) (mkFs (fs_files (ps_fs (ex_repo s'))) (fun _ => None) 0) =
      Some (Ok (cache_new c3 {[ k := mkEntry (bstr "v") None ]}, p3)).
Proof.
  cbv zeta.
  set (cmds := [CacheWrite _; _; _]).
  assert (Hb : bounded 2000 (clock_at 1000)).
  { intros n _. exists (mkMilliseconds 1000). split; [reflexivity|vm_compute; congruence]. }
  assert (Hb2 : bounded 2000 (clock_at 2000)) by (apply bounded_clock_at; vm_compute; congruence).
  assert (Hq : Forall (quiet_command 2000) cmds) by (repeat constructor; vm_compute; congruence).
  assert (Hl : Forall CacheCommand_loggable cmds) by (repeat constructor; vm_compute; congruence).
  pose proof (@empty_durable frames_wincode 2000) as Hd.
  destruct (@execute_all_durable frames_wincode 2000 cmds _ _ _ Hd Hb Hq Hl)
    as (outs & err & s' & He & Hok & Hn).
  destruct Hn as [-> _]; [intros n _; reflexivity|].
  destruct (Hok eq_refl) as (c' & _ & Hc & _).
  destruct (@acknowledged_writes_survive frames_wincode 2000 cmds _ (clock_at 2000) _ _ outs s'
      (mkFs (fs_files (ps_fs (ex_repo s'))) (fun _ => None) 0) Hd Hb Hq Hl He)
    as (c3 & p3 & Hs & _).
  - reflexivity.
  - intros n _. reflexivity.
  - exact Hb2.
  - exists outs, s', c3, p3. split; [exact He|]. rewrite Hs, Hc. reflexivity.
Defined.

(** Without file faults every command is answered.  From files that agree with
    the cache, and while no deadline comes due, [execute_logged] answers every
    command of a list, writes included, and files and cache agree at the end. *)
Theorem commands_keep_durable `{Wincode} (T : N) (cmds : list CacheCommand)
    (c : Clock) (m : CacheMap) (p : Persister) :
  durable T m p -> bounded T c -> no_faults (ps_fs p) ->
  Forall (quiet_command T) cmds -> Forall CacheCommand_loggable cmds ->
  exists outs s' c', execute_all cmds (mkExecutor (cache_new c m) p) = Some (outs, None, s') /\
    ex_cache s' = cache_new c' (fold_left apply_command cmds m) /\
    durable T (fold_left apply_command cmds m) (ex_repo s').
Proof.
  intros Hd Hb Hn Hq Hl.
  destruct (execute_all_durable T cmds c m p Hd Hb Hq Hl) as (outs & err & s' & He & Hok & Hnf).
  destruct (Hnf Hn) as [-> _]. destruct (Hok eq_refl) as (c' & _ & Hc & Hd').
  by exists outs, s', c'.
Qed.

Lemma commands_keep_durable_witness :
  let cmds := [CacheWrite (WSet (bstr "k") (bstr "v") None); CacheWrite (WDelete (bstr "j"))] in
  exists outs s', execute_all (H := @Executor_Execute _ (@Persister_Repository frames_wincode)) cmds
      (mkExecutor (cache_new (clock_at 1000) ∅) empty_persister) = Some (outs, None, s').
Proof.
  cbv zeta.
  destruct (@commands_keep_durable frames_wincode 1000
      [CacheWrite (WSet (bstr "k") (bstr "v") None); CacheWrite (WDelete (bstr "j"))]
      (clock_at 1000) ∅ empty_persister) as (outs & s' & c' & H & _).
  - apply empty_durable.
  - apply bounded_clock_at. vm_compute. congruence.
  - intros n _. reflexivity.
  - repeat constructor.
  - repeat constructor; vm_compute; congruence.
  - exists outs, s'. exact H.
Defined.

(** C6: a snapshot is crash-safe, whatever fails and wherever it stops.
    [Persister::snapshot] always comes back with the cache's lock free and the map
    untouched; in every state it goes through, so at whatever point the process
    dies and whichever file operation fails, half a write included, the files still
    say exactly what the cache holds; and when it answers [Ok] the log is empty. *)
Theorem snapshot_crash_safe `{Wincode} (T : N) (c : Clock) (m : CacheMap) (p : Persister) :
  durable T m p -> reads_back m ->
  Forall (fun s => guarded (cs_inner s.1) = m /\ durable T m s.2)
    (states persister_snapshot (cache_new c m, p)) /\
  exists r p', run persister_snapshot (cache_new c m, p) = Some (r, (cache_new c m, p')) /\
    durable T m p' /\ (r = Ok () -> holds p' []).
Proof.
  intros Hd Hser. pose proof (snapshot_always T c m p Hd Hser) as Ha. split.
  - by eapply always_states.
  - apply always_run in Ha as (r & [cs p'] & Hr & (Hc & Hok) & _ & Hd'). cbn in Hc, Hd', Hok.
    subst cs. exists r, p'. split_and!; [done..|]. intros ->.
    destruct (Hok eq_refl) as (? & <- & _ & Hl & _). done.
Qed.

Lemma snapshot_crash_safe_witness :
  let m : CacheMap := {[ bstr "k" := mkEntry (bstr "v") (Some (mkMilliseconds 9000)) ]} in
  let b := match frames_serialize m with Ok b => b | Err _ => [] end in
  let p := set_fs (mkFs {[ AOF_PATH := []; SNAPSHOT_PATH := b ]}
             (fun n => if decide (n = 1)%nat then Some (mkFault (mkIoError OtherIo) 3) else None) 0)
             empty_persister in
  exists r p', run (@persister_snapshot frames_wincode) (cache_new (clock_at 1000) m, p) =
      Some (r, (cache_new (clock_at 1000) m, p')) /\ is_ok r = false /\ @durable frames_wincode 1000 m p'.
Proof.
  cbv zeta. set (m := {[ bstr "k" := _ ]} : CacheMap).
  match goal with |- context [run _ (_, ?q)] => set (p := q) end.
  assert (Hm : forall b, frames_serialize m = Ok b -> b <> [] /\ frames_deserialize b = Ok m).
  { intros b Hb. vm_compute in Hb. injection Hb as <-. split; [congruence|].
    vm_compute. reflexivity. }
  assert (Hd : @durable frames_wincode 1000 m p).
  { exists m, []. split; [|split; [|split; [|split]]].
    - exists (match frames_serialize m with Ok b => b | Err _ => [] end).
      split; [vm_compute; reflexivity|]. rewrite decide_False by (vm_compute; congruence).
      by apply Hm.
    - split; [split; reflexivity|]. split; [vm_compute; reflexivity|constructor].
    - reflexivity.
    - intros k e He. apply lookup_singleton_Some in He as [_ <-]. vm_compute. reflexivity.
    - constructor. }
  destruct (@snapshot_crash_safe frames_wincode 1000 (clock_at 1000) m p Hd) as [_ (r & p' & Hr & Hd' & _)].
  - exact Hm.
  - exists r, p'. split; [exact Hr|]. split; [|exact Hd'].
    assert (Hc := f_equal (fun o => match o with Some (r, _) => is_ok r | None => true end) Hr).
    vm_compute in Hc. symmetry. exact Hc.
Defined.
