(* ===== verification/Hazards.v ===== *)
(** * Hazards: what a restart loses

    Three ways in which writes the server has acknowledged are not there, or the
    server does not come up, after a restart: a [PERSIST] replayed after the
    deadline it removed, an append behind the torn tail of an earlier crash, and an
    append that failed half-way.  None of them is covered by
    [acknowledged_writes_survive], which asks for quiet deadlines and for a log of
    whole frames. *)

From S2P Require Import Prelude Effects RustStd Time Command Crlf Frame CommandFrame.
From S2P Require Import Cache CacheSpec Ports Executor Files Persister Recovery.

Local Open Scope N_scope.

(** ** Replay after a deadline *)

(** C36: a persisted key does not survive its old deadline.  Set a key with a
    deadline, remove the deadline before it comes: both are answered, and the key
    is there for good.  Replaying that log once the old deadline has passed
    succeeds and leaves the key missing: [PERSIST] finds it expired and drops it. *)
Theorem replay_drops_persisted_key (key v : bytes) (d t1 t2 : Milliseconds)
    (c1 c2 : Clock) (m m0 : CacheMap) :
  loggable (WSet key v (Some d)) -> frozen t1 c1 -> frozen t2 c2 ->
  millis t1 < millis d -> millis d <= millis t2 ->
  let l := [WSet key v (Some d); WPersist key] in
  (exists c' m', cache_all (map CacheWrite l) (cache_new c1 m) =
     Some ([CoOk; CoBool true], None, cache_new c' m') /\ m' !! key = Some (mkEntry v None)) /\
  exists c' m', run (Aof.replay_loop 3 (log_bytes l)) (cache_new c2 m0) =
     Some (Ok (), cache_new c' m') /\ m' !! key = None.
Proof.
  intros Hl Hf1 Hf2 Ht1 Ht2. cbv zeta.
  destruct (frozen_now t1 c1 Hf1) as (c1' & Hn1 & _).
  destruct (frozen_now t2 c2 Hf2) as (c2' & Hn2 & _).
  assert (Hlive : ms_ge t1 d = false) by (unfold ms_ge; apply N.leb_gt; done).
  assert (Hgone : ms_ge t2 d = true) by (unfold ms_ge; apply N.leb_le; done).
  assert (Hall : forall c m, cache_all (map CacheWrite [WSet key v (Some d); WPersist key])
      (cache_new c m) =
      match now c with
      | (Err e, c') => Some ([CoOk], Some (CacheSystemTime e),
                             cache_new c' (<[key := mkEntry v (Some d)]> m))
      | (Ok t, c') =>
          Some ([CoOk; CoBool (negb (ms_ge t d))], None,
            cache_new c' (if ms_ge t d then delete key m else <[key := mkEntry v None]> m))
      end).
  { intros c m'. cbn [map cache_all]. unfold KvStore.execute.
    rewrite !run_bind, run_insert. cbn [run mret prog_ret]. rewrite run_bind, run_remove_ttl, lookup_insert_eq.
    destruct (now c) as [[t|e] c']; [|done].
    destruct (ms_ge t d); cbn; by rewrite ?delete_insert_eq, ?insert_insert_eq. }
  split.
  - rewrite Hall, Hn1, Hlive. do 2 eexists. split; [done|]. apply lookup_insert_eq.
  - set (l := [_; _]) in *. rewrite <- (app_nil_r (log_bytes l)).
    rewrite (run_replay_loop 3 l [] Incomplete); [|cbn; lia| |done].
    + rewrite Hall, Hn2, Hgone. do 2 eexists. split; [done|]. apply lookup_delete_eq.
    + apply Forall_cons; split; [exact Hl|]. apply Forall_singleton. split; [exact I|apply Hl].
Qed.

Lemma replay_drops_persisted_key_witness :
  let l := [WSet (bstr "k") (bstr "v") (Some (mkMilliseconds 5000)); WPersist (bstr "k")] in
  exists c' m', run (Aof.replay_loop 3 (log_bytes l)) (cache_new (clock_at 6000) ∅) =
     Some (Ok (), cache_new c' m') /\ m' !! bstr "k" = None.
Proof.
  cbv zeta.
  destruct (replay_drops_persisted_key (bstr "k") (bstr "v") (mkMilliseconds 5000)
    (mkMilliseconds 4000) (mkMilliseconds 6000) (clock_at 4000) (clock_at 6000) ∅ ∅) as [_ H].
  - repeat split; vm_compute; congruence.
  - apply (frozen_clock_at (mkMilliseconds 4000)). vm_compute. congruence.
  - apply (frozen_clock_at (mkMilliseconds 6000)). vm_compute. congruence.
  - vm_compute. reflexivity.
  - vm_compute. congruence.
  - exact H.
Defined.

(** ** Appending behind a torn tail *)

(** What a crash in the middle of logging [SET k hello] can leave. *)
Definition torn_set : bytes := take 26 (encode (Frame_from_WriteCommand
  (WSet (bstr "k") (bstr "hello") None))).

Example torn_set_is : torn_set =
  bstr "*3" ++ crlf ++ bstr "$3" ++ crlf ++ bstr "SET" ++ crlf ++ bstr "$1" ++ crlf ++
  bstr "k" ++ crlf ++ bstr "$5" ++ crlf ++ bstr "he".
Proof. vm_compute. reflexivity. Qed.

Lemma torn_set_incomplete : parse_one torn_set = Err Incomplete.
Proof. vm_compute. reflexivity. Qed.

(** Every logged frame starts with one of these. *)
Lemma logged_frame_start wc :
  exists d rest, encode (Frame_from_WriteCommand wc) = bstr "*" ++ [d] ++ crlf ++ bstr "$" ++ rest /\
    d ∈ [x32; x33; x35].
Proof.
  destruct wc as [key v [t|]|key|key t|key]; do 2 eexists; (split; [reflexivity|]);
    vm_compute; repeat constructor.
Qed.

Lemma torn_set_then_frame wc :
  parse_one (torn_set ++ encode (Frame_from_WriteCommand wc)) = Err MissingTerminator.
Proof.
  destruct (logged_frame_start wc) as (d & rest & -> & Hd).
  replace (torn_set ++ bstr "*" ++ [d] ++ crlf ++ bstr "$" ++ rest)
    with ((torn_set ++ bstr "*" ++ [d] ++ crlf ++ bstr "$") ++ rest)
    by (by rewrite <- !app_assoc).
  assert (Hp : parse_one (torn_set ++ bstr "*" ++ [d] ++ crlf ++ bstr "$") = Err MissingTerminator).
  { rewrite !elem_of_cons, elem_of_nil in Hd. destruct Hd as [->|[->|[->|[]]]]; vm_compute; reflexivity. }
  rewrite parse_one_extend by (by rewrite Hp). by rewrite Hp.
Qed.

(** C34: one append behind a torn tail and the server does not start again.  A crash
    has left whole frames and a torn one; replay accepts that file.  The restarted
    server then appends any write, behind the torn bytes, and answers [Ok].  From
    then on replay fails with a hard error ([MissingTerminator]) after the whole
    frames, and the acknowledged write is not applied. *)
Theorem append_after_torn_tail (p : Persister) (l : list WriteCommand) (wc : WriteCommand)
    (c : Clock) (m : CacheMap) (outs : list CommandOutcome) (s' : CacheState) :
  healthy p -> no_faults (ps_fs p) -> Forall loggable l ->
  fs_files (ps_fs p) !! AOF_PATH = Some (log_bytes l ++ torn_set) ->
  cache_all (map CacheWrite l) (cache_new c m) = Some (outs, None, s') ->
  (exists p', run Aof.replay (cache_new c m, p) = Some (Ok (), (s', p'))) /\
  exists p1, run (Aof.append wc) p = Some (Ok (), p1) /\
    exists p', run Aof.replay (cache_new c m, p1) =
               Some (Err (AofFrame MissingTerminator), (s', p')).
Proof.
  intros Hh Hn Hl Hc Hall. split.
  - destruct (run_replay p l torn_set Incomplete c m Hh Hn Hc Hl torn_set_incomplete)
      as (fs' & _ & _ & Hr). rewrite Hall in Hr. by eexists.
  - destruct (run_append p _ wc Hh Hc) as (r & p1 & Hr & Hok & Hnf).
    destruct (Hnf Hn) as [-> Hn1]. destruct (Hok eq_refl) as (fs1 & -> & _ & Hf1).
    eexists. split; [exact Hr|].
    destruct (run_replay (set_fs fs1 p) l (torn_set ++ encode (Frame_from_WriteCommand wc))
      MissingTerminator c m) as (fs' & _ & _ & Hr2); [done|done| |done|apply torn_set_then_frame|].
    + cbn [ps_fs set_fs]. by rewrite Hf1, lookup_insert_eq, app_assoc.
    + rewrite Hall in Hr2. by eexists.
Qed.

Lemma append_after_torn_tail_witness :
  let p := set_fs (mkFs {[ AOF_PATH := torn_set; SNAPSHOT_PATH := [] ]} (fun _ => None) 0)
             empty_persister in
  exists p1, run (Aof.append (WDelete (bstr "j"))) p = Some (Ok (), p1) /\
    exists p', run Aof.replay (cache_new (clock_at 5) ∅, p1) =
               Some (Err (AofFrame MissingTerminator), (cache_new (clock_at 5) ∅, p')).
Proof.
  cbv zeta.
  apply (append_after_torn_tail
    (set_fs (mkFs {[ AOF_PATH := torn_set; SNAPSHOT_PATH := [] ]} (fun _ => None) 0)
             empty_persister) [] (WDelete (bstr "j")) (clock_at 5) ∅ []).
  - split; reflexivity.
  - intros n _. reflexivity.
  - constructor.
  - vm_compute. reflexivity.
  - reflexivity.
Defined.

(** ** A failed append *)

Open Scope nat_scope.

Lemma buf_write_all_fits b w :
  length (fw_buf w) + length b < buf_capacity -> buf_write_all b w = fw_buffer b w.
Proof. intros Hl. unfold buf_write_all. by rewrite decide_True by lia. Qed.

Lemma fw_buffer_bind {A} b w (k : M FileWriter IoError A) :
  length (fw_buf w) + length b < buf_capacity ->
  (write_all b;; k) w = k (mkFileWriter (fw_fs w) (fw_path w) (fw_buf w ++ b)).
Proof.
  intros Hl. unfold mbind, M_bind, m_bind. cbn [write_all FileWriter_Write].
  by rewrite buf_write_all_fits.
Qed.

(** A frame that fits stays in the buffer. *)
Lemma write_to_fits f w :
  length (fw_buf w) + length (encode f) < buf_capacity -> write_to f w = fw_buffer (encode f) w.
Proof.
  revert w. induction f as [fs IH|s] using Frame_ind; intros w Hl;
    cbn [write_to encode] in *; rewrite !length_app in Hl.
  - rewrite !fw_buffer_bind by (cbn [fw_buf]; rewrite ?length_app; lia). cbn [fw_fs fw_path fw_buf].
    rewrite !app_assoc. unfold fw_buffer. rewrite !app_assoc.
    set (buf := (((fw_buf w ++ bstr "*") ++ display_N (N.of_nat (length fs))) ++ crlf)).
    assert (Hb : length buf + length (concat (map encode fs)) < buf_capacity).
    { unfold buf. rewrite !length_app. lia. }
    clearbody buf. clear Hl. revert buf Hb.
    induction IH as [|f fs Hf _ IH]; intros buf Hb; cbn [map concat].
    + by rewrite app_nil_r.
    + cbn [map concat] in Hb. rewrite length_app in Hb. unfold mbind, M_bind, m_bind.
      rewrite Hf by (cbn [fw_buf]; lia). cbn [fw_buffer fw_fs fw_path fw_buf].
      rewrite IH by (rewrite length_app; lia). by rewrite app_assoc.
  - rewrite !fw_buffer_bind by (cbn [fw_buf]; rewrite ?length_app; lia).
    cbn [write_all FileWriter_Write fw_fs fw_path fw_buf].
    rewrite buf_write_all_fits by (cbn [fw_buf]; rewrite ?length_app; lia).
    unfold fw_buffer. cbn [fw_fs fw_path fw_buf]. by rewrite !app_assoc.
Qed.

(** The bytes of a logged [SET] up to its value of [n] bytes. *)
Definition set_header (key : bytes) (n : nat) : bytes :=
  bstr "*" ++ display_N 3 ++ crlf ++ encode (BulkString (bstr "SET")) ++ encode (BulkString key) ++
  bstr "$" ++ display_N (N.of_nat n) ++ crlf.

Lemma encode_set key v :
  encode (Frame_from_WriteCommand (WSet key v None)) = set_header key (length v) ++ v ++ crlf.
Proof.
  unfold set_header. cbn [Frame_from_WriteCommand app encode length map concat].
  rewrite app_nil_r. rewrite <- !app_assoc. reflexivity.
Qed.

(** Appends that were all answered. *)
Fixpoint append_all (l : list WriteCommand) (p : Persister) : option Persister :=
  match l with
  | [] => Some p
  | wc :: l' => match run (Aof.append wc) p with
                | Some (Ok _, p') => append_all l' p'
                | _ => None
                end
  end.

Lemma append_all_bytes l p c p' :
  healthy p -> fs_files (ps_fs p) !! AOF_PATH = Some c -> append_all l p = Some p' ->
  healthy p' /\ fs_files (ps_fs p') !! AOF_PATH = Some (c ++ log_bytes l).
Proof.
  revert p c. induction l as [|wc l IH]; intros p c Hh Hc; cbn [append_all].
  - intros [= <-]. unfold log_bytes. cbn. by rewrite app_nil_r.
  - destruct (run_append p c wc Hh Hc) as (r & p1 & -> & Hok & _).
    destruct r as [[]|e]; [|done]. destruct (Hok eq_refl) as (fs1 & -> & _ & Hf1).
    intros Ha. apply (IH _ (c ++ encode (Frame_from_WriteCommand wc))) in Ha; [|done|].
    + unfold log_bytes in *. cbn [map concat]. by rewrite app_assoc.
    + cbn. by rewrite Hf1, lookup_insert_eq.
Qed.

(** A [SET] with bytes missing from its value, and whatever was logged after it in
    their place, is not a whole frame. *)
Lemma cut_set_incomplete key v part more :
  loggable (WSet key v None) -> length part + length more <= length v ->
  parse_one (set_header key (length v) ++ part ++ more) = Err Incomplete.
Proof.
  intros [_ [Hk Hv]] Hl.
  set (v' := part ++ more ++ replicate (length v - (length part + length more)) x00).
  assert (Hlen : length v' = length v).
  { unfold v'. rewrite !length_app, length_replicate. lia. }
  apply (parse_one_encode_prefix (Frame_from_WriteCommand (WSet key v' None)) _
           (replicate (length v - (length part + length more)) x00 ++ crlf)).
  - apply loggable_Frame_wf. split; [done|]. by rewrite Hlen.
  - rewrite encode_set, Hlen. unfold v'. by rewrite <- !app_assoc.
  - intros He. apply (f_equal length) in He. rewrite length_app in He. cbn in He. lia.
Qed.

(** The frames of an array written one after the other, as [write_to] does. *)
Definition write_frames (fs : list Frame) : M FileWriter IoError unit :=
  (fix go (fs : list Frame) : M FileWriter IoError unit :=
     match fs with [] => mret () | f :: fs => write_to f;; go fs end) fs.

Lemma write_frames_fits f fs w :
  length (fw_buf w) + length (encode f) < buf_capacity ->
  write_frames (f :: fs) w =
  write_frames fs (mkFileWriter (fw_fs w) (fw_path w) (fw_buf w ++ encode f)).
Proof.
  intros Hl. cbn [write_frames]. unfold mbind, M_bind, m_bind. by rewrite write_to_fits.
Qed.

Lemma write_to_array fs :
  write_to (W := FileWriter) (Array fs) =
  (write_all (bstr "*");; write_all (display_N (N.of_nat (length fs)));; write_all crlf;;
   write_frames fs).
Proof. reflexivity. Qed.

Lemma write_set_header key v fs path :
  length (set_header key (length v)) < buf_capacity ->
  write_to (Frame_from_WriteCommand (WSet key v None)) (mkFileWriter fs path []) =
  ((write_all v;; write_all crlf);; mret ())
    (mkFileWriter fs path (set_header key (length v))).
Proof.
  unfold set_header. rewrite !length_app. intros Hl.
  cbn [Frame_from_WriteCommand app]. rewrite write_to_array.
  change (N.of_nat (length [BulkString (bstr "SET"); BulkString key; BulkString v])) with 3%N.
  rewrite !fw_buffer_bind by (cbn [fw_buf app length]; rewrite ?length_app; lia).
  rewrite !write_frames_fits by (cbn [fw_buf app length]; rewrite ?length_app; lia).
  cbn [fw_fs fw_path fw_buf app].
  change (write_frames [BulkString v]) with (write_to (W := FileWriter) (BulkString v);; mret ()).
  apply m_bind_ext. cbn [write_to].
  rewrite !fw_buffer_bind by (cbn [fw_buf app length]; rewrite ?length_app; lia).
  cbn [fw_fs fw_path fw_buf app]. by rewrite <- !app_assoc.
Qed.

(** The append of a large [SET] when the disk fails inside its value: the header is
    in the file, and the bytes of the value the fault let through. *)
Lemma run_failed_set p key v fault c :
  healthy p -> fs_files (ps_fs p) !! AOF_PATH = Some c ->
  length (set_header key (length v)) < buf_capacity <= length v ->
  fs_faults (ps_fs p) (fs_ops (ps_fs p)) = None ->
  fs_faults (ps_fs p) (S (fs_ops (ps_fs p))) = Some fault ->
  exists p1, run (Aof.append (WSet key v None)) p =
      Some (Err (AofIo (fault_error fault)), p1) /\ healthy p1 /\
    fs_files (ps_fs p1) !! AOF_PATH =
      Some (c ++ set_header key (length v) ++
            take (Nat.min (fault_written fault) (length v - 1)) v).
Proof.
  intros [Ha Hs] Hc [Hhdr Hcap] H0 H1. unfold Aof.append.
  rewrite run_locked by (cbn; by rewrite Ha). rewrite m_zoom_bind.
  destruct p as [fs aof snap]. cbn in Ha, Hs, Hc, H0, H1. subst aof.
  unfold m_map_err, m_zoom.
  cbn [view put aof_fileL ps_fs ps_aof ps_snapshot pi_writer pi_path guarded mutex_new].
  assert (Hfail : exists fs2, (write_to (Frame_from_WriteCommand (WSet key v None));; flush)
      (mkFileWriter fs AOF_PATH []) = (Err (fault_error fault), mkFileWriter fs2 AOF_PATH []) /\
      fs_files fs2 !! AOF_PATH = Some (c ++ set_header key (length v) ++
            take (Nat.min (fault_written fault) (length v - 1)) v)).
  { set (hdr := set_header key (length v)) in *.
    assert (Hne : hdr <> []).
    { intros He. apply (f_equal length) in He. unfold hdr, set_header in He.
      rewrite length_app in He. change (length (bstr "*")) with 1 in He. cbn [length] in He. lia. }
    unfold mbind, M_bind, m_bind at 1. rewrite write_set_header by done. fold hdr.
    assert (Hv : exists fs2, buf_write_all v (mkFileWriter fs AOF_PATH hdr) =
        (Err (fault_error fault), mkFileWriter fs2 AOF_PATH []) /\
        fs_files fs2 !! AOF_PATH = Some (c ++ hdr ++
            take (Nat.min (fault_written fault) (length v - 1)) v)).
    { unfold buf_write_all. cbn [fw_buf]. rewrite decide_False by lia.
      assert (0 < length hdr) by (destruct hdr; [done|cbn; lia]).
      rewrite !decide_True by (unfold buf_capacity in *; lia). unfold mbind, M_bind, m_bind, flush_buf.
      cbn [fw_fs fw_path fw_buf]. unfold file_write_all at 1. rewrite decide_False by done.
      unfold fs_op. rewrite H0. unfold fw_direct. cbn [fw_fs fw_path fw_buf].
      unfold file_write_all. rewrite decide_False by (intros ->; cbn in Hcap; unfold buf_capacity in *; lia).
      unfold fs_op. cbn [fs_faults fs_ops]. rewrite H1. eexists. split; [reflexivity|].
      cbn [fs_files]. rewrite !lookup_alter_eq, Hc. cbn [fmap option_fmap option_map].
      by rewrite <- app_assoc. }
    destruct Hv as (fs2 & Hv & Hf2). exists fs2. split; [|done].
    unfold mbind, M_bind, m_bind. cbn [write_all FileWriter_Write]. by rewrite Hv. }
  destruct Hfail as (fs2 & -> & Hf2). cbn [map_err fw_fs fw_path fw_buf].
  eexists. split; [reflexivity|]. split; [by split|done].
Qed.

(** C33: a failed append takes the acknowledged writes after it along.  The value of
    a [SET] is at least as large as the writer's buffer, the disk fails inside it
    (it is full, say), and [append] answers with that error: nothing more is
    wrong, and the lock is free.  Let later writes be logged and every one of them
    be answered.  As long as they are not more bytes than the failed value still
    lacks, a restart replays the writes before the failed one, reports success,
    and has none of the later ones. *)
Theorem failed_append_loses_later_writes (p : Persister) (l : list WriteCommand)
    (key v : bytes) (fault : Fault) :
  healthy p -> Forall loggable l -> loggable (WSet key v None) ->
  fs_files (ps_fs p) !! AOF_PATH = Some (log_bytes l) ->
  length (set_header key (length v)) < buf_capacity <= length v ->
  fs_faults (ps_fs p) (fs_ops (ps_fs p)) = None ->
  fs_faults (ps_fs p) (S (fs_ops (ps_fs p))) = Some fault ->
  exists p1, run (Aof.append (WSet key v None)) p =
      Some (Err (AofIo (fault_error fault)), p1) /\ healthy p1 /\
  forall later p2, append_all later p1 = Some p2 ->
    fault_written fault + length (log_bytes later) <= length v ->
    forall p3 c m outs s',
      healthy p3 -> no_faults (ps_fs p3) -> fs_files (ps_fs p3) = fs_files (ps_fs p2) ->
      cache_all (map CacheWrite l) (cache_new c m) = Some (outs, None, s') ->
      exists p4, run Aof.replay (cache_new c m, p3) = Some (Ok (), (s', p4)).
Proof.
  intros Hh Hl Hset Hc [Hhdr Hcap] H0 H1.
  destruct (run_failed_set p key v fault _ Hh Hc (conj Hhdr Hcap) H0 H1)
    as (p1 & Hr & Hh1 & Hc1).
  exists p1. split_and!; [done..|]. intros later p2 Ha Hlen p3 c m outs s' Hh3 Hn3 Hf3 Hall.
  destruct (append_all_bytes later p1 _ p2 Hh1 Hc1 Ha) as [_ Hc2].
  rewrite <- Hf3, <- !app_assoc in Hc2.
  destruct (run_replay p3 l _ Incomplete c m Hh3 Hn3 Hc2 Hl) as (fs' & _ & _ & Hr3).
  { apply cut_set_incomplete; [done|]. rewrite length_take. lia. }
  rewrite Hall in Hr3. by eexists.
Qed.

Lemma failed_append_loses_later_writes_witness :
  let v := replicate (N.to_nat 10000) x61 in
  let full := mkFault (mkIoError OtherIo) 4096 in
  let p := set_fs (mkFs {[ AOF_PATH := log_bytes [WDelete (bstr "a")]; SNAPSHOT_PATH := [] ]}
             (fun n => match n with 1 => Some full | _ => None end) 0) empty_persister in
  exists p1, run (Aof.append (WSet (bstr "k") v None)) p =
      Some (Err (AofIo (mkIoError OtherIo)), p1) /\ healthy p1 /\
  forall p2, append_all [WSet (bstr "acknowledged") (bstr "yes") None] p1 = Some p2 ->
    forall p3, healthy p3 -> no_faults (ps_fs p3) -> fs_files (ps_fs p3) = fs_files (ps_fs p2) ->
      exists p4, run Aof.replay (cache_new (clock_at 5) ∅, p3) =
                 Some (Ok (), (cache_new (clock_at 5) ∅, p4)).
Proof.
  cbv zeta.
  destruct (failed_append_loses_later_writes
    (set_fs (mkFs {[ AOF_PATH := log_bytes [WDelete (bstr "a")]; SNAPSHOT_PATH := [] ]}
       (fun n => match n with 1 => Some (mkFault (mkIoError OtherIo) 4096) | _ => None end) 0)
       empty_persister)
    [WDelete (bstr "a")] (bstr "k") (replicate (N.to_nat 10000) x61)
    (mkFault (mkIoError OtherIo) 4096)) as (p1 & Hr & Hh & H).
  - split; reflexivity.
  - repeat constructor. vm_compute. congruence.
  - split; [exact I|]. rewrite length_replicate, N2Nat.id. split; vm_compute; congruence.
  - vm_compute. reflexivity.
  - rewrite length_replicate. split; [vm_compute; lia|unfold buf_capacity; lia].
  - reflexivity.
  - reflexivity.
  - exists p1. split; [exact Hr|]. split; [exact Hh|]. intros p2 Ha p3 Hh3 Hn3 Hf3.
    apply (H [WSet (bstr "acknowledged") (bstr "yes") None] p2 Ha) with (outs := [CoBool false]);
      [|exact Hh3|exact Hn3|exact Hf3|].
    + rewrite length_replicate. replace (length (log_bytes _)) with 41 by (vm_compute; reflexivity). cbn [fault_written]. lia.
    + rewrite <- (delete_id ∅ (bstr "a")) at 2 by apply lookup_empty. reflexivity.
Defined.
