(* ===== verification/Races.v ===== *)
(** * Races: two threads on one cache

    The operations of [Cache.v] and [Executor.v] as threads of a pool, under a
    schedule: where an operation that is more than one critical section lets
    another thread in between. *)

From S2P Require Import Prelude Effects RustStd Time Command Frame.
From S2P Require Import Cache CacheSpec Ports Executor Files Persister Recovery.

Local Open Scope N_scope.

(** One step of a thread that can step. *)
Lemma step_thread_eq {S E A} i (ps : list (prog S E A)) f s p' s' :
  ps !! i = Some (Step f) -> f s = Some (p', s') ->
  step_thread i (ps, s) = Some (<[i := p']> ps, s').
Proof. intros Hp Hf. unfold step_thread. cbn. by rewrite Hp, Hf. Qed.

(** C35: [TTL] can delete a value that was set after it looked.  [Cache::expires_at]
    lets go of the lock between reading a passed deadline and removing the key;
    if another thread sets the key in between, that [SET] is answered [OK] and its
    value is then removed, although it has no deadline.  Run one after the other,
    in either order, the two commands leave the new value in place. *)
Theorem ttl_deletes_fresh_value (key old new : bytes) (d t : Milliseconds)
    (c c' : Clock) (m : CacheMap) :
  m !! key = Some (mkEntry old (Some d)) ->
  now c = (Ok t, c') -> millis d <= millis t ->
  let ttl := KvStore.execute (CacheRead (RTtl key)) in
  let set := KvStore.execute (CacheWrite (WSet key new None)) in
  sched [0; 0; 1; 0]%nat ([ttl; set], cache_new c m) =
    Some ([Done (Ok (CoTtl KeyNotFound)); Done (Ok CoOk)], cache_new c' (delete key m)) /\
  (exists r1 r2 s1 s2, run ttl (cache_new c m) = Some (r1, s1) /\ run set s1 = Some (r2, s2) /\
     guarded (cs_inner s2) !! key = Some (mkEntry new None)) /\
  (exists r1 r2 s1 s2, run set (cache_new c m) = Some (r1, s1) /\ run ttl s1 = Some (r2, s2) /\
     guarded (cs_inner s2) !! key = Some (mkEntry new None)).
Proof.
  intros Hk Hn Ht. cbv zeta.
  assert (Hge : ms_ge t d = true) by (unfold ms_ge; by apply N.leb_le).
  split; [|split].
  - cbn [sched]. erewrite step_thread_eq; [|reflexivity|].
    2:{ cbn. m_cbn. rewrite Hk. cbn. reflexivity. }
    cbn [insert list_insert]. erewrite step_thread_eq; [|reflexivity|].
    2:{ cbn. injection Hn as Hm _. rewrite Hm. cbn. rewrite Hge. reflexivity. }
    injection Hn as _ <-. cbn [insert list_insert].
    erewrite step_thread_eq; [|reflexivity|reflexivity]. cbn [insert list_insert].
    erewrite step_thread_eq; [|reflexivity|reflexivity]. cbn [insert list_insert sched].
    do 2 f_equal. unfold cache_new, put. cbn. unfold set_guarded, mutex_new. cbn.
    by rewrite delete_insert_eq.
  - do 4 eexists. unfold KvStore.execute. rewrite !run_bind, run_time_to_live, Hk, Hn.
    unfold is_expired. cbn [deadline_passed entry_expires_at]. rewrite Hge.
    split; [reflexivity|]. rewrite run_insert. split; [reflexivity|].
    cbn. apply lookup_insert_eq.
  - do 4 eexists. unfold KvStore.execute. rewrite !run_bind, run_insert.
    split; [reflexivity|]. rewrite run_time_to_live, lookup_insert_eq, Hn.
    split; [reflexivity|]. cbn. apply lookup_insert_eq.
Qed.

Lemma ttl_deletes_fresh_value_witness :
  let k := bstr "k" in
  let m : CacheMap := {[ k := mkEntry (bstr "old") (Some (mkMilliseconds 1000)) ]} in
  let ttl := KvStore.execute (CacheRead (RTtl k)) in
  let set := KvStore.execute (CacheWrite (WSet k (bstr "new") None)) in
  exists c', sched [0; 0; 1; 0]%nat ([ttl; set], cache_new (clock_at 2000) m) =
    Some ([Done (Ok (CoTtl KeyNotFound)); Done (Ok CoOk)], cache_new c' ∅).
Proof.
  cbv zeta. eexists. rewrite (proj1 (ttl_deletes_fresh_value (bstr "k") (bstr "old") (bstr "new")
    (mkMilliseconds 1000) (mkMilliseconds 2000) (clock_at 2000)
    (mkClock (readings (clock_at 2000)) 1) _ (lookup_singleton_eq _ _) eq_refl
    ltac:(vm_compute; congruence))).
  rewrite delete_singleton_eq. reflexivity.
Defined.

(** The window between cache and log.  Two clients set one key at the same
    time; each [SET] goes through the cache and then the log, under different
    locks.  There is a schedule in which the cache ends with one value, both
    clients are answered [OK], and the log has the two writes in the other order,
    so that replaying it gives the other value.  (The source names this window.) *)
Theorem log_order_can_differ (key a b : bytes) (c : Clock) (m : CacheMap)
    (l : list WriteCommand) :
  let set v := execute_logged (S := Executor Recording.RecordingRepo) (CacheWrite (WSet key v None)) in
  let repo l := Recording.mkRecordingRepo (mutex_new l) in
  let l' := l ++ [WSet key b None; WSet key a None] in
  let m' := <[key := mkEntry b None]> m in
  sched [0; 1; 1; 0]%nat ([set a; set b], mkExecutor (cache_new c m) (repo l)) =
    Some ([Done (Ok CoOk); Done (Ok CoOk)], mkExecutor (cache_new c m') (repo l')) /\
  logs (repo l') l' /\ m' !! key = Some (mkEntry b None) /\
  forall m0, replayed l' m0 !! key = Some (mkEntry a None).
Proof.
  cbv zeta. split_and!.
  - cbn [sched].
    do 4 (erewrite step_thread_eq; [|reflexivity|reflexivity]; cbn [insert list_insert]).
    do 2 f_equal. unfold set_guarded, cache_new, mutex_new. cbn. f_equal.
    + by rewrite insert_insert_eq.
    + by rewrite <- app_assoc.
  - reflexivity.
  - apply lookup_insert_eq.
  - intros m0. rewrite replayed_app. cbn. apply lookup_insert_eq.
Qed.
