(* ===== verification/Concurrent.v ===== *)
(** * Concurrent: clients, snapshots and sweeps at the same time

    The threads of the running server on the cache and the persister they share:
    sessions executing their clients' commands, the persistence thread and the
    sweeper, interleaved step by step in any order.  The invariant ties the files to
    the cache at every step; what a crash at any of them leaves is in
    ConcurrentSpec.v. *)

From S2P Require Import Prelude Effects Threads RustStd Time Command Frame CommandFrame.
From S2P Require Import Cache CacheSpec Ports Executor Files Persister Recovery.

(** ** The threads *)

Section threads.
Context `{Wincode}.

(** What the threads share, and the outcomes queued for the clients, by thread. *)
Record Shared : Type := mkShared {
  sh_exec : Executor Persister;
  sh_replies : list (nat * CommandOutcome)
}.

Definition sh_execL : Lens Shared (Executor Persister) :=
  mkLens sh_exec (fun e s => mkShared e (sh_replies s))
    (fun _ _ => eq_refl) (fun s => match s with mkShared _ _ => eq_refl end)
    (fun _ _ _ => eq_refl).
(** The cache and the repository, as [snapshot] sees them. *)
Definition partsL {R} : Lens (Executor R) (CacheState * R) :=
  mkLens (fun e => (ex_cache e, ex_repo e)) (fun p _ => mkExecutor p.1 p.2)
    (fun p _ => match p with (_, _) => eq_refl end)
    (fun e => match e with mkExecutor _ _ => eq_refl end) (fun _ _ _ => eq_refl).

Abbreviation SP A := (prog Shared ExecuteError A).

Definition reply (i : nat) (out : CommandOutcome) : SP unit :=
  atomic (fun s => (Ok (), mkShared (sh_exec s) (sh_replies s ++ [(i, out)]))).

(** What a session's thread does on the cache and the persister: the arm of [repl]'s
    loop for cache commands, each through [execute_logged] and its outcome handed on,
    up to the first error.  Of the rest of the loop (how the commands are read, the
    shutdown flag, [PING] and channel commands, the reply on its way through the queue)
    nothing touches what is shared here; the whole loop is [repl_reader]. *)
Fixpoint client (i : nat) (cmds : list CacheCommand) : SP unit :=
  match cmds with
  | [] => mret ()
  | cmd :: cmds' =>
      out ← zoom sh_execL (execute_logged cmd);
      reply i out;;
      client i cmds'
  end.

(** [n] turns of the persistence thread; it goes on whatever comes of a snapshot. *)
Fixpoint persist_loop (n : nat) : SP unit :=
  match n with
  | O => mret ()
  | S n' => p_then (zoom (lens_comp sh_execL partsL) snapshot) (fun _ => persist_loop n')
  end.

(** [n] turns of the sweeper. *)
Fixpoint sweep_loop (n : nat) : SP unit :=
  match n with
  | O => mret ()
  | S n' => p_then (zoom (lens_comp sh_execL cacheL) KvStore.remove_expired) (fun _ => sweep_loop n')
  end.

Inductive Role : Type :=
| Client (cmds : list CacheCommand)
| Persistence (turns : nat)
| Sweeper (turns : nat).

Definition thread_of (i : nat) (r : Role) : SP unit :=
  match r with
  | Client cmds => client i cmds
  | Persistence n => persist_loop n
  | Sweeper n => sweep_loop n
  end.

(** The threads of a server, by number, and the state they start in. *)
Definition pool (roles : list Role) : list (SP unit) := imap thread_of roles.
Definition shared (clk : Clock) (m : CacheMap) (p : Persister) : Shared :=
  mkShared (mkExecutor (cache_new clk m) p) [].

(** The outcomes queued for the client of thread [i]. *)
Definition answered (i : nat) (rs : list (nat * CommandOutcome)) : list CommandOutcome :=
  (base.filter (fun x => x.1 = i) rs).*2.

Lemma answered_snoc i j out rs :
  answered i (rs ++ [(j, out)]) = answered i rs ++ (if decide (j = i) then [out] else []).
Proof.
  unfold answered. rewrite filter_app, fmap_app. f_equal.
  rewrite filter_cons. cbn. by case_decide.
Qed.
End threads.

(** ** Where a thread stands

    A client has been answered [n] commands and is between two of them ([GReady]),
    has applied its next one, a write, to the cache and not to the log
    ([GApplied]), or has done all but queue the answer ([GLogged]).  The
    persistence thread holds the cache's lock and has read the map ([GHolding],
    with what it has written to the temporary file), or has renamed it over the
    snapshot ([GStored]). *)

Inductive Ghost : Type :=
| GReady (n : nat)
| GApplied (n : nat) (wc : WriteCommand)
| GLogged (n : nat)
| GHolding (m : CacheMap) (tmp : option bytes)
| GStored (m : CacheMap).

(** How many of a client's commands are answered, and how many are in the cache. *)
Definition replied (g : Ghost) : nat :=
  match g with GReady n | GApplied n _ | GLogged n => n | _ => 0 end.
Definition applied (g : Ghost) : nat :=
  match g with GReady n => n | GApplied n _ | GLogged n => S n | _ => 0 end.

Definition captured (g : Ghost) : option CacheMap :=
  match g with GHolding m _ | GStored m => Some m | _ => None end.

(** The write in flight, on what the files say of a key. *)
Definition in_flight (g : Ghost) (k : bytes) (x : option Entry) : option Entry :=
  match g with GApplied _ wc => run_effect (write_effect k wc) x | _ => x end.

(** ** The invariant *)

Section invariant.
Context `{Wincode} (T : N) (roles : list Role) (owner : bytes -> nat) (m0 : CacheMap).

(** The map with the first [n] commands of [cmds]. *)
Definition after (cmds : list CacheCommand) (n : nat) : CacheMap :=
  replayed (writes (take n cmds)) m0.

(** What the cache has for a key. *)
Definition expected (g : nat -> Ghost) (k : bytes) : option Entry :=
  match roles !! owner k with
  | Some (Client cmds) => after cmds (applied (g (owner k))) !! k
  | _ => m0 !! k
  end.

Record tied (g : nat -> Ghost) (clk : Clock) (held : bool) (m : CacheMap) (p : Persister)
    (rs : list (nat * CommandOutcome)) (ms : CacheMap) (l : list WriteCommand) : Prop := mkTied {
  t_clock : bounded T clk;
  t_quiet : quiet_map T m;
  t_snapshot : snapshot_holds (ps_fs p) ms;
  t_log : holds p l;
  t_faults : no_faults (ps_fs p);
  t_quiet_snapshot : quiet_map T ms;
  t_quiet_log : Forall (quiet_write T) l;
  t_cache : forall k, m !! k = expected g k;
  t_files : forall k, m !! k = in_flight (g (owner k)) k (replayed l ms !! k);
  t_replies : forall i, length (answered i rs) = replied (g i);
  t_applied : forall i n wc, g i = GApplied n wc ->
    exists cmds, roles !! i = Some (Client cmds) /\ cmds !! n = Some (CacheWrite wc);
  t_held : forall i, is_Some (captured (g i)) -> held = true;
  t_holder : held = true -> exists i, is_Some (captured (g i));
  t_one : forall i j, is_Some (captured (g i)) -> is_Some (captured (g j)) -> i = j;
  t_captured : forall i m', captured (g i) = Some m' -> m' = m;
  t_tmp : forall i m' b, g i = GHolding m' (Some b) -> fs_files (ps_fs p) !! TMP_PATH = Some b;
  t_stored : forall i m', g i = GStored m' -> ms = m'
}.

Definition state (clk : Clock) (held : bool) (m : CacheMap) (p : Persister)
    (rs : list (nat * CommandOutcome)) : Shared :=
  mkShared (mkExecutor (mkCacheState clk (mkMutex held false m)) p) rs.

Definition concurrent_inv (g : nat -> Ghost) (s : Shared) : Prop :=
  exists clk held m p rs ms l, s = state clk held m p rs /\ tied g clk held m p rs ms l.

(** Every client's writes are to keys of its own, can be logged, and have no
    deadline that comes up. *)
Definition good_command (i : nat) (cmd : CacheCommand) : Prop :=
  quiet_command T cmd /\ CacheCommand_loggable cmd /\
  forall wc, cmd = CacheWrite wc -> owner (write_key wc) = i.
Definition good_roles : Prop :=
  forall i cmds, roles !! i = Some (Client cmds) -> Forall (good_command i) cmds.
End invariant.
Arguments t_clock {H T roles owner m0 g clk held m p rs ms l} _.
Arguments t_quiet {H T roles owner m0 g clk held m p rs ms l} _.
Arguments t_snapshot {H T roles owner m0 g clk held m p rs ms l} _.
Arguments t_log {H T roles owner m0 g clk held m p rs ms l} _.
Arguments t_faults {H T roles owner m0 g clk held m p rs ms l} _.
Arguments t_quiet_snapshot {H T roles owner m0 g clk held m p rs ms l} _.
Arguments t_quiet_log {H T roles owner m0 g clk held m p rs ms l} _.
Arguments t_cache {H T roles owner m0 g clk held m p rs ms l} _.
Arguments t_files {H T roles owner m0 g clk held m p rs ms l} _.
Arguments t_replies {H T roles owner m0 g clk held m p rs ms l} _.
Arguments t_applied {H T roles owner m0 g clk held m p rs ms l} _.
Arguments t_holder {H T roles owner m0 g clk held m p rs ms l} _.
Arguments t_held {H T roles owner m0 g clk held m p rs ms l} _.
Arguments t_one {H T roles owner m0 g clk held m p rs ms l} _.
Arguments t_captured {H T roles owner m0 g clk held m p rs ms l} _.
Arguments t_tmp {H T roles owner m0 g clk held m p rs ms l} _.
Arguments t_stored {H T roles owner m0 g clk held m p rs ms l} _.

Lemma writes_take_S cmds n cmd :
  cmds !! n = Some cmd ->
  writes (take (S n) cmds) =
  writes (take n cmds) ++ match cmd with CacheWrite wc => [wc] | CacheRead _ => [] end.
Proof.
  intros Hn. rewrite (take_S_r _ _ _ Hn). unfold writes. rewrite omap_app. f_equal.
  by destruct cmd.
Qed.

Lemma write_effect_other k wc : write_key wc <> k -> write_effect k wc = Deadline None.
Proof. intros Hk. unfold write_effect. by rewrite decide_False. Qed.

Lemma upd_eq {G} i (gi : G) g : upd i gi g i = gi.
Proof. unfold upd. by rewrite decide_True. Qed.
Lemma upd_ne {G} i j (gi : G) g : j <> i -> upd i gi g j = g j.
Proof. intros Hne. unfold upd. by rewrite decide_False. Qed.

(** ** The moves of the invariant *)

Section moves.
Context `{Wincode} (T : N) (roles : list Role) (owner : bytes -> nat) (m0 : CacheMap).
Abbreviation tied := (tied T roles owner m0).
Abbreviation expected := (expected roles owner m0).
Abbreviation after := (after m0).

Implicit Types (g : nat -> Ghost) (clk : Clock) (h : bool) (m ms : CacheMap) (p : Persister)
  (rs : list (nat * CommandOutcome)) (l : list WriteCommand).

Definition is_client (i : nat) : Prop := exists cmds, roles !! i = Some (Client cmds).
Definition writing (gi : Ghost) : Prop := match gi with GApplied _ _ => True | _ => False end.

Lemma expected_upd i gi g k :
  (is_client i -> applied gi = applied (g i)) -> expected (upd i gi g) k = expected g k.
Proof.
  intros Ha. unfold expected, Concurrent.expected.
  destruct (roles !! owner k) as [[cmds| |]|] eqn:Hr; try done.
  destruct (decide (owner k = i)) as [He|]; [|by rewrite upd_ne].
  rewrite He, upd_eq, Ha; [done|]. exists cmds. by rewrite <- He.
Qed.

Lemma in_flight_upd i gi g j k x :
  ~ writing gi -> ~ writing (g i) -> in_flight (upd i gi g j) k x = in_flight (g j) k x.
Proof.
  intros H1 H2. destruct (decide (j = i)) as [->|]; [|by rewrite upd_ne]. rewrite upd_eq.
  by destruct gi, (g i); cbn in *.
Qed.

Lemma in_flight_other g i j k wc x :
  write_key wc <> k -> g i = GApplied j wc -> in_flight (g i) k x = x.
Proof. intros Hk ->. cbn. by rewrite write_effect_other. Qed.

Lemma in_flight_idem gi k x f :
  in_flight gi k (run_effect f (in_flight gi k (run_effect f x))) = in_flight gi k (run_effect f x).
Proof.
  assert (exists f', forall y, in_flight gi k (run_effect f y) = run_effect f' y) as [f' Hf].
  { destruct gi as [|n wc| | |]; [by exists f| |by exists f..].
    exists (compose_effect (write_effect k wc) f). intros y. by rewrite compose_effect_run. }
  rewrite !Hf. apply effect_idem.
Qed.

Lemma tied_clock g clk clk' h m p rs ms l :
  tied g clk h m p rs ms l -> bounded T clk' -> tied g clk' h m p rs ms l.
Proof. by intros [] Hb; split. Qed.

(** A thread's new ghost that says the same of the cache, the files, the answers
    and the lock. *)
Lemma tied_ext g g' clk h m p rs ms l :
  (forall i, g' i = g i) -> tied g clk h m p rs ms l -> tied g' clk h m p rs ms l.
Proof.
  intros He [Hc Hq Hs Hl Hf Hqs Hql Hca Hfi Hr Hap Hh Hhd Ho Hcap Ht Hst].
  assert (Hex : forall k, expected g' k = expected g k).
  { intros k. unfold Concurrent.expected. by rewrite He. }
  split; try done; intros *; rewrite ?Hex, ?He; eauto.
  intros Hheld. destruct (Hhd Hheld) as [j Hj]. exists j. by rewrite He.
Qed.

Lemma applied_upd i gi g (P : nat -> nat -> WriteCommand -> Prop) :
  ~ writing gi -> (forall j n wc, g j = GApplied n wc -> P j n wc) ->
  forall j n wc, upd i gi g j = GApplied n wc -> P j n wc.
Proof.
  intros Hw HP j n wc Hj. destruct (decide (j = i)) as [->|]; [|rewrite upd_ne in Hj by done; auto].
  rewrite upd_eq in Hj. by subst gi; destruct Hw.
Qed.

Lemma holder_upd i gi g :
  captured (g i) = None -> (exists j, is_Some (captured (g j))) ->
  exists j, is_Some (captured (upd i gi g j)).
Proof.
  intros Hn [j Hj]. exists j. rewrite upd_ne; [done|]. intros ->. rewrite Hn in Hj. by destruct Hj.
Qed.

Lemma upd_self {G} i (g : nat -> G) j : upd i (g i) g j = g j.
Proof. unfold upd. by case_decide; subst. Qed.

(** A write in the cache. *)
Lemma tied_apply g clk m p rs ms l i cmds n wc :
  tied g clk false m p rs ms l -> roles !! i = Some (Client cmds) -> g i = GReady n ->
  cmds !! n = Some (CacheWrite wc) -> good_command T owner i (CacheWrite wc) ->
  tied (upd i (GApplied n wc) g) clk false (apply m wc) p rs ms l.
Proof.
  intros [Hc Hq Hs Hl Hf Hqs Hql Hca Hfi Hr Hap Hh Hhd Ho Hcap Ht Hst] Hi Hg Hn (Hqw & _ & Hown).
  specialize (Hown wc eq_refl).
  assert (Hfree : forall j, captured (g j) = None).
  { intros j. destruct (captured (g j)) eqn:Hj; [|done]. by specialize (Hh j ltac:(by rewrite Hj)). }
  assert (Hfree' : forall j, captured (upd i (GApplied n wc) g j) = None).
  { intros j. destruct (decide (j = i)) as [->|]; [by rewrite upd_eq|by rewrite upd_ne]. }
  split; try done.
  - by apply quiet_apply.
  - intros k. rewrite lookup_apply, Hca. unfold Concurrent.expected.
    destruct (decide (owner k = i)) as [Hk|Hk].
    + rewrite Hk, Hi, upd_eq, Hg. cbn [applied]. unfold after, Concurrent.after.
      rewrite (writes_take_S _ _ _ Hn), replayed_app. cbn [replayed fold_left].
      by rewrite lookup_apply.
    + rewrite write_effect_other by (intros <-; done). cbn. by rewrite upd_ne.
  - intros k. rewrite lookup_apply, Hfi. destruct (decide (owner k = i)) as [Hk|Hk].
    + by rewrite Hk, upd_eq, Hg.
    + rewrite write_effect_other by (intros <-; done). cbn. by rewrite upd_ne.
  - intros j. rewrite Hr. destruct (decide (j = i)) as [->|]; [by rewrite upd_eq, Hg|by rewrite upd_ne].
  - intros j n' wc' Hj. destruct (decide (j = i)) as [->|].
    + rewrite upd_eq in Hj. injection Hj as <- <-. by exists cmds.
    + rewrite upd_ne in Hj by done. by eapply Hap.
  - intros j Hj. rewrite Hfree' in Hj. by destruct Hj.
  - intros j j' Hj. rewrite Hfree' in Hj. by destruct Hj.
  - intros j m' Hj. by rewrite Hfree' in Hj.
  - intros j m' b Hj. specialize (Hfree' j). by rewrite Hj in Hfree'.
  - intros j m' Hj. specialize (Hfree' j). by rewrite Hj in Hfree'.
Qed.

(** The fields about the lock, when a thread that does not hold it moves. *)
Lemma captured_upd_None i gi g j m :
  captured gi = None -> captured (upd i gi g j) = Some m -> captured (g j) = Some m.
Proof.
  intros Hn Hj. destruct (decide (j = i)) as [->|]; [|by rewrite upd_ne in Hj].
  rewrite upd_eq, Hn in Hj. done.
Qed.

(** The write in the log. *)
Lemma tied_append g clk h m p p' rs ms l i n wc :
  tied g clk h m p rs ms l -> g i = GApplied n wc -> good_command T owner i (CacheWrite wc) ->
  holds p' (l ++ [wc]) -> no_faults (ps_fs p') ->
  (forall path, path <> AOF_PATH -> fs_files (ps_fs p') !! path = fs_files (ps_fs p) !! path) ->
  tied (upd i (GLogged n) g) clk h m p' rs ms (l ++ [wc]).
Proof.
  intros [Hc Hq Hs Hl Hf Hqs Hql Hca Hfi Hr Hap Hh Hhd Ho Hcap Ht Hst] Hg (Hqw & _ & Hown) Hl' Hf' Hfs.
  specialize (Hown wc eq_refl).
  assert (Hlock : forall j m', captured (upd i (GLogged n) g j) = Some m' -> captured (g j) = Some m').
  { intros j m'. by apply captured_upd_None. }
  split; try done.
  - destruct Hs as (b & Hb & Hms). exists b. by rewrite Hfs.
  - apply Forall_app; split; [done|by constructor].
  - intros k. rewrite Hca. symmetry. apply expected_upd. by rewrite Hg.
  - intros k. rewrite replayed_app. cbn [replayed fold_left]. rewrite lookup_apply, Hfi.
    fold (replayed l ms). destruct (decide (owner k = i)) as [Hk|Hk].
    + by rewrite Hk, upd_eq, Hg.
    + rewrite write_effect_other by (intros <-; done). cbn. by rewrite upd_ne.
  - intros j. rewrite Hr. destruct (decide (j = i)) as [->|]; [by rewrite upd_eq, Hg|by rewrite upd_ne].
  - apply applied_upd; [by intros []|done].
  - intros j [m' Hj%Hlock]. by eapply Hh.
  - intros Hheld. apply holder_upd; [by rewrite ?Hg|by apply Hhd].
  - intros j j' [m1 Hj%Hlock] [m2 Hj'%Hlock]. by apply Ho.
  - intros j m' Hj%Hlock. by eapply Hcap.
  - intros j m' b Hj. destruct (decide (j = i)) as [->|]; [by rewrite upd_eq in Hj|].
    rewrite upd_ne in Hj by done. rewrite Hfs by apply TMP_not_AOF. by eapply Ht.
  - intros j m' Hj. destruct (decide (j = i)) as [->|]; [by rewrite upd_eq in Hj|].
    rewrite upd_ne in Hj by done. by eapply Hst.
Qed.

(** The answer. *)
Lemma tied_reply g clk h m p rs ms l i cmds n out :
  tied g clk h m p rs ms l -> roles !! i = Some (Client cmds) ->
  replied (g i) = n -> ~ writing (g i) -> captured (g i) = None ->
  after cmds (applied (g i)) = after cmds (S n) ->
  tied (upd i (GReady (S n)) g) clk h m p (rs ++ [(i, out)]) ms l.
Proof.
  intros [Hc Hq Hs Hl Hf Hqs Hql Hca Hfi Hr Hap Hh Hhd Ho Hcap Ht Hst] Hi Hn Hw Hnc Ha.
  assert (Hlock : forall j m', captured (upd i (GReady (S n)) g j) = Some m' -> captured (g j) = Some m').
  { intros j m'. by apply captured_upd_None. }
  assert (Hne : forall j x, upd i (GReady (S n)) g j = x -> captured x <> None -> g j = x).
  { intros j x Hj Hx. destruct (decide (j = i)) as [->|]; [|by rewrite upd_ne in Hj].
    rewrite upd_eq in Hj. by subst x. }
  split; try done.
  - intros k. rewrite Hca. unfold Concurrent.expected. destruct (decide (owner k = i)) as [Hk|Hk].
    + by rewrite Hk, Hi, upd_eq, Ha.
    + by rewrite upd_ne.
  - intros k. rewrite Hfi, in_flight_upd; [done|by intros []|done].
  - intros j. rewrite answered_snoc, length_app, Hr.
    destruct (decide (j = i)) as [->|].
    + rewrite upd_eq, decide_True by done. cbn. lia.
    + rewrite upd_ne, decide_False by congruence. cbn. lia.
  - apply applied_upd; [by intros []|done].
  - intros j [m' Hj%Hlock]. by eapply Hh.
  - intros Hheld. apply holder_upd; [by rewrite ?Hg|by apply Hhd].
  - intros j j' [m1 Hj%Hlock] [m2 Hj'%Hlock]. by apply Ho.
  - intros j m' Hj%Hlock. by eapply Hcap.
  - intros j m' b Hj%Hne; [by eapply Ht|done].
  - intros j m' Hj%Hne; [by eapply Hst|done].
Qed.

(** *** The persistence thread's moves *)

(** What the moves of a thread that is no client leave alone. *)
Lemma tied_other g clk h m p rs ms l i gi :
  tied g clk h m p rs ms l -> ~ is_client i -> ~ writing (g i) -> ~ writing gi ->
  replied (g i) = 0 -> replied gi = 0 ->
  (forall k, m !! k = expected (upd i gi g) k) /\
  (forall k, m !! k = in_flight (upd i gi g (owner k)) k (replayed l ms !! k)) /\
  (forall j, length (answered j rs) = replied (upd i gi g j)) /\
  (forall j n wc, upd i gi g j = GApplied n wc ->
     exists cmds, roles !! j = Some (Client cmds) /\ cmds !! n = Some (CacheWrite wc)).
Proof.
  intros Ht Hi Hw Hw' Hr Hr'. split_and!; [..|apply applied_upd; [done|apply (t_applied Ht)]].
  - intros k. rewrite (t_cache Ht). symmetry. by apply expected_upd.
  - intros k. rewrite in_flight_upd by done. apply (t_files Ht).
  - intros j. rewrite (t_replies Ht).
    destruct (decide (j = i)) as [->|]; [by rewrite upd_eq, Hr, Hr'|by rewrite upd_ne].
Qed.

Lemma tied_lock g clk m p rs ms l i :
  tied g clk false m p rs ms l -> ~ is_client i -> g i = GReady 0 ->
  tied (upd i (GHolding m None) g) clk true m p rs ms l.
Proof.
  intros Ht Hi Hg.
  destruct (tied_other _ _ _ _ _ _ _ _ i (GHolding m None) Ht Hi) as (H1 & H2 & H3 & H4);
    rewrite ?Hg; auto.
  assert (Hfree : forall j x, captured (g j) = Some x -> False).
  { intros j x Hj. by specialize (t_held Ht j ltac:(by eexists)). }
  assert (Hone : forall j x, captured (upd i (GHolding m None) g j) = Some x -> j = i /\ x = m).
  { intros j x Hj. destruct (decide (j = i)) as [->|].
    - rewrite upd_eq in Hj. by injection Hj as <-.
    - rewrite upd_ne in Hj by done. by destruct (Hfree _ _ Hj). }
  destruct Ht. split; try done.
  - intros _. exists i. rewrite upd_eq. by eexists.
  - intros j j' [x [-> _]%Hone] [y [-> _]%Hone]. done.
  - by intros j m' [_ ->]%Hone.
  - intros j m' b Hj. assert (Hc := f_equal captured Hj). apply Hone in Hc as [-> _].
    by rewrite upd_eq in Hj.
  - intros j m' Hj. assert (Hc := f_equal captured Hj). apply Hone in Hc as [-> _].
    by rewrite upd_eq in Hj.
Qed.

Lemma tied_unlock g clk h m p rs ms l i m' :
  tied g clk h m p rs ms l -> ~ is_client i -> captured (g i) = Some m' ->
  tied (upd i (GReady 0) g) clk false m p rs ms l.
Proof.
  intros Ht Hi Hg.
  assert (Hw : ~ writing (g i) /\ replied (g i) = 0) by (destruct (g i); naive_solver).
  destruct Hw as [Hw Hr].
  destruct (tied_other _ _ _ _ _ _ _ _ i (GReady 0) Ht Hi Hw) as (H1 & H2 & H3 & H4); auto.
  assert (Hfree : forall j, captured (upd i (GReady 0) g j) = None).
  { intros j. destruct (decide (j = i)) as [->|]; [by rewrite upd_eq|]. rewrite upd_ne by done.
    destruct (captured (g j)) eqn:Hj; [|done].
    by destruct (t_one Ht i j); rewrite ?Hg, ?Hj. }
  destruct Ht. split; try done; intros j *; intros Hj; specialize (Hfree j); try congruence.
  - by destruct Hj; congruence.
  - intros _. by destruct Hj; congruence.
  - by rewrite Hj in Hfree.
  - by rewrite Hj in Hfree.
Qed.

(** A move of the lock's holder: the files, the snapshot and the log may change as
    long as they say what they said. *)
Lemma tied_holder g clk h m p p' rs ms ms' l l' i gi m1 :
  tied g clk h m p rs ms l -> ~ is_client i ->
  captured (g i) = Some m1 -> captured gi = Some m1 ->
  snapshot_holds (ps_fs p') ms' -> holds p' l' -> no_faults (ps_fs p') ->
  quiet_map T ms' -> Forall (quiet_write T) l' ->
  (forall k, m !! k = in_flight (g (owner k)) k (replayed l' ms' !! k)) ->
  (forall m' b, gi = GHolding m' (Some b) -> fs_files (ps_fs p') !! TMP_PATH = Some b) ->
  (forall m', gi = GStored m' -> ms' = m') ->
  tied (upd i gi g) clk h m p' rs ms' l'.
Proof.
  intros Ht Hi Hg Hgi Hs Hl Hf Hqs Hql Hfi Htmp Hst.
  assert (Hw : ~ writing (g i) /\ replied (g i) = 0 /\ ~ writing gi /\ replied gi = 0)
    by (destruct (g i), gi; naive_solver). destruct Hw as (Hw & Hr & Hw' & Hr').
  destruct (tied_other _ _ _ _ _ _ _ _ i gi Ht Hi Hw Hw' Hr Hr') as (H1 & _ & H3 & H4).
  assert (Hcap : forall j, captured (upd i gi g j) = captured (g j)).
  { intros j. destruct (decide (j = i)) as [->|]; [by rewrite upd_eq, Hg|by rewrite upd_ne]. }
  assert (Hsame : forall j x, upd i gi g j = x -> is_Some (captured x) -> x = gi).
  { intros j x Hj Hx. destruct (decide (j = i)) as [->|Hne]; [by rewrite upd_eq in Hj|].
    rewrite upd_ne in Hj by done. destruct Hne.
    apply (t_one Ht); [by rewrite Hj|by rewrite Hg]. }
  split; try done; try apply Ht.
  - intros k. by rewrite in_flight_upd.
  - intros j. rewrite Hcap. apply (t_held Ht).
  - intros Hheld. destruct (t_holder Ht Hheld) as [j Hj]. exists j. by rewrite Hcap.
  - intros j j'. rewrite !Hcap. apply (t_one Ht).
  - intros j m'. rewrite Hcap. apply (t_captured Ht).
  - intros j m' b Hj. apply (Htmp m'). symmetry. apply (Hsame _ _ Hj). by eexists.
  - intros j m' Hj. apply Hst. symmetry. apply (Hsame _ _ Hj). by eexists.
Qed.

(** A file operation on the temporary file or on none. *)
Lemma tied_agree g clk h m p rs ms l i gi m1 fs' :
  tied g clk h m p rs ms l -> ~ is_client i ->
  captured (g i) = Some m1 -> captured gi = Some m1 ->
  agree (ps_fs p) fs' -> no_faults fs' ->
  (forall m' b, gi = GHolding m' (Some b) -> fs_files fs' !! TMP_PATH = Some b) ->
  (forall m', gi = GStored m' -> ms = m') ->
  tied (upd i gi g) clk h m (set_fs fs' p) rs ms l.
Proof.
  intros Ht Hi Hg Hgi [Ha Hs] Hf Htmp Hst.
  pose proof (t_snapshot Ht) as (b & Hb & Hms).
  pose proof (t_log Ht) as (Hh & Hlog & Hll).
  eapply tied_holder; try done; try apply Ht.
  - exists b. by rewrite <- Hb.
  - split_and!; [exact Hh|by rewrite <- Hlog|done].
Qed.

(** The rename: the snapshot has the captured map, and the log over it changes
    nothing, in-flight writes included. *)
Lemma tied_rename g clk h m p rs ms l i b m1 fs' :
  tied g clk h m p rs ms l -> ~ is_client i -> g i = GHolding m1 (Some b) ->
  b <> [] -> deserialize b = Ok m1 -> no_faults fs' ->
  fs_files fs' !! SNAPSHOT_PATH = Some b ->
  fs_files fs' !! AOF_PATH = fs_files (ps_fs p) !! AOF_PATH ->
  tied (upd i (GStored m1) g) clk h m (set_fs fs' p) rs m1 l.
Proof.
  intros Ht Hi Hg Hb Hde Hf Hs Ha.
  pose proof (t_log Ht) as (Hh & Hlog & Hll).
  assert (m1 = m) as -> by (eapply (t_captured Ht i); by rewrite Hg).
  eapply (tied_holder _ _ _ _ _ _ _ ms); try done; try apply Ht.
  - by rewrite Hg.
  - exists b. split; [done|]. by rewrite decide_False.
  - split_and!; [exact Hh|by rewrite <- Hlog|done].
  - intros k. rewrite !(t_files Ht k).
    destruct (lookup_replayed l k) as [f Hff]. rewrite !Hff.
    rewrite (t_files Ht k), Hff. by rewrite in_flight_idem.
  - by intros m' [= ->].
Qed.

(** The log emptied over a snapshot of the map. *)
Lemma tied_clear g clk h m p p' rs ms l i m1 :
  tied g clk h m p rs ms l -> ~ is_client i -> g i = GStored m1 ->
  holds p' [] -> no_faults (ps_fs p') ->
  fs_files (ps_fs p') !! SNAPSHOT_PATH = fs_files (ps_fs p) !! SNAPSHOT_PATH ->
  tied (upd i (GStored m1) g) clk h m p' rs ms [].
Proof.
  intros Ht Hi Hg Hl Hf Hs.
  assert (m1 = m) as -> by (eapply (t_captured Ht i); by rewrite Hg).
  assert (ms = m) as -> by (eapply (t_stored Ht i); by rewrite Hg).
  pose proof (t_snapshot Ht) as (b & Hb & Hms).
  eapply (tied_holder _ _ _ _ _ _ _ m); try done; try apply Ht.
  - by rewrite Hg.
  - exists b. by rewrite Hs.
  - intros k. cbn. rewrite (t_files Ht k).
    destruct (g (owner k)); try done. cbn. by rewrite effect_idem.
  - by intros m' [= ->].
Qed.
End moves.
