(* ===== verification/ConcurrentSpec.v ===== *)
(** * What a crash leaves of a running server

    Every thread of Concurrent.v keeps the invariant at every step, so at every
    point of every interleaving the files say what the cache holds, up to the one
    write each client may have in flight: what startup makes of them is stated
    here. *)

From S2P Require Import Prelude Effects Threads RustStd Time Command Frame CommandFrame.
From S2P Require Import Cache CacheSpec Ports Executor Files Persister Recovery Concurrent.

(** ** What a crash leaves

    The files as they are; or, with an append under way, what [Aof::append] leaves when
    it is cut short at any of its operations on the file, any part of that one done.
    (While it is under way it has the log's lock: what the others do between its
    operations is not to the log, so they may as well have done it before.) *)
Definition files_of (s : Shared) : gmap bytes bytes := fs_files (ps_fs (ex_repo (sh_exec s))).

Inductive left_behind (s : Shared) : gmap bytes bytes -> Prop :=
| left_between : left_behind s (files_of s)
| left_inside wc faults e p' :
    loggable wc ->
    Effects.run (Aof.append wc) (set_fs (mkFs (files_of s) faults 0) (ex_repo (sh_exec s))) = Some (Err e, p') ->
    left_behind s (fs_files (ps_fs p')).

Section threads_ok.
Context `{Wincode} (T : N) (roles : list Role) (owner : bytes -> nat) (m0 : CacheMap).
Hypothesis reads_back_all : forall m, reads_back m.

Abbreviation inv := (concurrent_inv T roles owner m0).
Abbreviation tied := (tied T roles owner m0).

(** A thread waits only for another that has the cache's lock. *)
Definition waits (i : nat) (g : nat -> Ghost) : Prop :=
  exists j, j <> i /\ is_Some (captured (g j)).

Lemma holder_waits i g clk m p rs ms l :
  tied g clk true m p rs ms l -> captured (g i) = None -> waits i g.
Proof.
  intros Ht Hi. destruct (t_holder Ht eq_refl) as [j Hj]. exists j. split; [|done].
  intros ->. rewrite Hi in Hj. by destruct Hj.
Qed.

Definition on_cache : Lens Shared CacheState := lens_comp sh_execL cacheL.
Definition on_repo : Lens Shared Persister := lens_comp sh_execL repoL.

Lemma inv_state g clk h m p rs ms l : tied g clk h m p rs ms l -> inv g (state clk h m p rs).
Proof. intros Ht. by exists clk, h, m, p, rs, ms, l. Qed.

Lemma tied_same i gi g clk h m p rs ms l :
  tied g clk h m p rs ms l -> g i = gi -> tied (upd i gi g) clk h m p rs ms l.
Proof. intros Ht <-. eapply tied_ext; [|exact Ht]. intros j. apply upd_self. Qed.

(** ** The steps of the cache's operations *)

(** A reading of the clock. *)
Lemma ok_now i Q gi :
  (forall t, (millis t <= T)%N -> Q (Ok t) gi) -> zoom_ok inv waits on_cache i Q KvStore.now_p gi.
Proof.
  intros HQ. apply zoom_ok_atomic. intros g s (clk & h & m & p & rs & ms & l & -> & Ht) Hg.
  destruct (bounded_now T clk (t_clock Ht)) as (t & clk' & Hn & Hle & Hb).
  set (inner := mkMutex h false m).
  assert (He : KvStore.now_m (mkCacheState clk inner) = (Ok t, mkCacheState clk' inner)).
  { unfold KvStore.now_m, m_map_err, m_zoom. cbn [view clockL cs_clock put]. by rewrite Hn. }
  exists gi. change (view on_cache _) with (mkCacheState clk inner). rewrite He.
  split; [|by apply HQ].
  by eapply inv_state, tied_same, Hg; eapply tied_clock.
Qed.

(** A critical section. *)
Lemma ok_with_lock {A} i Q (body : M CacheState CacheError A) gi :
  captured gi = None ->
  (forall g clk m p rs ms l, tied g clk false m p rs ms l -> g i = gi ->
     exists r clk' m' gi', body (cache_new clk m) = (r, cache_new clk' m') /\
       tied (upd i gi' g) clk' false m' p rs ms l /\ Q r gi') ->
  zoom_ok inv waits on_cache i Q (KvStore.with_lock body) gi.
Proof.
  intros Hgi Hb. apply zoom_ok_locked; intros g s (clk & h & m & p & rs & ms & l & -> & Ht) Hg Hh;
    cbn in Hh; subst h; [|by eapply holder_waits; [|rewrite Hg]].
  split; [done|].
  destruct (Hb _ _ _ _ _ _ _ Ht Hg) as (r & clk' & m' & gi' & He & Ht' & HQ). exists gi'.
  change (view on_cache _) with (cache_new clk m). rewrite He. split; [|done].
  by eapply inv_state.
Qed.

(** One that only looks. *)
Lemma ok_look {A} i Q (body : M CacheState CacheError A) gi :
  captured gi = None ->
  (forall clk m, bounded T clk -> quiet_map T m ->
     exists r clk', body (cache_new clk m) = (r, cache_new clk' m) /\ bounded T clk' /\ Q r gi) ->
  zoom_ok inv waits on_cache i Q (KvStore.with_lock body) gi.
Proof.
  intros Hgi Hb. apply ok_with_lock; [done|]. intros g clk m p rs ms l Ht Hg.
  destruct (Hb clk m (t_clock Ht) (t_quiet Ht)) as (r & clk' & He & Hc & HQ).
  exists r, clk', m, gi. split_and!; [done| |done]. eapply tied_same, Hg. by eapply tied_clock.
Qed.

Lemma not_passed t m k v d :
  quiet_map T m -> (millis t <= T)%N -> m !! k = Some (mkEntry v d) -> deadline_passed t d = false.
Proof. intros Hq Ht Hk. eapply later_live; [|exact Ht]. apply (quiet_lookup _ _ _ _ Hq Hk). Qed.

Definition answers (gi : Ghost) {E A} (r : result E A) (gi' : Ghost) : Prop :=
  is_ok r = true /\ gi' = gi.

Lemma ok_read i rc gi :
  captured gi = None ->
  zoom_ok inv waits on_cache i (answers gi) (KvStore.execute (CacheRead rc)) gi.
Proof.
  intros Hgi. destruct rc as [key|key|key]; apply zoom_ok_bind; unfold KvStore.get, KvStore.contains,
    KvStore.time_to_live, KvStore.expires_at.
  - apply zoom_ok_bind, ok_now. intros t Ht. apply ok_look; [done|]. intros clk m Hb Hq.
    m_cbn. destruct (m !! key) as [[v d]|] eqn:Hk; [|by do 2 eexists].
    unfold is_expired. cbn [entry_expires_at]. rewrite (not_passed t m key v d) by done.
    by do 2 eexists.
  - apply ok_look; [done|]. intros clk m Hb Hq.
    destruct (bounded_now T clk Hb) as (t & clk' & Hn & Ht & Hb').
    m_cbn. destruct (m !! key) as [[v [d|]]|] eqn:Hk; [|by do 2 eexists..].
    pose proof (not_passed t m key v (Some d) Hq Ht Hk) as Hd. cbn in Hd.
    unfold now in Hn. injection Hn as Hr <-. m_cbn. rewrite Hr. cbn. rewrite Hd.
    by do 2 eexists.
  - apply zoom_ok_bind, zoom_ok_bind, ok_look; [done|]. intros clk m Hb Hq.
    exists (Ok (entry_expires_at <$> m !! key)), clk. split; [done|]. split; [done|].
    destruct (m !! key) as [[v d]|] eqn:Hk; [|done]. cbn [fmap option_fmap option_map entry_expires_at].
    apply zoom_ok_bind, ok_now. intros t Ht. rewrite (not_passed t m key v d) by done.
    apply zoom_ok_ret. destruct d as [d|]; [|by apply zoom_ok_ret].
    apply zoom_ok_bind, ok_now. intros t' Ht'. by apply zoom_ok_ret.
Qed.

(** *** Writes *)

(** A critical section that makes the next write of a client. *)
Lemma ok_change {A} (i n : nat) cmds wc (Q : result CacheError A -> Ghost -> Prop)
    (body : M CacheState CacheError A) :
  roles !! i = Some (Client cmds) -> cmds !! n = Some (CacheWrite wc) ->
  good_command T owner i (CacheWrite wc) ->
  (forall clk m, bounded T clk -> quiet_map T m ->
     exists r clk', body (cache_new clk m) = (r, cache_new clk' (apply m wc)) /\
       bounded T clk' /\ Q r (GApplied n wc)) ->
  zoom_ok inv waits on_cache i Q (KvStore.with_lock body) (GReady n).
Proof.
  intros Hi Hn Hw Hb. apply ok_with_lock; [done|]. intros g clk m p rs ms l Ht Hg.
  destruct (Hb clk m (t_clock Ht) (t_quiet Ht)) as (r & clk' & He & Hc & HQ).
  exists r, clk', (apply m wc), (GApplied n wc). split_and!; [done| |done].
  eapply tied_clock, Hc. by eapply tied_apply.
Qed.

Lemma ok_write (i n : nat) cmds wc :
  roles !! i = Some (Client cmds) -> cmds !! n = Some (CacheWrite wc) ->
  good_command T owner i (CacheWrite wc) ->
  zoom_ok inv waits on_cache i (answers (GApplied n wc)) (KvStore.execute (CacheWrite wc)) (GReady n).
Proof.
  intros Hi Hn Hw. pose proof Hw as (Hq & _ & _).
  destruct wc as [key v d|key|key d|key]; apply zoom_ok_bind;
    unfold KvStore.insert, KvStore.remove, KvStore.set_expires_at, KvStore.remove_ttl.
  - eapply ok_change; [done..|]. intros clk m Hb _. do 2 eexists. split; [reflexivity|]. by split.
  - eapply ok_change; [done..|]. intros clk m Hb _. do 2 eexists. split; [reflexivity|]. by split.
  - apply zoom_ok_bind, ok_now. intros t Ht.
    rewrite (later_live T t (Some d) Hq Ht : ms_ge t d = _).
    eapply ok_change; [done..|]. intros clk m Hb _. m_cbn. destruct (m !! key) as [e|] eqn:Hk.
    + rewrite (alter_insert_Some _ _ _ e) by done. by do 2 eexists.
    + rewrite alter_same by (by rewrite Hk). by do 2 eexists.
  - eapply ok_change; [done..|]. intros clk m Hb Hqm.
    destruct (bounded_now T clk Hb) as (t & clk' & Hnow & Ht & Hb').
    m_cbn. destruct (m !! key) as [[v [d|]]|] eqn:Hk.
    + pose proof (not_passed t m key v (Some d) Hqm Ht Hk) as Hd. cbn in Hd.
      unfold now in Hnow. injection Hnow as Hr <-. m_cbn. rewrite Hr. cbn. rewrite Hd.
      rewrite (alter_insert_Some _ _ _ _ Hk). by do 2 eexists.
    + rewrite alter_same by (by rewrite Hk). by do 2 eexists.
    + rewrite alter_same by (by rewrite Hk). by do 2 eexists.
Qed.

Lemma ok_append i n wc :
  good_command T owner i (CacheWrite wc) ->
  zoom_ok inv waits on_repo i (answers (GLogged n)) (append wc) (GApplied n wc).
Proof.
  intros Hw. pose proof Hw as (_ & Hlog & _). cbn in Hlog.
  apply zoom_ok_bind, zoom_ok_map_err. unfold Aof.append. apply zoom_ok_locked_run.
  intros g s (clk & h & m & p & rs & ms & l & -> & Ht) Hg.
  pose proof (t_log Ht) as (Hh & Hc & Hl).
  destruct (run_append p _ wc Hh Hc) as (r & p' & Hr & Hok & Hnf).
  destruct (Hnf (t_faults Ht)) as [-> Hf']. destruct (Hok eq_refl) as (fs' & -> & _ & Hfs).
  do 2 eexists. exists (GLogged n). split; [exact Hr|]. split; [|done].
  eapply inv_state, tied_append; try done.
  - split_and!; [exact Hh| |by apply Forall_app; split; [|constructor]].
    cbn. by rewrite Hfs, lookup_insert_eq, log_bytes_snoc.
  - intros path Hp. cbn. by rewrite Hfs, lookup_insert_ne.
Qed.

(** A command done, but for its answer. *)
Definition done_all (cmds : list CacheCommand) (n : nat) (gi : Ghost) : Prop :=
  replied gi = n /\ ~ writing gi /\ captured gi = None /\
  after m0 cmds (applied gi) = after m0 cmds (S n).

Lemma tied_ok_execute (i n : nat) cmds cmd :
  roles !! i = Some (Client cmds) -> cmds !! n = Some cmd -> good_command T owner i cmd ->
  zoom_ok inv waits sh_execL i (fun r gi => is_ok r = true /\ done_all cmds n gi)
    (execute_logged cmd) (GReady n).
Proof.
  intros Hi Hn Hw. apply zoom_ok_bind, zoom_ok_bind, zoom_ok_map_err, zoom_ok_zoom.
  destruct cmd as [rc|wc].
  - eapply thread_ok_mono; [|by apply ok_read]. intros [out|e] gi [Hr ->]; [|done].
    apply zoom_ok_ret, zoom_ok_bind, zoom_ok_ret, zoom_ok_ret. split; [done|].
    split_and!; [done|by intros []|done|]. unfold after. cbn.
    by rewrite (writes_take_S _ _ _ Hn), app_nil_r.
  - eapply thread_ok_mono; [|by eapply ok_write]. intros [out|e] gi [Hr ->]; [|done].
    apply zoom_ok_ret, zoom_ok_bind, zoom_ok_map_err, zoom_ok_zoom.
    eapply thread_ok_mono; [|by apply ok_append]. intros [[]|e] gi [Hr' ->]; [|done].
    apply zoom_ok_ret. split; [done|]. by split_and!; [|intros []|..].
Qed.

Lemma ok_client i cmds n :
  roles !! i = Some (Client cmds) -> Forall (good_command T owner i) cmds ->
  thread_ok inv waits i (answers (GReady (n + length (drop n cmds)))) (client i (drop n cmds)) (GReady n).
Proof.
  intros Hi Hgood. remember (drop n cmds) as rest eqn:Hrest. revert n Hrest.
  induction rest as [|cmd rest IH]; intros n Hrest; cbn [client length].
  { by rewrite Nat.add_0_r. }
  assert (Hn : cmds !! n = Some cmd).
  { rewrite <- (Nat.add_0_r n), <- lookup_drop, <- Hrest. done. }
  assert (Hw : good_command T owner i cmd) by (by eapply Forall_lookup_1).
  apply thread_ok_bind. eapply thread_ok_mono; [|by eapply tied_ok_execute].
  intros [out|e] gi [Hr (Hrep & Hwr & Hcap & Haft)]; [|done].
  apply thread_ok_bind. intros g s (clk & h & m & p & rs & ms & l & -> & Ht) Hg.
  exists (GReady (S n)). split.
  - eapply inv_state. eapply (tied_reply _ _ _ _ _ _ _ _ _ rs); rewrite ?Hg; eauto.
  - rewrite <- Nat.add_succ_comm. apply IH. by rewrite (drop_S _ _ _ Hn) in Hrest; injection Hrest.
Qed.

(** ** The sweeper *)

Lemma quiet_expired_keys t m :
  quiet_map T m -> (millis t <= T)%N -> KvStore.expired_keys t m = [].
Proof.
  intros Hq Ht. destruct (KvStore.expired_keys t m) as [|k ks] eqn:He; [done|].
  assert (Hk : k ∈ KvStore.expired_keys t m) by (rewrite He; by left).
  apply elem_of_expired_keys in Hk as ([v d] & Hk & Hx). unfold is_expired in Hx.
  cbn [entry_expires_at] in Hx. by rewrite (not_passed t m k v d Hq Ht Hk) in Hx.
Qed.

Lemma ok_sweep i n gi :
  captured gi = None -> thread_ok inv waits i (answers gi) (sweep_loop n) gi.
Proof.
  intros Hgi.   induction n as [|n IH]; cbn [sweep_loop]; [done|]. apply thread_ok_then.
  eapply (thread_ok_mono _ _ _ _ (fun _ gi' => gi' = gi)); [by intros r ? ->|].
  apply zoom_ok_bind, ok_now. intros t Ht. apply ok_look; [done|]. intros clk m Hb Hq. m_cbn.
  rewrite (quiet_expired_keys t m) by done. by do 2 eexists.
Qed.

(** ** The persistence thread *)

Definition on_parts : Lens Shared (CacheState * Persister) := lens_comp sh_execL partsL.
Definition on_files : Lens Shared Persister := lens_comp on_parts lens_snd.

(** A file operation of the lock's holder. *)
Lemma ok_on_snapshot i Q (f : bytes -> M Fs IoError unit) gi :
  (forall g clk h m p rs ms l, tied g clk h m p rs ms l -> g i = gi ->
     exists fs' gi' ms', f SNAPSHOT_PATH (ps_fs p) = (Ok (), fs') /\
       tied (upd i gi' g) clk h m (set_fs fs' p) rs ms' l /\ Q (Ok ()) gi') ->
  zoom_ok inv waits on_files i Q (on_snapshot f) gi.
Proof.
  intros Hf. apply zoom_ok_map_err, zoom_ok_atomic.
  intros g s (clk & h & m & p & rs & ms & l & -> & Ht) Hg.
  destruct (Hf _ _ _ _ _ _ _ _ Ht Hg) as (fs' & gi' & ms' & He & Ht' & HQ). exists gi'.
  pose proof (t_log Ht) as ((_ & Hp) & _).
  unfold m_zoom. change (view on_files _) with p. cbn [view fsL]. rewrite Hp, He.
  split; [|done]. by eapply inv_state.
Qed.

(** On the temporary file only. *)
Lemma ok_on_tmp i Q (f : bytes -> M Fs IoError unit) m1 gi gi' :
  captured gi = Some m1 -> captured gi' = Some m1 -> ~ is_client roles i ->
  (forall m', gi' = GStored m' -> gi = GStored m') ->
  only TMP_PATH (f SNAPSHOT_PATH) ->
  (forall fs, no_faults fs -> (forall m' b, gi = GHolding m' (Some b) -> fs_files fs !! TMP_PATH = Some b) ->
     exists fs', f SNAPSHOT_PATH fs = (Ok (), fs') /\ no_faults fs' /\
       forall m' b, gi' = GHolding m' (Some b) -> fs_files fs' !! TMP_PATH = Some b) ->
  Q (Ok ()) gi' ->
  zoom_ok inv waits on_files i Q (on_snapshot f) gi.
Proof.
  intros Hgi Hgi' Hi Hst Honly Hf HQ. apply ok_on_snapshot.
  intros g clk h m p rs ms l Ht Hg. destruct (Hf (ps_fs p) (t_faults Ht)) as (fs' & He & Hn & Htmp).
  { intros m' b Hb. eapply (t_tmp Ht i m'). by rewrite Hg. }
  exists fs', gi', ms. split_and!; [done| |done].
  eapply tied_agree; try done; [by rewrite Hg| |].
  - by eapply only_agree; [exact Honly|apply TMP_not_AOF|apply TMP_not_SNAPSHOT|].
  - intros m' Hm'. apply (t_stored Ht i). rewrite Hg. by apply Hst.
Qed.

(** An operation that changes nothing, on any path. *)
Lemma ok_nothing i Q (f : M Fs IoError unit) m1 gi :
  f = fs_update (fun files => files) -> captured gi = Some m1 -> ~ is_client roles i ->
  Q (Ok ()) gi -> zoom_ok inv waits on_files i Q (on_snapshot (fun _ => f)) gi.
Proof.
  intros -> Hgi Hi HQ. eapply (ok_on_tmp _ _ _ _ _ gi); try done; [apply only_nothing|].
  intros fs Hn Htmp. destruct (fs_op_ok (fun files => (Ok (), files)) (fun _ files => files) fs Hn)
    as (fs' & He & Hf & Hn'). exists fs'. split_and!; [done..|]. cbn in Hf. by rewrite Hf.
Qed.

(** [store] of the captured map. *)
Lemma ok_store i m1 :
  ~ is_client roles i ->
  zoom_ok inv waits on_files i (fun r gi => captured gi = Some m1 /\ (r = Ok () -> gi = GStored m1))
    (snapshot_store m1) (GHolding m1 None).
Proof.
  intros Hi. unfold snapshot_store.
  apply zoom_ok_bind, (ok_on_tmp _ _ _ m1 _ (GHolding m1 (Some []))); try done;
    [apply only_open_truncate| |].
  { intros fs Hn _. destruct (fs_op_ok (fun files => (Ok (), <[TMP_PATH := []]> files))
      (fun _ files => files) fs Hn) as (fs' & He & Hf & Hn'). exists fs'.
    split_and!; [done..|]. intros _ _ [= <- <-]. rewrite Hf. apply lookup_insert_eq. }
  apply zoom_ok_bind. destruct (serialize m1) as [b|e] eqn:Hs; cbn [map_err]; [|by split].
  destruct (reads_back_all m1 b Hs) as [Hb Hde]. apply zoom_ok_ret.
  apply zoom_ok_bind, (ok_on_tmp _ _ _ m1 _ (GHolding m1 (Some b))); try done;
    [apply only_write_all| |].
  { intros fs Hn Htmp. specialize (Htmp m1 [] eq_refl).
    destruct (file_write_all_no_faults TMP_PATH b fs Hn) as (fs' & He & Hn'). exists fs'.
    split_and!; [done..|]. intros _ _ [= <- <-].
    apply file_write_all_Ok in He as [_ ->]. by rewrite lookup_alter_eq, Htmp. }
  apply zoom_ok_bind, (ok_nothing _ _ _ m1); try done.
  apply zoom_ok_bind, ok_on_snapshot.
  { intros g clk h m p rs ms l Ht Hg. fold TMP_PATH.
    pose proof (t_tmp Ht i m1 b Hg) as Htmp.
    destruct (fs_op_ok (fun files => match files !! TMP_PATH with
        | Some c => (Ok () : result IoError unit, <[SNAPSHOT_PATH := c]> (delete TMP_PATH files))
        | None => (Err NotFound, files) end) (fun _ files => files) _ (t_faults Ht))
      as (fs' & He & Hf & Hn').
    rewrite Htmp in He, Hf. cbn in He, Hf. exists fs', (GStored m1), m1. split_and!; [done| |].
    - eapply tied_rename; try done.
      + by rewrite Hf, lookup_insert_eq.
      + by rewrite Hf, lookup_insert_ne, lookup_delete_ne by (done || apply TMP_not_AOF).
    - apply zoom_ok_bind, (ok_nothing _ _ _ m1); try done. apply (ok_nothing _ _ _ m1); done. }
Qed.

Lemma ok_clear i m1 :
  ~ is_client roles i ->
  zoom_ok inv waits on_files i (fun r gi => captured gi = Some m1) Aof.clear (GStored m1).
Proof.
  intros Hi. unfold Aof.clear. apply zoom_ok_locked_run.
  intros g s (clk & h & m & p & rs & ms & l & -> & Ht) Hg.
  pose proof (t_log Ht) as (Hh & Hc & _).
  destruct (run_clear p _ Hh Hc) as (r & fs' & Hr & Hcase & Hnf).
  destruct (Hnf (t_faults Ht)) as [-> Hn]. destruct Hcase as [[[e ?] _]|[_ Hf]]; [done|].
  do 2 eexists. exists (GStored m1). split; [exact Hr|]. split; [|done].
  change (put on_files _ _) with (state clk h m (set_fs fs' p) rs).
  eapply inv_state, tied_clear; try done.
  - split_and!; [exact Hh| |done]. cbn. by rewrite Hf, lookup_insert_eq.
  - cbn. by rewrite Hf, lookup_insert_ne.
Qed.

(** [Persister::snapshot], lock to unlock. *)
Lemma tied_ok_snapshot i :
  ~ is_client roles i ->
  zoom_ok inv waits on_parts i (fun _ gi => gi = GReady 0) snapshot (GReady 0).
Proof.
  intros Hi. apply zoom_ok_bind, zoom_ok_lock;
    intros g s (clk & h & m & p & rs & ms & l & -> & Ht) Hg Hh; cbn in Hh; subst h;
    [|by eapply holder_waits; [|rewrite Hg]]. split; [done|].
  exists (GHolding m None). split.
  { eapply (inv_state _ clk true m p rs). by apply tied_lock. }
  clear g clk p rs ms l Ht Hg. apply zoom_ok_then.
  eapply (thread_ok_mono _ _ _ _ (fun _ gi => captured gi = Some m)).
  - intros r gi Hgi. apply zoom_ok_then, zoom_ok_atomic.
    intros g s (clk & h & m' & p & rs & ms & l & -> & Ht) Hg. exists (GReady 0). split; [|done].
    eapply (inv_state _ clk false m' p rs), tied_unlock; [exact Ht|done|by rewrite Hg].
  - apply zoom_ok_bind, zoom_ok_atomic.
    intros g s (clk & h & m' & p & rs & ms & l & -> & Ht) Hg. exists (GHolding m None).
    split; [by eapply inv_state, tied_same|]. cbn [fst snd view on_parts].
    assert (m = m') as <- by (apply (t_captured Ht i); by rewrite Hg).
    change (guarded _) with m.
    apply zoom_ok_bind, zoom_ok_map_err, zoom_ok_zoom.
    eapply thread_ok_mono; [|by apply ok_store]. intros r gi [Hcap Hst].
    destruct r as [[]|e]; cbn [map_err]; [|done]. rewrite (Hst eq_refl).
    apply zoom_ok_bind, zoom_ok_map_err, zoom_ok_zoom.
    eapply thread_ok_mono; [|by apply ok_clear]. intros r' gi' Hcap'.
    destruct r' as [[]|e]; cbn [map_err]; [by apply zoom_ok_ret|done].
Qed.

Lemma ok_persist i n :
  ~ is_client roles i -> thread_ok inv waits i (answers (GReady 0)) (persist_loop n) (GReady 0).
Proof.
  intros Hi. induction n as [|n IH]; cbn [persist_loop]; [done|]. apply thread_ok_then.
  eapply thread_ok_mono; [|by apply tied_ok_snapshot]. by intros r ? ->.
Qed.

(** ** The pool *)

Lemma ok_roles i r :
  good_roles T roles owner -> roles !! i = Some r ->
  thread_ok inv waits i (answers (GReady match r with Client cmds => length cmds | _ => 0 end))
    (thread_of i r) (GReady 0).
Proof.
  intros Hgood Hi. destruct r as [cmds|n|n]; cbn [thread_of].
  - apply (ok_client i cmds 0 Hi). by apply Hgood.
  - apply ok_persist. intros [cmds Hc]. congruence.
  - by apply ok_sweep.
Qed.

Lemma tied_start clk p :
  durable T m0 p -> no_faults (ps_fs p) -> bounded T clk ->
  exists ms l, tied (fun _ => GReady 0) clk false m0 p [] ms l.
Proof.
  intros Hd Hf Hb. pose proof (durable_quiet _ _ _ Hd) as Hq.
  destruct Hd as (ms & l & Hs & Hl & Hm & Hqs & Hql). exists ms, l.
  split; try done.
  - intros k. unfold expected. by destruct (roles !! owner k) as [[]|].
  - intros k. cbn. by rewrite <- Hm.
  - by intros i [].
  - by intros i j [].
Qed.

(** Wherever a schedule leads, the invariant holds, and every thread that has ended
    did so well. *)
Lemma pool_tied clk p order ps s :
  durable T m0 p -> no_faults (ps_fs p) -> bounded T clk -> good_roles T roles owner ->
  sched order (pool roles, shared clk m0 p) = Some (ps, s) ->
  exists g, inv g s /\ length ps = length roles /\
    (forall i, length ps <= i -> g i = GReady 0) /\
    forall i r, roles !! i = Some r -> exists q, ps !! i = Some q /\
    thread_ok inv waits i (answers (GReady match r with Client cmds => length cmds | _ => 0 end)) q (g i).
Proof.
  intros Hd Hf Hb Hgood Hs. destruct (tied_start clk p Hd Hf Hb) as (ms & l & Ht).
  assert (Hpool : forall i, pool roles !! i = thread_of i <$> roles !! i)
    by (intros i; apply list_lookup_imap).
  eapply (sched_ok inv waits (fun i => answers (GReady
    match roles !! i with Some (Client cmds) => length cmds | _ => 0 end)) _ _ _ _ _ (fun _ => GReady 0)) in Hs
    as (g & Hi & Hlen & Hout & Hok).
  - assert (Hlr : length (pool roles) = length roles) by apply length_imap.
    exists g. split; [exact Hi|]. split; [congruence|].
    split; [intros i Hle; apply Hout; lia|]. intros i r Hr.
    assert (is_Some (ps !! i)) as [q Hq].
    { apply lookup_lt_is_Some. rewrite Hlen. apply lookup_lt_is_Some. rewrite Hpool, Hr. by eexists. }
    exists q. split; [done|]. specialize (Hok i q Hq). rewrite Hr in Hok. by destruct r.
  - eapply inv_state, Ht.
  - intros i q. rewrite Hpool. destruct (roles !! i) as [r|] eqn:Hr; [|done].
    intros [= <-]. pose proof (ok_roles i r Hgood Hr) as Hok. by destruct r.
Qed.

(** What startup finds at a state of the invariant, or when an append was cut short
    there. *)
Lemma tied_startup g clk h m p rs ms l c fs :
  tied g clk h m p rs ms l -> bounded T c -> no_faults fs ->
  left_behind (state clk h m p rs) (fs_files fs) ->
  exists c' p', startup c fs = Some (Ok (cache_new c' (replayed l ms), p')).
Proof.
  intros Ht Hb Hn Hl.
  assert (Hd : durable_at T (replayed l ms) ms l p).
  { split_and!; [apply Ht|apply Ht|done|apply Ht|apply Ht]. }
  inversion Hl as [Hf|wc faults e p' Hwc Hr Hf].
  - destruct (startup_durable T (replayed l ms) p c fs) as (c' & p' & He & _); [by exists ms, l|done..|].
    eauto.
  - pose proof Hd as (_ & (Hh & Hc & _) & _).
    destruct (append_cut_short (set_fs (mkFs (fs_files (ps_fs p)) faults 0) p) p' (log_bytes l) wc e Hh Hc Hr)
      as (x & y & Hx & Hy & Hf').
    eapply startup_torn; [exact Hd|done|done| |by rewrite <- Hf, Hf'].
    eapply parse_one_encode_prefix; [by apply loggable_Frame_wf|exact Hx|exact Hy].
Qed.
End threads_ok.

(** ** What the invariant says to a client *)

(** The next command of a client, if it is a write, is not to [k]. *)
Definition not_next (cmds : list CacheCommand) (n : nat) (k : bytes) : Prop :=
  forall wc, cmds !! n = Some (CacheWrite wc) -> write_key wc <> k.

Lemma after_not_next m0 cmds n k :
  not_next cmds n k -> after m0 cmds (S n) !! k = after m0 cmds n !! k.
Proof.
  intros Hk. unfold after. destruct (cmds !! n) as [cmd|] eqn:Hn.
  - rewrite (writes_take_S _ _ _ Hn). destruct cmd as [rc|wc]; [by rewrite app_nil_r|].
    rewrite replayed_app. cbn [replayed fold_left]. rewrite lookup_apply.
    by rewrite write_effect_other by eauto.
  - apply lookup_ge_None in Hn. by rewrite !take_ge by lia.
Qed.

(** The value of [k] in [M], for a client that has been answered [n] commands: the
    effect of those, or of one more, or what the write in flight makes that. *)
Definition up_to_one (m0 : CacheMap) (cmds : list CacheCommand) (n : nat) (k : bytes)
    (x : option Entry) : Prop :=
  x = after m0 cmds n !! k \/ x = after m0 cmds (S n) !! k \/
  exists wc, cmds !! n = Some (CacheWrite wc) /\
    run_effect (write_effect k wc) x = after m0 cmds (S n) !! k.

Lemma tied_recovered `{Wincode} T roles owner m0 g clk h m p rs ms l k cmds :
  tied T roles owner m0 g clk h m p rs ms l -> roles !! owner k = Some (Client cmds) ->
  let n := length (answered (owner k) rs) in
  up_to_one m0 cmds n k (replayed l ms !! k) /\
  (not_next cmds n k -> replayed l ms !! k = after m0 cmds n !! k).
Proof.
  intros Ht Hk. cbv zeta. rewrite (t_replies Ht).
  pose proof (t_files Ht k) as Hf. rewrite (t_cache Ht) in Hf. unfold expected in Hf.
  rewrite Hk in Hf. destruct (g (owner k)) as [n|n wc|n|m' tmp|m'] eqn:Hg;
    cbn [in_flight applied replied] in Hf |- *; try rewrite <- Hf; unfold up_to_one; auto.
  - destruct (t_applied Ht _ _ _ Hg) as (cmds' & Hk' & Hn). simplify_eq. split; [eauto|].
    intros Hnn. rewrite write_effect_other in Hf by eauto. cbn [run_effect] in Hf.
    by rewrite <- Hf, after_not_next.
  - split; [auto|]. apply after_not_next.
Qed.

Lemma unfinished_or_all {S E A} (ps : list (prog S E A)) :
  Forall (fun q => exists res, q = Done res) ps \/ exists i f, ps !! i = Some (Step f).
Proof.
  induction ps as [|[res|f] ps IH]; [by left| |by right; exists 0, f].
  destruct IH as [IH|(i & f & Hi)]; [left|right; by exists (Datatypes.S i), f].
  constructor; [by exists res|done].
Qed.

(** ** Theorems *)

(** C1: a crash of the running server, at any moment.  Clients writing to keys of
    their own, the persistence thread taking snapshots and the sweeper run on one
    cache and one persister, their steps interleaved in any way.  Stop at any step, or
    inside an append with any part of its frame on the file; drop the memory, start
    again on the files: startup succeeds, and of each client's keys it finds exactly
    what the answered commands made of them, unless the next command, the one still
    unanswered, is a write to that key; then it finds the key without that write, with
    it, or in a state that write would have completed.  Keys of no client are as they
    were.  The conditions: until the crash, and at the restart, every operation on the
    files succeeds, and so does every clock reading, none of them past [T]; no deadline
    in the files or in a command comes before [T] is past; the writes can be logged;
    and [wincode] reads back what it wrote.  (Without them: Hazards.v.) *)
Theorem crash_of_a_running_server `{Wincode} (T : N) (roles : list Role) (owner : bytes -> nat)
    (m0 : CacheMap) (clk c : Clock) (p : Persister) (order : list nat) ps (s : Shared) (fs : Fs) :
  (forall m, reads_back m) -> durable T m0 p -> no_faults (ps_fs p) -> bounded T clk ->
  good_roles T roles owner ->
  sched order (pool roles, shared clk m0 p) = Some (ps, s) ->
  left_behind s (fs_files fs) -> no_faults fs -> bounded T c ->
  exists c' M p', startup c fs = Some (Ok (cache_new c' M, p')) /\
    forall k, match roles !! owner k with
              | Some (Client cmds) =>
                  let n := length (answered (owner k) (sh_replies s)) in
                  up_to_one m0 cmds n k (M !! k) /\
                  (not_next cmds n k -> M !! k = after m0 cmds n !! k)
              | _ => M !! k = m0 !! k
              end.
Proof.
  intros Hrb Hd Hnf Hb Hgood Hs Hf Hn Hbc.
  destruct (pool_tied T roles owner m0 Hrb clk p order ps s Hd Hnf Hb Hgood Hs)
    as (g & (clk' & h & m & p' & rs & ms & l & -> & Ht) & _).
  destruct (tied_startup T roles owner m0 _ _ _ _ _ _ _ _ c fs Ht Hbc Hn Hf) as (c' & p'' & He).
  exists c', (replayed l ms), p''. split; [exact He|]. intros k.
  destruct (roles !! owner k) as [[cmds|?|?]|] eqn:Hk; [by eapply tied_recovered|..];
    pose proof (t_files Ht k) as Hfk; rewrite (t_cache Ht) in Hfk; unfold expected in Hfk;
    rewrite Hk in Hfk; rewrite Hfk;
    (destruct (g (owner k)) eqn:Hg; try done;
     destruct (t_applied Ht _ _ _ Hg) as (? & ? & _); congruence).
Qed.

(** C11: the running server answers, and never deadlocks.  Wherever the interleaving
    of clients, snapshots and sweeps has got to: a thread that has ended has ended
    well, and a client that has ended has had every command answered; of its keys
    the cache has the effect of the answered commands, or of one more; and as long
    as one thread has not ended, one can make a step.  The conditions are those of C1
    while the server runs: every operation on the files and every clock reading
    succeeds, none of the readings is past [T], no deadline comes before [T] is past,
    the writes can be logged and each client writes to keys of its own. *)
Theorem running_server_progress `{Wincode} (T : N) (roles : list Role) (owner : bytes -> nat)
    (m0 : CacheMap) (clk : Clock) (p : Persister) (order : list nat) ps (s : Shared) :
  (forall m, reads_back m) -> durable T m0 p -> no_faults (ps_fs p) -> bounded T clk ->
  good_roles T roles owner ->
  sched order (pool roles, shared clk m0 p) = Some (ps, s) ->
  (forall i r res, roles !! i = Some r -> ps !! i = Some (Done res) ->
     res = Ok () /\
     forall cmds, r = Client cmds -> length (answered i (sh_replies s)) = length cmds) /\
  (forall k cmds, roles !! owner k = Some (Client cmds) ->
     let n := length (answered (owner k) (sh_replies s)) in
     exists n', (n' = n \/ n' = S n) /\
       guarded (cs_inner (ex_cache (sh_exec s))) !! k = after m0 cmds n' !! k) /\
  (Forall (fun q => exists res, q = Done res) ps \/
   exists i cfg', step_thread i (ps, s) = Some cfg').
Proof.
  intros Hrb Hd Hnf Hb Hgood Hs.
  destruct (pool_tied T roles owner m0 Hrb clk p order ps s Hd Hnf Hb Hgood Hs)
    as (g & (clk' & h & m & p' & rs & ms & l & -> & Ht) & Hlen & Hout & Hok).
  change (sh_replies (state clk' h m p' rs)) with rs. split_and!.
  - intros i r res Hr Hi. destruct (Hok i r Hr) as (q & Hq & Hqok). simplify_eq.
    destruct Hqok as [Hres Hg]. split; [by destruct res as [[]|]|].
    intros cmds ->. by rewrite (t_replies Ht), Hg.
  - intros k cmds Hk. change (guarded _) with m. rewrite (t_cache Ht), (t_replies Ht). unfold expected. rewrite Hk.
    eexists. split; [|reflexivity]. destruct (g (owner k)); auto.
  - destruct (unfinished_or_all ps) as [Hall|(i & f & Hi)]; [by left|right].
    assert (Hstep : forall j f, ps !! j = Some (Step f) ->
      (exists cfg', step_thread j (ps, state clk' h m p' rs) = Some cfg') \/ waits j g).
    { intros j fj Hj. rewrite (step_thread_lookup _ _ _ _ Hj). cbn [step_of].
      assert (is_Some (roles !! j)) as [r Hr].
      { apply lookup_lt_is_Some. rewrite <- Hlen. by eapply lookup_lt_Some. }
      destruct (Hok j r Hr) as (q & Hq & Hqok). simplify_eq.
      specialize (Hqok g _ (inv_state _ _ _ _ _ _ _ _ _ _ _ _ Ht) eq_refl).
      destruct (fj _) as [[q' s']|]; eauto. }
    destruct (Hstep i f Hi) as [?|(j & Hji & Hcap)]; [by exists i|].
    destruct (ps !! j) as [[res|fj]|] eqn:Hj.
    + assert (is_Some (roles !! j)) as [r Hr].
      { apply lookup_lt_is_Some. rewrite <- Hlen. by eapply lookup_lt_Some. }
      destruct (Hok j r Hr) as (q & Hq & Hqok). simplify_eq. destruct Hqok as [_ Hg].
      rewrite Hg in Hcap. by destruct Hcap.
    + destruct (Hstep j fj Hj) as [?|(j' & Hne & Hcap')]; [by exists j|].
      by destruct Hne; apply (t_one Ht).
    + rewrite Hout in Hcap by by apply lookup_ge_None. by destruct Hcap.
Qed.

(** ** A package that gives back every map *)

Fixpoint pos_bytes (p : positive) : bytes :=
  match p with xH => [x02] | xO p => x00 :: pos_bytes p | xI p => x01 :: pos_bytes p end.
Fixpoint bytes_pos (b : bytes) : option positive :=
  match b with
  | x00 :: b => xO <$> bytes_pos b
  | x01 :: b => xI <$> bytes_pos b
  | [x02] => Some xH
  | _ => None
  end.

Lemma bytes_pos_bytes p : bytes_pos (pos_bytes p) = Some p.
Proof. by induction p as [p IH|p IH|]; cbn; rewrite ?IH. Qed.

#[local] Instance Entry_countable : Countable Entry.
Proof.
  refine (inj_countable' (fun e => (entry_value e, millis <$> entry_expires_at e))
            (fun x => mkEntry x.1 (mkMilliseconds <$> x.2)) _).
  by intros [v [[d]|]].
Defined.

Definition countable_wincode : Wincode :=
  {| WriteError := unit; ReadError := unit;
     serialize := fun m => Ok (pos_bytes (stdpp.countable.encode m));
     deserialize := fun b => match bytes_pos b ≫= stdpp.countable.decode with
                             | Some m => Ok m
                             | None => Err ()
                             end |}.

Lemma countable_reads_back : forall m, @reads_back countable_wincode m.
Proof.
  intros m b [= <-]. split.
  - by destruct (stdpp.countable.encode m).
  - cbn. rewrite bytes_pos_bytes. cbn. by rewrite stdpp.countable.decode_encode.
Qed.

(** ** A run: two clients and a snapshot *)

#[local] Existing Instance countable_wincode.

Definition key_a : bytes := bstr "a".
Definition key_b : bytes := bstr "b".
Definition sample_roles : list Role :=
  [Client [CacheWrite (WSet key_a (bstr "1") None); CacheRead (RGet key_a);
           CacheWrite (WSet key_a (bstr "2") None)];
   Client [CacheWrite (WSet key_b (bstr "3") None)]; Persistence 1; Sweeper 1].
Definition sample_owner (k : bytes) : nat := if decide (k = key_b) then 1 else 0.

(** The first client sets and is answered, the second sets in the cache only, a
    snapshot gets as far as its rename, the sweeper has read the clock. *)
Definition sample_order : list nat := [0; 0; 0; 1; 2; 2; 2; 2; 2; 2; 3].
Definition sample_cfg : option (list (prog Shared ExecuteError unit) * Shared) :=
  sched sample_order (pool sample_roles, shared (clock_at 5) ∅ empty_persister).
Definition on_cfg {A} (f : Shared -> A) (cfg : option (list (prog Shared ExecuteError unit) * Shared))
  : option A := match cfg with Some (_, s) => Some (f s) | None => None end.

Lemma sample_answered : on_cfg (fun s => length (answered 0 (sh_replies s))) sample_cfg = Some 1.
Proof. vm_compute. reflexivity. Qed.

Lemma sample_good : good_roles 5 sample_roles sample_owner.
Proof.
  intros i cmds Hi. destruct i as [|[|[|[|i]]]]; simplify_eq/=;
    repeat (apply Forall_cons; split); try apply Forall_nil_2;
    (split_and!; [done| |intros wc [= <-] || intros wc [=]]);
    try done; (split; [done|split; vm_compute; congruence]).
Qed.

(** The second client's append, cut short after five bytes of its frame. *)
Definition torn_files (s : Shared) : option (gmap bytes bytes) :=
  match Effects.run (Aof.append (WSet key_b (bstr "3") None))
          (set_fs (mkFs (files_of s) (fun _ => Some (mkFault (mkIoError OtherIo) 5)) 0) (ex_repo (sh_exec s))) with
  | Some (Err _, p') => Some (fs_files (ps_fs p'))
  | _ => None
  end.

Lemma sample_torn :
  on_cfg (fun s => (fun files => files !! AOF_PATH) <$> torn_files s) sample_cfg =
  Some (Some (Some (log_bytes [WSet key_a (bstr "1") None] ++
    take 5 (encode (Frame_from_WriteCommand (WSet key_b (bstr "3") None)))))).
Proof. vm_compute. reflexivity. Qed.

Lemma torn_left_behind s files : torn_files s = Some files -> left_behind s files.
Proof.
  unfold torn_files. destruct (Effects.run _ _) as [[[[]|e] p']|] eqn:Hr; try discriminate.
  intros [= <-]. eapply left_inside; [|exact Hr]. split; [done|split; vm_compute; congruence].
Qed.

Lemma crash_of_a_running_server_witness :
  exists s files c' M p', on_cfg id sample_cfg = Some s /\ torn_files s = Some files /\
    startup (clock_at 5) (mkFs files (fun _ => None) 0) = Some (Ok (cache_new c' M, p')) /\
    M !! key_a = after ∅ [CacheWrite (WSet key_a (bstr "1") None); CacheRead (RGet key_a);
                          CacheWrite (WSet key_a (bstr "2") None)] 1 !! key_a.
Proof.
  pose proof sample_answered as Hans. pose proof sample_torn as Htorn.
  destruct sample_cfg as [[ps s]|] eqn:Hs; [|discriminate Hans].
  cbn [on_cfg] in Htorn. injection Htorn as Htorn.
  destruct (torn_files s) as [files|] eqn:Hfiles; [|discriminate Htorn].
  destruct (crash_of_a_running_server 5 sample_roles sample_owner ∅ (clock_at 5) (clock_at 5)
    empty_persister sample_order ps s (mkFs files (fun _ => None) 0))
    as (c' & M & p' & He & HM).
  - exact countable_reads_back.
  - apply empty_durable.
  - intros n _. reflexivity.
  - apply bounded_clock_at. vm_compute. congruence.
  - exact sample_good.
  - exact Hs.
  - exact (torn_left_behind s files Hfiles).
  - intros n _. reflexivity.
  - apply bounded_clock_at. vm_compute. congruence.
  - exists s, files, c', M, p'. split; [reflexivity|]. split; [exact Hfiles|]. split; [exact He|].
    destruct (HM key_a) as [_ Hn]. injection Hans as Hans.
    change (sample_owner key_a) with 0 in Hn. rewrite Hans in Hn. apply Hn.
    intros wc Hwc. discriminate Hwc.
Defined.

Lemma running_server_progress_witness :
  exists ps s i cfg', sample_cfg = Some (ps, s) /\ step_thread i (ps, s) = Some cfg'.
Proof.
  pose proof sample_answered as Hans. destruct sample_cfg as [[ps s]|] eqn:Hs; [|discriminate Hans].
  exists ps, s.
  destruct (running_server_progress 5 sample_roles sample_owner ∅ (clock_at 5)
    empty_persister sample_order ps s) as (Hdone & _ & Hprog).
  - exact countable_reads_back.
  - apply empty_durable.
  - intros n _. reflexivity.
  - apply bounded_clock_at. vm_compute. congruence.
  - exact sample_good.
  - exact Hs.
  - destruct Hprog as [Hall|(i & cfg' & Hi)]; [exfalso|exists i, cfg'; split; [reflexivity|exact Hi]].
    assert (Hlen : length ps = 4).
    { assert (Hl := f_equal (fun x => match x with Some (q, _) => length q | None => 0 end) Hs).
      vm_compute in Hl. by symmetry. }
    destruct ps as [|q ps]; [discriminate Hlen|].
    apply Forall_cons_1 in Hall as [[res ->] _].
    destruct (Hdone 0 _ res eq_refl eq_refl) as [_ Hd]. specialize (Hd _ eq_refl).
    injection Hans as Hans. rewrite Hans in Hd. discriminate Hd.
Defined.

(** C32: a state that never was.  The snapshot captures the cache, with a write that
    is in the cache and not yet in the log; a crash after the rename and before the
    log is cleared replays the old log over it.  Here the key has value [1] and a
    deadline, its [PEXPIREAT] still in the log; a [SET] to [2] without deadline is
    in the cache, unanswered; after the crash the key has value [2] and the deadline
    of the old value. *)
Theorem mixed_state_recovered :
  let d := mkMilliseconds 9000 in
  let m0 : CacheMap := {[ key_a := mkEntry (bstr "1") (Some d) ]} in
  let ms : CacheMap := {[ key_a := mkEntry (bstr "1") None ]} in
  let p := set_fs (mkFs {[ AOF_PATH := log_bytes [WExpireAt key_a d];
                           SNAPSHOT_PATH := pos_bytes (stdpp.countable.encode ms) ]}
                        (fun _ => None) 0) empty_persister in
  let set := CacheWrite (WSet key_a (bstr "2") None) in
  exists s c' M p', durable 5000 m0 p /\
    on_cfg id (sched [0; 1; 1; 1; 1; 1; 1]
      (pool [Client [set]; Persistence 1], shared (clock_at 1000) m0 p)) = Some s /\
    sh_replies s = [] /\
    guarded (cs_inner (ex_cache (sh_exec s))) !! key_a = Some (mkEntry (bstr "2") None) /\
    startup (clock_at 2000) (mkFs (files_of s) (fun _ => None) 0) = Some (Ok (cache_new c' M, p')) /\
    M !! key_a = Some (mkEntry (bstr "2") (Some d)).
Proof.
  cbv zeta. set (d := mkMilliseconds 9000). set (m0 := {[ key_a := mkEntry (bstr "1") (Some d) ]} : CacheMap).
  set (ms := {[ key_a := mkEntry (bstr "1") None ]} : CacheMap).
  match goal with |- exists s c' M p', durable _ _ ?q /\ _ => set (p := q) end.
  set (cfg := sched _ _).
  assert (Hd : durable 5000 m0 p).
  { exists ms, [WExpireAt key_a d]. split_and!; [|split_and!|..].
    - exists (pos_bytes (stdpp.countable.encode ms)). split; [vm_compute; reflexivity|].
      destruct (countable_reads_back ms _ eq_refl) as [Hne Hde]. by rewrite decide_False.
    - split; reflexivity.
    - vm_compute. reflexivity.
    - repeat constructor; vm_compute; congruence.
    - vm_compute. reflexivity.
    - intros k e He. apply lookup_singleton_Some in He as [_ <-]. exact I.
    - repeat constructor. }
  assert (Hcfg : on_cfg (fun s => (sh_replies s, guarded (cs_inner (ex_cache (sh_exec s))) !! key_a,
      match startup (clock_at 2000) (mkFs (files_of s) (fun _ => None) 0) with
      | Some (Ok (c, _)) => Some (held (cs_inner c), poisoned (cs_inner c), guarded (cs_inner c) !! key_a)
      | _ => None
      end)) cfg = Some ([], Some (mkEntry (bstr "2") None),
                        Some (false, false, Some (mkEntry (bstr "2") (Some d))))).
  { vm_compute. reflexivity. }
  destruct cfg as [[ps s]|]; [|discriminate Hcfg]. cbn [on_cfg] in Hcfg.
  destruct (startup (clock_at 2000) (mkFs (files_of s) (fun _ => None) 0)) as [[[[c1 [h pz M]] p1]|e]|] eqn:He;
    try discriminate Hcfg.
  injection Hcfg as Hr Hc -> -> HM. exists s, c1, M, p1. split_and!; try done. 
Qed.
