(* ===== verification/Points.v ===== *)
(** * Points: what a command does to the cache, step by step

    A command runs as several critical sections, with other threads in between.  Here
    are the effects those sections have on the map ([Effect]), which of them a command
    makes before it answers ([says]), and that the code makes no others: a thread
    under an invariant that can record effects ([chronicles]) may run any command, a
    snapshot or a sweep, and the invariant goes on.  Linear.v and CrowdSpec.v have
    such invariants. *)

From S2P Require Import Prelude Effects Threads RustStd Time Command.
From S2P Require Import Cache CacheSpec Ports Executor Files Persister Recovery Concurrent.

(** ** Effects *)

(** What happens to the map: a command takes effect, with its outcome; a [TTL] looks
    up a key's deadline; a [TTL] removes the key it found expired; the sweeper drops
    what has expired. *)
Inductive Effect : Type :=
| Took (cmd : CacheCommand) (out : CommandOutcome)
| Looked (key : bytes) (found : option (option Milliseconds))
| Dropped (key : bytes)
| Swept.

Section effects.
(** What the clock reads, reading by reading. *)
Context (rd : nat -> Z).

Definition reading (t : Milliseconds) : Prop := exists n, millis_of_reading (rd n) = Ok t.

(** The map before and after an effect. *)
Inductive store_step (m : CacheMap) : Effect -> CacheMap -> Prop :=
| step_took n n' cmd out m' :
    run (KvStore.execute cmd) (cache_new (mkClock rd n) m) =
      Some (Ok out, cache_new (mkClock rd n') m') ->
    store_step m (Took cmd out) m'
| step_looked key : store_step m (Looked key (entry_expires_at <$> m !! key)) m
| step_dropped key : store_step m (Dropped key) (delete key m)
| step_swept t : reading t -> store_step m Swept (live t m).

Inductive store_run (m0 : CacheMap) : list Effect -> CacheMap -> Prop :=
| run_none : store_run m0 [] m0
| run_snoc evs m ev m' :
    store_run m0 evs m -> store_step m ev m' -> store_run m0 (evs ++ [ev]) m'.

Definition is_ttl (cmd : CacheCommand) : bool :=
  match cmd with CacheRead (RTtl _) => true | _ => false end.

(** The points of one command, and its outcome. *)
Inductive says : CacheCommand -> list Effect -> CommandOutcome -> Prop :=
| says_took cmd out : is_ttl cmd = false -> says cmd [Took cmd out] out
| says_missing key : says (CacheRead (RTtl key)) [Looked key None] (CoTtl KeyNotFound)
| says_forever key : says (CacheRead (RTtl key)) [Looked key (Some None)] (CoTtl TtlNotFound)
| says_left key d t t' :
    reading t -> ms_ge t d = false -> reading t' ->
    says (CacheRead (RTtl key)) [Looked key (Some (Some d))]
      (CoTtl (TtlSome (to_seconds_rounded_up (saturating_sub d t'))))
| says_passed key d t :
    reading t -> ms_ge t d = true ->
    says (CacheRead (RTtl key)) [Looked key (Some (Some d)); Dropped key] (CoTtl KeyNotFound).

(** The points a command has made so far that may have more to do, or may have
    failed since. *)
Inductive underway (cmd : CacheCommand) : list Effect -> Prop :=
| way_none : underway cmd []
| way_said evs out : says cmd evs out -> underway cmd evs
| way_looked key found : cmd = CacheRead (RTtl key) -> underway cmd [Looked key found].
End effects.

(** ** Invariants that record effects *)

(** The executor, its cache's lock not poisoned. *)
Definition exec_at {R : Type} (clk : Clock) (h : bool) (m : CacheMap) (r : R) : Executor R :=
  mkExecutor (mkCacheState clk (mkMutex h false m)) r.

Section chronicles.
Context {T G R : Type} (inv : (nat -> G) -> T -> Prop) (waits : nat -> (nat -> G) -> Prop).
Context (rd : nat -> Z) (L : Lens T (Executor R)).

(** Thread [i] keeps a list of effects in its ghost, those of what it is at: [at_ part]
    is the ghost when they are [part].  Clock and files may change under it; the map
    may with an effect, when [W] has it that the thread can make one more. *)
Record chronicles (i : nat) (at_ : list Effect -> G) (W : list Effect -> Prop) : Prop := mkChronicles {
  ch_view g s part : inv g s -> g i = at_ part ->
    exists clk h m r, view L s = exec_at clk h m r /\ readings clk = rd;
  ch_stay g s part clk h m r clk' h' r' : inv g s -> g i = at_ part ->
    view L s = exec_at clk h m r -> readings clk' = rd ->
    inv (upd i (at_ part) g) (put L (exec_at clk' h' m r') s);
  ch_point g s part clk h m r clk' ev m' : inv g s -> g i = at_ part ->
    view L s = exec_at clk h m r -> readings clk' = rd ->
    store_step rd m ev m' -> W (part ++ [ev]) ->
    inv (upd i (at_ (part ++ [ev])) g) (put L (exec_at clk' h m' r) s)
}.

Section thread.
Context (waits_free : forall i g, waits i g).
Context (i : nat) (at_ : list Effect -> G) (W : list Effect -> Prop).
Context (Hch : chronicles i at_ W).

Abbreviation ok l := (zoom_ok inv waits (lens_comp L l) i).

(** A program that is not on the cache. *)
Lemma ok_off_cache {E A} (p : prog R E A) part :
  ok repoL (fun _ gi => gi = at_ part) p (at_ part).
Proof.
  unfold zoom_ok. induction p as [r|f IH] using prog_elim; cbn; [done|].
  intros g s Hi Hg. destruct (ch_view _ _ _ Hch g s part Hi Hg) as (clk & h & m & r & Hv & Hr).
  rewrite Hv. cbn. destruct (f r) as [[p' r']|] eqn:Hf; [|done].
  exists (at_ part). split; [|by eapply IH]. by eapply (ch_stay _ _ _ Hch).
Qed.

(** A reading of the clock. *)
Lemma ok_read_clock Q part :
  (forall t, reading rd t -> Q (Ok t) (at_ part)) -> (forall e, Q (Err e) (at_ part)) ->
  ok cacheL Q KvStore.now_p (at_ part).
Proof.
  intros HQ HE. apply zoom_ok_atomic. intros g s Hi Hg. exists (at_ part).
  destruct (ch_view _ _ _ Hch g s part Hi Hg) as (clk & h & m & r & Hv & Hr).
  cbn [lens_comp view put]. rewrite Hv. split.
  - by eapply (ch_stay _ _ _ Hch _ _ _ _ _ _ _ (mkClock (readings clk) (S (tick clk))) h).
  - cbn. destruct (millis_of_reading (readings clk (tick clk))) as [t|e] eqn:Ht; cbn; [|apply HE].
    apply HQ. exists (tick clk). by rewrite <- Hr.
Qed.

(** A critical section: it changes the map as one effect says, or not at all. *)
Lemma ok_section {A} part (Q : result CacheError A -> G -> Prop) (body : M CacheState CacheError A) :
  (forall clk m, readings clk = rd ->
     exists r clk' m', body (cache_new clk m) = (r, cache_new clk' m') /\ readings clk' = rd /\
       (m' = m /\ Q r (at_ part) \/
        exists ev, store_step rd m ev m' /\ Q r (at_ (part ++ [ev])) /\ W (part ++ [ev]))) ->
  ok cacheL Q (KvStore.with_lock body) (at_ part).
Proof.
  intros Hb. apply zoom_ok_locked; [|intros; apply waits_free].
  intros g s Hi Hg. destruct (ch_view _ _ _ Hch g s part Hi Hg) as (clk & h & m & p & Hv & Hr).
  cbn [lens_comp view put innerL cacheL]. rewrite Hv. cbn. intros ->. split; [done|].
  destruct (Hb clk m Hr) as (r & clk' & m' & He & Hrd & Hev).
  change (mkCacheState clk _) with (cache_new clk m). rewrite He.
  destruct Hev as [[-> HQ]|(ev & Hst & HQ & Hway)]; eexists; (split; [|exact HQ]).
  - by eapply (ch_stay _ _ _ Hch _ _ _ _ _ _ _ clk' false).
  - by eapply (ch_point _ _ _ Hch _ _ _ _ false _ _ clk').
Qed.

(** *** A command on the cache *)

(** The command has made its points, if it succeeded; [f]: its outcome. *)
Definition spoke {E A} (cmd : CacheCommand) (f : A -> CommandOutcome)
    (r : result E A) (gi : G) : Prop :=
  exists part, gi = at_ part /\ forall a, r = Ok a -> says rd cmd part (f a).

Lemma spoke_err {E A} cmd (f : A -> CommandOutcome) (e : E) part :
  spoke cmd f (Err e) (at_ part).
Proof. by exists part. Qed.

Lemma spoke_ok {E A} cmd (f : A -> CommandOutcome) a part :
  says rd cmd part (f a) -> spoke (E := E) cmd f (Ok a) (at_ part).
Proof. intros Hs. exists part. split; [done|]. by intros _ [= <-]. Qed.

Lemma spoke_return {U E A B} (l : Lens T U) cmd (f : A -> CommandOutcome) (f' : B -> CommandOutcome)
    (p : prog U E A) (k : A -> B) gi :
  (forall a, f' (k a) = f a) ->
  zoom_ok inv waits l i (spoke cmd f) p gi ->
  zoom_ok inv waits l i (spoke cmd f') (a ← p; mret (k a)) gi.
Proof.
  intros Hf Hp. apply zoom_ok_bind. eapply thread_ok_mono; [|exact Hp].
  intros [a|e] gi' (part & -> & Hs); [|apply spoke_err].
  apply spoke_ok. rewrite Hf. by apply Hs.
Qed.

Section command.
Context (cmd : CacheCommand).
Hypothesis Hway : forall part, underway rd cmd part -> W part.

(** A critical section in which the command takes effect. *)
Lemma ok_took {A} (f : A -> CommandOutcome) (body : M CacheState CacheError A) :
  is_ttl cmd = false ->
  (forall clk m, readings clk = rd ->
     exists r clk' m', body (cache_new clk m) = (r, cache_new clk' m') /\ readings clk' = rd /\
       match r with
       | Err _ => m' = m
       | Ok a => exists k k', run (KvStore.execute cmd) (cache_new (mkClock rd k) m) =
                   Some (Ok (f a), cache_new (mkClock rd k') m')
       end) ->
  ok cacheL (spoke cmd f) (KvStore.with_lock body) (at_ []).
Proof.
  intros Httl Hb. apply ok_section. intros clk m Hrd.
  destruct (Hb clk m Hrd) as ([a|e] & clk' & m' & He & Hrd' & Hr).
  - destruct Hr as (k & k' & Hr). eexists _, _, _. split; [exact He|]. split; [done|]. right.
    exists (Took cmd (f a)). split_and!; [by eapply step_took| |].
    + by apply spoke_ok, says_took.
    + by eapply Hway, way_said, says_took.
  - subst m'. eexists _, _, _. split; [exact He|]. split; [done|]. left. split; [done|].
    apply spoke_err.
Qed.

(** The command is a critical section, and its outcome. *)
Lemma ok_took_alone {A} (f : A -> CommandOutcome) (body : M CacheState CacheError A) :
  is_ttl cmd = false -> KvStore.execute cmd = (a ← KvStore.with_lock body; mret (f a)) ->
  (forall clk m, exists r clk' m', body (cache_new clk m) = (r, cache_new clk' m') /\
     readings clk' = readings clk /\ (is_ok r = false -> m' = m)) ->
  ok cacheL (spoke cmd f) (KvStore.with_lock body) (at_ []).
Proof.
  intros Httl Hex Hb. apply ok_took; [done|]. intros clk m Hrd.
  destruct (Hb clk m) as (r & clk' & m' & He & Hrd' & Herr). exists r, clk', m'.
  split; [done|]. rewrite <- Hrd. split; [done|]. destruct r as [a|e]; [|by apply Herr].
  exists (tick clk), (tick clk'). rewrite Hex, run_bind, run_with_lock.
  replace (mkClock (readings clk) (tick clk)) with clk by (by destruct clk).
  rewrite He. rewrite <- Hrd'. by destruct clk'.
Qed.

(** The critical section after a reading of the clock. *)
Lemma ok_took_reading {A} (f : A -> CommandOutcome)
    (body : Milliseconds -> M CacheState CacheError A) :
  is_ttl cmd = false ->
  KvStore.execute cmd = (a ← (t ← KvStore.now_p; KvStore.with_lock (body t)); mret (f a)) ->
  (forall t m, exists r m', (is_ok r = false -> m' = m) /\
     forall clk, body t (cache_new clk m) = (r, cache_new clk m')) ->
  ok cacheL (spoke cmd f) (t ← KvStore.now_p; KvStore.with_lock (body t)) (at_ []).
Proof.
  intros Httl Hex Hb. apply zoom_ok_bind, ok_read_clock; [|intros e; apply spoke_err].
  intros t [k Hk]. apply ok_took; [done|]. intros clk m Hrd.
  destruct (Hb t m) as (r & m' & Herr & He). exists r, clk, m'. split_and!; [done..|].
  destruct r as [a|e]; [|by apply Herr]. exists k, (Datatypes.S k).
  rewrite Hex, !run_bind, run_now_p. unfold now. cbn [readings tick]. rewrite Hk. cbn [map_err].
  by rewrite run_with_lock, He.
Qed.

End command.

(** [EXPIREAT] reads the clock and then removes the key or changes its deadline. *)
Lemma ok_set_expires_at key d :
  (forall part, underway rd (CacheWrite (WExpireAt key d)) part -> W part) ->
  ok cacheL (spoke (CacheWrite (WExpireAt key d)) CoBool) (KvStore.set_expires_at key d) (at_ []).
Proof.
  intros Hway. apply zoom_ok_bind, ok_read_clock; [|intros e; apply spoke_err].
  intros t [k Hk].
  assert (Hrun : forall m, run (KvStore.execute (CacheWrite (WExpireAt key d))) (cache_new (mkClock rd k) m) =
    Some (if ms_ge t d
          then (Ok (CoBool (bool_decide (is_Some (m !! key)))), cache_new (mkClock rd (Datatypes.S k)) (delete key m))
          else match m !! key with
               | None => (Ok (CoBool false), cache_new (mkClock rd (Datatypes.S k)) m)
               | Some e => (Ok (CoBool true), cache_new (mkClock rd (Datatypes.S k))
                              (<[key := mkEntry (entry_value e) (Some d)]> m))
               end)).
  { intros m. unfold KvStore.execute. rewrite run_bind, run_set_expires_at. unfold now.
    cbn [readings tick]. rewrite Hk. destruct (ms_ge t d); [done|]. by destruct (m !! key). }
  destruct (ms_ge t d).
  - eapply (spoke_return _ _ (fun removed => CoBool (bool_decide (is_Some removed)))); [done|].
    eapply ok_took; [done..|]. intros clk m Hrd. m_cbn. do 3 eexists. split; [done|].
    split; [done|]. exists k, (Datatypes.S k). apply Hrun.
  - eapply ok_took; [done..|]. intros clk m Hrd. specialize (Hrun m). m_cbn.
    destruct (m !! key) as [e|]; (do 3 eexists; split; [done|]; split; [done|]; exists k, (Datatypes.S k); exact Hrun).
Qed.

(** [TTL] looks, reads the clock, and removes or reads the clock once more. *)
Lemma ok_ttl key :
  (forall part, underway rd (CacheRead (RTtl key)) part -> W part) ->
  ok cacheL (spoke (CacheRead (RTtl key)) (fun out => out))
    (KvStore.execute (CacheRead (RTtl key))) (at_ []).
Proof.
  intros Hway. unfold KvStore.execute, KvStore.time_to_live, KvStore.expires_at.
  do 3 apply zoom_ok_bind. apply ok_section. intros clk m Hrd.
  exists (Ok (entry_expires_at <$> m !! key)), clk, m. split; [done|]. split; [done|]. right.
  exists (Looked key (entry_expires_at <$> m !! key)). split; [by apply step_looked|].
  cbn [app]. split; [|by apply Hway, way_looked].
  destruct (m !! key) as [[v d]|]; cbn [fmap option_fmap option_map entry_expires_at];
    [|by do 2 apply zoom_ok_ret; apply spoke_ok, says_missing].
  apply zoom_ok_bind, ok_read_clock; [|intros e; apply spoke_err]. intros t Ht.
  destruct d as [d|]; cbn [deadline_passed];
    [|by do 2 apply zoom_ok_ret; apply spoke_ok, says_forever].
  destruct (ms_ge t d) eqn:Hge.
  - apply zoom_ok_bind, ok_section. intros clk' m' Hrd'. m_cbn. do 3 eexists. split; [done|].
    split; [done|]. right. exists (Dropped key). split_and!; [by apply step_dropped| |].
    + by eapply spoke_ok, says_passed.
    + by eapply Hway, way_said, says_passed.
  - apply zoom_ok_ret, zoom_ok_bind, ok_read_clock; [|intros e; apply spoke_err]. intros t' Ht'.
    apply zoom_ok_ret. by apply spoke_ok, (says_left _ _ _ t t').
Qed.

Lemma ok_execute cmd :
  (forall part, underway rd cmd part -> W part) ->
  ok cacheL (spoke cmd (fun out => out)) (KvStore.execute cmd) (at_ []).
Proof.
  intros Hway. destruct cmd as [[key|key|key]|[key v d|key|key d|key]].
  - eapply spoke_return; [done|]. eapply ok_took_reading; [done..|].
    intros t m. m_cbn. destruct (m !! key) as [e|]; [destruct (is_expired t e)|];
      (do 2 eexists; split; [|intros clk; reflexivity]; done).
  - eapply spoke_return; [done|]. eapply ok_took_alone; [done..|]. intros clk m. m_cbn.
    destruct (m !! key) as [[v [d|]]|]; [|by do 3 eexists..]. m_cbn.
    destruct (millis_of_reading _) as [t|e]; m_cbn; [destruct (ms_ge t d)|]; by do 3 eexists.
  - by eapply ok_ttl.
  - eapply spoke_return; [done|]. eapply ok_took_alone; [done..|]. intros clk m. by do 3 eexists.
  - eapply spoke_return; [done|]. eapply ok_took_alone; [done..|]. intros clk m. by do 3 eexists.
  - eapply spoke_return; [done|]. by eapply ok_set_expires_at.
  - eapply spoke_return; [done|]. eapply ok_took_alone; [done..|]. intros clk m. m_cbn.
    destruct (m !! key) as [[v [d|]]|]; [|by do 3 eexists..]. m_cbn.
    destruct (millis_of_reading _) as [t|e]; m_cbn; [destruct (ms_ge t d)|]; by do 3 eexists.
Qed.

(** *** Whole operations *)

(** A command through the executor: its effects before its outcome. *)
Lemma ok_execute_logged `{CacheRepository R} cmd :
  (forall part, underway rd cmd part -> W part) ->
  zoom_ok inv waits L i (spoke cmd (fun out => out)) (execute_logged cmd) (at_ []).
Proof.
  intros Hway. apply zoom_ok_bind, zoom_ok_bind, zoom_ok_map_err, zoom_ok_zoom.
  eapply thread_ok_mono; [|by apply ok_execute].
  intros [out|e] gi (part & -> & Hs); cbn [map_err]; [|apply spoke_err].
  apply zoom_ok_ret, zoom_ok_bind. destruct cmd as [rc|wc].
  - do 2 apply zoom_ok_ret. by apply spoke_ok, Hs.
  - apply zoom_ok_map_err, zoom_ok_zoom. eapply thread_ok_mono; [|apply ok_off_cache].
    intros [[]|e] gi ->; cbn [map_err]; [|apply spoke_err]. apply zoom_ok_ret.
    by apply spoke_ok, Hs.
Qed.

(** A sweep: one effect, or a failed reading of the clock. *)
Lemma ok_remove_expired part :
  W (part ++ [Swept]) ->
  ok cacheL (fun _ gi => exists part', gi = at_ part') KvStore.remove_expired (at_ part).
Proof.
  intros HW. apply zoom_ok_bind, ok_read_clock; [|intros e; by exists part].
  intros t Ht. apply ok_section. intros clk m Hrd. m_cbn. do 3 eexists. split; [reflexivity|].
  split; [done|]. right. exists Swept. rewrite fold_delete_expired.
  split_and!; [by apply step_swept|by eexists|done].
Qed.
End thread.
End chronicles.

(** A snapshot has no effect on the map. *)
Lemma ok_snapshot `{Wincode} {T G} (inv : (nat -> G) -> T -> Prop) (waits : nat -> (nat -> G) -> Prop)
    rd (L : Lens T (Executor Persister)) i at_ W part :
  (forall i g, waits i g) -> chronicles inv rd L i at_ W ->
  zoom_ok inv waits (lens_comp L partsL) i (fun _ gi => gi = at_ part) snapshot (at_ part).
Proof.
  intros Hw Hch. apply zoom_ok_bind, zoom_ok_lock; [|intros; apply Hw].
  intros g s Hi Hg Hh. destruct (ch_view _ _ _ _ _ _ Hch g s part Hi Hg) as (clk & h & m & p & Hv & Hr).
  cbn in Hh. rewrite Hv in Hh. cbn in Hh. subst h. split; [cbn; by rewrite Hv|].
  exists (at_ part). split; [cbn; rewrite Hv; cbn; by eapply (ch_stay _ _ _ _ _ _ Hch _ _ _ _ _ _ _ clk true)|].
  clear g s Hi Hg clk m p Hv Hr.
  assert (Hoff : forall E A (q : prog Persister E A),
    zoom_ok inv waits (lens_comp (lens_comp L partsL) lens_snd) i (fun _ gi => gi = at_ part) q (at_ part)).
  { intros E A q. unfold zoom_ok. induction q as [r|f IH] using prog_elim; cbn; [done|].
    intros g s Hi Hg. destruct (ch_view _ _ _ _ _ _ Hch g s part Hi Hg) as (clk & h & m & p & Hv & Hr).
    rewrite Hv. cbn. destruct (f p) as [[q' p']|] eqn:Hf; [|apply Hw].
    exists (at_ part). split; [|by eapply IH]. by eapply (ch_stay _ _ _ _ _ _ Hch). }
  apply zoom_ok_then. eapply (thread_ok_mono _ _ _ _ (fun _ gi' => gi' = at_ part)).
  - intros r gi' ->. apply zoom_ok_then, zoom_ok_atomic.
    intros g s Hi Hg. exists (at_ part). split; [|done].
    destruct (ch_view _ _ _ _ _ _ Hch g s part Hi Hg) as (clk & h & m & p & Hv & Hr).
    cbn [lens_comp view put innerL partsL lens_fst]. rewrite Hv. cbn.
    by eapply (ch_stay _ _ _ _ _ _ Hch _ _ _ _ _ _ _ clk false).
  - apply zoom_ok_bind, zoom_ok_atomic.
    intros g s Hi Hg. exists (at_ part).
    destruct (ch_view _ _ _ _ _ _ Hch g s part Hi Hg) as (clk & h & m & p & Hv & Hr). split.
    { cbn. rewrite Hv. cbn. by eapply (ch_stay _ _ _ _ _ _ Hch _ _ _ _ _ _ _ clk h). }
    apply zoom_ok_bind, zoom_ok_map_err, zoom_ok_zoom. eapply thread_ok_mono; [|apply Hoff].
    intros [[]|e] gi' ->; cbn [map_err]; [|done].
    apply zoom_ok_bind, zoom_ok_map_err, zoom_ok_zoom. eapply thread_ok_mono; [|apply Hoff].
    by intros [[]|e'] gi' ->.
Qed.
