(* ===== verification/Linear.v ===== *)
(** * Linear: commands take effect at a point

    The server of Concurrent.v again, with nothing asked of it: clients may share
    keys, deadlines come due, file operations fail.  Whatever the interleaving, there
    is one history of the cache that accounts for the map, for every answer, and for
    each client's commands, each of which does its work between the answer before and
    its own.  Every command does it at one point, but [TTL] on a key whose deadline
    has passed: that looks at one point and removes at another. *)

From S2P Require Import Prelude Effects Threads RustStd Time Command.
From S2P Require Import Cache CacheSpec Ports Executor Files Persister Recovery Concurrent Points.

(** ** Histories *)

(** A thread's part of a history: an effect on the map, or an answer. *)
Inductive Item : Type :=
| Point (ev : Effect)
| Answered (out : CommandOutcome).

(** A history, of all threads by number, in the order of time. *)
Abbreviation History := (list (nat * Item)).

Definition events (h : History) : list Effect :=
  omap (fun x => match x.2 with Point ev => Some ev | Answered _ => None end) h.
Definition answers_of (h : History) : list (nat * CommandOutcome) :=
  omap (fun x => match x.2 with Answered out => Some (x.1, out) | Point _ => None end) h.
Definition items (i : nat) (h : History) : list Item := (base.filter (fun x => x.1 = i) h).*2.

Lemma events_app h h' : events (h ++ h') = events h ++ events h'.
Proof. apply omap_app. Qed.
Lemma answers_of_app h h' : answers_of (h ++ h') = answers_of h ++ answers_of h'.
Proof. apply omap_app. Qed.
Lemma items_snoc i j it h :
  items i (h ++ [(j, it)]) = items i h ++ (if decide (j = i) then [it] else []).
Proof.
  unfold items. rewrite filter_app, fmap_app. f_equal. rewrite filter_cons. cbn. by case_decide.
Qed.

Section histories.
Context (rd : nat -> Z).

(** Commands answered, one after the other. *)
Inductive talks : list CacheCommand -> list Item -> Prop :=
| talks_nil : talks [] []
| talks_snoc cmds its cmd evs out :
    talks cmds its -> says rd cmd evs out ->
    talks (cmds ++ [cmd]) (its ++ (Point <$> evs) ++ [Answered out]).

(** What a client's part of the history says when [n] of its commands are answered
    and the next has made the points [part]. *)
Definition stands (cmds : list CacheCommand) (n : nat) (part : list Effect) (its : list Item) : Prop :=
  exists done, its = done ++ (Point <$> part) /\ talks (take n cmds) done /\
    (part = [] \/ exists cmd, cmds !! n = Some cmd /\ underway rd cmd part).

(** What ties a history to the state, and to where the threads stand: how many
    answers a client has, and which points its next command has made. *)
Record explains (m0 : CacheMap) (roles : list Role) (g : nat -> nat * list Effect)
    (clk : Clock) (m : CacheMap) (rs : list (nat * CommandOutcome)) (h : History) : Prop := mkExplains {
  e_readings : readings clk = rd;
  e_store : store_run rd m0 (events h) m;
  e_answers : answers_of h = rs;
  e_clients : forall i cmds, roles !! i = Some (Client cmds) ->
    stands cmds (g i).1 (g i).2 (items i h)
}.
End histories.
Arguments e_readings {rd m0 roles g clk m rs h} _.
Arguments e_store {rd m0 roles g clk m rs h} _.
Arguments e_answers {rd m0 roles g clk m rs h} _.
Arguments e_clients {rd m0 roles g clk m rs h} _.

(** ** Its moves *)

Section moves.
Context (rd : nat -> Z) (m0 : CacheMap) (roles : list Role).
Abbreviation explains := (explains rd m0 roles).
Implicit Types (g : nat -> nat * list Effect) (clk : Clock) (m : CacheMap) (h : History)
  (rs : list (nat * CommandOutcome)).

Lemma explains_clock g clk clk' m rs h :
  explains g clk m rs h -> readings clk' = rd -> explains g clk' m rs h.
Proof. by intros [] Hc; split. Qed.

Lemma explains_same i gi g clk m rs h :
  explains g clk m rs h -> g i = gi -> explains (upd i gi g) clk m rs h.
Proof.
  intros [Hr Hs Ha Hc] <-. split; [done..|]. intros j cmds Hj. rewrite upd_self. by apply Hc.
Qed.

Lemma explains_event i n part ev g clk m m' rs h :
  explains g clk m rs h -> g i = (n, part) -> store_step rd m ev m' ->
  (forall cmds, roles !! i = Some (Client cmds) ->
     exists cmd, cmds !! n = Some cmd /\ underway rd cmd (part ++ [ev])) ->
  explains (upd i (n, part ++ [ev]) g) clk m' rs (h ++ [(i, Point ev)]).
Proof.
  intros [Hr Hs Ha Hc] Hg Hst Hway. split.
  - done.
  - rewrite events_app. by eapply run_snoc.
  - by rewrite answers_of_app, Ha, app_nil_r.
  - intros j cmds Hj. rewrite items_snoc. specialize (Hc j cmds Hj). case_decide as Hij.
    + subst j. rewrite upd_eq. rewrite Hg in Hc. destruct Hc as (don & -> & Ht & _).
      exists don. cbn [fst snd]. rewrite fmap_app, <- app_assoc. split_and!; [done|done|]. right. by apply Hway.
    + rewrite upd_ne, app_nil_r by congruence. done.
Qed.

Lemma explains_answer i n part cmds cmd out g clk m rs h :
  explains g clk m rs h -> g i = (n, part) -> roles !! i = Some (Client cmds) ->
  cmds !! n = Some cmd -> says rd cmd part out ->
  explains (upd i (S n, []) g) clk m (rs ++ [(i, out)]) (h ++ [(i, Answered out)]).
Proof.
  intros [Hr Hs Ha Hc] Hg Hi Hn Hsays. split.
  - done.
  - by rewrite events_app, app_nil_r.
  - by rewrite answers_of_app, Ha.
  - intros j cmds' Hj. rewrite items_snoc. specialize (Hc j cmds' Hj). case_decide as Hij.
    + subst j. simplify_eq. rewrite upd_eq. rewrite Hg in Hc. cbn [fst snd] in *.
      destruct Hc as (don & -> & Ht & _). eexists. split_and!; [|by rewrite (take_S_r _ _ _ Hn); apply talks_snoc|by left].
      cbn. by rewrite app_nil_r, <- app_assoc.
    + rewrite upd_ne, app_nil_r by congruence. done.
Qed.
End moves.

(** ** The threads keep a history *)

Section threads.
Context `{Wincode} (rd : nat -> Z) (m0 : CacheMap) (roles : list Role).
Abbreviation explains := (explains rd m0 roles).

Definition history_inv (g : nat -> nat * list Effect) (s : Shared) : Prop :=
  exists clk h m p rs hist, s = state clk h m p rs /\ explains g clk m rs hist.

(** Nothing is asked about locks: any thread may wait. *)
Definition may_wait (i : nat) (g : nat -> nat * list Effect) : Prop := True.
Lemma may_wait_free i g : may_wait i g.
Proof. done. Qed.

Lemma history_inv_intro g clk h m p rs hist :
  explains g clk m rs hist -> history_inv g (state clk h m p rs).
Proof. intros He. by exists clk, h, m, p, rs, hist. Qed.

(** Effects go into the history; a client's as its next command makes them. *)
Lemma history_chronicles i n (W : list Effect -> Prop) :
  (forall cmds part, roles !! i = Some (Client cmds) -> W part ->
     exists cmd, cmds !! n = Some cmd /\ underway rd cmd part) ->
  chronicles history_inv rd sh_execL i (pair n) W.
Proof.
  intros HW. split.
  - intros g s part (clk & h & m & p & rs & hist & -> & He) Hg. exists clk, h, m, p.
    split; [done|apply (e_readings He)].
  - intros g s part clk h m p clk' h' p' (clk0 & h0 & m0' & p0 & rs & hist & -> & He) Hg [= -> -> -> ->] Hc.
    by eapply (history_inv_intro _ clk' h' m p' rs), explains_clock, Hc; eapply explains_same.
  - intros g s part clk h m p clk' ev m' (clk0 & h0 & m0' & p0 & rs & hist & -> & He) Hg [= -> -> -> ->]
      Hc Hst HWp.
    eapply (history_inv_intro _ clk' h m' p rs), explains_clock, Hc. eapply explains_event; eauto.
Qed.

(** *** The whole threads *)

Lemma lin_client i n cmds :
  roles !! i = Some (Client cmds) ->
  thread_ok history_inv may_wait i (fun r gi => r = Ok () -> gi = (n + length (drop n cmds), []))
    (client i (drop n cmds)) (n, []).
Proof.
  intros Hi. remember (drop n cmds) as rest eqn:Hrest. revert n Hrest.
  induction rest as [|cmd rest IH]; intros n Hrest; cbn [client length].
  { intros _. by rewrite Nat.add_0_r. }
  assert (Hn : cmds !! n = Some cmd).
  { rewrite <- (Nat.add_0_r n), <- lookup_drop, <- Hrest. done. }
  apply thread_ok_bind. eapply thread_ok_mono;
    [|apply (ok_execute_logged _ _ rd sh_execL may_wait_free i (pair n) (underway rd cmd)); [|done]].
  - intros [out|e] gi (part & -> & Hs); [|done]. apply thread_ok_bind.
    intros g s (clk & h & m & p & rs & hist & -> & He) Hg. exists (Datatypes.S n, []). split.
    + eapply (history_inv_intro _ clk h m p). by eapply explains_answer; eauto.
    + rewrite <- Nat.add_succ_comm. apply IH. by rewrite (drop_S _ _ _ Hn) in Hrest; injection Hrest.
  - apply history_chronicles. intros cmds' part Hc Hw. simplify_eq. by exists cmd.
Qed.

(** The other threads: no client's part of the history is theirs. *)
Lemma no_client_chronicles i n :
  (forall cmds, roles !! i <> Some (Client cmds)) ->
  chronicles history_inv rd sh_execL i (pair n) (fun _ => True).
Proof. intros Hi. apply history_chronicles. intros cmds part Hc. by destruct (Hi cmds). Qed.

Lemma lin_sweep i turns :
  roles !! i = Some (Sweeper turns) -> forall n gi,
  thread_ok history_inv may_wait i (fun _ _ => True) (sweep_loop n) gi.
Proof.
  intros Hi n. induction n as [|n IH]; intros [k part]; cbn [sweep_loop]; [done|].
  apply thread_ok_then. eapply thread_ok_mono;
    [|apply (ok_remove_expired _ _ rd sh_execL may_wait_free i (pair k) (fun _ => True)); [|done]].
  - intros r gi _. apply IH.
  - apply no_client_chronicles. intros cmds. congruence.
Qed.

Lemma lin_persist i turns :
  roles !! i = Some (Persistence turns) -> forall n gi,
  thread_ok history_inv may_wait i (fun _ _ => True) (persist_loop n) gi.
Proof.
  intros Hi n. induction n as [|n IH]; intros [k part]; cbn [persist_loop]; [done|].
  apply thread_ok_then. eapply thread_ok_mono;
    [|eapply (ok_snapshot history_inv may_wait rd sh_execL i (pair k)); [apply may_wait_free|]].
  - intros r gi ->. apply IH.
  - apply no_client_chronicles. intros cmds. congruence.
Qed.

Definition ends (r : option Role) (res : result ExecuteError unit) (gi : nat * list Effect) : Prop :=
  forall cmds, r = Some (Client cmds) -> res = Ok () -> gi = (length cmds, []).

Lemma lin_roles i r :
  roles !! i = Some r -> thread_ok history_inv may_wait i (ends (roles !! i)) (thread_of i r) (0, []).
Proof.
  intros Hi. destruct r as [cmds|n|n]; cbn [thread_of].
  - eapply thread_ok_mono; [|by apply (lin_client i 0)]. intros res gi Hres cmds' Hc ->.
    simplify_eq. by apply Hres.
  - eapply thread_ok_mono; [|by eapply lin_persist]. intros res gi _ cmds Hc. congruence.
  - eapply thread_ok_mono; [|by eapply lin_sweep]. intros res gi _ cmds Hc. congruence.
Qed.
End threads.

(** ** The theorem *)


(** The [TTL] of Races.v: it finds a deadline that has passed, another client sets
    the key and is answered, and the removal takes the new value. *)
#[local] Existing Instance frames_wincode.
Definition sample_key : bytes := bstr "k".
Definition sample_map : CacheMap :=
  {[ sample_key := mkEntry (bstr "old") (Some (mkMilliseconds 1000)) ]}.
Definition sample_roles : list Role :=
  [Client [CacheRead (RTtl sample_key)]; Client [CacheWrite (WSet sample_key (bstr "new") None)]].

