(* ===== verification/Reply.v ===== *)
(** * Reply: [resp/reply.rs]

    The replies the server sends, [SimpleInner], which keeps CR and LF out of
    simple frames, and their encoding. *)

From S2P Require Import Prelude Effects RustStd Crlf Frame.

Local Open Scope N_scope.

(** ** Simple payloads *)

Inductive SimpleInnerError : Type := IncludesCarriageReturn | IncludesLineFeed.

Record SimpleInner : Type := mkSimpleInner { as_bytes : bytes }.

#[export] Instance SimpleInner_eq_dec : EqDecision SimpleInner.
Proof. solve_decision. Defined.

Definition SimpleInner_try_from (value : bytes) : result SimpleInnerError SimpleInner :=
  if decide (CR ∈ value) then Err IncludesCarriageReturn
  else if decide (LF ∈ value) then Err IncludesLineFeed
  else Ok (mkSimpleInner value).

Definition SimpleInner_ok : SimpleInner := mkSimpleInner (bstr "OK").
Definition SimpleInner_pong : SimpleInner := mkSimpleInner (bstr "PONG").

Definition sanitized (bs : bytes) : SimpleInner :=
  mkSimpleInner (filter (fun b => b <> CR /\ b <> LF) bs).

(** ** Replies *)

Unset Elimination Schemes.
Inductive Reply : Type :=
| RSimpleString (inner : SimpleInner)
| RSimpleError (inner : SimpleInner)
| RBulkString (bs : bytes)
| RNullBulk
| RInteger (int : Z)
| RArray (replies : list Reply).
Set Elimination Schemes.

Section Reply_ind.
Variable P : Reply -> Prop.
Hypothesis HS : forall i, P (RSimpleString i).
Hypothesis HE : forall i, P (RSimpleError i).
Hypothesis HB : forall b, P (RBulkString b).
Hypothesis HN : P RNullBulk.
Hypothesis HI : forall z, P (RInteger z).
Hypothesis HA : forall rs, Forall P rs -> P (RArray rs).

Fixpoint Reply_ind (r : Reply) : P r :=
  match r with
  | RSimpleString i => HS i
  | RSimpleError i => HE i
  | RBulkString b => HB b
  | RNullBulk => HN
  | RInteger z => HI z
  | RArray rs =>
      HA rs ((fix go (rs : list Reply) : Forall P rs :=
                match rs with
                | [] => Forall_nil_2 P
                | r :: rs => Forall_cons_2 P r rs (Reply_ind r) (go rs)
                end) rs)
  end.
End Reply_ind.

Fixpoint to_bytes (r : Reply) : bytes :=
  match r with
  | RSimpleString inner => bstr "+" ++ as_bytes inner ++ crlf
  | RSimpleError inner => bstr "-" ++ as_bytes inner ++ crlf
  | RBulkString bs => bstr "$" ++ display_N (N.of_nat (length bs)) ++ crlf ++ bs ++ crlf
  | RNullBulk => bstr "$-1" ++ crlf
  | RInteger int => bstr ":" ++ display_Z int ++ crlf
  | RArray replies =>
      bstr "*" ++ display_N (N.of_nat (length replies)) ++ crlf ++
      concat (map to_bytes replies)
  end.

Definition Reply_write_to {W} `{Write W} (r : Reply) : M W IoError unit := write_all (to_bytes r).

(** [Replies]: frames back to back. *)
Record Replies : Type := mkReplies { replies_inner : list Reply }.

Definition Replies_to_bytes (rs : Replies) : bytes := concat (map to_bytes (replies_inner rs)).

Fixpoint write_each {W} `{Write W} (rs : list Reply) : M W IoError unit :=
  match rs with
  | [] => mret ()
  | r :: rs => Reply_write_to r;; write_each rs
  end.
Definition Replies_write_to {W} `{Write W} (rs : Replies) : M W IoError unit :=
  write_each (replies_inner rs).

(** ** Well-formed replies *)

(** A payload with neither CR nor LF. *)
Definition clean (i : SimpleInner) : Prop := (CR ∉ as_bytes i) /\ (LF ∉ as_bytes i).

Definition is_i64 (z : Z) : Prop := (i64_min <= z <= i64_max)%Z.

(** A reply as the server can hold one: clean payloads, [usize] lengths, [i64]
    integers. *)
#[warnings="-register-all"]
Inductive Reply_wf : Reply -> Prop :=
| SimpleString_wf i : clean i -> Reply_wf (RSimpleString i)
| SimpleError_wf i : clean i -> Reply_wf (RSimpleError i)
| RBulk_wf b : is_u64 (N.of_nat (length b)) -> Reply_wf (RBulkString b)
| NullBulk_wf : Reply_wf RNullBulk
| Integer_wf z : is_i64 z -> Reply_wf (RInteger z)
| RArray_wf rs : is_u64 (N.of_nat (length rs)) -> Forall Reply_wf rs -> Reply_wf (RArray rs).

(** ** Facts: headers *)

Lemma display_N_inj n n' : is_u64 n -> is_u64 n' -> display_N n = display_N n' -> n = n'.
Proof.
  intros Hn Hn' He. apply (f_equal parse_u64_str) in He.
  rewrite !parse_display_N, !decide_True in He by done. congruence.
Qed.

Lemma display_N_no_minus n : x2d ∉ display_N n.
Proof. by apply not_elem_of_digits, eq_refl; apply display_N_digits. Qed.

Lemma display_N_no_CR n : CR ∉ display_N n.
Proof. by apply not_elem_of_digits, eq_refl; apply display_N_digits. Qed.

Lemma display_Z_no_CR z : CR ∉ display_Z z.
Proof.
  destruct z as [|p|p]; cbn [display_Z]; [apply display_N_no_CR..|].
  intros [H|H]%elem_of_app; [vm_compute in H|by apply display_N_no_CR in H].
  by apply list_elem_of_singleton in H.
Qed.

Lemma display_Z_inj z z' : is_i64 z -> is_i64 z' -> display_Z z = display_Z z' -> z = z'.
Proof.
  unfold is_i64, i64_min, i64_max. intros Hz Hz' He.
  assert (Hm : forall p n, bstr "-" ++ display_N (Npos p) = display_N n -> False).
  { intros p n Hn. apply (display_N_no_minus n). rewrite <- Hn. by apply elem_of_app; left; left. }
  assert (Hu : forall z, (0 <= z <= 9223372036854775808)%Z -> is_u64 (Z.to_N z)).
  { unfold is_u64, u64_max. lia. }
  destruct z as [|p|p], z' as [|p'|p']; cbn [display_Z] in He;
    try (by edestruct Hm; symmetry; eauto); try (by edestruct Hm; eauto).
  1,2,3,4: apply display_N_inj in He; [lia|apply Hu; lia..].
  apply app_inj_1 in He as [_ He]; [|done].
  apply display_N_inj in He; [lia|..]; unfold is_u64, u64_max; lia.
Qed.

(** A header ends at the first CRLF. *)
Lemma header_unique (h h' x y : bytes) :
  CR ∉ h -> CR ∉ h' -> h ++ crlf ++ x = h' ++ crlf ++ y -> h = h' /\ x = y.
Proof.
  revert h'. induction h as [|b h IH]; intros [|b' h'] Hh Hh' He.
  - by injection He.
  - injection He as <- _. destruct Hh'. by left.
  - injection He as -> _. destruct Hh. by left.
  - injection He as <- He. rewrite !not_elem_of_cons in *.
    destruct (IH h') as [-> ->]; [tauto|tauto|done|done].
Qed.

(** ** Facts: one reply off the front of a stream *)

Definition decodes_uniquely (r : Reply) : Prop :=
  Reply_wf r -> forall r' x y, Reply_wf r' -> to_bytes r ++ x = to_bytes r' ++ y -> r = r' /\ x = y.

Lemma replies_unique rs :
  Forall decodes_uniquely rs -> Forall Reply_wf rs ->
  forall rs' x y, Forall Reply_wf rs' -> length rs = length rs' ->
    concat (map to_bytes rs) ++ x = concat (map to_bytes rs') ++ y -> rs = rs' /\ x = y.
Proof.
  intros Hu. induction Hu as [|r rs Hr _ IH]; intros Hwf [|r' rs'] x y Hwf' Hl He; try done.
  inversion_clear Hwf as [|? ? Hw1 Hw2]. inversion_clear Hwf' as [|? ? Hw1' Hw2'].
  cbn [map concat] in He. rewrite <- !app_assoc in He.
  destruct (Hr Hw1 _ _ _ Hw1' He) as [-> He'].
  destruct (IH Hw2 rs' x y Hw2') as [-> ->]; [by injection Hl|done|done].
Qed.

Lemma sigil_inj (b : byte) (u v : bytes) : [b] ++ u = [b] ++ v -> u = v.
Proof. by intros [= ->]. Qed.

Lemma to_bytes_unique r : decodes_uniquely r.
Proof.
  assert (Hnull : forall n u v, display_N n ++ crlf ++ u = bstr "-1" ++ crlf ++ v -> False).
  { intros n u v He. apply header_unique in He as [He _]; [|apply display_N_no_CR|].
    - apply (display_N_no_minus n). rewrite He. by left.
    - change (bstr "-1") with [x2d; x31]. rewrite !not_elem_of_cons.
      split_and!; [done|done|apply not_elem_of_nil]. }
  induction r as [i|i|b| |z|rs IH] using Reply_ind; intros Hwf r' x y Hwf' He;
    destruct Hwf' as [i' Hc'|i' Hc'|b' Hb'| |z' Hz'|rs' Hl' Hrs']; try discriminate;
    cbn [to_bytes] in He; rewrite <- ?app_assoc in He.
  - inversion_clear Hwf as [? [Hc _]| | | | |]. destruct Hc' as [Hc' _].
    apply (sigil_inj x2b) in He. apply header_unique in He as [He ->]; [|done..].
    destruct i, i'. cbn in He. by subst.
  - inversion_clear Hwf as [|? [Hc _]| | | |]. destruct Hc' as [Hc' _].
    apply (sigil_inj x2d) in He. apply header_unique in He as [He ->]; [|done..].
    destruct i, i'. cbn in He. by subst.
  - inversion_clear Hwf as [| |? Hb| | |].
    apply (sigil_inj x24) in He. apply header_unique in He as [He He']; [|apply display_N_no_CR..].
    apply display_N_inj in He; [|done..]. apply Nat2N.inj in He.
    apply app_inj_1 in He' as [-> He']; [|done]. by apply app_inv_head in He' as ->.
  - apply (sigil_inj x24) in He. by apply Hnull in He.
  - apply (sigil_inj x24) in He. symmetry in He. by apply Hnull in He.
  - apply app_inv_head, app_inv_head in He. by subst.
  - inversion_clear Hwf as [| | | |? Hz|].
    apply (sigil_inj x3a) in He. apply header_unique in He as [He ->]; [|apply display_Z_no_CR..].
    by apply display_Z_inj in He as ->.
  - inversion_clear Hwf as [| | | | |? Hl Hrs].
    apply (sigil_inj x2a) in He. apply header_unique in He as [He He']; [|apply display_N_no_CR..].
    apply display_N_inj in He; [|done..]. apply Nat2N.inj in He.
    by destruct (replies_unique rs IH Hrs rs' x y Hrs' He He') as [-> ->].
Qed.

Lemma sanitized_clean bs : clean (sanitized bs).
Proof. split; cbn; rewrite list_elem_of_filter; tauto. Qed.

Lemma sanitized_id bs : CR ∉ bs -> LF ∉ bs -> sanitized bs = mkSimpleInner bs.
Proof.
  intros HC HL. unfold sanitized. f_equal. induction bs as [|b bs IH]; [done|].
  rewrite not_elem_of_cons in HC, HL. rewrite filter_cons, decide_True by (split; naive_solver).
  f_equal. apply IH; tauto.
Qed.

(** ** Properties *)

(** No payload of a simple frame can break the framing.  Whatever bytes an error
    message has, [sanitized] leaves neither CR nor LF in it, drops nothing else, and
    keeps the order; [try_from] accepts exactly the payloads without them, unchanged,
    and of the two forbidden bytes reports CR first. *)
Theorem simple_inner_safe (bs : bytes) :
  clean (sanitized bs) /\
  (forall b, b <> CR -> b <> LF -> count_occ Byte.byte_eq_dec (as_bytes (sanitized bs)) b =
                                 count_occ Byte.byte_eq_dec bs b) /\
  sublist (as_bytes (sanitized bs)) bs /\
  SimpleInner_try_from bs =
    (if decide (CR ∈ bs) then Err IncludesCarriageReturn
     else if decide (LF ∈ bs) then Err IncludesLineFeed
     else Ok (sanitized bs)).
Proof.
  split_and!.
  - apply sanitized_clean.
  - intros b Hb1 Hb2. cbn. induction bs as [|b' bs IH]; [done|].
    rewrite filter_cons. case_decide as Hd; cbn [count_occ].
    + by rewrite IH.
    + destruct (Byte.byte_eq_dec b' b) as [->|]; [by destruct Hd|done].
  - apply sublist_filter.
  - unfold SimpleInner_try_from. do 2 (case_decide; [done|]). by rewrite sanitized_id.
Qed.

(** C29: a client can read the stream of replies in one way only.  If two
    well-formed replies, each followed by anything, are the same bytes, they are
    the same reply and the same rest follows; so a batch of replies is read back as
    exactly the replies that were written, whatever the values contain. *)
Theorem replies_decode_uniquely (rs rs' : list Reply) (x y : bytes) :
  Forall Reply_wf rs -> Forall Reply_wf rs' -> length rs = length rs' ->
  Replies_to_bytes (mkReplies rs) ++ x = Replies_to_bytes (mkReplies rs') ++ y ->
  rs = rs' /\ x = y.
Proof.
  intros Hwf Hwf' Hl He. eapply replies_unique; [|done..].
  apply Forall_forall. intros r _. apply to_bytes_unique.
Qed.

Lemma replies_decode_uniquely_witness :
  let rs := [RArray [RBulkString (bstr "message"); RBulkString crlf; RNullBulk]; RInteger (-2)] in
  length (Replies_to_bytes (mkReplies rs)) = 35%nat /\ Forall Reply_wf rs /\ rs = rs /\
  bstr "+OK" = bstr "+OK".
Proof.
  cbv zeta. split; [reflexivity|].
  assert (Forall Reply_wf
    [RArray [RBulkString (bstr "message"); RBulkString crlf; RNullBulk]; RInteger (-2)]) as Hwf.
  { repeat constructor; vm_compute; congruence. }
  split; [exact Hwf|].
  apply (replies_decode_uniquely
    [RArray [RBulkString (bstr "message"); RBulkString crlf; RNullBulk]; RInteger (-2)]
    [RArray [RBulkString (bstr "message"); RBulkString crlf; RNullBulk]; RInteger (-2)]);
    [exact Hwf | exact Hwf | reflexivity | reflexivity].
Defined.

(** Writing replies.  On any writer, [write_to] of a batch hands over the bytes
    of [to_bytes], one [write_all] per reply in order, and stops at the first
    error; into a buffer it never fails and appends exactly [to_bytes]. *)
Theorem replies_write_to (rs : list Reply) (w : bytes) :
  Replies_write_to (mkReplies rs) w = (Ok (), w ++ Replies_to_bytes (mkReplies rs)) /\
  forall {W} `{Write W} (r : Reply) (s : W),
    Replies_write_to (mkReplies (r :: rs)) s =
    match write_all (to_bytes r) s with
    | (Ok _, s') => Replies_write_to (mkReplies rs) s'
    | (Err e, s') => (Err e, s')
    end.
Proof.
  split; [|done]. unfold Replies_write_to, Replies_to_bytes. cbn [replies_inner].
  revert w. induction rs as [|r rs IH]; intros w; cbn [write_each map concat].
  - by rewrite app_nil_r.
  - unfold mbind, M_bind, m_bind, Reply_write_to. cbn. rewrite IH. by rewrite <- app_assoc.
Qed.
