(* ===== verification/Inbound.v ===== *)
(** * Inbound: [inbound/mod.rs]

    Outcomes to replies: [From<CommandOutcome> for Reply] and
    [From<ChannelCommandOutcome> for Replies]. *)

From S2P Require Import Prelude Effects RustStd Time Command Reply Cache.

Local Open Scope N_scope.

Definition Reply_from_CommandOutcome (value : CommandOutcome) : Reply :=
  match value with
  | CoValue (Some value) => RBulkString value
  | CoValue None => RNullBulk
  | CoOk => RSimpleString SimpleInner_ok
  | CoPong (Some message) => RBulkString message
  | CoPong None => RSimpleString SimpleInner_pong
  | CoBool b => RInteger (if b then 1 else 0)%Z
  | CoTtl KeyNotFound => RInteger (-2)%Z
  | CoTtl TtlNotFound => RInteger (-1)%Z
  | CoTtl (TtlSome ttl) => RInteger (i64_try_from_or_max (secs ttl))
  | CoInteger int => RInteger int
  end.

Definition channel_reply (channel_id : option bytes) : Reply :=
  match channel_id with
  | Some c => RBulkString c
  | None => RNullBulk
  end.

(** One acknowledgement of a [SUBSCRIBE] or [UNSUBSCRIBE]. *)
Definition ack_reply (verb : bytes) (entry : SubUnsubInnerEntry) : Reply :=
  RArray [RBulkString verb; channel_reply (su_channel_id entry);
          RInteger (i64_try_from_or_max (subscription_count entry))].

Definition Replies_from_ChannelCommandOutcome (value : ChannelCommandOutcome) : Replies :=
  match value with
  | CcoSubscribe inner => mkReplies (map (ack_reply (bstr "subscribe")) inner)
  | CcoUnsubscribe inner => mkReplies (map (ack_reply (bstr "unsubscribe")) inner)
  | CcoPublish sent_count => mkReplies [RInteger (Z.of_N sent_count)]
  end.

(** ** Well-formed outcomes *)

(** Outcomes as the server can hold them: [usize] lengths, [u64] times, [i64]
    and [u32] counts. *)
Definition CommandOutcome_wf (o : CommandOutcome) : Prop :=
  match o with
  | CoValue (Some b) | CoPong (Some b) => is_u64 (N.of_nat (length b))
  | CoInteger z => is_i64 z
  | _ => True
  end.

Definition SubUnsub_wf (e : SubUnsubInnerEntry) : Prop :=
  match su_channel_id e with Some b => is_u64 (N.of_nat (length b)) | None => True end.

Definition ChannelCommandOutcome_wf (o : ChannelCommandOutcome) : Prop :=
  match o with
  | CcoSubscribe inner | CcoUnsubscribe inner => Forall SubUnsub_wf inner
  | CcoPublish n => n <= u32_max
  end.

Lemma i64_try_from_or_max_i64 n : is_i64 (i64_try_from_or_max n).
Proof.
  unfold i64_try_from_or_max, is_i64, i64_min, i64_max. case_decide; [|done].
  split; [lia|done].
Qed.

Lemma clean_ok : clean SimpleInner_ok.
Proof. split; apply (bool_decide_unpack _); vm_compute; exact I. Qed.

Lemma clean_pong : clean SimpleInner_pong.
Proof. split; apply (bool_decide_unpack _); vm_compute; exact I. Qed.

Lemma small_u64 n : n <= 1000 -> is_u64 n.
Proof. unfold is_u64, u64_max. lia. Qed.

Lemma ack_reply_wf verb e : (length verb <= 20)%nat -> SubUnsub_wf e -> Reply_wf (ack_reply verb e).
Proof.
  intros Hv He. apply RArray_wf; [by apply small_u64|].
  repeat (apply Forall_cons; split); [| | |apply Forall_nil_2].
  - apply RBulk_wf, small_u64. lia.
  - unfold SubUnsub_wf in He. destruct (su_channel_id e); by constructor.
  - apply Integer_wf, i64_try_from_or_max_i64.
Qed.

(** ** Properties *)

(** Every outcome has a reply that can be framed.  The replies to a command, and
    to a channel command, are well-formed: no payload breaks a simple frame and every
    integer fits an [i64].  [SUBSCRIBE] and [UNSUBSCRIBE] answer one frame per
    channel, in order, [PUBLISH] exactly one. *)
Theorem replies_well_formed (o : CommandOutcome) (co : ChannelCommandOutcome) :
  CommandOutcome_wf o -> ChannelCommandOutcome_wf co ->
  Reply_wf (Reply_from_CommandOutcome o) /\
  Forall Reply_wf (replies_inner (Replies_from_ChannelCommandOutcome co)) /\
  length (replies_inner (Replies_from_ChannelCommandOutcome co)) =
    match co with CcoSubscribe inner | CcoUnsubscribe inner => length inner | CcoPublish _ => 1%nat end.
Proof.
  intros Ho Hc. split_and!.
  - destruct o as [[b|]| |[]|[| |s]|[b|]|z]; cbn in *; constructor; try done;
      try apply clean_ok; try apply clean_pong; try apply i64_try_from_or_max_i64.
  - destruct co as [inner|inner|n]; cbn in *.
    + apply Forall_map. eapply Forall_impl; [exact Hc|]. intros e He. by apply ack_reply_wf; [cbn; lia|].
    + apply Forall_map. eapply Forall_impl; [exact Hc|]. intros e He. by apply ack_reply_wf; [cbn; lia|].
    + repeat constructor. unfold u32_max, i64_min, i64_max in *; lia. unfold u32_max, i64_max in *; lia.
  - destruct co; cbn; by rewrite ?length_map.
Qed.

Lemma replies_well_formed_witness :
  Reply_wf (Reply_from_CommandOutcome (CoInteger 1)) /\
  length (replies_inner (Replies_from_ChannelCommandOutcome
    (CcoSubscribe [SubUnsubInnerEntry_new (bstr "a") 1]))) = 1%nat.
Proof.
  destruct (replies_well_formed (CoInteger 1) (CcoSubscribe [SubUnsubInnerEntry_new (bstr "a") 1]))
    as (H1 & _ & H2).
  - split; vm_compute; congruence.
  - repeat constructor. vm_compute. congruence.
  - split; [exact H1|exact H2].
Defined.

(** A [TTL] answer is exact.  Whatever deadline and clock reading there are, the
    integer in the reply is the rounded-up number of seconds itself: it is far below
    [i64::MAX], so the clamp of the conversion is never used, and it never takes the
    values -1 and -2 that mean no deadline and no key. *)
Theorem ttl_reply_exact (ttl : Milliseconds) :
  Milliseconds_wf ttl ->
  Reply_from_CommandOutcome (CoTtl (TtlSome (to_seconds_rounded_up ttl))) =
    RInteger (Z.of_N (secs (to_seconds_rounded_up ttl))) /\
  (0 <= Z.of_N (secs (to_seconds_rounded_up ttl)) <= 18446744073709552)%Z.
Proof.
  intros Hwf. unfold Milliseconds_wf, is_u64, u64_max in Hwf.
  pose proof (div_ceil_spec (millis ttl) 1000 ltac:(lia)) as [_ Hs].
  cbn [Reply_from_CommandOutcome to_seconds_rounded_up secs].
  unfold i64_try_from_or_max. rewrite decide_True by (unfold i64_max; lia). split; [done|lia].
Qed.

Lemma ttl_reply_exact_witness :
  Reply_from_CommandOutcome (CoTtl (TtlSome (to_seconds_rounded_up (mkMilliseconds u64_max)))) =
    RInteger 18446744073709552.
Proof.
  rewrite (proj1 (ttl_reply_exact (mkMilliseconds u64_max) ltac:(vm_compute; congruence))).
  vm_compute. reflexivity.
Defined.
