(* ===== verification/Session.v ===== *)
(** * Session: [inbound/session.rs]

    One connected client: the buffered reader that takes frames off the socket,
    the read half that runs commands and queues replies, and the loop that drives
    it.  A session runs in a [World]: its own read half, the registry and queues
    all sessions share, the executor's state, and the shutdown flag.  The iteration
    orders of the two hash tables are parameters. *)

From S2P Require Import Prelude Effects RustStd Time Command Frame CommandFrame.
From S2P Require Import Cache Mpsc Channels Ports Reply Inbound.

(** ** Reading from the socket *)

(** [std::io::Read]: up to so many bytes; none at the end of the stream. *)
Class Read (R : Type) : Type := read : nat -> M R IoError bytes.

(** [BufReader], with its default capacity. *)
Record BufReader (R : Type) : Type := mkBufReader { br_inner : R; br_buf : bytes }.
Arguments mkBufReader {R} br_inner br_buf.
Arguments br_inner {R} b.
Arguments br_buf {R} b.

Section reader.
Context {R : Type} `{Read R}.

Definition BufReader_read (n : nat) : M (BufReader R) IoError bytes := fun b =>
  if decide (br_buf b = []) then
    match read (N.to_nat 8192) (br_inner b) with
    | (Ok chunk, r) => (Ok (take n chunk), mkBufReader r (drop n chunk))
    | (Err e, r) => (Err e, mkBufReader r [])
    end
  else (Ok (take n (br_buf b)), mkBufReader (br_inner b) (drop n (br_buf b))).

Record SessionReader : Type := mkSessionReader { sr_inner : BufReader R; sr_buf : bytes }.

Definition SessionReader_new (reader : R) : SessionReader :=
  mkSessionReader (mkBufReader reader []) [].

(** [SessionReader::read]: up to 1 KiB onto the end of the buffer. *)
Definition reader_read : M SessionReader IoError nat := fun r =>
  match BufReader_read 1024 (sr_inner r) with
  | (Ok new, inner) => (Ok (length new), mkSessionReader inner (sr_buf r ++ new))
  | (Err e, inner) => (Err e, mkSessionReader inner (sr_buf r))
  end.

Definition parse_frame : M SessionReader FrameError Frame := fun r =>
  match parse_one (sr_buf r) with
  | Ok (frame, rest) =>
      let consumed := length (sr_buf r) - length rest in
      (Ok frame, mkSessionReader (sr_inner r) (drop consumed (sr_buf r)))
  | Err e =>
      (Err e, mkSessionReader (sr_inner r) (if decide (e = Incomplete) then sr_buf r else []))
  end.
End reader.
Arguments SessionReader R : clear implicits.

(** ** The read half and its world *)

Record ReadHalf (R : Type) : Type := mkReadHalf {
  rh_id : N;
  rh_reader : SessionReader R;
  rh_sender : Sender;
  rh_subscriptions : gset bytes
}.
Arguments mkReadHalf {R} rh_id rh_reader rh_sender rh_subscriptions.
Arguments rh_id {R} r.
Arguments rh_reader {R} r.
Arguments rh_sender {R} r.
Arguments rh_subscriptions {R} r.

Record World (R S : Type) : Type := mkWorld {
  w_rh : ReadHalf R;
  w_channels : ChannelsState;
  w_exec : S;
  w_shutdown : bool
}.
Arguments mkWorld {R S} w_rh w_channels w_exec w_shutdown.
Arguments w_rh {R S} w.
Arguments w_channels {R S} w.
Arguments w_exec {R S} w.
Arguments w_shutdown {R S} w.

Definition set_reader {R : Type} (r : SessionReader R) (h : ReadHalf R) : ReadHalf R :=
  mkReadHalf (rh_id h) r (rh_sender h) (rh_subscriptions h).
Definition set_subscriptions {R : Type} (s : gset bytes) (h : ReadHalf R) : ReadHalf R :=
  mkReadHalf (rh_id h) (rh_reader h) (rh_sender h) s.

Section lenses.
Context {R S : Type}.

Definition rhL : Lens (World R S) (ReadHalf R) :=
  mkLens w_rh (fun h w => mkWorld h (w_channels w) (w_exec w) (w_shutdown w))
    (fun _ _ => eq_refl) (fun w => match w with mkWorld _ _ _ _ => eq_refl end)
    (fun _ _ _ => eq_refl).
Definition channelsL : Lens (World R S) ChannelsState :=
  mkLens w_channels (fun c w => mkWorld (w_rh w) c (w_exec w) (w_shutdown w))
    (fun _ _ => eq_refl) (fun w => match w with mkWorld _ _ _ _ => eq_refl end)
    (fun _ _ _ => eq_refl).
Definition execL : Lens (World R S) S :=
  mkLens w_exec (fun e w => mkWorld (w_rh w) (w_channels w) e (w_shutdown w))
    (fun _ _ => eq_refl) (fun w => match w with mkWorld _ _ _ _ => eq_refl end)
    (fun _ _ _ => eq_refl).
Definition readerL : Lens (ReadHalf R) (SessionReader R) :=
  mkLens rh_reader set_reader
    (fun _ _ => eq_refl) (fun h => match h with mkReadHalf _ _ _ _ => eq_refl end)
    (fun _ _ _ => eq_refl).
End lenses.

Inductive ReadHalfError : Type :=
| RhIo (e : IoError)
| RhExecutor (e : ExecuteError)
| RhSend (e : SendError).

(** How a turn of the loop ends. *)
Inductive flow : Type := Continue | Break (r : result ReadHalfError unit).

(** ** Operations *)

Section session.
Context {R S : Type} `{Read R} `{Execute S}.
(** Where the executor's state keeps the system clock. *)
Context (execClockL : Lens S Clock).
(** The iteration orders of a channel's subscribers and of the session's set. *)
Context (order : Subscribers -> list (N * Sender)) (iter : gset bytes -> list bytes).

Abbreviation WP E A := (prog (World R S) E A).

(** A loop with no turns left. *)
Definition stuck {E A} : WP E A := Step (fun _ => None).

(** The outcome of [p] as a value. *)
Definition catch {E F A} (p : WP E A) : WP F (result E A) := p_then p (fun r => Done (Ok r)).

(** The session's own fields. *)
Definition self {E} : WP E (ReadHalf R) := atomic (fun w => (Ok (w_rh w), w)).

Definition send (bs : bytes) : WP SendError unit :=
  rh ← self;
  atomic (m_zoom (lens_comp channelsL queuesL) (Mpsc.send (rh_sender rh) bs)).

(** [-ERR] and the error's text. *)
Definition err_reply (text : bytes) : bytes :=
  to_bytes (RSimpleError (sanitized (bstr "ERR " ++ text))).

Fixpoint read_frame (fuel : nat) : WP ReadHalfError (option Frame) :=
  match fuel with
  | O => stuck
  | Datatypes.S fuel' =>
      parsed ← catch (atomic (m_zoom (lens_comp rhL readerL) parse_frame));
      match parsed with
      | Ok frame => mret (Some frame)
      | Err Incomplete =>
          len ← p_map_err RhIo (atomic (m_zoom (lens_comp rhL readerL) reader_read));
          if decide (len = 0) then mret None else read_frame fuel'
      | Err e =>
          p_map_err RhSend (send (err_reply (display_FrameError e)));;
          read_frame fuel'
      end
  end.

(** Up to [fuel] frames, each within [reads] turns of [read_frame]. *)
Fixpoint read_command (reads fuel : nat) : WP ReadHalfError (option Command) :=
  match fuel with
  | O => stuck
  | Datatypes.S fuel' =>
      frame ← read_frame reads;
      match frame with
      | None => mret None
      | Some frame =>
          lifted ← catch (atomic (m_zoom (lens_comp execL execClockL) (try_from frame)));
          match lifted with
          | Ok cmd => mret (Some cmd)
          | Err e =>
              p_map_err RhSend (send (err_reply (display_CommandFromFrameError e)));;
              read_command reads fuel'
          end
      end
  end.

(** The session's set, changed and counted. *)
Definition update_subscriptions (f : gset bytes -> gset bytes) : WP ChannelsError N :=
  atomic (fun w =>
    let subs := f (rh_subscriptions (w_rh w)) in
    (Ok (N.of_nat (size subs)), put rhL (set_subscriptions subs (w_rh w)) w)).

(** The loop of the [Subscribe] arm. *)
Fixpoint subscribe_each (channel_ids : list bytes) : WP ChannelsError (list SubUnsubInnerEntry) :=
  match channel_ids with
  | [] => mret []
  | id :: rest =>
      rh ← self;
      zoom channelsL (Channels.subscribe id (mkSubscriber (rh_id rh) (rh_sender rh)));;
      count ← update_subscriptions (fun subs => {[ id ]} ∪ subs);
      inner ← subscribe_each rest;
      mret (SubUnsubInnerEntry_new id count :: inner)
  end.

(** The loop of the [Unsubscribe] arm. *)
Fixpoint unsubscribe_each (targets : list bytes) : WP ChannelsError (list SubUnsubInnerEntry) :=
  match targets with
  | [] => mret []
  | id :: rest =>
      rh ← self;
      zoom channelsL (Channels.unsubscribe id (rh_id rh));;
      count ← update_subscriptions (fun subs => subs ∖ {[ id ]});
      inner ← unsubscribe_each rest;
      mret (SubUnsubInnerEntry_new id count :: inner)
  end.

(** The push a [PUBLISH] fans out. *)
Definition push_message (channel_id message : bytes) : bytes :=
  to_bytes (RArray [RBulkString (bstr "message"); RBulkString channel_id; RBulkString message]).

Definition execute_channel_command (command : ChannelCommand)
  : WP ChannelsError ChannelCommandOutcome :=
  match command with
  | Subscribe channel_ids =>
      inner ← subscribe_each channel_ids;
      mret (CcoSubscribe inner)
  | Unsubscribe channel_ids =>
      rh ← self;
      let targets := if decide (channel_ids = []) then iter (rh_subscriptions rh)
                     else channel_ids in
      if decide (targets = []) then
        mret (CcoUnsubscribe [SubUnsubInnerEntry_new_null (N.of_nat (size (rh_subscriptions rh)))])
      else
        inner ← unsubscribe_each targets;
        mret (CcoUnsubscribe inner)
  | Publish channel_id message =>
      sent_count ← zoom channelsL
        (Channels.publish order (push_message channel_id message) channel_id);
      mret (CcoPublish sent_count)
  end.

(** Every channel of the set, one result each. *)
Fixpoint unsubscribe_all (id : N) (channels : list bytes)
  : WP ChannelsError (list (result ChannelsError unit)) :=
  match channels with
  | [] => mret []
  | sub :: rest =>
      r ← catch (zoom channelsL (Channels.unsubscribe sub id));
      rs ← unsubscribe_all id rest;
      mret (r :: rs)
  end.
Definition unsubscribe_from_all : WP ChannelsError (list (result ChannelsError unit)) :=
  rh ← self;
  unsubscribe_all (rh_id rh) (iter (rh_subscriptions rh)).

(** Queue a reply and go on, or stop. *)
Definition reply_or_break {E} (bs : bytes) : WP E flow :=
  sent ← catch (send bs);
  mret (match sent with Ok _ => Continue | Err e => Break (Err (RhSend e)) end).

(** One turn of the reader loop of [repl]. *)
Definition repl_turn {E} (reads fuel : nat) : WP E flow :=
  shutdown ← atomic (fun w => (Ok (w_shutdown w), w));
  if (shutdown : bool) then mret (Break (Ok ()))
  else
    command ← catch (read_command reads fuel);
    match command with
    | Ok (Some (Command.Cache cc)) =>
        outcome ← catch (zoom execL (execute_logged cc));
        match outcome with
        | Ok outcome => reply_or_break (to_bytes (Reply_from_CommandOutcome outcome))
        | Err e => mret (Break (Err (RhExecutor e)))
        end
    | Ok (Some (Channel command)) =>
        outcome ← catch (execute_channel_command command);
        match outcome with
        | Ok outcome =>
            reply_or_break (Replies_to_bytes (Replies_from_ChannelCommandOutcome outcome))
        | Err e => mret (Break (Err (RhExecutor (ExChannels e))))
        end
    | Ok (Some (Ping message)) =>
        reply_or_break (to_bytes (Reply_from_CommandOutcome (CoPong message)))
    | Ok None => mret (Break (Ok ()))
    | Err (RhIo e) =>
        if decide (io_kind e = TimedOut \/ io_kind e = WouldBlock) then mret Continue
        else mret (Break (Err (RhIo e)))
    | Err e => mret (Break (Err e))
    end.

(** The reader half of [repl]: turns until one breaks, then out of every
    channel. *)
Fixpoint reader_loop (reads fuel turns : nat) : WP ChannelsError (result ReadHalfError unit) :=
  match turns with
  | O => stuck
  | Datatypes.S turns' =>
      turn ← repl_turn reads fuel;
      match turn with
      | Continue => reader_loop reads fuel turns'
      | Break r => mret r
      end
  end.
Definition repl_reader (reads fuel turns : nat) : WP ChannelsError (result ReadHalfError unit) :=
  r ← reader_loop reads fuel turns;
  unsubscribe_from_all;;
  mret r.
End session.
