(* ===== verification/SessionSpec.v ===== *)
(** * SessionSpec: what a session promises

    Frames do not depend on how the bytes arrive; bad input is answered and
    skipped; one reply per command; the registry and the session's own set agree;
    a session that ends leaves no channel behind. *)

From S2P Require Import Prelude Effects RustStd Time Command Frame CommandFrame.
From S2P Require Import Cache Mpsc Channels Ports Executor Reply Inbound Session.

(** ** A socket *)

(** What the calls on a socket will give: chunks of bytes, or errors (a timeout,
    say); after the last the stream has ended.  A chunk longer than what is asked
    for is given in parts. *)
Abbreviation Script := (list (result IoError bytes)).

#[export] Instance Script_Read : Read Script := fun n s =>
  match s with
  | [] => (Ok [], [])
  | Err e :: rest => (Err e, rest)
  | Ok chunk :: rest =>
      if decide (length chunk <= n) then (Ok chunk, rest)
      else (Ok (take n chunk), Ok (drop n chunk) :: rest)
  end.

(** The reader has [buf] in its frame buffer and [unread] still to come. *)
Definition stream (r : SessionReader Script) (buf unread : bytes) : Prop :=
  sr_buf r = buf /\
  exists chunks, br_inner (sr_inner r) = map Ok chunks /\ Forall (fun c => c <> []) chunks /\
    unread = br_buf (sr_inner r) ++ concat chunks.

Lemma take_nonempty (n : nat) (l : bytes) : 0 < n -> l <> [] -> take n l <> [].
Proof. intros ??. by destruct n, l; try lia. Qed.

(** One read: nothing more to come, or some of it. *)
Lemma reader_read_stream r buf unread :
  stream r buf unread ->
  (unread = [] /\ exists r', reader_read r = (Ok 0, r') /\ stream r' buf []) \/
  exists x u' r', x <> [] /\ unread = x ++ u' /\
    reader_read r = (Ok (length x), r') /\ stream r' (buf ++ x) u'.
Proof.
  intros (<- & chunks & Hc & Hne & ->). destruct r as [[inner bb] sb]. cbn in Hc. subst inner.
  unfold reader_read, BufReader_read. cbn [sr_inner sr_buf br_buf br_inner].
  destruct (decide (bb = [])) as [->|Hbb].
  - destruct Hne as [|c chunks Hc Hne]; cbn [map read Script_Read].
    + left. split; [done|]. eexists. split; [done|]. rewrite take_nil, app_nil_r, drop_nil.
      split; [done|]. by exists [].
    + right. destruct (decide (length c <= N.to_nat 8192)) as [Hl|Hl].
      * exists (take 1024 c), (drop 1024 c ++ concat chunks). eexists. split_and!.
        { by apply take_nonempty; [lia|]. }
        { cbn [concat app]. by rewrite app_assoc, take_drop. }
        { done. }
        split; [done|]. by exists chunks.
      * exists (take 1024 (take (N.to_nat 8192) c)),
          (drop 1024 (take (N.to_nat 8192) c) ++ drop (N.to_nat 8192) c ++ concat chunks).
        eexists. split_and!.
        { apply take_nonempty; [lia|]. apply take_nonempty; [lia|done]. }
        { cbn [concat app]. by rewrite app_assoc, take_drop, app_assoc, take_drop. }
        { done. }
        split; [done|]. exists (drop (N.to_nat 8192) c :: chunks). split_and!; [done| |done].
        constructor; [|done]. intros He. apply (f_equal length) in He.
        rewrite length_drop in He. cbn [length] in He. lia.
  - right. exists (take 1024 bb), (drop 1024 bb ++ concat chunks). eexists. split_and!.
    { by apply take_nonempty; [lia|]. }
    { by rewrite app_assoc, take_drop. }
    { done. }
    split; [done|]. by exists chunks.
Qed.

(** ** Frames off the stream *)

Section frames.
Context {S : Type}.
Implicit Types w : World Script S.

Definition with_reader (r : SessionReader Script) w : World Script S :=
  put (lens_comp rhL readerL) r w.

Lemma with_reader_reader r w : rh_reader (w_rh (with_reader r w)) = r.
Proof. done. Qed.
Lemma with_reader_with_reader r r' w : with_reader r (with_reader r' w) = with_reader r w.
Proof. done. Qed.

Lemma parse_frame_buf (r : SessionReader Script) e :
  parse_one (sr_buf r) = Err e -> e = Incomplete -> parse_frame r = (Err Incomplete, r).
Proof.
  intros Hp ->. unfold parse_frame. rewrite Hp, decide_True by done. by destruct r.
Qed.

Lemma parse_frame_Ok {R} (r : SessionReader R) f rest :
  parse_one (sr_buf r) = Ok (f, rest) ->
  parse_frame r = (Ok f, mkSessionReader (sr_inner r) rest).
Proof.
  intros Hp. unfold parse_frame. rewrite Hp.
  destruct (some_parse_one_consumes (sr_buf r) f rest) as (pre & Hpre & _).
  { unfold some_parse_one. by rewrite Hp. }
  rewrite Hpre. rewrite length_app. replace (_ - length rest) with (length pre) by lia.
  by rewrite drop_app_length.
Qed.

(** One turn of [read_frame]. *)
Lemma run_read_frame_turn fuel w :
  run (read_frame (Datatypes.S fuel)) w =
  match parse_frame (rh_reader (w_rh w)) with
  | (Ok f, r) => Some (Ok (Some f), with_reader r w)
  | (Err Incomplete, r) =>
      match reader_read r with
      | (Ok len, r') => if decide (len = 0) then Some (Ok None, with_reader r' w)
                        else run (read_frame fuel) (with_reader r' w)
      | (Err e, r') => Some (Err (RhIo e), with_reader r' w)
      end
  | (Err e, r) =>
      run (p_map_err RhSend (send (err_reply (display_FrameError e)));; read_frame fuel)
          (with_reader r w)
  end.
Proof.
  cbn [read_frame]. unfold catch. rewrite run_bind, run_then, run_atomic.
  unfold m_zoom at 1. cbn [view lens_comp rhL readerL].
  destruct (parse_frame (rh_reader (w_rh w))) as [[f|e] r]; cbn [run]; [done|].
  destruct e; try done.
  rewrite run_bind, run_map_err, run_atomic. unfold m_zoom at 1.
  change (view (lens_comp rhL readerL) (put (lens_comp rhL readerL) r w)) with r.
  destruct (reader_read r) as [[len|e] r']; cbn [map_err]; [|done].
  change (put (lens_comp rhL readerL) r' (put (lens_comp rhL readerL) r w)) with (with_reader r' w).
  by case_decide.
Qed.

(** The frame at the front of the stream, however it arrives; the end of the
    stream before the end of a frame. *)
Lemma run_read_frame_stream fuel w buf unread :
  stream (rh_reader (w_rh w)) buf unread -> length unread < fuel ->
  match parse_one (buf ++ unread) with
  | Ok (f, tail) => exists r buf' unread',
      run (read_frame fuel) w = Some (Ok (Some f), with_reader r w) /\
      stream r buf' unread' /\ buf' ++ unread' = tail /\ length unread' <= length unread
  | Err Incomplete => exists r,
      run (read_frame fuel) w = Some (Ok None, with_reader r w) /\ stream r (buf ++ unread) []
  | Err _ => True
  end.
Proof.
  revert w buf unread. induction fuel as [|fuel IH]; intros w buf unread Hs Hf; [lia|].
  assert (Hbuf : sr_buf (rh_reader (w_rh w)) = buf) by apply Hs.
  assert (parse_one buf = Err Incomplete \/ parse_one buf <> Err Incomplete) as [Hi|Hi].
  { destruct (parse_one buf) as [|[]]; auto; by right. }
  - destruct (reader_read_stream _ _ _ Hs) as [(-> & r' & Hr & Hs')|(x & u' & r' & Hx & -> & Hr & Hs')].
    + rewrite app_nil_r, Hi. exists r'. split; [|done].
      rewrite run_read_frame_turn, (parse_frame_buf _ Incomplete), Hr by (by rewrite ?Hbuf).
      done.
    + specialize (IH (with_reader r' w) (buf ++ x) u').
      rewrite with_reader_reader, <- app_assoc in IH.
      assert (Hlt : length u' < fuel).
      { rewrite length_app in Hf. destruct x; [done|cbn in Hf; lia]. }
      specialize (IH Hs' Hlt).
      assert (Hrun : run (read_frame (Datatypes.S fuel)) w = run (read_frame fuel) (with_reader r' w)).
      { rewrite run_read_frame_turn, (parse_frame_buf _ Incomplete), Hr by (by rewrite ?Hbuf).
        rewrite decide_False; [done|]. by destruct x. }
      rewrite Hrun. destruct (parse_one (buf ++ x ++ u')) as [[f tail]|]; [|exact IH].
      destruct IH as (r & b' & u'' & ? & ? & ? & ?). exists r, b', u''.
      split_and!; [done..|]. rewrite length_app. lia.
  - rewrite (parse_one_extend buf unread) by done.
    destruct (parse_one buf) as [[f rest]|e] eqn:Hp; cbn [extend]; [|by destruct e].
    rewrite run_read_frame_turn, (parse_frame_Ok _ f rest) by (by rewrite Hbuf).
    do 3 eexists. split; [done|]. destruct Hs as (_ & chunks & Hc & Hne & Hu).
    split; [|done]. split; [done|]. by exists chunks.
Qed.
End frames.

(** ** Replies queued *)

Section replies.
Context {R S : Type} `{Read R} `{Execute S}.
Implicit Types w : World R S.

Definition own_queue_open w : Prop :=
  is_open (cn_queues (w_channels w)) (rh_sender (w_rh w)) = true.

(** The world with [bs] at the end of the session's own queue. *)
Definition queued (bs : bytes) w : World R S :=
  put (lens_comp channelsL queuesL)
    (alter (push bs) (rh_sender (w_rh w)) (cn_queues (w_channels w))) w.

Lemma run_send bs w :
  run (send bs) w =
  if is_open (cn_queues (w_channels w)) (rh_sender (w_rh w)) then Some (Ok (), queued bs w)
  else Some (Err (mkSendError bs), w).
Proof.
  unfold send. rewrite run_bind. unfold self. rewrite !run_atomic. unfold m_zoom, Mpsc.send.
  cbn [view lens_comp channelsL queuesL].
  destruct (is_open _ _); [done|]. by destruct w as [? [? ?] ? ?].
Qed.

Lemma queued_own_open bs w : own_queue_open w -> own_queue_open (queued bs w).
Proof. unfold own_queue_open. cbn. by rewrite is_open_alter_push. Qed.

Lemma run_reply_or_break {E} bs w :
  run (reply_or_break (E := E) bs) w =
  if is_open (cn_queues (w_channels w)) (rh_sender (w_rh w)) then Some (Ok Continue, queued bs w)
  else Some (Ok (Break (Err (RhSend (mkSendError bs)))), w).
Proof.
  unfold reply_or_break, catch. rewrite run_bind, run_then, run_send.
  by destruct (is_open _ _).
Qed.

(** A frame that is no command: answered, and on to the next. *)
Lemma run_read_command_refused (clk : Lens S Clock) reads fuel w f w1 e c :
  run (read_frame reads) w = Some (Ok (Some f), w1) ->
  try_from f (view clk (w_exec w1)) = (Err e, c) ->
  let text := to_bytes (RSimpleError (sanitized (bstr "ERR " ++ display_CommandFromFrameError e))) in
  let w2 := put (lens_comp execL clk) c w1 in
  run (read_command clk reads (Datatypes.S fuel)) w =
    if is_open (cn_queues (w_channels w1)) (rh_sender (w_rh w1))
    then run (read_command clk reads fuel) (queued text w2)
    else Some (Err (RhSend (mkSendError text)), w2).
Proof.
  intros Hr Ht. cbv zeta. cbn [read_command]. unfold catch. rewrite run_bind, Hr.
  rewrite run_bind, run_then, run_atomic. unfold m_zoom at 1.
  cbn [view lens_comp execL]. rewrite Ht. cbn [run].
  rewrite run_bind, run_map_err, run_send.
  change (w_channels (put _ _ w1)) with (w_channels w1).
  change (rh_sender (w_rh (put _ _ w1))) with (rh_sender (w_rh w1)).
  by destruct (is_open _ _).
Qed.

(** A frame that is one. *)
Lemma run_read_command_lifted (clk : Lens S Clock) reads fuel w f w1 cmd c :
  run (read_frame reads) w = Some (Ok (Some f), w1) ->
  try_from f (view clk (w_exec w1)) = (Ok cmd, c) ->
  run (read_command clk reads (Datatypes.S fuel)) w =
    Some (Ok (Some cmd), put (lens_comp execL clk) c w1).
Proof.
  intros Hr Ht. cbn [read_command]. unfold catch. rewrite run_bind, Hr.
  rewrite run_bind, run_then, run_atomic. unfold m_zoom at 1.
  cbn [view lens_comp execL]. by rewrite Ht.
Qed.

(** A turn of the loop, by what it reads. *)
Lemma run_repl_turn {E : Type} (clk : Lens S Clock)
    (order : Subscribers -> list (N * Sender)) (iter : gset bytes -> list bytes) w reads fuel r w1 :
  w_shutdown w = false -> run (read_command clk reads fuel) w = Some (r, w1) ->
  let turn := run (repl_turn (E := E) clk order iter reads fuel) w in
  match r with
  | Ok (Some (Command.Cache cc)) =>
      forall res s', run (execute_logged cc) (w_exec w1) = Some (res, s') ->
      own_queue_open w1 ->
      turn = match res with
             | Ok out => Some (Ok Continue,
                 queued (to_bytes (Reply_from_CommandOutcome out)) (put execL s' w1))
             | Err e => Some (Ok (Break (Err (RhExecutor e))), put execL s' w1)
             end
  | Ok (Some (Channel cmd)) =>
      forall res w2, run (execute_channel_command order iter cmd) w1 = Some (res, w2) ->
      own_queue_open w2 ->
      turn = match res with
             | Ok out => Some (Ok Continue,
                 queued (Replies_to_bytes (Replies_from_ChannelCommandOutcome out)) w2)
             | Err e => Some (Ok (Break (Err (RhExecutor (ExChannels e)))), w2)
             end
  | Ok (Some (Ping message)) =>
      own_queue_open w1 ->
      turn = Some (Ok Continue, queued (to_bytes (Reply_from_CommandOutcome (CoPong message))) w1)
  | Ok None => turn = Some (Ok (Break (Ok ())), w1)
  | Err (RhIo e) =>
      turn = Some (Ok (if decide (io_kind e = TimedOut \/ io_kind e = WouldBlock) then Continue
                       else Break (Err (RhIo e))), w1)
  | Err e => turn = Some (Ok (Break (Err e)), w1)
  end.
Proof.
  cbv zeta. unfold repl_turn, catch.
  intros Hs Hr. rewrite run_bind, run_atomic, Hs. rewrite run_bind, run_then, Hr. cbn [run].
  destruct r as [[[cc|cmd|message]|]|[e|e|e]].
  - intros res s' He Ho. rewrite run_bind, run_then, run_zoom. cbn [view execL]. rewrite He.
    cbn [run]. destruct res as [out|e]; [|done]. rewrite run_reply_or_break.
    change (w_channels (put execL s' w1)) with (w_channels w1).
    change (rh_sender (w_rh (put execL s' w1))) with (rh_sender (w_rh w1)). by rewrite Ho.
  - intros res w2 He Ho. rewrite run_bind, run_then, He. cbn [run].
    destruct res as [out|e]; [|done]. by rewrite run_reply_or_break, Ho.
  - intros Ho. by rewrite run_reply_or_break, Ho.
  - done.
  - by case_decide.
  - done.
  - done.
Qed.
End replies.

(** Several frames, one after the other. *)
Fixpoint read_frames {S} (k fuel : nat) : prog (World Script S) ReadHalfError (list (option Frame)) :=
  match k with
  | O => mret []
  | Datatypes.S k' =>
      frame ← read_frame fuel;
      frames ← read_frames k' fuel;
      mret (frame :: frames)
  end.

(** ** The session's channels *)

Definition join (id : bytes) (subs : gset bytes) : gset bytes := {[ id ]} ∪ subs.
Definition part (id : bytes) (subs : gset bytes) : gset bytes := subs ∖ {[ id ]}.

(** One entry per channel: its name, and how many channels the session is in once
    it has been handled. *)
Fixpoint acks (f : bytes -> gset bytes -> gset bytes) (ids : list bytes) (subs : gset bytes)
  : list SubUnsubInnerEntry :=
  match ids with
  | [] => []
  | id :: ids =>
      SubUnsubInnerEntry_new id (N.of_nat (size (f id subs))) :: acks f ids (f id subs)
  end.

Lemma fold_join ids subs :
  fold_left (fun subs ch => join ch subs) ids subs = list_to_set ids ∪ subs.
Proof.
  revert subs. induction ids as [|id ids IH]; intros subs; cbn [fold_left list_to_set]; [set_solver|].
  rewrite IH. unfold join. set_solver.
Qed.
Lemma fold_part ids subs :
  fold_left (fun subs ch => part ch subs) ids subs = subs ∖ list_to_set ids.
Proof.
  revert subs. induction ids as [|id ids IH]; intros subs; cbn [fold_left list_to_set]; [set_solver|].
  rewrite IH. unfold part. set_solver.
Qed.

Lemma subscribed_leave_all id chs reg ch id' :
  subscribed (fold_left (fun reg ch => leave ch id reg) chs reg) ch id' =
  if decide (id' = id /\ ch ∈ chs) then None else subscribed reg ch id'.
Proof.
  revert reg. induction chs as [|ch' chs IH]; intros reg; cbn [fold_left].
  - rewrite decide_False; [done|]. intros [_ H']. by apply not_elem_of_nil in H'.
  - rewrite IH, subscribed_leave.
    destruct (decide (id' = id /\ ch ∈ ch' :: chs)) as [Hd|Hd]; rewrite elem_of_cons in Hd;
      repeat case_decide; naive_solver.
Qed.

Lemma leave_all_no_empty id chs reg :
  no_empty reg -> no_empty (fold_left (fun reg ch => leave ch id reg) chs reg).
Proof.
  revert reg. induction chs as [|ch chs IH]; intros reg Hr; cbn [fold_left]; [done|].
  by apply IH, leave_no_empty.
Qed.
Section channels.
Context {R S : Type} `{Read R} `{Execute S}.
Context (order : Subscribers -> list (N * Sender)) (iter : gset bytes -> list bytes).
Implicit Types w : World R S.

(** The registry has this session, with its sender, in exactly the channels of its
    set, and its lock is available. *)
Definition in_sync w : Prop :=
  exists qs reg, w_channels w = channels_at qs reg /\ no_empty reg /\
    forall ch, subscribed reg ch (rh_id (w_rh w)) =
      if decide (ch ∈ rh_subscriptions (w_rh w)) then Some (rh_sender (w_rh w)) else None.

(** [w'] is [w] but for this session's subscriptions, in its set and in the
    registry, and for what is in the queues. *)
Definition only_own w w' : Prop :=
  rh_id (w_rh w') = rh_id (w_rh w) /\ rh_sender (w_rh w') = rh_sender (w_rh w) /\
  rh_reader (w_rh w') = rh_reader (w_rh w) /\ w_exec w' = w_exec w /\
  w_shutdown w' = w_shutdown w /\
  forall ch id, id <> rh_id (w_rh w) ->
    subscribed (guarded (cn_channels (w_channels w'))) ch id =
    subscribed (guarded (cn_channels (w_channels w))) ch id.

Lemma only_own_refl w : only_own w w.
Proof. by split_and!. Qed.

Lemma only_own_trans w1 w2 w3 : only_own w1 w2 -> only_own w2 w3 -> only_own w1 w3.
Proof.
  intros (H1 & H2 & H3 & H4 & H5 & H6) (G1 & G2 & G3 & G4 & G5 & G6).
  split_and!; [congruence..|]. intros ch id Hid. rewrite G6 by congruence. by apply H6.
Qed.

(** The world after one [subscribe] or [unsubscribe] of the session's. *)
Definition joined (ch : bytes) w : World R S :=
  let reg := guarded (cn_channels (w_channels w)) in
  mkWorld (set_subscriptions ({[ ch ]} ∪ rh_subscriptions (w_rh w)) (w_rh w))
    (channels_at (cn_queues (w_channels w))
       (<[ch := <[rh_id (w_rh w) := rh_sender (w_rh w)]> (default ∅ (reg !! ch))]> reg))
    (w_exec w) (w_shutdown w).
Definition left_channel (ch : bytes) w : World R S :=
  mkWorld (set_subscriptions (rh_subscriptions (w_rh w) ∖ {[ ch ]}) (w_rh w))
    (channels_at (cn_queues (w_channels w))
       (leave ch (rh_id (w_rh w)) (guarded (cn_channels (w_channels w)))))
    (w_exec w) (w_shutdown w).

Lemma joined_sync ch w : in_sync w -> in_sync (joined ch w) /\ only_own w (joined ch w).
Proof.
  intros (qs & reg & Hw & Hne & Hs). unfold joined. rewrite Hw. cbn [guarded cn_channels channels_at
    mutex_new cn_queues]. split.
  - do 2 eexists. split; [reflexivity|]. split; [by apply subscribe_no_empty|]. intros ch'.
    rewrite subscribed_insert. cbn. rewrite Hs. destruct (decide (ch' = ch)) as [->|Hn].
    + rewrite decide_True, decide_True; [done|set_solver|done].
    + rewrite decide_False by tauto. apply decide_ext. set_solver.
  - split_and!; try done. intros ch' id Hid. rewrite Hw. cbn. rewrite subscribed_insert.
    by rewrite decide_False by tauto.
Qed.

Lemma left_sync ch w : in_sync w -> in_sync (left_channel ch w) /\ only_own w (left_channel ch w).
Proof.
  intros (qs & reg & Hw & Hne & Hs). unfold left_channel. rewrite Hw. cbn [guarded cn_channels
    channels_at mutex_new cn_queues]. split.
  - do 2 eexists. split; [reflexivity|]. split; [by apply leave_no_empty|]. intros ch'.
    rewrite subscribed_leave. cbn. rewrite Hs. destruct (decide (ch' = ch)) as [->|Hn].
    + rewrite decide_True, decide_False; [done|set_solver|done].
    + rewrite decide_False by tauto. apply decide_ext. set_solver.
  - split_and!; try done. intros ch' id Hid. rewrite Hw. cbn. rewrite subscribed_leave.
    by rewrite decide_False by tauto.
Qed.

Lemma run_subscribe_each ids w :
  in_sync w ->
  run (subscribe_each ids) w =
    Some (Ok (acks join ids (rh_subscriptions (w_rh w))),
          fold_left (fun w ch => joined ch w) ids w).
Proof.
  revert w. induction ids as [|id ids IH]; intros w Hw; cbn [subscribe_each fold_left]; [done|].
  destruct (joined_sync id w Hw) as [Hj _].
  destruct Hw as (qs & reg & Hw & _). rewrite run_bind. unfold self. rewrite run_atomic.
  rewrite run_bind, run_zoom. cbn [view channelsL]. rewrite Hw, run_subscribe.
  rewrite run_bind. unfold update_subscriptions. rewrite run_atomic. rewrite run_bind.
  match goal with |- context [run (subscribe_each ids) ?w'] =>
    replace w' with (joined id w) by (unfold joined; rewrite Hw; done) end.
  rewrite IH by done. done.
Qed.

Lemma run_unsubscribe_each ids w :
  in_sync w ->
  run (unsubscribe_each ids) w =
    Some (Ok (acks part ids (rh_subscriptions (w_rh w))),
          fold_left (fun w ch => left_channel ch w) ids w).
Proof.
  revert w. induction ids as [|id ids IH]; intros w Hw; cbn [unsubscribe_each fold_left]; [done|].
  destruct (left_sync id w Hw) as [Hj _].
  destruct Hw as (qs & reg & Hw & _). rewrite run_bind. unfold self. rewrite run_atomic.
  rewrite run_bind, run_zoom. cbn [view channelsL]. rewrite Hw, run_unsubscribe.
  rewrite run_bind. unfold update_subscriptions. rewrite run_atomic. rewrite run_bind.
  match goal with |- context [run (unsubscribe_each ids) ?w'] =>
    replace w' with (left_channel id w) by (unfold left_channel; rewrite Hw; done) end.
  rewrite IH by done. done.
Qed.

Lemma fold_sync (step : bytes -> World R S -> World R S) ids w :
  (forall ch w, in_sync w -> in_sync (step ch w) /\ only_own w (step ch w)) ->
  in_sync w ->
  in_sync (fold_left (fun w ch => step ch w) ids w) /\
  only_own w (fold_left (fun w ch => step ch w) ids w).
Proof.
  intros Hstep. revert w. induction ids as [|id ids IH]; intros w Hw; cbn [fold_left].
  - split; [done|apply only_own_refl].
  - destruct (Hstep id w Hw) as [Hw1 Ho1]. destruct (IH _ Hw1) as [Hw2 Ho2].
    split; [done|]. by eapply only_own_trans.
Qed.

Lemma fold_subscriptions (step : bytes -> World R S -> World R S) f ids w :
  (forall ch w, rh_subscriptions (w_rh (step ch w)) = f ch (rh_subscriptions (w_rh w))) ->
  rh_subscriptions (w_rh (fold_left (fun w ch => step ch w) ids w)) =
  fold_left (fun subs ch => f ch subs) ids (rh_subscriptions (w_rh w)).
Proof.
  intros Hf. revert w. induction ids as [|id ids IH]; intros w; cbn [fold_left]; [done|].
  by rewrite IH, Hf.
Qed.

Lemma run_unsubscribe_all id chs qs reg w :
  w_channels w = channels_at qs reg ->
  run (unsubscribe_all id chs) w =
    Some (Ok (map (fun _ => Ok ()) chs),
          put channelsL (channels_at qs (fold_left (fun reg ch => leave ch id reg) chs reg)) w).
Proof.
  revert reg w. induction chs as [|ch chs IH]; intros reg w Hw; cbn [unsubscribe_all fold_left map].
  - cbn. rewrite <- Hw. by destruct w.
  - unfold catch. rewrite run_bind, run_then, run_zoom. cbn [view channelsL].
    rewrite Hw, run_unsubscribe. cbn [run]. rewrite run_bind, (IH (leave ch id reg)) by done.
    done.
Qed.

End channels.

(** ** Properties *)

(** What there is to read in bytes: the frames at their front, one by one, [None] where
    they end before a frame does; and what is left.  Nothing, when the bytes at the
    front are no frame and no beginning of one. *)
Fixpoint frames_of (k : nat) (bs : bytes) : option (list (option Frame) * bytes) :=
  match k with
  | O => Some ([], bs)
  | Datatypes.S k' =>
      match parse_one bs with
      | Ok (f, rest) => '(fs, tail) ← frames_of k' rest; Some (Some f :: fs, tail)
      | Err Incomplete => '(fs, tail) ← frames_of k' bs; Some (None :: fs, tail)
      | Err _ => None
      end
  end.

Lemma frames_of_encode fs tail :
  Forall Frame_wf fs -> frames_of (length fs) (concat (map encode fs) ++ tail) = Some (map Some fs, tail).
Proof.
  induction 1 as [|f fs Hf Hwf IH]; [done|]. cbn [length map concat frames_of].
  by rewrite <- app_assoc, parse_one_encode, IH.
Qed.

Lemma run_read_frames {S} k fuel (w : World Script S) buf unread frames tail :
  stream (rh_reader (w_rh w)) buf unread -> length unread < fuel ->
  frames_of k (buf ++ unread) = Some (frames, tail) ->
  exists r buf' unread', run (read_frames k fuel) w = Some (Ok frames, with_reader r w) /\
    stream r buf' unread' /\ buf' ++ unread' = tail.
Proof.
  revert w buf unread frames. induction k as [|k IH]; intros w buf unread frames Hs Hl Hf.
  - injection Hf as <- <-. exists (rh_reader (w_rh w)), buf, unread.
    split_and!; [|done..]. by destruct w as [[] ? ? ?].
  - cbn [frames_of read_frames] in *. pose proof (run_read_frame_stream fuel w buf unread Hs Hl) as Hr.
    destruct (parse_one (buf ++ unread)) as [[f rest]|[]]; try discriminate Hf.
    + destruct (frames_of k rest) as [[fs tail']|] eqn:Hk; [|done]. injection Hf as <- <-.
      destruct Hr as (r & buf1 & u1 & Hr & Hs1 & He1 & Hl1). rewrite <- He1 in Hk.
      destruct (IH (with_reader r w) buf1 u1 fs Hs1 ltac:(lia) Hk) as (r2 & buf2 & u2 & Hr2 & Hs2 & He2).
      exists r2, buf2, u2. split_and!; [|done..]. by rewrite run_bind, Hr, run_bind, Hr2.
    + destruct (frames_of k (buf ++ unread)) as [[fs tail']|] eqn:Hk; [|done]. injection Hf as <- <-.
      destruct Hr as (r & Hr & Hs1). rewrite <- (app_nil_r (buf ++ unread)) in Hk.
      destruct (IH (with_reader r w) (buf ++ unread) [] fs Hs1 ltac:(cbn; lia) Hk)
        as (r2 & buf2 & u2 & Hr2 & Hs2 & He2).
      exists r2, buf2, u2. split_and!; [|done..]. by rewrite run_bind, Hr, run_bind, Hr2.
Qed.

(** C9: how the bytes arrive does not matter.  Two sessions to which the same bytes
    come, any bytes, in whatever chunks their sockets give them and with any part of
    them already in the buffers, read the same first [k] frames, or [None] where the
    bytes end before a frame does: those [frames_of] finds in the bytes; they have the
    same bytes left, and nothing else of their worlds changes.  When the bytes are the
    encodings of frames, these are the frames.  The condition is that none of the [k]
    is malformed: for the first that is, the reader throws away what it has in its
    buffer, and that does depend on the chunks. *)
Theorem chunking_irrelevant {S1 S2} (k fuel : nat) (w1 : World Script S1) (w2 : World Script S2)
    (buf1 unread1 buf2 unread2 tail : bytes) (frames : list (option Frame)) :
  stream (rh_reader (w_rh w1)) buf1 unread1 -> stream (rh_reader (w_rh w2)) buf2 unread2 ->
  buf1 ++ unread1 = buf2 ++ unread2 -> length (buf1 ++ unread1) < fuel ->
  frames_of k (buf1 ++ unread1) = Some (frames, tail) ->
  (exists r1 b1 u1 r2 b2 u2,
     run (read_frames k fuel) w1 = Some (Ok frames, with_reader r1 w1) /\
     run (read_frames k fuel) w2 = Some (Ok frames, with_reader r2 w2) /\
     stream r1 b1 u1 /\ b1 ++ u1 = tail /\ stream r2 b2 u2 /\ b2 ++ u2 = tail) /\
  (forall fs more, Forall Frame_wf fs -> k = length fs ->
     buf1 ++ unread1 = concat (map encode fs) ++ more -> frames = map Some fs /\ tail = more).
Proof.
  intros Hs1 Hs2 He Hl Hf. rewrite length_app in Hl. split.
  - pose proof (f_equal length He) as Hle. rewrite !length_app in Hle.
    destruct (run_read_frames k fuel w1 _ _ _ _ Hs1 ltac:(lia) Hf) as (r1 & b1 & u1 & ? & ? & ?).
    rewrite He in Hf.
    destruct (run_read_frames k fuel w2 _ _ _ _ Hs2 ltac:(lia) Hf) as (r2 & b2 & u2 & ? & ? & ?).
    by exists r1, b1, u1, r2, b2, u2.
  - intros fs more Hwf -> Hb. rewrite Hb, frames_of_encode in Hf by done. by injection Hf.
Qed.

(** A [PING], a bulk string whose length has a zero in front, and the start of a third
    frame, in three reads and in one. *)
Definition chunked_bytes : bytes :=
  encode (Array [BulkString (bstr "PING")]) ++ bstr "$03" ++ crlf ++ bstr "foo" ++ crlf ++ bstr "*1".
Definition chunked_world (chunks : list bytes) : World Script unit :=
  mkWorld (mkReadHalf 1%N (SessionReader_new (map Ok chunks)) 1%N ∅) (channels_new ∅) tt false.

Lemma chunking_irrelevant_witness :
  let frames := [Some (Array [BulkString (bstr "PING")]); Some (BulkString (bstr "foo")); None] in
  let w1 := chunked_world [take 5 chunked_bytes; take 12 (drop 5 chunked_bytes); drop 17 chunked_bytes] in
  let w2 := chunked_world [chunked_bytes] in
  exists r1 r2, run (read_frames 3 100) w1 = Some (Ok frames, with_reader r1 w1) /\
    run (read_frames 3 100) w2 = Some (Ok frames, with_reader r2 w2).
Proof.
  cbv zeta.
  destruct (chunking_irrelevant 3 100
    (chunked_world [take 5 chunked_bytes; take 12 (drop 5 chunked_bytes); drop 17 chunked_bytes])
    (chunked_world [chunked_bytes]) [] chunked_bytes [] chunked_bytes (bstr "*1")
    [Some (Array [BulkString (bstr "PING")]); Some (BulkString (bstr "foo")); None])
    as [(r1 & b1 & u1 & r2 & b2 & u2 & H1 & H2 & _) _].
  - split; [reflexivity|]. eexists [_; _; _]. split; [reflexivity|]. split.
    + repeat constructor; vm_compute; congruence.
    + vm_compute. reflexivity.
  - split; [reflexivity|]. eexists [_]. split; [reflexivity|]. split.
    + repeat constructor; vm_compute; congruence.
    + vm_compute. reflexivity.
  - reflexivity.
  - vm_compute. lia.
  - vm_compute. reflexivity.
  - exists r1, r2. split; [exact H1|exact H2].
Defined.

(** C30: bad input is answered and skipped.  A malformed frame costs the buffer and
    one [-ERR] reply, a frame that is no command one [-ERR] reply; the reading goes
    on either way, as if the bad input had not been there, and the reply is a
    well-formed frame whatever the error's text is.  When the reply cannot be
    queued the loop stops with that error. *)
Theorem bad_input_answered {R S} `{Read R} `{Execute S} (clk : Lens S Clock)
    (w : World R S) (reads fuel : nat) :
  let text := fun bs => to_bytes (RSimpleError (sanitized (bstr "ERR " ++ bs))) in
  (forall e, parse_one (sr_buf (rh_reader (w_rh w))) = Err e -> e <> Incomplete ->
     let w1 := put (lens_comp rhL readerL)
                 (mkSessionReader (sr_inner (rh_reader (w_rh w))) []) w in
     run (read_frame (Datatypes.S fuel)) w =
       if is_open (cn_queues (w_channels w)) (rh_sender (w_rh w))
       then run (read_frame fuel) (queued (text (display_FrameError e)) w1)
       else Some (Err (RhSend (mkSendError (text (display_FrameError e)))), w1)) /\
  (forall f w1 e c, run (read_frame reads) w = Some (Ok (Some f), w1) ->
     try_from f (view clk (w_exec w1)) = (Err e, c) ->
     let w2 := put (lens_comp execL clk) c w1 in
     run (read_command clk reads (Datatypes.S fuel)) w =
       if is_open (cn_queues (w_channels w1)) (rh_sender (w_rh w1))
       then run (read_command clk reads fuel) (queued (text (display_CommandFromFrameError e)) w2)
       else Some (Err (RhSend (mkSendError (text (display_CommandFromFrameError e)))), w2)) /\
  (forall bs, Reply_wf (RSimpleError (sanitized (bstr "ERR " ++ bs)))).
Proof.
  cbv zeta. split_and!.
  - intros e Hp He. cbn [read_frame]. unfold catch. rewrite run_bind, run_then, run_atomic.
    unfold m_zoom at 1. cbn [view lens_comp rhL readerL]. unfold parse_frame. rewrite Hp.
    rewrite decide_False by done. cbn [run].
    destruct e; try done; (rewrite run_bind, run_map_err, run_send;
      change (w_channels (put _ _ w)) with (w_channels w);
      change (rh_sender (w_rh (put _ _ w))) with (rh_sender (w_rh w));
      by destruct (is_open _ _)).
  - intros f w1 e c. apply run_read_command_refused.
  - intros bs. constructor. apply sanitized_clean.
Qed.

(** C19: [SUBSCRIBE] and [UNSUBSCRIBE] keep a session's own set and the registry in
    agreement.  Take a state in which they agree: the registry's lock is free, it lists
    the session in the channels of its set and in no other, and it has no empty channel.
    From there the two commands succeed and lead to such a state again, touch no other
    session's subscriptions, and leave the set one expects; the acknowledgements
    are one per channel, in order, each with the size of the set at that point.
    [UNSUBSCRIBE] of nothing means every channel, and is acknowledged once without
    a channel when there is none.  ([PUBLISH] is not among these: it can leave a
    channel without subscribers; what it does is in Channels.v.) *)
Theorem session_channels_agree {R S} `{Read R} `{Execute S}
    (order : Subscribers -> list (N * Sender)) (iter : gset bytes -> list bytes)
    (w : World R S) (ids : list bytes) :
  in_sync w -> (forall s, iter s ≡ₚ elements s) ->
  let subs := rh_subscriptions (w_rh w) in
  (exists w', run (execute_channel_command order iter (Subscribe ids)) w =
     Some (Ok (CcoSubscribe (acks join ids subs)), w') /\
     in_sync w' /\ only_own w w' /\ rh_subscriptions (w_rh w') = list_to_set ids ∪ subs) /\
  (ids <> [] -> exists w', run (execute_channel_command order iter (Unsubscribe ids)) w =
     Some (Ok (CcoUnsubscribe (acks part ids subs)), w') /\
     in_sync w' /\ only_own w w' /\ rh_subscriptions (w_rh w') = subs ∖ list_to_set ids) /\
  (subs = ∅ -> run (execute_channel_command order iter (Unsubscribe [])) w =
     Some (Ok (CcoUnsubscribe [mkSubUnsub None 0]), w)) /\
  (subs <> ∅ -> exists w', run (execute_channel_command order iter (Unsubscribe [])) w =
     Some (Ok (CcoUnsubscribe (acks part (iter subs) subs)), w') /\
     in_sync w' /\ only_own w w' /\ rh_subscriptions (w_rh w') = ∅).
Proof.
  intros Hw Hiter. cbv zeta. set (subs := rh_subscriptions (w_rh w)).
  assert (Hun : forall ids, exists w', run (unsubscribe_each ids) w = Some (Ok (acks part ids subs), w') /\
     in_sync w' /\ only_own w w' /\ rh_subscriptions (w_rh w') = subs ∖ list_to_set ids).
  { intros l. eexists. split; [by apply run_unsubscribe_each|].
    destruct (fold_sync left_channel l w left_sync Hw) as [? ?]. split_and!; [done..|].
    rewrite (fold_subscriptions left_channel part) by done. apply fold_part. }
  assert (Helem : forall s, elements s = [] <-> s = ∅ :> gset bytes).
  { intros s. split; [intros Hs%elements_empty_inv; by apply leibniz_equiv|].
    intros ->. apply elements_empty. }
  assert (Hnil : forall s, iter s = [] <-> s = ∅).
  { intros s. rewrite <- Helem. specialize (Hiter s). split; intros He; rewrite He in Hiter.
    - by apply Permutation_nil in Hiter.
    - by apply Permutation_nil; symmetry. }
  split_and!.
  - unfold execute_channel_command. eexists. rewrite run_bind, run_subscribe_each by done.
    split; [reflexivity|]. destruct (fold_sync joined ids w joined_sync Hw) as [? ?].
    split_and!; [done..|]. rewrite (fold_subscriptions joined join) by done. apply fold_join.
  - intros Hne. destruct (Hun ids) as (w' & Hr & Hs). exists w'. split; [|done].
    unfold execute_channel_command. rewrite run_bind. unfold self. rewrite run_atomic.
    cbv zeta. rewrite !(decide_False (P := ids = [])) by done. by rewrite run_bind, Hr.
  - intros He. unfold execute_channel_command. rewrite run_bind. unfold self. rewrite run_atomic.
    cbv zeta. rewrite (decide_True (P := [] = [])) by done. fold subs.
    rewrite decide_True by by apply Hnil.
    by rewrite He.
  - intros Hne. destruct (Hun (iter subs)) as (w' & Hr & Hs & Ho & Hsub). exists w'.
    split_and!; [|done|done|].
    + unfold execute_channel_command. rewrite run_bind. unfold self. rewrite run_atomic.
      cbv zeta. rewrite (decide_True (P := [] = [])) by done. fold subs.
      rewrite decide_False by by rewrite Hnil.
      by rewrite run_bind, Hr.
    + rewrite Hsub, (Hiter subs). set_solver.
Qed.

(** A session in one channel, with the fake repository behind the executor. *)
Definition sample_world : World Script (Executor Recording.RecordingRepo) :=
  mkWorld (mkReadHalf 1%N (SessionReader_new []) 7%N {[ bstr "a" ]})
    (channels_at {[ 7%N := mkQueue [] true ]} {[ bstr "a" := {[ 1%N := 7%N; 2%N := 8%N ]} ]})
    (mkExecutor (cache_new (clock_at 5) ∅) (Recording.mkRecordingRepo (mutex_new []))) false.

Lemma sample_in_sync : in_sync sample_world.
Proof.
  do 2 eexists. split; [reflexivity|]. split.
  - intros ch subs H. apply lookup_singleton_Some in H as [_ <-]. apply insert_non_empty.
  - intros ch. unfold subscribed. cbn [sample_world w_rh rh_id rh_subscriptions rh_sender].
    destruct (decide (ch = bstr "a")) as [->|Hne].
    + rewrite lookup_singleton_eq, decide_True by set_solver. reflexivity.
    + by rewrite lookup_singleton_ne, decide_False by set_solver.
Qed.

Lemma session_channels_agree_witness :
  exists w', run (execute_channel_command map_to_list elements (Subscribe [bstr "b"; bstr "a"]))
      sample_world =
    Some (Ok (CcoSubscribe [mkSubUnsub (Some (bstr "b")) 2; mkSubUnsub (Some (bstr "a")) 2]), w') /\
    in_sync w'.
Proof.
  destruct (session_channels_agree map_to_list elements sample_world [bstr "b"; bstr "a"])
    as [(w' & Hr & Hs & _) _].
  - exact sample_in_sync.
  - reflexivity.
  - exists w'. split; [|exact Hs]. rewrite Hr. vm_compute. reflexivity.
Defined.

(** C25: a session that ends is gone from the registry.  From an agreeing state,
    [unsubscribe_from_all] succeeds for every channel of the set; after it no channel
    lists the session, whatever order the set is gone through in, every other
    session is subscribed as before, and no empty channel is left. *)
Theorem leaving_cleans_up {R S} `{Read R} `{Execute S} (iter : gset bytes -> list bytes)
    (w : World R S) :
  in_sync w -> (forall s, iter s ≡ₚ elements s) ->
  exists reg', run (unsubscribe_from_all iter) w =
      Some (Ok (map (fun _ => Ok ()) (iter (rh_subscriptions (w_rh w)))),
            put channelsL (channels_at (cn_queues (w_channels w)) reg') w) /\
    (forall ch, subscribed reg' ch (rh_id (w_rh w)) = None) /\
    (forall ch id, id <> rh_id (w_rh w) ->
       subscribed reg' ch id = subscribed (guarded (cn_channels (w_channels w))) ch id) /\
    no_empty reg'.
Proof.
  intros (qs & reg & Hw & Hne & Hs) Hiter. set (id := rh_id (w_rh w)) in *.
  set (subs := rh_subscriptions (w_rh w)) in *.
  exists (fold_left (fun reg ch => leave ch id reg) (iter subs) reg). split_and!.
  - unfold unsubscribe_from_all. rewrite run_bind. unfold self. rewrite run_atomic.
    rewrite (run_unsubscribe_all id _ qs reg) by done. by rewrite Hw.
  - intros ch. rewrite subscribed_leave_all. case_decide as Hd; [done|].
    rewrite Hs. rewrite decide_False; [done|]. intros Hin. apply Hd. split; [done|].
    rewrite (Hiter subs). by apply elem_of_elements.
  - intros ch id' Hid. rewrite subscribed_leave_all, decide_False by tauto. by rewrite Hw.
  - by apply leave_all_no_empty.
Qed.

Lemma leaving_cleans_up_witness :
  exists reg', run (unsubscribe_from_all elements) sample_world =
      Some (Ok [Ok ()], put channelsL (channels_at {[ 7%N := mkQueue [] true ]} reg') sample_world) /\
    subscribed reg' (bstr "a") 1%N = None /\ subscribed reg' (bstr "a") 2%N = Some 8%N.
Proof.
  destruct (leaving_cleans_up elements sample_world sample_in_sync) as (reg' & Hr & H1 & H2 & _).
  - reflexivity.
  - exists reg'. split; [|split].
    + rewrite Hr. vm_compute. reflexivity.
    + apply H1.
    + rewrite H2 by (vm_compute; congruence). vm_compute. reflexivity.
Defined.

(** One reply per command.  A turn of the loop that reads a command runs it once
    and, when it succeeds, queues exactly one buffer on the session's own queue: the
    reply to the outcome.  A command that fails is not answered and ends the
    session with that error.  A read that timed out leaves the session as it is,
    the end of the stream ends it cleanly, and once the shutdown flag is set nothing
    is read any more. *)
Theorem one_reply_per_command {R S} `{Read R} `{Execute S} (clk : Lens S Clock)
    (order : Subscribers -> list (N * Sender)) (iter : gset bytes -> list bytes)
    (w : World R S) (reads fuel : nat) :
  let turn := run (repl_turn (E := ChannelsError) clk order iter reads fuel) w in
  (w_shutdown w = true -> turn = Some (Ok (Break (Ok ())), w)) /\
  (w_shutdown w = false -> forall r w1, run (read_command clk reads fuel) w = Some (r, w1) ->
   match r with
   | Ok (Some (Command.Cache cc)) =>
       forall res s', run (execute_logged cc) (w_exec w1) = Some (res, s') ->
       own_queue_open w1 ->
       turn = match res with
              | Ok out => Some (Ok Continue,
                  queued (to_bytes (Reply_from_CommandOutcome out)) (put execL s' w1))
              | Err e => Some (Ok (Break (Err (RhExecutor e))), put execL s' w1)
              end
   | Ok (Some (Channel cmd)) =>
       forall res w2, run (execute_channel_command order iter cmd) w1 = Some (res, w2) ->
       own_queue_open w2 ->
       turn = match res with
              | Ok out => Some (Ok Continue,
                  queued (Replies_to_bytes (Replies_from_ChannelCommandOutcome out)) w2)
              | Err e => Some (Ok (Break (Err (RhExecutor (ExChannels e)))), w2)
              end
   | Ok (Some (Ping message)) =>
       own_queue_open w1 ->
       turn = Some (Ok Continue, queued (to_bytes (Reply_from_CommandOutcome (CoPong message))) w1)
   | Ok None => turn = Some (Ok (Break (Ok ())), w1)
   | Err (RhIo e) =>
       turn = Some (Ok (if decide (io_kind e = TimedOut \/ io_kind e = WouldBlock) then Continue
                        else Break (Err (RhIo e))), w1)
   | Err e => turn = Some (Ok (Break (Err e)), w1)
   end).
Proof.
  cbv zeta. split.
  - intros Hs. unfold repl_turn. rewrite run_bind, run_atomic, Hs. done.
  - intros Hs r w1 Hr. by apply (run_repl_turn clk order iter w reads fuel r w1).
Qed.
