(* ===== verification/Answers.v ===== *)
(** * Answers: the bytes a command is answered with

    From the command to the reply on the wire, through a whole turn of the session's
    loop: what a cache command says of the keys there are, the acknowledgements of
    [SUBSCRIBE] and [UNSUBSCRIBE] with their running counts, the count of [PUBLISH]. *)

From S2P Require Import Prelude Effects RustStd Time Crlf Command Frame CommandFrame.
From S2P Require Import Cache CacheSpec Mpsc Channels Ports Executor Reply Inbound Session SessionSpec.

Local Open Scope N_scope.

(** ** Bytes *)

Definition bulk (b : bytes) : bytes :=
  bstr "$" ++ display_N (N.of_nat (length b)) ++ crlf ++ b ++ crlf.
Definition no_value : bytes := bstr "$-1" ++ crlf.
(** A count; none there can be is clamped at [i64::MAX]. *)
Definition int_line (n : N) : bytes := bstr ":" ++ display_N (N.min n (Z.to_N i64_max)) ++ crlf.
Definition yes_no (b : bool) : bytes := if b then bstr ":1" ++ crlf else bstr ":0" ++ crlf.

(** The answer to a cache command, [a] being the keys there are, and [t'] the time a
    [TTL] counts from. *)
Definition cache_answer (t' : Milliseconds) (cmd : CacheCommand) (a : CacheMap) : bytes :=
  match cmd with
  | CacheRead (RGet key) =>
      match a !! key with Some e => bulk (entry_value e) | None => no_value end
  | CacheRead (RExists key) => yes_no (bool_decide (is_Some (a !! key)))
  | CacheRead (RTtl key) =>
      match entry_expires_at <$> a !! key with
      | None => bstr ":-2" ++ crlf
      | Some None => bstr ":-1" ++ crlf
      | Some (Some d) => int_line (u64_div_ceil (millis d - millis t') 1000)
      end
  | CacheWrite (WSet _ _ _) => bstr "+OK" ++ crlf
  | CacheWrite (WDelete key) | CacheWrite (WExpireAt key _) => yes_no (bool_decide (is_Some (a !! key)))
  | CacheWrite (WPersist key) =>
      yes_no (bool_decide (is_Some (e ← a !! key; entry_expires_at e)))
  end.

(** Acknowledgements, one for each channel, with the number of channels the session is
    in by then. *)
Fixpoint ack_lines (verb : bytes) (f : bytes -> gset bytes -> gset bytes) (chs : list bytes)
    (subs : gset bytes) : bytes :=
  match chs with
  | [] => []
  | ch :: chs =>
      let subs := f ch subs in
      bstr "*3" ++ crlf ++ bulk verb ++ bulk ch ++ int_line (N.of_nat (size subs)) ++
      ack_lines verb f chs subs
  end.
Definition nothing_to_leave : bytes :=
  bstr "*3" ++ crlf ++ bulk (bstr "unsubscribe") ++ no_value ++ bstr ":0" ++ crlf.

(** ** Outcomes *)

Lemma int_line_clamped n : to_bytes (RInteger (i64_try_from_or_max n)) = int_line n.
Proof.
  unfold int_line, i64_try_from_or_max. cbn [to_bytes].
  assert (Hd : forall k, display_Z (Z.of_N k) = display_N k) by by intros [].
  case_decide as Hc.
  - rewrite Hd, N.min_l; [done|]. unfold i64_max in *. lia.
  - rewrite N.min_r by (unfold i64_max in *; lia). done.
Qed.

Lemma act_answer t' cmd a :
  to_bytes (Reply_from_CommandOutcome (Spec.act t' cmd a).1) = cache_answer t' cmd a.
Proof.
  destruct cmd as [[key|key|key]|[key v d|key|key d|key]]; cbn [Spec.act fst cache_answer].
  - by destruct (a !! key).
  - by destruct (a !! key).
  - destruct (a !! key) as [[v [d|]]|]; [|done..].
    cbn [fmap option_fmap option_map entry_expires_at Reply_from_CommandOutcome].
    apply int_line_clamped.
  - done.
  - by destruct (a !! key).
  - by destruct (a !! key).
  - by destruct (a !! key) as [[v [d|]]|].
Qed.

Lemma ack_lines_replies verb f chs subs :
  concat (map to_bytes (map (ack_reply verb) (acks f chs subs))) = ack_lines verb f chs subs.
Proof.
  revert subs. induction chs as [|ch chs IH]; intros subs; [done|].
  cbn [acks map concat ack_lines]. rewrite IH, <- int_line_clamped.
  unfold ack_reply. cbn [to_bytes map concat length su_channel_id SubUnsubInnerEntry_new channel_reply
    subscription_count]. change (display_N (N.of_nat 3)) with (bstr "3").
  unfold bulk. by rewrite app_nil_r, <- !app_assoc.
Qed.

(** ** Turns *)

Section turns.
Context {R Rp : Type} `{Read R} `{CacheRepository Rp} (clk : Lens (Executor Rp) Clock).
Context (order : Subscribers -> list (N * Sender)) (iter : gset bytes -> list bytes).
Context (order_perm : forall subs, order subs ≡ₚ map_to_list subs).
Context (iter_perm : forall s, iter s ≡ₚ elements s).
Implicit Types w : World R (Executor Rp).

(** The repository before and after a command that succeeds. *)
Definition recorded_by (cmd : CacheCommand) (r r' : Rp) : Prop :=
  match cmd with
  | CacheRead _ => r' = r
  | CacheWrite wc => run (append wc) r = Some (Ok (), r')
  end.

Lemma run_execute_logged_answer cmd c m r r' :
  steady_clock c -> not_stale (next_reading c) cmd m -> recorded_by cmd r r' ->
  exists out c' m', run (execute_logged cmd) (mkExecutor (cache_new c m) r) =
      Some (Ok out, mkExecutor (cache_new c' m') r') /\
    to_bytes (Reply_from_CommandOutcome out) =
      cache_answer (second_reading c) cmd (live (next_reading c) m).
Proof.
  intros Hc Hs Hr. destruct (execute_simulates c m m Hc eq_refl cmd Hs) as (c' & m' & Hrun & _ & _).
  eexists _, c', m'. split; [|apply act_answer].
  cbn [execute_logged Executor_Execute]. rewrite run_execute_logged, Hrun.
  destruct cmd as [rc|wc]; cbn in Hr; [by subst|]. by rewrite Hr.
Qed.

(** Subscriptions leave the queues alone. *)
Lemma fold_queues (step : bytes -> World R (Executor Rp) -> World R (Executor Rp)) chs w :
  (forall ch w, cn_queues (w_channels (step ch w)) = cn_queues (w_channels w) /\
                rh_sender (w_rh (step ch w)) = rh_sender (w_rh w)) ->
  let w' := fold_left (fun w ch => step ch w) chs w in
  cn_queues (w_channels w') = cn_queues (w_channels w) /\ rh_sender (w_rh w') = rh_sender (w_rh w).
Proof.
  intros Hstep. revert w. induction chs as [|ch chs IH]; intros w; [done|].
  cbn [fold_left]. destruct (IH (step ch w)) as [-> ->]. apply Hstep.
Qed.

Lemma fold_own_open (step : bytes -> World R (Executor Rp) -> World R (Executor Rp)) chs w :
  (forall ch w, cn_queues (w_channels (step ch w)) = cn_queues (w_channels w) /\
                rh_sender (w_rh (step ch w)) = rh_sender (w_rh w)) ->
  own_queue_open w -> own_queue_open (fold_left (fun w ch => step ch w) chs w).
Proof. intros Hstep Ho. unfold own_queue_open. by destruct (fold_queues step chs w Hstep) as [-> ->]. Qed.

(** [UNSUBSCRIBE] of some channels, or of all. *)
Definition targets_of (chs : list bytes) (subs : gset bytes) : list bytes :=
  if decide (chs = []) then iter subs else chs.

Lemma targets_of_perm chs subs :
  if decide (chs = []) then targets_of chs subs ≡ₚ elements subs else targets_of chs subs = chs.
Proof. unfold targets_of. case_decide; [apply iter_perm|done]. Qed.

Lemma no_targets chs subs : targets_of chs subs = [] -> subs = ∅.
Proof.
  intros He. pose proof (targets_of_perm chs subs) as Ht. rewrite He in Ht.
  destruct (decide (chs = [])) as [->|]; [|by subst].
  apply leibniz_equiv, elements_empty_inv. by apply Permutation_nil.
Qed.

Lemma run_unsubscribe_command w chs :
  in_sync w ->
  let subs := rh_subscriptions (w_rh w) in
  let targets := targets_of chs subs in
  run (execute_channel_command order iter (Unsubscribe chs)) w =
    if decide (targets = [])
    then Some (Ok (CcoUnsubscribe [SubUnsubInnerEntry_new_null (N.of_nat (size subs))]), w)
    else Some (Ok (CcoUnsubscribe (acks part targets subs)),
               fold_left (fun w ch => left_channel ch w) targets w).
Proof.
  intros Hsync subs targets. unfold execute_channel_command. rewrite run_bind. unfold self.
  rewrite run_atomic. cbv zeta. fold subs. fold (targets_of chs subs). fold targets. clearbody targets.
  destruct (decide (targets = [])); [done|]. by rewrite run_bind, run_unsubscribe_each.
Qed.

(** How many a publication on [ch] counts. *)
Definition listening (qs : Queues) (reg : Registry) (ch : bytes) : N :=
  match reg !! ch with
  | Some subs => N.min (N.of_nat (size (open_subs qs subs))) u32_max
  | None => 0
  end.

Lemma count_line qs reg ch :
  Replies_to_bytes (Replies_from_ChannelCommandOutcome (CcoPublish (listening qs reg ch))) =
  int_line (listening qs reg ch).
Proof.
  unfold Replies_to_bytes. cbn [replies_inner Replies_from_ChannelCommandOutcome map concat].
  rewrite app_nil_r, <- int_line_clamped. unfold i64_try_from_or_max. rewrite decide_True; [done|].
  unfold listening, u32_max, i64_max. destruct (reg !! ch); lia.
Qed.

Lemma run_publish_command w qs reg ch msg :
  w_channels w = channels_at qs reg -> own_queue_open w ->
  exists w', run (execute_channel_command order iter (Publish ch msg)) w =
    Some (Ok (CcoPublish (listening qs reg ch)), w') /\ own_queue_open w'.
Proof.
  intros Hw Hopen.
  destruct (run_publish order (push_message ch msg) ch qs reg order_perm) as (qs' & Hrun & Hqs).
  assert (Hk : exists reg', run (Channels.publish order (push_message ch msg) ch) (channels_at qs reg) =
    Some (Ok (listening qs reg ch), channels_at qs' reg')).
  { unfold listening. rewrite Hrun. destruct (reg !! ch); by eexists. }
  destruct Hk as [reg' Hk]. exists (put channelsL (channels_at qs' reg') w). split.
  - cbn [execute_channel_command]. rewrite run_bind, run_zoom. cbn [view channelsL]. by rewrite Hw, Hk.
  - unfold own_queue_open, is_open in *. rewrite Hw in Hopen. cbn in Hopen |- *. rewrite Hqs.
    by destruct (qs !! _).
Qed.
End turns.

(** ** Property *)

(** C40: what a command is answered with.  When a turn of a session's loop, the flag
    down, has read a command and the client's queue still has its receiver, exactly
    these bytes are queued for the client.  For a [PING], its message or [PONG].  For a
    cache command that meets no stale key and that the repository records, under a
    clock that may move on: [GET] the value or the null bulk string, [EXISTS] 1 or 0,
    [TTL] the seconds left, rounded up, or -1 or -2, [SET] [+OK], [DEL], the expire
    commands and [PERSIST] 1 or 0, all of them of the keys that are live when the
    command first reads the clock.  For [SUBSCRIBE] and [UNSUBSCRIBE], with the
    registry and the session's set agreeing, an array for each channel, with the
    number of channels the session is in by then; when there is none to leave, one
    without a channel.  For [PUBLISH], how many subscribers of the channel still
    listen. *)
Theorem commands_answered {R Rp} `{Read R} `{CacheRepository Rp} (clk : Lens (Executor Rp) Clock)
    (order : Subscribers -> list (N * Sender)) (iter : gset bytes -> list bytes)
    (w w1 : World R (Executor Rp)) (reads fuel : nat) (cmd : Command) :
  (forall subs, order subs ≡ₚ map_to_list subs) -> (forall s, iter s ≡ₚ elements s) ->
  w_shutdown w = false -> run (read_command clk reads fuel) w = Some (Ok (Some cmd), w1) ->
  own_queue_open w1 ->
  let answered bs w2 :=
    run (repl_turn (E := ChannelsError) clk order iter reads fuel) w = Some (Ok Continue, queued bs w2) in
  let subs := rh_subscriptions (w_rh w1) in
  match cmd with
  | Ping message =>
      answered (match message with Some msg => bulk msg | None => bstr "+PONG" ++ crlf end) w1
  | Command.Cache cmd =>
      forall c m r r', w_exec w1 = mkExecutor (cache_new c m) r -> steady_clock c ->
        not_stale (next_reading c) cmd m -> recorded_by cmd r r' ->
      exists c' m', answered (cache_answer (second_reading c) cmd (live (next_reading c) m))
        (put execL (mkExecutor (cache_new c' m') r') w1)
  | Channel (Subscribe chs) =>
      in_sync w1 -> exists w2, cn_queues (w_channels w2) = cn_queues (w_channels w1) /\
        answered (ack_lines (bstr "subscribe") join chs subs) w2
  | Channel (Unsubscribe chs) =>
      in_sync w1 -> exists targets w2,
        (if decide (chs = []) then targets ≡ₚ elements subs else targets = chs) /\
        cn_queues (w_channels w2) = cn_queues (w_channels w1) /\
        answered (if decide (targets = []) then nothing_to_leave
                  else ack_lines (bstr "unsubscribe") part targets subs) w2
  | Channel (Publish ch msg) =>
      forall qs reg, w_channels w1 = channels_at qs reg ->
      exists w2, answered (int_line (match reg !! ch with
                                     | Some subs => N.min (N.of_nat (size (open_subs qs subs))) u32_max
                                     | None => 0
                                     end)) w2
  end.
Proof.
  intros Hord Hit Hs Hread Hopen answered subs.
  pose proof (run_repl_turn (E := ChannelsError) clk order iter w reads fuel _ _ Hs Hread) as Hturn.
  cbv zeta in Hturn. destruct cmd as [cmd|[chs|chs|ch msg]|message].
  - intros c m r r' Hx Hc Hstale Hr.
    destruct (run_execute_logged_answer cmd c m r r' Hc Hstale Hr) as (out & c' & m' & Hrun & <-).
    exists c', m'. rewrite <- Hx in Hrun. exact (Hturn _ _ Hrun Hopen).
  - intros Hsync. exists (fold_left (fun w ch => joined ch w) chs w1).
    split; [by apply fold_queues|]. unfold answered. rewrite <- ack_lines_replies.
    refine (Hturn (Ok (CcoSubscribe (acks join chs subs))) _ _ _).
    + cbn [execute_channel_command]. by rewrite run_bind, run_subscribe_each.
    + by apply fold_own_open.
  - intros Hsync. pose proof (run_unsubscribe_command order iter w1 chs Hsync) as Hrun.
    pose proof (targets_of_perm iter Hit chs subs) as Ht. pose proof (no_targets iter Hit chs subs) as Hnil.
    cbv zeta in Hrun. fold subs in Hrun. set (targets := targets_of iter chs subs) in *.
    exists targets. destruct (decide (targets = [])) as [He|He].
    + exists w1. split; [exact Ht|]. split; [done|].
      rewrite (Hnil He) in Hrun. exact (Hturn _ _ Hrun Hopen).
    + exists (fold_left (fun w ch => left_channel ch w) targets w1). split; [exact Ht|].
      split; [by apply fold_queues|]. unfold answered. rewrite <- ack_lines_replies.
      refine (Hturn _ _ Hrun _). by apply fold_own_open.
  - intros qs reg Hw. destruct (run_publish_command order iter Hord w1 qs reg ch msg Hw Hopen)
      as (w2 & Hrun & Ho).
    exists w2. unfold answered. fold (listening qs reg ch). rewrite <- count_line.
    exact (Hturn _ _ Hrun Ho).
  - destruct message; exact (Hturn Hopen).
Qed.

(** A session in channel [a] is sent a [SUBSCRIBE] of [b] and [a]. *)
Definition asked : World Script (Executor Recording.RecordingRepo) :=
  with_reader (SessionReader_new [Ok (encode (Array
    [BulkString (bstr "SUBSCRIBE"); BulkString (bstr "b"); BulkString (bstr "a")]))]) sample_world.

Lemma asked_in_sync r : in_sync (with_reader r sample_world).
Proof. destruct sample_in_sync as (qs & reg & H1 & H2 & H3). exists qs, reg. by split_and!. Qed.

Lemma commands_answered_witness :
  exists w2, run (repl_turn (E := ChannelsError) (lens_comp cacheL clockL) map_to_list elements 9 9) asked =
    Some (Ok Continue,
          queued (ack_lines (bstr "subscribe") join [bstr "b"; bstr "a"] {[ bstr "a" ]}) w2) /\
  ack_lines (bstr "subscribe") join [bstr "b"; bstr "a"] {[ bstr "a" ]} =
    bstr "*3" ++ crlf ++ bstr "$9" ++ crlf ++ bstr "subscribe" ++ crlf ++ bstr "$1" ++ crlf ++
    bstr "b" ++ crlf ++ bstr ":2" ++ crlf ++
    bstr "*3" ++ crlf ++ bstr "$9" ++ crlf ++ bstr "subscribe" ++ crlf ++ bstr "$1" ++ crlf ++
    bstr "a" ++ crlf ++ bstr ":2" ++ crlf.
Proof.
  pose (r' := mkSessionReader (R := Script) (mkBufReader [] []) []).
  destruct (commands_answered (lens_comp cacheL clockL) map_to_list elements asked
    (with_reader r' sample_world) 9 9 (Channel (Subscribe [bstr "b"; bstr "a"]))) as (w2 & _ & H).
  - reflexivity.
  - reflexivity.
  - reflexivity.
  - vm_compute. reflexivity.
  - vm_compute. reflexivity.
  - apply asked_in_sync.
  - exists w2. split; [exact H|]. vm_compute. reflexivity.
Defined.
