(* ===== verification/Stream.v ===== *)
(** * Stream: what a reader makes of the bytes that come

    A client's bytes come in pieces of any size, with errors between them.  What the
    reader has made of them is a list of frames and of errors, and the bytes it still
    holds; when all the client sends is frames, it is a first part of these. *)

From S2P Require Import Prelude RustStd Frame Session SessionSpec.

(** A socket that loses nothing: what it gives is the next of what remains. *)
Class Source (R : Type) `{Read R} : Type := {
  remaining : R -> bytes;
  read_remaining k r :
    match read k r with
    | (Ok chunk, r') => remaining r = chunk ++ remaining r'
    | (Err _, r') => remaining r = remaining r'
    end
}.

#[export, program] Instance Script_Source : Source Script := {
  remaining s := concat (omap (fun x => match x with Ok chunk => Some chunk | Err _ => None end) s)
}.
Next Obligation.
  intros k [|[chunk|e] s]; [done| |done]. cbn [read Script_Read].
  case_decide; [done|]. cbn. by rewrite app_assoc, take_drop.
Qed.

(** A frame, or why there is none. *)
Abbreviation Item := (result FrameError Frame).

(** What came, what it was taken for, and what is held.  [parse_frame] drops all it
    holds when that is no beginning of a frame. *)
Inductive heard : bytes -> list Item -> bytes -> Prop :=
| heard_nothing : heard [] [] []
| heard_more inp items buf more :
    heard inp items buf -> heard (inp ++ more) items (buf ++ more)
| heard_frame inp items buf f rest :
    heard inp items buf -> parse_one buf = Ok (f, rest) -> heard inp (items ++ [Ok f]) rest
| heard_error inp items buf e :
    heard inp items buf -> parse_one buf = Err e -> e <> Incomplete ->
    heard inp (items ++ [Err e]) [].

(** What begins like frames and is decided is the first of them. *)
Lemma decided_first fs buf more :
  Forall Frame_wf fs -> concat (encode <$> fs) = buf ++ more -> parse_one buf <> Err Incomplete ->
  exists f fs' rest, fs = f :: fs' /\ buf = encode f ++ rest /\ parse_one buf = Ok (f, rest).
Proof.
  intros Hwf Hall Hne. pose proof (parse_one_extend buf more Hne) as Hx. rewrite <- Hall in Hx.
  destruct Hwf as [|f fs Hf Hwf]; cbn [fmap list_fmap concat] in *.
  - rewrite parse_one_nil in Hx. destruct (parse_one buf) as [[? ?]|e]; [done|]. by injection Hx as <-.
  - rewrite parse_one_encode in Hx by done. destruct (parse_one buf) as [[f' rest]|e]; [|done].
    injection Hx as <- Ht. exists f, fs, rest. split_and!; [done| |done].
    apply (app_inv_tail more). by rewrite <- app_assoc, <- Ht, Hall.
Qed.

(** Frames that are sent are heard, in their order, and nothing else. *)
Lemma heard_frames fs inp items buf more :
  Forall Frame_wf fs -> heard inp items buf -> concat (encode <$> fs) = inp ++ more ->
  exists fs1 fs2, fs = fs1 ++ fs2 /\ items = Ok <$> fs1 /\ concat (encode <$> fs2) = buf ++ more.
Proof.
  intros Hwf Hh. revert more.
  assert (Hnext : forall fs1 fs2 buf more, fs = fs1 ++ fs2 -> concat (encode <$> fs2) = buf ++ more ->
    parse_one buf <> Err Incomplete ->
    exists f fs' rest, fs2 = f :: fs' /\ buf = encode f ++ rest /\ parse_one buf = Ok (f, rest)).
  { intros fs1 fs2 b m -> Hall. apply Forall_app in Hwf as [_ Hwf]. by eapply decided_first. }
  induction Hh as [|inp items buf x _ IH|inp items buf f rest _ IH Hp|inp items buf e _ IH Hp He];
    intros more Hall.
  - by exists [], fs.
  - rewrite <- app_assoc in Hall. destruct (IH _ Hall) as (fs1 & fs2 & ? & ? & Hm).
    exists fs1, fs2. by rewrite <- app_assoc.
  - destruct (IH _ Hall) as (fs1 & fs2 & Hfs & -> & Hm).
    destruct (Hnext _ _ _ _ Hfs Hm) as (f' & fs' & rest' & -> & -> & Hp'); [congruence|].
    rewrite Hp' in Hp. injection Hp as -> ->. exists (fs1 ++ [f]), fs'.
    rewrite <- app_assoc, fmap_app. split_and!; [done..|].
    cbn [fmap list_fmap concat] in Hm. rewrite <- app_assoc in Hm. by apply app_inv_head in Hm.
  - destruct (IH _ Hall) as (fs1 & fs2 & Hfs & -> & Hm).
    destruct (Hnext _ _ _ _ Hfs Hm) as (f' & fs' & rest' & -> & -> & Hp'); [congruence|]. congruence.
Qed.

(** ** The reader of a session *)

Section reader.
Context {R : Type} `{Source R}.
Implicit Types (sr : SessionReader R).

(** Of what the client sends, the reader has made [items]. *)
Definition reader_heard (sent : bytes) (items : list Item) sr : Prop :=
  exists inp, heard inp items (sr_buf sr) /\
    sent = inp ++ br_buf (sr_inner sr) ++ remaining (br_inner (sr_inner sr)).

Lemma reader_heard_new r : reader_heard (remaining r) [] (SessionReader_new r).
Proof. exists []. split; [apply heard_nothing|done]. Qed.

(** [parse_frame] makes one item of what is held, or waits. *)
Lemma parse_frame_heard sent items sr :
  reader_heard sent items sr ->
  match parse_frame sr with
  | (Err Incomplete, sr') => reader_heard sent items sr'
  | (item, sr') => reader_heard sent (items ++ [item]) sr'
  end.
Proof.
  intros (inp & Hh & Hs). destruct (parse_one (sr_buf sr)) as [[f rest]|e] eqn:Hp.
  - rewrite (parse_frame_Ok _ _ _ Hp). exists inp. split; [by eapply heard_frame|done].
  - unfold parse_frame. rewrite Hp. case_decide as He; [subst e; by exists inp|].
    assert (Hd : reader_heard sent (items ++ [Err e]) (mkSessionReader (sr_inner sr) [])).
    { exists inp. split; [by eapply heard_error|done]. }
    by destruct e.
Qed.

(** [read] takes more of what remains. *)
Lemma reader_read_heard sent items sr :
  reader_heard sent items sr -> reader_heard sent items (snd (reader_read sr)).
Proof.
  destruct sr as [[r bb] sb]. intros (inp & Hh & Hs). cbn in Hh, Hs. unfold reader_read, BufReader_read.
  cbn [sr_inner sr_buf br_buf br_inner]. destruct (decide (bb = [])) as [->|Hbb].
  - pose proof (read_remaining (N.to_nat 8192) r) as Hr.
    destruct (read (N.to_nat 8192) r) as [[chunk|e] r']; cbn [snd].
    + exists (inp ++ take 1024 chunk). split; [by apply heard_more|].
      cbn. by rewrite Hs, Hr, <- app_assoc, (app_assoc (take _ _)), take_drop.
    + exists inp. split; [done|]. by rewrite Hs, Hr.
  - exists (inp ++ take 1024 bb). split; [by apply heard_more|].
    cbn. by rewrite Hs, <- app_assoc, (app_assoc (take _ _)), take_drop.
Qed.

Lemma reader_heard_frames fs items sr :
  Forall Frame_wf fs -> reader_heard (concat (encode <$> fs)) items sr ->
  exists rest, fmap Ok fs = items ++ rest.
Proof.
  intros Hwf (inp & Hh & Hs). destruct (heard_frames _ _ _ _ _ Hwf Hh Hs) as (fs1 & fs2 & -> & -> & _).
  exists (Ok <$> fs2). by rewrite fmap_app.
Qed.
End reader.
