(* ===== verification/WriteHalf.v ===== *)
(** * WriteHalf: the rest of [inbound/session.rs]

    [Session::new] and [Session::split], the write half and the thread that drains
    the session's queue to its socket, and the whole of [Session::repl]: that thread
    and the reader's, with the drop of the read half and the join between them. *)

From S2P Require Import Prelude Effects RustStd Time Command.
From S2P Require Import Mpsc Channels Ports Files Session.

(** ** The socket's write end *)

(** A stream bytes are written to.  [offer] is [write_all] on it: all taken; or an
    error, after so many of the bytes; or, [None], the call does not come back,
    because the peer does not read and the stream is full. *)
Class Sink (W : Type) : Type := {
  offer : bytes -> W -> option (result IoError unit * nat * W);
  sink_flush : M W IoError unit
}.

(** [std::io::BufWriter], of the capacity of [Files]. *)
Record BufWriter (W : Type) : Type := mkBufWriter { bw_inner : W; bw_buf : bytes }.
Arguments mkBufWriter {W} bw_inner bw_buf.
Arguments bw_inner {W} b.
Arguments bw_buf {W} b.

Section bufwriter.
Context {W : Type} `{Sink W}.

Abbreviation BP A := (prog (BufWriter W) IoError A).

Definition bw_direct (b : bytes) : BP unit :=
  Step (fun w => match offer b (bw_inner w) with
                 | Some (r, _, inner) => Some (Done r, mkBufWriter inner (bw_buf w))
                 | None => None
                 end).

(** What was written leaves the buffer, even when the rest fails. *)
Definition bw_flush_buf : BP unit :=
  Step (fun w =>
    if decide (bw_buf w = []) then Some (Done (Ok ()), w)
    else match offer (bw_buf w) (bw_inner w) with
         | Some (Ok _, _, inner) => Some (Done (Ok ()), mkBufWriter inner [])
         | Some (Err e, n, inner) => Some (Done (Err e), mkBufWriter inner (drop n (bw_buf w)))
         | None => None
         end).

Definition bw_buffer (b : bytes) : BP unit :=
  atomic (fun w => (Ok (), mkBufWriter (bw_inner w) (bw_buf w ++ b))).

Definition bw_write_all (b : bytes) : BP unit :=
  Step (fun w =>
    let spare := buf_capacity - length (bw_buf w) in
    if decide (length b < spare) then Some (bw_buffer b, w)
    else Some ((if decide (spare < length b) then bw_flush_buf else mret ());;
               (if decide (buf_capacity <= length b) then bw_direct b else bw_buffer b), w)).

Definition bw_flush : BP unit :=
  bw_flush_buf;;
  atomic (fun w => let '(r, inner) := sink_flush (bw_inner w) in (r, mkBufWriter inner (bw_buf w))).
End bufwriter.

(** ** Sessions and their halves *)

(** The executor and the registry a session holds are handles to the shared ones of
    its [World]. *)
Record Session (R W : Type) : Type := mkSession {
  se_id : N;
  se_reader : SessionReader R;
  se_writer : BufWriter W;
  se_subscriptions : gset bytes
}.
Arguments mkSession {R W} se_id se_reader se_writer se_subscriptions.
Arguments se_id {R W} s.
Arguments se_reader {R W} s.
Arguments se_writer {R W} s.
Arguments se_subscriptions {R W} s.

(** The receiver is the number of its queue. *)
Record WriteHalf (W : Type) : Type := mkWriteHalf { wh_writer : BufWriter W; wh_receiver : N }.
Arguments mkWriteHalf {W} wh_writer wh_receiver.
Arguments wh_writer {W} w.
Arguments wh_receiver {W} w.

Definition Session_new {R W} (id : N) (reader : R) (writer : W) : Session R W :=
  let writer := mkBufWriter writer [] in
  let reader := SessionReader_new reader in
  mkSession id reader writer ∅.

Definition split {R W} (self : Session R W) (qs : Queues) : ReadHalf R * WriteHalf W * Queues :=
  let '(sender, qs') := channel qs in
  (mkReadHalf (se_id self) (se_reader self) sender (se_subscriptions self),
   mkWriteHalf (se_writer self) sender, qs').

(** ** A session's two threads *)

(** The world of the reader, the write half, whether the read half still exists,
    and whether the writer's thread has ended. *)
Record Conn (R W S : Type) : Type := mkConn {
  co_world : World R S;
  co_wh : WriteHalf W;
  co_rh_alive : bool;
  co_writer_done : bool
}.
Arguments mkConn {R W S} co_world co_wh co_rh_alive co_writer_done.
Arguments co_world {R W S} c.
Arguments co_wh {R W S} c.
Arguments co_rh_alive {R W S} c.
Arguments co_writer_done {R W S} c.

Section conn_lenses.
Context {R W S : Type}.

Definition worldL : Lens (Conn R W S) (World R S) :=
  mkLens co_world (fun w c => mkConn w (co_wh c) (co_rh_alive c) (co_writer_done c))
    (fun _ _ => eq_refl) (fun c => match c with mkConn _ _ _ _ => eq_refl end)
    (fun _ _ _ => eq_refl).
Definition writerL : Lens (Conn R W S) (BufWriter W) :=
  mkLens (fun c => wh_writer (co_wh c))
    (fun w c => mkConn (co_world c) (mkWriteHalf w (wh_receiver (co_wh c)))
                  (co_rh_alive c) (co_writer_done c))
    (fun _ _ => eq_refl) (fun c => match c with mkConn _ (mkWriteHalf _ _) _ _ => eq_refl end)
    (fun _ _ _ => eq_refl).
Definition conn_queuesL : Lens (Conn R W S) Queues :=
  lens_comp worldL (lens_comp channelsL queuesL).
End conn_lenses.

Inductive RecvError : Type := mkRecvError.
Inductive WriteHalfError : Type := WhRecv (e : RecvError).
Inductive SessionError : Type :=
| SeReadHalfError (e : ReadHalfError)
| SeWriteHalfError (e : WriteHalfError).

(** Some channel of the registry has a clone of the queue's sender. *)
Definition listed (reg : Registry) (q : Sender) : bool :=
  bool_decide (map_Exists (fun _ subs => map_Exists (fun _ tx => tx = q) subs) reg).

(** The senders of a session's queue are the read half's and the clones in the
    registry. *)
Definition sender_alive {R W S} (c : Conn R W S) : bool :=
  co_rh_alive c || listed (guarded (cn_channels (w_channels (co_world c)))) (wh_receiver (co_wh c)).

Section session.
Context {R W S : Type} `{Read R} `{Sink W} `{Execute S}.
Context (execClockL : Lens S Clock).
Context (order : Subscribers -> list (N * Sender)) (iter : gset bytes -> list bytes).

Abbreviation CP E A := (prog (Conn R W S) E A).

(** [Receiver::recv]: the next buffer; waits while there is none and a sender is
    alive. *)
Definition recv : CP RecvError bytes :=
  Step (fun c =>
    match pop (wh_receiver (co_wh c)) (view conn_queuesL c) with
    | Some (msg, qs) => Some (Done (Ok msg), put conn_queuesL qs c)
    | None => if sender_alive c then None else Some (Done (Err mkRecvError), c)
    end).

(** [wh.writer.write_all(&msg).and_then(|()| wh.writer.flush())]. *)
Definition write_out (msg : bytes) : prog (BufWriter W) IoError unit :=
  bw_write_all msg;; bw_flush.

(** The end of the writer's thread drops the write half: a [BufWriter] flushes what
    it still has, whatever comes of it, and the receiver goes. *)
Definition drop_wh {E} : CP E (result SessionError unit) :=
  p_then (zoom writerL bw_flush_buf) (fun _ =>
    atomic (fun c =>
      (Ok (Ok ()),
       let c := put conn_queuesL (drop_receiver (wh_receiver (co_wh c)) (view conn_queuesL c)) c in
       mkConn (co_world c) (co_wh c) (co_rh_alive c) true))).

(** The writer's thread; a failed write is logged and the loop goes on. *)
Fixpoint writer_thread {E} (turns : nat) : CP E (result SessionError unit) :=
  match turns with
  | O => Step (fun _ => None)
  | Datatypes.S turns' =>
      shutdown ← atomic (fun c => (Ok (w_shutdown (co_world c)), c));
      if (shutdown : bool) then drop_wh
      else p_then recv (fun r =>
        match r with
        | Ok msg => p_then (zoom writerL (write_out msg)) (fun _ => writer_thread turns')
        | Err _ => drop_wh
        end)
  end.

(** [drop(rh)]. *)
Definition drop_rh {E} : CP E unit :=
  atomic (fun c => (Ok (), mkConn (co_world c) (co_wh c) false (co_writer_done c))).

(** [h.join()] on the writer's thread. *)
Definition join_writer {E} : CP E unit :=
  Step (fun c => if co_writer_done c then Some (Done (Ok ()), c) else None).

(** The thread that calls [repl], after the split. *)
Definition repl_main (reads fuel turns : nat) : CP ChannelsError (result SessionError unit) :=
  result ← zoom worldL (repl_reader execClockL order iter reads fuel turns);
  drop_rh;;
  join_writer;;
  mret (map_err SeReadHalfError result).

(** The two threads of [repl]. *)
Definition repl (reads fuel turns wturns : nat)
  : list (CP ChannelsError (result SessionError unit)) :=
  [repl_main reads fuel turns; writer_thread wturns].

(** [repl] on a session, in the shared state there is: the split, and the state its
    two threads start in. *)
Definition repl_start (self : Session R W) (channels : ChannelsState) (exec : S) (shutdown : bool)
  : Conn R W S :=
  let '(rh, wh, qs) := split self (cn_queues channels) in
  mkConn (mkWorld rh (put queuesL qs channels) exec shutdown) wh true false.
End session.
