(* ===== verification/ReplSpec.v ===== *)
(** * ReplSpec: what [Session::repl] promises

    The reader's thread and the writer's thread of one session, under any schedule:
    everything the reader queues reaches the socket, in order and nothing else; no
    schedule is stuck before both threads have ended, and none goes on for ever. *)

From S2P Require Import Prelude Effects Threads RustStd Time Command Frame CommandFrame.
From S2P Require Import Cache Mpsc Channels Ports Executor Reply Inbound Files.
From S2P Require Import Session SessionSpec WriteHalf.

(** ** The reader does not notice what waits in a queue

    [behind q xs]: the same, with [xs] waiting in queue [q] before what is there. *)

Definition before (xs : list bytes) (q : Queue) : Queue := mkQueue (xs ++ q_items q) (q_open q).
Definition queues_behind (q : N) (xs : list bytes) : Queues -> Queues := alter (before xs) q.

Lemma is_open_behind q xs qs tx : is_open (queues_behind q xs qs) tx = is_open qs tx.
Proof.
  unfold is_open, queues_behind. rewrite lookup_alter. case_decide as H; [subst|done].
  by destruct (qs !! tx).
Qed.

Lemma push_behind q xs msg tx qs :
  alter (push msg) tx (queues_behind q xs qs) = queues_behind q xs (alter (push msg) tx qs).
Proof.
  unfold queues_behind. apply map_eq. intros i. rewrite !lookup_alter.
  repeat case_decide; subst; try done. destruct (qs !! i) as [[items o]|]; [|done]. cbn.
  unfold push, before. cbn. by rewrite app_assoc.
Qed.

Lemma send_behind q xs tx msg qs :
  Mpsc.send tx msg (queues_behind q xs qs) =
  ((Mpsc.send tx msg qs).1, queues_behind q xs (Mpsc.send tx msg qs).2).
Proof.
  unfold Mpsc.send. rewrite is_open_behind. destruct (is_open qs tx); cbn; [|done].
  by rewrite push_behind.
Qed.

Lemma retain_sent_behind q xs msg order subs n qs :
  Channels.retain_sent msg order subs n (queues_behind q xs qs) =
  let '(subs', n', qs') := Channels.retain_sent msg order subs n qs in
  (subs', n', queues_behind q xs qs').
Proof.
  revert subs n qs. induction order as [|[id tx] order IH]; intros subs n qs; cbn; [done|].
  rewrite send_behind. destruct (Mpsc.send tx msg qs) as [[[]|e] qs'] eqn:Hs; cbn; apply IH.
Qed.

Definition channels_behind (q : N) (xs : list bytes) (s : ChannelsState) : ChannelsState :=
  put queuesL (queues_behind q xs (cn_queues s)) s.
Definition world_behind {R S} (q : N) (xs : list bytes) (w : World R S) : World R S :=
  put channelsL (channels_behind q xs (w_channels w)) w.

(** Nobody but its owner opens or closes a queue, and a session does not touch the
    shutdown flag. *)
Definition same_open (q : N) (s s' : ChannelsState) : Prop :=
  is_open (cn_queues s') q = is_open (cn_queues s) q.
Definition steady {R S} (q : N) (w w' : World R S) : Prop :=
  w_shutdown w' = w_shutdown w /\ same_open q (w_channels w) (w_channels w').

Lemma retain_sent_open_eq msg order subs n qs q :
  is_open (Channels.retain_sent msg order subs n qs).2 q = is_open qs q.
Proof. unfold is_open. rewrite retain_sent_queues. by destruct (qs !! q). Qed.

Lemma subscribe_oblivious q xs ch sub :
  oblivious (channels_behind q xs) (same_open q) (Channels.subscribe ch sub).
Proof. by apply oblivious_locked. Qed.

Lemma unsubscribe_oblivious q xs ch id :
  oblivious (channels_behind q xs) (same_open q) (Channels.unsubscribe ch id).
Proof.
  apply oblivious_locked; [done|done| |]; intros [qs [h p reg]]; m_cbn;
    (destruct (reg !! ch); [|done]); by case_decide.
Qed.

Lemma publish_oblivious q xs order msg ch :
  oblivious (channels_behind q xs) (same_open q) (Channels.publish order msg ch).
Proof.
  apply oblivious_locked; [done|done| |]; intros [qs [h p reg]]; m_cbn;
    (destruct (reg !! ch) as [subs|]; [|done]); cbn [cn_queues]; rewrite ?retain_sent_behind;
    pose proof (retain_sent_open_eq msg (order subs) subs 0 qs q) as Ho;
    by destruct (Channels.retain_sent msg (order subs) subs 0 qs) as [[? ?] ?].
Qed.

#[export] Hint Resolve subscribe_oblivious unsubscribe_oblivious publish_oblivious : oblivious.

Section reader.
Context {R S : Type} `{Read R} `{Execute S}.
Context (execClockL : Lens S Clock).
Context (order : Subscribers -> list (N * Sender)) (iter : gset bytes -> list bytes).
Context (q : N) (xs : list bytes).

Abbreviation ob p := (oblivious (S := World R S) (world_behind q xs) (steady q) p).

(** A lens that does not see the queues. *)
Definition unaware {T} (l : Lens (World R S) T) : Prop :=
  (forall w, view l (world_behind q xs w) = view l w) /\
  (forall t w, put l t (world_behind q xs w) = world_behind q xs (put l t w)) /\
  (forall t w, steady q w (put l t w)).

Lemma unaware_atomic {E T A} (l : Lens (World R S) T) (m : M T E A) :
  unaware l -> ob (atomic (m_zoom l m)).
Proof.
  intros (Hv & Hp & Hs). apply oblivious_atomic; intros w; unfold m_zoom; rewrite ?Hv;
    destruct (m (view l w)) as [r t]; cbn [fst snd]; by rewrite ?Hp.
Qed.

Lemma unaware_zoom {E T A} (l : Lens (World R S) T) (p : prog T E A) :
  unaware l -> ob (zoom l p).
Proof.
  intros (Hv & Hp & Hs). by apply (oblivious_zoom _ _ (fun t => t) (fun _ _ => True) l p Hv Hp
    (fun t w _ => Hs t w)), oblivious_id.
Qed.

Lemma channels_zoom {E A} (p : prog ChannelsState E A) :
  oblivious (channels_behind q xs) (same_open q) p -> ob (zoom channelsL p).
Proof. by apply oblivious_zoom. Qed.

Lemma self_oblivious {E B} (k : ReadHalf R -> prog (World R S) E B) :
  (forall rh, ob (k rh)) -> ob (self ≫= k).
Proof. intros Hk. apply oblivious_bind; [|done]. by apply oblivious_atomic. Qed.

Lemma catch_oblivious {E F A} (p : prog (World R S) E A) : ob p -> ob (catch (F := F) p).
Proof. intros Hp. by apply oblivious_then. Qed.

Lemma stuck_oblivious {E A} : ob (stuck (E := E) (A := A)).
Proof. by intros w. Qed.

Hint Resolve self_oblivious catch_oblivious stuck_oblivious channels_zoom : oblivious.

Lemma send_oblivious bs : ob (send bs).
Proof.
  apply self_oblivious. intros rh. apply oblivious_atomic; intros [rh' [qs m] e b];
    unfold m_zoom; cbn.
  - rewrite send_behind. by destruct (Mpsc.send (rh_sender rh) bs qs).
  - unfold Mpsc.send. destruct (is_open qs (rh_sender rh)); [|done]. split; [done|].
    apply is_open_alter_push.
Qed.

Lemma read_frame_oblivious fuel : ob (read_frame fuel).
Proof.
  induction fuel as [|fuel IH]; cbn [read_frame]; [apply stuck_oblivious|].
  apply oblivious_bind; [by apply catch_oblivious, unaware_atomic|]. intros [f|e]; [done|].
  assert (Hbad : ob (p_map_err RhSend (send (err_reply (display_FrameError e)));; read_frame fuel)).
  { apply oblivious_bind; [by apply oblivious_map_err, send_oblivious|done]. }
  destruct e; try exact Hbad. apply oblivious_bind; [by apply oblivious_map_err, unaware_atomic|].
  intros len. by case_decide.
Qed.

Lemma read_command_oblivious reads fuel : ob (read_command execClockL reads fuel).
Proof.
  induction fuel as [|fuel IH]; cbn [read_command]; [apply stuck_oblivious|].
  apply oblivious_bind; [apply read_frame_oblivious|]. intros [f|]; [|done].
  apply oblivious_bind; [by apply catch_oblivious, unaware_atomic|]. intros [cmd|e]; [done|].
  apply oblivious_bind; [by apply oblivious_map_err, send_oblivious|done].
Qed.

Lemma update_subscriptions_oblivious f : ob (update_subscriptions f).
Proof. by apply oblivious_atomic. Qed.

Lemma subscribe_each_oblivious ids : ob (subscribe_each ids).
Proof.
  induction ids as [|id ids IH]; cbn [subscribe_each]; [done|]. apply self_oblivious. intros rh.
  apply oblivious_bind; [auto with oblivious|]. intros _.
  apply oblivious_bind; [apply update_subscriptions_oblivious|]. intros n.
  by apply oblivious_bind.
Qed.

Lemma unsubscribe_each_oblivious ids : ob (unsubscribe_each ids).
Proof.
  induction ids as [|id ids IH]; cbn [unsubscribe_each]; [done|]. apply self_oblivious. intros rh.
  apply oblivious_bind; [auto with oblivious|]. intros _.
  apply oblivious_bind; [apply update_subscriptions_oblivious|]. intros n.
  by apply oblivious_bind.
Qed.

Lemma execute_channel_command_oblivious cmd : ob (execute_channel_command order iter cmd).
Proof.
  destruct cmd as [ids|ids|ch msg]; cbn [execute_channel_command].
  - by apply oblivious_bind; [apply subscribe_each_oblivious|].
  - apply self_oblivious. intros rh. cbv zeta. case_decide; case_decide; try done;
      by apply oblivious_bind; [apply unsubscribe_each_oblivious|].
  - by apply oblivious_bind; [auto with oblivious|].
Qed.

Lemma unsubscribe_from_all_oblivious : ob (unsubscribe_from_all iter).
Proof.
  apply self_oblivious. intros rh. generalize (iter (rh_subscriptions rh)) as chs.
  induction chs as [|ch chs IH]; cbn [unsubscribe_all]; [done|].
  apply oblivious_bind; [auto with oblivious|]. intros r. by apply oblivious_bind.
Qed.

Lemma reply_or_break_oblivious {E} bs : ob (reply_or_break (E := E) bs).
Proof. by apply oblivious_bind; [apply catch_oblivious, send_oblivious|]. Qed.

Lemma repl_turn_oblivious {E} reads fuel : ob (repl_turn (E := E) execClockL order iter reads fuel).
Proof.
  unfold repl_turn. apply oblivious_bind; [by apply oblivious_atomic|]. intros [|]; [done|].
  apply oblivious_bind; [apply catch_oblivious, read_command_oblivious|].
  intros [[[cc|cmd|msg]|]|[e|e|e]]; try done; [| |apply reply_or_break_oblivious|by case_decide].
  - apply oblivious_bind; [by apply catch_oblivious, unaware_zoom|].
    intros [out|e]; [apply reply_or_break_oblivious|done].
  - apply oblivious_bind; [apply catch_oblivious, execute_channel_command_oblivious|].
    intros [out|e]; [apply reply_or_break_oblivious|done].
Qed.

Lemma repl_reader_oblivious reads fuel turns :
  ob (repl_reader execClockL order iter reads fuel turns).
Proof.
  apply oblivious_bind.
  - induction turns as [|turns IH]; cbn [reader_loop]; [apply stuck_oblivious|].
    apply oblivious_bind; [apply repl_turn_oblivious|]. by intros [|r].
  - intros r. by apply oblivious_bind; [apply unsubscribe_from_all_oblivious|].
Qed.
End reader.

(** ** Where a session's sender is *)

Section confined.
Context {R S : Type} `{Read R} `{Execute S}.
Context (execClockL : Lens S Clock).
Context (order : Subscribers -> list (N * Sender)) (iter : gset bytes -> list bytes).
Context (order_perm : forall subs, order subs ≡ₚ map_to_list subs).
Context (id q : N).
Implicit Types w : World R S.

(** The registry has the sender of queue [q] for session [id] alone, in channels of
    its set alone, and its lock is available. *)
Definition confined w : Prop :=
  rh_id (w_rh w) = id /\ rh_sender (w_rh w) = q /\
  exists qs reg, w_channels w = channels_at qs reg /\
    forall ch id', subscribed reg ch id' = Some q -> id' = id /\ ch ∈ rh_subscriptions (w_rh w).

Abbreviation keep p := (keeps (S := World R S) confined p).

Lemma keep_off {E A} (m : M (World R S) E A) :
  (forall w, rh_id (w_rh (m w).2) = rh_id (w_rh w) /\
    rh_sender (w_rh (m w).2) = rh_sender (w_rh w) /\
    rh_subscriptions (w_rh (m w).2) = rh_subscriptions (w_rh w) /\
    cn_channels (w_channels (m w).2) = cn_channels (w_channels w)) ->
  keep (atomic m).
Proof.
  intros Hm. apply keeps_atomic. intros w (Hi & Hs & qs & reg & Hc & Hr).
  destruct (Hm w) as (H1 & H2 & H3 & H4). split_and!; [congruence..|].
  exists (cn_queues (w_channels (m w).2)), reg. split; [|by rewrite H3].
  destruct (w_channels (m w).2) as [qs' reg'] eqn:Hc'. cbn in H4 |- *. subst reg'. by rewrite Hc.
Qed.

Lemma keep_self {E B} (k : ReadHalf R -> prog (World R S) E B) :
  (forall rh, keep (k rh)) -> keep (self ≫= k).
Proof. intros Hk. apply keeps_bind; [|done]. by apply keep_off. Qed.

Lemma keep_catch {E F A} (p : prog (World R S) E A) : keep p -> keep (catch (F := F) p).
Proof. intros Hp. apply keeps_then; [done|]. intros r. apply keeps_done. Qed.

Lemma keep_send bs : keep (send bs).
Proof.
  apply keep_self. intros rh. apply keep_off. intros w. unfold m_zoom.
  by destruct (Mpsc.send _ _ _) as [r qs'].
Qed.

Lemma keep_reader {E A} (m : M (SessionReader R) E A) :
  keep (atomic (m_zoom (lens_comp rhL readerL) m)).
Proof. apply keep_off. intros w. unfold m_zoom. by destruct (m _). Qed.

Lemma keep_read_frame fuel : keep (read_frame fuel).
Proof.
  induction fuel as [|fuel IH]; cbn [read_frame]; [by apply keeps_stuck|].
  apply keeps_bind; [apply keep_catch, keep_reader|]. intros [f|e]; [apply keeps_done|].
  assert (Hbad : keep (p_map_err RhSend (send (err_reply (display_FrameError e)));; read_frame fuel)).
  { apply keeps_bind; [by apply keeps_map_err, keep_send|done]. }
  destruct e; try exact Hbad. apply keeps_bind; [apply keeps_map_err, keep_reader|].
  intros len. case_decide; [apply keeps_done|done].
Qed.

Lemma keep_read_command reads fuel : keep (read_command execClockL reads fuel).
Proof.
  induction fuel as [|fuel IH]; cbn [read_command]; [by apply keeps_stuck|].
  apply keeps_bind; [apply keep_read_frame|]. intros [f|]; [|apply keeps_done].
  apply keeps_bind.
  - apply keep_catch, keep_off. intros w. unfold m_zoom. by destruct (try_from f _).
  - intros [cmd|e]; [apply keeps_done|].
    apply keeps_bind; [by apply keeps_map_err, keep_send|done].
Qed.

Lemma keep_subscribe_each ids : keep (subscribe_each ids).
Proof.
  induction ids as [|ch ids IH]; cbn [subscribe_each]; [apply keeps_done|].
  intros w r w' (Hi & Hs & qs & reg & Hc & Hr) Hrun.
  rewrite run_bind in Hrun. unfold self in Hrun. rewrite run_atomic in Hrun.
  rewrite run_bind, run_zoom in Hrun. cbn [view channelsL] in Hrun.
  rewrite Hc, run_subscribe, run_bind in Hrun. unfold update_subscriptions in Hrun.
  rewrite run_atomic in Hrun. cbn [view put channelsL rhL w_rh] in Hrun.
  revert Hrun. apply keeps_bind; [exact IH|intros ?; apply keeps_done|].
  split_and!; [done..|]. do 2 eexists. split; [done|]. intros ch' id'.
  cbn [w_rh rh_subscriptions set_subscriptions sub_id sub_sender]. rewrite subscribed_insert.
  case_decide as Hd; [destruct Hd as [-> ->]; intros _; split; [done|set_solver]|].
  intros [??]%Hr. split; [done|set_solver].
Qed.

Lemma keep_unsubscribe_each ids : keep (unsubscribe_each ids).
Proof.
  induction ids as [|ch ids IH]; cbn [unsubscribe_each]; [apply keeps_done|].
  intros w r w' (Hi & Hs & qs & reg & Hc & Hr) Hrun.
  rewrite run_bind in Hrun. unfold self in Hrun. rewrite run_atomic in Hrun.
  rewrite run_bind, run_zoom in Hrun. cbn [view channelsL] in Hrun.
  rewrite Hc, run_unsubscribe, run_bind in Hrun. unfold update_subscriptions in Hrun.
  rewrite run_atomic in Hrun. cbn [view put channelsL rhL w_rh] in Hrun.
  revert Hrun. apply keeps_bind; [exact IH|intros ?; apply keeps_done|].
  split_and!; [done..|]. do 2 eexists. split; [done|]. intros ch' id'.
  cbn [w_rh rh_subscriptions set_subscriptions]. rewrite subscribed_leave.
  case_decide as Hd; [done|]. intros [??]%Hr. split; [done|].
  apply elem_of_difference. split; [done|]. rewrite elem_of_singleton. intros ->. naive_solver.
Qed.

Lemma keep_publish msg ch :
  keep (zoom channelsL (Channels.publish order msg ch)).
Proof.
  intros w r w' (Hi & Hs & qs & reg & Hc & Hr). rewrite run_zoom. cbn [view channelsL]. rewrite Hc.
  destruct (run_publish order msg ch qs reg order_perm) as (qs' & -> & _).
  destruct (reg !! ch) as [subs|] eqn:Hch; intros [= _ <-];
    (split; [done|]; split; [done|]; exists qs'; eexists; split; [done|]); [|done].
  intros ch' id' Hsub. apply Hr. revert Hsub. unfold subscribed.
  destruct (decide (ch' = ch)) as [->|Hne]; [|by rewrite lookup_insert_ne].
  rewrite lookup_insert_eq, Hch. cbn. rewrite open_subs_lookup.
  destruct (subs !! id'); [|done]. by destruct (is_open _ _).
Qed.

Lemma keep_execute_channel_command cmd : keep (execute_channel_command order iter cmd).
Proof.
  destruct cmd as [ids|ids|ch msg]; cbn [execute_channel_command].
  - apply keeps_bind; [apply keep_subscribe_each|]. intros ?. apply keeps_done.
  - apply keep_self. intros rh. cbv zeta. case_decide; case_decide; try apply keeps_done;
      (apply keeps_bind; [apply keep_unsubscribe_each|]; intros ?; apply keeps_done).
  - apply keeps_bind; [apply keep_publish|]. intros ?. apply keeps_done.
Qed.

Lemma keep_reply {E} bs : keep (reply_or_break (E := E) bs).
Proof.
  apply keeps_bind; [apply keep_catch, keep_send|]. intros ?. apply keeps_done.
Qed.

Lemma keep_repl_turn {E} reads fuel : keep (repl_turn (E := E) execClockL order iter reads fuel).
Proof.
  unfold repl_turn. apply keeps_bind; [by apply keep_off|]. intros [|]; [apply keeps_done|].
  apply keeps_bind; [apply keep_catch, keep_read_command|].
  intros [[[cc|cmd|msg]|]|[e|e|e]]; try apply keeps_done;
    [| |apply keep_reply|case_decide; apply keeps_done].
  - apply keeps_bind; [by apply keep_catch, keeps_zoom|].
    intros [out|e]; [apply keep_reply|apply keeps_done].
  - apply keeps_bind; [apply keep_catch, keep_execute_channel_command|].
    intros [out|e]; [apply keep_reply|apply keeps_done].
Qed.

Lemma repl_turn_no_error {E} reads fuel w (e : E) w' :
  run (repl_turn execClockL order iter reads fuel) w <> Some (Err e, w').
Proof.
  assert (Hrep : forall bs w1, run (reply_or_break bs) w1 <> Some (Err e, w')).
  { intros bs w1. rewrite run_reply_or_break. by destruct (is_open _ _). }
  unfold repl_turn, catch. rewrite run_bind, run_atomic. destruct (w_shutdown w); [done|].
  rewrite run_bind, run_then.
  destruct (run (read_command _ _ _) w) as [[r w1]|]; cbn [run]; [|done].
  destruct r as [[[cc|cmd|msg]|]|[e'|e'|e']]; try done; [| |by case_decide].
  - rewrite run_bind, run_then. destruct (run (zoom _ _) w1) as [[[out|e'] w2]|]; [apply Hrep|done..].
  - rewrite run_bind, run_then.
    destruct (run (execute_channel_command _ _ _) w1) as [[[out|e'] w2]|]; [apply Hrep|done..].
Qed.

Lemma keep_reader_loop reads fuel turns :
  keep (reader_loop execClockL order iter reads fuel turns).
Proof.
  induction turns as [|turns IH]; cbn [reader_loop]; [by apply keeps_stuck|].
  apply keeps_bind; [apply keep_repl_turn|]. intros [|r]; [done|apply keeps_done].
Qed.

Lemma reader_loop_no_error reads fuel turns w e w' :
  run (reader_loop execClockL order iter reads fuel turns) w <> Some (Err e, w').
Proof.
  revert w. induction turns as [|turns IH]; intros w; cbn [reader_loop]; [done|].
  rewrite run_bind. destruct (run (repl_turn _ _ _ _ _) w) as [[[[|r]|e'] w1]|] eqn:Ht;
    [apply IH|done| |done].
  intros _. revert Ht. apply repl_turn_no_error.
Qed.

Lemma listed_false reg :
  (forall ch id', subscribed reg ch id' <> Some q) -> listed reg q = false.
Proof.
  intros Hno. apply bool_decide_eq_false. intros (ch & subs & Hch & id' & tx & Hid & ->).
  apply (Hno ch id'). unfold subscribed. by rewrite Hch.
Qed.

(** When the reader is through, no sender of the queue is left in the registry. *)
Lemma repl_reader_unlisted reads fuel turns w r wf :
  (forall s, iter s ≡ₚ elements s) -> confined w ->
  run (repl_reader execClockL order iter reads fuel turns) w = Some (r, wf) ->
  listed (guarded (cn_channels (w_channels wf))) q = false.
Proof.
  intros Hiter Hw Hrun. unfold repl_reader in Hrun. rewrite run_bind in Hrun.
  destruct (run (reader_loop _ _ _ reads fuel turns) w) as [[r1 w1]|] eqn:H1; [|done].
  pose proof (keep_reader_loop _ _ _ _ _ _ Hw H1) as (Hi & Hs & qs & reg & Hc & Hr).
  destruct r1 as [r1|e].
  - rewrite run_bind in Hrun. unfold unsubscribe_from_all in Hrun. rewrite run_bind in Hrun.
    unfold self in Hrun. rewrite run_atomic in Hrun.
    rewrite (run_unsubscribe_all _ _ qs reg) in Hrun by done. injection Hrun as _ <-.
    apply listed_false. intros ch id'. cbn. rewrite subscribed_leave_all, Hi.
    case_decide as Hd; [done|]. intros [-> Hin]%Hr. apply Hd. split; [done|].
    rewrite (Hiter _). by apply elem_of_elements.
  - by apply reader_loop_no_error in H1.
Qed.
End confined.

(** ** The other end of a socket

    What has arrived there, and whether a write has failed so far: a write that comes
    back has sent what it says, all of it unless it failed; one that does not come back
    is of a peer that does not read. *)

Class Socket (W : Type) `{Sink W} : Type := {
  received : W -> bytes;
  broken : W -> bool;
  offer_received b w r m w' :
    offer b w = Some (r, m, w') ->
    received w' = received w ++ take m b /\ broken w' = broken w || negb (is_ok r) /\
    (r = Ok tt -> m = length b);
  flush_received w :
    received (sink_flush w).2 = received w /\ broken (sink_flush w).2 = broken w
}.

(** The peer reads on: every write comes back. *)
Definition peer_reads (W : Type) `{Sink W} : Prop := forall b (w : W), offer b w <> None.

(** [test_support.rs]: [SharedWriter], which the tests read back. *)
Record SharedWriter : Type := mkSharedWriter { written : bytes }.
#[export] Instance SharedWriter_Sink : Sink SharedWriter := {
  offer b w := Some (Ok tt, length b, mkSharedWriter (written w ++ b));
  sink_flush := fun w => (Ok tt, w)
}.
#[export] Program Instance SharedWriter_Socket : Socket SharedWriter :=
  { received := written; broken := fun _ => false }.
Next Obligation. intros b w r m w' [= <- <- <-]. by rewrite firstn_all. Qed.
Next Obligation. done. Qed.

Lemma SharedWriter_reads : peer_reads SharedWriter.
Proof. done. Qed.

Section write_out.
Context {W : Type} `{Socket W}.
Implicit Types (w : BufWriter W) (sent msg buf : bytes).

(** Unless a write has failed, [buf] is in the buffer and the peer has [sent]. *)
Definition holding_back buf sent w : Prop :=
  broken (bw_inner w) = false -> bw_buf w = buf /\ received (bw_inner w) = sent.

(** Unless a write has failed, the peer has [sent], or the next message too. *)
Definition sent_or sent msg w : Prop :=
  broken (bw_inner w) = false -> received (bw_inner w) = sent \/ received (bw_inner w) = sent ++ msg.

Lemma holding_back_sent_or buf sent msg w : holding_back buf sent w -> sent_or sent msg w.
Proof. intros Hh Hb. left. by apply Hh. Qed.
Lemma holding_back_all sent msg w : holding_back [] (sent ++ msg) w -> sent_or sent msg w.
Proof. intros Hh Hb. right. by apply Hh. Qed.

(** The write half's calls on the socket, one by one. *)
Lemma bw_flush_buf_safely I buf sent w :
  I w -> (forall w', holding_back [] (sent ++ buf) w' -> I w') -> holding_back buf sent w ->
  safely I (fun r w' => holding_back [] (sent ++ buf) w' /\ (is_ok r = false -> broken (bw_inner w') = true))
    bw_flush_buf w.
Proof.
  intros Hi HI Hh. assert (H2 : forall w', holding_back [] (sent ++ buf) w' ->
    forall r : result IoError unit, (is_ok r = false -> broken (bw_inner w') = true) ->
    I w' /\ holding_back [] (sent ++ buf) w' /\ (is_ok r = false -> broken (bw_inner w') = true)) by eauto.
  cbn. split; [done|]. case_decide as He.
  - apply (H2 w); [|done]. intros Hb. destruct (Hh Hb) as [He' Hr]. split; [done|].
    by rewrite <- He', He, app_nil_r.
  - destruct (offer (bw_buf w) (bw_inner w)) as [[[r m] i]|] eqn:Ho; [|done].
    apply offer_received in Ho as (Hr & Hb & Hall). destruct r as [[]|e]; cbn in Hb.
    + apply H2; [|done]. intros Hb'. cbn in *. rewrite Hb, orb_false_r in Hb'.
      destruct (Hh Hb') as [<- <-]. by rewrite Hr, Hall, firstn_all.
    + rewrite orb_true_r in Hb. apply H2; [|done]. intros Hb'. cbn in *. congruence.
Qed.

Lemma bw_direct_safely I msg sent w :
  I w -> (forall w', holding_back [] (sent ++ msg) w' -> I w') -> holding_back [] sent w ->
  safely I (fun r w' => holding_back [] (sent ++ msg) w' /\ (is_ok r = false -> broken (bw_inner w') = true))
    (bw_direct msg) w.
Proof.
  intros Hi HI Hh. cbn. split; [done|].
  destruct (offer msg (bw_inner w)) as [[[r m] i]|] eqn:Ho; [|done].
  apply offer_received in Ho as (Hr & Hb & Hall).
  assert (Hh' : holding_back [] (sent ++ msg) (mkBufWriter i (bw_buf w))).
  { intros Hb'. cbn in *. rewrite Hb in Hb'. apply orb_false_iff in Hb' as [Hb' Hok].
    destruct (Hh Hb') as [-> <-]. destruct r as [[]|e]; [|done]. by rewrite Hr, Hall, firstn_all. }
  split; [by apply HI|]. split; [done|]. intros He. cbn. rewrite Hb, He. apply orb_true_r.
Qed.

(** A message through an empty buffer: at every step none of it is on the socket or
    all, and all at the end. *)
Lemma write_out_safely msg sent w :
  holding_back [] sent w ->
  safely (sent_or sent msg) (fun _ => holding_back [] (sent ++ msg)) (write_out msg) w.
Proof.
  intros Hh. assert (Hi : forall w', holding_back [] sent w' -> sent_or sent msg w')
    by (intros w'; apply holding_back_sent_or).
  assert (Hflush : forall w', holding_back [] (sent ++ msg) w' \/ holding_back msg sent w' ->
    safely (sent_or sent msg) (fun _ => holding_back [] (sent ++ msg)) bw_flush w').
  { intros w' Hw'. apply safely_bind. eapply (safely_mono _
      (fun r w' => holding_back [] (sent ++ msg) w' /\ (is_ok r = false -> broken (bw_inner w') = true))).
    - intros [u|e] w1 _ [Hw1 _]; [|done]. apply safely_atomic;
        destruct (sink_flush (bw_inner w1)) as [r i] eqn:Hf;
        pose proof (flush_received (bw_inner w1)) as [Hr Hb]; rewrite Hf in Hr, Hb; cbn in *.
      + by apply holding_back_all.
      + intros Hb'. cbn in *. right. rewrite Hr. apply Hw1. by rewrite <- Hb.
      + intros Hb'. cbn in *. rewrite Hr. apply Hw1. by rewrite <- Hb.
    - destruct Hw' as [Hw'|Hw'].
      + pose proof (bw_flush_buf_safely (sent_or sent msg) [] (sent ++ msg) w') as Hf.
        rewrite app_nil_r in Hf. apply Hf; [by apply holding_back_all| |done].
        intros ?; apply holding_back_all.
      + apply bw_flush_buf_safely; [by eapply holding_back_sent_or| |done].
        intros ?; apply holding_back_all. }
  apply safely_bind. cbn [bw_write_all safely]. split; [by apply Hi|]. case_decide.
  { apply safely_atomic; [by apply Hi| |apply Hflush; right];
      intros Hb; destruct (Hh Hb) as [He Hr]; cbn; [by left|by rewrite He]. }
  apply safely_bind. eapply (safely_mono _
    (fun r w' => holding_back [] sent w' /\ (is_ok r = false -> broken (bw_inner w') = true))).
  - intros [u|e] w1 _ [Hw1 Hbr].
    2:{ intros Hb. by rewrite Hbr in Hb. }
    case_decide.
    + eapply safely_mono; [|apply (bw_direct_safely _ msg sent)]; [..|done].
      * intros [u'|e] w2 _ [Hw2 _]; [|done]. by apply Hflush; left.
      * by apply Hi.
      * intros w'. apply holding_back_all.
    + apply safely_atomic; [by apply Hi| |apply Hflush; right];
        intros Hb; destruct (Hw1 Hb) as [He Hr]; cbn; [by left|by rewrite He].
  - case_decide; [|by split; [apply Hi|]].
    pose proof (bw_flush_buf_safely (sent_or sent msg) [] sent w) as Hf. rewrite app_nil_r in Hf.
    by apply Hf; [apply Hi| |].
Qed.

(** In at most five steps, all of them possible when the peer reads. *)
Lemma write_out_steps msg w : steps (write_out msg) w <= 5.
Proof.
  assert (Hf : forall w, steps bw_flush_buf w <= 1).
  { intros w'. cbn. case_decide; [done|]. by destruct (offer _ _) as [[[[] ?] ?]|]; cbn; lia. }
  assert (Hb : forall w, steps (bw_buffer msg) w <= 1) by (intros w'; cbn; lia).
  assert (Hd : forall w, steps (bw_direct msg) w <= 1).
  { intros w'. cbn. destruct (offer _ _) as [[[? ?] ?]|]; cbn; lia. }
  apply (steps_bind _ _ _ 3 2).
  - cbn [bw_write_all steps]. case_decide; [specialize (Hb w); lia|]. apply le_n_S.
    apply (steps_bind _ _ _ 1 1); [case_decide; [apply Hf|cbn; lia]|].
    intros _ w'. case_decide; [apply Hd|apply Hb].
  - intros _ w'. apply (steps_bind _ _ _ 1 1); [apply Hf|].
    intros _ w2. cbn. destruct (sink_flush _). cbn. lia.
Qed.

Lemma write_out_goes msg w :
  peer_reads W -> always (fun _ => True) (fun _ _ => True) (write_out msg) w.
Proof.
  intros Hr. assert (Hk : forall b (i : W), exists r m i', offer b i = Some (r, m, i')).
  { intros b i. specialize (Hr b i). destruct (offer b i) as [[[r m] i']|]; [eauto|done]. }
  assert (Hf : forall w, always (fun _ => True) (fun _ _ => True) bw_flush_buf w).
  { intros w'. cbn. split; [done|]. case_decide; [done|].
    destruct (Hk (bw_buf w') (bw_inner w')) as ([[]|e] & m & i' & ->); done. }
  assert (Hd : forall w, always (fun _ => True) (fun _ _ => True) (bw_direct msg) w).
  { intros w'. cbn. split; [done|]. destruct (Hk msg (bw_inner w')) as (r & m & i' & ->). done. }
  apply always_bind. eapply (always_mono _ (fun _ _ => True)).
  - intros [u|e] w1 _; [|done]. intros _. apply always_bind. eapply (always_mono _ (fun _ _ => True)); [|apply Hf].
    intros [u'|e] w2 _; [|done]. intros _. by apply always_atomic.
  - cbn [bw_write_all always]. split; [done|]. case_decide; [by apply always_atomic|].
    apply always_bind. eapply (always_mono _ (fun _ _ => True)).
    + intros [u|e] w1 _; [|done]. intros _. case_decide; [apply Hd|by apply always_atomic].
    + case_decide; [apply Hf|done].
Qed.
End write_out.

(** ** The two threads *)

Section pool.
Context {R W S : Type} `{Read R} `{Socket W} `{Execute S}.
Context (execClockL : Lens S Clock).
Context (order : Subscribers -> list (N * Sender)) (iter : gset bytes -> list bytes).
Context (q : N) (r : result ReadHalfError unit) (wf : World R S) (base : bytes) (wturns : nat).

Implicit Types (w : World R S) (c : Conn R W S).

Abbreviation thread := (prog (Conn R W S) ChannelsError (result SessionError unit)).

(** All the reader queues, and what the senders are when it is through. *)
Context (msgs : list bytes).
Context (wf_queue : cn_queues (w_channels wf) !! q = Some (mkQueue msgs true)).
Context (wf_unlisted : listed (guarded (cn_channels (w_channels wf))) q = false).
Context (turns_enough : length msgs < wturns).

Definition after_reader (result : result ReadHalfError unit) : thread :=
  drop_rh;; join_writer;; mret (map_err SeReadHalfError result).
Definition after_recv (t : nat) (x : result RecvError bytes) : thread :=
  match x with
  | Ok msg => p_then (zoom writerL (write_out msg)) (fun _ => writer_thread t)
  | Err _ => drop_wh
  end.
Definition drop_receiver_of c : result ChannelsError (result SessionError unit) * Conn R W S :=
  (Ok (Ok ()),
   let c := put conn_queuesL (drop_receiver (wh_receiver (co_wh c)) (view conn_queuesL c)) c in
   mkConn (co_world c) (co_wh c) (co_rh_alive c) true).

(** Where the calling thread is, with [popped] taken out of the queue so far, in how
    many steps at most it is through. *)
Inductive main_at (c : Conn R W S) (popped : list bytes) : thread -> nat -> Prop :=
| MainReads pr :
    co_rh_alive c = true -> (forall xs, oblivious (world_behind q xs) (steady q) pr) ->
    run pr (world_behind q popped (co_world c)) = Some (Ok r, wf) ->
    w_shutdown (co_world c) = false -> is_open (cn_queues (w_channels (co_world c))) q = true ->
    main_at c popped (zoom worldL pr ≫= after_reader)
      (steps pr (world_behind q popped (co_world c)) + 2)
| MainJoins :
    co_rh_alive c = false ->
    (co_writer_done c = false -> world_behind q popped (co_world c) = wf /\
       w_shutdown (co_world c) = false /\
       is_open (cn_queues (w_channels (co_world c))) q = true) ->
    main_at c popped (join_writer;; mret (map_err SeReadHalfError r)) 1
| MainDone :
    co_writer_done c = true -> main_at c popped (Done (Ok (map_err SeReadHalfError r))) 0.

(** Where the writer's thread is. *)
Inductive writer_at (c : Conn R W S) (popped : list bytes) : thread -> nat -> Prop :=
| WriterTop t :
    t + length popped = wturns -> holding_back [] (base ++ concat popped) (wh_writer (co_wh c)) ->
    co_writer_done c = false -> writer_at c popped (writer_thread t) (8 * t + 3)
| WriterWaits t :
    Datatypes.S t + length popped = wturns ->
    holding_back [] (base ++ concat popped) (wh_writer (co_wh c)) ->
    co_writer_done c = false -> writer_at c popped (p_then recv (after_recv t)) (8 * t + 10)
| WriterWrites t sent msg (f : BufWriter W -> option (prog (BufWriter W) IoError unit * BufWriter W)) :
    popped = sent ++ [msg] -> t + length popped = wturns ->
    safely (sent_or (base ++ concat sent) msg) (fun _ => holding_back [] (base ++ concat popped))
      (Step f) (wh_writer (co_wh c)) ->
    (peer_reads W -> always (fun _ => True) (fun _ _ => True) (Step f) (wh_writer (co_wh c))) ->
    co_writer_done c = false ->
    steps (Step f) (wh_writer (co_wh c)) <= 5 ->
    writer_at c popped (p_then (zoom writerL (Step f)) (fun _ => writer_thread t))
      (8 * t + 3 + steps (Step f) (wh_writer (co_wh c)))
| WriterFlushes :
    popped = msgs -> holding_back [] (base ++ concat popped) (wh_writer (co_wh c)) ->
    co_rh_alive c = false -> co_writer_done c = false -> writer_at c popped drop_wh 2
| WriterDrops :
    popped = msgs -> holding_back [] (base ++ concat popped) (wh_writer (co_wh c)) ->
    co_rh_alive c = false -> co_writer_done c = false ->
    writer_at c popped (atomic drop_receiver_of) 1
| WriterDone :
    popped = msgs -> holding_back [] (base ++ concat popped) (wh_writer (co_wh c)) ->
    co_rh_alive c = false -> co_writer_done c = true -> writer_at c popped (Done (Ok (Ok ()))) 0.

Lemma writer_at_main c c' popped pw nw :
  writer_at c popped pw nw -> co_wh c' = co_wh c -> co_writer_done c' = co_writer_done c ->
  (co_rh_alive c = false -> co_rh_alive c' = false) -> writer_at c' popped pw nw.
Proof.
  intros Hw Hwh Hd Ha.
  destruct Hw; rewrite <- Hwh in *; rewrite <- Hd in *; econstructor; eauto.
Qed.

Lemma pop_behind popped msg qs qs' :
  pop q qs = Some (msg, qs') ->
  queues_behind q (popped ++ [msg]) qs' = queues_behind q popped qs.
Proof.
  unfold pop, queues_behind. destruct (qs !! q) as [[[|m items] [|]]|] eqn:Hq; try done.
  intros [= <- <-]. apply map_eq. intros i. rewrite !lookup_alter.
  destruct (decide (q = i)) as [<-|Hne]; [|by rewrite lookup_insert_ne].
  rewrite lookup_insert_eq, Hq. cbn. unfold before. cbn. by rewrite <- app_assoc.
Qed.

Lemma pop_open msg qs qs' : pop q qs = Some (msg, qs') -> is_open qs q = true /\ is_open qs' q = true.
Proof.
  unfold pop, is_open. destruct (qs !! q) as [[[|m items] [|]]|] eqn:Hq; try done.
  intros [= <- <-]. by rewrite lookup_insert_eq.
Qed.

Lemma pop_none qs : is_open qs q = true -> pop q qs = None -> qs !! q = Some (mkQueue [] true).
Proof. unfold is_open, pop. by destruct (qs !! q) as [[[|m items] [|]]|]. Qed.

(** A step of the calling thread. *)
Lemma repl_main_step c popped pm nm pw nw :
  main_at c popped pm nm -> writer_at c popped pw nw ->
  match step_of pm c with
  | Some (pm', c') => exists nm', nm' < nm /\ main_at c' popped pm' nm' /\
      writer_at c' popped pw nw /\ co_wh c' = co_wh c
  | None => pm = Done (Ok (map_err SeReadHalfError r)) \/
      co_rh_alive c = false /\ co_writer_done c = false
  end.
Proof.
  intros Hm Hw. destruct Hm as [pr Ha Hob Hrun Hs Ho|Ha Hd|Hd].
  - destruct pr as [res|f].
    + cbn in Hrun. injection Hrun as -> Hwf. cbn. exists 1. split; [cbn; lia|]. split_and!; [|
        by eapply writer_at_main|done].
      by constructor.
    + assert (Hst : exists pr' w', f (co_world c) = Some (pr', w') /\
        f (world_behind q popped (co_world c)) = Some (pr', world_behind q popped w') /\
        steady q (co_world c) w' /\ forall xs, oblivious (world_behind q xs) (steady q) pr').
      { pose proof (Hob popped (co_world c)) as Hp.
        destruct (f (co_world c)) as [[pr' w']|] eqn:Hf.
        - exists pr', w'. destruct Hp as (Hp & Hsd & _). split_and!; [done..|]. intros xs.
          pose proof (Hob xs (co_world c)) as Hx. rewrite Hf in Hx. by destruct Hx as (_ & _ & Hx).
        - cbn [run] in Hrun. by rewrite Hp in Hrun. }
      destruct Hst as (pr' & w' & Hf & Hfb & [Hs' Ho'] & Hob'). cbn [run] in Hrun. rewrite Hfb in Hrun.
      assert (step_of (zoom worldL (Step f) ≫= after_reader) c =
              Some (zoom worldL pr' ≫= after_reader, put worldL w' c)) as ->.
      { cbn. by rewrite Hf. } exists (steps pr' (world_behind q popped w') + 2).
      split; [cbn [steps]; rewrite Hfb; lia|]. split_and!; [|by eapply writer_at_main|done].
      change w' with (co_world (put worldL w' c)) at 2.
      constructor; cbn; [done..|congruence|]. unfold same_open in Ho'. congruence.
  - cbn. destruct (co_writer_done c) eqn:Hdone; [|by right].
    exists 0. split; [lia|]. split_and!; [by constructor|by eapply writer_at_main|done].
  - by left.
Qed.

(** The calling thread does not mind what the writer does to the write half. *)
Lemma main_at_writer c c' popped pm nm :
  main_at c popped pm nm -> co_world c' = co_world c -> co_rh_alive c' = co_rh_alive c ->
  co_writer_done c' = co_writer_done c -> main_at c' popped pm nm.
Proof.
  destruct c as [w wh a d], c' as [w' wh' a' d']. cbn. intros Hm -> -> ->.
  inversion Hm; subst.
  - by apply (MainReads (mkConn w wh' a d)).
  - by constructor.
  - by constructor.
Qed.

Lemma main_at_pop c popped msg qs' pm nm :
  co_writer_done c = false ->
  main_at c popped pm nm -> pop q (view conn_queuesL c) = Some (msg, qs') ->
  main_at (put conn_queuesL qs' c) (popped ++ [msg]) pm nm.
Proof.
  intros Hwd Hm Hpop. destruct (pop_open _ _ _ Hpop) as [Ho Ho'].
  assert (Hb : world_behind q (popped ++ [msg]) (co_world (put conn_queuesL qs' c)) =
               world_behind q popped (co_world c)).
  { pose proof (pop_behind popped _ _ _ Hpop) as He. destruct c as [[rh [qs reg] e b] wh a d].
    unfold world_behind, channels_behind. cbn in He |- *. by rewrite He. }
  destruct Hm as [pr Ha Hob Hrun Hs _|Ha Hd|Hd]; [| |congruence].
  - rewrite <- Hb in *. by constructor.
  - constructor; [done|]. intros _. rewrite Hb. by destruct (Hd Hwd) as (? & ? & _).
Qed.

(** What the writer can rely on while it runs. *)
Lemma main_at_open c popped pm nm :
  co_writer_done c = false -> main_at c popped pm nm ->
  w_shutdown (co_world c) = false /\ is_open (cn_queues (w_channels (co_world c))) q = true /\
  (exists rest, msgs = popped ++ rest) /\
  (co_rh_alive c = false -> world_behind q popped (co_world c) = wf).
Proof.
  assert (Hlen : forall w, world_behind q popped w = wf -> exists rest, msgs = popped ++ rest).
  { intros [rh [qs reg] e b] <-. cbn in wf_queue. unfold queues_behind in wf_queue.
    rewrite lookup_alter_eq in wf_queue. destruct (qs !! q) as [[items o]|]; [|done].
    cbn in wf_queue. injection wf_queue as <- _. by eexists. }
  intros Hwd Hm. destruct Hm as [pr Ha Hob Hrun Hs Ho|Ha Hd|Hd]; [| |congruence].
  - split_and!; [done|done| |congruence].
    rewrite (oblivious_run _ _ _ _ (Hob popped)) in Hrun.
    destruct (run pr (co_world c)) as [[r1 w1]|]; [|done]. injection Hrun as _ Hw. eauto.
  - destruct (Hd Hwd) as (Hw & ? & ?). split_and!; eauto.
Qed.

(** The end of the writer's thread: what is in the buffer goes out. *)
Lemma drop_step c popped pm nm :
  wh_receiver (co_wh c) = q -> main_at c popped pm nm -> popped = msgs ->
  holding_back [] (base ++ concat popped) (wh_writer (co_wh c)) ->
  co_rh_alive c = false -> co_writer_done c = false ->
  match step_of (drop_wh : thread) c with
  | Some (pw', c') => exists popped' nw', nw' < 2 /\ main_at c' popped' pm nm /\
      writer_at c' popped' pw' nw' /\ wh_receiver (co_wh c') = q
  | None => ~ peer_reads W
  end.
Proof.
  intros Hq Hm Hp Hh Ha Hd.
  pose proof (bw_flush_buf_safely (fun _ => True) [] _ _ I (fun _ _ => I) Hh) as Hfl.
  rewrite app_nil_r in Hfl. unfold drop_wh, bw_flush_buf in *. destruct Hfl as [_ Hfl].
  cbn [zoom p_then step_of view writerL].
  assert (Hend : forall b, holding_back [] (base ++ concat popped) b ->
    exists popped' nw', nw' < 2 /\ main_at (put writerL b c) popped' pm nm /\
        writer_at (put writerL b c) popped' (atomic drop_receiver_of) nw' /\
      wh_receiver (co_wh (put writerL b c)) = q).
  { intros b Hb. exists popped, 1. split; [lia|].
    split_and!; [by eapply main_at_writer| |done]. by apply WriterDrops. }
  case_decide as Hbuf.
  - apply Hend. by destruct Hfl as (_ & Hb & _).
  - destruct (offer _ _) as [[[[[]|e] m] i]|] eqn:Ho;
      [apply Hend; by destruct Hfl as (_ & Hb & _)..|].
    intros Hr. by apply (Hr _ _ Ho).
Qed.

(** A step of the writer's thread. *)
Lemma writer_step c popped pm nm pw nw :
  wh_receiver (co_wh c) = q -> main_at c popped pm nm -> writer_at c popped pw nw ->
  match step_of pw c with
  | Some (pw', c') => exists popped' nw', nw' < nw /\ main_at c' popped' pm nm /\
      writer_at c' popped' pw' nw' /\ wh_receiver (co_wh c') = q
  | None => pw = Done (Ok (Ok ())) \/ co_rh_alive c = true \/ ~ peer_reads W
  end.
Proof.
  intros Hq Hm Hw. destruct Hw as [t Ht Hh Hd|t Ht Hh Hd|t sent msg f Hp Ht Hal Hgo Hd Hn|
    Hp Hh Ha Hd|Hp Hh Ha Hd|Hp Hh Ha Hd]; [..|by left];
    destruct (main_at_open _ _ _ _ Hd Hm) as (Hsh & Hop & [rest Hrest] & Hwf);
    pose proof (f_equal length Hrest) as Hle; rewrite length_app in Hle.
  - destruct t as [|t]; [lia|]. cbn. rewrite Hsh. exists popped, (8 * t + 10).
    split; [lia|]. split_and!; [done| |done]. by apply (WriterWaits _ _ t).
  - cbn [p_then recv step_of]. rewrite Hq.
    destruct (pop q (view conn_queuesL c)) as [[msg qs']|] eqn:Hpop.
    + pose proof (write_out_safely msg _ _ Hh) as Hal.
      pose proof (write_out_steps msg (wh_writer (co_wh c))) as Hn.
      exists (popped ++ [msg]), (8 * t + 3 + steps (write_out msg)
        (wh_writer (co_wh (put conn_queuesL qs' c)))).
      change (co_wh c) with (co_wh (put conn_queuesL qs' c)) in Hal, Hn.
      split; [lia|]. split_and!; [by apply main_at_pop| |done].
      eapply (WriterWrites _ _ t popped msg);
        [done|rewrite length_app; cbn; lia| |intros Hr; exact (write_out_goes msg _ Hr)|done|exact Hn].
      rewrite concat_app, app_assoc. cbn [concat]. rewrite app_nil_r. exact Hal.
    + destruct (sender_alive c) eqn:Hal.
      * right. left. unfold sender_alive in Hal. destruct (co_rh_alive c) eqn:Ha; [done|].
        specialize (Hwf eq_refl). rewrite Hq in Hal. cbn [orb] in Hal.
        assert (listed (guarded (cn_channels (w_channels (co_world c)))) q = false) as Hl
          by (rewrite <- Hwf in wf_unlisted; exact wf_unlisted).
        congruence.
      * unfold sender_alive in Hal. apply orb_false_iff in Hal as [Ha _]. specialize (Hwf Ha).
        exists popped, 2. split; [lia|]. split_and!; [done| |done]. apply WriterFlushes; try done.
        pose proof (pop_none _ Hop Hpop) as Hnil. rewrite <- Hwf in wf_queue.
        destruct c as [[rh [qs reg] e b] wh a d]. cbn in Hnil, wf_queue.
        unfold queues_behind in wf_queue. rewrite lookup_alter_eq, Hnil in wf_queue. cbn in wf_queue.
        injection wf_queue as Hmsgs. by rewrite app_nil_r in Hmsgs.
  - cbn [zoom p_then step_of view writerL]. destruct Hal as [_ Hal]. cbn in Hn.
    cbn [steps always] in *. destruct (f (wh_writer (co_wh c))) as [[[res|g] b]|] eqn:Hf.
    + destruct Hal as [_ Hh]. exists popped, (8 * t + 3). split; [cbn; lia|].
      split_and!; [by eapply main_at_writer| |done]. by apply WriterTop.
    + exists popped, (8 * t + 3 + steps (Step g) (wh_writer (co_wh (put writerL b c)))).
      split; [change (wh_writer (co_wh (put writerL b c))) with b; lia|].
      split_and!; [by eapply main_at_writer| |done].
      eapply (WriterWrites _ _ t sent msg g); [done|done|exact Hal| |done|].
      { intros Hr. by destruct (Hgo Hr) as [_ Hg]. }
      change (wh_writer (co_wh (put writerL b c))) with b. lia.
    + right. right. intros Hr. by destruct (Hgo Hr).
  - pose proof (drop_step _ _ _ _ Hq Hm Hp Hh Ha Hd) as Hdrop.
    destruct (step_of drop_wh c) as [[pw' c']|]; [exact Hdrop|by right; right].
  - cbn. exists popped, 0. split; [lia|]. split_and!; [| |done].
    + destruct Hm as [pr Ha' ? ? ? ?|Ha' Hd'|Hd']; [congruence|by apply MainJoins|congruence].
    + by apply WriterDone.
Qed.

Definition pool_at (cfg : list thread * Conn R W S) (n : nat) : Prop :=
  exists pm pw popped nm nw,
    cfg.1 = [pm; pw] /\ main_at cfg.2 popped pm nm /\ writer_at cfg.2 popped pw nw /\
    wh_receiver (co_wh cfg.2) = q /\ n = nm + nw.

Lemma pool_step i cfg cfg' n :
  pool_at cfg n -> step_thread i cfg = Some cfg' -> exists n', n' < n /\ pool_at cfg' n'.
Proof.
  intros (pm & pw & popped & nm & nw & Hps & Hm & Hw & Hq & ->). destruct cfg as [ps c].
  destruct cfg' as [ps' c']. cbn in *. subst ps. intros Hs.
  apply step_thread_inv in Hs as (p & p' & Hp & Hstep & ->).
  destruct i as [|[|i]]; cbn in Hp; [| |done]; injection Hp as <-.
  - pose proof (repl_main_step _ _ _ _ _ _ Hm Hw) as Hst. rewrite Hstep in Hst.
    destruct Hst as (nm' & Hlt & Hm' & Hw' & Hwh). exists (nm' + nw). split; [lia|].
    exists p', pw, popped, nm', nw. cbn. by rewrite Hwh.
  - pose proof (writer_step _ _ _ _ _ _ Hq Hm Hw) as Hst. rewrite Hstep in Hst.
    destruct Hst as (popped' & nw' & Hlt & Hm' & Hw' & Hwh). exists (nm + nw'). split; [lia|].
    by exists pm, p', popped', nm, nw'.
Qed.

Lemma pool_sched sch cfg cfg' n :
  pool_at cfg n -> sched sch cfg = Some cfg' ->
  exists n', length sch + n' <= n /\ pool_at cfg' n'.
Proof. apply (sched_bounded pool_at). intros i c1 c2 m. apply pool_step. Qed.

(** A thread that has ended has ended well. *)
Lemma main_at_ended c popped x nm :
  main_at c popped (Done x) nm -> x = Ok (map_err SeReadHalfError r) /\ co_writer_done c = true.
Proof.
  intros Hm. inversion Hm as [pr ? ? Hrun| |]; [|done]. by destruct pr as [[]|].
Qed.
Lemma writer_at_ended c popped x nw :
  writer_at c popped (Done x) nw ->
  x = Ok (Ok ()) /\ popped = msgs /\ holding_back [] (base ++ concat msgs) (wh_writer (co_wh c)).
Proof. intros Hw. inversion Hw as [t| | | | |]; try discriminate; [by destruct t|]. by subst. Qed.

Definition ended (ps : list thread) : Prop := Forall (fun p => exists x, p = Done x) ps.

Lemma pool_ended cfg n :
  pool_at cfg n -> ended cfg.1 ->
  cfg.1 = [Done (Ok (map_err SeReadHalfError r)); Done (Ok (Ok ()))] /\ co_writer_done cfg.2 = true /\
  holding_back [] (base ++ concat msgs) (wh_writer (co_wh cfg.2)).
Proof.
  intros (pm & pw & popped & nm & nw & -> & Hm & Hw & Hq & ->) He.
  apply Forall_cons_1 in He as [[x ->] He]. apply Forall_cons_1 in He as [[y ->] _].
  apply main_at_ended in Hm as [-> Hd]. by apply writer_at_ended in Hw as (-> & _ & Hh).
Qed.

Lemma pool_progress cfg n :
  peer_reads W -> pool_at cfg n -> ended cfg.1 \/ exists i cfg', step_thread i cfg = Some cfg'.
Proof.
  intros Hreads (pm & pw & popped & nm & nw & Hps & Hm & Hw & Hq & ->). destruct cfg as [ps c].
  cbn in *. subst ps. pose proof (repl_main_step _ _ _ _ _ _ Hm Hw) as Hsm.
  pose proof (writer_step _ _ _ _ _ _ Hq Hm Hw) as Hsw.
  destruct (step_of pm c) as [[pm' c']|] eqn:Hpm.
  { right. exists 0. eexists. by rewrite (step_thread_lookup _ _ pm), Hpm. }
  destruct (step_of pw c) as [[pw' c']|] eqn:Hpw.
  { right. exists 1. eexists. by rewrite (step_thread_lookup _ _ pw), Hpw. }
  left. destruct Hsm as [->|[Ha Hd]].
  - destruct Hsw as [->|[Ha|Hn]]; [repeat constructor; by eexists| |done]. exfalso.
    apply main_at_ended in Hm as [_ Hd]. destruct Hw; congruence.
  - destruct Hsw as [->|[Ha'|Hn]]; [|congruence|done]. exfalso.
    inversion Hw as [t| | | | |]; try discriminate; [by destruct t|congruence].
Qed.

Lemma pool_received cfg n :
  pool_at cfg n -> broken (bw_inner (wh_writer (co_wh cfg.2))) = false ->
  exists k, received (bw_inner (wh_writer (co_wh cfg.2))) = base ++ concat (take k msgs).
Proof.
  intros (pm & pw & popped & nm & nw & Hps & Hm & Hw & Hq & ->) Hbr. destruct cfg as [ps c].
  cbn in *. clear Hps.
  assert (Htake : forall rest k, msgs = popped ++ rest -> k <= length popped ->
                  take k popped = take k msgs).
  { intros rest k -> Hk. by rewrite take_app_le by done. }
  destruct Hw as [t Ht Hh Hd|t Ht Hh Hd|t sent msg f Hp Ht Hal Hgo Hd Hn|Hp Hh Ha Hd|Hp Hh Ha Hd|Hp Hh Ha Hd].
  6:{ exists (length popped). rewrite <- Hp, firstn_all. by apply Hh. }
  all: destruct (main_at_open _ _ _ _ Hd Hm) as (_ & _ & [rest Hrest] & _).
  3:{ destruct Hal as [Hal _]. destruct (Hal Hbr) as [Hr|Hr].
      - exists (length sent). rewrite Hr. f_equal. f_equal.
        rewrite <- (Htake rest) by (first [done | rewrite Hp, length_app; lia]).
        by rewrite Hp, take_app_length.
      - exists (length popped). rewrite Hr, <- (Htake rest), firstn_all by done.
        rewrite Hp, concat_app. cbn. by rewrite app_nil_r, app_assoc. }
  all: exists (length popped); rewrite <- (Htake rest), firstn_all by done; by apply Hh.
Qed.
End pool.

(** ** Properties *)

#[export] Instance steady_preorder {R S} q : PreOrder (steady (R := R) (S := S) q).
Proof. unfold steady, same_open. split; [done|]. intros w1 w2 w3 [??] [??]. split; congruence. Qed.

(** Every sender in the registry belongs to a queue there is. *)
Definition senders_known (qs : Queues) (reg : Registry) : Prop :=
  forall ch id tx, subscribed reg ch id = Some tx -> is_Some (qs !! tx).

Section properties.
Context {R W S : Type} `{Read R} `{Socket W} `{Execute S}.
Context (clk : Lens S Clock).
Context (order : Subscribers -> list (N * Sender)) (iter : gset bytes -> list bytes).
Context (order_perm : forall subs, order subs ≡ₚ map_to_list subs).
Context (iter_perm : forall s, iter s ≡ₚ elements s).

(** The state [repl] starts its two threads in is a state of the pool. *)
Lemma repl_start_pool id (reader : R) (sock : W) qs reg (exec : S) reads fuel turns r wf msgs o wturns :
  senders_known qs reg ->
  let c0 := repl_start (Session_new id reader sock) (channels_at qs reg) exec false in
  let q := wh_receiver (co_wh c0) in
  run (repl_reader clk order iter reads fuel turns) (co_world c0) = Some (Ok r, wf) ->
  cn_queues (w_channels wf) !! q = Some (mkQueue msgs o) ->
  length msgs < wturns ->
  cn_queues (w_channels wf) !! q = Some (mkQueue msgs true) /\
  listed (guarded (cn_channels (w_channels wf))) q = false /\
  exists n, pool_at q r wf (received sock) wturns msgs
    (repl clk order iter reads fuel turns wturns, c0) n.
Proof.
  intros Hknown c0 q Hrun Hmsgs Hlen.
  assert (Hob : forall xs, oblivious (world_behind q xs) (steady q)
                  (repl_reader clk order iter reads fuel turns)).
  { intros xs. by apply repl_reader_oblivious. }
  assert (Hfresh : cn_queues (w_channels (co_world c0)) !! q = Some (mkQueue [] true)).
  { unfold q, c0. cbn. by rewrite lookup_insert_eq. }
  assert (Hopen : is_open (cn_queues (w_channels (co_world c0))) q = true).
  { unfold is_open. by rewrite Hfresh. }
  assert (Hconf : confined id q (co_world c0)).
  { split; [done|]. split; [done|]. do 2 eexists. split; [done|]. intros ch id' Hsub.
    apply Hknown in Hsub as [x Hx]. change (qs !! (channel qs).1 = Some x) in Hx.
    by rewrite channel_fresh in Hx. }
  assert (Hbehind : world_behind q [] (co_world c0) = co_world c0).
  { unfold world_behind, channels_behind, queues_behind. cbn. f_equal. f_equal.
    apply alter_id. by intros [items o'] _. }
  split_and!.
  - destruct (oblivious_run_R _ _ _ _ _ _ (Hob []) Hrun) as [_ Ho]. unfold same_open in Ho.
    rewrite Hopen in Ho. unfold is_open in Ho. rewrite Hmsgs in Ho. cbn in Ho. by subst o.
  - eapply (repl_reader_unlisted clk order iter order_perm id q); eauto.
  - eexists. exists (repl_main clk order iter reads fuel turns), (writer_thread wturns), [].
    do 2 eexists. split; [reflexivity|]. split_and!; [|apply WriterTop|done|done].
    + apply MainReads; [done|exact Hob|rewrite <- Hbehind in Hrun; exact Hrun|done|done].
    + cbn. lia.
    + intros _. cbn. by rewrite app_nil_r.
    + done.
Qed.

(** C10: what the reader queues is what the client gets.  A session starts in a shared
    state in which the shutdown flag is down and stays down; its reader, run with no
    other session in between, has queued the replies [msgs] by the time its loop is
    through.  Whatever the schedule of the session's two threads, at every point at
    which no write to the socket has failed, the socket has the first so many of these
    replies, whole and in the order they were queued.  Once both threads have ended,
    [repl] answers what the reader's loop ended with, the write half is gone, and
    unless a write has failed the socket has all of the replies. *)
Theorem repl_output (id : N) (reader : R) (sock : W) (qs : Queues) (reg : Registry) (exec : S)
    (reads fuel turns wturns : nat) (r : result ReadHalfError unit) (wf : World R S)
    (msgs : list bytes) (o : bool) (sch : list nat) ps (c : Conn R W S) :
  senders_known qs reg ->
  let c0 := repl_start (Session_new id reader sock) (channels_at qs reg) exec false in
  run (repl_reader clk order iter reads fuel turns) (co_world c0) = Some (Ok r, wf) ->
  cn_queues (w_channels wf) !! wh_receiver (co_wh c0) = Some (mkQueue msgs o) ->
  length msgs < wturns ->
  sched sch (repl clk order iter reads fuel turns wturns, c0) = Some (ps, c) ->
  let client := bw_inner (wh_writer (co_wh c)) in
  (broken client = false -> exists k, received client = received sock ++ concat (take k msgs)) /\
  (Forall (fun p => exists x, p = Done x) ps ->
   ps = [Done (Ok (map_err SeReadHalfError r)); Done (Ok (Ok ()))] /\ co_writer_done c = true /\
   (broken client = false -> received client = received sock ++ concat msgs)).
Proof.
  intros Hk c0 Hrun Hmsgs Hlen Hs client.
  destruct (repl_start_pool _ _ _ _ _ _ _ _ _ _ _ _ _ _ Hk Hrun Hmsgs Hlen)
    as (Hmsgs' & Hun & n & Hp).
  destruct (pool_sched _ _ _ _ _ _ Hmsgs' Hun Hlen _ _ _ _ Hp Hs) as (n' & _ & Hp').
  split.
  { intros Hb. by eapply pool_received in Hp'. }
  intros Hdone. eapply pool_ended in Hp' as (He & Hd & Hh); [|exact Hdone].
  split; [exact He|]. split; [exact Hd|]. intros Hb. by apply Hh.
Qed.

(** C16: a session ends.  A session starts in a shared state in which the shutdown flag
    is down and stays down, with a client that takes what it is sent, though writes to
    it may fail.  Once its reader's loop, run with no other session in between, is
    through, however it ended, nothing keeps [repl] from returning: no schedule of the
    two threads is longer than a bound, and none is stuck before both have ended,
    because the reader leaves no sender of its queue behind, in the registry or in its
    own hands, so that the writer, parked in [recv], drains the queue and gives up. *)
Theorem repl_ends (id : N) (reader : R) (sock : W) (qs : Queues) (reg : Registry) (exec : S)
    (reads fuel turns wturns : nat) (r : result ReadHalfError unit) (wf : World R S)
    (msgs : list bytes) (o : bool) :
  senders_known qs reg -> peer_reads W ->
  let c0 := repl_start (Session_new id reader sock) (channels_at qs reg) exec false in
  run (repl_reader clk order iter reads fuel turns) (co_world c0) = Some (Ok r, wf) ->
  cn_queues (w_channels wf) !! wh_receiver (co_wh c0) = Some (mkQueue msgs o) ->
  length msgs < wturns ->
  exists bound, forall sch cfg,
    sched sch (repl clk order iter reads fuel turns wturns, c0) = Some cfg ->
    length sch <= bound /\
    (Forall (fun p => exists x, p = Done x) cfg.1 \/
     exists i cfg', step_thread i cfg = Some cfg').
Proof.
  intros Hk Hreads c0 Hrun Hmsgs Hlen.
  destruct (repl_start_pool _ _ _ _ _ _ _ _ _ _ _ _ _ _ Hk Hrun Hmsgs Hlen)
    as (Hmsgs' & Hun & n & Hp).
  exists n. intros sch cfg Hs.
  destruct (pool_sched _ _ _ _ _ _ Hmsgs' Hun Hlen _ _ _ _ Hp Hs) as (n' & Hle & Hp').
  split; [lia|]. by eapply pool_progress in Hp'.
Qed.
End properties.

(** A client that sends [PING] and a [SUBSCRIBE] and hangs up. *)
Definition sample_script : Script :=
  [Ok (encode (Array [BulkString (bstr "PING")]));
   Ok (encode (Array [BulkString (bstr "SUBSCRIBE"); BulkString (bstr "a")]))].
Definition sample_exec : Executor Recording.RecordingRepo :=
  mkExecutor (cache_new (clock_at 5) ∅) (Recording.mkRecordingRepo (mutex_new [])).
Definition sample_clk : Lens (Executor Recording.RecordingRepo) Clock := lens_comp cacheL clockL.
Definition sample_conn : Conn Script SharedWriter (Executor Recording.RecordingRepo) :=
  repl_start (Session_new 1%N sample_script (mkSharedWriter [])) (channels_at ∅ ∅) sample_exec false.
Definition sample_end : World Script (Executor Recording.RecordingRepo) :=
  match run (repl_reader sample_clk map_to_list elements 5 5 5) (co_world sample_conn) with
  | Some (_, w) => w
  | None => co_world sample_conn
  end.
Definition sample_msgs : list bytes :=
  [bstr "+PONG" ++ crlf;
   to_bytes (RArray [RBulkString (bstr "subscribe"); RBulkString (bstr "a"); RInteger 1])].

Lemma senders_known_empty : senders_known ∅ ∅.
Proof. intros ch id tx. unfold subscribed. rewrite lookup_empty. discriminate. Qed.

(** The reader through all of its steps, then the writer, then the join. *)
Definition sample_schedule : list nat := replicate 23 0 ++ replicate 16 1 ++ [0].
Definition sample_pool : option (list (prog (Conn Script SharedWriter (Executor Recording.RecordingRepo))
    ChannelsError (result SessionError unit)) *
    Conn Script SharedWriter (Executor Recording.RecordingRepo)) :=
  sched sample_schedule (repl sample_clk map_to_list elements 5 5 5 3, sample_conn).

(** The same on a connection that fails the first writes.  Here one fails: the session
    goes on, and the reply, still in the buffer, goes out with the next one. *)
Record Flaky : Type := mkFlaky { arrived : bytes; failing : nat; failed : bool }.
#[export] Instance Flaky_Sink : Sink Flaky := {
  offer b w :=
    Some match failing w with
         | O => (Ok tt, length b, mkFlaky (arrived w ++ b) 0 (failed w))
         | S n => (Err (mkIoError OtherIo), 0, mkFlaky (arrived w) n true)
         end;
  sink_flush := fun w => (Ok tt, w)
}.
#[export] Program Instance Flaky_Socket : Socket Flaky := { received := arrived; broken := failed }.
Next Obligation.
  intros b w r m w' [= H]. destruct (failing w); injection H as <- <- <-; cbn; [|by rewrite app_nil_r, orb_true_r].
  by rewrite firstn_all, orb_false_r.
Qed.
Next Obligation. done. Qed.

Lemma failed_write_survived :
  match sched (replicate 23 0 ++ replicate 15 1 ++ [0])
      (repl sample_clk map_to_list elements 5 5 5 3,
       repl_start (Session_new 1%N sample_script (mkFlaky [] 1 false)) (channels_at ∅ ∅) sample_exec false) with
  | Some (ps, c) => Some (ps, arrived (bw_inner (wh_writer (co_wh c))))
  | None => None
  end = Some ([Done (Ok (Ok ())); Done (Ok (Ok ()))], concat sample_msgs).
Proof. vm_compute. reflexivity. Qed.

Lemma sample_pool_runs :
  match sample_pool with
  | Some (ps, _) => forallb (fun p => match p with Done _ => true | Step _ => false end) ps
  | None => false
  end = true.
Proof. vm_compute. reflexivity. Qed.

Lemma repl_output_witness :
  exists ps c, sample_pool = Some (ps, c) /\
    received (bw_inner (wh_writer (co_wh c))) = concat sample_msgs.
Proof.
  pose proof sample_pool_runs as Hrun. destruct sample_pool as [[ps c]|] eqn:Hs; [|discriminate].
  exists ps, c. split; [reflexivity|].
  destruct (repl_output sample_clk map_to_list elements (fun _ => reflexivity _)
    (fun _ => reflexivity _) 1%N sample_script (mkSharedWriter []) ∅ ∅ sample_exec 5 5 5 3
    (Ok tt) sample_end sample_msgs true sample_schedule ps c)
    as (_ & Hend).
  - exact senders_known_empty.
  - vm_compute. reflexivity.
  - vm_compute. reflexivity.
  - vm_compute. lia.
  - exact Hs.
  - destruct Hend as (_ & _ & Hrec); [|exact (Hrec eq_refl)].
    rewrite forallb_forall in Hrun. apply Forall_forall. intros p Hp.
    apply list_elem_of_In, Hrun in Hp. destruct p; [by eexists|discriminate].
Defined.

Lemma repl_ends_witness :
  exists bound, forall sch cfg,
    sched sch (repl sample_clk map_to_list elements 5 5 5 3, sample_conn) = Some cfg ->
    length sch <= bound /\
    (Forall (fun p => exists x, p = Done x) cfg.1 \/
     exists i cfg', step_thread i cfg = Some cfg').
Proof.
  apply (repl_ends sample_clk map_to_list elements (fun _ => reflexivity _)
    (fun _ => reflexivity _) 1%N sample_script (mkSharedWriter []) ∅ ∅ sample_exec 5 5 5 3
    (Ok tt) sample_end sample_msgs true).
  - exact senders_known_empty.
  - exact SharedWriter_reads.
  - vm_compute. reflexivity.
  - vm_compute. reflexivity.
  - vm_compute. lia.
Defined.
