(* ===== verification/Crowd.v ===== *)
(** * Crowd: the sessions of a server, its registry, its cache

    Any number of sessions side by side: each has the two threads of [Session::repl],
    all share the registry, the queues, the executor and the shutdown flag; next to
    them a thread raises the flag, one takes snapshots and one sweeps.  The reference
    is one sequence of events: who is in which channel, what each client has been
    sent, and what the commands have done to the map.  CrowdSpec.v proves that the
    threads, interleaved in any way, implement it. *)

From stdpp Require Import vector finite.
From S2P Require Import Prelude Effects Threads RustStd Time Command Frame CommandFrame.
From S2P Require Import Cache Mpsc Channels Ports Executor Files Persister Concurrent Points.
From S2P Require Import Reply Inbound Session SessionSpec Stream WriteHalf.

(** ** The sessions *)

(** One session, without what it shares with the others. *)
Record Slot (R W : Type) : Type := mkSlot {
  sl_rh : ReadHalf R;
  sl_wh : WriteHalf W;
  sl_rh_alive : bool;
  sl_writer_done : bool
}.
Arguments mkSlot {R W} sl_rh sl_wh sl_rh_alive sl_writer_done.
Arguments sl_rh {R W} s.
Arguments sl_wh {R W} s.
Arguments sl_rh_alive {R W} s.
Arguments sl_writer_done {R W} s.

Record Site (R W S : Type) (n : nat) : Type := mkSite {
  st_slots : vec (Slot R W) n;
  st_channels : ChannelsState;
  st_exec : S;
  st_shutdown : bool
}.
Arguments mkSite {R W S n} st_slots st_channels st_exec st_shutdown.
Arguments st_slots {R W S n} s.
Arguments st_channels {R W S n} s.
Arguments st_exec {R W S n} s.
Arguments st_shutdown {R W S n} s.

Lemma vinsert_twice {A n} (i : fin n) (x y : A) (v : vec A n) :
  vinsert i x (vinsert i y v) = vinsert i x v.
Proof.
  apply vec_to_list_inj2. rewrite !vec_to_list_insert. apply list_insert_insert_eq.
Qed.

Section site.
Context {R W S : Type} {n : nat}.
Implicit Types (s : Site R W S n) (c : Conn R W S).

(** What session [i]'s threads see. *)
Definition conn_of (i : fin n) s : Conn R W S :=
  let sl := st_slots s !!! i in
  mkConn (mkWorld (sl_rh sl) (st_channels s) (st_exec s) (st_shutdown s)) (sl_wh sl)
    (sl_rh_alive sl) (sl_writer_done sl).
Definition put_conn (i : fin n) c s : Site R W S n :=
  let w := co_world c in
  mkSite (vinsert i (mkSlot (w_rh w) (co_wh c) (co_rh_alive c) (co_writer_done c)) (st_slots s))
    (w_channels w) (w_exec w) (w_shutdown w).

Lemma conn_view_put i c s : conn_of i (put_conn i c s) = c.
Proof. unfold conn_of, put_conn. cbn. rewrite vlookup_insert. by destruct c as [[] ? ? ?]. Qed.
Lemma conn_put_view i s : put_conn i (conn_of i s) s = s.
Proof.
  destruct s as [sls ch e b]. unfold conn_of, put_conn. cbn. f_equal.
  transitivity (vinsert i (sls !!! i) sls); [|apply vlookup_insert_self].
  f_equal. by destruct (sls !!! i).
Qed.
Lemma conn_put_put i c c' s : put_conn i c (put_conn i c' s) = put_conn i c s.
Proof. unfold put_conn. cbn. by rewrite vinsert_twice. Qed.

Definition connL (i : fin n) : Lens (Site R W S n) (Conn R W S) :=
  mkLens (conn_of i) (put_conn i) (conn_view_put i) (conn_put_view i) (conn_put_put i).
End site.

(** Every session split, one after the other, each with a queue of its own. *)
Fixpoint split_all {R W n} (ss : vec (Session R W) n) (qs : Queues) : vec (Slot R W) n * Queues :=
  match ss with
  | [#] => ([#], qs)
  | s ::: ss =>
      let '(rh, wh, qs1) := split s qs in
      let '(sls, qs2) := split_all ss qs1 in
      (mkSlot rh wh true false ::: sls, qs2)
  end.

Section pool.
Context {R W S : Type} {n : nat} `{Read R} `{Sink W} `{Execute S}.
Context (execClockL : Lens S Clock).
Context (order : Subscribers -> list (N * Sender)) (iter : gset bytes -> list bytes).

Abbreviation thread := (prog (Site R W S n) ChannelsError (result SessionError unit)).

(** [shutdown.store(true, Ordering::Release)]. *)
Definition raise_flag : thread :=
  atomic (fun s => (Ok (Ok ()), mkSite (st_slots s) (st_channels s) (st_exec s) true)).

(** The sessions' main threads, their writers' threads, the one that raises the flag,
    and the server's own. *)
Definition crowd_pool (reads fuel turns wturns : nat) (background : list thread) : list thread :=
  ((fun i => zoom (connL i) (repl_main execClockL order iter reads fuel turns)) <$> fin_enum n) ++
  ((fun i => zoom (connL i) (writer_thread wturns)) <$> fin_enum n) ++ raise_flag :: background.

Definition crowd_start (ss : vec (Session R W) n) (exec : S) : Site R W S n :=
  let '(sls, qs) := split_all ss ∅ in mkSite sls (channels_new qs) exec false.

Definition site_execL : Lens (Site R W S n) S :=
  mkLens st_exec (fun e s => mkSite (st_slots s) (st_channels s) e (st_shutdown s))
    (fun _ _ => eq_refl) (fun s => match s with mkSite _ _ _ _ => eq_refl end)
    (fun _ _ _ => eq_refl).
End pool.

(** *** The persistence thread and the sweeper *)

Section background.
Context `{Wincode} {R W : Type} {n : nat}.

Abbreviation thread := (prog (Site R W (Executor Persister) n) ChannelsError (result SessionError unit)).

(** So many turns; either goes on whatever comes of one. *)
Fixpoint snapshots (turns : nat) : thread :=
  match turns with
  | O => mret (Ok ())
  | S turns' => p_then (zoom (lens_comp site_execL partsL) snapshot) (fun _ => snapshots turns')
  end.
Fixpoint sweeps (turns : nat) : thread :=
  match turns with
  | O => mret (Ok ())
  | S turns' => p_then (zoom (lens_comp site_execL cacheL) KvStore.remove_expired)
                  (fun _ => sweeps turns')
  end.
End background.

(** ** The reference *)

(** What a session does that others can see, the end of its receiver, and an effect on
    the map, by a session or by the sweeper. *)
Inductive Event : Type :=
| Joined (id : N) (ch : bytes)
| Left (id : N) (ch : bytes)
| Published (id : N) (ch msg : bytes) (sent_count : N)
| Said (id : N) (bs : bytes)
| Closed (id : N)
| Touched (by_ : option N) (ev : Effect).

Record Crowd : Type := mkCrowd {
  members : bytes -> gset N;
  closed : gset N;
  inbox : N -> list bytes
}.

(** Those a message published now would reach. *)
Definition reached (c : Crowd) (ch : bytes) : gset N := members c ch ∖ closed c.

Definition set_members (ch : bytes) (ids : gset N) (c : Crowd) : Crowd :=
  mkCrowd (fun ch' => if decide (ch' = ch) then ids else members c ch') (closed c) (inbox c).
Definition deliver (ids : gset N) (bs : bytes) (c : Crowd) : Crowd :=
  mkCrowd (members c) (closed c) (fun id => inbox c id ++ (if decide (id ∈ ids) then [bs] else [])).

Definition crowd_step (c : Crowd) (ev : Event) : Crowd :=
  match ev with
  | Joined id ch => set_members ch ({[ id ]} ∪ members c ch) c
  | Left id ch => set_members ch (members c ch ∖ {[ id ]}) c
  | Published _ ch msg _ =>
      set_members ch (reached c ch) (deliver (reached c ch) (push_message ch msg) c)
  | Said id bs => deliver {[ id ]} bs c
  | Closed id => mkCrowd (members c) ({[ id ]} ∪ closed c) (inbox c)
  | Touched _ _ => c
  end.

Definition nobody : Crowd := mkCrowd (fun _ => ∅) ∅ (fun _ => []).
Definition crowd (evs : list Event) : Crowd := fold_left crowd_step evs nobody.

(** The effects on the map. *)
Definition effects (evs : list Event) : list Effect :=
  omap (fun ev => match ev with Touched _ e => Some e | _ => None end) evs.

(** The number a [PUBLISH] gives is that of the sessions it reached. *)
Definition counted (evs : list Event) : Prop :=
  forall evs1 evs2 id ch msg sent_count,
    evs = evs1 ++ Published id ch msg sent_count :: evs2 ->
    sent_count = N.min (N.of_nat (size (reached (crowd evs1) ch))) u32_max.

(** What session [id] itself did. *)
Definition actor (ev : Event) : option N :=
  match ev with
  | Joined id _ | Left id _ | Published id _ _ _ | Said id _ => Some id
  | Closed _ => None
  | Touched by_ _ => by_
  end.
Definition own (id : N) (evs : list Event) : list Event :=
  base.filter (fun ev => actor ev = Some id) evs.

(** A channel command, on the channels the session is in: what it does, what comes of
    it, and the channels the session is in then. *)
Inductive carries_out (id : N) (subs : gset bytes)
  : ChannelCommand -> list Event -> ChannelCommandOutcome -> gset bytes -> Prop :=
| out_subscribe chs :
    carries_out id subs (Subscribe chs) (Joined id <$> chs) (CcoSubscribe (acks join chs subs))
      (list_to_set chs ∪ subs)
| out_unsubscribe chs targets :
    targets <> [] -> (chs = [] -> targets ≡ₚ elements subs) -> (chs <> [] -> targets = chs) ->
    carries_out id subs (Unsubscribe chs) (Left id <$> targets)
      (CcoUnsubscribe (acks part targets subs)) (subs ∖ list_to_set targets)
| out_unsubscribe_none :
    subs = ∅ ->
    carries_out id subs (Unsubscribe []) [] (CcoUnsubscribe [mkSubUnsub None 0]) subs
| out_publish ch msg sent_count :
    carries_out id subs (Publish ch msg) [Published id ch msg sent_count]
      (CcoPublish sent_count) subs.

Section sessions.
(** What the clock reads. *)
Context (rd : nat -> Z).

(** What the frame is lifted to, at some reading of the clock. *)
Definition lifts (f : Frame) (r : result CommandFromFrameError Command) : Prop :=
  exists k, fst (try_from f (mkClock rd k)) = r.

(** What a session does about what it read: it answers what is no frame or no command
    with the error and a [PING] with its message; it runs a cache command and answers
    what the effects say; it carries out a channel command and acknowledges. *)
Inductive turn (id : N) (subs : gset bytes) : Item -> list Event -> gset bytes -> Prop :=
| turn_no_frame e :
    turn id subs (Err e) [Said id (err_reply (display_FrameError e))] subs
| turn_no_command f e :
    lifts f (Err e) ->
    turn id subs (Ok f) [Said id (err_reply (display_CommandFromFrameError e))] subs
| turn_ping f message :
    lifts f (Ok (Ping message)) ->
    turn id subs (Ok f) [Said id (to_bytes (Reply_from_CommandOutcome (CoPong message)))] subs
| turn_cache f cmd part out :
    lifts f (Ok (Command.Cache cmd)) -> says rd cmd part out ->
    turn id subs (Ok f)
      ((Touched (Some id) <$> part) ++ [Said id (to_bytes (Reply_from_CommandOutcome out))]) subs
| turn_channel f cmd evs out subs' :
    lifts f (Ok (Channel cmd)) -> carries_out id subs cmd evs out subs' ->
    turn id subs (Ok f)
      (evs ++ [Said id (Replies_to_bytes (Replies_from_ChannelCommandOutcome out))]) subs'.

(** A turn for each of what was read, in that order. *)
Inductive chatter (id : N) : list Item -> list Event -> gset bytes -> Prop :=
| chatter_none : chatter id [] [] ∅
| chatter_turn items evs subs item evs' subs' :
    chatter id items evs subs -> turn id subs item evs' subs' ->
    chatter id (items ++ [item]) (evs ++ evs') subs'.

(** A turn not through, and may be never to be, when its reply or its command failed:
    what a cache command did first, or a first part of what a channel command does,
    and then any leaving. *)
Inductive begun (id : N) (subs : gset bytes) : option Item -> list Event -> Prop :=
| begun_none cur : begun id subs cur []
| begun_cache f cmd part :
    lifts f (Ok (Command.Cache cmd)) -> underway rd cmd part ->
    begun id subs (Some (Ok f)) (Touched (Some id) <$> part)
| begun_channel f cmd doing rest out subs' :
    lifts f (Ok (Channel cmd)) -> carries_out id subs cmd (doing ++ rest) out subs' ->
    begun id subs (Some (Ok f)) doing
| begun_left cur doing ch :
    begun id subs cur doing -> begun id subs cur (doing ++ [Left id ch]).
End sessions.

(** *** Facts *)

Lemma crowd_snoc evs ev : crowd (evs ++ [ev]) = crowd_step (crowd evs) ev.
Proof. unfold crowd. by rewrite fold_left_app. Qed.

Lemma own_snoc id evs ev :
  own id (evs ++ [ev]) = own id evs ++ (if decide (actor ev = Some id) then [ev] else []).
Proof. unfold own. rewrite filter_app. by f_equal. Qed.

Lemma effects_snoc evs ev :
  effects (evs ++ [ev]) = effects evs ++ (match ev with Touched _ e => [e] | _ => [] end).
Proof. unfold effects. rewrite omap_app. by destruct ev. Qed.

Lemma counted_snoc evs ev :
  counted evs ->
  (forall id ch msg sent_count, ev = Published id ch msg sent_count ->
     sent_count = N.min (N.of_nat (size (reached (crowd evs) ch))) u32_max) ->
  counted (evs ++ [ev]).
Proof.
  intros Hc Hev evs1 evs2 id ch msg k He.
  destruct evs2 as [|ev2 evs2 _] using rev_ind.
  - apply app_inj_tail in He as [<- ->]. by eapply Hev.
  - rewrite app_comm_cons, app_assoc in He. apply app_inj_tail in He as [He _]. by eapply Hc.
Qed.
