(* ===== verification/CrowdSpec.v ===== *)
(** * CrowdSpec: the sessions of a server, together

    Every interleaving of the sessions' threads, the snapshots and the sweeps keeps to
    the reference of Crowd.v: the map is what the effects have made of it, the
    registry says who is in which channel, each queue and socket has what its session
    was sent, in order, and each session's own doings are its commands. *)

From stdpp Require Import vector finite.
From S2P Require Import Prelude Effects Threads RustStd Time Command Frame CommandFrame.
From S2P Require Import Cache Mpsc Channels Ports Executor Files Persister Recovery Concurrent Points.
From S2P Require Import Reply Inbound Session SessionSpec Stream WriteHalf ReplSpec Crowd.

(** ** Where the threads stand

    A reader: what it has read and is at, the channels its session was in when the turn
    began and is in now, what it has done in this turn, and whether it has yet to record a change the registry
    has ([Pending]) or is on its way out, with the channels still to leave.  A
    writer: the messages it has taken off its queue, and its buffered socket. *)

Inductive Stage : Type :=
| Steady
| Pending (joined : bool) (ch : bytes)
| Leaving (rest : list bytes).

Inductive Ghost (W : Type) : Type :=
| GReader (cur : option Item) (start subs : gset bytes) (doing : list Event) (st : Stage)
| GWriter (popped : list bytes) (bw : BufWriter W)
| GFlag.
Arguments GReader {W} cur start subs doing st.
Arguments GWriter {W} popped bw.
Arguments GFlag {W}.

Abbreviation Exec := (Executor Persister).
Definition exec_clockL : Lens Exec Clock := lens_comp cacheL clockL.

Section invariant.
Context {R W : Type} {n : nat} `{Source R} `{Socket W}.
(** What the clock reads, and the map at the start. *)
Context (ck : nat -> Z) (m0 : CacheMap).
(** The sessions' ids and queues, what each client sends, and what each socket had at
    the start. *)
Context (ids qn : fin n -> N) (coming base : fin n -> bytes).
Implicit Types (c : Crowd) (qs : Queues) (reg : Registry) (evs : list Event)
  (slots : vec (Slot R W) n) (g : nat -> Ghost W).

(** The registry has who is in a channel, with that session's sender. *)
Definition registry_ok reg c : Prop :=
  (forall ch id tx, subscribed reg ch id = Some tx <->
     id ∈ members c ch /\ exists i, ids i = id /\ qn i = tx) /\
  (forall ch id, id ∈ members c ch -> exists i, ids i = id).

(** A queue has what its session was sent and its writer has not taken. *)
Definition queue_ok (i : fin n) qs c (popped : list bytes) : Prop :=
  exists items, inbox c (ids i) = popped ++ items /\
    qs !! qn i = Some (if decide (ids i ∈ closed c) then mkQueue [] false else mkQueue items true).

Definition synced (i : fin n) c (subs : gset bytes) (ch : bytes) : Prop :=
  (ids i ∈ members c ch -> ch ∈ subs) /\
  (ch ∈ subs -> ids i ∈ members c ch \/ ids i ∈ closed c).
Definition in_step (i : fin n) c (st : Stage) (subs : gset bytes) : Prop :=
  match st with
  | Steady => forall ch, synced i c subs ch
  | Pending joined p =>
      (forall ch, ch <> p -> synced i c subs ch) /\
      if joined then ids i ∈ members c p \/ ids i ∈ closed c else ids i ∉ members c p
  | Leaving rest => forall ch, ids i ∈ members c ch -> ch ∈ rest
  end.

(** The session's doings are turns for what its reader has heard. *)
Definition own_ok (i : fin n) evs (cur : option Item) (start : gset bytes) (doing : list Event)
    (sr : SessionReader R) : Prop :=
  exists items past, own (ids i) evs = past ++ doing /\ chatter ck (ids i) items past start /\
    begun ck (ids i) start cur doing /\ reader_heard (coming i) (items ++ option_list cur) sr.

(** Unless a write to it has failed, the socket has the first messages taken, all but
    one at least. *)
Definition socket_ok (i : fin n) (popped : list bytes) (bw : BufWriter W) : Prop :=
  broken (bw_inner bw) = false ->
  exists k, length popped <= Datatypes.S k /\
    received (bw_inner bw) = base i ++ concat (take k popped).

Definition slot_ok (i : fin n) (sl : Slot R W) qs evs (gr gw : Ghost W) : Prop :=
  exists cur start subs doing st popped bw,
    gr = GReader cur start subs doing st /\ gw = GWriter popped bw /\
    rh_id (sl_rh sl) = ids i /\ rh_sender (sl_rh sl) = qn i /\ rh_subscriptions (sl_rh sl) = subs /\
    wh_receiver (sl_wh sl) = qn i /\ wh_writer (sl_wh sl) = bw /\
    queue_ok i qs (crowd evs) popped /\ in_step i (crowd evs) st subs /\
    own_ok i evs cur start doing (rh_reader (sl_rh sl)) /\ socket_ok i popped bw.

(** The numbers of a session's threads. *)
Definition rd (i : fin n) : nat := fin_to_nat i.
Definition wr (i : fin n) : nat := n + fin_to_nat i.

Record joint g slots qs reg evs : Prop := mkJoint {
  j_registry : registry_ok reg (crowd evs);
  j_counted : counted evs;
  j_slots : forall i, slot_ok i (slots !!! i) qs evs (g (rd i)) (g (wr i))
}.

(** The map is what the effects have made of it. *)
Definition stored (exec : Exec) evs : Prop :=
  exists clk h m p, exec = exec_at clk h m p /\ readings clk = ck /\ store_run ck m0 (effects evs) m.

Definition crowd_inv evs g (s : Site R W Exec n) : Prop :=
  exists slots qs reg exec b,
    s = mkSite slots (channels_at qs reg) exec b /\ joint g slots qs reg evs /\ stored exec evs.

Lemma stored_event exec evs ev :
  (forall by_ e, ev <> Touched by_ e) -> stored exec evs -> stored exec (evs ++ [ev]).
Proof.
  intros Hn (clk & h & m & p & -> & Hr & Hs). exists clk, h, m, p. split_and!; [done..|].
  rewrite effects_snoc. destruct ev; rewrite ?app_nil_r; try done. by destruct (Hn by_ ev).
Qed.

Lemma rd_wr i j : rd i <> wr j.
Proof. unfold rd, wr. pose proof (fin_to_nat_lt i). lia. Qed.
Lemma rd_inj i j : rd i = rd j -> i = j.
Proof. apply (inj fin_to_nat). Qed.
Lemma wr_inj i j : wr i = wr j -> i = j.
Proof. unfold wr. intros He. apply (inj fin_to_nat). lia. Qed.

(** A move of a reader. *)
Lemma joint_reader i g slots qs reg evs qs' reg' evs' cur start subs doing st rh' gr' :
  joint g slots qs reg evs ->
  rh_id rh' = ids i -> rh_sender rh' = qn i -> rh_subscriptions rh' = subs ->
  gr' = GReader cur start subs doing st ->
  registry_ok reg' (crowd evs') -> counted evs' ->
  own_ok i evs' cur start doing (rh_reader rh') -> in_step i (crowd evs') st subs ->
  (forall j popped, queue_ok j qs (crowd evs) popped -> queue_ok j qs' (crowd evs') popped) ->
  (forall j, j <> i -> own (ids j) evs' = own (ids j) evs) ->
  (forall j st' subs', j <> i -> in_step j (crowd evs) st' subs' -> in_step j (crowd evs') st' subs') ->
  let sl := slots !!! i in
  joint (upd (rd i) gr' g)
    (vinsert i (mkSlot rh' (sl_wh sl) (sl_rh_alive sl) (sl_writer_done sl)) slots) qs' reg' evs'.
Proof.
  intros [Hreg Hcnt Hsl] Hid Hsend Hsubs -> Hreg' Hcnt' Hown Hstep Hqs Howns Hsteps sl.
  split; [done..|]. intros j. unfold upd. rewrite (decide_False (P := wr j = rd i)).
  2:{ intros He. by eapply rd_wr. }
  specialize (Hsl j)
    as (cu & sta & sub & doi & stg & pop & bw & Hgr & Hgw & E1 & E2 & E3 & E4 & E5 & Hq & Hs & Ho & Hk).
  destruct (decide (j = i)) as [->|Hne].
  - rewrite decide_True, vlookup_insert by done. exists cur, start, subs, doing, st, pop, bw.
    split_and!; try done; eauto.
  - rewrite decide_False, vlookup_insert_ne by (done || intros He%rd_inj; done).
    exists cu, sta, sub, doi, stg, pop, bw. split_and!; try done; eauto.
    destruct Ho as (items & past & Ho & Hc & Hn). exists items, past. by rewrite Howns.
Qed.

(** A move of a writer, on its own queue. *)
Lemma joint_writer i g slots qs reg evs qs' evs' popped bw gw' sl' :
  joint g slots qs reg evs ->
  sl_rh sl' = sl_rh (slots !!! i) -> wh_receiver (sl_wh sl') = qn i -> wh_writer (sl_wh sl') = bw ->
  gw' = GWriter popped bw ->
  registry_ok reg (crowd evs') -> counted evs' ->
  queue_ok i qs' (crowd evs') popped -> socket_ok i popped bw ->
  (forall j popped, j <> i -> queue_ok j qs (crowd evs) popped -> queue_ok j qs' (crowd evs') popped) ->
  (forall j, own (ids j) evs' = own (ids j) evs) ->
  (forall j st' subs', in_step j (crowd evs) st' subs' -> in_step j (crowd evs') st' subs') ->
  joint (upd (wr i) gw' g) (vinsert i sl' slots) qs' reg evs'.
Proof.
  intros [Hreg Hcnt Hsl] Hrh Hrc Hbw -> Hreg' Hcnt' Hqi Hki Hqs Howns Hsteps.
  split; [done..|]. intros j. unfold upd. rewrite (decide_False (P := rd j = wr i)) by apply rd_wr.
  specialize (Hsl j)
    as (cu & sta & sub & doi & stg & pop & bw' & Hgr & Hgw & E1 & E2 & E3 & E4 & E5 & Hq & Hs & Ho & Hk).
  assert (Ho' : own_ok j evs' cu sta doi (rh_reader (sl_rh (slots !!! j)))).
  { destruct Ho as (items & past & Ho & Hc & Hn). exists items, past. by rewrite Howns. }
  destruct (decide (j = i)) as [->|Hne].
  - rewrite decide_True, vlookup_insert by done. exists cu, sta, sub, doi, stg, popped, bw.
    rewrite Hrh. split_and!; try done; eauto.
  - rewrite decide_False, vlookup_insert_ne by (done || intros He%wr_inj; done).
    exists cu, sta, sub, doi, stg, pop, bw'. split_and!; try done; eauto.
Qed.
End invariant.

(** ** What each event does to the invariant's parts *)

Section events.
Context {n : nat} (ids qn : fin n -> N).
Context (ids_inj : Inj eq eq ids) (qn_inj : Inj eq eq qn).
Implicit Types (c : Crowd) (qs : Queues) (reg : Registry).
Abbreviation registry_ok := (registry_ok ids qn).
Abbreviation queue_ok := (queue_ok ids qn).
Abbreviation in_step := (in_step ids).

Lemma in_step_mono i c c' st subs :
  in_step i c st subs ->
  (forall ch, ids i ∈ members c' ch -> ids i ∈ members c ch) ->
  (forall ch, ids i ∈ members c ch -> ids i ∈ members c' ch \/ ids i ∈ closed c') ->
  (ids i ∈ closed c -> ids i ∈ closed c') ->
  in_step i c' st subs.
Proof.
  intros Hs H1 H2 H3. assert (Hch : forall ch, synced ids i c subs ch -> synced ids i c' subs ch).
  { intros ch [Ha Hb]. split; [auto|]. intros [Hm|Hc]%Hb; auto. }
  destruct st as [|joined p|rest]; cbn in *; auto.
  destruct Hs as [Hs Hp]. split; [auto|]. destruct joined; [|auto]. destruct Hp; auto.
Qed.

Lemma queue_open i qs c popped :
  queue_ok i qs c popped -> is_open qs (qn i) = bool_decide (ids i ∉ closed c).
Proof.
  intros (items & _ & Hq). unfold is_open. rewrite Hq.
  by case_decide; [rewrite bool_decide_eq_false_2 by tauto|rewrite bool_decide_eq_true_2].
Qed.

(** *** A reply queued *)

Lemma said_queue i j bs qs c popped :
  is_open qs (qn i) = true -> queue_ok j qs c popped ->
  queue_ok j (alter (push bs) (qn i) qs) (crowd_step c (Said (ids i) bs)) popped.
Proof.
  intros Ho Hq. pose proof (queue_open _ _ _ _ Hq) as Hop. destruct Hq as (items & Hi & Hq).
  unfold queue_ok, CrowdSpec.queue_ok. cbn [crowd_step deliver inbox closed]. rewrite Hi.
  destruct (decide (j = i)) as [->|Hne].
  - rewrite Ho in Hop. symmetry in Hop. apply bool_decide_eq_true in Hop.
    rewrite decide_True by set_solver. exists (items ++ [bs]). rewrite app_assoc. split; [done|].
    rewrite lookup_alter_eq, Hq, !decide_False by done. done.
  - rewrite decide_False; [|intros He%elem_of_singleton; by apply Hne, ids_inj].
    exists items. rewrite app_nil_r. split; [done|].
    rewrite lookup_alter_ne; [done|]. intros He. by apply Hne, qn_inj.
Qed.

(** *** Joining and leaving *)

Lemma joined_registry i ch reg c :
  registry_ok reg c ->
  registry_ok (<[ch := <[ids i := qn i]> (default ∅ (reg !! ch))]> reg) (crowd_step c (Joined (ids i) ch)).
Proof.
  intros [Hr Hk]. split; [intros ch' id tx; rewrite subscribed_insert|intros ch' id];
    cbn [crowd_step set_members members].
  2:{ case_decide; [|apply Hk]. intros [He%elem_of_singleton|Hm]%elem_of_union; eauto. }
  destruct (decide (ch' = ch /\ id = ids i)) as [[-> ->]|Hne].
  - rewrite decide_True by done. split.
    + intros [= <-]. split; [set_solver|by exists i].
    + intros (_ & j & Hj & <-). by apply ids_inj in Hj as ->.
  - rewrite Hr. destruct (decide (ch' = ch)) as [->|]; [|done]. set_solver.
Qed.

Lemma left_registry i ch reg c :
  registry_ok reg c -> registry_ok (leave ch (ids i) reg) (crowd_step c (Left (ids i) ch)).
Proof.
  intros [Hr Hk]. split; [intros ch' id tx; rewrite subscribed_leave|intros ch' id];
    cbn [crowd_step set_members members].
  2:{ case_decide; [|apply Hk]. intros [Hm _]%elem_of_difference; eauto. }
  destruct (decide (ch' = ch /\ id = ids i)) as [[-> ->]|Hne].
  - rewrite decide_True by done. split; [done|]. set_solver.
  - rewrite Hr. destruct (decide (ch' = ch)) as [->|]; [|done]. set_solver.
Qed.

Lemma joined_others i j ch c st subs :
  j <> i -> in_step j c st subs -> in_step j (crowd_step c (Joined (ids i) ch)) st subs.
Proof.
  clear qn_inj. intros Hne Hs.
  assert (Hid : ids j <> ids i) by (intros He; by apply Hne, ids_inj).
  eapply in_step_mono; [exact Hs|..]; cbn [crowd_step set_members members closed]; [..|done];
    intros ch'; case_decide; subst; set_solver.
Qed.
Lemma left_others i j ch c st subs :
  j <> i -> in_step j c st subs -> in_step j (crowd_step c (Left (ids i) ch)) st subs.
Proof.
  clear qn_inj. intros Hne Hs.
  assert (Hid : ids j <> ids i) by (intros He; by apply Hne, ids_inj).
  eapply in_step_mono; [exact Hs|..]; cbn [crowd_step set_members members closed]; [..|done];
    intros ch'; case_decide; subst; set_solver.
Qed.

(** The session's own view: the channel is pending, or is one less to leave. *)
Lemma joined_own i ch c subs :
  in_step i c Steady subs -> in_step i (crowd_step c (Joined (ids i) ch)) (Pending true ch) subs.
Proof.
  intros Hs. split.
  - intros ch' Hne. destruct (Hs ch') as [H1 H2].
    split; cbn [crowd_step set_members members closed]; rewrite decide_False by done; auto.
  - left. cbn [crowd_step set_members members]. rewrite decide_True by done.
    apply elem_of_union. left. by apply elem_of_singleton.
Qed.
Lemma left_own i ch c subs :
  in_step i c Steady subs -> in_step i (crowd_step c (Left (ids i) ch)) (Pending false ch) subs.
Proof.
  intros Hs. split.
  - intros ch' Hne. destruct (Hs ch') as [H1 H2].
    split; cbn [crowd_step set_members members closed]; rewrite decide_False by done; auto.
  - cbn [crowd_step set_members members]. rewrite decide_True by done.
    rewrite elem_of_difference, elem_of_singleton. tauto.
Qed.
Lemma left_leaving i ch rest c subs :
  in_step i c (Leaving (ch :: rest)) subs ->
  in_step i (crowd_step c (Left (ids i) ch)) (Leaving rest) subs.
Proof.
  clear ids_inj qn_inj.
  intros Hs ch'. cbn [crowd_step set_members members]. case_decide; [set_solver|].
  intros Hm. apply Hs in Hm. set_solver.
Qed.

(** *** A publication *)

(** The registry's subscribers of a channel that still listen are those it reaches. *)
Lemma reached_open ch reg qs c subs id :
  registry_ok reg c -> (forall i, exists popped, queue_ok i qs c popped) ->
  reg !! ch = Some subs ->
  id ∈ dom (open_subs qs subs) <-> id ∈ reached c ch.
Proof.
  intros [Hr Hk] Hq Hs. rewrite elem_of_dom, open_subs_lookup. unfold reached.
  rewrite elem_of_difference.
  assert (Hsub : forall tx, subs !! id = Some tx <-> id ∈ members c ch /\ exists i, ids i = id /\ qn i = tx).
  { intros tx. rewrite <- Hr. unfold subscribed. by rewrite Hs. }
  destruct (subs !! id) as [tx|] eqn:Htx.
  - destruct (proj1 (Hsub tx) eq_refl) as (Hm & i & <- & <-). destruct (Hq i) as [popped Hqi].
    rewrite (queue_open _ _ _ _ Hqi). case_bool_decide as Hc.
    + split; [done|]. by eexists.
    + split; [by intros []|]. tauto.
  - split; [by intros []|]. intros [Hm _]. destruct (Hk _ _ Hm) as [i Hi].
    assert (None = Some (qn i)) as [=] by (apply Hsub; eauto).
Qed.

Lemma reached_none ch reg c :
  registry_ok reg c -> reg !! ch = None -> forall id, id ∉ reached c ch.
Proof.
  unfold reached. intros [Hr Hk] Hn id [Hm _]%elem_of_difference. destruct (Hk _ _ Hm) as [i Hi].
  assert (subscribed reg ch id = Some (qn i)) as Hs by (apply Hr; eauto).
  unfold subscribed in Hs. by rewrite Hn in Hs.
Qed.

(** The queue of a session is reached once or not at all. *)
Lemma reaching_session i ch reg qs c subs :
  registry_ok reg c -> (forall i, exists popped, queue_ok i qs c popped) ->
  reg !! ch = Some subs ->
  reaching qs (qn i) (map_to_list subs) = if decide (ids i ∈ reached c ch) then 1 else 0.
Proof.
  intros Hreg Hq Hs. pose proof Hreg as [Hr Hk].
  assert (Hsub : forall id tx, subs !! id = Some tx <-> id ∈ members c ch /\ exists i, ids i = id /\ qn i = tx).
  { intros id tx. rewrite <- Hr. unfold subscribed. by rewrite Hs. }
  assert (Hmap : reaching qs (qn i) (map_to_list subs) =
    size (filter (fun p : N * Sender => p.2 = qn i) (open_subs qs subs))).
  { unfold reaching, open_subs. rewrite map_filter_filter, map_filter_alt, map_size_list_to_map.
    { f_equal. apply list_filter_iff. by intros [? ?]. }
    apply NoDup_fmap_fst; [|by apply NoDup_filter, NoDup_map_to_list].
    intros id tx tx'. rewrite !list_elem_of_filter, !elem_of_map_to_list. naive_solver. }
  rewrite Hmap. pose proof (reached_open ch reg qs c subs (ids i) Hreg Hq Hs) as Hro.
  assert (Hout : forall id tx, open_subs qs subs !! id = Some tx -> tx = qn i -> id = ids i).
  { intros id tx Ho ->. rewrite open_subs_lookup in Ho. destruct (subs !! id) as [tx|] eqn:Htx; [|done].
    destruct (is_open qs tx); [|done]. injection Ho as ->.
    apply Hsub in Htx as (_ & j & <- & Hj). by apply qn_inj in Hj as ->. }
  destruct (decide _) as [Hd|Hd].
  - apply Hro in Hd. apply elem_of_dom in Hd as [tx Htx].
    assert (tx = qn i) as ->.
    { rewrite open_subs_lookup in Htx. destruct (subs !! ids i) as [tx'|] eqn:Hx; [|done].
      destruct (is_open qs tx'); [|done]. injection Htx as ->.
      apply Hsub in Hx as (_ & j & Hj & <-). by apply ids_inj in Hj as ->. }
    replace (filter _ _) with ({[ ids i := qn i ]} : Subscribers); [apply map_size_singleton|].
    apply map_eq. intros id. rewrite map_lookup_filter. destruct (decide (id = ids i)) as [->|Hne].
    + rewrite lookup_singleton_eq, Htx. cbn. by rewrite option_guard_True.
    + rewrite lookup_singleton_ne by done. destruct (open_subs qs subs !! id) as [tx|] eqn:Ho; [|done].
      cbn. rewrite option_guard_False; [done|]. cbn. intros ->. by apply Hne; eapply Hout.
  - replace (filter _ _) with (∅ : Subscribers); [apply map_size_empty|].
    apply map_eq. intros id. rewrite lookup_empty, map_lookup_filter.
    destruct (open_subs qs subs !! id) as [tx|] eqn:Ho; [|done].
    cbn. rewrite option_guard_False; [done|]. cbn. intros ->.
    assert (id = ids i) as -> by by eapply Hout. apply Hd, Hro, elem_of_dom. by eexists.
Qed.

Lemma published_registry id ch msg k reg qs c :
  registry_ok reg c -> (forall i, exists popped, queue_ok i qs c popped) ->
  registry_ok (match reg !! ch with Some subs => <[ch := open_subs qs subs]> reg | None => reg end)
    (crowd_step c (Published id ch msg k)).
Proof.
  intros Hreg Hq. pose proof Hreg as [Hr Hk]. split; cbn [crowd_step set_members members deliver].
  2:{ intros ch' id'. unfold reached. case_decide; [|apply Hk]. intros [Hm _]%elem_of_difference; eauto. }
  intros ch' id' tx. destruct (decide (ch' = ch)) as [->|Hne].
  - destruct (reg !! ch) as [subs|] eqn:Hs.
    + unfold subscribed. rewrite lookup_insert_eq. cbn.
      rewrite <- (reached_open ch reg qs c subs id') by done.
      assert (Hsub : forall tx, open_subs qs subs !! id' = Some tx -> exists i, ids i = id' /\ qn i = tx).
      { intros tx' Ho. apply (Hr ch id' tx'). unfold subscribed. rewrite Hs. cbn.
        rewrite open_subs_lookup in Ho. destruct (subs !! id') as [tx0|]; [|done].
        destruct (is_open qs tx0); [by injection Ho as ->|done]. }
      rewrite elem_of_dom. split; [intros Ho; split; [by eexists|auto]|].
      intros [[tx' Ho] (i & <- & <-)]. destruct (Hsub _ Ho) as (j & Hj & <-).
      by apply ids_inj in Hj as ->.
    + unfold subscribed. rewrite Hs. split; [done|]. intros [Hin _].
      by destruct (reached_none ch reg c Hreg Hs id').
  - rewrite <- Hr. unfold subscribed. destruct (reg !! ch); [|done]. by rewrite lookup_insert_ne.
Qed.

Lemma published (order : Subscribers -> list (N * Sender)) id ch msg reg qs c :
  (forall subs, order subs ≡ₚ map_to_list subs) ->
  registry_ok reg c -> (forall i, exists popped, queue_ok i qs c popped) ->
  exists qs' reg',
    let k := N.min (N.of_nat (size (reached c ch))) u32_max in
    let c' := crowd_step c (Published id ch msg k) in
    run (Channels.publish order (push_message ch msg) ch) (channels_at qs reg) =
      Some (Ok k, channels_at qs' reg') /\
    registry_ok reg' c' /\
    (forall j popped, queue_ok j qs c popped -> queue_ok j qs' c' popped) /\
    (forall j st subs, in_step j c st subs -> in_step j c' st subs).
Proof.
  intros Hord Hreg Hq. cbv zeta.
  destruct (run_publish order (push_message ch msg) ch qs reg Hord) as (qs' & Hrun & Hqs').
  exists qs', (match reg !! ch with Some subs => <[ch := open_subs qs subs]> reg | None => reg end).
  cbn [crowd_step]. split_and!.
  - rewrite Hrun. destruct (reg !! ch) as [subs|] eqn:Hs.
    + do 5 f_equal. rewrite <- size_dom. f_equal. apply leibniz_equiv. intros x.
      by eapply reached_open.
    + assert (reached c ch = ∅) as ->; [|by rewrite size_empty].
      apply leibniz_equiv, elem_of_equiv_empty. by eapply reached_none.
  - by apply (published_registry id ch msg (N.min (N.of_nat (size (reached c ch))) u32_max)).
  - intros j popped (items & Hi & Hj). unfold queue_ok, CrowdSpec.queue_ok.
    cbn [set_members deliver inbox closed]. rewrite Hi.
    assert (Hn : match reg !! ch with Some subs => reaching qs (qn j) (map_to_list subs) | None => 0 end =
      if decide (ids j ∈ reached c ch) then 1 else 0).
    { destruct (reg !! ch) as [subs|] eqn:Hs; [by eapply reaching_session|].
      rewrite decide_False; [done|by eapply reached_none]. }
    rewrite Hqs', Hn, Hj. clear Hn. cbn [fmap option_fmap option_map].
    destruct (decide (ids j ∈ reached c ch)) as [Hin|Hout].
    + exists (items ++ [push_message ch msg]). rewrite app_assoc. split; [done|].
      unfold reached in Hin. apply elem_of_difference in Hin as [_ Hc]. by rewrite !decide_False.
    + exists items. rewrite app_nil_r, push_n_0. by split.
  - intros j st subs Hs. clear Hrun Hqs'. eapply in_step_mono; [exact Hs|..]; clear;
      cbn [set_members deliver members closed]; unfold reached; [| |done];
      intros ch'; case_decide as Hch; subst; rewrite ?elem_of_difference; [tauto|done| |by left].
    destruct (decide (ids j ∈ closed c)); tauto.
Qed.

(** *** The end of a receiver *)

Lemma closed_queue i j qs c popped :
  queue_ok j qs c popped ->
  queue_ok j (drop_receiver (qn i) qs) (crowd_step c (Closed (ids i))) popped.
Proof.
  intros (items & Hi & Hj). exists items. cbn [crowd_step closed inbox]. split; [done|].
  unfold drop_receiver. destruct (decide (j = i)) as [->|Hne].
  - rewrite lookup_alter_eq, Hj, (decide_True (P := ids i ∈ {[ids i]} ∪ _)); [done|].
    apply elem_of_union. left. by apply elem_of_singleton.
  - rewrite lookup_alter_ne, Hj by (intros He; by apply Hne, qn_inj).
    assert (ids j <> ids i) by (intros He; by apply Hne, ids_inj).
    f_equal. apply decide_ext. rewrite elem_of_union, elem_of_singleton. tauto.
Qed.

Lemma closed_others i j c st subs :
  in_step j c st subs -> in_step j (crowd_step c (Closed (ids i))) st subs.
Proof.
  clear ids_inj qn_inj. intros Hs.
  eapply in_step_mono; [exact Hs|..]; cbn [crowd_step members closed]; set_solver.
Qed.
End events.

(** ** The readers keep the invariant *)

Section threads.
Context `{Wincode} {R W : Type} {n : nat} `{Source R} `{Socket W}.
Context (ck : nat -> Z) (m0 : CacheMap).
Context (order : Subscribers -> list (N * Sender)) (iter : gset bytes -> list bytes).
Context (order_perm : forall subs, order subs ≡ₚ map_to_list subs).
Context (iter_perm : forall s, iter s ≡ₚ elements s).
Context (ids qn : fin n -> N) (coming base : fin n -> bytes).
Context (ids_inj : Inj eq eq ids) (qn_inj : Inj eq eq qn).

Abbreviation inv := (so_far (crowd_inv (R := R) ck m0 ids qn coming base)).
Abbreviation joint := (joint (R := R) ck ids qn coming base).
Abbreviation stored := (stored ck m0).
Abbreviation own_ok := (own_ok (R := R) ck ids coming).
Abbreviation turn := (turn ck).
Abbreviation begun := (begun ck).
Abbreviation lifts := (lifts ck).
Abbreviation WP E A := (prog (World R Exec) E A).
Implicit Types (g : nat -> Ghost W) (subs : gset bytes) (doing : list Event).

(** Any thread may wait. *)
Definition may_wait (i : nat) g : Prop := True.

(** What a session's threads work on, in a site with the history beside it. *)
Definition connAt (i : fin n) : Lens (list Event * Site R W Exec n) (Conn R W Exec) :=
  lens_comp lens_snd (connL i).
Definition worldAt (i : fin n) : Lens (list Event * Site R W Exec n) (World R Exec) :=
  lens_comp (connAt i) worldL.
Definition execAt : Lens (list Event * Site R W Exec n) Exec := lens_comp lens_snd site_execL.

(** The invariant with a longer history. *)
Ltac recount evs := eexists _, evs, _; split; [reflexivity|]; split; [by first [done|apply prefix_app_r|etrans]|].

Abbreviation ok i := (zoom_ok inv may_wait (worldAt i) (rd i)).

(** Between two turns. *)
Definition at_turn subs : Ghost W := GReader None subs subs [] Steady.
(** At the beginning of one, with what was read. *)
Definition holding (item : Item) subs : Ghost W := GReader (Some item) subs subs [] Steady.

(** A session's own fields, as its threads leave them. *)
Definition own_half (i : fin n) subs (rh : ReadHalf R) : Prop :=
  rh_id rh = ids i /\ rh_sender rh = qn i /\ rh_subscriptions rh = subs.

Lemma joint_half i g slots qs reg evs cur start subs doing st :
  joint g slots qs reg evs -> g (rd i) = GReader cur start subs doing st ->
  own_half i subs (sl_rh (slots !!! i)) /\ in_step ids i (crowd evs) st subs /\
  own_ok i evs cur start doing (rh_reader (sl_rh (slots !!! i))).
Proof.
  intros [_ _ Hs] Hg.
  specialize (Hs i) as (? & ? & ? & ? & ? & ? & ? & Hgr & ? & Hid & Hse & Hsu & ? & ? & ? & Hst & Ho & ?).
  rewrite Hg in Hgr. injection Hgr as <- <- <- <- <-. by split_and!.
Qed.

Lemma joint_queues g slots qs reg evs :
  joint g slots qs reg evs -> forall i, exists popped, queue_ok ids qn i qs (crowd evs) popped.
Proof.
  intros [_ _ Hs] i. specialize (Hs i) as (? & ? & ? & ? & ? & popped & ? & ? & ? & ? & ? & ? & ? & ? & Hq & ?).
  by exists popped.
Qed.

(** Nothing but the reader's own place changes. *)
(** The reader has heard what it had. *)
Definition keeps_heard (i : fin n) (sr sr' : SessionReader R) : Prop :=
  forall items, reader_heard (coming i) items sr -> reader_heard (coming i) items sr'.

Lemma joint_stay i g slots qs reg evs cur start subs doing st st' rh' :
  joint g slots qs reg evs -> g (rd i) = GReader cur start subs doing st ->
  own_half i subs rh' -> keeps_heard i (rh_reader (sl_rh (slots !!! i))) (rh_reader rh') ->
  in_step ids i (crowd evs) st' subs ->
  let sl := slots !!! i in
  joint (upd (rd i) (GReader cur start subs doing st') g)
    (vinsert i (mkSlot rh' (sl_wh sl) (sl_rh_alive sl) (sl_writer_done sl)) slots) qs reg evs.
Proof.
  intros Hj Hg (Hid & Hse & Hsu) Hk Hst. destruct (joint_half _ _ _ _ _ _ _ _ _ _ _ Hj Hg) as (_ & _ & Ho).
  eapply joint_reader; eauto; [apply Hj|apply Hj|].
  destruct Ho as (items & past & ? & ? & ? & Hr). exists items, past. split_and!; auto.
Qed.

(** One step on the world of session [i]. *)
Lemma ok_move {E A} i (Q : result E A -> Ghost W -> Prop) (m : M (World R Exec) E A) gi :
  (forall g slots qs reg exec b evs, joint g slots qs reg evs -> g (rd i) = gi -> stored exec evs ->
     exists r rh' qs' reg' exec' b' evs' gi',
       m (mkWorld (sl_rh (slots !!! i)) (channels_at qs reg) exec b) =
         (r, mkWorld rh' (channels_at qs' reg') exec' b') /\
       (stored exec' evs' /\ evs `prefix_of` evs') /\
       (let sl := slots !!! i in
        joint (upd (rd i) gi' g)
          (vinsert i (mkSlot rh' (sl_wh sl) (sl_rh_alive sl) (sl_writer_done sl)) slots) qs' reg' evs') /\
       Q r gi') ->
  ok i Q (atomic m) gi.
Proof.
  intros Hm. apply zoom_ok_atomic. intros g s (hist & evs & site & -> & Hpre & slots & qs & reg & exec & b & -> & Hj & Hst0) Hg.
  destruct (Hm g slots qs reg exec b evs Hj Hg Hst0)
    as (r & rh' & qs' & reg' & exec' & b' & evs' & gi' & He & [Hst' Hpre'] & Hj' & HQ).
  exists gi'. change (view (worldAt i) _) with (mkWorld (sl_rh (slots !!! i)) (channels_at qs reg) exec b).
  rewrite He. split; [|exact HQ]. recount evs'. eexists _, qs', reg', exec', b'.
  split_and!; [reflexivity|exact Hj'|exact Hst'].
Qed.

(** A step on the reader's buffers, or one that only looks. *)
Lemma ok_quiet {E A} i (Q : result E A -> Ghost W -> Prop) (m : M (World R Exec) E A) cur start subs doing st :
  (forall rh qs reg exec b, own_half i subs rh -> readings (cs_clock (ex_cache exec)) = ck ->
     exists r rh' exec' b', m (mkWorld rh (channels_at qs reg) exec b) =
         (r, mkWorld rh' (channels_at qs reg) exec' b') /\
       (forall evs, stored exec evs -> stored exec' evs) /\
       own_half i subs rh' /\ keeps_heard i (rh_reader rh) (rh_reader rh') /\
       Q r (GReader cur start subs doing st)) ->
  ok i Q (atomic m) (GReader cur start subs doing st).
Proof.
  intros Hm. apply ok_move. intros g slots qs reg exec b evs Hj Hg Hx.
  destruct (joint_half _ _ _ _ _ _ _ _ _ _ _ Hj Hg) as (Hh & Hst & _).
  assert (Hck : readings (cs_clock (ex_cache exec)) = ck) by (by destruct Hx as (? & ? & ? & ? & -> & ? & ?)).
  destruct (Hm _ qs reg exec b Hh Hck) as (r & rh' & exec' & b' & He & Hx' & Hh' & Hk & HQ).
  exists r, rh', qs, reg, exec', b', evs, (GReader cur start subs doing st).
  split_and!; [exact He|by apply Hx'|done| |exact HQ]. by eapply joint_stay.
Qed.

Lemma ok_self {E A} i (Q : result E A -> Ghost W -> Prop) (k : ReadHalf R -> prog (World R Exec) E A)
    cur start subs doing st :
  (forall rh, own_half i subs rh -> ok i Q (k rh) (GReader cur start subs doing st)) ->
  ok i Q (rh ← self; k rh) (GReader cur start subs doing st).
Proof.
  intros Hk. apply zoom_ok_bind, ok_quiet. intros rh qs reg exec b Hh _.
  do 4 eexists. split; [done|]. split; [done|]. split; [done|]. split; [by intros items|]. by apply Hk.
Qed.

Lemma ok_catch {E F A} i (Q : result F (result E A) -> Ghost W -> Prop) (p : prog (World R Exec) E A) gi :
  ok i (fun r gi => Q (Ok r) gi) p gi -> ok i Q (catch p) gi.
Proof. intros Hp. by apply zoom_ok_then. Qed.

(** [parse_frame]: the reader holds an item, or waits. *)
Lemma ok_parse {F} i (Q : result F (result FrameError Frame) -> Ghost W -> Prop) subs :
  (forall item, item <> Err Incomplete -> Q (Ok item) (holding item subs)) ->
  Q (Ok (Err Incomplete)) (at_turn subs) ->
  ok i Q (catch (atomic (m_zoom (lens_comp rhL readerL) parse_frame))) (at_turn subs).
Proof.
  intros HQ HE. apply ok_catch, ok_move. intros g slots qs reg exec b evs Hj Hg Hx.
  destruct (joint_half _ _ _ _ _ _ _ _ _ _ _ Hj Hg) as ((Hid & Hse & Hsu) & Hst & Ho).
  unfold m_zoom. cbn [view put lens_comp rhL readerL w_rh].
  destruct Ho as (items & past & Ho & Hc & Hb & Hr).
  pose proof (parse_frame_heard _ _ _ Hr) as Hp. destruct (parse_frame _) as [item sr].
  cbn [option_list option_rect] in Hp. rewrite app_nil_r in Hp.
  assert (Hown : match item with
    | Err Incomplete => own_ok i evs None subs [] sr
    | _ => own_ok i evs (Some item) subs [] sr
    end).
  { destruct item as [f|[]]; exists items, past; cbn [option_list option_rect]; rewrite ?app_nil_r in *;
      (split_and!; [done|done|apply begun_none|exact Hp]). }
  exists item, (set_reader sr (sl_rh (slots !!! i))), qs, reg, exec, b, evs,
    (match item with Err Incomplete => at_turn subs | _ => holding item subs end).
  split_and!; [done|done|done| |destruct item as [f|[]]; first [exact HE|by apply HQ]].
  destruct item as [f|[]]; eapply joint_reader; eauto; apply Hj.
Qed.

(** [read]: more bytes. *)
Lemma ok_fill i (Q : result IoError nat -> Ghost W -> Prop) cur start subs doing st :
  (forall r, Q r (GReader cur start subs doing st)) ->
  ok i Q (atomic (m_zoom (lens_comp rhL readerL) reader_read)) (GReader cur start subs doing st).
Proof.
  intros HQ. apply ok_quiet. intros rh qs reg exec b Hh _. unfold m_zoom. cbn.
  pose proof (fun items => reader_read_heard (coming i) items (rh_reader rh)) as Hk.
  destruct (reader_read (rh_reader rh)) as [r sr]. do 4 eexists. by split_and!.
Qed.

Lemma ok_lifting i (Q : result CommandFromFrameError Command -> Ghost W -> Prop) frame
    cur start subs doing st :
  (forall r, lifts frame r -> Q r (GReader cur start subs doing st)) ->
  ok i Q (atomic (m_zoom (lens_comp execL exec_clockL) (try_from frame))) (GReader cur start subs doing st).
Proof.
  intros HQ. apply ok_quiet. intros rh qs reg exec b Hh Hck. unfold m_zoom. cbn.
  pose proof (try_from_readings frame (cs_clock (ex_cache exec))) as Hr.
  assert (Hl : lifts frame (fst (try_from frame (cs_clock (ex_cache exec))))).
  { exists (tick (cs_clock (ex_cache exec))). rewrite <- Hck. by destruct (cs_clock _). }
  destruct (try_from frame (cs_clock (ex_cache exec))) as [r c]. do 4 eexists.
  split_and!; [done| |done|by intros items|by apply HQ]. intros evs (clk & h & m & p & -> & Hclk & Hs).
  exists c, h, m, p. split_and!; [done| |done]. rewrite <- Hclk. exact Hr.
Qed.

(** *** Events of a session *)

Lemma own_event i evs cur start doing ev sr :
  actor ev = Some (ids i) -> begun (ids i) start cur (doing ++ [ev]) -> own_ok i evs cur start doing sr ->
  own_ok i (evs ++ [ev]) cur start (doing ++ [ev]) sr.
Proof.
  intros Ha Hb (items & past & Ho & Hc & _ & Hr). exists items, past. rewrite own_snoc, decide_True, Ho by done.
  split_and!; [by rewrite app_assoc|done..].
Qed.

Lemma own_left i evs cur start doing ch sr :
  own_ok i evs cur start doing sr ->
  own_ok i (evs ++ [Left (ids i) ch]) cur start (doing ++ [Left (ids i) ch]) sr.
Proof.
  intros Ho. apply own_event; [done| |done]. destruct Ho as (_ & _ & _ & _ & Hb & _). by apply begun_left.
Qed.

Lemma own_turn i evs item start subs doing bs sr :
  turn (ids i) start item (doing ++ [Said (ids i) bs]) subs -> own_ok i evs (Some item) start doing sr ->
  own_ok i (evs ++ [Said (ids i) bs]) None subs [] sr.
Proof.
  intros Ht (items & past & Ho & Hc & Hd & Hr). exists (items ++ [item]), (past ++ doing ++ [Said (ids i) bs]).
  rewrite own_snoc, decide_True, Ho, !app_nil_r by done.
  split_and!; [by rewrite app_assoc|by eapply chatter_turn|apply begun_none|exact Hr].
Qed.

Lemma own_others i j evs ev :
  actor ev = Some (ids i) -> j <> i -> own (ids j) (evs ++ [ev]) = own (ids j) evs.
Proof.
  intros Ha Hne. rewrite own_snoc, decide_False, app_nil_r; [done|]. rewrite Ha.
  intros [= He]. by apply Hne, ids_inj.
Qed.

Lemma counted_event evs ev :
  (forall id ch msg k, ev <> Published id ch msg k) -> counted evs -> counted (evs ++ [ev]).
Proof. intros Hn Hc. apply counted_snoc; [done|]. intros id ch msg k He. by destruct (Hn _ _ _ _ He). Qed.

(** [Sender::send] on the session's own queue. *)
Lemma ok_send i (Q : result SendError unit -> Ghost W -> Prop) bs item start subs doing :
  turn (ids i) start item (doing ++ [Said (ids i) bs]) subs ->
  Q (Ok ()) (at_turn subs) -> (forall e, Q (Err e) (GReader (Some item) start subs doing Steady)) ->
  ok i Q (send bs) (GReader (Some item) start subs doing Steady).
Proof.
  intros Ht HQ HE. apply ok_self. intros rh (Hid & Hse & Hsu). apply ok_move.
  intros g slots qs reg exec b evs Hj Hg Hx. unfold m_zoom, Mpsc.send. cbn. rewrite Hse.
  destruct (joint_half _ _ _ _ _ _ _ _ _ _ _ Hj Hg) as (Hh & Hst & Ho).
  destruct (is_open qs (qn i)) eqn:Hop.
  - exists (Ok ()), (sl_rh (slots !!! i)), (alter (push bs) (qn i) qs), reg, exec, b,
      (evs ++ [Said (ids i) bs]), (at_turn subs). split_and!; [done|by apply stored_event|by apply prefix_app_r| |done].
    destruct Hh as (Hid' & Hse' & Hsu'). eapply joint_reader; try done; rewrite ?crowd_snoc.
    + apply Hj.
    + apply counted_event; [done|apply Hj].
    + by eapply own_turn.
    + exact Hst.
    + intros j popped Hq. by apply said_queue.
    + intros j Hne. by eapply own_others.
    + intros j st' subs' _ Hs'. eapply in_step_mono; [exact Hs'|done|by left|done].
  - exists (Err (mkSendError bs)), (sl_rh (slots !!! i)), qs, reg, exec, b, evs,
      (GReader (Some item) start subs doing Steady). split_and!; [done|done|done| |apply HE].
    eapply joint_stay; try done. by intros items.
Qed.

(** [Channels::subscribe], and [unsubscribe] in a turn. *)
Lemma ok_subscribe i (Q : result ChannelsError unit -> Ghost W -> Prop) ch cur start subs doing :
  begun (ids i) start cur (doing ++ [Joined (ids i) ch]) ->
  Q (Ok ()) (GReader cur start subs (doing ++ [Joined (ids i) ch]) (Pending true ch)) ->
  ok i Q (zoom channelsL (Channels.subscribe ch (mkSubscriber (ids i) (qn i))))
    (GReader cur start subs doing Steady).
Proof.
  intros Hbeg HQ. apply zoom_ok_zoom, zoom_ok_locked_run.
  intros g s (hist & evs & site & -> & Hpre & slots & qs & reg & exec & b & -> & Hj & Hst0) Hg.
  destruct (joint_half _ _ _ _ _ _ _ _ _ _ _ Hj Hg) as ((Hid & Hse & Hsu) & Hst & Ho).
  do 3 eexists. split; [apply (run_subscribe ch (mkSubscriber (ids i) (qn i)) qs reg)|]. split; [|exact HQ].
  recount (evs ++ [Joined (ids i) ch]). eexists _, qs, _, exec, b.
  split; [reflexivity|]. split; [cbn|by apply stored_event].
  eapply joint_reader; try done; rewrite ?crowd_snoc.
  - apply joined_registry; first [done|apply Hj].
  - apply counted_event; [done|apply Hj].
  - by apply own_event.
  - by apply joined_own.
  - by intros j popped.
  - intros j Hne. by eapply own_others.
  - intros j st' subs' Hne Hs'. by apply joined_others.
Qed.

Lemma ok_unsubscribe i (Q : result ChannelsError unit -> Ghost W -> Prop) ch cur start subs doing st st' :
  (st = Steady /\ st' = Pending false ch \/ exists rest, st = Leaving (ch :: rest) /\ st' = Leaving rest) ->
  Q (Ok ()) (GReader cur start subs (doing ++ [Left (ids i) ch]) st') ->
  ok i Q (zoom channelsL (Channels.unsubscribe ch (ids i))) (GReader cur start subs doing st).
Proof.
  intros Hstage HQ. apply zoom_ok_zoom, zoom_ok_locked_run.
  intros g s (hist & evs & site & -> & Hpre & slots & qs & reg & exec & b & -> & Hj & Hst0) Hg.
  destruct (joint_half _ _ _ _ _ _ _ _ _ _ _ Hj Hg) as ((Hid & Hse & Hsu) & Hst & Ho).
  do 3 eexists. split; [apply (run_unsubscribe ch (ids i) qs reg)|]. split; [|exact HQ].
  recount (evs ++ [Left (ids i) ch]). eexists _, qs, _, exec, b.
  split; [reflexivity|]. split; [cbn|by apply stored_event].
  eapply joint_reader; try done; rewrite ?crowd_snoc.
  - apply left_registry; first [done|apply Hj].
  - apply counted_event; [done|apply Hj].
  - by apply own_left.
  - destruct Hstage as [[-> ->]|(rest & -> & ->)]; [by apply left_own|by apply left_leaving].
  - by intros j popped.
  - intros j Hne. by eapply own_others.
  - intros j st'' subs' Hne Hs'. by apply left_others.
Qed.

(** [Channels::publish]. *)
Lemma ok_publish i (Q : result ChannelsError N -> Ghost W -> Prop) ch msg cur start subs doing :
  (forall k, begun (ids i) start cur (doing ++ [Published (ids i) ch msg k])) ->
  (forall k, Q (Ok k) (GReader cur start subs (doing ++ [Published (ids i) ch msg k]) Steady)) ->
  ok i Q (zoom channelsL (Channels.publish order (push_message ch msg) ch))
    (GReader cur start subs doing Steady).
Proof.
  intros Hbeg HQ. apply zoom_ok_zoom, zoom_ok_locked_run.
  intros g s (hist & evs & site & -> & Hpre & slots & qs & reg & exec & b & -> & Hj & Hst0) Hg.
  destruct (joint_half _ _ _ _ _ _ _ _ _ _ _ Hj Hg) as ((Hid & Hse & Hsu) & Hst & Ho).
  destruct (published ids qn ids_inj qn_inj order (ids i) ch msg reg qs (crowd evs) order_perm)
    as (qs' & reg' & Hrun & Hr' & Hq' & Hs'); [apply Hj|by eapply joint_queues|].
  do 3 eexists. split; [exact Hrun|]. split; [|apply HQ].
  recount (evs ++ [Published (ids i) ch msg (N.min (N.of_nat (size (reached (crowd evs) ch))) u32_max)]). eexists _, qs', reg', exec, b.
  split; [reflexivity|]. split; [cbn|by apply stored_event].
  eapply joint_reader; try done; rewrite ?crowd_snoc; eauto.
  - apply counted_snoc; [apply Hj|]. by intros ? ? ? ? [= <- <- <- <-].
  - by apply own_event.
  - intros j Hne. by eapply own_others.
Qed.

(** The session's own set catches up. *)
Lemma ok_update i (Q : result ChannelsError N -> Ghost W -> Prop) (joined : bool) ch cur start subs doing :
  let subs' := (if joined then join else part) ch subs in
  Q (Ok (N.of_nat (size subs'))) (GReader cur start subs' doing Steady) ->
  ok i Q (update_subscriptions ((if joined then join else part) ch))
    (GReader cur start subs doing (Pending joined ch)).
Proof.
  intros subs' HQ. apply ok_move. intros g slots qs reg exec b evs Hj Hg Hx.
  destruct (joint_half _ _ _ _ _ _ _ _ _ _ _ Hj Hg) as ((Hid & Hse & Hsu) & [Hst Hp] & Ho).
  cbn. rewrite Hsu. fold subs'.
  exists (Ok (N.of_nat (size subs'))), (set_subscriptions subs' (sl_rh (slots !!! i))), qs, reg, exec, b, evs,
    (GReader cur start subs' doing Steady). split_and!; [done|done|done| |exact HQ].
  eapply joint_reader; eauto; [apply Hj|apply Hj|]. intros ch'.
  destruct (decide (ch' = ch)) as [->|Hne].
  - unfold subs', join, part. destruct joined; split; try tauto; set_solver.
  - destruct (Hst ch' Hne) as [H1' H2']. unfold subs', join, part.
    destruct joined; split; try (intros Hm; apply H2'); set_solver.
Qed.

(** *** Whole operations *)

Lemma ok_return {E A B} i (Q : result E B -> Ghost W -> Prop) (p : prog (World R Exec) E A) (f : A -> B) gi :
  ok i (fun r gi => Q (match r with Ok a => Ok (f a) | Err e => Err e end) gi) p gi ->
  ok i Q (a ← p; mret (f a)) gi.
Proof.
  intros Hp. apply zoom_ok_bind. eapply thread_ok_mono; [|exact Hp]. by intros [a|e] gi'.
Qed.

Lemma ok_subscribe_each i (Q : result ChannelsError (list SubUnsubInnerEntry) -> Ghost W -> Prop)
    chs cur start subs doing :
  (forall chs1 chs2, chs = chs1 ++ chs2 -> begun (ids i) start cur (doing ++ (Joined (ids i) <$> chs1))) ->
  Q (Ok (acks join chs subs))
    (GReader cur start (list_to_set chs ∪ subs) (doing ++ (Joined (ids i) <$> chs)) Steady) ->
  ok i Q (subscribe_each chs) (GReader cur start subs doing Steady).
Proof.
  revert Q subs doing. induction chs as [|ch chs IH]; intros Q subs doing Hbeg HQ; cbn [subscribe_each].
  { apply zoom_ok_ret. cbn in HQ. by rewrite app_nil_r, union_empty_l_L in HQ. }
  apply ok_self. intros rh (-> & -> & Hsu).
  apply zoom_ok_bind, ok_subscribe; [by apply (Hbeg [ch] chs)|].
  apply zoom_ok_bind, (ok_update i _ true), ok_return, IH.
  { intros chs1 chs2 ->. rewrite <- app_assoc. by apply (Hbeg (ch :: chs1) chs2). }
  cbn [acks list_to_set fmap list_fmap] in HQ.
  replace (list_to_set chs ∪ join ch subs) with ({[ ch ]} ∪ list_to_set chs ∪ subs)
    by (unfold join; set_solver).
  by rewrite <- app_assoc.
Qed.

Lemma ok_unsubscribe_each i (Q : result ChannelsError (list SubUnsubInnerEntry) -> Ghost W -> Prop)
    chs cur start subs doing :
  Q (Ok (acks part chs subs))
    (GReader cur start (subs ∖ list_to_set chs) (doing ++ (Left (ids i) <$> chs)) Steady) ->
  ok i Q (unsubscribe_each chs) (GReader cur start subs doing Steady).
Proof.
  revert Q subs doing. induction chs as [|ch chs IH]; intros Q subs doing HQ; cbn [unsubscribe_each].
  { apply zoom_ok_ret. cbn in HQ. by rewrite app_nil_r, difference_empty_L in HQ. }
  apply ok_self. intros rh (-> & _ & Hsu).
  apply zoom_ok_bind. eapply ok_unsubscribe; [by left|].
  apply zoom_ok_bind, (ok_update i _ false), ok_return, IH.
  cbn [acks list_to_set fmap list_fmap] in HQ.
  replace (part ch subs ∖ list_to_set chs) with (subs ∖ ({[ ch ]} ∪ list_to_set chs))
    by (unfold part; set_solver).
  by rewrite <- app_assoc.
Qed.

Lemma ok_unsubscribe_all i (Q : result ChannelsError (list (result ChannelsError unit)) -> Ghost W -> Prop)
    chs cur start subs doing :
  (forall r doing', Q r (GReader cur start subs doing' (Leaving []))) ->
  ok i Q (unsubscribe_all (ids i) chs) (GReader cur start subs doing (Leaving chs)).
Proof.
  revert Q doing. induction chs as [|ch chs IH]; intros Q doing HQ; cbn [unsubscribe_all].
  { apply zoom_ok_ret. by apply HQ. }
  apply zoom_ok_bind, ok_catch. eapply ok_unsubscribe; [by right; eexists|].
  apply ok_return, IH. intros r doing'. by apply HQ.
Qed.

(** A channel command in its turn. *)
Lemma ok_channel_command i f cmd subs :
  lifts f (Ok (Channel cmd)) ->
  ok i (fun r gi => exists out doing subs', r = Ok out /\ gi = GReader (Some (Ok f)) subs subs' doing Steady /\
          carries_out (ids i) subs cmd doing out subs')
    (execute_channel_command order iter cmd) (holding (Ok f) subs).
Proof.
  intros Hl. destruct cmd as [chs|chs|ch msg]; unfold execute_channel_command.
  - apply ok_return, ok_subscribe_each.
    { intros chs1 chs2 ->. eapply begun_channel; [exact Hl|].
      pose proof (out_subscribe (ids i) subs (chs1 ++ chs2)) as Hout. rewrite fmap_app in Hout. exact Hout. }
    do 3 eexists. split; [done|]. split; [done|].
    cbn [app]. apply out_subscribe.
  - apply ok_self. intros rh (_ & _ & Hsu). cbv zeta.
    assert (Htargets : forall targets, targets <> [] -> (chs = [] -> targets ≡ₚ elements subs) ->
      (chs <> [] -> targets = chs) ->
      ok i (fun r gi => exists out doing subs', r = Ok out /\ gi = GReader (Some (Ok f)) subs subs' doing Steady /\
              carries_out (ids i) subs (Unsubscribe chs) doing out subs')
        (inner ← unsubscribe_each targets; mret (CcoUnsubscribe inner)) (holding (Ok f) subs)).
    { intros targets Hne Hall Hsome. apply ok_return, ok_unsubscribe_each.
      do 3 eexists. split; [done|]. split; [done|]. cbn [app]. by apply out_unsubscribe. }
    rewrite Hsu. destruct (decide (chs = [])) as [->|Hne].
    + destruct (decide (iter subs = [])) as [He|He].
      * pose proof (iter_perm subs) as Hp. rewrite He in Hp. apply Permutation_nil in Hp.
        apply elements_empty_inv in Hp. apply leibniz_equiv in Hp as ->.
        apply zoom_ok_ret. do 3 eexists. split; [done|]. split; [done|].
        rewrite size_empty. by apply out_unsubscribe_none.
      * apply Htargets; [done|by intros _|done].
    + rewrite decide_False by done. by apply Htargets.
  - apply ok_return, ok_publish; intros k.
    { eapply (begun_channel _ _ _ _ _ _ []); [exact Hl|apply out_publish]. }
    do 3 eexists. split; [done|]. split; [done|].
    apply out_publish.
Qed.

(** What reading gives: a value and what it is of; nothing, or an error of the socket;
    or an answer to what was no frame or no command that did not get away. *)
Definition after_reading {A} (made_of : A -> Item -> Prop) subs (r : result ReadHalfError (option A))
    (gi : Ghost W) : Prop :=
  match r with
  | Ok (Some a) => exists item, made_of a item /\ gi = holding item subs
  | Ok None | Err (RhIo _) => gi = at_turn subs
  | Err _ => exists item, gi = holding item subs
  end.

(** Replies to what is no frame or no command, a turn each. *)
Lemma ok_read_frame i fuel subs :
  ok i (after_reading (fun f item => item = Ok f) subs) (read_frame fuel) (at_turn subs).
Proof.
  induction fuel as [|fuel IH]; cbn [read_frame]; [done|].
  apply zoom_ok_bind, ok_parse.
  - intros [f|e] Hne; [apply zoom_ok_ret; by eexists|].
    assert (Herr : ok i (after_reading (fun f item => item = Ok f) subs)
      (p_map_err RhSend (send (err_reply (display_FrameError e)));; read_frame fuel) (holding (Err e) subs)).
    { apply zoom_ok_bind, zoom_ok_map_err, ok_send; [apply turn_no_frame|exact IH|by eexists]. }
    by destruct e; first [exact Herr|destruct Hne].
  - apply zoom_ok_bind, zoom_ok_map_err, ok_fill. intros [len|e]; cbn [map_err]; [|done].
    case_decide; [by apply zoom_ok_ret|exact IH].
Qed.

Lemma ok_read_command i reads fuel subs :
  ok i (after_reading (fun cmd item => exists f, item = Ok f /\ lifts f (Ok cmd)) subs)
    (read_command exec_clockL reads fuel) (at_turn subs).
Proof.
  induction fuel as [|fuel IH]; cbn [read_command]; [done|].
  apply zoom_ok_bind. eapply thread_ok_mono; [|apply ok_read_frame].
  intros [[f|]|e] gi; [intros (item & -> & ->)|by intros ->; apply zoom_ok_ret|done].
  apply zoom_ok_bind, ok_catch, ok_lifting. intros [cmd|e] Hl.
  { apply zoom_ok_ret. exists (Ok f). split; [by exists f|done]. }
  apply zoom_ok_bind, zoom_ok_map_err, ok_send; [by apply turn_no_command|exact IH|by eexists].
Qed.

(** Out of a turn: on to the next, or done with the client. *)
Definition after_turn {E} (i : fin n) (r : result E flow) (gi : Ghost W) : Prop :=
  match r with
  | Ok Continue => exists subs, gi = at_turn subs
  | Ok (Break _) => exists cur start subs doing, gi = GReader cur start subs doing Steady
  | Err _ => False
  end.

Lemma after_at_turn {E} i (f : flow) subs : after_turn (E := E) i (Ok f) (at_turn subs).
Proof. destruct f; [by exists subs|]. by exists None, subs, subs, []. Qed.

Lemma ok_reply {E} i bs item start subs doing :
  turn (ids i) start item (doing ++ [Said (ids i) bs]) subs ->
  ok i (after_turn i) (reply_or_break (E := E) bs) (GReader (Some item) start subs doing Steady).
Proof.
  intros Ht. apply zoom_ok_bind, ok_catch, ok_send; [exact Ht| |intros e]; apply zoom_ok_ret.
  - by exists subs.
  - by exists (Some item), start, subs, doing.
Qed.

(** *** Effects on the map *)

(** A session's place while it is at a cache command. *)
Definition at_command (i : fin n) (f : Frame) subs (part : list Effect) : Ghost W :=
  GReader (Some (Ok f)) subs subs (Touched (Some (ids i)) <$> part) Steady.

(** The executor's part of the world. *)
Lemma crowd_chronicles i f subs cmd :
  lifts f (Ok (Command.Cache cmd)) ->
  chronicles inv ck (lens_comp (worldAt i) execL) (rd i) (at_command i f subs) (underway ck cmd).
Proof.
  intros Hl. split.
  - intros g s part (hist & evs & site & -> & Hpre & slots & qs & reg & exec & b & -> & Hj & clk & h & m & p & -> & Hc & Hs) Hg.
    by exists clk, h, m, p.
  - intros g s part clk h m p clk' h' p' (hist & evs & site & -> & Hpre & slots & qs & reg & exec & b & -> & Hj & Hst) Hg Hv Hc.
    cbn in Hv. subst exec. destruct Hst as (? & ? & ? & ? & [= <- <- <- <-] & _ & Hs).
    destruct (joint_half _ _ _ _ _ _ _ _ _ _ _ Hj Hg) as (Hh & Hst & _).
    recount evs. eexists _, qs, reg, (exec_at clk' h' m p'), b. split; [reflexivity|]. split.
    + eapply joint_stay; try done. by intros items.
    + by exists clk', h', m, p'.
  - intros g s part clk h m p clk' ev m' (hist & evs & site & -> & Hpre & slots & qs & reg & exec & b & -> & Hj & Hst) Hg Hv Hc Hstep HW.
    cbn in Hv. subst exec. destruct Hst as (? & ? & ? & ? & [= <- <- <- <-] & _ & Hs).
    destruct (joint_half _ _ _ _ _ _ _ _ _ _ _ Hj Hg) as ((Hid & Hse & Hsu) & Hst & Ho).
    recount (evs ++ [Touched (Some (ids i)) ev]). eexists _, qs, reg, (exec_at clk' h m' p), b.
    split; [reflexivity|]. split.
    + eapply joint_reader; try done; rewrite ?crowd_snoc; try done.
      * apply Hj.
      * apply counted_event; [done|apply Hj].
      * rewrite fmap_app. apply own_event; [done| |exact Ho].
        pose proof (begun_cache ck (ids i) subs f cmd (part ++ [ev]) Hl HW) as Hb.
        rewrite fmap_app in Hb. exact Hb.
      * intros j Hne. by eapply own_others.
    + exists clk', h, m', p. split_and!; [done..|]. rewrite effects_snoc. by eapply run_snoc.
Qed.

Lemma ok_command i f subs cc :
  lifts f (Ok (Command.Cache cc)) ->
  ok i (fun r gi => exists part, gi = at_command i f subs part /\
          forall out, r = Ok out -> says ck cc part out)
    (zoom execL (execute_logged cc)) (holding (Ok f) subs).
Proof.
  intros Hl. apply zoom_ok_zoom. eapply thread_ok_mono;
    [|apply (ok_execute_logged _ _ ck _ (fun _ _ => I) (rd i) (at_command i f subs) (underway ck cc));
      [by apply crowd_chronicles|done]].
  intros r gi (part & -> & Hs). by exists part.
Qed.

Lemma ok_turn {E} i reads fuel subs :
  ok i (after_turn i) (repl_turn (E := E) exec_clockL order iter reads fuel) (at_turn subs).
Proof.
  unfold repl_turn. apply zoom_ok_bind, ok_quiet. intros rh qs reg exec b Hh _. do 4 eexists.
  split; [done|]. split; [done|]. split; [done|]. split; [by intros items|].
  destruct b; [apply zoom_ok_ret, after_at_turn|].
  apply zoom_ok_bind, ok_catch. eapply thread_ok_mono; [|apply ok_read_command].
  intros [[[cc|cmd|msg]|]|e] gi.
  - intros (item & (f & -> & Hl) & ->).
    apply zoom_ok_bind, ok_catch. eapply thread_ok_mono; [|by apply ok_command].
    intros [out|e] gi (part & -> & Hs); [|apply zoom_ok_ret; by do 4 eexists].
    apply ok_reply. by eapply turn_cache, Hs.
  - intros (item & (f & -> & Hl) & ->).
    apply zoom_ok_bind, ok_catch. eapply thread_ok_mono; [|by apply ok_channel_command].
    intros r gi (out & doing & subs' & -> & -> & Hout).
    apply ok_reply. by eapply turn_channel.
  - intros (item & (f & -> & Hl) & ->). by apply ok_reply, turn_ping.
  - intros ->. apply zoom_ok_ret, after_at_turn.
  - destruct e; [intros ->; case_decide; apply zoom_ok_ret, after_at_turn|..];
      intros (item & ->); apply zoom_ok_ret; by do 4 eexists.
Qed.

Definition on_the_way_out {E A} (i : fin n) (r : result E A) (gi : Ghost W) : Prop :=
  is_ok r = true /\ exists cur start subs doing, gi = GReader cur start subs doing Steady.

Lemma ok_reader_loop i reads fuel turns subs :
  ok i (on_the_way_out i) (reader_loop exec_clockL order iter reads fuel turns) (at_turn subs).
Proof.
  revert subs. induction turns as [|turns IH]; intros subs; cbn [reader_loop]; [done|].
  apply zoom_ok_bind. eapply thread_ok_mono; [|apply ok_turn].
  intros [[|r]|e] gi; [intros [subs' ->]; apply IH| |done].
  intros Hout. by apply zoom_ok_ret.
Qed.

(** A session that is through is in no channel. *)
Definition gone (gi : Ghost W) : Prop :=
  exists cur start subs doing, gi = GReader cur start subs doing (Leaving []).

Lemma ok_repl_reader i reads fuel turns :
  ok i (fun _ gi => gone gi) (repl_reader exec_clockL order iter reads fuel turns) (at_turn ∅).
Proof.
  apply zoom_ok_bind. eapply thread_ok_mono; [|apply ok_reader_loop].
  intros [r|e] gi [Hok (cur & start & subs & doing & ->)]; [|done].
  apply ok_return. unfold unsubscribe_from_all. apply zoom_ok_bind, ok_move.
  intros g slots qs reg exec b evs Hj Hg Hx.
  destruct (joint_half _ _ _ _ _ _ _ _ _ _ _ Hj Hg) as (Hh & Hst & Ho). pose proof Hh as (Hid & _ & Hsu).
  exists (Ok (sl_rh (slots !!! i))), (sl_rh (slots !!! i)), qs, reg, exec, b, evs,
    (GReader cur start subs doing (Leaving (iter subs))). split_and!; [done|done|done| |].
  - eapply joint_stay; [done|done|done|by intros items|]. intros ch Hm. apply Hst in Hm. rewrite (iter_perm subs).
    by apply elem_of_elements.
  - rewrite Hid, Hsu. apply ok_unsubscribe_all. intros r' doing'. by do 4 eexists.
Qed.

(** ** The main threads and the writers *)

Abbreviation on_conn i := (zoom_ok inv may_wait (connAt i)).

(** A slot whose halves are what they were. *)
Lemma joint_flags k i g gi slots qs reg evs sl' :
  joint g slots qs reg evs -> g k = gi ->
  sl_rh sl' = sl_rh (slots !!! i) -> sl_wh sl' = sl_wh (slots !!! i) ->
  joint (upd k gi g) (vinsert i sl' slots) qs reg evs.
Proof.
  intros [Hr Hc Hs] <- Hrh Hwh. split; [done..|]. intros j.
  specialize (Hs j) as (cur & start & subs & doing & st & popped & bw & Hgr & Hgw & Hrest).
  exists cur, start, subs, doing, st, popped, bw. unfold upd.
  split; [by case_decide; subst|]. split; [by case_decide; subst|].
  destruct (decide (j = i)) as [->|Hne]; [by rewrite vlookup_insert, Hrh, Hwh|].
  by rewrite vlookup_insert_ne.
Qed.

(** Looking at a session, or setting its flags. *)
Lemma ok_flags {E A} k i (Q : result E A -> Ghost W -> Prop) (m : M (Conn R W Exec) E A) gi :
  (forall c, exists r a d, m c = (r, mkConn (co_world c) (co_wh c) a d) /\ Q r gi) ->
  on_conn i k Q (atomic m) gi.
Proof.
  intros Hm. apply zoom_ok_atomic. intros g s (hist & evs & site & -> & Hpre & slots & qs & reg & exec & b & -> & Hj & Hst0) Hg.
  exists gi. destruct (Hm (conn_of i (mkSite slots (channels_at qs reg) exec b))) as (r & a & d & He & HQ).
  change (view (connAt i) _) with (conn_of i (mkSite slots (channels_at qs reg) exec b)).
  rewrite He. split; [|exact HQ]. recount evs. eexists _, qs, reg, exec, b. split; [reflexivity|].
  split; [by eapply joint_flags|done].
Qed.

Lemma ok_main i reads fuel turns :
  on_conn i (rd i) (fun _ gi => gone gi) (repl_main exec_clockL order iter reads fuel turns) (at_turn ∅).
Proof.
  apply zoom_ok_bind, zoom_ok_zoom. eapply thread_ok_mono; [|apply ok_repl_reader].
  intros [r|e] gi Hgone; [|done]. apply zoom_ok_bind, ok_flags. intros c. do 3 eexists.
  split; [done|]. apply zoom_ok_bind.
  intros g s Hi Hg. cbn [zoom join_writer]. destruct (co_writer_done _); [|done].
  exists gi. destruct Hi as (hist & evs & site & -> & Hpre & slots & qs & reg & exec & b & -> & Hj & Hst0). split; [|done].
  recount evs. eexists _, qs, reg, exec, b. split; [reflexivity|].
  split; [by eapply joint_flags|done].
Qed.

(** Unless a write has failed, all that was taken off the queue is on the socket. *)
Definition flushed (i : fin n) (popped : list bytes) (bw : BufWriter W) : Prop :=
  holding_back [] (base i ++ concat popped) bw.

Lemma flushed_socket i popped bw : flushed i popped bw -> socket_ok base i popped bw.
Proof.
  intros Hf Hb. destruct (Hf Hb) as [_ Hr]. exists (length popped). split; [lia|]. by rewrite take_ge.
Qed.

Lemma joint_wh i g slots qs reg evs popped bw :
  joint g slots qs reg evs -> g (wr i) = GWriter popped bw ->
  wh_writer (sl_wh (slots !!! i)) = bw /\ wh_receiver (sl_wh (slots !!! i)) = qn i /\
  queue_ok ids qn i qs (crowd evs) popped.
Proof.
  intros [_ _ Hs] Hg. specialize (Hs i) as (? & ? & ? & ? & ? & ? & ? & ? & Hgw & ? & ? & ? & Hrc & Hbw & Hq & ?).
  rewrite Hg in Hgw. injection Hgw as <- <-. by split_and!.
Qed.

(** A program on the buffered socket, which at every step is as the history says. *)
Lemma ok_writing {E A} i (Q : result E A -> Ghost W -> Prop) (p : prog (BufWriter W) E A) P QS popped bw :
  safely P QS p bw -> (forall bw, P bw -> socket_ok base i popped bw) ->
  (forall r bw, QS r bw -> Q r (GWriter popped bw)) ->
  on_conn i (wr i) Q (zoom writerL p) (GWriter popped bw).
Proof.
  intros Hal HP HQ. apply zoom_ok_zoom. unfold zoom_ok. revert bw Hal.
  induction p as [r|f IH] using prog_elim; intros bw Hal; cbn; [apply HQ, Hal|].
  intros g s (hist & evs & site & -> & Hpre & slots & qs & reg & exec & b & -> & Hj & Hst0) Hg.
  destruct (joint_wh _ _ _ _ _ _ _ _ Hj Hg) as (Hbw & Hrc & Hq). cbn [conn_of co_wh st_slots snd].
  rewrite Hbw. destruct Hal as [_ Hal]. cbn in Hal. destruct (f bw) as [[p' bw']|] eqn:Hf; [|exact I].
  exists (GWriter popped bw'). split; [|by eapply IH].
  recount evs. eexists _, qs, reg, exec, b. split; [reflexivity|]. split; [|done].
  eapply joint_writer; try done; [apply Hj|apply Hj|].
  apply HP. destruct p'; apply Hal.
Qed.

(** [recv] takes the next message. *)
Lemma ok_recv i (Q : result RecvError bytes -> Ghost W -> Prop) popped bw :
  flushed i popped bw ->
  (forall msg, Q (Ok msg) (GWriter (popped ++ [msg]) bw)) -> (forall e, Q (Err e) (GWriter popped bw)) ->
  on_conn i (wr i) Q recv (GWriter popped bw).
Proof.
  intros Hfl HQ HE. unfold zoom_ok. cbn [zoom recv].
  intros g s (hist & evs & site & -> & Hpre & slots & qs & reg & exec & b & -> & Hj & Hst0) Hg.
  destruct (joint_wh _ _ _ _ _ _ _ _ Hj Hg) as (Hbw & Hrc & items & Hi & Hq).
  set (c := view (connAt i) _). assert (Hc : wh_receiver (co_wh c) = qn i) by exact Hrc. rewrite Hc.
  change (view conn_queuesL c) with qs. unfold pop. rewrite Hq. case_decide as Hcl.
  - destruct (sender_alive c); [done|]. exists (GWriter popped bw). split; [|apply HE].
    recount evs. eexists _, qs, reg, exec, b. split; [reflexivity|].
  split; [by eapply joint_flags|done].
  - destruct items as [|msg rest].
    + destruct (sender_alive c); [done|]. exists (GWriter popped bw). split; [|apply HE].
      recount evs. eexists _, qs, reg, exec, b. split; [reflexivity|].
  split; [by eapply joint_flags|done].
    + exists (GWriter (popped ++ [msg]) bw). split; [|apply HQ].
      recount evs. eexists _, (<[qn i := mkQueue rest true]> qs), reg, exec, b. split; [reflexivity|]. split; [|done].
      eapply joint_writer; try done; [apply Hj|apply Hj|..].
      * exists rest. rewrite Hi, <- app_assoc. split; [done|].
        by rewrite lookup_insert_eq, decide_False.
      * intros Hbr. destruct (Hfl Hbr) as [_ Hr]. exists (length popped). rewrite length_app. cbn.
        split; [lia|]. by rewrite take_app_length.
      * intros j popped' Hne (items' & Hi' & Hq'). exists items'. split; [done|].
        rewrite lookup_insert_ne; [done|]. intros He. by apply Hne, qn_inj.
Qed.

(** The end of a writer: its receiver goes. *)
Lemma ok_drop_wh {E} i popped bw :
  flushed i popped bw ->
  on_conn i (wr i) (fun _ _ => True) (drop_wh (E := E)) (GWriter popped bw).
Proof.
  intros Hfl. apply zoom_ok_then.
  eapply (ok_writing i _ bw_flush_buf (flushed i popped) (fun _ => flushed i popped)).
  { pose proof (bw_flush_buf_safely (flushed i popped) [] (base i ++ concat popped) bw Hfl) as Hs. rewrite app_nil_r in Hs.
    eapply safely_mono; [|by apply Hs]. by intros r w _ []. }
  { intros bw'. apply flushed_socket. }
  intros r bw' Hfl'. apply zoom_ok_atomic.
  intros g s (hist & evs & site & -> & Hpre & slots & qs & reg & exec & b & -> & Hj & Hst0) Hg.
  destruct (joint_wh _ _ _ _ _ _ _ _ Hj Hg) as (Hbw & Hrc & Hq).
  exists (GWriter popped bw'). split; [|done].
  recount (evs ++ [Closed (ids i)]). eexists _, (drop_receiver (qn i) qs), reg, exec, b.
  split; [cbn; by rewrite Hrc|]. split; [|by apply stored_event].
  eapply joint_writer; try done; rewrite ?crowd_snoc.
  - apply Hj.
  - apply counted_event; [done|apply Hj].
  - by apply closed_queue.
  - by apply flushed_socket.
  - intros j popped' _ Hq'. by apply closed_queue.
  - intros j. by rewrite own_snoc, app_nil_r.
  - intros j st subs. by apply closed_others.
Qed.

Lemma ok_writer {E} i turns popped bw :
  flushed i popped bw ->
  on_conn i (wr i) (fun _ _ => True) (writer_thread (E := E) turns) (GWriter popped bw).
Proof.
  revert popped bw. induction turns as [|turns IH]; intros popped bw Hfl; cbn [writer_thread]; [done|].
  apply zoom_ok_bind, ok_flags. intros c.
  exists (Ok (w_shutdown (co_world c))), (co_rh_alive c), (co_writer_done c).
  split; [by destruct c|]. destruct (w_shutdown (co_world c)); [by apply ok_drop_wh|].
  apply zoom_ok_then, ok_recv; [done| |intros e; by apply ok_drop_wh].
  intros msg. apply zoom_ok_then.
  pose proof (write_out_safely msg _ _ Hfl) as Hal. eapply ok_writing; [exact Hal| |].
  - intros bw' Hs Hb. destruct (Hs Hb) as [Hr'|Hr'].
    + exists (length popped). rewrite length_app. cbn. split; [lia|]. by rewrite take_app_length.
    + exists (length (popped ++ [msg])). split; [lia|].
      rewrite take_ge, concat_app, Hr' by done. cbn. by rewrite app_nil_r, app_assoc.
  - intros r bw' Hh. apply IH. unfold flushed. rewrite concat_app. cbn.
    by rewrite app_nil_r, app_assoc.
Qed.

(** *** The server's own threads *)

Lemma joint_other k gi g slots qs reg evs :
  (forall i : fin n, k <> rd i) -> (forall i : fin n, k <> wr i) ->
  joint g slots qs reg evs -> joint (upd k gi g) slots qs reg evs.
Proof.
  intros Hrd Hwr [Hr Hc Hs]. split; [done..|]. intros i. unfold upd.
  rewrite !decide_False; [apply Hs|intros He; by destruct (Hwr i)|intros He; by destruct (Hrd i)].
Qed.

(** An effect that is no session's. *)
Lemma joint_touched g slots qs reg evs ev :
  joint g slots qs reg evs -> joint g slots qs reg (evs ++ [Touched None ev]).
Proof.
  intros [Hr Hc Hs]. split; rewrite ?crowd_snoc; [done|by apply counted_event|].
  intros i.
  destruct (Hs i) as (cur & start & subs & doing & st & popped & bw & H1' & H2' & H3' & H4' & H5' & H6' & H7' & Hq & Hst & Ho & Hk).
  exists cur, start, subs, doing, st, popped, bw. rewrite crowd_snoc. split_and!; try done.
  destruct Ho as (items & past & Ho & Hch & Hd). exists items, past. by rewrite own_snoc, app_nil_r.
Qed.

Lemma background_chronicles k :
  (forall i : fin n, k <> rd i) -> (forall i : fin n, k <> wr i) ->
  chronicles inv ck execAt k (fun _ => GFlag) (fun _ => True).
Proof.
  intros Hrd Hwr. split.
  - intros g s part (hist & evs & site & -> & Hpre & slots & qs & reg & exec & b & -> & Hj & clk & h & m & p & -> & Hc & Hs) Hg.
    by exists clk, h, m, p.
  - intros g s part clk h m p clk' h' p' (hist & evs & site & -> & Hpre & slots & qs & reg & exec & b & -> & Hj & Hst) Hg Hv Hc.
    cbn in Hv. subst exec. destruct Hst as (? & ? & ? & ? & [= <- <- <- <-] & _ & Hs).
    recount evs. eexists slots, qs, reg, (exec_at clk' h' m p'), b. split; [reflexivity|].
    split; [by apply joint_other|]. by exists clk', h', m, p'.
  - intros g s part clk h m p clk' ev m' (hist & evs & site & -> & Hpre & slots & qs & reg & exec & b & -> & Hj & Hst) Hg Hv Hc Hstep _.
    cbn in Hv. subst exec. destruct Hst as (? & ? & ? & ? & [= <- <- <- <-] & _ & Hs).
    recount (evs ++ [Touched None ev]). eexists slots, qs, reg, (exec_at clk' h m' p), b. split; [reflexivity|].
    split; [by apply joint_touched, joint_other|].
    exists clk', h, m', p. split_and!; [done..|]. rewrite effects_snoc. by eapply run_snoc.
Qed.

Section background.
Context (k : nat) (k_rd : forall i : fin n, k <> rd i) (k_wr : forall i : fin n, k <> wr i).

Abbreviation own_thread := (prog (Site R W Exec n) ChannelsError (result SessionError unit)).

Lemma ok_raise_flag : zoom_ok inv may_wait lens_snd k (fun _ _ => True) (raise_flag : own_thread) GFlag.
Proof using k_rd k_wr.
  intros g s (hist & evs & site & -> & Hpre & slots & qs & reg & exec & b & -> & Hj & Hst) Hg. cbn.
  exists GFlag. split; [|done]. recount evs. exists slots, qs, reg, exec, true. split; [done|].
  split; [by apply joint_other|done].
Qed.

Lemma ok_snapshots turns :
  zoom_ok inv may_wait lens_snd k (fun _ _ => True) (snapshots turns : own_thread) GFlag.
Proof using k_rd k_wr.
  induction turns as [|turns IH]; cbn [snapshots]; [done|]. apply zoom_ok_then, zoom_ok_assoc.
  eapply thread_ok_mono;
    [|apply (ok_snapshot inv may_wait ck execAt k _ _ [] (fun _ _ => I) (background_chronicles k k_rd k_wr))].
  by intros r gi ->.
Qed.

Lemma ok_sweeps turns :
  zoom_ok inv may_wait lens_snd k (fun _ _ => True) (sweeps turns : own_thread) GFlag.
Proof using k_rd k_wr.
  induction turns as [|turns IH]; cbn [sweeps]; [done|]. apply zoom_ok_then, zoom_ok_assoc.
  eapply thread_ok_mono;
    [|apply (ok_remove_expired inv may_wait ck execAt (fun _ _ => I) k _ _
              (background_chronicles k k_rd k_wr) [] I)].
  by intros r gi [_ ->].
Qed.
End background.
End threads.

(** ** The start *)

Lemma split_all_spec {R W n} (ss : vec (Session R W) n) (qs : Queues) :
  let '(sls, qs') := split_all ss qs in
  (forall i, let q := rh_sender (sl_rh (sls !!! i)) in let s := ss !!! i in
     qs !! q = None /\ qs' !! q = Some (mkQueue [] true) /\
     sl_rh (sls !!! i) = mkReadHalf (se_id s) (se_reader s) q (se_subscriptions s) /\
     sl_wh (sls !!! i) = mkWriteHalf (se_writer s) q) /\
  (forall i j, rh_sender (sl_rh (sls !!! i)) = rh_sender (sl_rh (sls !!! j)) -> i = j) /\
  (forall q x, qs !! q = Some x -> qs' !! q = Some x).
Proof.
  revert qs. induction ss as [|s n ss IH]; intros qs; cbn [split_all].
  - split_and!; [intros i; inv_fin i|intros i; inv_fin i|done].
  - unfold split. pose proof (channel_fresh qs) as Hfresh. unfold channel in *. cbn [fst] in Hfresh.
    set (q0 := fresh (dom qs)) in *. specialize (IH (<[q0 := mkQueue [] true]> qs)).
    destruct (split_all ss _) as [sls qs'] eqn:Hsp. destruct IH as (Hs & Hinj & Hkeep).
    assert (Hq0 : qs' !! q0 = Some (mkQueue [] true)) by (by apply Hkeep; rewrite lookup_insert_eq).
    assert (Hne : forall i, rh_sender (sl_rh (sls !!! i)) <> q0).
    { intros i He. destruct (Hs i) as [Hn _]. by rewrite He, lookup_insert_eq in Hn. }
    split_and!.
    + intros i. inv_fin i; cbn; [by split_and!|]. intros i.
      destruct (Hs i) as (Hn & Ho & Hrh & Hwh). rewrite lookup_insert_ne in Hn by (intros He; by apply (Hne i)).
      by split_and!.
    + intros i j. inv_fin i; inv_fin j; cbn; [done| | |].
      * intros j He. by destruct (Hne j).
      * intros i He. by destruct (Hne i).
      * intros j i He. f_equal. by apply Hinj.
    + intros q x Hq. apply Hkeep. rewrite lookup_insert_ne; [done|]. intros <-. congruence.
Qed.

Lemma fin_enum_lookup {n} (i : fin n) : fin_enum n !! fin_to_nat i = Some i.
Proof.
  induction i as [|n i IH]; [done|]. change (fin_enum (S n)) with (0%fin :: (FS <$> fin_enum n)).
  change ((FS <$> fin_enum n) !! fin_to_nat i = Some (FS i)). by rewrite list_lookup_fmap, IH.
Qed.
Lemma length_fin_enum n : length (fin_enum n) = n.
Proof.
  induction n as [|n IH]; [done|]. change (fin_enum (S n)) with (0%fin :: (FS <$> fin_enum n)).
  cbn [length]. by rewrite length_fmap, IH.
Qed.

Section pool_ok.
Context `{Wincode} {R W : Type} {n : nat} `{Source R} `{Socket W}.
Context (order : Subscribers -> list (N * Sender)) (iter : gset bytes -> list bytes).
Context (order_perm : forall subs, order subs ≡ₚ map_to_list subs).
Context (iter_perm : forall s, iter s ≡ₚ elements s).

(** Clients connect: an id, what they send, and the socket's other end. *)
Context (clients : vec (N * R * W) n) (clk : Clock) (m0 : CacheMap) (p0 : Persister).
Context (reads fuel turns wturns snaps sweepings : nat).

Definition sessions : vec (Session R W) n := vmap (fun x => Session_new x.1.1 x.1.2 x.2) clients.
Definition id_of (i : fin n) : N := (clients !!! i).1.1.
Definition sock_of (i : fin n) : W := (clients !!! i).2.
Definition start : Site R W Exec n := crowd_start sessions (mkExecutor (cache_new clk m0) p0).
Definition pool : list (prog (Site R W Exec n) ChannelsError (result SessionError unit)) :=
  crowd_pool exec_clockL order iter reads fuel turns wturns [snapshots snaps; sweeps sweepings].

Context (ids_inj : Inj eq eq id_of).

Definition queue_of (i : fin n) : N := rh_sender (sl_rh (st_slots start !!! i)).
Definition coming_of (i : fin n) : bytes := remaining (clients !!! i).1.2.
Definition base_of (i : fin n) : bytes := received (sock_of i).
Abbreviation inv := (crowd_inv (R := R) (readings clk) m0 id_of queue_of coming_of base_of).
Abbreviation ok := (told_ok inv may_wait).

Definition ghosts (k : nat) : Ghost W :=
  if decide (k < n) then at_turn ∅
  else match vec_to_list clients !! (k - n) with
       | Some x => GWriter [] (mkBufWriter x.2 [])
       | None => GFlag
       end.

Lemma ghosts_rd (i : fin n) : ghosts (rd i) = at_turn ∅.
Proof. unfold ghosts, rd. rewrite decide_True; [done|apply fin_to_nat_lt]. Qed.
Lemma ghosts_wr (i : fin n) : ghosts (wr i) = GWriter [] (mkBufWriter (sock_of i) []).
Proof.
  unfold ghosts, wr, sock_of. rewrite decide_False by lia.
  replace (n + fin_to_nat i - n) with (fin_to_nat i) by lia.
  by rewrite (proj1 (vlookup_lookup clients i (clients !!! i)) eq_refl).
Qed.

Lemma ghosts_other k : n + n <= k -> ghosts k = GFlag.
Proof.
  intros Hk. unfold ghosts. rewrite decide_False by lia. rewrite lookup_ge_None_2; [done|].
  rewrite length_vec_to_list. lia.
Qed.

Lemma start_ok : inv [] ghosts start /\ Inj eq eq queue_of.
Proof.
  unfold queue_of, start, crowd_start. pose proof (split_all_spec sessions ∅) as Hsp.
  destruct (split_all sessions ∅) as [sls qs]. destruct Hsp as (Hs & Hinj & _). cbn [st_slots].
  split; [|exact Hinj]. exists sls, qs, ∅, (exec_at clk false m0 p0), false. split; [done|].
  split; [|exists clk, false, m0, p0; split_and!; [done..|apply run_none]]. split.
  - split; [|by intros ch id Hm%elem_of_empty]. intros ch id tx.
    unfold subscribed. rewrite lookup_empty. cbn. split; [done|]. by intros [Hm%elem_of_empty _].
  - intros evs1 evs2 id ch msg k He. by destruct evs1.
  - intros i. destruct (Hs i) as (_ & Hq & Hrh & Hwh).
    assert (Hi : sessions !!! i = Session_new (id_of i) (clients !!! i).1.2 (sock_of i)).
    { unfold sessions. by rewrite vlookup_map. }
    rewrite Hi in Hrh, Hwh. exists None, ∅, ∅, [], Steady, [], (mkBufWriter (sock_of i) []).
    rewrite ghosts_rd, ghosts_wr, Hrh, Hwh. cbn [rh_id rh_sender rh_subscriptions wh_receiver wh_writer].
    do 7 (split; [reflexivity|]). split_and!.
    + exists []. split; [done|]. rewrite decide_False by apply not_elem_of_empty. exact Hq.
    + intros ch. split; [by intros Hm%elem_of_empty|by intros Hm%elem_of_empty].
    + exists [], []. split_and!; [done|apply chatter_none|apply begun_none|apply reader_heard_new].
    + intros _. exists 0. split; [cbn; lia|]. cbn. by rewrite app_nil_r.
Qed.

Lemma pool_rd (i : fin n) :
  pool !! rd i = Some (zoom (connL i) (repl_main exec_clockL order iter reads fuel turns)).
Proof.
  unfold pool, crowd_pool. rewrite lookup_app_l.
  - by rewrite list_lookup_fmap, fin_enum_lookup.
  - rewrite length_fmap, length_fin_enum. apply fin_to_nat_lt.
Qed.

(** Every thread of the pool keeps the invariant. *)
Lemma pool_ok k p :
  pool !! k = Some p -> ok k (fun _ gi => k < n -> gone gi) p (ghosts k).
Proof.
  destruct start_ok as [_ Hinj]. intros Hk. unfold pool, crowd_pool in Hk.
  apply lookup_app_Some in Hk as [Hk|[Hle Hk]]; [|apply lookup_app_Some in Hk as [Hk|[Hle' Hk]]];
    rewrite ?length_fmap, ?length_fin_enum in *.
  - rewrite list_lookup_fmap in Hk. destruct (fin_enum n !! k) as [i|] eqn:Hi; [|done].
    assert (k = rd i) as ->.
    { eapply NoDup_lookup; [apply (NoDup_enum (fin n))|exact Hi|apply fin_enum_lookup]. }
    injection Hk as <-. rewrite ghosts_rd. apply zoom_ok_zoom.
    eapply thread_ok_mono; [|by apply (ok_main _ _ order iter)]. by intros.
  - rewrite list_lookup_fmap in Hk. destruct (fin_enum n !! (k - n)) as [i|] eqn:Hi; [|done].
    assert (k = wr i) as ->.
    { unfold wr. assert (k - n = fin_to_nat i); [|lia].
      eapply NoDup_lookup; [apply (NoDup_enum (fin n))|exact Hi|apply fin_enum_lookup]. }
    injection Hk as <-. rewrite ghosts_wr. apply zoom_ok_zoom.
    eapply thread_ok_mono; [|apply ok_writer; try done].
    + intros _ gi _ Hlt. unfold wr in Hlt. lia.
    + intros _. split; [done|]. cbn. by rewrite app_nil_r.
  - assert (Hrd : forall i : fin n, k <> rd i).
    { intros i ->. pose proof (fin_to_nat_lt i). unfold rd in *. lia. }
    assert (Hwr : forall i : fin n, k <> wr i).
    { intros i ->. pose proof (fin_to_nat_lt i). unfold wr in *. lia. }
    rewrite (ghosts_other k) by lia. eapply (thread_ok_mono _ _ _ _ (fun _ _ => True)); [intros; lia|].
    destruct (k - n - n) as [|[|[|?]]]; cbn in Hk; [injection Hk as <-..|done].
    + by apply ok_raise_flag.
    + by apply ok_snapshots.
    + by apply ok_sweeps.
Qed.

(** *** What an account of a run says *)

(** Session [i], with what has happened. *)
Record told (i : fin n) (ended : Prop) (s : Site R W Exec n) (evs : list Event) : Prop := mkTold {
  (** Its doings are a turn for each item its reader has made of what the client sent,
      and the beginning of one more; the items are the client's frames, if it sends
      nothing else. *)
  told_turns :
    exists items cur past subs doing, own (id_of i) evs = past ++ doing /\
      chatter (readings clk) (id_of i) items past subs /\
      begun (readings clk) (id_of i) subs cur doing /\
      reader_heard (coming_of i) (items ++ option_list cur) (rh_reader (sl_rh (st_slots s !!! i))) /\
      forall fs, Forall Frame_wf fs -> coming_of i = concat (encode <$> fs) ->
        exists unread, fmap Ok fs = items ++ option_list cur ++ unread;
  (** Its receiver is gone once the events say so, and not before. *)
  told_closed :
    id_of i ∈ closed (crowd evs) <->
    is_open (cn_queues (st_channels s)) (wh_receiver (sl_wh (st_slots s !!! i))) = false;
  (** Of what it was sent, its writer has taken the first messages and its queue has
      the others, while there is a receiver; the client has all of the messages taken,
      but for the last that may be on its way, unless a write to it has failed. *)
  told_inbox :
    exists taken waiting, inbox (crowd evs) (id_of i) = taken ++ waiting /\
      (id_of i ∉ closed (crowd evs) ->
         cn_queues (st_channels s) !! wh_receiver (sl_wh (st_slots s !!! i)) =
           Some (mkQueue waiting true)) /\
      let client := bw_inner (wh_writer (sl_wh (st_slots s !!! i))) in
      (broken client = false ->
         exists k, length taken <= Datatypes.S k /\
           received client = received (sock_of i) ++ concat (take k taken));
  (** Once it has ended it is in no channel. *)
  told_ended : ended -> forall ch, id_of i ∉ members (crowd evs) ch
}.

Record accounts (cfg : list (prog (Site R W Exec n) ChannelsError (result SessionError unit)) *
    Site R W Exec n) (evs : list Event) : Prop := mkAccounts {
  (** Every publication counted those it reached. *)
  acc_counted : counted evs;
  (** The map is what the effects have made of it. *)
  acc_stored : store_run (readings clk) m0 (effects evs) (guarded (cs_inner (ex_cache (st_exec cfg.2))));
  (** The registry has who is in a channel. *)
  acc_members : forall ch id,
    is_Some (subscribed (guarded (cn_channels (st_channels cfg.2))) ch id) <-> id ∈ members (crowd evs) ch;
  acc_sessions : forall i, told i (exists r, cfg.1 !! rd i = Some (Done r)) cfg.2 evs
}.

Lemma inv_accounts evs g ps s :
  inv evs g s -> (forall (i : fin n) r, ps !! rd i = Some (Done r) -> gone (g (rd i))) ->
  accounts (ps, s) evs.
Proof.
  intros (slots & qs & reg & exec & b & -> & [[Hreg Hk] Hcnt Hsl] & Hst0) Hgone. split; cbn [fst snd].
  - exact Hcnt.
  - by destruct Hst0 as (c & h & m & p & -> & _ & Hm).
  - intros ch id. cbn [st_channels channels_at cn_channels guarded mutex_new]. split.
    + intros [tx Htx]. by apply Hreg in Htx as [Hm _].
    + intros Hm. destruct (Hk _ _ Hm) as [i Hi]. exists (queue_of i). apply Hreg. eauto.
  - intros i. specialize (Hgone i).
    specialize (Hsl i) as (cur & st & subs & doing & stg & popped & bw & Hgr & Hgw & H1' & H2' &
      H3' & Hrc & Hbw & Hq & Hst & Ho & Hk1).
    split; cbn [st_slots st_channels].
    + destruct Ho as (items' & past & Ho & Hc & Hd & Hr). exists items', cur, past, st, doing.
      split_and!; [done..|]. intros fs Hwf He. rewrite He in Hr.
      destruct (reader_heard_frames fs _ _ Hwf Hr) as [unread Hu]. exists unread. by rewrite app_assoc.
    + rewrite Hrc. cbn [channels_at cn_queues]. rewrite (queue_open _ _ _ _ _ _ Hq).
      destruct (decide (id_of i ∈ closed (crowd evs))).
      * by rewrite bool_decide_eq_false_2 by tauto.
      * by rewrite bool_decide_eq_true_2.
    + destruct Hq as (items & Hin & Hq). exists popped, items. split; [exact Hin|]. split.
      * intros Hcl. rewrite Hrc. cbn. rewrite Hq. by rewrite decide_False.
      * rewrite Hbw. exact Hk1.
    + intros [r Hr] ch Hm. destruct (Hgone r Hr) as (? & ? & ? & ? & He). rewrite Hgr in He.
      injection He as _ _ _ _ ->. by apply Hst, not_elem_of_nil in Hm.
Qed.

(** A schedule's steps and their news. *)
Lemma pool_accounts sch :
  exists news : list (list Event), length news = length sch /\
    forall k cfg, k <= length sch -> sched (take k sch) (pool, start) = Some cfg ->
    accounts cfg (concat (take k news)).
Proof.
  destruct start_ok as [Hi _].
  destruct (sched_history inv may_wait (fun k _ gi => k < n -> gone gi) sch pool start ghosts [] Hi pool_ok)
    as (news & Hlen & Hnews).
  exists news. split; [exact Hlen|]. intros k [ps s] Hk Hs.
  destruct (Hnews k ps s Hk Hs) as (g & Hg & Hok). eapply inv_accounts; [exact Hg|].
  intros i r Hr. apply (Hok _ _ Hr). apply fin_to_nat_lt.
Qed.
End pool_ok.

(** ** The theorem *)


(** ** A run: one client subscribes, another publishes and sets a key *)

#[local] Existing Instance frames_wincode.

Definition sample_frames : list Frame :=
  [Array [BulkString (bstr "PUBLISH"); BulkString (bstr "foo"); BulkString (bstr "hi")];
   Array [BulkString (bstr "SET"); BulkString (bstr "k"); BulkString (bstr "v")]].
Definition sample_clients : vec (N * Script * SharedWriter) 2 :=
  [# (1%N, [Ok (encode (Array [BulkString (bstr "SUBSCRIBE"); BulkString (bstr "foo")]))], mkSharedWriter []);
     (2%N, Ok <$> (encode <$> sample_frames), mkSharedWriter []) ].
Definition sample_order : list nat :=
  replicate 10 0 ++ replicate 18 1 ++ replicate 2 6 ++ replicate 5 5 ++ replicate 12 2.
Abbreviation sample_crowd :=
  (sched sample_order
     (pool map_to_list elements 9 9 9 9 1 1, start sample_clients (clock_at 5) ∅ empty_persister)).
Definition sample_socket : bytes :=
  to_bytes (RArray [RBulkString (bstr "subscribe"); RBulkString (bstr "foo"); RInteger 1]) ++
  push_message (bstr "foo") (bstr "hi").

Lemma sample_crowd_runs :
  match sample_crowd with
  | Some (_, s) =>
      bool_decide (written (bw_inner (wh_writer (sl_wh (st_slots s !!! (0%fin : fin 2))))) = sample_socket) &&
      bool_decide (subscribed (guarded (cn_channels (st_channels s))) (bstr "foo") 1%N = Some 0%N) &&
      bool_decide (guarded (cs_inner (ex_cache (st_exec s))) = {[ bstr "k" := mkEntry (bstr "v") None ]})
  | None => false
  end = true.
Proof. vm_compute. reflexivity. Qed.

Lemma sample_ids : Inj eq eq (id_of sample_clients).
Proof. intros i j. by inv_fin i; [|intros i; inv_fin i; [|intros i; inv_fin i]]; inv_fin j;
  [|intros j; inv_fin j; [|intros j; inv_fin j]| |intros j; inv_fin j; [|intros j; inv_fin j]]. Qed.

Lemma sample_frames_wf : Forall Frame_wf sample_frames.
Proof. repeat constructor; vm_compute; congruence. Qed.

Lemma sample_coming : coming_of sample_clients 1%fin = concat (encode <$> sample_frames).
Proof. vm_compute. reflexivity. Qed.

