(* ===== verification/EndToEnd.v ===== *)
(** * EndToEnd: a client's bytes in, the replies' bytes out

    The reference definition of a session: [answer_all], which takes the frames a
    client sends one after the other through the parser of commands, the executor
    and the reply conversion.  The session's two threads implement it: however the
    bytes are cut into reads and however the threads interleave, what the client
    gets is the encoding of those answers. *)

From S2P Require Import Prelude Effects Threads RustStd Time Command Frame CommandFrame.
From S2P Require Import Cache Mpsc Channels Ports Executor Reply Inbound Session SessionSpec.
From S2P Require Import WriteHalf ReplSpec.

(** ** The reference *)

Section answers.
Context {S : Type} `{Execute S} (clk : Lens S Clock).

(** The answer to one frame; [None] for a channel command, whose answer is not the
    executor's alone, and for a command that fails and ends the session. *)
Definition answer (f : Frame) (s : S) : option (bytes * S) :=
  let '(lifted, c) := try_from f (view clk s) in
  let s := put clk c s in
  match lifted with
  | Ok (Command.Cache cc) =>
      match run (execute_logged cc) s with
      | Some (Ok out, s') => Some (to_bytes (Reply_from_CommandOutcome out), s')
      | _ => None
      end
  | Ok (Ping message) => Some (to_bytes (Reply_from_CommandOutcome (CoPong message)), s)
  | Ok (Channel _) => None
  | Err e => Some (err_reply (display_CommandFromFrameError e), s)
  end.

Fixpoint answer_all (fs : list Frame) (s : S) : option (list bytes * S) :=
  match fs with
  | [] => Some ([], s)
  | f :: fs' =>
      '(b, s1) ← answer f s;
      '(bs, s2) ← answer_all fs' s1;
      Some (b :: bs, s2)
  end.
End answers.

(** ** The reader half implements it *)

Definition extend_queue (rs : list bytes) (q : Queue) : Queue := mkQueue (q_items q ++ rs) (q_open q).

Lemma alter_extend_nil (qs : Queues) tx : alter (extend_queue []) tx qs = qs.
Proof.
  apply alter_id. intros [items o] _. unfold extend_queue. cbn. by rewrite app_nil_r.
Qed.

Lemma alter_extend_push (qs : Queues) tx b rs :
  alter (extend_queue rs) tx (alter (push b) tx qs) = alter (extend_queue (b :: rs)) tx qs.
Proof.
  rewrite alter_alter_eq. apply alter_ext. intros [items o] _. unfold extend_queue, push. cbn.
  by rewrite <- app_assoc.
Qed.

Section reader.
Context {S : Type} `{Execute S} (clk : Lens S Clock).
Context (order : Subscribers -> list (N * Sender)) (iter : gset bytes -> list bytes).
(** What stays as it is while only cache commands come. *)
Context (id : N) (tx : Sender) (subs : gset bytes) (ch : ChannelsState).

Definition at_reader (r : SessionReader Script) (qs : Queues) (s : S) : World Script S :=
  mkWorld (mkReadHalf id r tx subs) (put queuesL qs ch) s false.

(** A turn with [fuel1] frames to read at most, and then the loop. *)
Definition turn_then_loop (reads fuel1 fuel turns : nat) :=
  turn ← repl_turn (E := ChannelsError) clk order iter reads fuel1;
  match turn with
  | Continue => reader_loop clk order iter reads fuel turns
  | Break r => mret r
  end.

Lemma reader_loop_S reads fuel turns :
  reader_loop clk order iter reads fuel (Datatypes.S turns) = turn_then_loop reads fuel fuel turns.
Proof. done. Qed.

Lemma run_turn_then_loop reads fuel1 fuel turns w :
  run (turn_then_loop reads fuel1 fuel turns) w =
  match run (repl_turn (E := ChannelsError) clk order iter reads fuel1) w with
  | Some (Ok Continue, w') => run (reader_loop clk order iter reads fuel turns) w'
  | Some (Ok (Break r), w') => Some (Ok r, w')
  | Some (Err e, w') => Some (Err e, w')
  | None => None
  end.
Proof.
  unfold turn_then_loop. rewrite run_bind.
  by destruct (run (repl_turn clk order iter reads fuel1) w) as [[[[|r]|e] w']|].
Qed.

Lemma run_repl_turn_eq w w' reads n n' :
  w_shutdown w = false -> w_shutdown w' = false ->
  run (read_command clk reads n) w = run (read_command clk reads n') w' ->
  run (repl_turn (E := ChannelsError) clk order iter reads n) w =
  run (repl_turn (E := ChannelsError) clk order iter reads n') w'.
Proof.
  intros Hs Hs' Hr. unfold repl_turn, catch. rewrite !run_bind, !run_atomic, Hs, Hs'.
  by rewrite !run_bind, !run_then, Hr.
Qed.

(** What is left after one answered frame. *)
Lemma answer_all_cons f fs s rs s' :
  answer_all clk (f :: fs) s = Some (rs, s') ->
  exists b s1 bs, answer clk f s = Some (b, s1) /\ answer_all clk fs s1 = Some (bs, s') /\ rs = b :: bs.
Proof.
  cbn [answer_all]. destruct (answer clk f s) as [[b s1]|]; [|done]. cbn.
  destruct (answer_all clk fs s1) as [[bs s2]|] eqn:Ha; [|done]. cbn.
  intros [= <- <-]. eauto 7.
Qed.

Lemma reader_serves fs torn reads fuel :
  Forall Frame_wf fs -> parse_one torn = Err Incomplete -> length fs < fuel ->
  forall r buf unread qs s rs s' fuel1 turns,
  stream r buf unread -> buf ++ unread = concat (map encode fs) ++ torn ->
  length unread < reads -> length fs < fuel1 -> length fs <= turns ->
  is_open qs tx = true -> answer_all clk fs s = Some (rs, s') ->
  exists r', run (turn_then_loop reads fuel1 fuel turns) (at_reader r qs s) =
    Some (Ok (Ok ()), at_reader r' (alter (extend_queue rs) tx qs) s').
Proof.
  intros Hwf Htorn. induction Hwf as [|f fs Hf Hwf IH];
    intros Hfuel r buf unread qs s rs s' fuel1 turns Hst Hbytes Hreads Hfuel1 Hturns Hopen Hans;
    (destruct fuel1 as [|fuel1]; [cbn in Hfuel1; lia|]);
    pose proof (run_read_frame_stream reads (at_reader r qs s) buf unread Hst Hreads) as Hread;
    rewrite Hbytes in Hread; rewrite run_turn_then_loop.
  - cbn [map concat app] in Hread. rewrite Htorn in Hread. destruct Hread as (r' & Hread & _).
    injection Hans as <- <-. exists r'.
    rewrite (run_repl_turn clk order iter _ reads (Datatypes.S fuel1) (Ok None) (with_reader r' (at_reader r qs s)));
      [by rewrite alter_extend_nil|done|].
    cbn [read_command]. by rewrite run_bind, Hread.
  - cbn [map concat] in Hread. rewrite <- app_assoc, parse_one_encode in Hread by done.
    destruct Hread as (r1 & buf1 & unread1 & Hread & Hst1 & Hbytes1 & Hlen1).
    apply answer_all_cons in Hans as (b & s1 & bs & Hone & Hans & ->).
    cbn [length] in Hfuel, Hfuel1, Hturns. rewrite <- alter_extend_push.
    assert (Hopen' : is_open (alter (push b) tx qs) tx = true) by by rewrite is_open_alter_push.
    unfold answer in Hone. destruct (try_from f (view clk s)) as [[cmd|e] c] eqn:Hlift.
    2:{ simplify_eq.
        rewrite (run_repl_turn_eq _ (at_reader r1 (alter (push (err_reply (display_CommandFromFrameError e))) tx qs)
                   (put clk c s)) _ _ fuel1) by
          (try done; rewrite (run_read_command_refused _ _ _ _ _ _ _ _ Hread Hlift);
           change (is_open _ _) with (is_open qs tx); by rewrite Hopen).
        rewrite <- run_turn_then_loop. eapply IH; try done; lia. }
    pose proof (run_repl_turn (E := ChannelsError) clk order iter (at_reader r qs s) reads
      (Datatypes.S fuel1) _ _ eq_refl (run_read_command_lifted _ _ fuel1 _ _ _ _ _ Hread Hlift)) as Hturn.
    cbv zeta in Hturn.
    assert (Hrun : run (repl_turn (E := ChannelsError) clk order iter reads (Datatypes.S fuel1))
      (at_reader r qs s) = Some (Ok Continue, at_reader r1 (alter (push b) tx qs) s1)).
    { destruct cmd as [cc|?|message]; [|done|].
      - destruct (run (execute_logged cc) (put clk c s)) as [[[out|e] s2]|] eqn:He; simplify_eq.
        by rewrite (Hturn (Ok out) s1 He Hopen).
      - simplify_eq. by rewrite Hturn. }
    rewrite Hrun. destruct turns as [|turns]; [lia|]. rewrite reader_loop_S.
    eapply IH; try done; lia.
Qed.
End reader.

(** ** The session implements it *)

Section session.
Context {W S : Type} `{Socket W} `{Execute S} (clk : Lens S Clock).
Context (order : Subscribers -> list (N * Sender)) (iter : gset bytes -> list bytes).
Context (order_perm : forall subs, order subs ≡ₚ map_to_list subs).
Context (iter_perm : forall s, iter s ≡ₚ elements s).

(** The whole reader half: the loop, and no channel to leave. *)
Lemma repl_reader_serves id (chunks : list bytes) (sock : W) qs reg (exec exec' : S) fs torn rs
    reads fuel turns :
  Forall Frame_wf fs -> parse_one torn = Err Incomplete ->
  Forall (fun c => c <> []) chunks -> concat chunks = concat (map encode fs) ++ torn ->
  answer_all clk fs exec = Some (rs, exec') ->
  length (concat chunks) < reads -> length fs < fuel -> length fs < turns ->
  let c0 := repl_start (Session_new id (map Ok chunks) sock) (channels_at qs reg) exec false in
  exists wf, run (repl_reader clk order iter reads fuel turns) (co_world c0) = Some (Ok (Ok ()), wf) /\
    cn_queues (w_channels wf) !! wh_receiver (co_wh c0) = Some (mkQueue rs true) /\
    w_exec wf = exec'.
Proof.
  intros Hwf Htorn Hne Hbytes Hans Hreads Hfuel Hturns c0.
  set (q := wh_receiver (co_wh c0)). set (qs' := (channel qs).2).
  change (co_world c0) with
    (at_reader id q ∅ (channels_at qs reg) (SessionReader_new (map Ok chunks)) qs' exec).
  destruct turns as [|turns]; [lia|].
  destruct (reader_serves clk order iter id q ∅ (channels_at qs reg) fs torn reads fuel Hwf Htorn Hfuel
    (SessionReader_new (map Ok chunks)) [] (concat chunks) qs' exec rs exec' fuel turns)
    as (r' & Hrun); try done; [by split; [|exists chunks]|lia|apply channel_open|].
  eexists. split.
  - unfold repl_reader. rewrite run_bind, reader_loop_S, Hrun. rewrite run_bind.
    unfold unsubscribe_from_all. rewrite run_bind. unfold self. rewrite run_atomic.
    cbn [at_reader w_rh rh_subscriptions rh_id].
    replace (iter ∅) with (@nil bytes); [done|].
    symmetry. apply Permutation_nil_r. rewrite iter_perm. by rewrite elements_empty.
  - split; [|done]. cbn. unfold qs', channel. cbn. rewrite lookup_alter_eq, lookup_insert_eq. done.
Qed.

(** C4: a session is what its reference says, from the client's bytes to the
    client's bytes.  A client sends the frames [fs], and perhaps the start of another,
    in reads of any size, and hangs up; no frame is a channel command and none fails
    in the executor ([answer_all] has an answer to each); no other session runs, and
    the shutdown flag is down and stays down.  Under every schedule of the session's
    two threads, as long as no write to the client has failed, the client has, in order
    and whole, a beginning of the answers the reference gives.  No schedule is longer
    than a bound; once both threads have ended, [repl] has answered [Ok], and unless a
    write has failed the client has all of the answers; and if the client takes what it
    is sent, failing writes or not, no schedule is stuck before that. *)
Theorem session_serves (id : N) (chunks : list bytes) (sock : W) (qs : Queues) (reg : Registry)
    (exec exec' : S) (fs : list Frame) (torn : bytes) (rs : list bytes)
    (reads fuel turns wturns : nat) :
  senders_known qs reg -> Forall Frame_wf fs -> parse_one torn = Err Incomplete ->
  Forall (fun c => c <> []) chunks -> concat chunks = concat (map encode fs) ++ torn ->
  answer_all clk fs exec = Some (rs, exec') ->
  length (concat chunks) < reads -> length fs < fuel -> length fs < turns -> length rs < wturns ->
  let c0 := repl_start (Session_new id (map Ok chunks) sock) (channels_at qs reg) exec false in
  exists bound, forall sch ps c,
    sched sch (repl clk order iter reads fuel turns wturns, c0) = Some (ps, c) ->
    let client := bw_inner (wh_writer (co_wh c)) in
    let ended := Forall (fun p => exists x, p = Done x) ps in
    (broken client = false -> exists k, received client = received sock ++ concat (take k rs)) /\
    length sch <= bound /\
    (ended -> ps = [Done (Ok (Ok ())); Done (Ok (Ok ()))] /\
       (broken client = false -> received client = received sock ++ concat rs)) /\
    (peer_reads W -> ended \/ exists i cfg', step_thread i (ps, c) = Some cfg').
Proof.
  intros Hk Hwf Htorn Hne Hbytes Hans Hreads Hfuel Hturns Hwt c0.
  destruct (repl_reader_serves id chunks sock qs reg exec exec' fs torn rs reads fuel turns
    Hwf Htorn Hne Hbytes Hans Hreads Hfuel Hturns) as (wf & Hrun & Hmsgs & _).
  destruct (repl_start_pool clk order iter order_perm iter_perm _ _ _ _ _ _ _ _ _ _ _ _ _ _
    Hk Hrun Hmsgs Hwt) as (Hmsgs' & Hun & n & Hp).
  exists n. intros sch ps c Hs client ended.
  destruct (pool_sched _ _ _ _ _ _ Hmsgs' Hun Hwt _ _ _ _ Hp Hs) as (n' & Hle & Hp').
  split; [intros Hb; by eapply pool_received in Hp'|]. split; [lia|]. split.
  - intros He. eapply pool_ended in Hp' as (Hps & _ & Hh); [|exact He]. split; [exact Hps|].
    intros Hb. by apply Hh.
  - intros Hr. by eapply pool_progress in Hp'.
Qed.
End session.

(** A client that sends [SET], something that is no command, [GET] and [PING] in two
    reads, and the start of a fifth frame. *)
Definition served_frames : list Frame :=
  [Array [BulkString (bstr "SET"); BulkString (bstr "k"); BulkString (bstr "v")];
   Array [BulkString (bstr "NONSENSE")];
   Array [BulkString (bstr "get"); BulkString (bstr "k")];
   Array [BulkString (bstr "PING")]].
Definition served_torn : bytes := bstr "*2".
Definition served_bytes : bytes := concat (map encode served_frames) ++ served_torn.
Definition served_chunks : list bytes := [take 20 served_bytes; drop 20 served_bytes].
Definition served_replies : list bytes :=
  [bstr "+OK" ++ crlf; bstr "-ERR unrecognized command" ++ crlf;
   bstr "$1" ++ crlf ++ bstr "v" ++ crlf; bstr "+PONG" ++ crlf].

Lemma session_serves_witness :
  exists bound, forall sch ps c,
    sched sch (repl sample_clk map_to_list elements 200 5 5 5,
      repl_start (Session_new 1%N (map Ok served_chunks) (mkSharedWriter [])) (channels_at ∅ ∅)
        sample_exec false) = Some (ps, c) ->
    let client := bw_inner (wh_writer (co_wh c)) in
    (exists k, written client = concat (take k served_replies)) /\ length sch <= bound /\
    (Forall (fun p => exists x, p = Done x) ps -> written client = concat served_replies) /\
    (Forall (fun p => exists x, p = Done x) ps \/ exists i cfg', step_thread i (ps, c) = Some cfg').
Proof.
  destruct (answer_all sample_clk served_frames sample_exec) as [[rs exec']|] eqn:Ha.
  2:{ exfalso. assert (Hx := f_equal (fun o => match o with Some _ => true | None => false end) Ha).
      vm_compute in Hx. discriminate Hx. }
  assert (rs = served_replies) as ->.
  { assert (Hx := f_equal (fun o => match o with Some (rs, _) => rs | None => [] end) Ha).
    vm_compute in Hx. symmetry. exact Hx. }
  destruct (session_serves sample_clk map_to_list elements (fun _ => reflexivity _)
    (fun _ => reflexivity _) 1%N served_chunks (mkSharedWriter []) ∅ ∅ sample_exec exec'
    served_frames served_torn served_replies 200 5 5 5) as [bound Hbound].
  - exact senders_known_empty.
  - repeat constructor; vm_compute; congruence.
  - vm_compute. reflexivity.
  - repeat constructor; vm_compute; congruence.
  - vm_compute. reflexivity.
  - exact Ha.
  - vm_compute. lia.
  - vm_compute. lia.
  - vm_compute. lia.
  - vm_compute. lia.
  - exists bound. intros sch ps c Hs client. destruct (Hbound sch ps c Hs) as (H1 & H2 & H3 & H4).
    split; [exact (H1 eq_refl)|]. split; [exact H2|]. split; [|exact (H4 SharedWriter_reads)].
    intros He. destruct (H3 He) as [_ Hr]. exact (Hr eq_refl).
Defined.
