(* ===== verification/Server.v ===== *)
(** * Server: the accept loop, the threads it owns, and shutdown

    [Server::run] from the listener on: the main thread, the signal, stdin,
    persistence and sweeper threads, and one thread per session.  A thread is where
    it stands in its code; [step] makes one move of one thread, with what the
    operating system answers the call the thread is at.  What a snapshot, a sweep or
    a session's turn does to the data is in Persister.v, Cache.v and Session.v; here
    each is one move.  [startup] of Recovery.v is what comes before the listener. *)

From S2P Require Import Prelude RustStd.
Local Open Scope N_scope.

(** ** The lines of the terminal: [s.trim().to_lowercase()], and "quit" or "exit" *)

(** A [String] as its chars; Rust trims the chars with Unicode's White_Space. *)
Definition is_whitespace (c : N) : bool :=
  ((9 <=? c) && (c <=? 13)) || (c =? 32) || (c =? 133) || (c =? 160) || (c =? 5760) ||
  ((8192 <=? c) && (c <=? 8202)) || (c =? 8232) || (c =? 8233) || (c =? 8239) ||
  (c =? 8287) || (c =? 12288).
Fixpoint trim_start (s : list N) : list N :=
  match s with
  | [] => []
  | c :: s' => if is_whitespace c then trim_start s' else s
  end.
Definition trim (s : list N) : list N := rev (trim_start (rev (trim_start s))).

(** Lower case on ASCII; no other char's lower case is a letter of "quit" or "exit"
    and nothing more, so the comparison below is the one of the code. *)
Definition char_to_lowercase (c : N) : N := if (65 <=? c) && (c <=? 90) then c + 32 else c.

Definition chars (s : string) : list N := Byte.to_N <$> bstr s.
Definition is_quit (s : list N) : bool :=
  let s := char_to_lowercase <$> trim s in
  bool_decide (s = chars "quit") || bool_decide (s = chars "exit").

(** ** State *)

(** Who is at the other end of a connection: a client, or [trigger_shutdown]. *)
Inductive Peer : Type := Client | Knock.

(** Where [trigger_shutdown] stands. *)
Inductive TriggerPc : Type := TsStore | TsConnect.

Inductive Job : Type := Persist | RemoveExpired.

(** Where a ticker stands: asleep for the [n]-th of its hundred naps, about to load
    the flag after it, or at its job, the last one or not. *)
Inductive TickerPc : Type := TkSleep (n : nat) | TkCheck (n : nat) | TkJob (last : bool).

(** Where a session's thread stands; [timed]: whether its reads time out; [stalled]:
    whether its writer is in a write the client does not take. *)
Inductive SessionPc : Type :=
| SsClone
| SsSetTimeout
| SsCheck (timed : bool)
| SsRead (timed : bool)
| SsExecute (timed : bool)
| SsUnsubscribe
| SsJoin (stalled : bool).

Inductive Thread : Type :=
| TSignals
| TStdin
| TTrigger (pc : TriggerPc)
| TTicker (job : Job) (pc : TickerPc)
| TSession (id : N) (pc : SessionPc)
| TFinished.

(** Where the main thread stands. *)
Inductive MainPc : Type :=
| MHead
| MPrune
| MAccept
| MAccepted (p : Peer)
| MSpawn (p : Peer)
| MClose
| MJoin (handles : list nat)
| MReturned.

(** What goes to the terminal. *)
Inductive LogLine : Type :=
| Listening
| ClientConnected (id : N)
| AcceptFailed
| WakeFailed
| CloneFailed
| SetTimeoutFailed
| JobDone (job : Job) (ok : bool)
| ReplFailed.

(** [sv_backlog]: the connections the listener has that nobody has accepted yet.
    [sv_handles]: the threads whose [JoinHandle] the main thread has, by number. *)
Record Server : Type := mkServer {
  sv_shutdown : bool;
  sv_closed : bool;
  sv_backlog : list Peer;
  sv_id : N;
  sv_handles : list nat;
  sv_threads : list Thread;
  sv_main : MainPc;
  sv_out : list LogLine
}.

Definition set_shutdown (b : bool) (s : Server) : Server :=
  mkServer b (sv_closed s) (sv_backlog s) (sv_id s) (sv_handles s) (sv_threads s) (sv_main s) (sv_out s).
Definition set_closed (b : bool) (s : Server) : Server :=
  mkServer (sv_shutdown s) b (sv_backlog s) (sv_id s) (sv_handles s) (sv_threads s) (sv_main s) (sv_out s).
Definition set_backlog (b : list Peer) (s : Server) : Server :=
  mkServer (sv_shutdown s) (sv_closed s) b (sv_id s) (sv_handles s) (sv_threads s) (sv_main s) (sv_out s).
Definition set_id (id : N) (s : Server) : Server :=
  mkServer (sv_shutdown s) (sv_closed s) (sv_backlog s) id (sv_handles s) (sv_threads s) (sv_main s) (sv_out s).
Definition set_handles (hs : list nat) (s : Server) : Server :=
  mkServer (sv_shutdown s) (sv_closed s) (sv_backlog s) (sv_id s) hs (sv_threads s) (sv_main s) (sv_out s).
Definition set_threads (ts : list Thread) (s : Server) : Server :=
  mkServer (sv_shutdown s) (sv_closed s) (sv_backlog s) (sv_id s) (sv_handles s) ts (sv_main s) (sv_out s).
Definition set_main (m : MainPc) (s : Server) : Server :=
  mkServer (sv_shutdown s) (sv_closed s) (sv_backlog s) (sv_id s) (sv_handles s) (sv_threads s) m (sv_out s).
Definition println (l : LogLine) (s : Server) : Server :=
  mkServer (sv_shutdown s) (sv_closed s) (sv_backlog s) (sv_id s) (sv_handles s) (sv_threads s) (sv_main s)
    (sv_out s ++ [l]).

(** [thread::spawn], its handle kept. *)
Definition spawn (t : Thread) (s : Server) : Server :=
  set_threads (sv_threads s ++ [t]) (set_handles (sv_handles s ++ [length (sv_threads s)]) s).

Definition is_finished (s : Server) (i : nat) : bool :=
  match sv_threads s !! i with
  | Some TFinished | None => true
  | Some _ => false
  end.

(** ** Moves *)

(** What the call a thread is at comes to: it goes through, it fails, a read of the
    socket times out, brings part of a frame, brings a frame that is malformed or no
    command and whose error reply is queued, or finds the client gone; a write finds
    the stream full, or the client takes what is in it or goes; a signal comes; the
    terminal gives a line, [[]] at its end. *)
Inductive Answer : Type :=
| Fine
| Failed
| Elapsed
| PartOfFrame
| NoCommand
| HungUp
| Stalled
| Drained
| Signalled
| Line (s : list N).

(** [trigger_shutdown]: the store, then the knock. *)
Definition trigger_shutdown (pc : TriggerPc) (a : Answer) (s : Server) : option (Thread * Server) :=
  match pc, a with
  | TsStore, Fine => Some (TTrigger TsConnect, set_shutdown true s)
  | TsConnect, Fine => Some (TFinished, set_backlog (sv_backlog s ++ [Knock]) s)
  | TsConnect, Failed => Some (TFinished, println WakeFailed s)
  | _, _ => None
  end.

(** [signals.forever().next()]: a signal, or the end once the handle is closed. *)
Definition signal_thread (a : Answer) (s : Server) : option (Thread * Server) :=
  match a with
  | Signalled => Some (TTrigger TsStore, s)
  | Fine => if sv_closed s then Some (TFinished, s) else None
  | _ => None
  end.

(** [stdin().read_line(&mut s)] and the match on it. *)
Definition stdin_thread (a : Answer) (s : Server) : option (Thread * Server) :=
  match a with
  | Line [] => Some (TTrigger TsStore, s)
  | Line l => if is_quit l then Some (TTrigger TsStore, s) else Some (TStdin, s)
  | Failed => Some (TStdin, s)
  | _ => None
  end.

(** The persistence and the sweeper thread: a hundred naps, each followed by a look
    at the flag, then the job. *)
Definition naps : nat := 100.
Definition ticker_thread (job : Job) (pc : TickerPc) (a : Answer) (s : Server)
  : option (Thread * Server) :=
  match pc, a with
  | TkSleep n, Fine => Some (TTicker job (TkCheck n), s)
  | TkCheck n, Fine =>
      Some (TTicker job (if sv_shutdown s then TkJob true
                         else if decide (S n < naps)%nat then TkSleep (S n) else TkJob false), s)
  | TkJob last, (Fine | Failed) =>
      Some (if last then TFinished else TTicker job (TkSleep 0),
            println (JobDone job (match a with Fine => true | _ => false end)) s)
  | _, _ => None
  end.

(** A session's thread.  Its loop looks at the flag, reads the socket until it has
    a command, and executes it.  [read_command] itself answers what is no frame or no
    command and reads on, without a look at the flag.  A read that times out takes the
    thread back to the flag; the end of the input, or a failure, of a reply to what was
    no command too, takes it out of the loop.  [repl] then joins the session's
    writer, which may be in a write: the stream has no write timeout. *)
Definition session_thread (id : N) (pc : SessionPc) (a : Answer) (s : Server)
  : option (Thread * Server) :=
  match pc, a with
  | SsClone, Fine => Some (TSession id SsSetTimeout, s)
  | SsClone, Failed => Some (TFinished, println CloneFailed s)
  | SsSetTimeout, Fine => Some (TSession id (SsCheck true), s)
  | SsSetTimeout, Failed => Some (TSession id (SsCheck false), println SetTimeoutFailed s)
  | SsCheck timed, Fine =>
      Some (TSession id (if sv_shutdown s then SsUnsubscribe else SsRead timed), s)
  | SsRead timed, Fine => Some (TSession id (SsExecute timed), s)
  | SsRead timed, (PartOfFrame | NoCommand) => Some (TSession id (SsRead timed), s)
  | SsRead true, Elapsed => Some (TSession id (SsCheck true), s)
  | SsRead _, HungUp => Some (TSession id SsUnsubscribe, s)
  | SsRead _, Failed => Some (TSession id SsUnsubscribe, println ReplFailed s)
  | SsExecute timed, Fine => Some (TSession id (SsCheck timed), s)
  | SsExecute _, Failed => Some (TSession id SsUnsubscribe, println ReplFailed s)
  | SsUnsubscribe, Fine => Some (TSession id (SsJoin false), s)
  | SsUnsubscribe, Stalled => Some (TSession id (SsJoin true), s)
  | SsJoin false, Fine => Some (TFinished, s)
  | SsJoin true, Drained => Some (TFinished, s)
  | _, _ => None
  end.

Definition thread_step (t : Thread) (a : Answer) (s : Server) : option (Thread * Server) :=
  match t with
  | TSignals => signal_thread a s
  | TStdin => stdin_thread a s
  | TTrigger pc => trigger_shutdown pc a s
  | TTicker job pc => ticker_thread job pc a s
  | TSession id pc => session_thread id pc a s
  | TFinished => None
  end.

(** The main thread: the accept loop, then the joins. *)
Definition main_step (a : Answer) (s : Server) : option Server :=
  match sv_main s with
  | MHead => Some (set_main (if sv_shutdown s then MClose else MPrune) s)
  | MPrune =>
      Some (set_main MAccept (set_handles (base.filter (fun i => is_finished s i = false) (sv_handles s)) s))
  | MAccept =>
      match a, sv_backlog s with
      | Fine, p :: rest => Some (set_main (MAccepted p) (set_backlog rest s))
      | Failed, _ => Some (set_main MHead (println AcceptFailed s))
      | _, _ => None
      end
  | MAccepted p => Some (set_main (if sv_shutdown s then MClose else MSpawn p) s)
  | MSpawn p =>
      let id := u32_wrapping_add (sv_id s) 1 in
      Some (set_main MHead (spawn (TSession id SsClone) (println (ClientConnected id) (set_id id s))))
  | MClose => Some (set_main (MJoin (sv_handles s)) (set_closed true s))
  | MJoin [] => Some (set_main MReturned s)
  | MJoin (h :: hs) => if is_finished s h then Some (set_main (MJoin hs) s) else None
  | MReturned => None
  end.

(** A move: a client connects, the main thread, or one of its threads. *)
Inductive Event : Type :=
| EvConnect
| EvMain (a : Answer)
| EvThread (i : nat) (a : Answer).

Definition step (ev : Event) (s : Server) : option Server :=
  match ev with
  | EvConnect => Some (set_backlog (sv_backlog s ++ [Client]) s)
  | EvMain a => main_step a s
  | EvThread i a =>
      t ← sv_threads s !! i;
      '(t', s') ← thread_step t a s;
      Some (set_threads (<[i := t']> (sv_threads s')) s')
  end.

Fixpoint run (evs : list Event) (s : Server) : option Server :=
  match evs with
  | [] => Some s
  | ev :: evs' => s' ← step ev s; run evs' s'
  end.

(** [Server::run] once the listener is bound: its threads spawned, at the head of
    the accept loop. *)
Definition server_start (is_terminal : bool) : Server :=
  let s := mkServer false false [] 0 [] [] MHead [] in
  let s := spawn TSignals s in
  let s := if is_terminal then spawn TStdin s else s in
  let s := spawn (TTicker Persist (TkSleep 0)) s in
  let s := spawn (TTicker RemoveExpired (TkSleep 0)) s in
  println Listening s.

(** ** Lemmas *)

Lemma run_app evs1 evs2 s :
  run (evs1 ++ evs2) s = s' ← run evs1 s; run evs2 s'.
Proof.
  revert s. induction evs1 as [|ev evs1 IH]; intros s; cbn; [done|].
  destruct (step ev s); cbn; [apply IH|done].
Qed.

(** What holds at the start and after every move holds wherever a run leads. *)
Lemma run_invariant (Inv : Server -> Prop) evs s s' :
  (forall ev s s', Inv s -> step ev s = Some s' -> Inv s') ->
  Inv s -> run evs s = Some s' -> Inv s'.
Proof.
  intros Hstep. revert s. induction evs as [|ev evs IH]; intros s Hs; cbn; [by intros [= <-]|].
  destruct (step ev s) as [s1|] eqn:H1; cbn; [|done]. intros Hr. eauto.
Qed.

(** The cases of a thread's move. *)
Ltac thread_cases Ht :=
  revert Ht;
  match goal with
  | |- thread_step ?t ?a _ = _ -> _ =>
      destruct t as [| |[]|?job [?n|?n|[]]|?id [| |?timed|[]|?timed| |[]]|]; cbn;
      destruct a as [| | | | | | | | |[|?c ?l]]; cbn
  end;
  repeat case_match; intros Ht; inversion Ht; subst; clear Ht; cbn in *.

(** A thread's move, but for the thread's own place, changes the flag, the backlog
    and the terminal only. *)
Lemma thread_step_frame t a s t' s' :
  thread_step t a s = Some (t', s') ->
  sv_threads s' = sv_threads s /\ sv_handles s' = sv_handles s /\ sv_main s' = sv_main s /\
  sv_closed s' = sv_closed s /\ sv_id s' = sv_id s.
Proof. intros Ht. thread_cases Ht; done. Qed.

(** Only [trigger_shutdown] sets the flag and knocks. *)
Lemma thread_step_trigger t a s t' s' :
  thread_step t a s = Some (t', s') ->
  (sv_shutdown s' = sv_shutdown s \/ t = TTrigger TsStore /\ sv_shutdown s' = true) /\
  (sv_backlog s' = sv_backlog s \/ t = TTrigger TsConnect /\ sv_backlog s' = sv_backlog s ++ [Knock]).
Proof. intros Ht. thread_cases Ht; auto. Qed.

Lemma thread_step_out t a s t' s' :
  thread_step t a s = Some (t', s') -> exists l, sv_out s' = sv_out s ++ l.
Proof. intros Ht. thread_cases Ht; eauto using app_nil_r. Qed.
