(* ===== verification/ServerSpec.v ===== *)
(** * The server's lifecycle

    What holds in every state the server reaches, whichever way its threads
    interleave and whatever clients, signals and terminal do: no thread gets
    dropped, no knock gets a session, and a server told to shut down does, unless
    something outside it keeps a thread waiting. *)

From S2P Require Import Prelude RustStd Server.

(** The states [run] reaches. *)
Definition reachable (is_terminal : bool) (s : Server) : Prop :=
  exists evs, run evs (server_start is_terminal) = Some s.

(** The number of threads before the first session, and the persistence thread's. *)
Definition base (is_terminal : bool) : nat := if is_terminal then 4 else 3.
Definition persister (is_terminal : bool) : nat := if is_terminal then 2 else 1.

(** The threads the main thread has yet to join. *)
Definition pending (s : Server) : list nat :=
  match sv_main s with
  | MJoin hs => hs
  | MReturned => []
  | _ => sv_handles s
  end.

Definition past_loop (m : MainPc) : bool :=
  match m with MClose | MJoin _ | MReturned => true | _ => false end.
Definition joining (m : MainPc) : bool :=
  match m with MJoin _ | MReturned => true | _ => false end.
Definition accepting (m : MainPc) : bool :=
  match m with MPrune | MAccept => true | _ => false end.

(** A knock is under way, waiting to be accepted, or could not be made. *)
Definition woken (s : Server) : Prop :=
  (exists i, sv_threads s !! i = Some (TTrigger TsConnect)) \/
  sv_backlog s <> [] \/ WakeFailed ∈ sv_out s.

(** ** The moves, by who makes them *)

Lemma step_thread_cases i a s s' :
  step (EvThread i a) s = Some s' ->
  exists t t' s1, sv_threads s !! i = Some t /\ thread_step t a s = Some (t', s1) /\
    s' = set_threads (<[i := t']> (sv_threads s)) s1.
Proof.
  cbn. destruct (sv_threads s !! i) as [t|] eqn:Hi; cbn; [|done].
  destruct (thread_step t a s) as [[t' s1]|] eqn:Ht; cbn; [|done]. intros [= <-].
  apply thread_step_frame in Ht as Hf. destruct Hf as (-> & _). eauto 6.
Qed.

(** The main thread's moves: the place it goes to, and what goes with it. *)
Ltac main_cases Hm :=
  unfold step, main_step in Hm;
  match type of Hm with context [sv_main ?s] => destruct (sv_main s) as [| | |?p|?p| |[|?h ?hs]|] eqn:?Hpc end;
  repeat case_match; simplify_eq; cbn in *.

Lemma lookup_moved {ts : list Thread} {i j t t'} :
  <[i := t']> ts !! j = Some t -> j = i /\ t = t' \/ j <> i /\ ts !! j = Some t.
Proof.
  intros H. destruct (decide (j = i)) as [->|Hne].
  - left. assert (i < length ts) by (rewrite <- (length_insert ts i t'); by eapply lookup_lt_Some).
    rewrite list_lookup_insert_eq in H by done. by simplify_eq.
  - right. by rewrite list_lookup_insert_ne in H.
Qed.

Lemma lookup_spawned {ts : list Thread} {i t t'} :
  (ts ++ [t']) !! i = Some t -> ts !! i = Some t \/ i = length ts /\ t = t'.
Proof.
  intros [H|[Hlt H]]%lookup_app_Some; [by left|]. right.
  destruct (i - length ts) eqn:He; cbn in H; [|done]. simplify_eq. split; [lia|done].
Qed.

(** ** Handles *)

(** The main thread has the handle of every thread that is still at work. *)
Definition handles_kept (s : Server) : Prop :=
  forall i t, sv_threads s !! i = Some t -> t <> TFinished -> i ∈ pending s.

Lemma unfinished s i t :
  sv_threads s !! i = Some t -> t <> TFinished -> is_finished s i = false.
Proof. unfold is_finished. intros ->. by destruct t. Qed.

Lemma handles_kept_step ev s s' : handles_kept s -> step ev s = Some s' -> handles_kept s'.
Proof.
  intros Hk Hs. destruct ev as [|a|i a].
  - by simplify_eq/=.
  - main_cases Hs; intros j t Hj Ht; pose proof (Hk j t) as Hp;
      unfold pending in *; cbn in *; rewrite Hpc in Hp; auto.
    + apply list_elem_of_filter. split; [by eapply unfinished|auto].
    + apply elem_of_app. apply lookup_spawned in Hj as [Hj|[-> _]]; [left; auto|right].
      by apply list_elem_of_singleton.
    + specialize (Hp Hj Ht). apply elem_of_cons in Hp as [->|Hp]; [|done].
      by rewrite (unfinished _ _ _ Hj Ht) in *.
  - apply step_thread_cases in Hs as (t & t' & s1 & Hi & Ht & ->).
    pose proof (thread_step_frame _ _ _ _ _ Ht) as (_ & Hh & Hm & _).
    intros j u Hj Hu. unfold pending. cbn. rewrite Hh, Hm. cbn in Hj.
    apply lookup_moved in Hj as [[-> ->]|[_ Hj]]; [|by eapply Hk].
    apply (Hk i t Hi). by intros ->.
Qed.

(** ** The flag *)

Record flag_kept (s : Server) : Prop := mkFlagKept {
  fk_closed : joining (sv_main s) = true -> sv_closed s = true;
  fk_past : past_loop (sv_main s) = true -> sv_shutdown s = true;
  fk_connect : forall i, sv_threads s !! i = Some (TTrigger TsConnect) -> sv_shutdown s = true;
  fk_knock : Knock ∈ sv_backlog s \/ sv_main s = MAccepted Knock -> sv_shutdown s = true;
  fk_spawn : sv_main s <> MSpawn Knock;
  fk_woken : sv_shutdown s = true -> accepting (sv_main s) = true -> woken s
}.

Lemma flag_kept_main a s s' : flag_kept s -> step (EvMain a) s = Some s' -> flag_kept s'.
Proof.
  intros [Hc Hp Ht Hk Hs Hw] Hm. main_cases Hm;
    (split; cbn in *; [try done|try done|try done| | try done |try done]);
    try (intros [Hin|Hpc']; [set_solver|try done]; simplify_eq; apply Hk; set_solver).
  all: try (intros i [Hi|[_ Hi]]%lookup_spawned; [by eapply Ht|done]).
  all: try (intros Hsd; specialize (Hw Hsd eq_refl); exact Hw).
  all: try (intros i Hi; apply Ht in Hi; congruence).
  - congruence.
  - intros [= ->]. by specialize (Hk (or_intror eq_refl)).
Qed.

Lemma flag_kept_thread i a s s' : flag_kept s -> step (EvThread i a) s = Some s' -> flag_kept s'.
Proof.
  intros [Hc Hp Ht Hk Hs Hw] Hstep. apply step_thread_cases in Hstep as (t & t' & s1 & Hi & Hst & ->).
  pose proof (thread_step_frame _ _ _ _ _ Hst) as (_ & Hh & Hm & Hcl & _).
  pose proof (thread_step_trigger _ _ _ _ _ Hst) as [Hfl Hbl].
  pose proof (thread_step_out _ _ _ _ _ Hst) as [l Hl].
  assert (Hmono : sv_shutdown s = true -> sv_shutdown s1 = true) by (destruct Hfl as [->|[_ ->]]; auto).
  split; cbn; rewrite ?Hm, ?Hcl; auto.
  - intros j [[-> <-]|[_ Hj]]%lookup_moved; [|by eapply Hmono, Ht].
    thread_cases Hst; done.
  - intros Hor. destruct Hbl as [He|[-> He]]; rewrite He in Hor; [by auto|]. by eapply Hmono, Ht.
  - intros Hsd Hacc. unfold woken. cbn. rewrite Hl.
    assert (Hlen : i < length (sv_threads s)) by by eapply lookup_lt_Some.
    destruct t as [| |[]| | |].
    3: { left. exists i. rewrite list_lookup_insert_eq by done. clear Hfl Hbl. by destruct a; simplify_eq/=. }
    3: { right. rewrite <- Hl. clear Hfl Hbl. destruct a; simplify_eq/=; [left; by destruct (sv_backlog s)|right; set_solver]. }
    all: destruct Hfl as [He|[? _]]; [|done]; destruct Hbl as [Hb|[? _]]; [|done];
      rewrite He in Hsd; destruct (Hw Hsd Hacc) as [[j Hj]|[Hne|Hin]].
    all: try (left; exists j; rewrite list_lookup_insert_ne by congruence; exact Hj).
    all: right; rewrite ?Hb; set_solver.
Qed.

Lemma flag_kept_step ev s s' : flag_kept s -> step ev s = Some s' -> flag_kept s'.
Proof.
  intros Hf Hs. destruct ev as [|a|i a]; [|by eapply flag_kept_main|by eapply flag_kept_thread].
  destruct Hf as [Hc Hp Ht Hk Hn Hw]. simplify_eq/=. split; cbn; auto.
  - intros [[Hin|Hin%list_elem_of_singleton]%elem_of_app|Hm]; [by auto|done|by auto].
  - intros Hsd Hacc. right. left. cbn. by destruct (sv_backlog s).
Qed.

(** ** The persistence thread *)

(** Until the flag is up the persistence thread is in its loop. *)
Definition persisting (tty : bool) (s : Server) : Prop :=
  sv_shutdown s = false ->
  exists pc, sv_threads s !! persister tty = Some (TTicker Persist pc) /\ pc <> TkJob true.

Lemma step_flag ev s s' : step ev s = Some s' -> sv_shutdown s = true -> sv_shutdown s' = true.
Proof.
  intros Hs Hf. destruct ev as [|a|i a].
  - by simplify_eq/=.
  - main_cases Hs; congruence.
  - apply step_thread_cases in Hs as (t & t' & s1 & _ & Ht & ->).
    apply thread_step_trigger in Ht as [[He|[_ He]] _]; cbn; congruence.
Qed.

Lemma main_threads a s s' :
  step (EvMain a) s = Some s' ->
  sv_threads s' = sv_threads s \/ exists id, sv_threads s' = sv_threads s ++ [TSession id SsClone].
Proof. intros Hs. main_cases Hs; eauto. Qed.

Lemma persisting_step tty ev s s' : persisting tty s -> step ev s = Some s' -> persisting tty s'.
Proof.
  intros Hp Hs Hf'. assert (Hf : sv_shutdown s = false).
  { destruct (sv_shutdown s) eqn:Hf; [|done]. by rewrite (step_flag _ _ _ Hs Hf) in Hf'. }
  destruct (Hp Hf) as (pc & Hpc & Hne). destruct ev as [|a|i a].
  - simplify_eq/=. eauto.
  - destruct (main_threads _ _ _ Hs) as [->|[id ->]]; [eauto|].
    exists pc. split; [|done]. by apply lookup_app_l_Some.
  - apply step_thread_cases in Hs as (t & t' & s1 & Hi & Ht & ->). cbn.
    destruct (decide (i = persister tty)) as [->|Hne']; [|rewrite list_lookup_insert_ne by done; eauto].
    rewrite list_lookup_insert_eq by (by eapply lookup_lt_Some). simplify_eq.
    destruct pc as [n|n|[]], a; simplify_eq/=; try (eexists; split; [done|done]).
    rewrite Hf. eexists. split; [done|]. by case_decide.
Qed.

(** ** Ids *)

(** A session's id says which of the sessions it is, modulo 2^32. *)
Definition nth_id (n : nat) : N := (N.of_nat n `mod` 4294967296)%N.
Record ids_kept (tty : bool) (s : Server) : Prop := mkIdsKept {
  ik_base : base tty <= length (sv_threads s);
  ik_next : sv_id s = nth_id (length (sv_threads s) - base tty);
  ik_ids : forall i id pc, sv_threads s !! i = Some (TSession id pc) ->
    base tty <= i /\ id = nth_id (S (i - base tty))
}.

Lemma nth_id_S n : u32_wrapping_add (nth_id n) 1 = nth_id (S n).
Proof.
  unfold u32_wrapping_add, nth_id. rewrite Nat2N.inj_succ, <- N.add_1_r.
  rewrite N.Div0.add_mod_idemp_l. done.
Qed.

Lemma ids_kept_step tty ev s s' : ids_kept tty s -> step ev s = Some s' -> ids_kept tty s'.
Proof.
  intros [Hb Hn Hi] Hs. destruct ev as [|a|i a].
  - by simplify_eq/=.
  - main_cases Hs; (split; cbn; rewrite ?length_app; cbn; [try lia|try done|try done]).
    + rewrite Hn, nth_id_S. f_equal. lia.
    + intros i id pc [Ht|[-> [= -> ->]]]%lookup_spawned; [eauto|]. split; [lia|].
      by rewrite Hn, nth_id_S.
  - apply step_thread_cases in Hs as (t & t' & s1 & Ht & Hst & ->).
    pose proof (thread_step_frame _ _ _ _ _ Hst) as (_ & _ & _ & _ & Hid).
    split; cbn; rewrite ?length_insert, ?Hid; [done|done|].
    intros j id pc [[-> <-]|[_ Hj]]%lookup_moved; [|eauto].
    assert (exists pc', t = TSession id pc') as [pc' ->] by (thread_cases Hst; eauto). eauto.
Qed.

(** ** What is reachable *)

Lemma start_threads tty i t : sv_threads (server_start tty) !! i = Some t ->
  i ∈ sv_handles (server_start tty) /\ t <> TTrigger TsConnect /\ forall id pc, t <> TSession id pc.
Proof.
  destruct tty; cbn; (do 4 (destruct i as [|i]; [intros [= <-]; set_solver|])); done.
Qed.

Lemma reachable_kept tty s :
  reachable tty s -> handles_kept s /\ flag_kept s /\ persisting tty s /\ ids_kept tty s.
Proof.
  intros [evs Hr].
  pose proof (run_invariant
    (fun s => handles_kept s /\ flag_kept s /\ persisting tty s /\ ids_kept tty s) evs (server_start tty) s) as Hinv.
  apply Hinv; [| |exact Hr].
  - intros ev s1 s2 (? & ? & ? & ?) Hs.
    split_and!; eauto using handles_kept_step, flag_kept_step, persisting_step, ids_kept_step.
  - split_and!; [| split | |split].
    + intros i t Hi _. apply start_threads in Hi as [Hh _]. unfold pending.
      destruct tty; cbn in *; exact Hh.
    + by destruct tty.
    + by destruct tty.
    + intros i Hi. by apply start_threads in Hi as (_ & ? & _).
    + by destruct tty; intros [H%elem_of_nil|H].
    + by destruct tty.
    + by destruct tty.
    + intros _. destruct tty; by eexists.
    + destruct tty; cbn; lia.
    + by destruct tty.
    + intros i id pc Hi. apply start_threads in Hi as (_ & _ & H). by destruct (H id pc).
Qed.

Lemma reachable_run tty s evs s' : reachable tty s -> run evs s = Some s' -> reachable tty s'.
Proof. intros [evs0 H0] Hr. exists (evs0 ++ evs). by rewrite run_app, H0. Qed.

(** ** What a run down takes *)

Lemma sum_list_with_insert {A} (f : A -> nat) (l : list A) i x y :
  l !! i = Some x -> sum_list_with f (<[i := y]> l) + f x = sum_list_with f l + f y.
Proof.
  revert i. induction l as [|z l IH]; intros [|i] H; simplify_eq/=; [lia|].
  specialize (IH _ H). lia.
Qed.

Lemma sum_list_with_bound {A} (f : A -> nat) (n : nat) (l : list A) :
  (forall x, f x <= n) -> sum_list_with f l <= n * length l.
Proof. intros Hf. induction l as [|x l IH]; cbn; [lia|]. specialize (Hf x). lia. Qed.

(** The moves a thread has left once the flag is up. *)
Definition thread_weight (t : Thread) : nat :=
  match t with
  | TFinished => 0
  | TTrigger TsConnect => 1
  | TTrigger TsStore => 2
  | TSignals | TStdin => 3
  | TTicker _ (TkJob true) => 1
  | TTicker _ (TkCheck _) => 2
  | TTicker _ (TkSleep _) => 3
  | TTicker _ (TkJob false) => 4
  | TSession _ (SsJoin _) => 1
  | TSession _ SsUnsubscribe => 2
  | TSession _ (SsCheck _) => 3
  | TSession _ (SsExecute _) => 4
  | TSession _ (SsRead _) => 5
  | TSession _ SsSetTimeout => 6
  | TSession _ SsClone => 7
  end.
Definition main_weight (s : Server) : nat :=
  match sv_main s with
  | MReturned => 0
  | MJoin hs => 1 + length hs
  | MClose => 2 + length (sv_handles s)
  | MHead => 3 + length (sv_handles s)
  | MAccepted _ => 4 + length (sv_handles s)
  | MAccept => 5 + length (sv_handles s)
  | MPrune => 6 + length (sv_handles s)
  | MSpawn _ => 12 + length (sv_handles s)
  end.
Definition weight (s : Server) : nat := main_weight s + sum_list_with thread_weight (sv_threads s).

(** The moves that are up to somebody else: a client that connects or sends, and
    the terminal. *)
Definition outside (ev : Event) (s : Server) : bool :=
  match ev with
  | EvConnect | EvThread _ (PartOfFrame | NoCommand) | EvThread _ (Line _) => true
  | EvThread i Failed => match sv_threads s !! i with Some TStdin => true | _ => false end
  | _ => false
  end.

(** How many moves of a run are the server's own. *)
Fixpoint own_moves (evs : list Event) (s : Server) : nat :=
  match evs with
  | [] => 0
  | ev :: evs' =>
      (if outside ev s then 0 else 1) + match step ev s with Some s' => own_moves evs' s' | None => 0 end
  end.

Lemma thread_weight_step t a s t' s' :
  thread_step t a s = Some (t', s') -> sv_shutdown s = true ->
  thread_weight t' < thread_weight t \/
  thread_weight t' <= thread_weight t /\
    (a = PartOfFrame \/ a = NoCommand \/ (exists l, a = Line l) \/ a = Failed /\ t = TStdin).
Proof. intros Ht Hs. thread_cases Ht; try congruence; (left; lia) || (right; eauto 7). Qed.

Lemma weight_step ev s s' :
  step ev s = Some s' -> sv_shutdown s = true ->
  weight s' + (if outside ev s then 0 else 1) <= weight s.
Proof.
  intros Hs Hf. unfold weight. destruct ev as [|a|i a].
  - simplify_eq/=. unfold main_weight. cbn. lia.
  - main_cases Hs; try congruence; unfold main_weight; cbn; rewrite Hpc, ?length_app, ?sum_list_with_app; cbn;
      try (pose proof (length_filter (fun i => is_finished s i = false) (sv_handles s))); lia.
  - apply step_thread_cases in Hs as (t & t' & s1 & Hi & Ht & ->).
    pose proof (thread_step_frame _ _ _ _ _ Ht) as (_ & Hh & Hm & _).
    pose proof (sum_list_with_insert thread_weight _ _ _ t' Hi) as Hsum.
    assert (main_weight (set_threads (<[i:=t']> (sv_threads s)) s1) = main_weight s) as ->.
    { unfold main_weight. cbn. by rewrite Hm, Hh. }
    destruct (thread_weight_step _ _ _ _ _ Ht Hf) as [?|[? Ho]]; cbn in *.
    + repeat case_match; lia.
    + assert (outside (EvThread i a) s = true) as Ho'.
      { destruct Ho as [->|[->|[[l ->]|[-> ->]]]]; cbn; by rewrite ?Hi. }
      cbn in Ho'. rewrite Ho'. lia.
Qed.

Lemma own_moves_bound evs s s' :
  run evs s = Some s' -> sv_shutdown s = true ->
  own_moves evs s + weight s' <= weight s /\ sv_shutdown s' = true.
Proof.
  revert s. induction evs as [|ev evs IH]; intros s; cbn; [intros [= <-] ?; split; [lia|done]|].
  destruct (step ev s) as [s1|] eqn:H1; cbn; [|done]. intros Hr Hf.
  pose proof (weight_step _ _ _ H1 Hf).
  destruct (IH _ Hr (step_flag _ _ _ H1 Hf)). split; [lia|done].
Qed.

(** What is left to join is left of the handles. *)
Lemma joins_handles tty s hs :
  reachable tty s -> sv_main s = MJoin hs -> length hs <= length (sv_handles s).
Proof.
  intros [evs Hr]. revert hs.
  eapply (run_invariant
    (fun s => forall hs, sv_main s = MJoin hs -> length hs <= length (sv_handles s)));
    [| |exact Hr]; [|by destruct tty].
  clear. intros ev s s' Hj Hs hs Hm. destruct ev as [|a|i a].
  - simplify_eq/=. auto.
  - main_cases Hs; simplify_eq; [done|]. specialize (Hj _ eq_refl). cbn in Hj. lia.
  - apply step_thread_cases in Hs as (t & t' & s1 & _ & Ht & ->).
    apply thread_step_frame in Ht as (_ & Hh & Hmm & _). cbn in *. rewrite Hh. apply Hj. congruence.
Qed.

(** The moves that need nobody: a call that goes through on its own, a time that
    runs out. *)
Definition own (ev : Event) : Prop :=
  match ev with
  | EvMain Fine | EvThread _ Fine | EvThread _ Elapsed => True
  | _ => False
  end.

(** What can keep the server waiting for somebody: the stdin thread, at its terminal;
    a session whose socket has no timeout, or whose client does not take its replies;
    an accept loop nobody could knock at. *)
Definition waits_outside (s : Server) : Prop :=
  (exists i, sv_threads s !! i = Some TStdin) \/
  (exists i id, sv_threads s !! i = Some (TSession id (SsRead false)) \/
                sv_threads s !! i = Some (TSession id (SsJoin true))) \/
  sv_main s = MAccept /\ sv_backlog s = [] /\ WakeFailed ∈ sv_out s.

Lemma thread_own i t s :
  sv_threads s !! i = Some t -> t <> TFinished -> sv_closed s = true \/ t <> TSignals ->
  (exists ev, own ev /\ is_Some (step ev s)) \/ waits_outside s.
Proof.
  intros Hi Hne Hc. unfold waits_outside.
  destruct t as [| |[]|job [n|n|last]|id [| |timed|[]|timed| |[]]|]; try done; eauto 7.
  all: left; first
    [ by exists (EvThread i Fine); cbn; rewrite Hi; cbn; eauto
    | by exists (EvThread i Elapsed); cbn; rewrite Hi; cbn; eauto | idtac ].
  destruct Hc as [Hc|]; [|done]. exists (EvThread i Fine). cbn. rewrite Hi. cbn. rewrite Hc. cbn. eauto.
Qed.

Lemma main_own s :
  handles_kept s -> flag_kept s -> sv_shutdown s = true -> sv_main s <> MReturned ->
  (exists ev, own ev /\ is_Some (step ev s)) \/ waits_outside s.
Proof.
  intros Hk Hf Hs Hr.
  assert (Hm : is_Some (main_step Fine s) -> exists ev, own ev /\ is_Some (step ev s)).
  { intros Hm. by exists (EvMain Fine). }
  unfold main_step in Hm. destruct (sv_main s) as [| | |p|p| |[|h hs]|] eqn:Hpc; try done; eauto.
  - destruct (sv_backlog s) eqn:Hb; [|by eauto].
    destruct (fk_woken _ Hf Hs) as [[i Hi]|[?|?]]; [by rewrite Hpc| | |].
    + eapply thread_own; [exact Hi|done|by right].
    + done.
    + right. right. by right.
  - destruct (is_finished s h) eqn:Hh; [by eauto|]. unfold is_finished in Hh.
    destruct (sv_threads s !! h) as [t|] eqn:Ht; [|done].
    eapply thread_own; [exact Ht|by intros ->|left]. apply fk_closed; [done|by rewrite Hpc].
Qed.

(** ** The last snapshot *)

(** From the flag on: the persistence thread is at work or has reported a snapshot. *)
Definition persists_again (tty : bool) (out : list LogLine) (s : Server) : Prop :=
  exists l, sv_out s = out ++ l /\
    ((exists pc, sv_threads s !! persister tty = Some (TTicker Persist pc)) \/
     exists ok, JobDone Persist ok ∈ l).

Lemma step_out ev s s' : step ev s = Some s' -> exists l, sv_out s' = sv_out s ++ l.
Proof.
  intros Hs. destruct ev as [|a|i a].
  - simplify_eq/=. exists []. by rewrite app_nil_r.
  - main_cases Hs; eauto using app_nil_r.
  - apply step_thread_cases in Hs as (t & t' & s1 & _ & Ht & ->). by apply thread_step_out in Ht.
Qed.

Lemma persists_again_step tty out ev s s' :
  persists_again tty out s -> step ev s = Some s' -> persists_again tty out s'.
Proof.
  intros (l & Hl & Hp) Hs. destruct (step_out _ _ _ Hs) as [l' Hl'].
  exists (l ++ l'). split; [by rewrite Hl', Hl, (assoc_L (++))|].
  destruct Hp as [[pc Hpc]|[ok Hok]]; [|right; exists ok; set_solver].
  destruct ev as [|a|i a].
  - simplify_eq/=. eauto.
  - left. exists pc. destruct (main_threads _ _ _ Hs) as [->|[id ->]]; [done|].
    by apply lookup_app_l_Some.
  - apply step_thread_cases in Hs as (t & t' & s1 & Hi & Ht & ->). cbn in *.
    destruct (decide (i = persister tty)) as [->|Hne]; [|left; rewrite list_lookup_insert_ne by done; eauto].
    rewrite list_lookup_insert_eq by (by eapply lookup_lt_Some). simplify_eq.
    destruct pc as [n|n|[]], a; simplify_eq/=; eauto;
      right; eexists; apply elem_of_app; right; simplify_list_eq; by left.
Qed.

(** ** Theorems *)

(** C14: [Server::run] returns after every thread.  In every state the server can
    reach, the main thread has the handle of each thread still at work, through the
    pruning of finished ones and the spawning of sessions; once it has returned,
    every thread it ever spawned has finished, the flag is up and the signals are
    closed. *)
Theorem returns_after_threads (tty : bool) (s : Server) :
  reachable tty s ->
  (forall i t, sv_threads s !! i = Some t -> t <> TFinished -> i ∈ pending s) /\
  (sv_main s = MReturned ->
   Forall (fun t => t = TFinished) (sv_threads s) /\ sv_shutdown s = true /\ sv_closed s = true).
Proof.
  intros Hr. destruct (reachable_kept _ _ Hr) as (Hk & Hf & _). split; [exact Hk|]. intros Hm.
  split_and!.
  - apply Forall_lookup. intros i t Hi. destruct (decide (is_finished s i = false)) as [Hu|Hu];
      unfold is_finished in Hu; rewrite Hi in Hu; [|by destruct t].
    assert (t <> TFinished) as Hne by (by intros ->).
    specialize (Hk i t Hi Hne). unfold pending in Hk. rewrite Hm in Hk. by apply elem_of_nil in Hk.
  - apply fk_past; [done|by rewrite Hm].
  - apply fk_closed; [done|by rewrite Hm].
Qed.

(** C12: told to shut down, the server does.  Once the flag is up, whoever raised it
    and wherever the other threads are: the moves the server makes of its own from
    then on are at most twelve, seven for each thread and one for each handle; and
    as long as it has not returned it has such a move to make, one that needs
    nobody, unless it is waiting for its terminal, for the client of a session whose
    socket would take no timeout or whose client does not take what is written to it,
    or for a connection because the knock failed. *)
Theorem shutdown_ends (tty : bool) (s s' : Server) (evs : list Event) :
  reachable tty s -> sv_shutdown s = true -> run evs s = Some s' ->
  own_moves evs s <= 12 + length (sv_handles s) + 7 * length (sv_threads s) /\
  (sv_main s' = MReturned \/ (exists ev, own ev /\ is_Some (step ev s')) \/ waits_outside s').
Proof.
  intros Hr Hs Hrun. destruct (own_moves_bound _ _ _ Hrun Hs) as [Hb Hs']. split.
  - assert (weight s <= 12 + length (sv_handles s) + 7 * length (sv_threads s)); [|lia].
    assert (sum_list_with thread_weight (sv_threads s) <= 7 * length (sv_threads s)).
    { apply sum_list_with_bound. intros [| |[]|? [| |[]]|? []|]; cbn; lia. }
    assert (main_weight s <= 12 + length (sv_handles s)); [|unfold weight; lia].
    destruct (reachable_kept _ _ Hr) as (Hk & _).
    unfold main_weight. destruct (sv_main s) eqn:Hm; try lia.
    by pose proof (joins_handles _ _ _ Hr Hm); lia.
  - destruct (reachable_kept _ _ (reachable_run _ _ _ _ Hr Hrun)) as (Hk & Hf & _).
    assert (sv_main s' = MReturned \/ sv_main s' <> MReturned) as [?|?]
      by (destruct (sv_main s'); auto); [by left|right].
    by apply main_own.
Qed.

(** C20: the snapshot on the way out.  From the move that raises the flag to the
    return of [Server::run] the persistence thread attempts a snapshot at least once
    and says how it went, wherever in its hundred naps the flag found it. *)
Theorem snapshot_on_the_way_out (tty : bool) (s s1 s2 : Server) (ev : Event) (evs : list Event) :
  reachable tty s -> sv_shutdown s = false ->
  step ev s = Some s1 -> sv_shutdown s1 = true ->
  run evs s1 = Some s2 -> sv_main s2 = MReturned ->
  exists l ok, sv_out s2 = sv_out s1 ++ l /\ JobDone Persist ok ∈ l.
Proof.
  intros Hr Hs Hstep Hs1 Hrun Hm.
  destruct (reachable_kept _ _ Hr) as (_ & _ & Hp & _). destruct (Hp Hs) as (pc & Hpc & _).
  assert (Hstart : persists_again tty (sv_out s1) s1).
  { exists []. rewrite app_nil_r. split; [done|]. left. exists pc. destruct ev as [|a|i a].
    - by simplify_eq/=.
    - exfalso. clear Hpc Hp Hm. main_cases Hstep; congruence.
    - apply step_thread_cases in Hstep as (t & t' & s3 & Hi & Ht & ->). cbn in *.
      apply thread_step_trigger in Ht as [[He|[-> _]] _]; [congruence|].
      rewrite list_lookup_insert_ne; [done|]. by intros ->; simplify_eq. }
  assert (persists_again tty (sv_out s1) s2) as (l & Hl & Hor).
  { eapply run_invariant; [|exact Hstart|exact Hrun]. intros ???. by apply persists_again_step. }
  exists l. destruct Hor as [[pc' Hpc']|[ok Hok]]; [exfalso|by exists ok].
  assert (Hr2 : reachable tty s2).
  { eapply (reachable_run _ s (ev :: evs)); [done|]. cbn. by rewrite Hstep. }
  destruct (reachable_kept _ _ Hr2) as (Hk & _).
  specialize (Hk _ _ Hpc' ltac:(discriminate)). unfold pending in Hk. rewrite Hm in Hk.
  by apply elem_of_nil in Hk.
Qed.

(** The knock gets no session.  When the accept loop takes the connection
    [trigger_shutdown] made, its next move is out of the loop, and a session is only
    ever spawned for a client. *)
Theorem knock_gets_no_session (tty : bool) (s s' : Server) (ev : Event) :
  reachable tty s -> step ev s = Some s' ->
  (sv_main s = MAccepted Knock -> forall a, ev = EvMain a -> sv_main s' = MClose) /\
  (length (sv_threads s) < length (sv_threads s') -> sv_main s = MSpawn Client).
Proof.
  intros Hr Hs. destruct (reachable_kept _ _ Hr) as (_ & Hf & _). split.
  - intros Hm a ->. unfold step, main_step in Hs. rewrite Hm, (fk_knock _ Hf) in Hs by auto.
    by simplify_eq/=.
  - intros Hlen. destruct ev as [|a|i a].
    + simplify_eq/=. lia.
    + pose proof (fk_spawn _ Hf) as Hn. main_cases Hs; try lia. match goal with p : Peer |- _ => by destruct p end.
    + apply step_thread_cases in Hs as (t & t' & s1 & Hi & Ht & ->). cbn in Hlen.
      rewrite length_insert in Hlen. lia.
Qed.

(** The ids of two sessions, live at once or not, are the same exactly when as
    many connections lie between them as a [u32] wraps at: below 2^32 connections no
    two sessions share one. *)
Theorem session_ids (tty : bool) (s : Server) (i j : nat) (id id' : N) pc pc' :
  reachable tty s ->
  sv_threads s !! i = Some (TSession id pc) -> sv_threads s !! j = Some (TSession id' pc') ->
  (id = id' <-> (N.of_nat i `mod` 4294967296 = N.of_nat j `mod` 4294967296)%N) /\
  (id = id' -> length (sv_threads s) <= N.to_nat 4294967296 -> i = j).
Proof.
  intros Hr Hi Hj. destruct (reachable_kept _ _ Hr) as (_ & _ & _ & Hids).
  destruct (ik_ids _ _ Hids _ _ _ Hi) as [Hbi ->]. destruct (ik_ids _ _ Hids _ _ _ Hj) as [Hbj ->].
  assert (Hiff : nth_id (S (i - base tty)) = nth_id (S (j - base tty)) <->
    (N.of_nat i `mod` 4294967296 = N.of_nat j `mod` 4294967296)%N).
  { unfold nth_id. zify. Z.to_euclidean_division_equations. lia. }
  split; [exact Hiff|]. rewrite Hiff. intros Heq Hlen.
  apply lookup_lt_Some in Hi, Hj. rewrite !N.mod_small in Heq by lia. lia.
Qed.

(** What a thread can be at that somebody outside can keep it at for good, and the
    events that do: the terminal, with lines other than [quit] and [exit]; a client
    that sends its frame piece by piece, or frames that are no commands, or nothing on
    a socket without a timeout; a client that does not take its replies. *)
Definition kept_waiting (i : nat) (t : Thread) (evs : list Event) : Prop :=
  match t with
  | TStdin => forall l, EvThread i (Line l) ∈ evs -> l <> [] /\ is_quit l = false
  | TSession _ (SsRead _) => forall a, EvThread i a ∈ evs -> a = PartOfFrame \/ a = NoCommand
  | TSession _ (SsJoin true) => ~ EvThread i Drained ∈ evs
  | _ => False
  end.

Lemma kept_waiting_step i t a s t' s' evs :
  thread_step t a s = Some (t', s') -> kept_waiting i t evs -> EvThread i a ∈ evs -> t' = t.
Proof.
  intros Ht Hk Hin.
  destruct t as [| |pc|job pc|id [| |timed|timed|timed| |[]]|]; try done; cbn in Hk.
  - destruct a as [| | | | | | | | |l]; simplify_eq/=; [done|].
    destruct (Hk l Hin) as [Hne Hq]. destruct l; [done|]. rewrite Hq in Ht. by simplify_eq.
  - by destruct (Hk a Hin) as [-> | ->]; destruct timed; simplify_eq/=.
  - by destruct a; simplify_eq/=.
Qed.

(** C31: what shutdown waits for.  The flag does not reach a thread that sits in a
    call: the stdin thread in [read_line], a session in the middle of a frame, or
    sent frames that are no commands, or in a read without a timeout, a session whose
    writer is in a write.  Whether a signal
    has come or not, as long as the terminal, or that one client, goes on as it is,
    the thread stays there and [Server::run] does not return. *)
Theorem outlives_shutdown (tty : bool) (s s' : Server) (evs : list Event) (i : nat) (t : Thread) :
  reachable tty s -> sv_threads s !! i = Some t -> kept_waiting i t evs ->
  run evs s = Some s' ->
  sv_threads s' !! i = Some t /\ sv_main s' <> MReturned.
Proof.
  intros Hr Hi Hk Hrun.
  assert (Hne : t <> TFinished) by (by intros ->).
  assert (Hi' : sv_threads s' !! i = Some t).
  { clear Hr. remember evs as all eqn:Hall in Hk.
    assert (Hin : forall ev, ev ∈ evs -> ev ∈ all) by (by rewrite Hall). clear Hall.
    revert s Hi Hrun. induction evs as [|ev evs IH]; intros s Hi; cbn; [by intros [= <-]|].
    destruct (step ev s) as [s1|] eqn:H1; cbn; [|done]. apply IH; [set_solver|].
    destruct ev as [|a|j a].
    - by simplify_eq/=.
    - destruct (main_threads _ _ _ H1) as [->|[id ->]]; [done|]. by apply lookup_app_l_Some.
    - apply step_thread_cases in H1 as (t1 & t' & s3 & Hj & Ht & ->). cbn.
      destruct (decide (j = i)) as [->|Hji]; [|by rewrite list_lookup_insert_ne].
      rewrite list_lookup_insert_eq by (by eapply lookup_lt_Some). simplify_eq.
      f_equal. eapply kept_waiting_step; [exact Ht|exact Hk|set_solver]. }
  split; [done|]. intros Hm.
  destruct (reachable_kept _ _ (reachable_run _ _ _ _ Hr Hrun)) as (Hkept & _).
  specialize (Hkept _ _ Hi' Hne). unfold pending in Hkept. rewrite Hm in Hkept.
  by apply elem_of_nil in Hkept.
Qed.

(** ** A run: a client, then a signal, with and without a terminal *)

(** From the head of the accept loop to the next [accept]. *)
Definition to_accept : list Event := [EvMain Fine; EvMain Fine].
(** A client connects, gets the session of thread [i], sends a command. *)
Definition one_client (i : nat) : list Event :=
  to_accept ++ [EvConnect] ++ replicate 3 (EvMain Fine) ++ to_accept ++ replicate 5 (EvThread i Fine).
Definition signalled : list Event := [EvThread 0 Signalled; EvThread 0 Fine].
(** The knock, the accept loop's way out, and every thread's: the tickers [k] and
    [k + 1], the session [i]. *)
Definition way_out (k i : nat) : list Event :=
  [EvThread 0 Fine] ++ replicate 3 (EvMain Fine) ++ replicate 3 (EvThread k Fine) ++
  replicate 3 (EvThread (k + 1) Fine) ++ replicate 3 (EvThread i Fine).

Definition from_start (tty : bool) (evs : list Event) : Server :=
  default (server_start tty) (run evs (server_start tty)).

Definition sample_serving : Server := from_start false (one_client 3).
Definition sample_flagged : Server := from_start false (one_client 3 ++ signalled).
Definition sample_rest : list Event := way_out 1 3 ++ replicate 5 (EvMain Fine).
Definition sample_returned : Server := from_start false (one_client 3 ++ signalled ++ sample_rest).

Lemma returns_after_threads_witness :
  sv_main sample_returned = MReturned /\ length (sv_threads sample_returned) = 4 /\
  Forall (fun t => t = TFinished) (sv_threads sample_returned).
Proof.
  split; [vm_compute; reflexivity|]. split; [vm_compute; reflexivity|].
  apply (returns_after_threads false sample_returned); [|vm_compute; reflexivity].
  exists (one_client 3 ++ signalled ++ sample_rest). vm_compute. reflexivity.
Defined.

Lemma shutdown_ends_witness :
  own_moves sample_rest sample_flagged <= 44 /\
  (sv_main sample_returned = MReturned \/
   (exists ev, own ev /\ is_Some (step ev sample_returned)) \/ waits_outside sample_returned).
Proof.
  apply (shutdown_ends false sample_flagged sample_returned sample_rest).
  - exists (one_client 3 ++ signalled). vm_compute. reflexivity.
  - vm_compute. reflexivity.
  - vm_compute. reflexivity.
Defined.

Lemma snapshot_on_the_way_out_witness :
  exists l ok, sv_out sample_returned = sv_out sample_flagged ++ l /\ JobDone Persist ok ∈ l.
Proof.
  apply (snapshot_on_the_way_out false (from_start false (one_client 3 ++ [EvThread 0 Signalled]))
    sample_flagged sample_returned (EvThread 0 Fine) sample_rest).
  - exists (one_client 3 ++ [EvThread 0 Signalled]). vm_compute. reflexivity.
  - vm_compute. reflexivity.
  - vm_compute. reflexivity.
  - vm_compute. reflexivity.
  - vm_compute. reflexivity.
  - vm_compute. reflexivity.
Defined.

(** The accept loop with the knock in its hands. *)
Definition sample_knocked : Server :=
  from_start false (one_client 3 ++ signalled ++ [EvThread 0 Fine; EvMain Fine]).

Lemma knock_gets_no_session_witness :
  sv_main sample_knocked = MAccepted Knock /\
  exists s', step (EvMain Fine) sample_knocked = Some s' /\ sv_main s' = MClose.
Proof.
  split; [vm_compute; reflexivity|].
  destruct (step (EvMain Fine) sample_knocked) as [s'|] eqn:Hs; [|vm_compute in Hs; discriminate Hs].
  exists s'. split; [reflexivity|].
  apply (knock_gets_no_session false sample_knocked s' (EvMain Fine)) with (a := Fine).
  - exists (one_client 3 ++ signalled ++ [EvThread 0 Fine; EvMain Fine]). vm_compute. reflexivity.
  - exact Hs.
  - vm_compute. reflexivity.
  - reflexivity.
Defined.

Lemma session_ids_witness :
  sv_threads sample_serving !! 3 = Some (TSession 1 (SsCheck true)) /\
  ((1 = 1)%N <-> (3 `mod` 4294967296 = 3 `mod` 4294967296)%N).
Proof.
  split; [vm_compute; reflexivity|].
  apply (session_ids false sample_serving 3 3 1%N 1%N (SsCheck true) (SsCheck true)).
  - exists (one_client 3). vm_compute. reflexivity.
  - vm_compute. reflexivity.
  - vm_compute. reflexivity.
Defined.

(** A terminal: Ctrl-C, then a line.  Every other thread has finished. *)
Definition sample_ctrl_c : list Event :=
  to_accept ++ signalled ++ [EvThread 0 Fine] ++ replicate 4 (EvMain Fine) ++
  replicate 3 (EvThread 2 Fine) ++ replicate 3 (EvThread 3 Fine) ++
  [EvThread 1 (Line (chars "stop"))].
Definition sample_hung : Server := from_start true sample_ctrl_c.

Lemma outlives_shutdown_witness :
  sv_threads sample_hung = [TFinished; TStdin; TFinished; TFinished] /\
  sv_shutdown sample_hung = true /\
  sv_threads sample_hung !! 1 = Some TStdin /\ sv_main sample_hung <> MReturned.
Proof.
  split; [vm_compute; reflexivity|]. split; [vm_compute; reflexivity|].
  apply (outlives_shutdown true (server_start true) sample_hung sample_ctrl_c 1 TStdin).
  - exists []. reflexivity.
  - vm_compute. reflexivity.
  - intros l Hl. assert (l = chars "stop") as ->; [|split; [discriminate|vm_compute; reflexivity]].
    repeat (apply elem_of_cons in Hl as [Hl|Hl]; [try discriminate Hl|]); [|by apply elem_of_nil in Hl].
    by simplify_eq.
  - vm_compute. reflexivity.
Defined.
