(* ===== verification/TestKit.v ===== *)
(** * TestKit: what a unit test is

    The [#[cfg(test)]] modules of the sources, kept beside the model: each [#[test]] is
    a program on the state it uses, which ends well or panics, and the lemma after
    each module runs them all on the definitions the theorems are about.  [*Tests.v]
    hold the modules; a test keeps the name it has in the source. *)

From S2P Require Import Prelude Effects RustStd Time.

(** A test stops at the first [unwrap] on an error and the first assertion that does
    not hold. *)
Inductive Panic : Type := Panicked.

Abbreviation Test S := (prog S Panic unit).

Definition panic {S A} : prog S Panic A := Done (Err Panicked).

(** [.unwrap()], and what a test makes of a result it wants to look at. *)
Definition unwrap {S E A} (p : prog S E A) : prog S Panic A := p_map_err (fun _ => Panicked) p.
Definition attempt {S E A} (p : prog S E A) : prog S Panic (result E A) :=
  p_then p (fun r => Done (Ok r)).

(** [assert!] and [assert_eq!]. *)
Definition assert_that {S} (b : bool) : Test S := if b then mret () else panic.
Definition assert_eq {S A} `{EqDecision A} (a b : A) : Test S := assert_that (bool_decide (a = b)).

Fixpoint for_each {S A} (xs : list A) (body : A -> Test S) : Test S :=
  match xs with
  | [] => mret ()
  | x :: xs' => body x;; for_each xs' body
  end.

Definition passes {S} (s : S) (t : Test S) : bool :=
  match run t s with Some (Ok _, _) => true | _ => false end.

(** A byte-string literal as Rust writes it: [\r] and [\n] are escapes. *)
Fixpoint unescape (s : bytes) : bytes :=
  match s with
  | x5c :: x72 :: s' => CR :: unescape s'
  | x5c :: x6e :: s' => LF :: unescape s'
  | b :: s' => b :: unescape s'
  | [] => []
  end.
Definition lit (s : string) : bytes := unescape (bstr s).

(** The whole state, for a test to look at. *)
Definition state {S} : prog S Panic S := atomic (fun s => (Ok s, s)).

(** A clock that moves on by a millisecond from each reading to the next, from
    somewhere in 2025. *)
Definition ticking_clock : Clock :=
  mkClock (fun n => (1750000000000 + Z.of_nat n) * 1000000)%Z 0.

(** A test is the same test on a part of a larger state. *)
Lemma passes_zoom {S T} (l : Lens S T) (t : Test T) (s : S) :
  passes s (zoom l t) = passes (view l s) t.
Proof. unfold passes. rewrite run_zoom. by destruct (run t (view l s)) as [[[] ]|]. Qed.
