(* ===== verification/CodecTests.v ===== *)
(** * CodecTests: the unit tests of crlf.rs, time.rs, frame.rs and reply.rs

    One definition per test; a buffer a test writes to is the state it runs on. *)

From S2P Require Import Prelude Effects RustStd Time TestKit Crlf Frame Reply.

Local Open Scope N_scope.

(** Frames and replies are compared, which takes nested recursion. *)
#[export] Instance Frame_eq_dec : EqDecision Frame.
Proof.
  refine (fix go (f g : Frame) : Decision (f = g) :=
    match f, g with
    | BulkString a, BulkString b => cast_if (decide (a = b))
    | Array a, Array b => cast_if (List.list_eq_dec go a b)
    | _, _ => right _
    end); congruence.
Defined.

#[export] Instance Reply_eq_dec : EqDecision Reply.
Proof.
  refine (fix go (f g : Reply) : Decision (f = g) :=
    match f, g with
    | RSimpleString a, RSimpleString b => cast_if (decide (a = b))
    | RSimpleError a, RSimpleError b => cast_if (decide (a = b))
    | RBulkString a, RBulkString b => cast_if (decide (a = b))
    | RNullBulk, RNullBulk => left eq_refl
    | RInteger a, RInteger b => cast_if (decide (a = b))
    | RArray a, RArray b => cast_if (List.list_eq_dec go a b)
    | _, _ => right _
    end); congruence.
Defined.

(** [.unwrap()] on a result, [matches!] on an error, and bulk strings. *)
Definition unwrap_r {S E A} (r : result E A) : prog S Panic A := unwrap (Done r).
Definition is_err {E A} (r : result E A) (p : E -> bool) : bool :=
  match r with Ok _ => false | Err e => p e end.
Abbreviation bulk s := (BulkString (bstr s)).

(** ** crlf.rs *)

Module CrlfTests.

Definition is_clrf_true : Test unit := assert_that (is_crlf (lit "\r\n")).
Definition is_clrf_false : Test unit := assert_that (negb (is_crlf (bstr "abc"))).

Definition split_crlf_some : Test unit :=
  assert_eq (split_crlf (lit "a\r\na")) (Some (bstr "a", bstr "a"));;
  assert_eq (split_crlf (lit "a\r\n")) (Some (bstr "a", []));;
  assert_eq (split_crlf (lit "\r\na")) (Some ([], bstr "a"));;
  assert_eq (split_crlf (lit "\r\n")) (Some ([], [])).

Definition split_crlf_none : Test unit :=
  assert_eq (split_crlf (bstr "a")) None;;
  assert_eq (split_crlf []) None.

Lemma crlf_tests_pass :
  forallb (passes ()) [is_clrf_true; is_clrf_false; split_crlf_some; split_crlf_none] = true.
Proof. vm_compute. reflexivity. Qed.
End CrlfTests.

(** ** time.rs *)

Module TimeTests.

(** [now > t] is that [t] is not at or past [now]. *)
Definition now_is_after (t : N) : Test Clock :=
  n ← unwrap (atomic now);
  assert_that (negb (ms_ge (mkMilliseconds t) n)).

Definition now_is_after_2024 : Test Clock := now_is_after 1704067200000.
Definition now_is_millis_not_secs : Test Clock := now_is_after 1000000000000.

Definition to_seconds_rounds_up : Test Clock :=
  assert_eq (to_seconds_rounded_up (mkMilliseconds 59999)) (mkSeconds 60);;
  assert_eq (to_seconds_rounded_up (mkMilliseconds 60000)) (mkSeconds 60);;
  assert_eq (to_seconds_rounded_up (mkMilliseconds 1)) (mkSeconds 1);;
  assert_eq (to_seconds_rounded_up (mkMilliseconds 0)) (mkSeconds 0).

Definition seconds_convert_to_millis : Test Clock :=
  assert_eq (Milliseconds_from_Seconds (mkSeconds 60)) (mkMilliseconds 60000);;
  assert_eq (Milliseconds_from_Seconds (mkSeconds 0)) (mkMilliseconds 0).

Definition seconds_conversion_saturates : Test Clock :=
  assert_eq (Milliseconds_from_Seconds (mkSeconds u64_max)) (mkMilliseconds u64_max).

Lemma time_tests_pass :
  forallb (passes ticking_clock)
    [now_is_after_2024; now_is_millis_not_secs; to_seconds_rounds_up; seconds_convert_to_millis;
     seconds_conversion_saturates] = true.
Proof. vm_compute. reflexivity. Qed.
End TimeTests.

(** ** frame.rs *)

Module FrameTests.

Definition parse_bulk_string_ok_basic : Test bytes :=
  r ← unwrap_r (parse_bulk_string (lit "foo\r\n") 3);
  assert_eq r (bulk "foo", []).

Definition parse_bulk_string_ok_with_inner_terminator : Test bytes :=
  r ← unwrap_r (parse_bulk_string (lit "foo\r\nbar\r\n") 8);
  assert_eq r (BulkString (lit "foo\r\nbar"), []).

Definition parse_bulk_string_err_missing_terminator : Test bytes :=
  assert_eq (parse_bulk_string (bstr "fooXX") 3) (Err MissingTerminator).

Definition parse_bulk_string_incomplete_while_the_payload_arrives : Test bytes :=
  for_each [[]; bstr "fo"; bstr "foo"; lit "foo\r"] (fun partial =>
    assert_eq (parse_bulk_string partial 3) (Err Incomplete)).

Definition parse_array_ok_basic : Test bytes :=
  r ← unwrap_r (parse_array (lit "$3\r\nfoo\r\n$3\r\nbar\r\nfoo") 2);
  assert_eq r (Array [bulk "foo"; bulk "bar"], bstr "foo").

Definition parse_array_ok_empty : Test bytes :=
  r ← unwrap_r (parse_array [] 0);
  assert_eq r (Array [], []).

Definition parse_one_ok_basic_bulk_string : Test bytes :=
  r ← unwrap_r (parse_one (lit "$3\r\nfoo\r\nbar"));
  assert_eq r (bulk "foo", bstr "bar").

Definition parse_one_ok_basic_array : Test bytes :=
  r ← unwrap_r (parse_one (lit "*2\r\n$3\r\nfoo\r\n$3\r\nbar\r\nfoo"));
  assert_eq r (Array [bulk "foo"; bulk "bar"], bstr "foo").

Definition parse_one_ok_empty_array : Test bytes :=
  r ← unwrap_r (parse_one (lit "*0\r\n"));
  assert_eq r (Array [], []).

Definition parse_one_ok_nested_array : Test bytes :=
  r ← unwrap_r (parse_one (lit "*1\r\n*2\r\n$3\r\nfoo\r\n$3\r\nbar\r\nbaz"));
  assert_eq r (Array [Array [bulk "foo"; bulk "bar"]], bstr "baz").

Definition parse_one_err_incomplete : Test bytes :=
  assert_eq (parse_one (bstr "foo")) (Err Incomplete);;
  assert_eq (parse_one []) (Err Incomplete).

Definition parse_one_err_malformed : Test bytes :=
  assert_eq (parse_one (lit "$\r\n")) (Err Malformed).

Definition parse_one_err_invalid_length : Test bytes :=
  assert_that (is_err (parse_one (bstr "$" ++ [xff; xfe] ++ lit "\r\nbar"))
    (fun e => match e with InvalidLength (PLE_Utf8 _) => true | _ => false end));;
  assert_that (is_err (parse_one (lit "$foo\r\nbar"))
    (fun e => match e with InvalidLength (PLE_ParseInt _) => true | _ => false end)).

Definition parse_one_err_invalid_unknown_sigil : Test bytes :=
  assert_eq (parse_one (lit "?2\r\n")) (Err UnknownSigil).

Definition parse_one_err_invalid_missing_terminator : Test bytes :=
  assert_eq (parse_one (lit "$3\r\nfooXX")) (Err MissingTerminator).

Definition parse_one_incomplete_while_a_bulk_string_arrives : Test bytes :=
  for_each [lit "$4\r\n"; lit "$4\r\nPI"; lit "$4\r\nPING"; lit "$4\r\nPING\r"; lit "*1\r\n$4\r\nPI"]
    (fun partial => assert_eq (parse_one partial) (Err Incomplete)).

Definition write_to_bulk_string : Test bytes :=
  unwrap (atomic (write_to (bulk "foo")));;
  buf ← state;
  assert_eq buf (lit "$3\r\nfoo\r\n").

Definition to_bytes_array : Test bytes :=
  unwrap (atomic (write_to (Array [bulk "foo"; bulk "bar"])));;
  buf ← state;
  assert_eq buf (lit "*2\r\n$3\r\nfoo\r\n$3\r\nbar\r\n").

Lemma frame_tests_pass :
  forallb (passes [])
    [parse_bulk_string_ok_basic; parse_bulk_string_ok_with_inner_terminator;
     parse_bulk_string_err_missing_terminator; parse_bulk_string_incomplete_while_the_payload_arrives;
     parse_array_ok_basic; parse_array_ok_empty; parse_one_ok_basic_bulk_string;
     parse_one_ok_basic_array; parse_one_ok_empty_array; parse_one_ok_nested_array;
     parse_one_err_incomplete; parse_one_err_malformed; parse_one_err_invalid_length;
     parse_one_err_invalid_unknown_sigil; parse_one_err_invalid_missing_terminator;
     parse_one_incomplete_while_a_bulk_string_arrives; write_to_bulk_string; to_bytes_array] = true.
Proof. vm_compute. reflexivity. Qed.
End FrameTests.

(** ** reply.rs *)

Module ReplyTests.

Definition simple_inner_from_bytes_ok : Test bytes :=
  s ← unwrap_r (SimpleInner_try_from (bstr "foo"));
  assert_eq s (mkSimpleInner (bstr "foo")).

Definition simple_inner_from_bytes_err_cr : Test bytes :=
  assert_that (is_err (SimpleInner_try_from (lit "foo\r"))
    (fun e => match e with IncludesCarriageReturn => true | _ => false end)).

Definition simple_inner_from_bytes_err_lf : Test bytes :=
  assert_that (is_err (SimpleInner_try_from (lit "foo\n"))
    (fun e => match e with IncludesLineFeed => true | _ => false end)).

(** Writes the reply to an empty buffer and compares what is in it. *)
Definition writes (r : Reply) (expected : bytes) : Test bytes :=
  unwrap (atomic (Reply_write_to r));;
  buf ← state;
  assert_eq buf expected.

Definition write_to_ok_simple_string : Test bytes :=
  s ← unwrap_r (SimpleInner_try_from (bstr "foo"));
  writes (RSimpleString s) (lit "+foo\r\n").
Definition write_to_ok_simple_error : Test bytes :=
  s ← unwrap_r (SimpleInner_try_from (bstr "foo"));
  writes (RSimpleError s) (lit "-foo\r\n").
Definition write_to_ok_bulk_string : Test bytes :=
  writes (RBulkString (lit "foo\r\nbar")) (lit "$8\r\nfoo\r\nbar\r\n").
Definition write_to_ok_bulk_string_empty : Test bytes := writes (RBulkString []) (lit "$0\r\n\r\n").
Definition write_to_ok_null_bulk : Test bytes := writes RNullBulk (lit "$-1\r\n").
Definition write_to_ok_integer : Test bytes := writes (RInteger 123) (lit ":123\r\n").
Definition write_to_ok_integer_negative : Test bytes := writes (RInteger (-123)) (lit ":-123\r\n").

Definition write_to_array_empty : Test bytes := writes (RArray []) (lit "*0\r\n").

Definition write_to_array_mixed_elements : Test bytes :=
  writes (RArray [RBulkString (bstr "subscribe"); RBulkString (bstr "foo"); RInteger 1])
    (lit "*3\r\n$9\r\nsubscribe\r\n$3\r\nfoo\r\n:1\r\n").

Definition write_to_array_nested : Test bytes :=
  writes (RArray [RArray [RInteger 1]; RInteger 2]) (lit "*2\r\n*1\r\n:1\r\n:2\r\n").

Definition to_bytes_array_matches_write_to : Test bytes :=
  let reply := RArray [RBulkString (bstr "message"); RBulkString (bstr "foo");
                       RBulkString (bstr "bar")] in
  unwrap (atomic (Reply_write_to reply));;
  buf ← state;
  assert_eq (to_bytes reply) buf;;
  assert_eq (to_bytes reply) (lit "*3\r\n$7\r\nmessage\r\n$3\r\nfoo\r\n$3\r\nbar\r\n").

Definition to_bytes_array_empty_matches_write_to : Test bytes :=
  let reply := RArray [] in
  unwrap (atomic (Reply_write_to reply));;
  buf ← state;
  assert_eq (to_bytes reply) buf;;
  assert_eq (to_bytes reply) (lit "*0\r\n").

Definition replies_to_bytes_concatenates_frames_without_wrapper : Test bytes :=
  let replies := mkReplies
    [RArray [RBulkString (bstr "subscribe"); RBulkString (bstr "foo"); RInteger 1];
     RArray [RBulkString (bstr "subscribe"); RBulkString (bstr "bar"); RInteger 2]] in
  assert_eq (Replies_to_bytes replies)
    (lit "*3\r\n$9\r\nsubscribe\r\n$3\r\nfoo\r\n:1\r\n*3\r\n$9\r\nsubscribe\r\n$3\r\nbar\r\n:2\r\n").

Definition replies_to_bytes_empty_is_empty : Test bytes :=
  assert_eq (Replies_to_bytes (mkReplies [])) [].

Definition replies_to_bytes_matches_write_to : Test bytes :=
  let replies := mkReplies [RInteger 1; RInteger 2] in
  unwrap (atomic (Replies_write_to replies));;
  buf ← state;
  assert_eq (Replies_to_bytes replies) buf.

Lemma reply_tests_pass :
  forallb (passes [])
    [simple_inner_from_bytes_ok; simple_inner_from_bytes_err_cr; simple_inner_from_bytes_err_lf;
     write_to_ok_simple_string; write_to_ok_simple_error; write_to_ok_bulk_string;
     write_to_ok_bulk_string_empty; write_to_ok_null_bulk; write_to_ok_integer;
     write_to_ok_integer_negative; write_to_array_empty; write_to_array_mixed_elements;
     write_to_array_nested; to_bytes_array_matches_write_to; to_bytes_array_empty_matches_write_to;
     replies_to_bytes_concatenates_frames_without_wrapper; replies_to_bytes_empty_is_empty;
     replies_to_bytes_matches_write_to] = true.
Proof. vm_compute. reflexivity. Qed.
End ReplyTests.
