(* ===== verification/CommandTests.v ===== *)
(** * CommandTests: the unit tests of command.rs

    Each parses frames, on a clock that moves on with every reading. *)

From S2P Require Import Prelude Effects RustStd Time TestKit Command Frame CommandFrame.

Local Open Scope N_scope.

Abbreviation bulk s := (BulkString (bstr s)).

(** [assert_eq!(Command::try_from(frame).unwrap(), expected)]. *)
Definition parses (frame : Frame) (expected : Command) : Test Clock :=
  cmd ← unwrap (atomic (try_from frame));
  assert_eq cmd expected.

(** [assert!(matches!(Command::try_from(frame), Err(..)))]. *)
Definition refuses (frame : Frame) (pattern : CommandFromFrameError -> bool) : Test Clock :=
  r ← attempt (atomic (try_from frame));
  assert_that (match r with Ok _ => false | Err e => pattern e end).

Definition unexpected_frame (e : CommandFromFrameError) : bool :=
  match e with UnexpectedFrame => true | _ => false end.
Definition unrecognized_command (e : CommandFromFrameError) : bool :=
  match e with CFF_Command UnrecognizedCommand => true | _ => false end.
Definition not_enough_parts (e : CommandFromFrameError) : bool :=
  match e with CFF_Command NotEnoughParts => true | _ => false end.
Definition too_many_parts (e : CommandFromFrameError) : bool :=
  match e with CFF_Command TooManyParts => true | _ => false end.
Definition syntax (e : CommandFromFrameError) : bool :=
  match e with CFF_Command Syntax => true | _ => false end.
Definition utf8 (e : CommandFromFrameError) : bool :=
  match e with CFF_Command (CE_Utf8 _) => true | _ => false end.
Definition parse_int (e : CommandFromFrameError) : bool :=
  match e with CFF_Command (CE_ParseInt _) => true | _ => false end.

(** The deadline is between two readings of the clock, each plus the offset. *)
Definition about (expires_at before after offset : Milliseconds) : Test Clock :=
  let lo := saturating_add before offset in
  let hi := saturating_add after offset in
  assert_that (ms_ge expires_at lo && ms_ge hi expires_at).

Definition assert_deadline_about (cmd : Command) (expected_key : bytes)
    (before after offset : Milliseconds) : Test Clock :=
  match cmd with
  | Cache (CacheWrite (WExpireAt key expires_at)) =>
      assert_eq key expected_key;;
      about expires_at before after offset
  | _ => panic
  end.

(** ** What is accepted *)

Definition try_from_frame_ok_get : Test Clock :=
  parses (Array [bulk "get"; bulk "foo"]) (cmd_get (bstr "foo"));;
  parses (Array [bulk "GET"; bulk "foo"]) (cmd_get (bstr "foo")).

Definition try_from_frame_ok_set : Test Clock :=
  for_each [bstr "set"; bstr "SET"] (fun verb =>
    parses (Array [BulkString verb; bulk "foo"; bulk "value"])
    (cmd_set (bstr "foo") (bstr "value") None)).

Definition try_from_frame_ok_set_absolute_options : Test Clock :=
  for_each [("exat", "1700000000", 1700000000000); ("EXAT", "1700000000", 1700000000000);
            ("pxat", "1700000000123", 1700000000123); ("PXAT", "1700000000123", 1700000000123)]
    (fun '(option, amount, expected) =>
      parses (Array [bulk "set"; bulk "foo"; bulk "value"; bulk option; bulk amount])
        (cmd_set (bstr "foo") (bstr "value") (Some (mkMilliseconds expected)))).

Definition try_from_frame_ok_set_relative_options : Test Clock :=
  for_each [("ex", "60", mkMilliseconds 60000); ("EX", "60", mkMilliseconds 60000);
            ("px", "1500", mkMilliseconds 1500); ("PX", "1500", mkMilliseconds 1500)]
    (fun '(option, amount, offset) =>
      before ← unwrap (atomic now);
      cmd ← unwrap (atomic (try_from
              (Array [bulk "set"; bulk "foo"; bulk "value"; bulk option; bulk amount])));
      after ← unwrap (atomic now);
      match cmd with
      | Cache (CacheWrite (WSet _ _ (Some expires_at))) => about expires_at before after offset
      | _ => panic
      end).

Definition try_from_frame_err_set_option_without_amount : Test Clock :=
  refuses (Array [bulk "set"; bulk "foo"; bulk "value"; bulk "ex"]) not_enough_parts.

Definition try_from_frame_err_set_non_numeric_amount : Test Clock :=
  refuses (Array [bulk "set"; bulk "foo"; bulk "value"; bulk "ex"; bulk "soon"]) parse_int.

Definition try_from_frame_err_set_too_many_parts_after_option : Test Clock :=
  refuses (Array [bulk "set"; bulk "foo"; bulk "value"; bulk "ex"; bulk "60"; bulk "extra"])
    too_many_parts.

Definition try_from_frame_ok_pexpireat_is_taken_verbatim : Test Clock :=
  for_each [bstr "pexpireat"; bstr "PEXPIREAT"] (fun verb =>
    parses (Array [BulkString verb; bulk "foo"; bulk "1700000000123"])
    (cmd_expire_at (bstr "foo") (mkMilliseconds 1700000000123))).

Definition try_from_frame_err_pexpireat_too_many_parts : Test Clock :=
  refuses (Array [bulk "pexpireat"; bulk "foo"; bulk "1700000000123"; bulk "extra"])
    too_many_parts.

Definition try_from_frame_err_expireat_too_many_parts : Test Clock :=
  refuses (Array [bulk "expireat"; bulk "foo"; bulk "1700000000"; bulk "extra"]) too_many_parts.

Definition try_from_frame_ok_del : Test Clock :=
  parses (Array [bulk "del"; bulk "foo"]) (cmd_delete (bstr "foo"));;
  parses (Array [bulk "DEL"; bulk "foo"]) (cmd_delete (bstr "foo")).

Definition try_from_frame_ok_ping_without_message : Test Clock :=
  parses (Array [bulk "ping"]) (cmd_ping None);;
  parses (Array [bulk "PING"]) (cmd_ping None).

Definition try_from_frame_ok_ping_with_message : Test Clock :=
  parses (Array [bulk "ping"; bulk "hello"]) (cmd_ping (Some (bstr "hello"))).

Definition try_from_frame_ok_exists : Test Clock :=
  parses (Array [bulk "exists"; bulk "foo"]) (cmd_exists (bstr "foo"));;
  parses (Array [bulk "EXISTS"; bulk "foo"]) (cmd_exists (bstr "foo")).

Definition try_from_frame_ok_expireat : Test Clock :=
  parses (Array [bulk "expireat"; bulk "foo"; bulk "1700000000"])
    (cmd_expire_at (bstr "foo") (Milliseconds_from_Seconds (mkSeconds 1700000000)));;
  parses (Array [bulk "EXPIREAT"; bulk "foo"; bulk "1700000000"])
    (cmd_expire_at (bstr "foo") (Milliseconds_from_Seconds (mkSeconds 1700000000))).

Definition try_from_frame_ok_expire_normalizes_to_absolute : Test Clock :=
  for_each [bstr "expire"; bstr "EXPIRE"] (fun verb =>
    before ← unwrap (atomic now);
    cmd ← unwrap (atomic (try_from (Array [BulkString verb; bulk "foo"; bulk "60"])));
    after ← unwrap (atomic now);
    assert_deadline_about cmd (bstr "foo") before after (Milliseconds_from_Seconds (mkSeconds 60))).

Definition try_from_frame_ok_ttl : Test Clock :=
  parses (Array [bulk "ttl"; bulk "foo"]) (cmd_ttl (bstr "foo"));;
  parses (Array [bulk "TTL"; bulk "foo"]) (cmd_ttl (bstr "foo")).

Definition try_from_frame_ok_persist : Test Clock :=
  parses (Array [bulk "persist"; bulk "foo"]) (cmd_persist (bstr "foo"));;
  parses (Array [bulk "PERSIST"; bulk "foo"]) (cmd_persist (bstr "foo")).

(** ** Top-level shape *)

Definition try_from_frame_err_empty_array : Test Clock :=
  refuses (Array []) not_enough_parts.

Definition try_from_frame_err_command_value_is_array : Test Clock :=
  refuses (Array [Array [bulk "get"]]) unexpected_frame.

Definition try_from_frame_err_unrecognized_command : Test Clock :=
  refuses (Array [bulk "foo"]) unrecognized_command.

Definition try_from_frame_err_unexpected_value : Test Clock :=
  refuses (Array [bulk "get"; Array [bulk "foo"]]) unexpected_frame;;
  refuses (bulk "get") unexpected_frame.

(** ** GET, SET, DEL, EXISTS, PING *)

Definition try_from_frame_err_get_too_many_parts : Test Clock :=
  refuses (Array [bulk "get"; bulk "foo"; bulk "foo"]) too_many_parts.

Definition try_from_frame_err_get_not_enough_parts : Test Clock :=
  refuses (Array [bulk "get"]) not_enough_parts.

Definition try_from_frame_err_get_unexpected_frame_key : Test Clock :=
  refuses (Array [bulk "get"; Array []]) unexpected_frame.

Definition try_from_frame_err_set_unknown_option : Test Clock :=
  refuses (Array [bulk "set"; bulk "foo"; bulk "value"; bulk "value"]) syntax.

Definition try_from_frame_err_set_not_enough_parts : Test Clock :=
  refuses (Array [bulk "set"]) not_enough_parts;;
  refuses (Array [bulk "set"; bulk "foo"]) not_enough_parts.

Definition try_from_frame_err_set_unexpected_frame_key : Test Clock :=
  refuses (Array [bulk "set"; Array []; bulk "value"]) unexpected_frame.

Definition try_from_frame_err_set_unexpected_frame_value : Test Clock :=
  refuses (Array [bulk "set"; bulk "foo"; Array []]) unexpected_frame.

Definition try_from_frame_err_del_too_many_parts : Test Clock :=
  refuses (Array [bulk "del"; bulk "foo"; bulk "foo"]) too_many_parts.

Definition try_from_frame_err_del_not_enough_parts : Test Clock :=
  refuses (Array [bulk "del"]) not_enough_parts.

Definition try_from_frame_err_del_unexpected_frame_key : Test Clock :=
  refuses (Array [bulk "del"; Array []]) unexpected_frame.

Definition try_from_frame_err_exists_too_many_parts : Test Clock :=
  refuses (Array [bulk "exists"; bulk "foo"; bulk "foo"]) too_many_parts.

Definition try_from_frame_err_exists_not_enough_parts : Test Clock :=
  refuses (Array [bulk "exists"]) not_enough_parts.

Definition try_from_frame_err_exists_unexpected_frame_key : Test Clock :=
  refuses (Array [bulk "exists"; Array []]) unexpected_frame.

Definition try_from_frame_err_ping_too_many_parts : Test Clock :=
  refuses (Array [bulk "ping"; bulk "hello"; bulk "world"]) too_many_parts.

Definition try_from_frame_err_ping_unexpected_frame_message : Test Clock :=
  refuses (Array [bulk "ping"; Array []]) unexpected_frame.

(** ** EXPIRE, EXPIREAT, TTL, PERSIST *)

Definition try_from_frame_err_expire_not_enough_parts_zero_args : Test Clock :=
  refuses (Array [bulk "expire"]) not_enough_parts.

Definition try_from_frame_err_expire_not_enough_parts_one_arg : Test Clock :=
  refuses (Array [bulk "expire"; bulk "foo"]) not_enough_parts.

Definition try_from_frame_err_expire_unexpected_frame_key : Test Clock :=
  refuses (Array [bulk "expire"; Array []; bulk "123"]) unexpected_frame.

Definition try_from_frame_err_expire_unexpected_frame_ttl : Test Clock :=
  refuses (Array [bulk "expire"; bulk "foo"; Array []]) unexpected_frame.

Definition try_from_frame_err_expire_ttl_invalid_utf8 : Test Clock :=
  refuses (Array [bulk "expire"; bulk "foo"; BulkString [xff; xfe]]) utf8.

Definition try_from_frame_err_expire_ttl_not_a_number : Test Clock :=
  refuses (Array [bulk "expire"; bulk "foo"; bulk "abc"]) parse_int.

Definition try_from_frame_err_expire_too_many_parts : Test Clock :=
  refuses (Array [bulk "expire"; bulk "foo"; bulk "60"; bulk "extra"]) too_many_parts.

Definition try_from_frame_err_expire_ttl_negative : Test Clock :=
  refuses (Array [bulk "expire"; bulk "foo"; bulk "-1"]) parse_int.

Definition try_from_frame_err_expireat_not_enough_parts_zero_args : Test Clock :=
  refuses (Array [bulk "expireat"]) not_enough_parts.

Definition try_from_frame_err_expireat_not_enough_parts_one_arg : Test Clock :=
  refuses (Array [bulk "expireat"; bulk "foo"]) not_enough_parts.

Definition try_from_frame_err_expireat_unexpected_frame_key : Test Clock :=
  refuses (Array [bulk "expireat"; Array []; bulk "1700000000"]) unexpected_frame.

Definition try_from_frame_err_expireat_unexpected_frame_ttl : Test Clock :=
  refuses (Array [bulk "expireat"; bulk "foo"; Array []]) unexpected_frame.

Definition try_from_frame_err_expireat_ttl_invalid_utf8 : Test Clock :=
  refuses (Array [bulk "expireat"; bulk "foo"; BulkString [xff; xfe]]) utf8.

Definition try_from_frame_err_expireat_ttl_not_a_number : Test Clock :=
  refuses (Array [bulk "expireat"; bulk "foo"; bulk "abc"]) parse_int.

Definition try_from_frame_err_expireat_ttl_negative : Test Clock :=
  refuses (Array [bulk "expireat"; bulk "foo"; bulk "-1"]) parse_int.

Definition try_from_frame_err_ttl_too_many_parts : Test Clock :=
  refuses (Array [bulk "ttl"; bulk "foo"; bulk "bar"]) too_many_parts.

Definition try_from_frame_err_ttl_not_enough_parts : Test Clock :=
  refuses (Array [bulk "ttl"]) not_enough_parts.

Definition try_from_frame_err_ttl_unexpected_frame_key : Test Clock :=
  refuses (Array [bulk "ttl"; Array []]) unexpected_frame.

Definition try_from_frame_err_persist_too_many_parts : Test Clock :=
  refuses (Array [bulk "persist"; bulk "foo"; bulk "bar"]) too_many_parts.

Definition try_from_frame_err_persist_not_enough_parts : Test Clock :=
  refuses (Array [bulk "persist"]) not_enough_parts.

Definition try_from_frame_err_persist_unexpected_frame_key : Test Clock :=
  refuses (Array [bulk "persist"; Array []]) unexpected_frame.

(** ** SUBSCRIBE, UNSUBSCRIBE, PUBLISH *)

Definition try_from_frame_ok_subscribe_single : Test Clock :=
  parses (Array [bulk "subscribe"; bulk "foo"]) (cmd_subscribe [bstr "foo"]).

Definition try_from_frame_ok_subscribe_multiple : Test Clock :=
  parses (Array [bulk "SUBSCRIBE"; bulk "foo"; bulk "bar"])
    (cmd_subscribe [bstr "foo"; bstr "bar"]).

Definition try_from_frame_err_subscribe_no_channels : Test Clock :=
  refuses (Array [bulk "subscribe"]) not_enough_parts.

Definition try_from_frame_err_subscribe_non_bulk_channel : Test Clock :=
  refuses (Array [bulk "subscribe"; Array []]) unexpected_frame.

Definition try_from_frame_ok_unsubscribe_single : Test Clock :=
  parses (Array [bulk "unsubscribe"; bulk "foo"]) (cmd_unsubscribe [bstr "foo"]).

Definition try_from_frame_ok_unsubscribe_no_channels : Test Clock :=
  parses (Array [bulk "unsubscribe"]) (cmd_unsubscribe []).

Definition try_from_frame_err_unsubscribe_non_bulk_channel : Test Clock :=
  refuses (Array [bulk "unsubscribe"; Array []]) unexpected_frame.

Definition try_from_frame_ok_publish : Test Clock :=
  parses (Array [bulk "publish"; bulk "foo"; bulk "bar"]) (cmd_publish (bstr "foo") (bstr "bar")).

Definition try_from_frame_err_publish_not_enough_parts : Test Clock :=
  refuses (Array [bulk "publish"; bulk "foo"]) not_enough_parts.

Definition try_from_frame_err_publish_too_many_parts : Test Clock :=
  refuses (Array [bulk "publish"; bulk "foo"; bulk "bar"; bulk "baz"]) too_many_parts.

Definition try_from_frame_err_publish_non_bulk_arg : Test Clock :=
  refuses (Array [bulk "publish"; Array []; bulk "bar"]) unexpected_frame.

(** ** All of them *)

Definition command_tests : list (Test Clock) :=
    [try_from_frame_ok_get; try_from_frame_ok_set; try_from_frame_ok_set_absolute_options;
     try_from_frame_ok_set_relative_options; try_from_frame_err_set_option_without_amount;
     try_from_frame_err_set_non_numeric_amount;
     try_from_frame_err_set_too_many_parts_after_option;
     try_from_frame_ok_pexpireat_is_taken_verbatim; try_from_frame_err_pexpireat_too_many_parts;
     try_from_frame_err_expireat_too_many_parts; try_from_frame_ok_del;
     try_from_frame_ok_ping_without_message; try_from_frame_ok_ping_with_message;
     try_from_frame_ok_exists; try_from_frame_ok_expireat;
     try_from_frame_ok_expire_normalizes_to_absolute; try_from_frame_ok_ttl;
     try_from_frame_ok_persist; try_from_frame_err_empty_array;
     try_from_frame_err_command_value_is_array; try_from_frame_err_unrecognized_command;
     try_from_frame_err_unexpected_value; try_from_frame_err_get_too_many_parts;
     try_from_frame_err_get_not_enough_parts; try_from_frame_err_get_unexpected_frame_key;
     try_from_frame_err_set_unknown_option; try_from_frame_err_set_not_enough_parts;
     try_from_frame_err_set_unexpected_frame_key; try_from_frame_err_set_unexpected_frame_value;
     try_from_frame_err_del_too_many_parts; try_from_frame_err_del_not_enough_parts;
     try_from_frame_err_del_unexpected_frame_key; try_from_frame_err_exists_too_many_parts;
     try_from_frame_err_exists_not_enough_parts; try_from_frame_err_exists_unexpected_frame_key;
     try_from_frame_err_ping_too_many_parts; try_from_frame_err_ping_unexpected_frame_message;
     try_from_frame_err_expire_not_enough_parts_zero_args;
     try_from_frame_err_expire_not_enough_parts_one_arg;
     try_from_frame_err_expire_unexpected_frame_key;
     try_from_frame_err_expire_unexpected_frame_ttl; try_from_frame_err_expire_ttl_invalid_utf8;
     try_from_frame_err_expire_ttl_not_a_number; try_from_frame_err_expire_too_many_parts;
     try_from_frame_err_expire_ttl_negative;
     try_from_frame_err_expireat_not_enough_parts_zero_args;
     try_from_frame_err_expireat_not_enough_parts_one_arg;
     try_from_frame_err_expireat_unexpected_frame_key;
     try_from_frame_err_expireat_unexpected_frame_ttl;
     try_from_frame_err_expireat_ttl_invalid_utf8; try_from_frame_err_expireat_ttl_not_a_number;
     try_from_frame_err_expireat_ttl_negative; try_from_frame_err_ttl_too_many_parts;
     try_from_frame_err_ttl_not_enough_parts; try_from_frame_err_ttl_unexpected_frame_key;
     try_from_frame_err_persist_too_many_parts; try_from_frame_err_persist_not_enough_parts;
     try_from_frame_err_persist_unexpected_frame_key; try_from_frame_ok_subscribe_single;
     try_from_frame_ok_subscribe_multiple; try_from_frame_err_subscribe_no_channels;
     try_from_frame_err_subscribe_non_bulk_channel; try_from_frame_ok_unsubscribe_single;
     try_from_frame_ok_unsubscribe_no_channels; try_from_frame_err_unsubscribe_non_bulk_channel;
     try_from_frame_ok_publish; try_from_frame_err_publish_not_enough_parts;
     try_from_frame_err_publish_too_many_parts; try_from_frame_err_publish_non_bulk_arg].

Lemma command_tests_pass : forallb (passes ticking_clock) command_tests = true.
Proof. vm_compute. reflexivity. Qed.
