(* ===== verification/CacheTests.v ===== *)
(** * CacheTests: the unit tests of cache.rs

    Each runs on a cache of its own, on a clock that moves on with every reading. *)

From S2P Require Import Prelude Effects RustStd Time TestKit Command Cache.

Local Open Scope N_scope.

(** ** Helpers *)

Definition now : prog CacheState Panic Milliseconds := unwrap KvStore.now_p.

(** A deadline [secs] from now. *)
Definition in_secs (secs : N) : prog CacheState Panic Milliseconds :=
  n ← now;
  mret (saturating_add n (Milliseconds_from_Seconds (mkSeconds secs))).

(** ** Entry *)

Definition entry_constructor_without_ttl : Test CacheState :=
  assert_eq (mkEntry (bstr "foo") None)
    {| entry_value := bstr "foo"; entry_expires_at := None |}.

Definition entry_constructor_with_ttl : Test CacheState :=
  assert_eq (mkEntry (bstr "foo") (Some (mkMilliseconds 123)))
    {| entry_value := bstr "foo"; entry_expires_at := (Some (mkMilliseconds 123)) |}.

(** ** [get] *)

Definition get_miss_returns_none : Test CacheState :=
  r ← unwrap (KvStore.get (bstr "missing"));
  assert_eq r None.

Definition get_hit_no_ttl_returns_entry : Test CacheState :=
  unwrap (KvStore.insert (bstr "foo") (mkEntry (bstr "bar") None));;
  r ← unwrap (KvStore.get (bstr "foo"));
  assert_eq r (Some (mkEntry (bstr "bar") None)).

Definition get_hit_future_ttl_returns_entry : Test CacheState :=
  future ← in_secs 3600;
  unwrap (KvStore.insert (bstr "foo") (mkEntry (bstr "bar") (Some future)));;
  r ← unwrap (KvStore.get (bstr "foo"));
  assert_eq r (Some (mkEntry (bstr "bar") (Some future))).

Definition get_hit_expired_returns_none_and_removes : Test CacheState :=
  unwrap (KvStore.insert (bstr "foo") (mkEntry (bstr "bar") (Some (mkMilliseconds 1))));;
  r ← unwrap (KvStore.get (bstr "foo"));
  assert_eq r None;;
  r ← unwrap (KvStore.contains (bstr "foo"));
  assert_that (negb r).

Definition get_hit_at_exact_expiry_returns_none : Test CacheState :=
  t ← now;
  unwrap (KvStore.insert (bstr "foo") (mkEntry (bstr "bar") (Some t)));;
  r ← unwrap (KvStore.get (bstr "foo"));
  assert_eq r None.

(** ** [insert] *)

Definition insert_new_returns_none : Test CacheState :=
  r ← unwrap (KvStore.insert (bstr "foo") (mkEntry (bstr "bar") None));
  assert_eq r None.

Definition insert_existing_returns_old_entry : Test CacheState :=
  unwrap (KvStore.insert (bstr "foo") (mkEntry (bstr "old") None));;
  r ← unwrap (KvStore.insert (bstr "foo") (mkEntry (bstr "new") None));
  assert_eq r (Some (mkEntry (bstr "old") None)).

Definition insert_replaces_value_and_ttl : Test CacheState :=
  deadline ← in_secs 100;
  unwrap (KvStore.insert (bstr "foo") (mkEntry (bstr "old") (Some deadline)));;
  unwrap (KvStore.insert (bstr "foo") (mkEntry (bstr "new") None));;
  r ← unwrap (KvStore.get (bstr "foo"));
  assert_eq r (Some (mkEntry (bstr "new") None)).

(** ** [remove] *)

Definition remove_hit_returns_entry : Test CacheState :=
  unwrap (KvStore.insert (bstr "foo") (mkEntry (bstr "bar") None));;
  r ← unwrap (KvStore.remove (bstr "foo"));
  assert_eq r (Some (mkEntry (bstr "bar") None)).

Definition remove_miss_returns_none : Test CacheState :=
  r ← unwrap (KvStore.remove (bstr "missing"));
  assert_eq r None.

Definition remove_actually_removes : Test CacheState :=
  unwrap (KvStore.insert (bstr "foo") (mkEntry (bstr "bar") None));;
  unwrap (KvStore.remove (bstr "foo"));;
  r ← unwrap (KvStore.get (bstr "foo"));
  assert_eq r None.

(** ** [contains] *)

Definition contains_miss_returns_false : Test CacheState :=
  r ← unwrap (KvStore.contains (bstr "missing"));
  assert_that (negb r).

Definition contains_hit_no_ttl_returns_true : Test CacheState :=
  unwrap (KvStore.insert (bstr "foo") (mkEntry (bstr "bar") None));;
  r ← unwrap (KvStore.contains (bstr "foo"));
  assert_that r.

Definition contains_hit_future_ttl_returns_true : Test CacheState :=
  deadline ← in_secs 3600;
  unwrap (KvStore.insert (bstr "foo") (mkEntry (bstr "bar") (Some deadline)));;
  r ← unwrap (KvStore.contains (bstr "foo"));
  assert_that r.

Definition contains_hit_expired_returns_false_and_removes : Test CacheState :=
  unwrap (KvStore.insert (bstr "foo") (mkEntry (bstr "bar") (Some (mkMilliseconds 1))));;
  r ← unwrap (KvStore.contains (bstr "foo"));
  assert_that (negb r);;
  r ← unwrap (KvStore.get (bstr "foo"));
  assert_eq r None.

(** ** [set_expires_at] *)

Definition set_expires_at_existing_key_future_returns_true_and_sets : Test CacheState :=
  unwrap (KvStore.insert (bstr "foo") (mkEntry (bstr "bar") None));;
  future ← in_secs 3600;
  r ← unwrap (KvStore.set_expires_at (bstr "foo") future);
  assert_that r;;
  r ← unwrap (KvStore.get (bstr "foo"));
  assert_eq r (Some (mkEntry (bstr "bar") (Some future))).

Definition set_expires_at_missing_key_future_returns_false : Test CacheState :=
  deadline ← in_secs 3600;
  r ← unwrap (KvStore.set_expires_at (bstr "missing") deadline);
  assert_that (negb r).

Definition set_expires_at_past_existing_key_removes_and_returns_true : Test CacheState :=
  unwrap (KvStore.insert (bstr "foo") (mkEntry (bstr "bar") None));;
  r ← unwrap (KvStore.set_expires_at (bstr "foo") (mkMilliseconds 0));
  assert_that r;;
  r ← unwrap (KvStore.get (bstr "foo"));
  assert_eq r None.

Definition set_expires_at_past_missing_key_returns_false : Test CacheState :=
  r ← unwrap (KvStore.set_expires_at (bstr "missing") (mkMilliseconds 0));
  assert_that (negb r).

Definition set_expires_at_overwrites_existing_ttl : Test CacheState :=
  deadline ← in_secs 100;
  unwrap (KvStore.insert (bstr "foo") (mkEntry (bstr "bar") (Some deadline)));;
  new_ttl ← in_secs 7200;
  r ← unwrap (KvStore.set_expires_at (bstr "foo") new_ttl);
  assert_that r;;
  r ← unwrap (KvStore.expires_at (bstr "foo"));
  assert_eq r (Some (Some new_ttl)).

(** ** [expires_at] *)

Definition get_expires_at_missing_key_returns_none : Test CacheState :=
  r ← unwrap (KvStore.expires_at (bstr "missing"));
  assert_eq r None.

Definition get_expires_at_no_ttl_returns_some_none : Test CacheState :=
  unwrap (KvStore.insert (bstr "foo") (mkEntry (bstr "bar") None));;
  r ← unwrap (KvStore.expires_at (bstr "foo"));
  assert_eq r (Some None).

Definition get_expires_at_future_returns_some_some_timestamp : Test CacheState :=
  future ← in_secs 3600;
  unwrap (KvStore.insert (bstr "foo") (mkEntry (bstr "bar") (Some future)));;
  r ← unwrap (KvStore.expires_at (bstr "foo"));
  assert_eq r (Some (Some future)).

Definition get_expires_at_expired_removes_and_returns_none : Test CacheState :=
  unwrap (KvStore.insert (bstr "foo") (mkEntry (bstr "bar") (Some (mkMilliseconds 1))));;
  r ← unwrap (KvStore.expires_at (bstr "foo"));
  assert_eq r None;;
  r ← unwrap (KvStore.contains (bstr "foo"));
  assert_that (negb r).

(** ** [time_to_live] *)

Definition time_to_live_missing_key_returns_none : Test CacheState :=
  r ← unwrap (KvStore.time_to_live (bstr "missing"));
  assert_eq r None.

Definition time_to_live_no_ttl_returns_some_none : Test CacheState :=
  unwrap (KvStore.insert (bstr "foo") (mkEntry (bstr "bar") None));;
  r ← unwrap (KvStore.time_to_live (bstr "foo"));
  assert_eq r (Some None).

Definition time_to_live_future_returns_remaining_millis : Test CacheState :=
  future ← in_secs 3600;
  unwrap (KvStore.insert (bstr "foo") (mkEntry (bstr "bar") (Some future)));;
  r ← unwrap (KvStore.time_to_live (bstr "foo"));
  match r with
  | Some (Some remaining) =>
      assert_that ((3590000 <=? millis remaining) && (millis remaining <=? 3600000))
  | _ => panic
  end.

Definition time_to_live_expired_returns_none : Test CacheState :=
  unwrap (KvStore.insert (bstr "foo") (mkEntry (bstr "bar") (Some (mkMilliseconds 1))));;
  r ← unwrap (KvStore.time_to_live (bstr "foo"));
  assert_eq r None.

(** ** [remove_ttl] *)

Definition remove_ttl_had_ttl_returns_true_and_clears : Test CacheState :=
  deadline ← in_secs 100;
  unwrap (KvStore.insert (bstr "foo") (mkEntry (bstr "bar") (Some deadline)));;
  r ← unwrap (KvStore.remove_ttl (bstr "foo"));
  assert_that r;;
  r ← unwrap (KvStore.expires_at (bstr "foo"));
  assert_eq r (Some None).

Definition remove_ttl_on_an_expired_key_drops_it_instead_of_reviving_it : Test CacheState :=
  unwrap (KvStore.insert (bstr "foo") (mkEntry (bstr "bar") (Some (mkMilliseconds 1))));;
  r ← unwrap (KvStore.remove_ttl (bstr "foo"));
  assert_that (negb r);;
  guard ← unwrap (locked innerL CacheMutexPoisoned (guard_get innerL));
  assert_eq (size guard) 0%nat;;
  r ← unwrap (KvStore.get (bstr "foo"));
  assert_eq r None.

Definition remove_ttl_no_ttl_returns_false : Test CacheState :=
  unwrap (KvStore.insert (bstr "foo") (mkEntry (bstr "bar") None));;
  r ← unwrap (KvStore.remove_ttl (bstr "foo"));
  assert_that (negb r).

Definition remove_ttl_missing_key_returns_false : Test CacheState :=
  r ← unwrap (KvStore.remove_ttl (bstr "missing"));
  assert_that (negb r).

Definition remove_ttl_keeps_value_intact : Test CacheState :=
  deadline ← in_secs 100;
  unwrap (KvStore.insert (bstr "foo") (mkEntry (bstr "bar") (Some deadline)));;
  unwrap (KvStore.remove_ttl (bstr "foo"));;
  r ← unwrap (KvStore.get (bstr "foo"));
  assert_eq r (Some (mkEntry (bstr "bar") None)).

(** ** [remove_expired] *)

Definition remove_expired_empty_returns_zero : Test CacheState :=
  r ← unwrap KvStore.remove_expired;
  assert_eq r 0.

Definition remove_expired_drops_expired_keys : Test CacheState :=
  unwrap (KvStore.insert (bstr "a") (mkEntry (bstr "v") (Some (mkMilliseconds 1))));;
  unwrap (KvStore.insert (bstr "b") (mkEntry (bstr "v") (Some (mkMilliseconds 1))));;
  r ← unwrap KvStore.remove_expired;
  assert_eq r 2;;
  r ← unwrap (KvStore.contains (bstr "a"));
  assert_that (negb r);;
  r ← unwrap (KvStore.contains (bstr "b"));
  assert_that (negb r).

Definition remove_expired_keeps_future_keys : Test CacheState :=
  deadline ← in_secs 3600;
  unwrap (KvStore.insert (bstr "a") (mkEntry (bstr "v") (Some deadline)));;
  r ← unwrap KvStore.remove_expired;
  assert_eq r 0;;
  r ← unwrap (KvStore.contains (bstr "a"));
  assert_that r.

Definition remove_expired_keeps_no_ttl_keys : Test CacheState :=
  unwrap (KvStore.insert (bstr "a") (mkEntry (bstr "v") None));;
  r ← unwrap KvStore.remove_expired;
  assert_eq r 0;;
  r ← unwrap (KvStore.contains (bstr "a"));
  assert_that r.

(** ** [execute] *)

(** The commands, as the tests make them. *)
Definition get (key : bytes) : CacheCommand := CacheRead (RGet key).
Definition delete (key : bytes) : CacheCommand := CacheWrite (WDelete key).
Definition exists_ (key : bytes) : CacheCommand := CacheRead (RExists key).
Definition expire_at (key : bytes) (expires_at : Milliseconds) : CacheCommand :=
  CacheWrite (WExpireAt key expires_at).
Definition ttl (key : bytes) : CacheCommand := CacheRead (RTtl key).
Definition persist (key : bytes) : CacheCommand := CacheWrite (WPersist key).

Definition execute_get_miss_returns_value_none : Test CacheState :=
  r ← unwrap (KvStore.execute (get (bstr "missing")));
  assert_eq r (CoValue None).

Definition execute_get_hit_returns_value_some : Test CacheState :=
  unwrap (KvStore.insert (bstr "foo") (mkEntry (bstr "bar") None));;
  r ← unwrap (KvStore.execute (get (bstr "foo")));
  match r with
  | CoValue (Some v) => assert_eq v (bstr "bar")
  | _ => panic
  end.

Definition execute_get_expired_returns_value_none : Test CacheState :=
  unwrap (KvStore.insert (bstr "foo") (mkEntry (bstr "bar") (Some (mkMilliseconds 1))));;
  r ← unwrap (KvStore.execute (get (bstr "foo")));
  assert_eq r (CoValue None).

Definition execute_delete_hit_returns_bool_true : Test CacheState :=
  unwrap (KvStore.insert (bstr "foo") (mkEntry (bstr "bar") None));;
  r ← unwrap (KvStore.execute (delete (bstr "foo")));
  assert_eq r (CoBool true);;
  r ← unwrap (KvStore.contains (bstr "foo"));
  assert_that (negb r).

Definition execute_delete_miss_returns_bool_false : Test CacheState :=
  r ← unwrap (KvStore.execute (delete (bstr "missing")));
  assert_eq r (CoBool false).

Definition execute_exists_hit_returns_integer_one : Test CacheState :=
  unwrap (KvStore.insert (bstr "foo") (mkEntry (bstr "bar") None));;
  r ← unwrap (KvStore.execute (exists_ (bstr "foo")));
  assert_eq r (CoInteger 1).

Definition execute_exists_miss_returns_integer_zero : Test CacheState :=
  r ← unwrap (KvStore.execute (exists_ (bstr "missing")));
  assert_eq r (CoInteger 0).

Definition execute_expire_at_existing_returns_bool_true : Test CacheState :=
  unwrap (KvStore.insert (bstr "foo") (mkEntry (bstr "bar") None));;
  deadline ← in_secs 3600;
  r ← unwrap (KvStore.execute (expire_at (bstr "foo") deadline));
  assert_eq r (CoBool true).

Definition execute_expire_at_missing_returns_bool_false : Test CacheState :=
  deadline ← in_secs 3600;
  r ← unwrap (KvStore.execute (expire_at (bstr "missing") deadline));
  assert_eq r (CoBool false).

Definition execute_ttl_missing_returns_key_not_found : Test CacheState :=
  r ← unwrap (KvStore.execute (ttl (bstr "missing")));
  assert_eq r (CoTtl KeyNotFound).

Definition execute_ttl_no_ttl_returns_ttl_not_found : Test CacheState :=
  unwrap (KvStore.insert (bstr "foo") (mkEntry (bstr "bar") None));;
  r ← unwrap (KvStore.execute (ttl (bstr "foo")));
  assert_eq r (CoTtl TtlNotFound).

Definition execute_ttl_with_ttl_returns_ttl_some : Test CacheState :=
  deadline ← in_secs 3600;
  unwrap (KvStore.insert (bstr "foo") (mkEntry (bstr "bar") (Some deadline)));;
  r ← unwrap (KvStore.execute (ttl (bstr "foo")));
  match r with
  | CoTtl (TtlSome t) => assert_that ((3590 <=? secs t) && (secs t <=? 3600))
  | _ => panic
  end.

Definition execute_persist_had_ttl_returns_bool_true : Test CacheState :=
  deadline ← in_secs 3600;
  unwrap (KvStore.insert (bstr "foo") (mkEntry (bstr "bar") (Some deadline)));;
  r ← unwrap (KvStore.execute (persist (bstr "foo")));
  assert_eq r (CoBool true).

Definition execute_persist_no_ttl_returns_bool_false : Test CacheState :=
  unwrap (KvStore.insert (bstr "foo") (mkEntry (bstr "bar") None));;
  r ← unwrap (KvStore.execute (persist (bstr "foo")));
  assert_eq r (CoBool false).

Definition execute_persist_missing_returns_bool_false : Test CacheState :=
  r ← unwrap (KvStore.execute (persist (bstr "missing")));
  assert_eq r (CoBool false).

Definition remove_expired_mixed : Test CacheState :=
  unwrap (KvStore.insert (bstr "expired_a") (mkEntry (bstr "v") (Some (mkMilliseconds 1))));;
  unwrap (KvStore.insert (bstr "expired_b") (mkEntry (bstr "v") (Some (mkMilliseconds 1))));;
  deadline ← in_secs 3600;
  unwrap (KvStore.insert (bstr "future") (mkEntry (bstr "v") (Some deadline)));;
  unwrap (KvStore.insert (bstr "no_ttl") (mkEntry (bstr "v") None));;
  r ← unwrap KvStore.remove_expired;
  assert_eq r 2;;
  r ← unwrap (KvStore.contains (bstr "expired_a"));
  assert_that (negb r);;
  r ← unwrap (KvStore.contains (bstr "expired_b"));
  assert_that (negb r);;
  r ← unwrap (KvStore.contains (bstr "future"));
  assert_that r;;
  r ← unwrap (KvStore.contains (bstr "no_ttl"));
  assert_that r.

(** ** All of them *)

Definition cache_tests : list (Test CacheState) :=
  [entry_constructor_without_ttl; entry_constructor_with_ttl; get_miss_returns_none;
   get_hit_no_ttl_returns_entry; get_hit_future_ttl_returns_entry;
   get_hit_expired_returns_none_and_removes; get_hit_at_exact_expiry_returns_none;
   insert_new_returns_none; insert_existing_returns_old_entry; insert_replaces_value_and_ttl;
   remove_hit_returns_entry; remove_miss_returns_none; remove_actually_removes;
   contains_miss_returns_false; contains_hit_no_ttl_returns_true;
   contains_hit_future_ttl_returns_true; contains_hit_expired_returns_false_and_removes;
   set_expires_at_existing_key_future_returns_true_and_sets;
   set_expires_at_missing_key_future_returns_false;
   set_expires_at_past_existing_key_removes_and_returns_true;
   set_expires_at_past_missing_key_returns_false; set_expires_at_overwrites_existing_ttl;
   get_expires_at_missing_key_returns_none; get_expires_at_no_ttl_returns_some_none;
   get_expires_at_future_returns_some_some_timestamp;
   get_expires_at_expired_removes_and_returns_none; time_to_live_missing_key_returns_none;
   time_to_live_no_ttl_returns_some_none; time_to_live_future_returns_remaining_millis;
   time_to_live_expired_returns_none; remove_ttl_had_ttl_returns_true_and_clears;
   remove_ttl_on_an_expired_key_drops_it_instead_of_reviving_it;
   remove_ttl_no_ttl_returns_false; remove_ttl_missing_key_returns_false;
   remove_ttl_keeps_value_intact; remove_expired_empty_returns_zero;
   remove_expired_drops_expired_keys; remove_expired_keeps_future_keys;
   remove_expired_keeps_no_ttl_keys; execute_get_miss_returns_value_none;
   execute_get_hit_returns_value_some; execute_get_expired_returns_value_none;
   execute_delete_hit_returns_bool_true; execute_delete_miss_returns_bool_false;
   execute_exists_hit_returns_integer_one; execute_exists_miss_returns_integer_zero;
   execute_expire_at_existing_returns_bool_true; execute_expire_at_missing_returns_bool_false;
   execute_ttl_missing_returns_key_not_found; execute_ttl_no_ttl_returns_ttl_not_found;
   execute_ttl_with_ttl_returns_ttl_some; execute_persist_had_ttl_returns_bool_true;
   execute_persist_no_ttl_returns_bool_false; execute_persist_missing_returns_bool_false;
   remove_expired_mixed].

Lemma cache_tests_pass : forallb (passes (cache_new ticking_clock ∅)) cache_tests = true.
Proof. vm_compute. reflexivity. Qed.
