(* ===== verification/ServiceTests.v ===== *)
(** * ServiceTests: the unit tests of executor.rs and channels.rs

    The executor's run on the recording repository of test_support.rs; the cache and
    the repository a test keeps a handle to are parts of the executor's state.  The
    registry's run with [map_to_list] for the order in which a channel's subscribers
    are visited. *)

From S2P Require Import Prelude Effects RustStd Time TestKit.
From S2P Require Import Command Cache Mpsc Channels Ports Executor.

Local Open Scope N_scope.

(** ** executor.rs *)

Module ExecutorTests.

Abbreviation Build := (Executor Recording.RecordingRepo).
Abbreviation T A := (prog Build Panic A).

Definition build : Build :=
  mkExecutor (cache_new ticking_clock ∅) (Recording.mkRecordingRepo (mutex_new [])).

(** The handles: the service, the cache, and [repo.appended.lock().unwrap()]. *)
Definition svc_execute (c : CacheCommand) : T CommandOutcome := unwrap (execute c).
Definition svc_execute_logged (c : CacheCommand) : T CommandOutcome := unwrap (execute_logged c).
Definition on_cache {E A} (p : prog CacheState E A) : T A := unwrap (zoom cacheL p).
Definition log : T (list WriteCommand) :=
  unwrap (zoom repoL (locked Recording.appendedL tt (guard_get Recording.appendedL))).

(** [Milliseconds::now().unwrap().saturating_add(Milliseconds::new(60_000))]. *)
Definition in_a_minute : T Milliseconds :=
  n ← on_cache KvStore.now_p;
  mret (saturating_add n (mkMilliseconds 60000)).

Abbreviation set k v d := (CacheWrite (WSet (bstr k) (bstr v) d)).

Definition execute_get_miss_returns_value_none : Test Build :=
  r ← svc_execute (CacheRead (RGet (bstr "missing")));
  assert_eq r (CoValue None).

Definition execute_set_writes_to_cache : Test Build :=
  svc_execute (set "foo" "bar" None);;
  r ← on_cache (KvStore.get (bstr "foo"));
  assert_eq r (Some (mkEntry (bstr "bar") None)).

Definition execute_set_with_deadline_writes_it_through : Test Build :=
  deadline ← in_a_minute;
  svc_execute (set "foo" "bar" (Some deadline));;
  r ← on_cache (KvStore.expires_at (bstr "foo"));
  assert_eq r (Some (Some deadline)).

Definition execute_plain_set_clears_an_existing_ttl : Test Build :=
  deadline ← in_a_minute;
  on_cache (KvStore.insert (bstr "foo") (mkEntry (bstr "bar") (Some deadline)));;
  svc_execute (set "foo" "baz" None);;
  r ← on_cache (KvStore.expires_at (bstr "foo"));
  assert_eq r (Some None).

Definition execute_does_not_append_to_repo : Test Build :=
  svc_execute (set "foo" "bar" None);;
  svc_execute (CacheWrite (WDelete (bstr "foo")));;
  svc_execute (CacheWrite (WExpireAt (bstr "foo") (mkMilliseconds u64_max)));;
  l ← log;
  assert_eq l [].

Definition execute_logged_set_appends : Test Build :=
  svc_execute_logged (set "foo" "bar" None);;
  l ← log;
  assert_eq (length l) 1%nat;;
  assert_eq (l !! 0%nat) (Some (WSet (bstr "foo") (bstr "bar") None)).

Definition execute_logged_delete_appends : Test Build :=
  svc_execute_logged (CacheWrite (WDelete (bstr "foo")));;
  l ← log;
  assert_eq (l !! 0%nat) (Some (WDelete (bstr "foo"))).

Definition execute_logged_expire_at_appends : Test Build :=
  on_cache (KvStore.insert (bstr "foo") (mkEntry (bstr "bar") None));;
  svc_execute_logged (CacheWrite (WExpireAt (bstr "foo") (mkMilliseconds u64_max)));;
  l ← log;
  assert_eq (l !! 0%nat) (Some (WExpireAt (bstr "foo") (mkMilliseconds u64_max))).

Definition execute_logged_persist_appends : Test Build :=
  svc_execute_logged (CacheWrite (WPersist (bstr "foo")));;
  l ← log;
  assert_eq (l !! 0%nat) (Some (WPersist (bstr "foo"))).

Definition execute_logged_get_does_not_append : Test Build :=
  svc_execute_logged (CacheRead (RGet (bstr "foo")));;
  l ← log;
  assert_eq l [].

Definition execute_logged_exists_does_not_append : Test Build :=
  svc_execute_logged (CacheRead (RExists (bstr "foo")));;
  l ← log;
  assert_eq l [].

Definition execute_logged_ttl_does_not_append : Test Build :=
  svc_execute_logged (CacheRead (RTtl (bstr "foo")));;
  l ← log;
  assert_eq l [].

Definition execute_logged_set_returns_ok_outcome : Test Build :=
  r ← svc_execute_logged (set "foo" "bar" None);
  assert_eq r CoOk.

Lemma executor_tests_pass :
  forallb (passes build)
    [execute_get_miss_returns_value_none; execute_set_writes_to_cache;
     execute_set_with_deadline_writes_it_through; execute_plain_set_clears_an_existing_ttl;
     execute_does_not_append_to_repo; execute_logged_set_appends; execute_logged_delete_appends;
     execute_logged_expire_at_appends; execute_logged_persist_appends;
     execute_logged_get_does_not_append; execute_logged_exists_does_not_append;
     execute_logged_ttl_does_not_append; execute_logged_set_returns_ok_outcome] = true.
Proof. vm_compute. reflexivity. Qed.
End ExecutorTests.

(** ** channels.rs *)

Module ChannelsTests.

Abbreviation T A := (prog ChannelsState Panic A).

(** [mpsc::channel()]: sender and receiver are the number of the queue. *)
Definition mpsc_channel : T N :=
  atomic (m_zoom queuesL (fun qs => let '(tx, qs') := channel qs in (Ok tx, qs'))).

(** [rx.recv().unwrap()] on a queue that has a message; [rx.try_recv().is_err()]; and
    the drop of a receiver. *)
Definition rx_recv (rx : N) : T bytes :=
  unwrap (atomic (m_zoom queuesL (fun qs =>
    match pop rx qs with Some (msg, qs') => (Ok msg, qs') | None => (Err tt, qs) end))).
Definition try_recv_is_err (rx : N) : T bool :=
  atomic (m_zoom queuesL (fun qs => (Ok (bool_decide (pop rx qs = None)), qs))).
Definition drop_rx (rx : N) : T unit :=
  atomic (m_zoom queuesL (fun qs => (Ok (), drop_receiver rx qs))).

(** Registers a fresh subscriber and hands back the receiver's end. *)
Definition subscribe (id : N) (channel_id : string) : T N :=
  tx ← mpsc_channel;
  unwrap (Channels.subscribe (bstr channel_id) (mkSubscriber id tx));;
  mret tx.

Definition publish (message channel_id : string) : T N :=
  unwrap (Channels.publish map_to_list (bstr message) (bstr channel_id)).

Definition subscribe_then_publish_delivers_payload : Test ChannelsState :=
  rx ← subscribe 1 "foo";
  reached ← publish "hello" "foo";
  assert_eq reached 1;;
  m ← rx_recv rx;
  assert_eq m (bstr "hello").

Definition publish_to_unknown_channel_reaches_zero : Test ChannelsState :=
  reached ← publish "hello" "nope";
  assert_eq reached 0.

Definition publish_only_reaches_subscribers_of_that_channel : Test ChannelsState :=
  foo_rx ← subscribe 1 "foo";
  _bar_rx ← subscribe 2 "bar";
  reached ← publish "hi" "foo";
  assert_eq reached 1;;
  m ← rx_recv foo_rx;
  assert_eq m (bstr "hi").

Definition multiple_subscribers_all_receive_and_count : Test ChannelsState :=
  rx1 ← subscribe 1 "foo";
  rx2 ← subscribe 2 "foo";
  reached ← publish "yo" "foo";
  assert_eq reached 2;;
  m1 ← rx_recv rx1;
  assert_eq m1 (bstr "yo");;
  m2 ← rx_recv rx2;
  assert_eq m2 (bstr "yo").

Definition unsubscribe_stops_delivery : Test ChannelsState :=
  rx ← subscribe 1 "foo";
  unwrap (Channels.unsubscribe (bstr "foo") 1);;
  reached ← publish "hi" "foo";
  assert_eq reached 0;;
  e ← try_recv_is_err rx;
  assert_that e.

Definition resubscribe_same_id_is_idempotent : Test ChannelsState :=
  tx ← mpsc_channel;
  unwrap (Channels.subscribe (bstr "foo") (mkSubscriber 1 tx));;
  unwrap (Channels.subscribe (bstr "foo") (mkSubscriber 1 tx));;
  reached ← publish "hi" "foo";
  assert_eq reached 1;;
  m ← rx_recv tx;
  assert_eq m (bstr "hi").

Definition publish_prunes_dead_subscribers : Test ChannelsState :=
  live_rx ← subscribe 1 "foo";
  dead_rx ← subscribe 2 "foo";
  drop_rx dead_rx;;
  reached ← publish "one" "foo";
  assert_eq reached 1;;
  m ← rx_recv live_rx;
  assert_eq m (bstr "one");;
  reached ← publish "two" "foo";
  assert_eq reached 1;;
  m ← rx_recv live_rx;
  assert_eq m (bstr "two").

Definition unsubscribe_unknown_channel_is_noop : Test ChannelsState :=
  r ← attempt (Channels.unsubscribe (bstr "ghost") 1);
  assert_that (is_ok r).

Lemma channels_tests_pass :
  forallb (passes (channels_new ∅))
    [subscribe_then_publish_delivers_payload; publish_to_unknown_channel_reaches_zero;
     publish_only_reaches_subscribers_of_that_channel; multiple_subscribers_all_receive_and_count;
     unsubscribe_stops_delivery; resubscribe_same_id_is_idempotent; publish_prunes_dead_subscribers;
     unsubscribe_unknown_channel_is_noop] = true.
Proof. vm_compute. reflexivity. Qed.
End ChannelsTests.
