(* ===== verification/SessionTests.v ===== *)
(** * SessionTests: the unit tests of session.rs and inbound/mod.rs

    [replies_to] runs a whole session, the reader ahead of the writer; the tests of
    [execute_channel_command] run one read half, or two on one registry.  A hash
    table's iteration order is that of [map_to_list] and [elements]. *)

From stdpp Require Import vector finite.
From S2P Require Import Prelude Effects RustStd Time TestKit Command Cache Mpsc Channels Ports.
From S2P Require Import Executor Reply Inbound Session SessionSpec WriteHalf ReplSpec Crowd CodecTests.

Local Open Scope N_scope.

(** ** session.rs *)

Module SessionTests.

(** [Cursor<Vec<u8>>]. *)
Record Cursor : Type := mkCursor { unread : bytes }.
#[export] Instance Cursor_Read : Read Cursor :=
  fun n c => (Ok (take n (unread c)), mkCursor (drop n (unread c))).

Abbreviation TestService := (Executor Recording.RecordingRepo).
Definition service : TestService :=
  mkExecutor (cache_new ticking_clock ∅) (Recording.mkRecordingRepo (mutex_new [])).
Definition clk : Lens TestService Clock := lens_comp cacheL clockL.

(** A scheduler: the first thread that can step, steps. *)
Fixpoint drive {S E A} (fuel : nat) (c : list (prog S E A) * S) : list (prog S E A) * S :=
  match fuel with
  | O => c
  | Datatypes.S fuel' =>
      match list_find (fun i => is_Some (step_thread i c)) (seq 0 (length c.1)) with
      | Some (_, i) => drive fuel' (default c (step_thread i c))
      | None => c
      end
  end.

(** Every byte the client of a whole session gets back. *)
Definition replies_to (input : bytes) : option bytes :=
  let conn := repl_start (Session_new 1 (mkCursor input) (mkSharedWriter [])) (channels_new ∅)
                service false in
  match drive 200 (repl clk map_to_list elements 9 9 9 9, conn) with
  | (Done (Ok (Ok _)) :: _, c) => Some (written (bw_inner (wh_writer (co_wh c))))
  | _ => None
  end.

Definition replies (input expected : string) : Test unit :=
  match replies_to (lit input) with
  | Some bs => assert_eq bs (lit expected)
  | None => panic
  end.

Definition ping_answers_pong_as_a_simple_string : Test unit :=
  replies "*1\r\n$4\r\nPING\r\n" "+PONG\r\n".
Definition ping_with_a_message_echoes_it_as_a_bulk_string : Test unit :=
  replies "*2\r\n$4\r\nPING\r\n$5\r\nhello\r\n" "$5\r\nhello\r\n".
Definition ping_echoes_crlf_in_its_message_unchanged : Test unit :=
  replies "*2\r\n$4\r\nPING\r\n$4\r\na\r\nb\r\n" "$4\r\na\r\nb\r\n".

Lemma ping_tests_pass :
  forallb (passes ())
    [ping_answers_pong_as_a_simple_string; ping_with_a_message_echoes_it_as_a_bulk_string;
     ping_echoes_crlf_in_its_message_unchanged] = true.
Proof. vm_compute. reflexivity. Qed.

(** *** One read half *)

Abbreviation Half := (World Cursor TestService).

(** The read half of a session on a registry of its own, whose write half is kept. *)
Definition read_half (id : N) : Half :=
  co_world (repl_start (Session_new id (mkCursor []) (mkSharedWriter [])) (channels_new ∅)
              service false).

Definition rh_execute (c : ChannelCommand) : prog Half Panic ChannelCommandOutcome :=
  unwrap (execute_channel_command map_to_list elements c).
Definition publish (message channel_id : string) : prog Half Panic N :=
  unwrap (zoom channelsL (Channels.publish map_to_list (bstr message) (bstr channel_id))).

(** The entries of an outcome; a [PUBLISH] has none. *)
Definition entries (outcome : ChannelCommandOutcome) : prog Half Panic (list SubUnsubInnerEntry) :=
  match outcome with
  | CcoSubscribe inner | CcoUnsubscribe inner => mret inner
  | CcoPublish _ => panic
  end.
Definition counts (outcome : ChannelCommandOutcome) : prog Half Panic (list N) :=
  inner ← entries outcome;
  mret (map subscription_count inner).
Definition channel_ids (outcome : ChannelCommandOutcome) : prog Half Panic (list (option bytes)) :=
  inner ← entries outcome;
  mret (map su_channel_id inner).

Definition subscribe_emits_one_entry_per_channel_with_climbing_count : Test Half :=
  outcome ← rh_execute (Subscribe [bstr "a"; bstr "b"; bstr "c"]);
  ids ← channel_ids outcome;
  assert_eq ids [Some (bstr "a"); Some (bstr "b"); Some (bstr "c")];;
  ns ← counts outcome;
  assert_eq ns [1; 2; 3].

Definition subscribe_count_is_session_total_across_calls : Test Half :=
  rh_execute (Subscribe [bstr "a"]);;
  outcome ← rh_execute (Subscribe [bstr "b"]);
  ns ← counts outcome;
  assert_eq ns [2].

Definition resubscribe_same_channel_does_not_climb : Test Half :=
  rh_execute (Subscribe [bstr "foo"]);;
  outcome ← rh_execute (Subscribe [bstr "foo"]);
  ns ← counts outcome;
  assert_eq ns [1].

Definition unsubscribe_descends_count : Test Half :=
  rh_execute (Subscribe [bstr "a"; bstr "b"; bstr "c"]);;
  outcome ← rh_execute (Unsubscribe [bstr "a"; bstr "c"]);
  ns ← counts outcome;
  assert_eq ns [2; 1].

(** The acknowledged channels in any order: [acked.sort()] and a comparison. *)
Definition unsubscribe_no_args_leaves_every_channel : Test Half :=
  rh_execute (Subscribe [bstr "a"; bstr "b"; bstr "c"]);;
  outcome ← rh_execute (Unsubscribe []);
  ns ← counts outcome;
  assert_eq ns [2; 1; 0];;
  ids ← channel_ids outcome;
  let acked := omap id ids in
  assert_that (bool_decide (acked ≡ₚ [bstr "a"; bstr "b"; bstr "c"]));;
  n ← publish "x" "a"; assert_eq n 0;;
  n ← publish "x" "b"; assert_eq n 0;;
  n ← publish "x" "c"; assert_eq n 0.

Definition unsubscribe_no_args_while_subscribed_to_nothing_acks_null_channel : Test Half :=
  outcome ← rh_execute (Unsubscribe []);
  match outcome with
  | CcoUnsubscribe inner =>
      assert_eq (length inner) 1%nat;;
      assert_eq (su_channel_id <$> inner !! 0%nat) (Some None);;
      assert_eq (subscription_count <$> inner !! 0%nat) (Some 0)
  | _ => panic
  end.

Definition publish_to_no_subscribers_reaches_zero : Test Half :=
  outcome ← rh_execute (Publish (bstr "foo") (bstr "bar"));
  match outcome with CcoPublish sent_count => assert_eq sent_count 0 | _ => panic end.

Definition unsubscribe_from_all_removes_session_from_registry : Test Half :=
  rh_execute (Subscribe [bstr "foo"; bstr "bar"]);;
  results ← unwrap (unsubscribe_from_all elements);
  assert_that (forallb is_ok results);;
  n ← publish "x" "foo"; assert_eq n 0;;
  n ← publish "x" "bar"; assert_eq n 0.

Lemma read_half_tests_pass :
  forallb (passes (read_half 1))
    [subscribe_emits_one_entry_per_channel_with_climbing_count;
     subscribe_count_is_session_total_across_calls; resubscribe_same_channel_does_not_climb;
     unsubscribe_descends_count; unsubscribe_no_args_leaves_every_channel;
     unsubscribe_no_args_while_subscribed_to_nothing_acks_null_channel;
     publish_to_no_subscribers_reaches_zero;
     unsubscribe_from_all_removes_session_from_registry] = true.
Proof. vm_compute. reflexivity. Qed.

(** *** Two sessions on one registry *)

Abbreviation Two := (Site Cursor SharedWriter TestService 2).
Definition two_sessions : Two :=
  crowd_start [# Session_new 1 (mkCursor []) (mkSharedWriter []);
                 Session_new 2 (mkCursor []) (mkSharedWriter []) ] service.

Definition publish_delivers_message_array_to_subscriber_and_counts : Test Two :=
  let subscriber := connL 0%fin in
  let publisher := connL 1%fin in
  unwrap (zoom (lens_comp subscriber worldL)
    (execute_channel_command map_to_list elements (Subscribe [bstr "foo"])));;
  outcome ← unwrap (zoom (lens_comp publisher worldL)
    (execute_channel_command map_to_list elements (Publish (bstr "foo") (bstr "bar"))));
  match outcome with CcoPublish sent_count => assert_eq sent_count 1 | _ => panic end;;
  let expected := to_bytes (RArray [RBulkString (bstr "message"); RBulkString (bstr "foo");
                                    RBulkString (bstr "bar")]) in
  m ← unwrap (zoom subscriber recv);
  assert_eq m expected.

Lemma two_sessions_test_passes :
  passes two_sessions publish_delivers_message_array_to_subscriber_and_counts = true.
Proof. vm_compute. reflexivity. Qed.
End SessionTests.

(** ** inbound/mod.rs *)

Module InboundTests.

Abbreviation T := (Test unit).
Abbreviation maps_to outcome reply := (assert_eq (Reply_from_CommandOutcome outcome) reply).

Definition value_some_maps_to_bulk_string : T :=
  maps_to (CoValue (Some (bstr "foo"))) (RBulkString (bstr "foo")).
Definition value_none_maps_to_null_bulk : T := maps_to (CoValue None) RNullBulk.
Definition ok_maps_to_simple_string_ok : T := maps_to CoOk (RSimpleString SimpleInner_ok).
Definition pong_none_maps_to_simple_string_pong : T :=
  maps_to (CoPong None) (RSimpleString SimpleInner_pong).
Definition pong_some_maps_to_bulk_string : T :=
  maps_to (CoPong (Some (bstr "hi"))) (RBulkString (bstr "hi")).
Definition pong_some_with_crlf_keeps_its_bytes : T :=
  maps_to (CoPong (Some (lit "hi\r\nthere"))) (RBulkString (lit "hi\r\nthere")).
Definition bool_true_maps_to_integer_one : T := maps_to (CoBool true) (RInteger 1).
Definition bool_false_maps_to_integer_zero : T := maps_to (CoBool false) (RInteger 0).
Definition ttl_key_not_found_maps_to_integer_negative_two : T :=
  maps_to (CoTtl KeyNotFound) (RInteger (-2)).
Definition ttl_ttl_not_found_maps_to_integer_negative_one : T :=
  maps_to (CoTtl TtlNotFound) (RInteger (-1)).
Definition ttl_some_maps_to_integer : T := maps_to (CoTtl (TtlSome (mkSeconds 123))) (RInteger 123).
Definition ttl_some_overflow_saturates_to_i64_max : T :=
  maps_to (CoTtl (TtlSome (mkSeconds u64_max))) (RInteger i64_max).
Definition integer_passes_through : T :=
  maps_to (CoInteger 42) (RInteger 42);;
  maps_to (CoInteger (-7)) (RInteger (-7)).

Abbreviation ack verb ch n := (RArray [RBulkString (bstr verb); RBulkString (bstr ch); RInteger n]).

Definition subscribe_outcome_maps_to_per_channel_arrays : T :=
  let replies := Replies_from_ChannelCommandOutcome (CcoSubscribe
    [SubUnsubInnerEntry_new (bstr "foo") 1; SubUnsubInnerEntry_new (bstr "bar") 2]) in
  assert_eq (replies_inner replies) [ack "subscribe" "foo" 1; ack "subscribe" "bar" 2].

Definition subscribe_outcome_wire_bytes : T :=
  let replies := Replies_from_ChannelCommandOutcome (CcoSubscribe
    [SubUnsubInnerEntry_new (bstr "foo") 1]) in
  assert_eq (Replies_to_bytes replies) (lit "*3\r\n$9\r\nsubscribe\r\n$3\r\nfoo\r\n:1\r\n").

Definition unsubscribe_outcome_maps_to_per_channel_arrays : T :=
  let replies := Replies_from_ChannelCommandOutcome (CcoUnsubscribe
    [SubUnsubInnerEntry_new (bstr "foo") 0]) in
  assert_eq (replies_inner replies) [ack "unsubscribe" "foo" 0].

Definition unsubscribe_all_when_empty_maps_to_null_channel : T :=
  let replies := Replies_from_ChannelCommandOutcome (CcoUnsubscribe
    [SubUnsubInnerEntry_new_null 0]) in
  assert_eq (replies_inner replies)
    [RArray [RBulkString (bstr "unsubscribe"); RNullBulk; RInteger 0]];;
  assert_eq (Replies_to_bytes replies) (lit "*3\r\n$11\r\nunsubscribe\r\n$-1\r\n:0\r\n").

Definition publish_outcome_maps_to_single_integer : T :=
  let replies := Replies_from_ChannelCommandOutcome (CcoPublish 3) in
  assert_eq (replies_inner replies) [RInteger 3];;
  assert_eq (Replies_to_bytes replies) (lit ":3\r\n").

Definition empty_subscribe_outcome_maps_to_no_replies : T :=
  let replies := Replies_from_ChannelCommandOutcome (CcoSubscribe []) in
  assert_eq (replies_inner replies) [];;
  assert_eq (Replies_to_bytes replies) [].

Lemma inbound_tests_pass :
  forallb (passes ())
    [value_some_maps_to_bulk_string; value_none_maps_to_null_bulk; ok_maps_to_simple_string_ok;
     pong_none_maps_to_simple_string_pong; pong_some_maps_to_bulk_string;
     pong_some_with_crlf_keeps_its_bytes; bool_true_maps_to_integer_one;
     bool_false_maps_to_integer_zero; ttl_key_not_found_maps_to_integer_negative_two;
     ttl_ttl_not_found_maps_to_integer_negative_one; ttl_some_maps_to_integer;
     ttl_some_overflow_saturates_to_i64_max; integer_passes_through;
     subscribe_outcome_maps_to_per_channel_arrays; subscribe_outcome_wire_bytes;
     unsubscribe_outcome_maps_to_per_channel_arrays; unsubscribe_all_when_empty_maps_to_null_channel;
     publish_outcome_maps_to_single_integer; empty_subscribe_outcome_maps_to_no_replies] = true.
Proof. vm_compute. reflexivity. Qed.
End InboundTests.
