(* ===== verification/PersisterTests.v ===== *)
(** * PersisterTests: the unit tests of outbound/persister/

    They run on a cache and a persister over files without faults, on temporary paths
    as test_support.rs makes them.  The serializer is [frames_wincode]. *)

From S2P Require Import Prelude Effects RustStd Time TestKit.
From S2P Require Import Command Frame Reply Cache Ports Files Persister Recovery.

#[local] Existing Instance frames_wincode.

(** ** Fixtures *)

Abbreviation Disk := (CacheState * Persister)%type.
Abbreviation T A := (prog Disk Panic A).

(** [fs::remove_file]. *)
Definition remove_file (path : bytes) : M Fs IoError unit :=
  fs_op (fun files => match files !! path with
                      | Some _ => (Ok (), delete path files)
                      | None => (Err NotFound, files)
                      end)
        (fun _ files => files).

(** test_support.rs: a path of its own for each test, under the directory for
    temporary files, with the process's id and a counter in its name; what is left
    there from before is removed, and so is what the test leaves. *)
Record TempPath : Type := mkTempPath { temp_path : bytes }.

Section temp_path.
Context (temp_dir : bytes) (process_id : N).

Definition remove_both (path : bytes) (fs : Fs) : Fs :=
  (remove_file (with_extension path (bstr "tmp")) (remove_file path fs).2).2.

(** On the files and the counter. *)
Definition TempPath_new (prefix : bytes) : Fs * N -> TempPath * (Fs * N) := fun '(fs, counter) =>
  let id := counter in
  let path := temp_dir ++ bstr "/steller_" ++ prefix ++ bstr "_" ++ display_N process_id ++
                bstr "_" ++ display_N id in
  (mkTempPath path, (remove_both path fs, ((counter + 1) `mod` 18446744073709551616)%N)).

Definition TempPath_drop (self : TempPath) (fs : Fs) : Fs := remove_both (temp_path self) fs.

(** Two tests with one prefix have different paths, if their numbers differ. *)
Lemma temp_paths_differ prefix fs fs' n n' :
  is_u64 n -> is_u64 n' ->
  (TempPath_new prefix (fs, n)).1 = (TempPath_new prefix (fs', n')).1 -> n = n'.
Proof.
  intros Hn Hn' He%(f_equal temp_path). cbn [TempPath_new fst temp_path] in He.
  repeat apply app_inv_head in He. by apply display_N_inj.
Qed.
End temp_path.

Definition temp (prefix : string) : Fs * N -> TempPath * (Fs * N) :=
  TempPath_new (bstr "/tmp") 4242 (bstr prefix).

(** Both paths, [PersisterInner::try_from] on them, and an empty cache. *)
Definition aof_path : bytes := temp_path (temp "persister_aof" (mkFs ∅ (fun _ => None) 0, 0%N)).1.
Definition snapshot_path : bytes :=
  temp_path (temp "persister_snapshot" (temp "persister_aof" (mkFs ∅ (fun _ => None) 0, 0%N)).2).1.

Definition fresh : option Disk :=
  let '(aof_t, s) := temp "persister_aof" (mkFs ∅ (fun _ => None) 0, 0%N) in
  let '(snapshot_t, (fs, _)) := temp "persister_snapshot" s in
  match (aof ← PersisterInner_try_from (temp_path aof_t);
         snapshot ← PersisterInner_try_from (temp_path snapshot_t);
         mret (aof, snapshot)) fs with
  | (Ok (aof, snapshot), fs') => Some (cache_new ticking_clock ∅, mkPersister fs' aof snapshot)
  | _ => None
  end.

(** What a test does on the persister, on the cache, and on the files behind their
    backs. *)
Definition on_persister {E A} (p : prog Persister E A) : T A := unwrap (zoom lens_snd p).
Definition on_cache {E A} (p : prog CacheState E A) : T A := unwrap (zoom lens_fst p).
Definition on_fs {A} (m : M Fs IoError A) : T A :=
  unwrap (atomic (m_zoom (lens_comp lens_snd fsL) m)).

Definition append (wc : WriteCommand) : T unit := on_persister (Aof.append wc).
Definition fs_read (path : bytes) : T bytes := on_fs (file_open path;; file_read_to_end path).
Definition fs_write (path b : bytes) : T unit := on_fs (file_open_append path;; file_write_all path b).
Definition fs_exists (path : bytes) : T bool :=
  on_fs (fun fs => (Ok (bool_decide (is_Some (fs_files fs !! path))), fs)).
Definition cache_len : T nat :=
  on_cache (locked innerL tt (guard ← guard_get innerL; mret (size (guard : CacheMap)))).

Abbreviation set k v := (WSet (bstr k) (bstr v) None).
Abbreviation plain v := (mkEntry (bstr v) None).

(** ** aof.rs *)

Module AofTests.

Definition append_writes_resp_frame_to_disk : Test Disk :=
  append (set "foo" "bar");;
  bytes ← fs_read aof_path;
  assert_eq bytes (lit "*3\r\n$3\r\nSET\r\n$3\r\nfoo\r\n$3\r\nbar\r\n").

Definition append_reaches_the_file_before_it_returns : Test Disk :=
  append (WDelete (bstr "foo"));;
  bytes ← fs_read aof_path;
  assert_eq bytes (lit "*2\r\n$3\r\nDEL\r\n$3\r\nfoo\r\n").

Definition append_writes_set_deadline_as_pxat : Test Disk :=
  append (WSet (bstr "foo") (bstr "bar") (Some (mkMilliseconds 1700000000000)));;
  bytes ← fs_read aof_path;
  assert_eq bytes
    (lit "*5\r\n$3\r\nSET\r\n$3\r\nfoo\r\n$3\r\nbar\r\n$4\r\nPXAT\r\n$13\r\n1700000000000\r\n").

Definition append_multiple_commands_concatenates : Test Disk :=
  append (set "a" "1");;
  append (WDelete (bstr "a"));;
  bytes ← fs_read aof_path;
  assert_eq bytes
    (lit "*3\r\n$3\r\nSET\r\n$1\r\na\r\n$1\r\n1\r\n*2\r\n$3\r\nDEL\r\n$1\r\na\r\n").

Definition replay_empty_file_is_noop : Test Disk :=
  unwrap Aof.replay;;
  n ← cache_len;
  assert_eq n 0.

Definition replay_applies_set_to_cache : Test Disk :=
  append (set "foo" "bar");;
  unwrap Aof.replay;;
  r ← on_cache (KvStore.get (bstr "foo"));
  assert_eq r (Some (plain "bar")).

Definition replay_applies_commands_in_order : Test Disk :=
  append (set "foo" "old");;
  append (set "foo" "new");;
  append (WDelete (bstr "gone"));;
  unwrap Aof.replay;;
  r ← on_cache (KvStore.get (bstr "foo"));
  assert_eq r (Some (plain "new"));;
  r ← on_cache (KvStore.get (bstr "gone"));
  assert_eq r None.

Definition replay_preserves_a_set_deadline_exactly : Test Disk :=
  let deadline := mkMilliseconds (u64_max - 1) in
  append (WSet (bstr "foo") (bstr "bar") (Some deadline));;
  unwrap Aof.replay;;
  r ← on_cache (KvStore.expires_at (bstr "foo"));
  assert_eq r (Some (Some deadline)).

Definition replay_applies_expire_at : Test Disk :=
  append (set "foo" "bar");;
  append (WExpireAt (bstr "foo") (mkMilliseconds u64_max));;
  unwrap Aof.replay;;
  r ← on_cache (KvStore.expires_at (bstr "foo"));
  assert_eq r (Some (Some (mkMilliseconds u64_max))).

Definition replay_trailing_partial_frame_is_tolerated : Test Disk :=
  append (set "foo" "bar");;
  fs_write aof_path (lit "*3\r\n$3\r\nSET\r\n");;
  unwrap Aof.replay;;
  r ← on_cache (KvStore.get (bstr "foo"));
  assert_eq r (Some (plain "bar")).

Definition replay_malformed_frame_errors : Test Disk :=
  fs_write aof_path (lit "?bogus\r\n");;
  r ← attempt Aof.replay;
  assert_that (match r with Err (AofFrame _) => true | _ => false end).

Definition clear_truncates_file : Test Disk :=
  append (set "foo" "bar");;
  on_persister Aof.clear;;
  bytes ← fs_read aof_path;
  assert_eq (length bytes) 0.

Definition clear_allows_subsequent_appends : Test Disk :=
  append (set "old" "v");;
  on_persister Aof.clear;;
  append (set "new" "v");;
  unwrap Aof.replay;;
  r ← on_cache (KvStore.get (bstr "old"));
  assert_eq r None;;
  r ← on_cache (KvStore.get (bstr "new"));
  assert_eq r (Some (plain "v")).

Definition clear_after_a_flushed_writer_leaves_no_hole : Test Disk :=
  for_each (seq 0 2) (fun _ =>
    for_each (seq 0 400) (fun _ => append (set "k" "v"));;
    on_persister Aof.clear;;
    bytes ← fs_read aof_path;
    assert_eq (length bytes) 0);;
  append (set "after" "v");;
  bytes ← fs_read aof_path;
  assert_that (bool_decide (x00 ∉ bytes));;
  unwrap Aof.replay;;
  r ← on_cache (KvStore.get (bstr "after"));
  assert_eq r (Some (plain "v"));;
  n ← cache_len;
  assert_eq n 1.

Definition aof_tests : list (Test Disk) :=
  [append_writes_resp_frame_to_disk; append_reaches_the_file_before_it_returns;
   append_writes_set_deadline_as_pxat; append_multiple_commands_concatenates;
   replay_empty_file_is_noop; replay_applies_set_to_cache; replay_applies_commands_in_order;
   replay_preserves_a_set_deadline_exactly; replay_applies_expire_at;
   replay_trailing_partial_frame_is_tolerated; replay_malformed_frame_errors;
   clear_truncates_file; clear_allows_subsequent_appends;
   clear_after_a_flushed_writer_leaves_no_hole].

Lemma aof_tests_pass : (fun s => forallb (passes s) aof_tests) <$> fresh = Some true.
Proof. vm_compute. reflexivity. Qed.
End AofTests.

(** ** snapshot.rs *)

Module SnapshotTests.

Definition load_empty_file_returns_empty_map : Test Disk :=
  map ← on_persister snapshot_load;
  assert_that (bool_decide (map = ∅)).

Definition store_then_load_round_trips (map : CacheMap) : Test Disk :=
  on_persister (snapshot_store map);;
  loaded ← on_persister snapshot_load;
  assert_eq loaded map.

Definition store_then_load_round_trips_single_entry : Test Disk :=
  store_then_load_round_trips {[ bstr "foo" := plain "bar" ]}.

Definition store_then_load_round_trips_multiple_entries : Test Disk :=
  store_then_load_round_trips
    (<[bstr "c" := mkEntry [xff; x00; x7f] None]>
     (<[bstr "b" := mkEntry (bstr "2") (Some (mkMilliseconds 1700000000))]>
      {[ bstr "a" := plain "1" ]})).

Definition store_overwrites_previous_snapshot : Test Disk :=
  on_persister (snapshot_store {[ bstr "foo" := plain "old" ]});;
  store_then_load_round_trips {[ bstr "foo" := plain "new" ]}.

Definition store_leaves_no_lingering_tmp_file : Test Disk :=
  on_persister (snapshot_store {[ bstr "foo" := plain "bar" ]});;
  e ← fs_exists (with_extension snapshot_path (bstr "tmp"));
  assert_that (negb e).

Definition load_missing_file_errors : Test Disk :=
  on_fs (remove_file snapshot_path);;
  r ← attempt (zoom lens_snd snapshot_load : prog Disk SnapshotError CacheMap);
  assert_that (match r with Err (SnIo _) => true | _ => false end).

Definition snapshot_tests : list (Test Disk) :=
  [load_empty_file_returns_empty_map; store_then_load_round_trips_single_entry;
   store_then_load_round_trips_multiple_entries; store_overwrites_previous_snapshot;
   store_leaves_no_lingering_tmp_file; load_missing_file_errors].

Lemma snapshot_tests_pass : (fun s => forallb (passes s) snapshot_tests) <$> fresh = Some true.
Proof. vm_compute. reflexivity. Qed.
End SnapshotTests.

(** ** mod.rs *)

Module PersisterModTests.

(** [persister.append] and [persister.snapshot], [flush_aof], and the length of a
    file. *)
Definition p_append (wc : WriteCommand) : T unit := on_persister (persister_append wc).
Definition p_snapshot : T unit := unwrap persister_snapshot.
Definition flush_aof : T unit :=
  on_persister (locked aof_writerL tt (m_map_err (fun _ => tt) (m_zoom aof_fileL flush))).
Definition file_len (path : bytes) : T nat :=
  bytes ← fs_read path;
  mret (length bytes).

Definition append_writes_to_aof_only : Test Disk :=
  p_append (set "foo" "bar");;
  flush_aof;;
  n ← file_len aof_path;
  assert_that (0 <? n);;
  n ← file_len snapshot_path;
  assert_eq n 0.

Definition snapshot_persists_cache_contents : Test Disk :=
  on_cache (KvStore.insert (bstr "foo") (plain "bar"));;
  p_snapshot;;
  loaded ← on_persister snapshot_load;
  assert_eq (loaded !! bstr "foo") (Some (plain "bar")).

Definition snapshot_clears_the_aof : Test Disk :=
  p_append (set "foo" "bar");;
  flush_aof;;
  n ← file_len aof_path;
  assert_that (0 <? n);;
  on_cache (KvStore.insert (bstr "foo") (plain "bar"));;
  p_snapshot;;
  n ← file_len aof_path;
  assert_eq n 0.

(** The recovered cache takes the place of the one that was stored. *)
Definition append_after_snapshot_resumes_logging : Test Disk :=
  on_cache (KvStore.insert (bstr "foo") (plain "bar"));;
  p_snapshot;;
  p_append (WDelete (bstr "foo"));;
  flush_aof;;
  loaded ← on_persister snapshot_load;
  on_cache (E := unit) (atomic (fun c => (Ok (), cache_new (cs_clock c) loaded)));;
  unwrap Aof.replay;;
  r ← on_cache (KvStore.get (bstr "foo"));
  assert_eq r None.

Definition persister_tests : list (Test Disk) :=
  [append_writes_to_aof_only; snapshot_persists_cache_contents; snapshot_clears_the_aof;
   append_after_snapshot_resumes_logging].

Lemma persister_tests_pass : (fun s => forallb (passes s) persister_tests) <$> fresh = Some true.
Proof. vm_compute. reflexivity. Qed.
End PersisterModTests.
