(* ===== verification/ServerTests.v ===== *)
(** * ServerTests: the unit test of server.rs

    [trigger_shutdown] on a listener nobody accepts from: the flag is up, and a
    connection waits. *)

From S2P Require Import Prelude Effects TestKit Server.

(** One move of [trigger_shutdown], the call it makes going through. *)
Definition trigger_move (pc : TriggerPc) : prog Server Panic Thread :=
  Step (fun s => match trigger_shutdown pc Fine s with
                 | Some (t, s') => Some (Done (Ok t), s')
                 | None => None
                 end).

(** A listener, the flag down, and nothing else. *)
Definition listener : Server := mkServer false false [] 0%N [] [] MHead [].

Definition trigger_shutdown_sets_the_flag_and_wakes_the_listener : Test Server :=
  t ← trigger_move TsStore;
  match t with
  | TTrigger pc =>
      t' ← trigger_move pc;
      assert_that (match t' with TFinished => true | _ => false end);;
      s ← state;
      assert_that (sv_shutdown s);;
      assert_that (bool_decide (0 < length (sv_backlog s)))
  | _ => panic
  end.

Lemma server_test_passes :
  passes listener trigger_shutdown_sets_the_flag_and_wakes_the_listener = true.
Proof. vm_compute. reflexivity. Qed.
